(* ===== verification/_CoqProject ===== *)
-Q . S2P
Prelude.v
Strings.v
Bytes.v
Base62.v
Hash.v
Wire.v
State.v
Buffer.v
Publisher.v
Ingest.v
Node.v
Cluster.v
Backups.v
Coordinator.v
Api.v
Consumer.v
Mappings.v
Index.v
Apply.v
Redo.v
Values.v
Document.v
Shard.v
Replay.v
Drain.v
MinShould.v
Query.v
QueryFacts.v
TimeRange.v
Search.v
Blob.v
Archive.v
NodeBackup.v
RoundTrip.v
Bulk.v
Auth.v
Accounts.v
Changes.v
