(* ===== verification/Prelude.v ===== *)
(** * ZincSearch: a verified model

    ZincSearch is a search server. This development models the part of it that
    replicates a set of nodes from a NATS JetStream stream: the coordinator that
    publishes documents and looks after the nodes, the consumer and the applier of a
    node, the indexes the applier writes to, and the shards below them, which check
    documents, log them and bring them into the search engine. Around that core it models
    how a query is translated and which shards it reads, the backups of a node, the HTTP
    interface of the coordinator, and the users, roles and routes of a node.

    ** The program

    Producers hand documents to the coordinator. Its publisher sends them to the stream,
    or parks them in a local log while the stream is away, and sends the log in order
    when it is back. Every node reads the same stream from its own offset, applies each
    message to its indexes, makes that durable and then moves the offset. Coordinators
    poll the nodes, decide together who is the master, take and prune backups of the
    nodes and check them; one of them holds a lease and does the jobs.

    An index has shards by hash, and each of these has second-layer shards, the last of
    which takes the new documents. Writing a document checks it against the mappings of
    the index, which it may extend, and appends it to the log of its shard. Rounds in
    the background read the log, merge what it does to each document and write that to the
    engine, between two records of the redo log that tell what to do after a crash.

    A search is a tree of objects, translated into a query of the engine; its range of
    time decides which second-layer shards are opened. A backup of a node is an archive of
    its metadata and of snapshots of its shards, with a manifest that lists both. A request
    to a node carries a user and a password; users and roles are stored in the metadata,
    and checked against copies in memory.

    ** The files

    - [Prelude]: machine integers, Go errors and results, the monad of state and error
      of every stateful definition ([M]), relations that a computation keeps ([keeps],
      with the hint database [keeps] and [solve_keeps]), lists.
    - [Strings], [Bytes]: the string and byte functions of Go that the code uses.
    - [Base62]: zutils/base62 and ider: identifiers and the nodes that make them.
    - [Hash]: zutils/hash: FNV-1a and the ring that assigns documents to shards.
    - [Wire]: streaming/wire: messages, their encoding and decoding.
    - [State]: coordinator/state: the store of shared records, as an interface with
      laws ([Store], [StoreLaws]), the store in memory as an instance, and the lease.
      [LeaseSystem] is the abstract system of all holders.
    - [Buffer]: coordinator/buffer: the durable queue over a key-value file, refining a
      list.
    - [Publisher]: coordinator/publisher.go; [PublisherSystem] is the abstract system of
      calls, deliveries and drains.
    - [Ingest]: parseDocs, ingest and admin of coordinator/api.go: from the body of a
      request to the publisher.
    - [Node]: coordinator/node.go, the requests to a node.
    - [Cluster]: coordinator/monitor.go and failover.go; [ClusterSystem] is the abstract
      system of coordinators that share the decision about the master.
    - [Backups]: coordinator/backups.go over the object store's interface.
    - [Coordinator]: coordinator/coordinator.go: configuration, leadership, the loop.
    - [Api]: the other endpoints of coordinator/api.go, and who may use which.
    - [Consumer]: streaming/consumer.go and offset.go, over interfaces of the stream, the
      applier, the offset and the outside, each with its laws.
    - [Mappings]: meta/mappings.go, uquery/mappings, and what core/index.go does with
      mappings.
    - [Index]: core/indexlist.go, newindex.go, deleteindex.go, stream.go: the list of
      indexes over interfaces of the metadata and of the files.
    - [Apply]: streaming/apply.go over [Index], as the applier of [Consumer]: here the
      promises of the two components meet ([traced_laws], [node_never_loses]).
    - [Redo]: wal/redo: the small file of records, and the interface of it ([RedoLog],
      [RedoLogLaws]) that shards use; a file that is written as a whole or not at all
      makes the log an instance.
    - [Values]: decoded documents: numbers as IEEE floats ([spec_float]), slices with
      their identity because documents are changed in place, zutils/flatten, the
      conversions of zutils/strconv.go and time.go.
    - [Document]: core/index_shards_document.go: mapping, checking and building.
    - [Shard]: core/index_shards_wal.go, index_shards.go, index_document.go: a shard over
      interfaces of the redo log, of the log of entries and of the engine.
    - [Replay]: the laws of those interfaces, and what a shard guarantees ([step] is
      what may happen to it).
    - [Drain]: streaming/service.go: pausing the consumer until the logs are written.
    - [MinShould]: zutils/min_should.go: how many optional clauses must match.
    - [Query], [QueryFacts]: uquery/query: the translation of queries, and what it
      guarantees.
    - [TimeRange]: uquery/timerange: the range of time of a query.
    - [Search]: core/search.go, multi_search.go and the readers of index_shards.go: which
      shards a search opens.
    - [Blob]: coordinator/blob/fs.go: the object store over a directory, as an instance of
      the interface that [Backups] uses.
    - [Archive]: the format of backup/archive.go: reading, verifying.
    - [NodeBackup]: backup/create.go, restore.go and store.go over interfaces of the node's
      metadata, indexes and files; [RoundTrip]: what is restored is what was backed up.
    - [Bulk]: handlers/document: the workers that read documents line by line, over an
      interface of the indexes ([DocIndexes]).
    - [Auth]: auth: credentials, users, roles, permissions and the start of the process,
      over an interface of the metadata ([UserDB]); [UserPromises] is what every store of
      the metadata keeps, [UserLaws] adds that a write that fails has changed nothing, as
      bolt and badger promise and etcd, whose calls can time out, does not. There a request
      that changes accounts runs in one piece.
    - [Accounts]: the routes of routes/routes.go with their permissions, and the handlers
      of handlers/auth over [Auth].
    - [Changes]: requests that change accounts at the same time and interleave between
      their accesses to the metadata and to the copies in memory.

    ** How the code is read

    A Go function is a definition of the same name; [name_] or a longer name where Rocq or
    a second package has the name. A struct is a record, a method takes its receiver. A
    function that changes state is a computation in [M S]: it answers a value or an error
    and the state it leaves, also when it fails. Code that is not in the repository
    (JetStream, bbolt, HTTP, encoding/json, the search engine, the clock) is a class of
    operations with a class of laws, and every theorem with laws has a witness at a
    concrete instance. A goroutine is a sequence of turns of its loop; other goroutines
    come between the turns, as steps of a relation ([PublisherSystem.step], [turn],
    [Coordinator.handle]). Integers that can wrap do ([u64], [i64]). A run-time panic is
    an error with the tag of [Panic], or [None]. The order of Go's [range] over a map is
    an argument or a class ([range_]), never assumed.

    ** What is shown

    - No loss and order, end to end: a request to publish is split without loss and the
      answer says what was taken ([ingest_exact]); what was accepted is in the stream or in
      the log, in order ([publisher_no_loss], [publisher_order]); the offset of a node never
      passes what a crash could lose ([consumer_safe], [node_never_loses]): what it passes
      without applying it was refused for good, cannot be decoded, was lost between the
      server and the node ([missed]; [lost_delivery_skipped] is such a run), or had been
      dropped by the stream where gaps are allowed; messages are applied in order
      ([consumer_in_order]) and again with the result of the last pass
      ([applyDocs_retry]), each to its own index ([Apply_frame]); a pause that is reported
      has nothing left to write, in shards whose documents are written with update
      ([drain_freezes]).
    - Agreement: one holder of the lease ([lease_mutual_exclusion]), one master per
      epoch ([one_master_per_epoch]), and the detailed definitions are runs of the
      abstract systems ([Acquire_runs], [promote_runs], [publish_runs], [drain_runs]).
    - Jobs: failover, pruning, verification and backups do what they promise and no
      harm ([FailoverOnce_promotes], [Prune_safe], [VerifyOnce_innocent],
      [BackupOnce_sound]); the loop stops clean ([Run_stops]), a follower only watches.
    - Shards: what was logged is not truncated before the redo log has it as committed
      ([entry_kept]), is consumed in a bounded number of rounds ([consume_catches_up]), and
      every document whose entries are committed is in the engine as its last entry says,
      once, whatever fails and wherever the process ends ([shard_exact]); all of this is for
      documents that are written with update, as the applier does, and it fails for
      insertions ([insert_twice]). Checking keeps the
      mappings well-formed ([CheckDocument_mappings]), and what is accepted can be built
      ([accepted_builds]).
    - Searches: the translation of a query ends ([Query_terminates]), its result can be
      given to the engine ([Query_well_made]), does not depend on the order of a map where
      it should not ([bool_query_order], [Query_one_object]) and asks for a possible number
      of clauses ([CalculateMin_bounds]); the range of time holds every document that
      matches, for the queries it is right for ([found_within]), and the shards that are
      opened hold every document of the range when documents come in the order of time
      ([search_misses_nothing]).
    - Backups of a node: an archive is accepted exactly when it is what its manifest says
      ([Verify_exact]); a restore is complete, or has left at most what it moved and could
      not remove again ([Restore_all_or_nothing]), and restores what was backed up when the
      manifest is not too large to be read ([backup_roundtrip]). The object store over a
      directory keeps the promises of its interface for the names that it lists
      ([blob_refines], [hidden_object]).
    - Documents in bulk: a body does what its lines mean, and its items answer the actions
      one by one ([bulk_exact]); one document per line is the same
      request as the documents in one object ([multi_bulkv2]).
    - Who may do what: the API of the coordinator asks for its token and its leader
      ([api_guarded]) and reads without changing ([api_reads]). A request to a node passes
      exactly for a known user with the password and the permission ([access_exact]), who is
      stored, when accounts are changed one at a time ([admitted_stored]), until deleted or
      given a new password ([revocation]); with changes that overlap and any metadata it was
      stored at some time ([admitted_was_stored]), and may be deleted since
      ([deleted_user_passes]); every
      route but a few asks for a permission ([routes_guarded]), and a request without it
      changes nothing ([accounts_guarded]).
    - Data: queue refinements, hash ring, wire format, identifiers ([base62_roundtrip],
      [identifiers_apart]), mapping requests (termination and types), well-formed index
      lists.
    - Defects of the code that modelling showed are theorems too
      ([set_mapping_empty_panics], [set_mapping_retry_not_stored],
      [set_mapping_half_applied], [delete_retry_succeeds], [lost_delivery_skipped],
      [Remove_always_panics], [Decode_Encode_empty_doc], [publish_lost_ack],
      [option_type_panics], [subfield_type_unchecked], [DeepClone_loses_time_zone],
      [nan_not_invalid], [later_mapping_panics], [subfield_panics],
      [keyword_changes_type], [insert_twice], [batch_order_matters],
      [rollback_failure_unlisted], [range_not_positive], [late_document_missed],
      [should_restricts], [zone_ignored], [number_panics], [first_analyzer],
      [empty_clause], [hidden_object], [directory_not_missing], [cut_line],
      [failover_stale_answer], [failed_list_resets_admin], [empty_password_user],
      [deleted_user_passes],
      [delete_here_panics], [bad_document_shifts], [format_error_panics]).

    ** Fuel

    [Request] recurses to the depth of its argument; [Request_terminates] shows that
    more never matters; [Query_] and [Times_] recurse to the depth of the query
    ([Query_terminates]). [drain] takes rounds as fuel, and a drain that is cut short is
    a run like any other; [loadCluster] retries, and [loadCluster_total] gives the fuel
    that is enough. [apply_loop] counts how often a message is tried before the process
    is stopped: the code tries for as long as it runs. [buildField] recurses into
    sub-fields, whose names are longer each time; the length of the longest mapped name
    is enough ([buildField_fuel]). The search for a free name of an archive tries one name
    more than there are archives ([fresh_name_free]). Eleven digits of base 62 hold 63 bits
    ([Encode62_loop_value]).

    ** Not modelled

    Logging, metrics, contexts other than cancellation, and the transport (HTTP, flags,
    wiring). The state stores over NATS and rqlite and the object store over S3, whose
    promises are the laws of [Store] and [BlobStore]; the databases of the metadata. The
    search engine, and of its front end the aggregations, sorting, highlighting, analyzers
    and tokenizers. Of the HTTP interface of a node everything but the routes, the accounts
    and the documents in bulk: its handlers parse requests and print results. Aliases and
    templates. Of the routes those of the pages of the user interface, of /version, of
    /healthz and of /swagger. The process that verifies a backup for the coordinator by restoring it. Of
    the log of entries the loss of its end by a power failure: the process may end
    anywhere, its files stay. [Files], on which [Index] and [Apply] rest, states the part
    of a shard they need; [Shard] is not an instance of it, because the promises of a shard
    hold for documents that are written with update, which [Files] does not ask for; and
    [content], what [Files] says of a stored document, leaves out its [@timestamp] and the
    scalars in its lists, which checking changes. Locks are left out where every operation
    of the object takes the lock. *)

(** ** Shared definitions *)
From Stdlib Require Export ZArith Lia Bool Ascii.
From stdpp Require Export base tactics list gmap strings pretty.
From stdpp Require Export sorting.

Declare Scope go_scope.
Delimit Scope go_scope with go.

#[export] Set Default Proof Using "Type".
#[local] Open Scope Z_scope.

(** ** Machine integers

    [uint64] and [int64] values are integers of [Z]; every arithmetic operation of
    the code that may leave the range is followed by the wrap-around below. *)

Definition u64_max : Z := 2 ^ 64 - 1.
Definition i64_max : Z := 2 ^ 63 - 1.
Definition i64_min : Z := - 2 ^ 63.

(** Wrap-around to 64 bits, unsigned and two's complement. *)
Definition u64 (z : Z) : Z := z mod 2 ^ 64.
Definition i64 (z : Z) : Z := (z + 2 ^ 63) mod 2 ^ 64 - 2 ^ 63.

Definition is_u64 (z : Z) : Prop := 0 <= z < 2 ^ 64.
Definition is_i64 (z : Z) : Prop := - 2 ^ 63 <= z < 2 ^ 63.

Lemma u64_range z : is_u64 (u64 z).
Proof. unfold is_u64, u64. apply Z.mod_pos_bound. lia. Qed.

Lemma u64_small z : is_u64 z → u64 z = z.
Proof. unfold is_u64, u64. intros. by apply Z.mod_small. Qed.

Lemma u64_idemp z : u64 (u64 z) = u64 z.
Proof. apply u64_small, u64_range. Qed.

Lemma i64_range z : is_i64 (i64 z).
Proof.
  unfold is_i64, i64.
  pose proof (Z.mod_pos_bound (z + 2 ^ 63) (2 ^ 64) ltac:(lia)). lia.
Qed.

Lemma i64_small z : is_i64 z → i64 z = z.
Proof. unfold is_i64, i64. intros. rewrite Z.mod_small; lia. Qed.

(** ** Errors

    A Go error is its text and the identities of the sentinel errors of its
    unwrap chain. [errors.New] at package level makes a sentinel: its tag is the
    qualified name of the variable. [fmt.Errorf] with [%w] keeps the chain of the
    error it wraps, so [errors.Is] is membership. *)
Record error := Error { err_text : string; err_tags : list string }.

#[export] Instance error_eq_dec : EqDecision error.
Proof. solve_decision. Defined.

Definition errors_New (text : string) : error := Error text [].
Definition sentinel (tag text : string) : error := Error text [tag].

(** [fmt.Errorf("pre%wpost", e)]. *)
Definition wrap (pre : string) (e : error) (post : string) : error :=
  Error (pre +:+ err_text e +:+ post) (err_tags e).

(** [errors.Is(e, target)] for a sentinel [target]. *)
Definition errors_Is (e target : error) : bool :=
  match err_tags target with
  | tag :: _ => bool_decide (tag ∈ err_tags e)
  | [] => false
  end.

(** [errors.Join]: nil when every argument is nil. *)
Fixpoint join_text (es : list error) : string :=
  match es with
  | [] => ""
  | [e] => err_text e
  | e :: es => err_text e +:+ String "010"%char (join_text es)
  end.

Definition errors_Join (es : list error) : option error :=
  match es with
  | [] => None
  | _ => Some (Error (join_text es) (es ≫= err_tags))
  end.

Lemma errors_Join_None es : errors_Join es = None ↔ es = [].
Proof. destruct es; simpl; naive_solver. Qed.

(** ** Results and the state-and-error monad

    A Go function that returns a value and an error is a [res]; one that also
    changes state is a state transformer that keeps the changes it made before it
    failed, because Go has no rollback. *)
Inductive res (A : Type) : Type :=
| Ok (a : A)
| Err (e : error).
Arguments Ok {_} _.
Arguments Err {_} _.

#[export] Instance res_eq_dec {A} `{EqDecision A} : EqDecision (res A).
Proof. solve_decision. Defined.

#[export] Instance res_ret : MRet res := λ A a, Ok a.
#[export] Instance res_bind : MBind res :=
  λ A B f r, match r with Ok a => f a | Err e => Err e end.
#[export] Instance res_fmap : FMap res :=
  λ A B f r, match r with Ok a => Ok (f a) | Err e => Err e end.

Definition is_ok {A} (r : res A) : bool :=
  match r with Ok _ => true | Err _ => false end.

Definition of_option {A} (e : error) (o : option A) : res A :=
  match o with Some a => Ok a | None => Err e end.

Lemma res_bind_Ok {A B} (f : A → res B) r b :
  r ≫= f = Ok b ↔ ∃ a, r = Ok a ∧ f a = Ok b.
Proof. destruct r; simpl; naive_solver. Qed.

Definition M (S A : Type) : Type := S → res A * S.

#[export] Instance M_ret {S} : MRet (M S) := λ A a s, (Ok a, s).
#[export] Instance M_bind {S} : MBind (M S) :=
  λ A B f c s, match c s with
               | (Ok a, s') => f a s'
               | (Err e, s') => (Err e, s')
               end.

Section monad.
Context {S : Type}.

Definition throw {A} (e : error) : M S A := λ s, (Err e, s).
Definition get_state : M S S := λ s, (Ok s, s).
Definition gets {A} (f : S → A) : M S A := λ s, (Ok (f s), s).
Definition modify (f : S → S) : M S () := λ s, (Ok (), f s).

(** [v, err := c]: the error becomes a value. *)
Definition try {A} (c : M S A) : M S (res A) :=
  λ s, let '(r, s') := c s in (Ok r, s').

(** [_ = c]: the error is dropped. *)
Definition ignore {A} (c : M S A) : M S () :=
  λ s, let '(_, s') := c s in (Ok (), s').

(** A [defer] that sees the named results. *)
Definition defer {A} (fin : res A → M S ()) (c : M S A) : M S A :=
  λ s, let '(r, s') := c s in
       let '(_, s'') := fin r s' in (r, s'').

(** [if err := c; err != nil { return fmt.Errorf("pre%w", err) }]. *)
Definition annotate {A} (pre : string) (c : M S A) : M S A :=
  λ s, match c s with
       | (Err e, s') => (Err (wrap pre e ""), s')
       | r => r
       end.

Definition lift {A} (r : res A) : M S A := λ s, (r, s).

(** A computation on one field of the state. *)
Definition zoom {T A} (get : S → T) (set : T → S → S) (c : M T A) : M S A :=
  λ s, let '(r, t) := c (get s) in (r, set t s).

(** A computation on the first component of a pair of states. *)
Definition on_fst {T A} (c : M S A) : M (S * T) A :=
  λ '(s, t), let '(r, s') := c s in (r, (s', t)).

Definition on_snd {T A} (c : M T A) : M (S * T) A :=
  λ '(s, t), let '(r, t') := c t in (r, (s, t')).

Lemma on_fst_run {T A} (c : M S A) (s s' : S) (t t' : T) r :
  on_fst c (s, t) = (r, (s', t')) → c s = (r, s') ∧ t' = t.
Proof. unfold on_fst. destruct (c s). by intros [= <- <- <-]. Qed.

Lemma bind_inv {A B} (c : M S A) (f : A → M S B) s r s'' :
  (c ≫= f) s = (r, s'') →
  (∃ e, c s = (Err e, s'') ∧ r = Err e) ∨ (∃ a s', c s = (Ok a, s') ∧ f a s' = (r, s'')).
Proof.
  unfold mbind, M_bind. destruct (c s) as [[a|e] s'] eqn:E; naive_solver.
Qed.

(** Binding the outcome of a computation whose error is handled. *)
Lemma try_inv {A B} (c : M S A) (f : res A → M S B) s r s'' :
  (try c ≫= f) s = (r, s'') → ∃ x s', c s = (x, s') ∧ f x s' = (r, s'').
Proof. unfold mbind, M_bind, try. destruct (c s) as [x s']. eauto. Qed.

Lemma ignore_run {A} (c : M S A) s r s' :
  ignore c s = (r, s') → ∃ x, c s = (x, s').
Proof. unfold ignore. destruct (c s) as [x s0]. intros [= <- <-]. eauto. Qed.

Lemma ignore_inv {A B} (c : M S A) (f : () → M S B) s r s'' :
  (ignore c ≫= f) s = (r, s'') → ∃ x s', c s = (x, s') ∧ f () s' = (r, s'').
Proof. unfold mbind, M_bind, ignore. destruct (c s) as [x s']. eauto. Qed.

Lemma defer_inv {A} (fin : res A → M S ()) c s r s'' :
  defer fin c s = (r, s'') → ∃ s' u, c s = (r, s') ∧ fin r s' = (u, s'').
Proof.
  unfold defer. destruct (c s) as [x s']. destruct (fin x s') as [u s2] eqn:E.
  intros [= <- <-]. eauto.
Qed.

Lemma annotate_ok {A} pre (c : M S A) s a s' :
  annotate pre c s = (Ok a, s') → c s = (Ok a, s').
Proof. unfold annotate. destruct (c s) as [[x|e] s0]; by intros [= <- <-]. Qed.

Lemma bind_ok {A B} (c : M S A) (f : A → M S B) s b s'' :
  (c ≫= f) s = (Ok b, s'') ↔
  ∃ a s', c s = (Ok a, s') ∧ f a s' = (Ok b, s'').
Proof.
  unfold mbind, M_bind. destruct (c s) as [[a|e] s'] eqn:E; naive_solver.
Qed.
End monad.

(** ** Computations that keep a relation, and computations that never fail

    [keeps R c]: every run of [c] ends in a state [R]-related to where it began.
    The closure lemmas are hints of the database [keeps], with which [solve_keeps]
    goes through the text of an operation. *)
Definition keeps {S A} (R : relation S) (c : M S A) : Prop :=
  ∀ s r s', c s = (r, s') → R s s'.
Definition total {S A} (c : M S A) : Prop := ∀ s, is_ok (c s).1 = true.

Create HintDb keeps.

Section keeps.
Context {S : Type} (R : relation S) `{!PreOrder R}.

Lemma keeps_ret {A} (a : A) : keeps R (mret a : M S A).
Proof using All. by intros s r s' [= <- <-]. Qed.
Lemma keeps_throw {A} e : keeps R (throw e : M S A).
Proof using All. by intros s r s' [= <- <-]. Qed.
Lemma keeps_lift {A} (a : res A) : keeps R (lift a).
Proof using All. by intros s r s' [= <- <-]. Qed.
Lemma keeps_gets {A} (f : S → A) : keeps R (gets f).
Proof using All. by intros s r s' [= <- <-]. Qed.
Lemma keeps_get_state : keeps R get_state.
Proof using All. by intros s r s' [= <- <-]. Qed.
Lemma keeps_bind {A B} (c : M S A) (f : A → M S B) :
  keeps R c → (∀ a, keeps R (f a)) → keeps R (c ≫= f).
Proof using All.
  intros Hc Hf s r s' [(e & H & _)|(a & s1 & H & H')]%bind_inv; [by eapply Hc|].
  etrans; [by eapply Hc|by eapply Hf].
Qed.
Lemma keeps_mono {A} (R' : relation S) (c : M S A) :
  keeps R' c → (∀ s s', R' s s' → R s s') → keeps R c.
Proof using Type. intros Hc HR s r s' H. by eapply HR, Hc. Qed.
Lemma keeps_try {A} (c : M S A) : keeps R c → keeps R (try c).
Proof using Type. unfold try. intros Hc s r s'. destruct (c s) eqn:E. intros [= _ <-]. by eapply Hc. Qed.
Lemma keeps_ignore {A} (c : M S A) : keeps R c → keeps R (ignore c).
Proof using Type. unfold ignore. intros Hc s r s'. destruct (c s) eqn:E. intros [= _ <-]. by eapply Hc. Qed.
Lemma keeps_annotate {A} pre (c : M S A) : keeps R c → keeps R (annotate pre c).
Proof using Type.
  unfold annotate. intros Hc s r s'. destruct (c s) as [[]] eqn:E; intros [= _ <-]; by eapply Hc.
Qed.
Lemma keeps_defer {A} (fin : res A → M S ()) (c : M S A) :
  (∀ r, keeps R (fin r)) → keeps R c → keeps R (defer fin c).
Proof using All.
  intros Hf Hc s r s' (s1 & u & H & H')%defer_inv. etrans; [by eapply Hc|by eapply Hf].
Qed.

Lemma total_ret {A} (a : A) : total (mret a : M S A).
Proof using Type. done. Qed.
Lemma total_gets {A} (f : S → A) : total (gets f).
Proof using Type. done. Qed.
Lemma total_get_state : total (S := S) get_state.
Proof using Type. done. Qed.
Lemma total_modify (f : S → S) : total (modify f).
Proof using Type. done. Qed.
Lemma total_try {A} (c : M S A) : total (try c).
Proof using Type. intros s. unfold try. by destruct (c s). Qed.
Lemma total_ignore {A} (c : M S A) : total (ignore c).
Proof using Type. intros s. unfold ignore. by destruct (c s). Qed.
Lemma total_bind {A B} (c : M S A) (f : A → M S B) :
  total c → (∀ a, total (f a)) → total (c ≫= f).
Proof using Type.
  intros Hc Hf s. unfold mbind, M_bind. specialize (Hc s).
  destruct (c s) as [[a|e] s']; [apply Hf|done].
Qed.
Lemma total_fst {T A} (c : M S A) : total c → total (on_fst (T := T) c).
Proof using Type. intros Hc [s t]. unfold on_fst. specialize (Hc s). by destruct (c s). Qed.
Lemma total_run {A} (c : M S A) s r s' : total c → c s = (r, s') → is_ok r = true.
Proof using Type. intros Hc H. specialize (Hc s). by rewrite H in Hc. Qed.
End keeps.

#[export] Hint Resolve keeps_ret keeps_throw keeps_lift keeps_gets keeps_get_state keeps_bind
  keeps_try keeps_ignore keeps_annotate keeps_defer : keeps.
#[export] Hint Resolve total_ret total_gets total_get_state total_modify total_try
  total_ignore total_bind total_fst : keeps.

Ltac solve_keeps :=
  intros; cbv zeta;
  repeat first
    [ done
    | match goal with |- ∀ _, _ => intros end
    | solve [auto 4 with keeps typeclass_instances nocore]
    | match goal with |- PreOrder _ => apply _ end
    | (apply keeps_bind || apply keeps_try || apply keeps_ignore || apply keeps_annotate
       || apply keeps_defer || apply total_bind); intros
    | case_match ].

(** ** Lists *)

Lemma filter_all {A} (P : A → Prop) `{!∀ x, Decision (P x)} l :
  Forall P l → filter P l = l.
Proof. induction 1; [done|]. rewrite filter_cons_True by done. congruence. Qed.

Lemma filter_none {A} (P : A → Prop) `{!∀ x, Decision (P x)} l :
  Forall (λ x, ¬ P x) l → filter P l = [].
Proof. induction 1; [done|]. by rewrite filter_cons_False. Qed.

Lemma StronglySorted_filter {A} (R : relation A) (P : A → Prop) `{!∀ x, Decision (P x)} l :
  StronglySorted R l → StronglySorted R (filter P l).
Proof.
  induction 1 as [|x l Hs IH Hx]; [constructor|]. rewrite filter_cons.
  case_decide; [|done]. constructor; [done|]. rewrite Forall_forall in *.
  intros y [_ Hy]%list_elem_of_filter. auto.
Qed.

Lemma filter_sublist {A} (P : A → Prop) `{!∀ x, Decision (P x)} l k :
  l `sublist_of` k → filter P l `sublist_of` filter P k.
Proof.
  induction 1 as [|x l k _ IH|x l k _ IH]; [done|..]; rewrite !filter_cons;
    case_decide; try done; by constructor.
Qed.

(** Two parts of a list without duplicates are in its order. *)
Lemma sublist_of_incl {A} (a b l : list A) : NoDup l → a `sublist_of` l →
  b `sublist_of` l → (∀ x, x ∈ a → x ∈ b) → a `sublist_of` b.
Proof.
  intros Hnd Ha. revert b. induction Ha as [|x a l Ha IH|x a l Ha IH]; intros b Hb Hin.
  - apply sublist_nil_l.
  - apply NoDup_cons in Hnd as [Hx Hnd].
    apply sublist_cons_r in Hb as [Hb|(b' & -> & Hb)].
    + destruct Hx. eapply elem_of_sublist; [|exact Hb]. apply Hin. by left.
    + constructor. apply IH; [done..|]. intros y Hy.
      specialize (Hin y ltac:(by right)). apply elem_of_cons in Hin as [->|?]; [|done].
      destruct Hx. by eapply elem_of_sublist.
  - apply NoDup_cons in Hnd as [Hx Hnd].
    apply sublist_cons_r in Hb as [Hb|(b' & -> & Hb)]; [by apply IH|].
    constructor 3. apply IH; [done..|]. intros y Hy. specialize (Hin y Hy).
    apply elem_of_cons in Hin as [->|?]; [|done]. destruct Hx. by eapply elem_of_sublist.
Qed.

(** ** Automation *)

Create HintDb go discriminated.
#[export] Hint Resolve u64_range i64_range : go.

(** Runs a monadic computation: unfolds the monad and case-splits every result. *)
Ltac run_unfold :=
  unfold mbind, M_bind, mret, M_ret, throw, get_state, gets, modify, try,
    ignore, defer, lift in *; simpl in *.

Ltac destruct_match :=
  match goal with
  | H : context [match ?x with _ => _ end] |- _ => destruct x eqn:?; simplify_eq/=
  | |- context [match ?x with _ => _ end] => destruct x eqn:?; simplify_eq/=
  end.

Ltac run := run_unfold; repeat (destruct_match; run_unfold).

(** Boolean facts into propositions. *)
Ltac prop_bool :=
  repeat match goal with
  | H : (_ && _) = true |- _ => apply andb_true_iff in H; destruct H
  | H : (_ || _) = false |- _ => apply orb_false_iff in H; destruct H
  | H : negb _ = true |- _ => apply negb_true_iff in H
  | H : negb _ = false |- _ => apply negb_false_iff in H
  | H : bool_decide _ = true |- _ => apply bool_decide_eq_true in H
  | H : bool_decide _ = false |- _ => apply bool_decide_eq_false in H
  | H : (_ <? _) = true |- _ => apply Z.ltb_lt in H
  | H : (_ <? _) = false |- _ => apply Z.ltb_ge in H
  | H : (_ <=? _) = true |- _ => apply Z.leb_le in H
  | H : (_ <=? _) = false |- _ => apply Z.leb_gt in H
  | H : (_ =? _) = true |- _ => apply Z.eqb_eq in H
  | H : (_ =? _) = false |- _ => apply Z.eqb_neq in H
  end.
