(* ===== verification/Strings.v ===== *)
(** The functions of Go's [strings], [strconv] and [bytes] packages that the code
    uses, on byte strings, with the lemmas the components share: substring tests,
    cutting and splitting at a separator, the decimal text of unsigned integers and
    its parser, and character classes of the regular expressions of the code. *)
From S2P Require Import Prelude.
#[local] Open Scope Z_scope.

Definition len (s : string) : Z := Z.of_nat (String.length s).

(** [strings.Index] of one byte. *)
Fixpoint IndexByte (s : string) (c : ascii) : Z :=
  match s with
  | "" => -1
  | String d s => if decide (d = c) then 0 else let i := IndexByte s c in if i =? -1 then -1 else i + 1
  end.

(** The NUL byte. *)
Definition NUL : ascii := "000"%char.

(** [strings.HasPrefix(s, pre)]. *)
Fixpoint HasPrefix (s pre : string) {struct pre} : bool :=
  match pre, s with
  | "", _ => true
  | String c pre, String d s => bool_decide (c = d) && HasPrefix s pre
  | String _ _, "" => false
  end.

(** [strings.Contains(s, sub)]. *)
Fixpoint Contains (s sub : string) : bool :=
  HasPrefix s sub ||
  match s with
  | "" => false
  | String _ s => Contains s sub
  end.

(** [strings.HasSuffix(s, suf)]. *)
Fixpoint HasSuffix (s suf : string) : bool :=
  bool_decide (s = suf) ||
  match s with
  | "" => false
  | String _ s => HasSuffix s suf
  end.

(** [strings.TrimSuffix(s, suf)]. *)
Fixpoint TrimSuffix (s suf : string) : string :=
  if bool_decide (s = suf) then "" else
  match s with
  | "" => ""
  | String c s => String c (TrimSuffix s suf)
  end.

(** [strings.TrimPrefix]. *)
Definition TrimPrefix (s pre : string) : string :=
  if HasPrefix s pre then String.substring (String.length pre) (String.length s - String.length pre) s else s.

(** [strings.Cut] and [strings.Split] at a one-byte separator. *)
Fixpoint Cut (s : string) (sep : ascii) : string * string * bool :=
  match s with
  | "" => ("", "", false)
  | String c s =>
      if bool_decide (c = sep) then ("", s, true)
      else let '(before, after, found) := Cut s sep in (String c before, after, found)
  end.

Fixpoint Split (s : string) (sep : ascii) : list string :=
  match s with
  | "" => [""]
  | String c s =>
      if bool_decide (c = sep) then "" :: Split s sep
      else match Split s sep with
           | [] => [String c ""]
           | part :: parts => String c part :: parts
           end
  end.

(** Whether every byte satisfies a predicate: a character class of a regexp. *)
Fixpoint all_bytes (p : ascii → bool) (s : string) : bool :=
  match s with
  | "" => true
  | String c s => p c && all_bytes p s
  end.

Definition byte_val (c : ascii) : Z := Z.of_N (N_of_ascii c).

Definition in_range (lo hi c : ascii) : bool :=
  (byte_val lo <=? byte_val c) && (byte_val c <=? byte_val hi).

Definition is_digit (c : ascii) : bool := in_range "0" "9" c.
Definition is_alnum (c : ascii) : bool :=
  in_range "a" "z" c || in_range "A" "Z" c || is_digit c.

(** ** Decimal text of unsigned integers *)

Definition FormatUint (n : Z) : string := pretty (Z.to_N n).

Definition ErrSyntax : error := sentinel "strconv.ErrSyntax" "invalid syntax".
Definition ErrRange : error := sentinel "strconv.ErrRange" "value out of range".

(** The loop of [strconv.ParseUint(s, 10, 64)]. *)
Fixpoint ParseUint_loop (n : Z) (s : string) : res Z :=
  match s with
  | "" => Ok n
  | String c s =>
      if negb (is_digit c) then Err ErrSyntax
      else if u64_max / 10 + 1 <=? n then Err ErrRange
      else let n1 := n * 10 + (byte_val c - byte_val "0") in
           if u64_max <? n1 then Err ErrRange else ParseUint_loop n1 s
  end.

Definition ParseUint (s : string) : res Z :=
  match s with "" => Err ErrSyntax | _ => ParseUint_loop 0 s end.

(** [strconv.ParseInt(s, 10, 64)]. *)
Definition ParseInt (s : string) : res Z :=
  let '(neg, digits) :=
    match s with
    | String "-" s => (true, s)
    | String "+" s => (false, s)
    | _ => (false, s)
    end in
  n ← ParseUint digits;
  if negb neg && (2 ^ 63 <=? n) then Err ErrRange
  else if neg && (2 ^ 63 <? n) then Err ErrRange
  else mret (if neg then - n else n).

(** [strings.TrimRight(s, c)] for a set of one byte, and [strings.TrimSpace] on the
    ASCII white space. *)
Fixpoint TrimRightBytes (p : ascii → bool) (s : string) : string :=
  match s with
  | "" => ""
  | String c s =>
      match TrimRightBytes p s with
      | "" => if p c then "" else String c ""
      | t => String c t
      end
  end.

Fixpoint TrimLeftBytes (p : ascii → bool) (s : string) : string :=
  match s with
  | "" => ""
  | String c s' => if p c then TrimLeftBytes p s' else s
  end.

Definition TrimRight (s : string) (c : ascii) : string :=
  TrimRightBytes (λ d, bool_decide (d = c)) s.

Definition is_space (c : ascii) : bool :=
  bool_decide (c ∈ ["009"; "010"; "011"; "012"; "013"; " "]%char).
Definition TrimSpace (s : string) : string :=
  TrimLeftBytes is_space (TrimRightBytes is_space s).

(** ** Lemmas *)

(** stdpp keeps [String.append] folded; here it computes on a constructor. *)
#[global] Arguments String.append : simpl nomatch.
Ltac str_simpl := simpl in *.

Lemma append_assoc_s (a b c : string) : a +:+ (b +:+ c) = (a +:+ b) +:+ c.
Proof. induction a; str_simpl; congruence. Qed.

Lemma append_nil_s (a : string) : a +:+ "" = a.
Proof. induction a; str_simpl; congruence. Qed.

Lemma length_append_s (a b : string) :
  String.length (a +:+ b) = (String.length a + String.length b)%nat.
Proof. induction a; str_simpl; congruence. Qed.

Lemma append_cancel_l (a b c : string) : a +:+ b = a +:+ c → b = c.
Proof. induction a; simpl; [done|]. intros [= ?]. auto. Qed.
Lemma append_cancel_r (a b c : string) : a +:+ c = b +:+ c → a = b.
Proof.
  revert b. induction a as [|x a IH]; intros [|y b] E; [done| | |injection E as -> E; f_equal; by apply IH];
    apply (f_equal String.length) in E; simpl in E; rewrite length_append_s in E; lia.
Qed.
Lemma HasPrefix_spec s pre : HasPrefix s pre = true ↔ ∃ t, s = pre +:+ t.
Proof.
  revert s; induction pre as [|c pre IH]; intros s; simpl.
  - destruct s; naive_solver.
  - destruct s as [|d s]; simpl; [naive_solver|].
    rewrite andb_true_iff, bool_decide_eq_true, IH. naive_solver.
Qed.

Lemma HasPrefix_append pre t : HasPrefix (pre +:+ t) pre = true.
Proof. apply HasPrefix_spec. eauto. Qed.
Lemma substring_all s : String.substring 0 (String.length s) s = s.
Proof. induction s as [|c s IH]; [done|]. simpl. by rewrite IH. Qed.
Lemma TrimPrefix_append pre t : TrimPrefix (pre +:+ t) pre = t.
Proof.
  unfold TrimPrefix. rewrite HasPrefix_append, length_append_s, Nat.add_comm, Nat.add_sub.
  induction pre as [|c pre IH]; [apply substring_all|exact IH].
Qed.
Lemma TrimPrefix_inv s pre t : TrimPrefix s pre = t → s = t ∨ s = pre +:+ t.
Proof.
  destruct (HasPrefix s pre) eqn:E.
  - apply HasPrefix_spec in E as [u ->]. rewrite TrimPrefix_append. intros ->. by right.
  - unfold TrimPrefix. rewrite E. by left.
Qed.

Lemma Contains_spec s sub : Contains s sub = true ↔ ∃ a b, s = a +:+ (sub +:+ b).
Proof.
  induction s as [|c s IH]; cbn [Contains]; rewrite orb_true_iff, HasPrefix_spec.
  - split; [intros [[t ?]|]; [exists "", t; done|done]|].
    intros (a & b & H). destruct a; [|done]. left. eauto.
  - rewrite IH. split.
    + intros [[t ?]|(a & b & ->)]; [by exists "", t|by exists (String c a), b].
    + intros ([|d a] & b & H); [left; eauto|right]. str_simpl; simplify_eq. eauto.
Qed.

Lemma Contains_append pre sub post : Contains (pre +:+ (sub +:+ post)) sub = true.
Proof. apply Contains_spec. eauto. Qed.

Lemma HasSuffix_spec s suf : HasSuffix s suf = true ↔ ∃ t, s = t +:+ suf.
Proof.
  induction s as [|c s IH]; cbn [HasSuffix]; rewrite orb_true_iff, bool_decide_eq_true.
  - split; [intros [<-|]; [by exists ""|done]|].
    intros ([|] & H); str_simpl; simplify_eq. by left.
  - rewrite IH. split.
    + intros [<-|(t & ->)]; [by exists ""|by exists (String c t)].
    + intros ([|d t] & H); str_simpl; simplify_eq; eauto.
Qed.

Lemma TrimSuffix_append t suf : suf ≠ "" → TrimSuffix (t +:+ suf) suf = t.
Proof.
  intros Hne. induction t as [|c t IH]; simpl.
  - destruct suf; [done|]. simpl. by rewrite bool_decide_eq_true_2.
  - rewrite bool_decide_eq_false_2; [by rewrite IH|].
    intros H. apply (f_equal String.length) in H. str_simpl.
    rewrite length_append_s in H. lia.
Qed.

(** A separator that does not occur in the prefix is where the string is cut. *)
Lemma Cut_append a sep b :
  Contains a (String sep "") = false → Cut (a +:+ String sep b) sep = (a, b, true).
Proof.
  induction a as [|c a IH]; cbn [Cut Contains HasPrefix String.append]; intros H.
  - simpl. by rewrite bool_decide_eq_true_2.
  - apply orb_false_iff in H as [H1 H2]. rewrite andb_true_r in H1. prop_bool.
    simpl. rewrite bool_decide_eq_false_2 by congruence. by rewrite IH.
Qed.

Lemma Split_nonempty s sep : Split s sep ≠ [].
Proof.
  destruct s as [|c s]; [done|]. simpl.
  repeat case_match; done.
Qed.

Lemma Split_none s sep : Contains s (String sep "") = false → Split s sep = [s].
Proof.
  induction s as [|c s IH]; cbn [Split Contains HasPrefix]; intros H; [done|].
  apply orb_false_iff in H as [H1 H2]. rewrite andb_true_r in H1. prop_bool.
  by rewrite bool_decide_eq_false_2, IH by congruence.
Qed.

Lemma Split_append a sep b :
  Contains a (String sep "") = false → Split (a +:+ String sep b) sep = a :: Split b sep.
Proof.
  induction a as [|c a IH]; cbn [Split Contains HasPrefix String.append]; intros H.
  - simpl. by rewrite bool_decide_eq_true_2.
  - apply orb_false_iff in H as [H1 H2]. rewrite andb_true_r in H1. prop_bool.
    str_simpl. by rewrite bool_decide_eq_false_2, IH by congruence.
Qed.

Lemma all_bytes_append p a b : all_bytes p (a +:+ b) = all_bytes p a && all_bytes p b.
Proof. induction a; str_simpl; [done|]. by rewrite IHa, andb_assoc. Qed.

Lemma all_bytes_impl (p q : ascii → bool) s :
  (∀ c, p c = true → q c = true) → all_bytes p s = true → all_bytes q s = true.
Proof.
  intros Hpq. induction s; simpl; [done|]. intros H. prop_bool.
  by rewrite Hpq, IHs.
Qed.

Lemma all_bytes_not_Contains p s c :
  p c = false → all_bytes p s = true → Contains s (String c "") = false.
Proof.
  intros Hp. induction s as [|d s IH]; cbn [all_bytes Contains HasPrefix]; [done|].
  intros H. prop_bool. rewrite IH, andb_true_r, orb_false_r by done.
  apply bool_decide_eq_false. intros ->. congruence.
Qed.

Lemma pretty_N_char_digit x : is_digit (pretty_N_char (x mod 10)%N) = true
  ∧ byte_val (pretty_N_char (x mod 10)%N) - byte_val "0" = Z.of_N (x mod 10).
Proof.
  assert (x mod 10 < 10)%N as H by (apply N.mod_lt; lia).
  revert H. generalize (x mod 10)%N. intros y Hy.
  assert (y = 0 ∨ y = 1 ∨ y = 2 ∨ y = 3 ∨ y = 4 ∨ y = 5 ∨ y = 6 ∨ y = 7 ∨ y = 8
    ∨ y = 9)%N as Hc by lia.
  by destruct_or!; subst y.
Qed.

Lemma pretty_N_go_digits x s :
  all_bytes is_digit s = true → all_bytes is_digit (pretty_N_go x s) = true.
Proof.
  revert s. induction (N.lt_wf_0 x) as [x _ IH]; intros s Hs.
  destruct (decide (0 < x)%N) as [Hx|Hx].
  - rewrite pretty_N_go_step by done. apply IH; [by apply N.div_lt; lia|].
    cbn [all_bytes]. by rewrite (proj1 (pretty_N_char_digit x)).
  - assert (x = 0%N) as -> by lia. by rewrite pretty_N_go_0.
Qed.

Lemma FormatUint_digits n : all_bytes is_digit (FormatUint n) = true.
Proof.
  unfold FormatUint, pretty, pretty_N. case_decide; [done|].
  by apply pretty_N_go_digits.
Qed.

Lemma pretty_N_go_nonempty x s : s ≠ "" → pretty_N_go x s ≠ "".
Proof.
  revert s. induction (N.lt_wf_0 x) as [x _ IH]; intros s Hs.
  destruct (decide (0 < x)%N) as [Hx|Hx].
  - rewrite pretty_N_go_step by done. apply IH; [by apply N.div_lt; lia|done].
  - assert (x = 0%N) as -> by lia. by rewrite pretty_N_go_0.
Qed.

Lemma FormatUint_nonempty n : FormatUint n ≠ "".
Proof.
  unfold FormatUint, pretty, pretty_N. case_decide as H; [done|].
  rewrite pretty_N_go_step by lia. by apply pretty_N_go_nonempty.
Qed.

Lemma ParseUint_loop_pretty x s : Z.of_N x ≤ u64_max →
  ParseUint_loop 0 (pretty_N_go x s) = ParseUint_loop (Z.of_N x) s.
Proof.
  revert s. induction x as [x IH] using (well_founded_induction N.lt_wf_0); intros s Hx.
  destruct (decide (0 < x)%N) as [Hpos|Hx0]; last first.
  { assert (x = 0%N) as -> by lia. by rewrite pretty_N_go_0. }
  rewrite pretty_N_go_step by done.
  destruct (pretty_N_char_digit x) as [Hd Hv].
  assert (Z.of_N (x / 10) * 10 + Z.of_N (x mod 10) = Z.of_N x) as Hdm.
  { rewrite <- N2Z.inj_mul with (m := 10%N), <- N2Z.inj_add. f_equal.
    rewrite N.mul_comm. symmetry. by apply N.div_mod. }
  pose proof (N2Z.is_nonneg (x / 10)). pose proof (N2Z.is_nonneg (x mod 10)).
  revert Hv Hdm H H0. generalize (Z.of_N (x mod 10)).
  assert (Z.of_N (x / 10) ≤ Z.of_N x)
    by (rewrite N2Z.inj_div; apply Z.div_le_upper_bound; lia).
  intros m Hv Hdm Hq Hm.
  rewrite IH; [|by apply N.div_lt; lia|by etrans].
  simpl. rewrite Hd, Hv. simpl. rewrite Hdm.
  rewrite (proj2 (Z.leb_gt _ _)), (proj2 (Z.ltb_ge _ _)); [done|done|].
  change (u64_max / 10 + 1) with 1844674407370955162.
  change u64_max with 18446744073709551615 in *. lia.
Qed.

(** Parsing the text of a 64-bit number gives the number back. *)
Lemma ParseUint_FormatUint n : is_u64 n → ParseUint (FormatUint n) = Ok n.
Proof.
  intros [Hn0 Hn]. pose proof (FormatUint_nonempty n) as Hne.
  assert (ParseUint (FormatUint n) = ParseUint_loop 0 (FormatUint n)) as ->
    by (destruct (FormatUint n); done).
  unfold FormatUint, pretty, pretty_N. case_decide as Hz.
  - assert (n = 0) as -> by lia. done.
  - rewrite ParseUint_loop_pretty by (unfold u64_max; lia). simpl. f_equal. lia.
Qed.

Lemma ParseUint_loop_range s m n : is_u64 m → ParseUint_loop m s = Ok n → is_u64 n.
Proof.
  revert m. induction s as [|c s IH]; intros m Hm; cbn [ParseUint_loop]; [naive_solver|].
  destruct (is_digit c) eqn:Hd; cbn [negb]; [|done].
  destruct (_ <=? m); [done|]. cbv zeta.
  destruct (_ <? _) eqn:E; [done|]. apply IH. apply Z.ltb_ge in E.
  unfold is_digit, in_range in Hd. prop_bool.
  change u64_max with 18446744073709551615 in E.
  change (byte_val "0") with 48 in *. unfold is_u64 in *. lia.
Qed.

Lemma ParseUint_range s n : ParseUint s = Ok n → is_u64 n.
Proof.
  destruct s; [done|]. cbn [ParseUint]. apply ParseUint_loop_range.
  unfold is_u64. lia.
Qed.

Lemma FormatUint_inj n m : is_u64 n → is_u64 m → FormatUint n = FormatUint m → n = m.
Proof.
  intros Hn Hm H. apply (f_equal ParseUint) in H.
  rewrite !ParseUint_FormatUint in H by done. congruence.
Qed.

Lemma FormatUint_no_byte n c : is_digit c = false → Contains (FormatUint n) (String c "") = false.
Proof. intros Hc. eapply all_bytes_not_Contains; [done|]. apply FormatUint_digits. Qed.
