(* ===== verification/Bytes.v ===== *)
(** Fixed-width integers as bytes: the [encoding/binary] byte orders the code uses.

    [be] and [le] write the low [n] bytes of an integer, most or least significant
    byte first; [be_val] and [le_val] read them back. The order of two big-endian
    texts of one width is the order of the numbers, which is what lets an ordered
    key-value file be used as a queue; the same holds for [%020d], [dec20]. *)
From S2P Require Import Prelude Strings.
#[local] Open Scope Z_scope.

(** [byte(z)]. *)
Definition byte_of (z : Z) : ascii := ascii_of_N (Z.to_N (z mod 256)).

Fixpoint be (n : nat) (z : Z) : string :=
  match n with
  | O => ""
  | S n => String (byte_of (z / 256 ^ Z.of_nat n)) (be n z)
  end.

Fixpoint be_val_acc (acc : Z) (s : string) : Z :=
  match s with
  | "" => acc
  | String c s => be_val_acc (acc * 256 + byte_val c) s
  end.
Definition be_val : string → Z := be_val_acc 0.

Fixpoint le (n : nat) (z : Z) : string :=
  match n with
  | O => ""
  | S n => String (byte_of z) (le n (z / 256))
  end.

Fixpoint le_val (s : string) : Z :=
  match s with
  | "" => 0
  | String c s => byte_val c + le_val s * 256
  end.

Lemma byte_val_byte_of z : byte_val (byte_of z) = z mod 256.
Proof.
  unfold byte_val, byte_of. pose proof (Z.mod_pos_bound z 256 ltac:(lia)).
  rewrite N_ascii_embedding; lia.
Qed.

Lemma byte_val_range c : 0 ≤ byte_val c < 256.
Proof. unfold byte_val. pose proof (N_ascii_bounded c). lia. Qed.

Lemma length_be n z : String.length (be n z) = n.
Proof. induction n; simpl; auto. Qed.
Lemma length_le n z : String.length (le n z) = n.
Proof. revert z. induction n; simpl; auto. Qed.

Lemma pow256_succ n : 256 ^ Z.of_nat (S n) = 256 * 256 ^ Z.of_nat n.
Proof. rewrite Nat2Z.inj_succ, Z.pow_succ_r by lia. done. Qed.

Lemma pow256_pos n : 0 < 256 ^ Z.of_nat n.
Proof. apply Z.pow_pos_nonneg; lia. Qed.

(** The leading byte of a number that fits, and what is left. *)
Lemma be_split n z :
  z mod 256 ^ Z.of_nat (S n) =
  (z / 256 ^ Z.of_nat n) mod 256 * 256 ^ Z.of_nat n + z mod 256 ^ Z.of_nat n.
Proof.
  rewrite pow256_succ. pose proof (pow256_pos n).
  rewrite (Z.mul_comm 256), Z.rem_mul_r by lia. lia.
Qed.

Lemma be_val_acc_be n z acc :
  be_val_acc acc (be n z) = acc * 256 ^ Z.of_nat n + z mod 256 ^ Z.of_nat n.
Proof.
  revert acc. induction n as [|n IH]; intros acc.
  - simpl. rewrite Z.mod_1_r. lia.
  - cbn [be be_val_acc]. rewrite IH, byte_val_byte_of, (be_split n z), pow256_succ.
    lia.
Qed.

Lemma be_val_be n z : 0 ≤ z < 256 ^ Z.of_nat n → be_val (be n z) = z.
Proof. intros Hz. unfold be_val. rewrite be_val_acc_be, Z.mod_small by done. lia. Qed.

Lemma le_val_le n z : 0 ≤ z < 256 ^ Z.of_nat n → le_val (le n z) = z.
Proof.
  revert z. induction n as [|n IH]; intros z Hz; simpl; [simpl in Hz; lia|].
  rewrite pow256_succ in Hz. rewrite byte_val_byte_of, IH.
  - pose proof (Z.div_mod z 256). lia.
  - pose proof (pow256_pos n). split; [apply Z.div_pos; lia|].
    apply Z.div_lt_upper_bound; lia.
Qed.

Lemma le_val_range s : 0 ≤ le_val s < 256 ^ len s.
Proof.
  unfold len. induction s as [|c s IH]; simpl String.length; [simpl; lia|].
  rewrite pow256_succ. simpl. pose proof (byte_val_range c). lia.
Qed.

(** A text of [n] bytes is the encoding of its value. *)
Lemma le_le_val s : le (String.length s) (le_val s) = s.
Proof.
  induction s as [|c s IH]; simpl; [done|].
  pose proof (byte_val_range c). f_equal.
  - unfold byte_of. rewrite Z.mod_add, Z.mod_small by lia.
    unfold byte_val. by rewrite N2Z.id, ascii_N_embedding.
  - rewrite Z.div_add, (Z.div_small (byte_val c)) by lia. done.
Qed.

Lemma compare_refl_s k : String.compare k k = Eq.
Proof.
  induction k as [|c k IH]; simpl; [done|]. unfold Ascii.compare.
  by rewrite N.compare_refl.
Qed.

Lemma compare_byte_of a b : 0 ≤ a < 256 → 0 ≤ b < 256 →
  Ascii.compare (byte_of a) (byte_of b) = (a ?= b).
Proof.
  intros Ha Hb. unfold Ascii.compare, byte_of.
  rewrite !Z.mod_small, !N_ascii_embedding by lia.
  by rewrite <- Z2N.inj_compare by lia.
Qed.

(** ** Texts of fixed width in any radix

    The digits of a number, most significant first; the byte order of two texts is
    the order of the numbers when the byte order of the digits is. *)
Section radix.
Context (base : Z) (digit : Z → ascii) (base_pos : 1 < base)
  (compare_digit : ∀ a b, 0 ≤ a < base → 0 ≤ b < base →
     Ascii.compare (digit a) (digit b) = (a ?= b)).

Fixpoint radix (n : nat) (z : Z) : string :=
  match n with
  | O => ""
  | S n => String (digit ((z / base ^ Z.of_nat n) mod base)) (radix n z)
  end.

Lemma radix_split n z :
  z mod base ^ Z.of_nat (S n) =
  (z / base ^ Z.of_nat n) mod base * base ^ Z.of_nat n + z mod base ^ Z.of_nat n.
Proof using base_pos.
  rewrite Nat2Z.inj_succ, Z.pow_succ_r, (Z.mul_comm base) by lia.
  assert (0 < base ^ Z.of_nat n) by (apply Z.pow_pos_nonneg; lia).
  rewrite Z.rem_mul_r by lia. lia.
Qed.

Lemma compare_radix_mod n a b : String.compare (radix n a) (radix n b) =
  (a mod base ^ Z.of_nat n ?= b mod base ^ Z.of_nat n).
Proof using base_pos compare_digit.
  induction n as [|n IH]; cbn [radix String.compare]; [by rewrite !Z.mod_1_r|].
  assert (0 < base ^ Z.of_nat n) as Hp by (apply Z.pow_pos_nonneg; lia).
  rewrite !radix_split, IH.
  pose proof (Z.mod_pos_bound a _ Hp). pose proof (Z.mod_pos_bound b _ Hp).
  set (x := (a / _) mod base) in *. set (y := (b / _) mod base) in *.
  pose proof (Z.mod_pos_bound (a / base ^ Z.of_nat n) base ltac:(lia)) as Hx. fold x in Hx.
  pose proof (Z.mod_pos_bound (b / base ^ Z.of_nat n) base ltac:(lia)) as Hy. fold y in Hy.
  rewrite compare_digit by lia. destruct (Z.compare_spec x y) as [->|Hxy|Hxy].
  - by rewrite Z.add_compare_mono_l.
  - symmetry. apply Z.compare_lt_iff. nia.
  - symmetry. apply Z.compare_gt_iff. nia.
Qed.

Lemma compare_radix n a b : 0 ≤ a < base ^ Z.of_nat n → 0 ≤ b < base ^ Z.of_nat n →
  String.compare (radix n a) (radix n b) = (a ?= b).
Proof using base_pos compare_digit.
  intros Ha Hb. by rewrite compare_radix_mod, !Z.mod_small.
Qed.
End radix.

Lemma be_radix n z : be n z = radix 256 byte_of n z.
Proof.
  induction n as [|n IH]; simpl; [done|]. f_equal; [|done].
  unfold byte_of. by rewrite Z.mod_mod.
Qed.

Lemma compare_be n a b : 0 ≤ a < 256 ^ Z.of_nat n → 0 ≤ b < 256 ^ Z.of_nat n →
  String.compare (be n a) (be n b) = (a ?= b).
Proof. rewrite !be_radix. apply compare_radix; [done|apply compare_byte_of]. Qed.

(** ** [%020d]

    Every 64-bit number has at most twenty decimal digits. *)
Definition dec_digit (d : Z) : ascii := ascii_of_N (Z.to_N (48 + d)).
Definition dec20 (n : Z) : string := radix 10 dec_digit 20 n.
#[global] Arguments dec20 : simpl never.

Lemma compare_dec20 a b : is_u64 a → is_u64 b → String.compare (dec20 a) (dec20 b) = (a ?= b).
Proof.
  intros Ha Hb. unfold is_u64 in *. apply compare_radix; [done| |simpl Z.of_nat; lia..].
  intros x y Hx Hy. unfold Ascii.compare, dec_digit.
  rewrite !N_ascii_embedding by lia.
  by rewrite <- (Z.add_compare_mono_l 48 x y), <- Z2N.inj_compare by lia.
Qed.

Lemma dec20_inj a b : is_u64 a → is_u64 b → dec20 a = dec20 b → a = b.
Proof.
  intros Ha Hb H. pose proof (compare_dec20 a b Ha Hb) as Hc. rewrite H in Hc.
  rewrite compare_refl_s in Hc. symmetry in Hc.
  by apply Z.compare_eq_iff in Hc.
Qed.

Lemma dec20_alnum n : all_bytes is_digit (dec20 n) = true.
Proof.
  unfold dec20. generalize 20%nat as k. induction k as [|k IH]; cbn [radix all_bytes]; [done|].
  rewrite IH, andb_true_r. unfold is_digit, in_range, byte_val, dec_digit.
  pose proof (Z.mod_pos_bound (n / 10 ^ Z.of_nat k) 10 ltac:(lia)).
  rewrite N_ascii_embedding by lia. simpl Z.of_N. apply andb_true_iff.
  rewrite !Z.leb_le. lia.
Qed.

Lemma length_dec20 n : String.length (dec20 n) = 20%nat.
Proof. done. Qed.
