(* ===== verification/Base62.v ===== *)
(** Identifiers (pkg/zutils/base62, pkg/ider): the digits of an identifier, and which node
    made it. The generator itself, sonyflake, is a parameter. *)
From S2P Require Import Prelude Strings.
#[local] Open Scope Z_scope.

(** ** The code *)

Definition chars62 : string := "0123456789abcdefghijklmnopqrstuvwxyzABCDEFGHIJKLMNOPQRSTUVWXYZ".
Definition char62 (d : Z) : ascii := default "0"%char (String.get (Z.to_nat d) chars62).

(** The loop of [Encode], which writes the last digit first and turns the bytes round. *)
Fixpoint Encode62_loop (fuel : nat) (num : Z) (acc : string) : string :=
  match fuel with
  | O => acc
  | S fuel => if 0 <? num then Encode62_loop fuel (num / 62) (String (char62 (num mod 62)) acc) else acc
  end.
(** Eleven digits are enough for 63 bits. *)
Definition Encode62 (num : Z) : string := Encode62_loop 11 num "".

(** [math.Pow] is exact, and fits, for the ten places that 63 bits may need. *)
Fixpoint Decode62_loop (str : string) (num : Z) : Z :=
  match str with
  | "" => num
  | String c str => Decode62_loop str (i64 (num + i64 (62 ^ len str * IndexByte chars62 c)))
  end.
Definition Decode62 (str : string) : Z := Decode62_loop str 0.

Definition maxNodeID : Z := Z.shiftl 1 10 - 1.

(** A node that makes identifiers is its number. *)
Definition NewNode (id : Z) : res Z :=
  if (id <? 0) || (maxNodeID <? id) then
    Err (errors_New ("node id " +:+ pretty id +:+ " out of range [0, " +:+ pretty maxNodeID +:+ "]"))
  else Ok id.
(** [Node.Generate]; an error of the generator ends the process. *)
Definition Node_Generate {S} (NextID : Z → M S Z) (node : Z) : M S string := n ← NextID node; mret (Encode62 n).

(** ** Decoding *)

(** The number that digits stand for. *)
Fixpoint value62 (s : string) : Z :=
  match s with "" => 0 | String c s => 62 ^ len s * IndexByte chars62 c + value62 s end.

Lemma i64_add_l a b : i64 (i64 a + b) = i64 (a + b).
Proof.
  unfold i64. f_equal. replace (a + b + 2 ^ 63) with (a + 2 ^ 63 + b) by ring. rewrite <- (Z.add_mod_idemp_l (a + 2 ^ 63) b) by done.
  f_equal. ring.
Qed.
Lemma Decode62_loop_value s num : is_i64 num → Decode62_loop s num = i64 (num + value62 s).
Proof.
  revert num. induction s as [|c s IH]; intros num Hn; cbn [Decode62_loop value62]; [by rewrite Z.add_0_r, i64_small|].
  rewrite IH by apply i64_range. rewrite i64_add_l. rewrite (Z.add_comm num (i64 _)), <- Z.add_assoc, i64_add_l. f_equal. lia.
Qed.
Lemma digit62 d : 0 ≤ d < 62 → IndexByte chars62 (char62 d) = d ∧ is_alnum (char62 d) = true.
Proof.
  intros Hd. assert (forallb (λ n, (IndexByte chars62 (char62 (Z.of_nat n)) =? Z.of_nat n) && is_alnum (char62 (Z.of_nat n)))
    (seq 0 62) = true) as H by by vm_compute.
  rewrite forallb_forall in H. specialize (H (Z.to_nat d)). rewrite Z2Nat.id in H by lia.
  destruct (andb_prop _ _ (H ltac:(apply in_seq; lia))) as [H1 H2]. split; [by apply Z.eqb_eq|done].
Qed.
Lemma Encode62_loop_value fuel num acc : 0 ≤ num < 62 ^ Z.of_nat fuel →
  value62 (Encode62_loop fuel num acc) = num * 62 ^ len acc + value62 acc.
Proof.
  revert num acc. induction fuel as [|fuel IH]; intros num acc Hn; cbn [Encode62_loop].
  { change (62 ^ Z.of_nat 0) with 1 in Hn. replace num with 0 by lia. lia. }
  rewrite Nat2Z.inj_succ, Z.pow_succ_r in Hn by lia.
  destruct (Z.ltb_spec 0 num) as [Hp|Hp]; [|replace num with 0 by lia; lia]. rewrite IH.
  - cbn [value62]. destruct (digit62 (num mod 62)) as [-> _]; [by apply Z.mod_pos_bound|].
    replace (len (String (char62 (num mod 62)) acc)) with (len acc + 1) by (unfold len; simpl; lia).
    rewrite Z.pow_add_r by (unfold len; lia). rewrite Z.pow_1_r. rewrite (Z.div_mod num 62) at 3 by lia. ring.
  - split; [by apply Z.div_pos; lia|]. apply Z.div_lt_upper_bound; lia.
Qed.

(** [base62_roundtrip]: decoding takes encoding back, for every identifier of 63 bits. *)
Theorem base62_roundtrip num : 0 ≤ num < 2 ^ 63 → Decode62 (Encode62 num) = num.
Proof.
  intros Hn. unfold Decode62, Encode62. rewrite Decode62_loop_value by done. rewrite Encode62_loop_value.
  - change (len "") with 0. rewrite Z.pow_0_r. simpl value62. rewrite i64_small; [lia|]. unfold is_i64. lia.
  - split; [lia|]. change (62 ^ Z.of_nat 11) with 52036560683837093888. lia.
Qed.
Lemma Encode62_inj a b : 0 ≤ a < 2 ^ 63 → 0 ≤ b < 2 ^ 63 → Encode62 a = Encode62 b → a = b.
Proof.
  intros Ha Hb E. unfold Encode62 in E. apply (f_equal value62) in E. rewrite !Encode62_loop_value in E.
  - change (len "") with 0 in E. simpl in E. lia.
  - change (62 ^ Z.of_nat 11) with 52036560683837093888. lia.
  - change (62 ^ Z.of_nat 11) with 52036560683837093888. lia.
Qed.
Lemma Encode62_alnum num : all_bytes is_alnum (Encode62 num) = true.
Proof.
  unfold Encode62. assert (∀ fuel n acc, all_bytes is_alnum acc = true → all_bytes is_alnum (Encode62_loop fuel n acc) = true) as H; [|by apply H].
  induction fuel as [|fuel IH]; intros n acc Ha; cbn [Encode62_loop]; [done|]. destruct (0 <? n); [|done]. apply IH. simpl.
  destruct (digit62 (n mod 62)) as [_ ->]; [by apply Z.mod_pos_bound|done].
Qed.

(** ** Nodes *)

Section nodes.
Context {S : Type} (NextID : Z → M S Z).
(** The layout of the settings: the node in the low ten bits of a number of 63. *)
Hypothesis layout : ∀ node s n s', 0 ≤ node < 2 ^ 10 → NextID node s = (Ok n, s') → 0 < n < 2 ^ 63 ∧ n mod 2 ^ 10 = node.

(** C32: two nodes whose numbers differ, both accepted at the start, never
    make the same identifier. *)
Theorem identifiers_apart i j m n (s1 s1' s2 s2' : S) x : i ≠ j → NewNode i = Ok m → NewNode j = Ok n →
  Node_Generate NextID m s1 = (Ok x, s1') → Node_Generate NextID n s2 ≠ (Ok x, s2').
Proof using layout.
  intros Hij Hm Hn H1 H2. unfold NewNode in Hm, Hn. change maxNodeID with 1023 in *.
  destruct (_ || _) eqn:Em in Hm; [done|]. destruct (_ || _) eqn:En in Hn; [done|]. injection Hm as <-. injection Hn as <-.
  apply bind_ok in H1 as (a & w1 & H1 & [= <- _]). apply bind_ok in H2 as (b & w2 & H2 & [= E _]).
  apply layout in H1 as [Ha Ea]; [|lia]. apply layout in H2 as [Hb Eb]; [|lia]. apply Encode62_inj in E; [|lia..]. congruence.
Qed.
End nodes.

Module Base62Demo.
Lemma base62_roundtrip_witness : Encode62 (2 ^ 63 - 1) = "aZl8N0y58M7" ∧ Decode62 (Encode62 (2 ^ 63 - 1)) = 2 ^ 63 - 1.
Proof. split; [by vm_compute|]. apply base62_roundtrip. lia. Defined.

(** A clock of milliseconds, with no two identifiers in the same one. *)
Definition ids (node : Z) : M Z Z := λ t,
  if (0 <? t) && (t <? 2 ^ 41) then (Ok (t * 2 ^ 22 + node), t + 1) else (Err (errors_New "over the time limit"), t).
Lemma ids_layout node t n t' : 0 ≤ node < 2 ^ 10 → ids node t = (Ok n, t') → 0 < n < 2 ^ 63 ∧ n mod 2 ^ 10 = node.
Proof.
  unfold ids. destruct (Z.ltb_spec 0 t), (Z.ltb_spec t (2 ^ 41)); try done. intros Hn [= <- _]. simpl. split; [lia|].
  replace (t * 2 ^ 22 + node) with (node + t * 2 ^ 12 * 2 ^ 10) by ring. rewrite Z.mod_add by done. by apply Z.mod_small.
Qed.
Lemma identifiers_apart_witness : (Node_Generate ids 3 17).1 = Ok "4Pbd9" ∧ (Node_Generate ids 4 17).1 ≠ Ok "4Pbd9".
Proof.
  split; [by vm_compute|]. destruct (Node_Generate ids 4 17) as [x s'] eqn:E. simpl. intros ->.
  assert (3 ≠ 4) as Hne by lia.
  exact (identifiers_apart ids ids_layout 3 4 3 4 17 18 17 s' _ Hne eq_refl eq_refl eq_refl E).
Defined.
End Base62Demo.
