(* ===== verification/Hash.v ===== *)
(** Hash functions and the routing of documents to shards.

    - [Fnv64]: the 64-bit FNV-1a hash (pkg/zutils/hash/fnv64/fnv64.go).
    - [Rendezvous]: highest-random-weight hashing
      (pkg/zutils/hash/rendezvous/rendezvous.go), generic in the hasher as the code
      is. The mix function is proved injective on 64-bit words, which makes the
      choice of a node independent of the order in which nodes were added: the
      engine adds the shards of an index in Go's random map order. *)
From S2P Require Import Prelude.
#[local] Open Scope Z_scope.

(** The interface [hash.Hasher]: hash values are 64-bit words. *)
Class Hasher := {
  Sum64 : string → Z;
  Sum64_u64 : ∀ s, is_u64 (Sum64 s);
}.

Module Fnv64.
Definition offset64 : Z := 14695981039346656037.
Definition prime64 : Z := 1099511628211.

Fixpoint Sum64_loop (key : string) (hash : Z) : Z :=
  match key with
  | "" => hash
  | String c key =>
      let hash := Z.lxor hash (Z.of_N (N_of_ascii c)) in
      Sum64_loop key (u64 (hash * prime64))
  end.

Definition Sum64 (key : string) : Z := Sum64_loop key offset64.

Lemma Sum64_loop_u64 key h : is_u64 h → is_u64 (Sum64_loop key h).
Proof. revert h; induction key; simpl; auto with go. Qed.

#[export] Program Instance NewDefaultHasher : Hasher := {| Hash.Sum64 := Sum64 |}.
Next Obligation.
  intros s. apply Sum64_loop_u64. unfold is_u64, offset64. lia.
Qed.
End Fnv64.

(** [xorshiftMult64] of rendezvous.go. *)
Definition xorshiftMult64 (x : Z) : Z :=
  let x := Z.lxor x (Z.shiftr x 12) in
  let x := Z.lxor x (u64 (Z.shiftl x 25)) in
  let x := Z.lxor x (Z.shiftr x 27) in
  u64 (x * 0x2545F4914F6CDD1D).

Section mix.
Lemma is_u64_bits x : 0 ≤ x → (∀ i, 64 ≤ i → Z.testbit x i = false) → is_u64 x.
Proof.
  intros Hx Hi. split; [lia|]. destruct (decide (x = 0)) as [->|]; [lia|].
  destruct (Z.lt_ge_cases x (2 ^ 64)) as [|Hge]; [done|].
  pose proof (Z.bit_log2 x ltac:(lia)) as Hb. rewrite Hi in Hb; [done|].
  by apply Z.log2_le_pow2; lia.
Qed.

Lemma u64_testbit x i : is_u64 x → 64 ≤ i → Z.testbit x i = false.
Proof.
  intros Hx Hi. rewrite <- (u64_small x) by done. unfold u64.
  by rewrite Z.mod_pow2_bits_high by lia.
Qed.

Lemma lxor_u64 x y : is_u64 x → is_u64 y → is_u64 (Z.lxor x y).
Proof.
  intros Hx Hy. apply is_u64_bits.
  - unfold is_u64 in *. apply Z.lxor_nonneg; lia.
  - intros. rewrite Z.lxor_spec, !u64_testbit by done. done.
Qed.

Lemma shiftr_u64 x k : 0 ≤ k → is_u64 x → is_u64 (Z.shiftr x k).
Proof.
  intros Hk Hx. apply is_u64_bits.
  - apply Z.shiftr_nonneg. unfold is_u64 in *. lia.
  - intros. rewrite Z.shiftr_spec by lia. apply u64_testbit; [done|lia].
Qed.

(** A right xor-shift loses nothing: equal images have equal high bits, and so
    on downwards. *)
Lemma xorshift_right_inj k x y : 0 < k → is_u64 x → is_u64 y →
  Z.lxor x (Z.shiftr x k) = Z.lxor y (Z.shiftr y k) → x = y.
Proof.
  intros Hk Hx Hy Heq. apply Z.bits_inj'. intros i Hi.
  assert (∀ n j, 0 ≤ j → 64 - Z.of_nat n ≤ j → Z.testbit x j = Z.testbit y j)
    as Hall; [|by apply (Hall 64%nat); lia].
  induction n as [|n IH]; intros j Hj Hn.
  { rewrite !u64_testbit by (done || lia). done. }
  pose proof (f_equal (λ z, Z.testbit z j) Heq) as Hb. simpl in Hb.
  rewrite !Z.lxor_spec, !Z.shiftr_spec in Hb by lia.
  rewrite (IH (j + k)) in Hb by lia.
  by destruct (Z.testbit x j), (Z.testbit y j), (Z.testbit y (j + k)).
Qed.

Lemma xorshift_left_inj k x y : 0 < k → is_u64 x → is_u64 y →
  Z.lxor x (u64 (Z.shiftl x k)) = Z.lxor y (u64 (Z.shiftl y k)) → x = y.
Proof.
  intros Hk Hx Hy Heq. apply Z.bits_inj'. intros i Hi.
  assert (∀ n j, 0 ≤ j < Z.of_nat n → Z.testbit x j = Z.testbit y j)
    as Hall; [|by apply (Hall (Z.to_nat (i + 1))); lia].
  induction n as [|n IH]; intros j Hj; [lia|].
  destruct (Z.lt_ge_cases j 64); [|by rewrite !u64_testbit by (done || lia)].
  pose proof (f_equal (λ z, Z.testbit z j) Heq) as Hb. simpl in Hb.
  unfold u64 in Hb.
  rewrite !Z.lxor_spec, !Z.mod_pow2_bits_low, !Z.shiftl_spec in Hb by lia.
  destruct (Z.lt_ge_cases j k).
  - rewrite !(Z.testbit_neg_r _ (j - k)), !xorb_false_r in Hb by lia. done.
  - rewrite (IH (j - k)) in Hb by lia.
    by destruct (Z.testbit x j), (Z.testbit y j), (Z.testbit y (j - k)).
Qed.

(** The multiplier is odd, so multiplication by it is invertible modulo 2^64. *)
Lemma mul_inj x y : is_u64 x → is_u64 y →
  u64 (x * 0x2545F4914F6CDD1D) = u64 (y * 0x2545F4914F6CDD1D) → x = y.
Proof.
  intros Hx Hy Heq.
  assert (∀ z, is_u64 z →
    u64 (u64 (z * 0x2545F4914F6CDD1D) * 6415128727920758069) = z) as Hinv.
  { intros z Hz. unfold u64. rewrite Z.mul_mod_idemp_l by lia.
    rewrite <- Z.mul_assoc, <- Z.mul_mod_idemp_r by lia.
    assert ((0x2545F4914F6CDD1D * 6415128727920758069) mod 2 ^ 64 = 1) as ->
      by reflexivity.
    rewrite Z.mul_1_r. by apply u64_small. }
  rewrite <- (Hinv x), <- (Hinv y) by done. by rewrite Heq.
Qed.

Lemma xorshiftMult64_inj x y : is_u64 x → is_u64 y →
  xorshiftMult64 x = xorshiftMult64 y → x = y.
Proof.
  unfold xorshiftMult64. cbv zeta. intros Hx Hy H.
  assert (∀ z, is_u64 z → is_u64 (Z.lxor z (Z.shiftr z 12))) as H1
    by (intros; apply lxor_u64, shiftr_u64; (done || lia)).
  assert (∀ z, is_u64 z → is_u64 (Z.lxor z (u64 (Z.shiftl z 25)))) as H2
    by (intros; apply lxor_u64; auto with go).
  assert (∀ z, is_u64 z → is_u64 (Z.lxor z (Z.shiftr z 27))) as H3
    by (intros; apply lxor_u64, shiftr_u64; (done || lia)).
  apply mul_inj in H; auto.
  apply xorshift_right_inj in H; [|lia|auto..].
  apply xorshift_left_inj in H; [|lia|auto..].
  by apply xorshift_right_inj in H; [|lia|..].
Qed.
End mix.

Module Rendezvous.
Section rendezvous.
Context {hasher : Hasher}.

(** The ring of nodes: [nodes] maps a name to its position, [nstr] and [nhash]
    are the parallel slices of names and of their hashes. *)
Record t := Mk {
  nodes : gmap string nat;
  nstr : list string;
  nhash : list Z;
}.

Definition New : t := Mk ∅ [] [].

Definition score (khash nhash : Z) : Z := xorshiftMult64 (Z.lxor khash nhash).

(** The loop of [Lookup]: the position of the first greatest score so far. *)
Fixpoint Lookup_loop (khash : Z) (i : nat) (hs : list Z) (midx : nat) (mhash : Z)
  : nat * Z :=
  match hs with
  | [] => (midx, mhash)
  | nh :: hs =>
      let h := score khash nh in
      if mhash <? h then Lookup_loop khash (S i) hs i h
      else Lookup_loop khash (S i) hs midx mhash
  end.

(** [None] is the run-time panic of indexing an empty slice. *)
Definition Lookup (r : t) (k : string) : option string :=
  let '(midx, _) := Lookup_loop (Sum64 k) 0 (nhash r) 0 0 in
  nstr r !! midx.

Definition Contains (r : t) (node : string) : bool :=
  bool_decide (is_Some (nodes r !! node)).

Definition Add (r : t) (node : string) : t :=
  if Contains r node then r
  else Mk (<[node := length (nstr r)]> (nodes r)) (nstr r ++ [node])
          (nhash r ++ [Sum64 node]).

(** [Remove] reads [r.nstr[l]] and [r.nhash[l]] at [l = len(r.nstr)]. [None] is a
    panic. A name that is not a node has position 0, the zero value. *)
Definition Remove (r : t) (node : string) : option t :=
  let nidx := default 0%nat (nodes r !! node) in
  let l := length (nstr r) in
  last_s ← nstr r !! l;
  let nstr' := take l (<[nidx := last_s]> (nstr r)) in
  last_h ← nhash r !! l;
  let nhash' := take l (<[nidx := last_h]> (nhash r)) in
  moved ← nstr' !! nidx;
  Some (Mk (<[moved := nidx]> (delete node (nodes r))) nstr' nhash').

Definition List_ (r : t) : list string := nstr r.
Definition Len (r : t) : nat := length (nstr r).

(** [LookupTopN]: the nodes by decreasing score. *)
Definition higher (a b : string * Z) : Prop := b.2 ≤ a.2.
#[export] Instance higher_dec : RelDecision higher.
Proof. intros a b. unfold higher. apply _. Defined.
#[export] Instance higher_total : Total higher.
Proof. intros a b. unfold higher. lia. Qed.
#[export] Instance higher_trans : Transitive higher.
Proof. intros a b c. unfold higher. lia. Qed.

Definition LookupTopN (r : t) (k : string) (n : nat) : list string :=
  let scored := zip_with (λ s nh, (s, score (Sum64 k) nh)) (nstr r) (nhash r) in
  take n (merge_sort higher scored).*1.

(** The invariant of the ring. *)
Record wf (r : t) : Prop := {
  wf_hash : nhash r = Sum64 <$> nstr r;
  wf_nodup : NoDup (nstr r);
  wf_nodes : ∀ n i, nodes r !! n = Some i ↔ nstr r !! i = Some n;
}.

Definition AddAll (ns : list string) : t := foldl Add New ns.

Lemma New_wf : wf New.
Proof.
  split; simpl; [done|constructor|].
  intros n i. rewrite lookup_empty, lookup_nil. done.
Qed.

Lemma Add_wf r n : wf r → wf (Add r n).
Proof.
  intros [Hh Hnd Hn]. unfold Add, Contains. case_bool_decide as Hin; [done|].
  assert (nodes r !! n = None) as Hnone by (by destruct (nodes r !! n); [destruct Hin|]).
  split; simpl.
  - by rewrite fmap_app, <- Hh.
  - apply NoDup_app. repeat split; [done| |apply NoDup_singleton].
    intros x Hx ->%list_elem_of_singleton.
    apply list_elem_of_lookup in Hx as [i Hi]. apply Hn in Hi. congruence.
  - intros m i. rewrite lookup_insert. case_decide as Hm; subst.
    + rewrite lookup_app. split.
      * intros [= <-]. rewrite lookup_ge_None_2, Nat.sub_diag by lia. done.
      * intros Hi. destruct (nstr r !! i) eqn:E; simplify_eq.
        { apply Hn in E. congruence. }
        apply list_lookup_singleton_Some in Hi as [Hi _].
        apply lookup_ge_None in E. f_equal. lia.
    + rewrite Hn, lookup_app. destruct (nstr r !! i) eqn:E; [done|].
      split; [done|]. intros Hi. by apply list_lookup_singleton_Some in Hi as [_ [= ->]].
Qed.

Lemma AddAll_wf ns : wf (AddAll ns).
Proof.
  unfold AddAll. generalize New_wf. generalize New.
  induction ns; simpl; auto using Add_wf.
Qed.

Lemma elem_of_Add r n m : wf r → m ∈ nstr (Add r n) ↔ m = n ∨ m ∈ nstr r.
Proof.
  intros Hwf. unfold Add, Contains. case_bool_decide as Hin; simpl; [|set_solver].
  split; [auto|intros [->|?]; [|done]]. destruct Hin as [i Hi].
  apply (wf_nodes _ Hwf) in Hi. eauto using list_elem_of_lookup_2.
Qed.

Lemma elem_of_AddAll ns m : m ∈ nstr (AddAll ns) ↔ m ∈ ns.
Proof.
  unfold AddAll. enough (∀ r, wf r → m ∈ nstr (foldl Add r ns) ↔ m ∈ nstr r ∨ m ∈ ns)
    as Hr by (rewrite Hr by apply New_wf; set_solver).
  induction ns as [|n ns IH]; intros r Hr; simpl; [set_solver|].
  rewrite IH by auto using Add_wf. rewrite elem_of_Add by done. set_solver.
Qed.

(** The loop returns the position of a greatest score, at least the initial one. *)
Lemma Lookup_loop_spec kh i hs midx mh :
  let '(p, h) := Lookup_loop kh i hs midx mh in
  mh ≤ h ∧ (∀ nh, nh ∈ hs → score kh nh ≤ h) ∧
  (p = midx ∧ h = mh ∨ ∃ j nh, p = (i + j)%nat ∧ hs !! j = Some nh ∧ h = score kh nh).
Proof.
  revert i midx mh. induction hs as [|nh hs IH]; intros i midx mh; simpl.
  { split; [lia|]. split; [set_solver|]. by left. }
  destruct (mh <? score kh nh) eqn:E; prop_bool.
  - specialize (IH (S i) i (score kh nh)).
    destruct (Lookup_loop _ _ _ _ _) as [p h]. destruct IH as (Hle & Hall & Hp).
    split; [lia|]. split; [intros ? [->|?]%elem_of_cons; auto; lia|].
    right. destruct Hp as [[-> ->]|(j & nh' & -> & ? & ->)].
    + exists 0%nat, nh. split_and!; [lia|done|done].
    + exists (S j), nh'. split_and!; [lia|done|done].
  - specialize (IH (S i) midx mh).
    destruct (Lookup_loop _ _ _ _ _) as [p h]. destruct IH as (Hle & Hall & Hp).
    split; [lia|]. split; [intros ? [->|?]%elem_of_cons; auto; lia|].
    destruct Hp as [[-> ->]|(j & nh' & -> & ? & ->)]; [by left|right].
    exists (S j), nh'. split_and!; [lia|done|done].
Qed.

Lemma score_nonneg kh nh : 0 ≤ score kh nh.
Proof. unfold score, xorshiftMult64. cbv zeta. apply u64_range. Qed.

Lemma score_inj k n m :
  score (Sum64 k) (Sum64 n) = score (Sum64 k) (Sum64 m) → Sum64 n = Sum64 m.
Proof.
  intros H. apply xorshiftMult64_inj in H; [|auto using lxor_u64, Sum64_u64..].
  apply (f_equal (Z.lxor (Sum64 k))) in H.
  by rewrite <- !Z.lxor_assoc, Z.lxor_nilpotent, !Z.lxor_0_l in H.
Qed.

(** Lookup on a non-empty ring answers with a node of the greatest score. *)
Lemma Lookup_max r k : wf r → nstr r ≠ [] →
  ∃ m, Lookup r k = Some m ∧ m ∈ nstr r ∧
       ∀ n, n ∈ nstr r → score (Sum64 k) (Sum64 n) ≤ score (Sum64 k) (Sum64 m).
Proof.
  intros Hwf Hne. unfold Lookup.
  pose proof (Lookup_loop_spec (Sum64 k) 0 (nhash r) 0 0) as Hspec.
  destruct (Lookup_loop _ _ _ _ _) as [p h]. destruct Hspec as (_ & Hall & Hp).
  assert (∀ n, n ∈ nstr r → score (Sum64 k) (Sum64 n) ≤ h) as Hmax.
  { intros n Hn. apply Hall. rewrite (wf_hash _ Hwf). by apply list_elem_of_fmap_2. }
  destruct Hp as [[-> ->]|(j & nh & -> & Hj & ->)].
  - destruct (nstr r) as [|m l] eqn:E; [done|]. exists m. split; [done|]. split; [left|].
    intros n Hn. specialize (Hmax n Hn). pose proof (score_nonneg (Sum64 k) (Sum64 m)). lia.
  - rewrite (wf_hash _ Hwf), list_lookup_fmap in Hj.
    destruct (nstr r !! j) as [m|] eqn:Em; simplify_eq/=.
    exists m. split; [done|]. split; [by eapply list_elem_of_lookup_2|done].
Qed.

Lemma Lookup_max_unique r k m : wf r → NoDup (Sum64 <$> nstr r) → m ∈ nstr r →
  (∀ n, n ∈ nstr r → score (Sum64 k) (Sum64 n) ≤ score (Sum64 k) (Sum64 m)) →
  Lookup r k = Some m.
Proof.
  intros Hwf Hnd Hm Hmax.
  destruct (Lookup_max r k Hwf) as (m' & -> & Hm' & Hmax'); [by intros E; rewrite E in Hm; inversion Hm|].
  f_equal. specialize (Hmax m' Hm'). specialize (Hmax' m Hm).
  assert (Sum64 m' = Sum64 m) as Heq by (apply (score_inj k); lia).
  apply list_elem_of_lookup in Hm as [i Hi]. apply list_elem_of_lookup in Hm' as [j Hj].
  assert (i = j) as <-; [|congruence].
  eapply NoDup_lookup; [done| |]; rewrite list_lookup_fmap.
  - rewrite Hi. done.
  - rewrite Hj. simpl. by f_equal.
Qed.

(** C38: the choice does not depend on the order of insertion: two rings built from
    the same node names, whose hashes are distinct, agree on every key. *)
Theorem Lookup_order_independent (ns1 ns2 : list string) (k : string) :
  ns1 ≡ₚ ns2 → NoDup (Sum64 <$> ns1) →
  Lookup (AddAll ns1) k = Lookup (AddAll ns2) k.
Proof.
  intros Hp Hnd. destruct (decide (ns1 = [])) as [->|Hne].
  { apply Permutation_nil in Hp as ->. done. }
  pose proof (AddAll_wf ns1) as Hwf1. pose proof (AddAll_wf ns2) as Hwf2.
  destruct (Lookup_max (AddAll ns1) k Hwf1) as (m & Hm & Hin & Hmax).
  { destruct ns1 as [|n ns1']; [done|]. intros E.
    assert (n ∈ nstr (AddAll (n :: ns1'))) as Hn by (rewrite elem_of_AddAll; left).
    rewrite E in Hn. inversion Hn. }
  rewrite Hm. symmetry. apply Lookup_max_unique; [done| | |].
  - assert (nstr (AddAll ns2) ≡ₚ ns2) as ->.
    { apply NoDup_Permutation; [by apply wf_nodup| |intros; apply elem_of_AddAll].
      eapply NoDup_fmap_1. by rewrite <- Hp. }
    by rewrite <- Hp.
  - rewrite elem_of_AddAll, <- Hp, <- elem_of_AddAll. done.
  - intros n Hn. apply Hmax. rewrite elem_of_AddAll, Hp, <- elem_of_AddAll. done.
Qed.

Lemma Lookup_loop_app kh i hs1 hs2 midx mh :
  Lookup_loop kh i (hs1 ++ hs2) midx mh =
  let '(p, h) := Lookup_loop kh i hs1 midx mh in
  Lookup_loop kh (i + length hs1) hs2 p h.
Proof.
  revert i midx mh. induction hs1 as [|nh hs1 IH]; intros i midx mh; simpl.
  { by rewrite Nat.add_0_r. }
  by case_match; rewrite IH, <- plus_n_Sm.
Qed.

(** [Add_minimal_disruption]: minimal disruption: adding a node moves keys to that node only. *)
Theorem Add_minimal_disruption (r : t) (n k m : string) :
  wf r → nstr r ≠ [] → Lookup (Add r n) k = Some m → m = n ∨ Lookup r k = Some m.
Proof.
  intros Hwf Hne. unfold Add. destruct (Contains r n); [by right|].
  unfold Lookup. simpl. rewrite Lookup_loop_app.
  pose proof (Lookup_loop_spec (Sum64 k) 0 (nhash r) 0 0) as Hspec.
  destruct (Lookup_loop _ _ _ _ _) as [p h]. destruct Hspec as (_ & _ & Hp).
  simpl. rewrite (wf_hash _ Hwf), length_fmap. destruct (h <? _); simpl.
  - rewrite list_lookup_middle by done. intros [= ->]. by left.
  - assert (p < length (nstr r))%nat as Hlt.
    { destruct Hp as [[-> _]|(j & nh & -> & Hj & _)].
      - destruct (nstr r); [done|simpl; lia].
      - apply lookup_lt_Some in Hj. by rewrite (wf_hash _ Hwf), length_fmap in Hj. }
    rewrite lookup_app_l by done. by right.
Qed.

(** [Remove_always_panics]: [Remove] cannot succeed: it reads one element past the end of the slice. *)
Theorem Remove_always_panics (r : t) (n : string) : Remove r n = None.
Proof. unfold Remove. cbv zeta. by rewrite (lookup_ge_None_2 (nstr r) (length (nstr r))). Qed.
End rendezvous.

#[local] Existing Instance Fnv64.NewDefaultHasher.

Lemma Lookup_order_independent_witness :
  Lookup (AddAll ["a"; "b"]) "k" = Lookup (AddAll ["b"; "a"]) "k".
Proof.
  apply (Lookup_order_independent ["a"; "b"] ["b"; "a"] "k"); [by constructor|].
  apply (bool_decide_unpack _). by vm_compute.
Defined.

Lemma Add_minimal_disruption_witness : ∃ m,
  Lookup (Add (AddAll ["a"; "b"]) "c") "k" = Some m ∧
  (m = "c" ∨ Lookup (AddAll ["a"; "b"]) "k" = Some m).
Proof.
  destruct (Lookup (Add (AddAll ["a"; "b"]) "c") "k") as [m|] eqn:E; [|by vm_compute in E].
  exists m. split; [done|].
  by apply (Add_minimal_disruption (AddAll ["a"; "b"]) "c" "k" m (AddAll_wf _)).
Defined.
End Rendezvous.
