(* ===== verification/Wire.v ===== *)
(** The messages of the replication stream (pkg/streaming/wire/wire.go).

    The bytes of a message are JSON; [json] is the value a JSON text denotes, and a
    message body is [option json], [None] for a text that is not JSON. Objects keep
    the order and the repetitions of their members, so decoding shows which member
    wins. [Encode] writes the members [encoding/json] writes, [omitempty] included;
    [Decode] matches member names without regard to ASCII case and validates the
    envelope. [Decode_Encode] is the round trip of producers and consumers. *)
From S2P Require Import Prelude Strings.

Inductive json :=
| JNull
| JBool (b : bool)
| JNum (text : string)
| JStr (s : string)
| JArr (l : list json)
| JObj (o : list (string * json)).

(** The members of a decoded Go map: assignment replaces or appends. *)
Definition obj := list (string * json).

Fixpoint obj_set (k : string) (v : json) (o : obj) : obj :=
  match o with
  | [] => [(k, v)]
  | (k', v') :: o => if decide (k = k') then (k, v) :: o else (k', v') :: obj_set k v o
  end.

Definition obj_of (members : list (string * json)) (into : obj) : obj :=
  foldl (λ o kv, obj_set kv.1 kv.2 o) into members.

(** The value stored in an [interface{}]: repeated members collapse. *)
Fixpoint to_interface (j : json) : json :=
  match j with
  | JArr l => JArr (map to_interface l)
  | JObj o => JObj (obj_of (map (λ kv, (kv.1, to_interface kv.2)) o) [])
  | _ => j
  end.

Definition to_map (members : list (string * json)) (into : obj) : obj :=
  obj_of (map (λ kv, (kv.1, to_interface kv.2)) members) into.

#[global] Arguments to_map : simpl never.

(** ** Messages *)

Definition KindDoc : string := "doc".
Definition KindDocs : string := "docs".
Definition KindAdmin : string := "admin".

Definition OpCreateIndex : string := "create_index".
Definition OpDeleteIndex : string := "delete_index".
Definition OpSetMapping : string := "set_mapping".

(** [None] is the nil map. *)
Record Doc := MkDoc { doc_ID : string; doc_Doc : option obj }.

Record Message := MkMessage {
  Kind : string;
  Index : string;
  ID : string;
  MDoc : option obj;
  Docs : list Doc;
  Op : string;
  Data : option json;  (** [json.RawMessage], [None] when empty *)
}.

Definition zero_Message : Message := MkMessage "" "" "" None [] "" None.

Definition PermanentErrorTag : string := "wire.PermanentError".
Definition PermanentError (err : error) : error :=
  Error ("permanent: " +:+ err_text err) (PermanentErrorTag :: err_tags err).
Definition Permanent (text : string) : error := PermanentError (errors_New text).
Definition IsPermanent (e : error) : bool := bool_decide (PermanentErrorTag ∈ err_tags e).

Definition NewDoc (index id : string) (doc : option obj) : Message :=
  MkMessage KindDoc index id doc [] "" None.
Definition NewDocs (index : string) (docs : list Doc) : Message :=
  MkMessage KindDocs index "" None docs "" None.
(** [data] is already marshalled; [None] is a nil argument. *)
Definition NewAdmin (index op : string) (data : option json) : Message :=
  MkMessage KindAdmin index "" None [] op data.

(** ** Encode *)

Definition member (name : string) (v : option json) : list (string * json) :=
  match v with Some v => [(name, v)] | None => [] end.

Definition omit_str (s : string) : option json :=
  if decide (s = "") then None else Some (JStr s).
Definition omit_map (o : option obj) : option json :=
  match o with None | Some [] => None | Some o => Some (JObj o) end.
Definition map_json (o : option obj) : json :=
  match o with Some o => JObj o | None => JNull end.

Definition encode_Doc (d : Doc) : json :=
  JObj (member "id" (omit_str (doc_ID d)) ++ member "doc" (Some (map_json (doc_Doc d)))).

Definition omit_docs (ds : list Doc) : option json :=
  match ds with [] => None | _ => Some (JArr (map encode_Doc ds)) end.

Definition Encode (m : Message) : json :=
  JObj (member "kind" (Some (JStr (Kind m))) ++
        member "index" (Some (JStr (Index m))) ++
        member "id" (omit_str (ID m)) ++
        member "doc" (omit_map (MDoc m)) ++
        member "docs" (omit_docs (Docs m)) ++
        member "op" (omit_str (Op m)) ++
        member "data" (Data m)).

(** ** Decode *)

Definition to_lower_byte (c : ascii) : ascii :=
  if in_range "A" "Z" c then ascii_of_N (N_of_ascii c + 32) else c.
Fixpoint to_lower (s : string) : string :=
  match s with "" => "" | String c s => String (to_lower_byte c) (to_lower s) end.

Definition ErrUnmarshal : error := errors_New "json: cannot unmarshal".

(** Decoding into a field that already holds [old]; null leaves it unchanged. *)
Definition get_str (v : json) (old : string) : res string :=
  match v with JStr s => Ok s | JNull => Ok old | _ => Err ErrUnmarshal end.
(** null sets a map to nil; an object is merged into the map that is there. *)
Definition get_map (v : json) (old : option obj) : res (option obj) :=
  match v with
  | JObj o => Ok (Some (to_map o (default [] old)))
  | JNull => Ok None
  | _ => Err ErrUnmarshal
  end.

Definition set_doc_field (d : Doc) (kv : string * json) : res Doc :=
  let k := to_lower kv.1 in
  if decide (k = "id") then s ← get_str kv.2 (doc_ID d); Ok (MkDoc s (doc_Doc d))
  else if decide (k = "doc") then o ← get_map kv.2 (doc_Doc d); Ok (MkDoc (doc_ID d) o)
  else Ok d.

Fixpoint fold_res {A B} (f : A → B → res A) (a : A) (l : list B) : res A :=
  match l with [] => Ok a | b :: l => a ← f a b; fold_res f a l end.

Definition decode_Doc (v : json) : res Doc :=
  match v with
  | JObj o => fold_res set_doc_field (MkDoc "" None) o
  | JNull => Ok (MkDoc "" None)
  | _ => Err ErrUnmarshal
  end.

Fixpoint map_res {A B} (f : A → res B) (l : list A) : res (list B) :=
  match l with
  | [] => Ok []
  | a :: l => b ← f a; bs ← map_res f l; Ok (b :: bs)
  end.

Definition get_docs (v : json) : res (list Doc) :=
  match v with
  | JArr l => map_res decode_Doc l
  | JNull => Ok []
  | _ => Err ErrUnmarshal
  end.

Definition set_field (m : Message) (kv : string * json) : res Message :=
  let '(MkMessage kind index id doc docs op data) := m in
  let k := to_lower kv.1 in let v := kv.2 in
  if decide (k = "kind") then s ← get_str v kind; Ok (MkMessage s index id doc docs op data)
  else if decide (k = "index") then s ← get_str v index; Ok (MkMessage kind s id doc docs op data)
  else if decide (k = "id") then s ← get_str v id; Ok (MkMessage kind index s doc docs op data)
  else if decide (k = "doc") then o ← get_map v doc; Ok (MkMessage kind index id o docs op data)
  else if decide (k = "docs") then l ← get_docs v; Ok (MkMessage kind index id doc l op data)
  else if decide (k = "op") then s ← get_str v op; Ok (MkMessage kind index id doc docs s data)
  else if decide (k = "data") then Ok (MkMessage kind index id doc docs op (Some v))
  else Ok m.

(** [json.Unmarshal(data, m)] into a new message. *)
Definition unmarshal_Message (data : option json) : res Message :=
  match data with
  | Some (JObj o) => fold_res set_field zero_Message o
  | Some JNull => Ok zero_Message
  | _ => Err ErrUnmarshal
  end.

(** The checks of [Decode] on the parsed message. *)
Definition validate (m : Message) : res Message :=
  if decide (Kind m = KindDoc) then
    if decide (Index m = "") then Err (Permanent "document message without index")
    else match MDoc m with
         | None => Err (Permanent "document message without doc")
         | Some _ => Ok m
         end
  else if decide (Kind m = KindDocs) then
    if decide (Index m = "") then Err (Permanent "docs message without index")
    else match Docs m with
         | [] => Err (Permanent "docs message without documents")
         | ds => match list_find (λ d, doc_Doc d = None) ds with
                 | Some (i, _) => Err (Permanent ("docs message: document " +:+
                                                  pretty i +:+ " is empty"))
                 | None => Ok m
                 end
         end
  else if decide (Kind m = KindAdmin) then
    if decide (Index m = "") then Err (Permanent "admin message without index")
    else if decide (Op m = "") then Err (Permanent "admin message without op")
    else Ok m
  else Err (Permanent ("unknown message kind " +:+ Kind m)).

Definition Decode (data : option json) : res Message :=
  match unmarshal_Message data with
  | Err e => Err (Permanent ("decode message: " +:+ err_text e))
  | Ok m => validate m
  end.

(** Decoding again cannot fix a message that does not decode. *)
Lemma Decode_permanent data e : Decode data = Err e → IsPermanent e = true.
Proof.
  unfold Decode. destruct (unmarshal_Message data) as [m|e']; [|by intros [= <-]].
  unfold validate. repeat case_match; intros [= <-]; done.
Qed.

(** ** Round trip *)

(** Go maps: no member is repeated, at any depth. *)
Definition is_map (o : obj) : Prop := to_map o [] = o.
Definition is_doc (o : option obj) : Prop := from_option is_map True o.

Definition go_message (m : Message) : Prop :=
  is_doc (MDoc m) ∧ Forall (λ d, is_doc (doc_Doc d)) (Docs m).

(** What [omitempty] cannot express: an empty, non-nil document of a [doc] message; its
    member is left out, as that of nil. *)
Definition omitted (m : Message) : Message :=
  match MDoc m with
  | Some [] => MkMessage (Kind m) (Index m) (ID m) None (Docs m) (Op m) (Data m)
  | _ => m
  end.

Lemma fold_res_app {A B} (f : A → B → res A) a l k :
  fold_res f a (l ++ k) = a ← fold_res f a l; fold_res f a k.
Proof.
  revert a. induction l as [|b l IH]; intros a; simpl; [done|].
  destruct (f a b); simpl; auto.
Qed.

Lemma decode_encode_Doc d : is_doc (doc_Doc d) → decode_Doc (encode_Doc d) = Ok d.
Proof.
  destruct d as [id [o|]]; simpl; intros Hd; unfold omit_str; case_decide; subst; simpl;
    unfold set_doc_field; simpl; try rewrite Hd; done.
Qed.

Lemma get_docs_encode ds : Forall (λ d, is_doc (doc_Doc d)) ds →
  map_res decode_Doc (map encode_Doc ds) = Ok ds.
Proof.
  induction 1 as [|d ds Hd _ IH]; [done|]. cbn [map map_res].
  rewrite decode_encode_Doc by done. simpl. by rewrite IH.
Qed.

(** Decoding one optional member of an encoded message. *)
Section members.
Variables (kind index id op : string) (doc : option obj) (docs : list Doc) (data : option json).
#[local] Abbreviation mk := MkMessage.

Lemma dec_id s : fold_res set_field (mk kind index "" doc docs op data)
    (member "id" (omit_str s)) = Ok (mk kind index s doc docs op data).
Proof. unfold omit_str. case_decide; subst; done. Qed.

Lemma dec_doc o : is_doc o →
  fold_res set_field (mk kind index id None docs op data)
    (member "doc" (omit_map o)) = Ok (omitted (mk kind index id o docs op data)).
Proof.
  destruct o as [[|kv o]|]; [done| |done]. intros Hd. simpl in *. by rewrite Hd.
Qed.

Lemma dec_docs ds : Forall (λ d, is_doc (doc_Doc d)) ds →
  fold_res set_field (mk kind index id doc [] op data)
    (member "docs" (omit_docs ds)) = Ok (mk kind index id doc ds op data).
Proof.
  destruct ds as [|d ds]; [done|]. intros Hd.
  cbn [omit_docs member fold_res set_field]. simpl (decide _).
  cbn [snd get_docs]. by rewrite get_docs_encode.
Qed.

Lemma dec_op s : fold_res set_field (mk kind index id doc docs "" data)
    (member "op" (omit_str s)) = Ok (mk kind index id doc docs s data).
Proof. unfold omit_str. case_decide; subst; done. Qed.

Lemma dec_data d : fold_res set_field (mk kind index id doc docs op None)
    (member "data" d) = Ok (mk kind index id doc docs op d).
Proof. by destruct d. Qed.
End members.

(** C39: a consumer that decodes what a producer encoded sees the producer's message:
    [Decode] after [Encode] is the validation of the message itself, except that an
    empty document that is not nil is taken for none, as its member is left out. *)
Theorem Decode_Encode (m : Message) : go_message m →
  Decode (Some (Encode m)) = validate (omitted m) ∧ (MDoc m ≠ Some [] → omitted m = m).
Proof.
  intros (Hdoc & Hdocs). split; [|by intros Hne; unfold omitted; destruct (MDoc m) as [[|??]|]].
  unfold Decode, unmarshal_Message, Encode.
  destruct m as [kind index id doc docs op data]; simpl in *.
  cbn [fold_res set_field]. simpl (decide _). cbn [snd get_str mbind res_bind].
  rewrite !fold_res_app, dec_id. simpl. rewrite fold_res_app, dec_doc by done.
  assert (omitted (MkMessage kind index id doc [] "" None) =
          MkMessage kind index id (MDoc (omitted (MkMessage kind index id doc [] "" None))) [] "" None) as -> by by destruct doc as [[|]|].
  simpl. rewrite fold_res_app, dec_docs by done. simpl.
  rewrite fold_res_app, dec_op; simpl; rewrite dec_data. f_equal. by destruct doc as [[|]|].
Qed.

(** [Decode_Encode_empty_doc]: the gap of [omitempty]: an empty document published with [NewDoc] is rejected
    by every consumer. *)
Theorem Decode_Encode_empty_doc (index id : string) : index ≠ "" →
  Decode (Some (Encode (NewDoc index id (Some [])))) =
  Err (Permanent "document message without doc").
Proof.
  intros Hi. unfold Decode, unmarshal_Message, Encode. simpl.
  rewrite !fold_res_app, dec_id. simpl. unfold validate; simpl.
  by rewrite decide_False.
Qed.

Lemma Decode_Encode_witness :
  let m := NewDoc "logs" "1" (Some [("msg", JStr "hi")]) in
  Decode (Some (Encode m)) = Ok m ∧ is_ok (Decode (Some (Encode (NewDoc "logs" "1" (Some []))))) = false.
Proof.
  split; [|by rewrite (proj1 (Decode_Encode (NewDoc "logs" "1" (Some [])) ltac:(by repeat constructor)))].
  rewrite (proj1 (Decode_Encode (NewDoc "logs" "1" (Some [("msg", JStr "hi")])) ltac:(by repeat constructor))). done.
Defined.

Lemma Decode_Encode_empty_doc_witness :
  Decode (Some (Encode (NewDoc "logs" "1" (Some [])))) =
  Err (Permanent "document message without doc").
Proof. by apply (Decode_Encode_empty_doc "logs" "1"). Defined.
