(* ===== verification/State.v ===== *)
(** The state store of the coordinator (pkg/coordinator/state).

    - [Store]: the interface of state.go, its operations and, in [StoreLaws], what
      its comments promise. The coordinator's theorems are proved against it.
    - [Mem]: the in-memory store of mem.go, shown to keep the promises.
    - [Lease]: the leader lease of state.go, and the system of several instances
      that interleave their reads and compare-and-set writes on one [Mem]. *)
From S2P Require Import Prelude Strings.
#[local] Open Scope Z_scope.

(** ** Time

    A [time.Time] is its count of nanoseconds since 1970; the zero time is year 1.
    [Sub] saturates to the range of a [time.Duration]. *)
Definition time_zero : Z := -62135596800000000000.
Definition IsZero (t : Z) : bool := t =? time_zero.
Definition Sub (t u : Z) : Z := Z.max i64_min (Z.min i64_max (t - u)).
Definition Before (t u : Z) : bool := t <? u.
Definition After (t u : Z) : bool := u <? t.

(** ** Errors and keys of state.go *)

Definition ErrNotFound : error := sentinel "state.ErrNotFound" "state: not found".
Definition ErrConflict : error := sentinel "state.ErrConflict" "state: revision conflict".
Definition ErrInvalidKey : error := sentinel "state.ErrInvalidKey" "state: invalid key".

Definition key_byte (c : ascii) : bool :=
  is_alnum c || bool_decide (c ∈ ["/"; "_"; "="; "."; "-"]%char).

(** The regular expression of [keyRe]. *)
Definition ValidKey (key : string) : bool :=
  match key with
  | "" => false
  | String c s => is_alnum c && all_bytes key_byte s && (len s <=? 254)
  end.

(** ** The interface *)

Record Entry (V : Type) := MkEntry { Key : string; Value : V; Revision : Z }.
Arguments MkEntry {_}. Arguments Key {_}. Arguments Value {_}. Arguments Revision {_}.

(** [V] is the type of stored bytes, [S] the state of the store and of whatever
    decides whether a call fails. *)
Class Store (V S : Type) := {
  Get : string → M S (Entry V);
Create : string → V → M S Z;
Update : string → V → Z → M S Z;
Delete : string → M S ();
ListPrefix : string → M S (list (Entry V));
}.

(** [json.Marshal] and [json.Unmarshal] of one type of record. *)
Class JSON (V A : Type) := {
  marshal : A → V;
  unmarshal : V → option A;
  unmarshal_marshal : ∀ a, unmarshal (marshal a) = Some a;
}.

Section json.
Context {V S : Type} `{!Store V S} {A : Type} `{!JSON V A}.

Definition ErrInvalidJSON (key : string) : error :=
  errors_New ("state: " +:+ key +:+ " holds invalid JSON").

Definition GetJSON (key : string) : M S (A * Z) :=
  e ← Get key;
  v ← lift (of_option (ErrInvalidJSON key) (unmarshal (Value e)));
  mret (v, Revision e).
Definition CreateJSON (key : string) (v : A) : M S Z := Create key (marshal v).
Definition UpdateJSON (key : string) (v : A) (expected : Z) : M S Z :=
  Update key (marshal v) expected.
End json.

(** What the comments of the interface promise, over the contents [view] of the
    store: key, value and revision of every entry. [store_ok] is the invariant of the
    implementation. A write that fails with anything
    but the documented errors may or may not have happened. *)
Class StoreLaws (V S : Type) `{!Store V S} := {
  view : S → gmap string (V * Z);
  store_ok : S → Prop;
  Get_law key s r s' : store_ok s → Get key s = (r, s') →
    store_ok s' ∧ view s' = view s ∧
    match r with
    | Ok e => view s !! key = Some (Value e, Revision e)
    | Err e => errors_Is e ErrNotFound = true → view s !! key = None
    end;
  Create_law key v s r s' : store_ok s → Create key v s = (r, s') →
    store_ok s' ∧
    match r with
    | Ok rev => view s !! key = None ∧ view s' = <[key := (v, rev)]> (view s)
    | Err e =>
        (errors_Is e ErrConflict = true → view s' = view s ∧ is_Some (view s !! key)) ∧
        (view s' = view s ∨
           view s !! key = None ∧ ∃ rev, view s' = <[key := (v, rev)]> (view s))
    end;
  Update_law key v expected s r s' : store_ok s → Update key v expected s = (r, s') →
    store_ok s' ∧
    match r with
    | Ok rev => (∃ old, view s !! key = Some (old, expected)) ∧
                view s' = <[key := (v, rev)]> (view s)
    | Err e =>
        (errors_Is e ErrConflict = true → view s' = view s ∧
           ∃ old rev, view s !! key = Some (old, rev) ∧ rev ≠ expected) ∧
        (errors_Is e ErrNotFound = true → view s' = view s ∧ view s !! key = None) ∧
        (view s' = view s ∨
           (∃ old, view s !! key = Some (old, expected)) ∧
           ∃ rev, view s' = <[key := (v, rev)]> (view s))
    end;
  Delete_law key s r s' : store_ok s → Delete key s = (r, s') →
    store_ok s' ∧
    match r with
    | Ok _ => view s' = delete key (view s)
    | Err e => view s' = view s ∨ view s' = delete key (view s)
    end;
  (** [ListPrefix] returns exactly the entries with the prefix, ordered by key. *)
  List_law prefix s r s' : store_ok s → ListPrefix prefix s = (r, s') →
    store_ok s' ∧ view s' = view s ∧
    ∀ es, r = Ok es →
      StronglySorted (λ a b, String.le (Key a) (Key b)) es ∧ NoDup (Key <$> es) ∧
      ∀ k v rev, (∃ e, e ∈ es ∧ Key e = k ∧ Value e = v ∧ Revision e = rev) ↔
                 view s !! k = Some (v, rev) ∧ HasPrefix k prefix = true;
}.

(** A typed read, in terms of the contents. *)
Lemma GetJSON_spec {V S A} `{!Store V S, !StoreLaws V S, !JSON V A} key s r s' :
  store_ok s → GetJSON (A := A) key s = (r, s') →
  store_ok s' ∧ view s' = view s ∧
  match r with
  | Ok (a, rev) => ∃ v, view s !! key = Some (v, rev) ∧ unmarshal v = Some a
  | Err e => errors_Is e ErrNotFound = true → view s !! key = None
  end.
Proof.
  intros Hok H. unfold GetJSON in H. apply bind_inv in H as [(e & Hg & ->)|(e & s1 & Hg & H)];
    apply Get_law in Hg as (Hok' & Hv & Hr); try done.
  unfold lift, mbind, M_bind, mret, M_ret in H.
  destruct (unmarshal (Value e)) as [a|] eqn:E; simplify_eq/=; split_and!; eauto; done.
Qed.

(** ** Mem *)

Module Mem.
Section mem.
Context {V : Type}.

Record t := Mk { entries : gmap string (Entry V); rev : Z }.

Definition NewMem : t := Mk ∅ 0.

(** [copyBytes] is the identity on values. *)
Definition Get (key : string) : M t (Entry V) := λ m,
  match entries m !! key with
  | None => (Err ErrNotFound, m)
  | Some e => (Ok e, m)
  end.

(** [m.rev++] and the assignment of the entry. *)
Definition put (key : string) (value : V) : M t Z := λ m,
  let r := u64 (rev m + 1) in
  (Ok r, Mk (<[key := MkEntry key value r]> (entries m)) r).

Definition Create (key : string) (value : V) : M t Z :=
  if negb (ValidKey key) then throw ErrInvalidKey else
  m ← get_state;
  match entries m !! key with
  | Some _ => throw ErrConflict
  | None => put key value
  end.

Definition Update (key : string) (value : V) (expected : Z) : M t Z :=
  if negb (ValidKey key) then throw ErrInvalidKey else
  m ← get_state;
  match entries m !! key with
  | None => throw ErrNotFound
  | Some e => if Revision e =? expected then put key value else throw ErrConflict
  end.

Definition Delete (key : string) : M t () :=
  modify (λ m, Mk (delete key (entries m)) (rev m)).

(** [List]: the entries with the prefix, ordered by key. *)
Definition by_key (a b : Entry V) : Prop := String.le (Key a) (Key b).
#[export] Instance by_key_dec : RelDecision by_key.
Proof. intros a b. unfold by_key. apply _. Defined.
#[export] Instance by_key_total : Total by_key.
Proof. intros a b. unfold by_key. apply String.le_total. Qed.
#[export] Instance by_key_trans : Transitive by_key.
Proof. intros a b c. unfold by_key. apply transitivity. Qed.

Definition List_ (prefix : string) : M t (list (Entry V)) :=
  gets (λ m, merge_sort by_key
    (filter (λ e, HasPrefix (Key e) prefix = true) (map_to_list (entries m)).*2)).

#[export] Instance Mem_Store : Store V t := {|
  State.Get := Get; State.Create := Create; State.Update := Update;
  State.Delete := Delete; State.ListPrefix := List_;
|}.

Definition contents (m : t) : gmap string (V * Z) :=
  (λ e, (Value e, Revision e)) <$> entries m.

(** Entries carry their key, no revision is ahead of the counter, and the counter
    has not run out of 64-bit values. *)
Record ok (m : t) : Prop := {
  ok_key : ∀ k e, entries m !! k = Some e → Key e = k;
  ok_rev : ∀ k e, entries m !! k = Some e → 0 < Revision e ≤ rev m;
  ok_counter : 0 ≤ rev m < u64_max;
}.

Lemma rev_succ m : ok m → u64 (rev m + 1) = rev m + 1.
Proof. intros [_ _ H]. apply u64_small. unfold is_u64, u64_max in *. lia. Qed.

Lemma ok_NewMem : ok NewMem.
Proof. split; simpl; [intros; simplify_map_eq..|]. unfold u64_max. lia. Qed.

(** A write keeps the invariant as long as the counter lasts. *)
Lemma put_ok key v m : ok m → rev m + 1 < u64_max → ok (put key v m).2.
Proof.
  intros Hok Hc. pose proof (rev_succ m Hok) as Hr. destruct Hok as [Hk Hrv Hn].
  unfold put. simpl. rewrite Hr. split; simpl.
  - intros k e. rewrite lookup_insert. case_decide; [naive_solver|eauto].
  - intros k e. rewrite lookup_insert. case_decide.
    + intros [= <-]. simpl. lia.
    + intros He. specialize (Hrv _ _ He). lia.
  - lia.
Qed.

Lemma contents_put key v m :
  contents (put key v m).2 = <[key := (v, u64 (rev m + 1))]> (contents m).
Proof. unfold contents, put; simpl. by rewrite fmap_insert. Qed.

Lemma contents_lookup key m :
  contents m !! key = (λ e, (Value e, Revision e)) <$> entries m !! key.
Proof. apply lookup_fmap. Qed.

(** A write either does nothing or is a [put]. *)
Lemma Create_put key v m r m' : Create key v m = (r, m') →
  is_ok r = false ∧ m' = m ∨
  is_ok r = true ∧ contents m !! key = None ∧ m' = (put key v m).2.
Proof.
  unfold Create. rewrite contents_lookup. intros H.
  destruct (negb _); [unfold throw in H; simplify_eq; by left|].
  run_unfold. destruct (entries m !! key) eqn:E; unfold put in *; simplify_eq/=;
    [by left|by right].
Qed.

Lemma Create_revision key v m rev m' : Create key v m = (Ok rev, m') →
  contents m' !! key = Some (v, rev).
Proof.
  unfold Create. intros H. destruct (negb _); [done|]. run_unfold.
  destruct (entries m !! key); simplify_eq/=. unfold put in H. simplify_eq/=.
  rewrite contents_lookup. simpl. by rewrite lookup_insert_eq.
Qed.

Lemma Update_put key v expected m r m' : Update key v expected m = (r, m') →
  is_ok r = false ∧ m' = m ∨
  is_ok r = true ∧ (∃ old, contents m !! key = Some (old, expected)) ∧ m' = (put key v m).2.
Proof.
  unfold Update. rewrite contents_lookup. intros H.
  destruct (negb _); [unfold throw in H; simplify_eq; by left|].
  run_unfold. destruct (entries m !! key) as [e|] eqn:E; simplify_eq/=; [|by left].
  destruct (Z.eqb_spec (Revision e) expected); unfold put in *; simplify_eq/=; [|by left].
  right. eauto.
Qed.

(** [Mem_cas]: [Update] replaces a value exactly when the stored revision is the
    expected one, and gives it a revision that no entry has; otherwise it changes
    nothing and says why. A write against a revision read before any later write is
    therefore refused. *)
Theorem Mem_cas key v expected m : ok m → ValidKey key = true →
  match contents m !! key with
  | None => Update key v expected m = (Err ErrNotFound, m)
  | Some (old, r) =>
      if decide (r = expected) then
        ∃ r' m', Update key v expected m = (Ok r', m') ∧ contents m' = <[key := (v, r')]> (contents m) ∧
          (∀ k old r0, contents m !! k = Some (old, r0) → r0 < r') ∧ 
          (∀ k old r0 v2, contents m !! k = Some (old, r0) → (Update key v2 r0 m').1 = Err ErrConflict)
      else Update key v expected m = (Err ErrConflict, m)
  end.
Proof.
  intros Hok Hkey. unfold Update. rewrite Hkey, contents_lookup. run_unfold.
  destruct (entries m !! key) as [e|] eqn:E; simpl; [|done].
  case_decide as Hr; [|by rewrite (proj2 (Z.eqb_neq _ _) Hr)].
  rewrite Hr, Z.eqb_refl. pose proof (rev_succ m Hok) as Hs.
  assert (∀ k old r0, contents m !! k = Some (old, r0) → r0 < rev m + 1) as Hlt.
  { intros k old r0. rewrite contents_lookup, fmap_Some. intros (e' & He & [= _ ->]).
    apply (ok_rev _ Hok) in He. lia. }
  eexists _, _. split; [done|]. rewrite Hs. split; [|split; [done|]].
  - pose proof (contents_put key v m) as Hc. rewrite Hs in Hc. simpl in Hc. by rewrite Hs in Hc.
  - intros k old r0 v2 Hk. specialize (Hlt _ _ _ Hk). simpl.
    rewrite lookup_insert_eq. simpl. by destruct (Z.eqb_spec (rev m + 1) r0); [lia|].
Qed.

(** Every entry is filed under its own key. *)
Definition keyed (m : t) : Prop := ∀ k e, entries m !! k = Some e → Key e = k.

Lemma List_spec prefix m : keyed m →
  let es := merge_sort by_key
    (filter (λ e, HasPrefix (Key e) prefix = true) (map_to_list (entries m)).*2) in
  StronglySorted by_key es ∧ NoDup (Key <$> es) ∧
  ∀ e, e ∈ es ↔ entries m !! Key e = Some e ∧ HasPrefix (Key e) prefix = true.
Proof.
  intros Hk es. split; [apply StronglySorted_merge_sort; apply _|].
  assert (Key <$> (map_to_list (entries m)).*2 = (map_to_list (entries m)).*1) as Hkeys.
  { rewrite <- list_fmap_compose. apply list_fmap_ext. intros i [k e] Hi. simpl.
    apply Hk, elem_of_map_to_list. by eapply list_elem_of_lookup_2. }
  split.
  - unfold es. rewrite merge_sort_Permutation.
    eapply sublist_NoDup; [apply (NoDup_fst_map_to_list (entries m))|].
    rewrite <- Hkeys. apply fmap_sublist, sublist_filter.
  - intros e. unfold es. rewrite merge_sort_Permutation, list_elem_of_filter.
    rewrite list_elem_of_fmap. split.
    + intros [Hp ([k e'] & -> & Hin)]. apply elem_of_map_to_list in Hin. simpl in *.
      split; [|done]. by rewrite (Hk _ _ Hin).
    + intros [He Hp]. split; [done|]. exists (Key e, e). split; [done|].
      by apply elem_of_map_to_list.
Qed.

Lemma keyed_insert k v r m : keyed m →
  keyed (Mk (<[k := MkEntry k v r]> (entries m)) r).
Proof.
  intros Hk k' e. simpl. rewrite lookup_insert. case_decide; [naive_solver|apply Hk].
Qed.

(** The in-memory store keeps every promise of the interface. *)
#[export] Program Instance Mem_laws : StoreLaws V t := {|
  view := contents; store_ok := keyed;
|}.
Next Obligation.
  intros key m r m' Hk H. simpl in H. unfold Get in H. split_and!.
  - by repeat case_match; simplify_eq.
  - by repeat case_match; simplify_eq.
  - rewrite contents_lookup. repeat case_match; simplify_eq/=; naive_solver.
Qed.
Next Obligation.
  intros key v m r m' Hk H. simpl in H. unfold Create in H. rewrite contents_lookup.
  destruct (negb (ValidKey key)); [unfold throw in H; simplify_eq; naive_solver|].
  run_unfold. destruct (entries m !! key) eqn:E; simplify_eq.
  - split; [done|]. split; [|by left]. intros _. split; [done|simpl; eauto].
  - unfold put in H. simplify_eq. split; [by apply keyed_insert|].
    split; [done|]. apply (contents_put key v m).
Qed.
Next Obligation.
  intros key v expected m r m' Hk H. simpl in H. unfold Update in H.
  rewrite !contents_lookup.
  destruct (negb (ValidKey key)); [unfold throw in H; simplify_eq; naive_solver|].
  run_unfold. destruct (entries m !! key) as [e|] eqn:E; simplify_eq/=; [|naive_solver].
  destruct (Z.eqb_spec (Revision e) expected); simplify_eq/=; [|naive_solver].
  unfold put in H. simplify_eq. split; [by apply keyed_insert|].
  split; [eauto|]. apply (contents_put key v m).
Qed.
Next Obligation.
  intros key m r m' Hk H. simpl in H. unfold Delete, modify in H. simplify_eq.
  unfold contents; simpl. rewrite fmap_delete. split; [|done].
  intros k e He. simpl in He. apply lookup_delete_Some in He as [_ He]. by apply Hk.
Qed.
Next Obligation.
  intros prefix m r m' Hk H. simpl in H. unfold List_, gets in H. injection H as <- <-.
  split; [done|]. split; [done|]. intros es [= <-].
  destruct (List_spec prefix m Hk) as (Hs & Hnd & Hin).
  split; [exact Hs|]. split; [exact Hnd|]. intros k v rv. rewrite contents_lookup.
  setoid_rewrite Hin. rewrite fmap_Some. split.
  - intros (e & [He Hp] & <- & <- & <-). eauto.
  - intros [(e & He & [= -> ->]) Hp]. exists e. rewrite (Hk _ _ He). auto.
Qed.
End mem.
Arguments t : clear implicits.
End Mem.

(** A store beside the rest of the world: its operations leave the rest alone. *)
Module Beside.
Section beside.
Context {V S T : Type} `{!Store V S}.

Instance store : Store V (S * T) := {|
  Get k := on_fst (Get k); Create k v := on_fst (Create k v);
  Update k v rev := on_fst (Update k v rev); Delete k := on_fst (Delete k);
  ListPrefix k := on_fst (ListPrefix k) |}.

Lemma on_fst_inv {A} (c : M S A) (s s' : S * T) r :
  on_fst c s = (r, s') → c s.1 = (r, s'.1) ∧ s'.2 = s.2.
Proof. destruct s as [s t]. simpl. destruct (c s). by intros [= <- <-]. Qed.

Program Instance laws `{!StoreLaws V S} : StoreLaws V (S * T) := {|
  view s := view s.1; store_ok s := store_ok s.1 |}.
Next Obligation. intros ? key s r s' Hok [H _]%on_fst_inv. by eapply Get_law. Qed.
Next Obligation. intros ? key v s r s' Hok [H _]%on_fst_inv. by eapply Create_law. Qed.
Next Obligation. intros ? key v e s r s' Hok [H _]%on_fst_inv. by eapply Update_law. Qed.
Next Obligation. intros ? key s r s' Hok [H _]%on_fst_inv. by eapply Delete_law. Qed.
Next Obligation. intros ? p s r s' Hok [H _]%on_fst_inv. by eapply List_law. Qed.
End beside.
End Beside.

(** ** Lease *)

(** The injectable clock of the coordinator: reading it may advance the world. *)
Class Clock (S : Type) := { tick : S → Z * S }.
Definition now {S} `{!Clock S} : M S Z := λ s, let '(t, s) := tick s in (Ok t, s).

Module Lease.
Record leaseRecord := MkRecord { Holder : string; Expires : Z }.

(** [Lease] of state.go; store and clock are the class parameters. *)
Record t := NewLease { key : string; holder : string; ttl : Z }.

Section lease.
Context {V S : Type} `{!Store V S, !JSON V leaseRecord, !Clock S}.

Definition Acquire_update (l : t) (mine : leaseRecord) (rev : Z) : M S bool :=
  u ← try (UpdateJSON (key l) mine rev);
  match u with
  | Err e => if errors_Is e ErrConflict || errors_Is e ErrNotFound
             then mret false else throw e
  | Ok _ => mret true
  end.

Definition Acquire (l : t) : M S bool :=
  t0 ← now;
  let mine := MkRecord (holder l) (t0 + ttl l) in
  r ← try (GetJSON (A := leaseRecord) (key l));
  match r with
  | Err e =>
      if errors_Is e ErrNotFound then
        c ← try (CreateJSON (key l) mine);
        match c with
        | Err e => if errors_Is e ErrConflict then mret false else throw e
        | Ok _ => mret true
        end
      else throw e
  | Ok (current, rev) =>
      if decide (Holder current ≠ holder l) then
        t ← now;
        if Before t (Expires current) then mret false
        else Acquire_update l mine rev
      else Acquire_update l mine rev
  end.

Definition Release (l : t) : M S () :=
  r ← try (GetJSON (A := leaseRecord) (key l));
  match r with
  | Err e => if errors_Is e ErrNotFound then mret () else throw e
  | Ok (current, rev) =>
      if decide (Holder current ≠ holder l) then mret ()
      else
        u ← try (UpdateJSON (key l) (MkRecord (Holder current) time_zero) rev);
        match u with
        | Err e => if errors_Is e ErrConflict then mret () else throw e
        | Ok _ => mret ()
        end
  end.
End lease.
End Lease.

(** Several coordinator instances contend for one lease on a [Mem]. Every store
    call is a step of its own, so reads and writes of different instances
    interleave in every way. [granted] remembers every [Acquire] that returned
    true and was not released, with the expiry it was granted until. *)
Module LeaseSystem.
Section system.
Import Lease.
Context (key : string) (ttl : Z).
#[local] Abbreviation mem := (Mem.t leaseRecord).

Inductive pc :=
| Idle
| Starting (mine : leaseRecord)  (** after the clock was read *)
| Acquiring (mine : leaseRecord) (seen : option (leaseRecord * Z))
    (** after [GetJSON] *)
| Updating (mine : leaseRecord) (current : leaseRecord) (rev : Z)
    (** after the check of the current holder *)
| Releasing (current : leaseRecord) (rev : Z).

Record state := Mk {
  store : mem;
  clock : Z;
  pcs : string → pc;
  granted : list (string * Z);
}.

Definition lookup_lease (m : mem) : option (leaseRecord * Z) := Mem.contents m !! key.

Definition set_pc (h : string) (p : pc) (f : string → pc) : string → pc :=
  λ h', if decide (h' = h) then p else f h'.

Definition drop_holder (h : string) (l : list (string * Z)) : list (string * Z) :=
  filter (λ g, g.1 ≠ h) l.

Inductive step : state → state → Prop :=
| step_clock m t f g t' : t ≤ t' → step (Mk m t f g) (Mk m t' f g)
| step_start m t f g h : f h = Idle →
    step (Mk m t f g) (Mk m t (set_pc h (Starting (MkRecord h (t + ttl))) f) g)
| step_read m t f g h mine : f h = Starting mine →
    step (Mk m t f g) (Mk m t (set_pc h (Acquiring mine (lookup_lease m)) f) g)
| step_create m t f g h mine r m' : f h = Acquiring mine None →
    Mem.rev m + 1 < u64_max → Mem.Create key mine m = (r, m') →
    step (Mk m t f g)
         (Mk m' t (set_pc h Idle f) (if is_ok r then (h, Expires mine) :: g else g))
| step_refused m t f g h mine current rev : f h = Acquiring mine (Some (current, rev)) →
    Holder current ≠ h → Before t (Expires current) = true →
    step (Mk m t f g) (Mk m t (set_pc h Idle f) g)
| step_check m t f g h mine current rev : f h = Acquiring mine (Some (current, rev)) →
    ¬ (Holder current ≠ h ∧ Before t (Expires current) = true) →
    step (Mk m t f g) (Mk m t (set_pc h (Updating mine current rev) f) g)
| step_update m t f g h mine current rev r m' : f h = Updating mine current rev →
    Mem.rev m + 1 < u64_max → Mem.Update key mine rev m = (r, m') →
    step (Mk m t f g)
         (Mk m' t (set_pc h Idle f) (if is_ok r then (h, Expires mine) :: g else g))
| step_release_read m t f g h current rev : f h = Idle →
    lookup_lease m = Some (current, rev) → Holder current = h →
    step (Mk m t f g) (Mk m t (set_pc h (Releasing current rev) f) g)
| step_release m t f g h current rev r m' : f h = Releasing current rev →
    Mem.rev m + 1 < u64_max →
    Mem.Update key (MkRecord (Holder current) time_zero) rev m = (r, m') →
    step (Mk m t f g)
         (Mk m' t (set_pc h Idle f) (if is_ok r then drop_holder h g else g))
| step_crash m t f g h : step (Mk m t f g) (Mk m t (set_pc h Idle f) g).
    (** an error return, or the death of the process: what is granted stays so *)

Definition init (t : Z) : state := Mk Mem.NewMem t (λ _, Idle) [].

(** When the running [Acquire] of [h] read the clock. *)
Definition started (s : state) (h : string) : Z :=
  match pcs s h with
  | Starting mine | Acquiring mine _ | Updating mine _ _ => Expires mine - ttl
  | _ => clock s
  end.

(** What an instance read is still in the store, or the revision has moved on. *)
Definition snapshot (m : mem) (current : leaseRecord) (rev : Z) : Prop :=
  rev ≤ Mem.rev m ∧ ∀ r, lookup_lease m = Some (r, rev) → r = current.

Definition pc_ok (s : state) (h : string) : Prop :=
  match pcs s h with
  | Idle => True
  | Starting mine => Holder mine = h ∧ Expires mine ≤ clock s + ttl
  | Acquiring mine seen =>
      Holder mine = h ∧ Expires mine ≤ clock s + ttl ∧
      match seen with
      | Some (current, rev) => snapshot (store s) current rev
      | None => True
      end
  | Updating mine current rev =>
      Holder mine = h ∧ Expires mine ≤ clock s + ttl ∧
      snapshot (store s) current rev ∧ (Holder current = h ∨ Expires current ≤ clock s)
  | Releasing current rev => Holder current = h ∧ snapshot (store s) current rev
  end.

Record inv (s : state) : Prop := {
  inv_mem : Mem.ok (store s);
  inv_clock : time_zero ≤ clock s + ttl;
  inv_pc : ∀ h, pc_ok s h;
  inv_expires : ∀ r rev, lookup_lease (store s) = Some (r, rev) →
    Expires r ≤ started s (Holder r) + ttl;
  inv_granted : ∀ h e, (h, e) ∈ granted s → e ≤ clock s ∨
    ∃ r rev, lookup_lease (store s) = Some (r, rev) ∧ Holder r = h ∧ e ≤ Expires r;
}.

#[local] Hint Unfold pc_ok snapshot started set_pc : core.

Lemma lookup_put v m : Mem.ok m →
  lookup_lease (Mem.put key v m).2 = Some (v, Mem.rev m + 1).
Proof.
  intros Hok. unfold lookup_lease.
  by rewrite Mem.contents_put, lookup_insert_eq, Mem.rev_succ.
Qed.

Lemma lookup_rev m r rev : Mem.ok m → lookup_lease m = Some (r, rev) → rev ≤ Mem.rev m.
Proof.
  intros Hok. unfold lookup_lease. rewrite Mem.contents_lookup, fmap_Some.
  intros (e & He & [= -> ->]). apply (Mem.ok_rev _ Hok) in He. lia.
Qed.

Lemma snapshot_self m r rev : Mem.ok m → lookup_lease m = Some (r, rev) → snapshot m r rev.
Proof. intros Hok H. split; [by eapply lookup_rev|]. intros r' H'. congruence. Qed.

(** A write retires every revision read before. *)
Lemma snapshot_put v m current rev : Mem.ok m → snapshot m current rev →
  snapshot (Mem.put key v m).2 current rev.
Proof.
  intros Hok [Hle Hs]. split.
  - simpl. rewrite Mem.rev_succ by done. lia.
  - intros r. rewrite lookup_put by done. intros [= _ Hr]. lia.
Qed.

Lemma set_pc_eq h p f : set_pc h p f h = p.
Proof. unfold set_pc. by rewrite decide_True. Qed.
Lemma set_pc_ne h h' p f : h' ≠ h → set_pc h p f h' = f h'.
Proof. intros. unfold set_pc. by rewrite decide_False. Qed.

(** Steps that change only the program counter of [h]. *)
Lemma inv_set_pc m t f g h p : inv (Mk m t f g) →
  pc_ok (Mk m t (set_pc h p f) g) h →
  started (Mk m t f g) h ≤ started (Mk m t (set_pc h p f) g) h →
  inv (Mk m t (set_pc h p f) g).
Proof.
  intros [Hm Hc Hp He Hg] Hok Hst. split; simpl in *; auto.
  - intros h'. destruct (decide (h' = h)) as [->|Hne]; [done|].
    specialize (Hp h'). unfold pc_ok in *. simpl in *. by rewrite set_pc_ne.
  - intros r rev Hr. specialize (He r rev Hr).
    destruct (decide (Holder r = h)) as [<-|Hne]; [lia|].
    unfold started in *. simpl in *. by rewrite set_pc_ne.
Qed.

Lemma started_le_clock s h : inv s → started s h ≤ clock s.
Proof.
  intros Hi. pose proof (inv_pc _ Hi h) as Hp. unfold pc_ok, started in *.
  destruct (pcs s h); lia.
Qed.

(** Steps in which [h] finishes a write of [r]. *)
Lemma inv_put m t f g h r g' : inv (Mk m t f g) → Mem.rev m + 1 < u64_max →
  Holder r = h → Expires r ≤ t + ttl →
  (∀ h' e, (h', e) ∈ g' → (h', e) = (h, Expires r) ∨ (h', e) ∈ g ∧
    (h' = h → e ≤ Expires r ∨ e ≤ t)) →
  (∀ r' rev', lookup_lease m = Some (r', rev') → Holder r' = h ∨ Expires r' ≤ t) →
  inv (Mk (Mem.put key r m).2 t (set_pc h Idle f) g').
Proof.
  intros [Hm Hc Hp He Hg] Hrev Hh Hexp Hg' Hprev. cbn [store clock pcs granted] in *.
  split; cbn [store clock pcs granted]; auto.
  - by apply Mem.put_ok.
  - intros h'. destruct (decide (h' = h)) as [->|Hne].
    { unfold pc_ok. simpl. by rewrite set_pc_eq. }
    specialize (Hp h'). unfold pc_ok in *. cbn [store clock pcs] in *.
    rewrite set_pc_ne by done.
    destruct (f h') as [|mine|mine [[? ?]|]| |]; destruct_and?; split_and?;
      auto using snapshot_put.
  - intros r' rev'. rewrite lookup_put by done. intros [= <- <-].
    unfold started. simpl. rewrite Hh, set_pc_eq. lia.
  - intros h' e Hin. destruct (Hg' _ _ Hin) as [[= -> ->]|[Hold Hsame]].
    { right. eexists r, _. rewrite lookup_put by done. naive_solver lia. }
    destruct (Hg _ _ Hold) as [?|(r' & rev' & Hr' & <- & Hle)]; [by left|].
    destruct (Hprev _ _ Hr') as [Heq|?]; [|left; lia].
    destruct Hsame as [?|?]; [congruence|right|by left].
    eexists r, _. rewrite lookup_put by done. naive_solver.
Qed.

Lemma inv_init t : time_zero ≤ t + ttl → inv (init t).
Proof.
  intros Ht. split; cbn [init store clock granted]; [apply Mem.ok_NewMem|done|..].
  - by intros h.
  - intros r rev. unfold lookup_lease, Mem.contents. simpl. by rewrite fmap_empty.
  - set_solver.
Qed.

Lemma inv_clock_step m t f g t' : t ≤ t' → inv (Mk m t f g) → inv (Mk m t' f g).
Proof.
  intros Ht [Hm Hc Hp He Hg]. split; cbn [store clock pcs granted] in *; auto; [lia|..].
  - intros h. specialize (Hp h). unfold pc_ok in *. cbn [store clock pcs] in *.
    destruct (f h) as [|mine|mine [[? ?]|]| |]; naive_solver lia.
  - intros r rev Hr. specialize (He r rev Hr). unfold started in *.
    cbn [pcs clock] in *. destruct (f _); lia.
  - intros h e Hin. destruct (Hg h e Hin); [left; lia|by right].
Qed.

(** Steps that end an operation of [h] without a write. *)
Lemma inv_idle m t f g h : inv (Mk m t f g) → inv (Mk m t (set_pc h Idle f) g).
Proof.
  intros Hi. apply inv_set_pc; [done|unfold pc_ok; simpl; by rewrite set_pc_eq|].
  pose proof (started_le_clock _ h Hi). unfold started at 2. simpl in *.
  by rewrite set_pc_eq.
Qed.

(** Steps of an [Acquire] of [h] that write nothing: the program counter keeps
    the record it will write. *)
Lemma inv_acquiring m t f g h p mine : inv (Mk m t f g) →
  started (Mk m t f g) h ≤ Expires mine - ttl →
  (p = Starting mine ∨ (∃ seen, p = Acquiring mine seen) ∨
    ∃ c rev, p = Updating mine c rev) →
  pc_ok (Mk m t (set_pc h p f) g) h → inv (Mk m t (set_pc h p f) g).
Proof.
  intros Hi Hst Hpc Hok. apply inv_set_pc; [done..|].
  unfold started at 2. simpl. rewrite set_pc_eq. by destruct Hpc as [->|[[? ->]|(? & ? & ->)]].
Qed.

Lemma inv_create m t f g h mine r m' : f h = Acquiring mine None →
  Mem.rev m + 1 < u64_max → Mem.Create key mine m = (r, m') → inv (Mk m t f g) →
  inv (Mk m' t (set_pc h Idle f) (if is_ok r then (h, Expires mine) :: g else g)).
Proof.
  intros Hpc Hrev Hc Hi. pose proof (inv_pc _ Hi h) as Hp. unfold pc_ok in Hp.
  simpl in Hp. rewrite Hpc in Hp. destruct Hp as (Hh & He & _).
  apply (Mem.Create_put key) in Hc as [[-> ->]|(-> & Hnone & ->)]; [by apply inv_idle|].
  fold (lookup_lease m) in Hnone.
  apply (inv_put m t f g); auto; [|intros; congruence].
  intros h' e. rewrite elem_of_cons. intros [|Hin]; [by left|right]. split; [done|].
  destruct (inv_granted _ Hi h' e Hin) as [|(? & ? & ? & _)]; [auto|].
  simpl in *. congruence.
Qed.

Lemma inv_update m t f g h mine current rev r m' : f h = Updating mine current rev →
  Mem.rev m + 1 < u64_max → Mem.Update key mine rev m = (r, m') → inv (Mk m t f g) →
  inv (Mk m' t (set_pc h Idle f) (if is_ok r then (h, Expires mine) :: g else g)).
Proof.
  intros Hpc Hrev Hu Hi. pose proof (inv_pc _ Hi h) as Hp. unfold pc_ok in Hp.
  simpl in Hp. rewrite Hpc in Hp. destruct Hp as (Hh & He & [_ Hs] & Hcur).
  apply (Mem.Update_put key) in Hu as [[-> ->]|(-> & [old Hold] & ->)]; [by apply inv_idle|].
  fold (lookup_lease m) in Hold.
  pose proof (Hs _ Hold) as ->. apply (inv_put m t f g); auto.
  - intros h' e. rewrite elem_of_cons. intros [|Hin]; [by left|right].
    split; [done|]. intros ->.
    destruct (inv_granted _ Hi h e Hin) as [|(r' & rev' & Hr' & Hh' & Hle)]; [by right|].
    left. simpl in *. assert (r' = current) as -> by congruence.
    pose proof (inv_expires _ Hi _ _ Hr') as Hexp. unfold started in Hexp.
    simpl in Hexp. rewrite Hh', Hpc in Hexp. lia.
  - intros r' rev' Hr'. assert (r' = current) as -> by congruence. done.
Qed.

Lemma inv_release m t f g h current rev r m' : f h = Releasing current rev →
  Mem.rev m + 1 < u64_max →
  Mem.Update key (MkRecord (Holder current) time_zero) rev m = (r, m') →
  inv (Mk m t f g) →
  inv (Mk m' t (set_pc h Idle f) (if is_ok r then drop_holder h g else g)).
Proof.
  intros Hpc Hrev Hu Hi. pose proof (inv_pc _ Hi h) as Hp. unfold pc_ok in Hp.
  simpl in Hp. rewrite Hpc in Hp. destruct Hp as (Hh & [_ Hs]).
  apply (Mem.Update_put key) in Hu as [[-> ->]|(-> & [old Hold] & ->)]; [by apply inv_idle|].
  fold (lookup_lease m) in Hold.
  pose proof (Hs _ Hold) as ->. apply (inv_put m t f g); auto.
  - apply (inv_clock _ Hi).
  - intros h' e. unfold drop_holder. rewrite list_elem_of_filter. simpl.
    intros [? ?]. right. naive_solver.
  - intros r' rev' Hr'. left. congruence.
Qed.

Lemma inv_step s s' : step s s' → inv s → inv s'.
Proof.
  destruct 1 as [m t f g t' Ht|m t f g h Hpc|m t f g h mine Hpc| | |
    m t f g h mine current rev Hpc Hnb| |m t f g h current rev Hpc Hl Hh| |]; intros Hi;
    eauto using inv_clock_step, inv_create, inv_update, inv_release, inv_idle.
  - eapply inv_acquiring; [done| |eauto|].
    + unfold started; simpl. rewrite Hpc. lia.
    + unfold pc_ok; simpl. rewrite set_pc_eq. simpl. split_and!; [done|lia].
  - pose proof (inv_pc _ Hi h) as Hp. unfold pc_ok in Hp. simpl in Hp. rewrite Hpc in Hp.
    destruct Hp as (Hh & He). eapply inv_acquiring; [done| |eauto|].
    + unfold started; simpl. rewrite Hpc. lia.
    + unfold pc_ok; simpl. rewrite set_pc_eq. simpl. split_and!; [done..|].
      destruct (lookup_lease m) as [[r rev]|] eqn:E; [|done].
      apply snapshot_self; [apply (inv_mem _ Hi)|done].
  - pose proof (inv_pc _ Hi h) as Hp. unfold pc_ok in Hp. simpl in Hp. rewrite Hpc in Hp.
    destruct Hp as (Hh & He & Hs). eapply inv_acquiring; [done| |eauto|].
    + unfold started; simpl. rewrite Hpc. lia.
    + unfold pc_ok; simpl. rewrite set_pc_eq. split_and!; [done..|].
      unfold Before in Hnb. destruct (decide (Holder current = h)); [by left|right].
      destruct (Z.ltb_spec t (Expires current)); [tauto|lia].
  - apply inv_set_pc; [done|unfold pc_ok; simpl; rewrite set_pc_eq; split; [done|]|].
    + apply snapshot_self; [apply (inv_mem _ Hi)|done].
    + unfold started; simpl. rewrite set_pc_eq, Hpc. simpl. lia.
Qed.

(** C10: two instances never hold the lease at the same time: in every reachable
    state, granted and unreleased leases that have not expired by the (common)
    clock belong to one holder. *)
Theorem lease_mutual_exclusion t s h1 e1 h2 e2 : time_zero ≤ t + ttl →
  rtc step (init t) s → (h1, e1) ∈ granted s → (h2, e2) ∈ granted s →
  clock s < e1 → clock s < e2 → h1 = h2.
Proof.
  intros Ht Hr H1 H2 He1 He2.
  assert (inv s) as Hi.
  { pose proof (inv_init t Ht) as Hinit. induction Hr; eauto using inv_step. }
  destruct (inv_granted _ Hi _ _ H1) as [|(r1 & v1 & Hr1 & <- & _)]; [lia|].
  destruct (inv_granted _ Hi _ _ H2) as [|(r2 & v2 & Hr2 & <- & _)]; [lia|].
  congruence.
Qed.

(** *** The operations of the code are runs of the system

    One instance runs [Acquire] or [Release] alone, on the store and the clock of
    the system; [adv] says how far the clock moves after each reading. *)
Context (adv : Z → Z) (adv_le : ∀ t, t ≤ adv t).

#[local] Existing Instance Mem.Mem_Store.
#[local] Existing Instance Beside.store.
#[local] Instance world_Clock : Clock (mem * Z) :=
  {| tick := λ '(m, t), (t, (m, adv t)) |}.
#[local] Instance record_JSON : JSON leaseRecord leaseRecord :=
  {| marshal := id; unmarshal := Some; unmarshal_marshal := λ _, eq_refl |}.

Definition runs (h : string) (m : mem) (t : Z) (g : list (string * Z))
    (m' : mem) (t' : Z) (g' : list (string * Z)) : Prop :=
  ∀ f, f h = Idle → ∃ f', rtc step (Mk m t f g) (Mk m' t' f' g') ∧ f' h = Idle.

Lemma rtc_clock m t f g s : rtc step (Mk m (adv t) f g) s → rtc step (Mk m t f g) s.
Proof using adv_le. apply rtc_l. by apply step_clock. Qed.

Lemma GetJSON_lease m t :
  (GetJSON key : M (mem * Z) (leaseRecord * Z)) (m, t) =
  (of_option ErrNotFound (lookup_lease m), (m, t)).
Proof.
  unfold GetJSON, lookup_lease. rewrite Mem.contents_lookup. run_unfold.
  unfold on_fst, Mem.Get. by destruct (Mem.entries m !! key).
Qed.

Lemma Acquire_update_steps h mine current rev m t f g r m' t' :
  f h = Updating mine current rev → Mem.rev m + 1 < u64_max →
  Acquire_update (NewLease key h ttl) mine rev (m, t) = (r, (m', t')) →
  ∃ f', rtc step (Mk m t f g)
    (Mk m' t' f' (if decide (r = Ok true) then (h, Expires mine) :: g else g)) ∧
    f' h = Idle.
Proof.
  intros Hf Hrev H. unfold Acquire_update, UpdateJSON in H. cbn in H. run_unfold.
  unfold on_fst in H. destruct (Mem.Update key mine rev m) as [u mu] eqn:Hu.
  assert (m' = mu ∧ t' = t ∧ (r = Ok true ↔ is_ok u = true)) as (-> & -> & Hr)
    by (destruct u; repeat case_match; naive_solver).
  eexists (set_pc h Idle f). split; [|apply set_pc_eq].
  pose proof (step_update m t f g h mine current rev u mu Hf Hrev Hu) as Hs.
  apply rtc_once. destruct (decide (r = Ok true)), (is_ok u); naive_solver.
Qed.

Ltac at_h := by repeat (rewrite set_pc_eq || simpl).

(** C36: an [Acquire] that runs alone is a run of the system: it returns true exactly
    when the run grants the lease, until [ttl] after its first reading of the clock. *)
Theorem Acquire_runs h m t r m' t' : Mem.rev m + 1 < u64_max →
  Acquire (NewLease key h ttl) (m, t) = (r, (m', t')) →
  ∀ g, runs h m t g m' t' (if decide (r = Ok true) then (h, t + ttl) :: g else g).
Proof using adv_le.
  intros Hrev H g f Hf. unfold Acquire in H. run_unfold.
  rewrite GetJSON_lease in H.
  set (mine := MkRecord h (t + ttl)) in *.
  assert (∀ s, rtc step (Mk m (adv t) (set_pc h (Acquiring mine (lookup_lease m))
    (set_pc h (Starting mine) f)) g) s → rtc step (Mk m t f g) s) as Hread.
  { intros s Hs. eapply rtc_l; [by apply step_start|]. apply rtc_clock.
    eapply rtc_l; [apply step_read|exact Hs]. at_h. }
  destruct (lookup_lease m) as [[current rev]|] eqn:E; simpl in H.
  - destruct (decide (Holder current ≠ h)) as [Hne|Hh].
    + simpl in H. destruct (Before (adv t) (Expires current)) eqn:Hb.
      * simplify_eq. eexists. split; [apply Hread; eapply rtc_l|];
          [eapply step_refused; [at_h|done..]|apply rtc_clock, rtc_refl|at_h].
      * eapply Acquire_update_steps in H as (f' & Hs & Hf'); [|at_h|done].
        eexists. split; [|exact Hf']. apply Hread. eapply rtc_l;
          [eapply step_check; [at_h|rewrite Hb; naive_solver]|apply rtc_clock, Hs].
    + eapply Acquire_update_steps in H as (f' & Hs & Hf'); [|at_h|done].
      eexists. split; [|exact Hf']. apply Hread. eapply rtc_l;
        [eapply step_check; [at_h|naive_solver]|apply Hs].
  - unfold CreateJSON in H. cbn in H. unfold on_fst in H.
    destruct (Mem.Create key mine m) as [u mu] eqn:Hc.
    assert (m' = mu ∧ t' = adv t ∧ (r = Ok true ↔ is_ok u = true)) as (-> & -> & Hr)
      by (destruct u; repeat case_match; naive_solver).
    exists (set_pc h Idle (set_pc h (Acquiring mine None) (set_pc h (Starting mine) f))).
    split; [apply Hread, rtc_once|at_h; done].
    replace (if decide (r = Ok true) then _ else _)
      with (if is_ok u then (h, Expires mine) :: g else g)
      by (destruct (decide (r = Ok true)), (is_ok u); naive_solver).
    eapply step_create; [at_h|done..].
Qed.

(** [Release_runs]: a [Release] that runs alone is a run of the system, and one that wrote gave up
    every lease of its holder. *)
Theorem Release_runs h m t r m' t' : 0 ≤ Mem.rev m → Mem.rev m + 1 < u64_max →
  Release (NewLease key h ttl) (m, t) = (r, (m', t')) →
  ∀ g, runs h m t g m' t' (if decide (Mem.rev m' = Mem.rev m) then g else drop_holder h g).
Proof.
  intros Hpos Hrev H g f Hf. unfold Release in H. run_unfold.
  rewrite GetJSON_lease in H.
  assert (∀ r0, r = r0 → m' = m → t' = t →
    ∃ f', rtc step (Mk m t f g) (Mk m' t' f' (if decide (Mem.rev m' = Mem.rev m) then g else drop_holder h g))
      ∧ f' h = Idle) as Hnone.
  { intros ? _ -> ->. rewrite decide_True by done. exists f. split; [apply rtc_refl|done]. }
  destruct (lookup_lease m) as [[current rev]|] eqn:E; simpl in H;
    [|simplify_eq; by eapply Hnone].
  destruct (decide (Holder current ≠ h)) as [Hne|Hh]; [simplify_eq; by eapply Hnone|].
  apply dec_stable in Hh. unfold UpdateJSON in H. cbn in H. unfold on_fst in H.
  destruct (Mem.Update key (MkRecord (Holder current) time_zero) rev m) as [u mu] eqn:Hu.
  assert (m' = mu ∧ t' = t) as [-> ->] by (destruct u; repeat case_match; naive_solver).
  eexists. split; [|apply set_pc_eq]. eapply rtc_l; [by apply (step_release_read m t f g h)|].
  apply rtc_once. replace (if decide (Mem.rev mu = Mem.rev m) then g else _)
    with (if is_ok u then drop_holder h g else g).
  { eapply step_release; [apply set_pc_eq|done..]. }
  pose proof (Mem.Update_put _ _ _ _ _ _ Hu) as [[-> ->]|(-> & _ & Hmu)].
  - by rewrite decide_True.
  - rewrite decide_False; [done|]. subst mu.
    unfold Mem.put. cbn [Mem.rev fst snd].
    rewrite u64_small by (unfold is_u64, u64_max in *; lia). lia.
Qed.
End system.
End LeaseSystem.

(** ** Witnesses *)

Module StateDemo.
Import Lease.
#[local] Existing Instance Mem.Mem_Store.
#[local] Existing Instance Beside.store.

Definition m0 : Mem.t leaseRecord := (Mem.put "leader" (MkRecord "a" 5) Mem.NewMem).2.

Lemma m0_ok : Mem.ok m0.
Proof. apply Mem.put_ok; [apply Mem.ok_NewMem|by vm_compute]. Qed.

Lemma Mem_cas_witness :
  Mem.Update "leader" (MkRecord "b" 9) 7 m0 = (Err ErrConflict, m0).
Proof. exact (Mem.Mem_cas "leader" (MkRecord "b" 9) 7 m0 m0_ok eq_refl). Defined.

Definition mine : leaseRecord := MkRecord "a" 10.
Definition held : LeaseSystem.state :=
  LeaseSystem.Mk (Mem.put "leader" mine Mem.NewMem).2 0
    (LeaseSystem.set_pc "a" LeaseSystem.Idle
      (LeaseSystem.set_pc "a" (LeaseSystem.Acquiring mine None)
        (LeaseSystem.set_pc "a" (LeaseSystem.Starting mine) (λ _, LeaseSystem.Idle))))
    [("a", 10)].

Lemma held_run : rtc (LeaseSystem.step "leader" 10) (LeaseSystem.init 0) held.
Proof.
  eapply rtc_l; [by apply (LeaseSystem.step_start _ _ _ 0 _ _ "a")|].
  eapply rtc_l; [by apply (LeaseSystem.step_read _ _ _ _ _ _ "a" mine)|].
  apply rtc_once. by apply (LeaseSystem.step_create _ _ _ _ _ _ "a" mine (Ok 1)).
Qed.

Lemma lease_mutual_exclusion_witness : ("a", 10) ∈ LeaseSystem.granted held ∧
  ¬ ("b", 10) ∈ LeaseSystem.granted held.
Proof.
  split; [by left|]. intros Hin.
  assert ("b" = "a" :> string) as He; [|done].
  refine (LeaseSystem.lease_mutual_exclusion "leader" 10 0 held "b" 10 "a" 10
    _ held_run Hin _ _ _); [done|by left|done|done].
Defined.

Definition adv (t : Z) : Z := t + 1.
Lemma adv_le t : t ≤ adv t.
Proof. unfold adv. lia. Qed.

#[local] Existing Instance LeaseSystem.record_JSON.
#[local] Instance demo_clock : Clock (Mem.t leaseRecord * Z) := LeaseSystem.world_Clock adv.

Lemma Acquire_runs_witness : ∃ m' t',
  LeaseSystem.runs "leader" 10 "a" Mem.NewMem 0 [] m' t' [("a", 10)].
Proof.
  destruct (Acquire (NewLease "leader" "a" 10) (Mem.NewMem, 0)) as [r [m' t']] eqn:E.
  assert (r = Ok true) as -> by (revert E; vm_compute; congruence).
  exists m', t'.
  exact (LeaseSystem.Acquire_runs "leader" 10 adv adv_le "a" Mem.NewMem 0 (Ok true) m' t'
    eq_refl E []).
Defined.

Lemma Release_runs_witness : ∃ m' t',
  LeaseSystem.runs "leader" 10 "a" m0 0 [("a", 5)] m' t' [].
Proof.
  assert (Mem.rev (Release (NewLease "leader" "a" 10) (m0, 0)).2.1 = 2) as Hrev by by vm_compute.
  destruct (Release (NewLease "leader" "a" 10) (m0, 0)) as [r [m' t']] eqn:E.
  simpl in Hrev.
  exists m', t'.
  pose proof (LeaseSystem.Release_runs "leader" 10 "a" m0 0 r m' t'
    ltac:(done) eq_refl E [("a", 5)]) as H. by rewrite Hrev in H.
Defined.
End StateDemo.
