(* ===== verification/Buffer.v ===== *)
(** The coordinator's durable FIFO (pkg/coordinator/buffer/buffer.go).

    The buffer is a bbolt file with a bucket of items, keyed by big-endian sequence
    numbers, and a bucket of two counters. [Bolt] is the interface of that library:
    its operations and what its documentation promises. The operations of the code
    are translated over it, and shown to implement an abstract queue: [rep q s] says
    that the buckets [s] hold the queue [q], with counters that agree with it. *)
From S2P Require Import Prelude Strings Bytes.
#[local] Open Scope Z_scope.

(** ** The key-value file *)

(** The pairs of a bucket in byte order of their keys: insertion and lookup. *)
Fixpoint kv_insert (k v : string) (l : list (string * string)) : list (string * string) :=
  match l with
  | [] => [(k, v)]
  | (k', v') :: l' =>
      match String.compare k k' with
      | Lt => (k, v) :: l
      | Eq => (k, v) :: l'
      | Gt => (k', v') :: kv_insert k v l'
      end
  end.

Fixpoint kv_get (k : string) (l : list (string * string)) : option string :=
  match l with
  | [] => None
  | (k', v) :: l => if bool_decide (k = k') then Some v else kv_get k l
  end.

(** The first pair whose key is after [k]. *)
Definition kv_after (k : string) (l : list (string * string)) : option (string * string) :=
  head (filter (λ p, String.compare k p.1 = Lt) l).

(** [B] is a bucket inside a transaction and [D] the open file; both include
    whatever decides whether a call fails. *)
Class Bolt (B D : Type) := {
  b_Get : string → B → string;  (** empty when the key is missing *)
  b_Put : string → string → M B ();
  b_NextSequence : M B Z;
  c_First : B → option (string * string);
  c_Next : string → B → option (string * string);
  c_Delete : string → M B ();  (** the pair the cursor is at *)
  db_View : M D (B * B);  (** the buckets [items] and [meta] *)
  db_Update : M (B * B) () → M D ();
  pairs : B → list (string * string);
  sequence : B → Z;
  stored : D → B * B;
  b_Get_law k b : b_Get k b = default "" (kv_get k (pairs b));
  b_Put_law k v b b' : b_Put k v b = (Ok (), b') →
    pairs b' = kv_insert k v (pairs b) ∧ sequence b' = sequence b;
  b_NextSequence_law b n b' : b_NextSequence b = (Ok n, b') →
    n = u64 (sequence b + 1) ∧ sequence b' = n ∧ pairs b' = pairs b;
  c_First_law b : c_First b = head (pairs b);
  c_Next_law k b : c_Next k b = kv_after k (pairs b);
  c_Delete_law k b b' : c_Delete k b = (Ok (), b') →
    pairs b' = filter (λ p, p.1 ≠ k) (pairs b) ∧ sequence b' = sequence b;
  db_View_law d r d' : db_View d = (r, d') →
    stored d' = stored d ∧ ∀ s, r = Ok s → s = stored d;
  (** A transaction that fails, or cannot be committed, leaves no trace. *)
  db_Update_law f d r d' : db_Update f d = (r, d') →
    match r, f (stored d) with
    | Ok _, (Ok _, s') => stored d' = s'
    | Ok _, (Err _, _) => False
    | Err _, _ => stored d' = stored d
    end;
}.

(** ** The buffer *)

Definition ErrFull : error := sentinel "buffer.ErrFull" "buffer: full".
Definition ErrTooLarge : error :=
  sentinel "buffer.ErrTooLarge" "buffer: entry larger than the buffer".
Definition ErrNUL : error := errors_New "buffer: an ID must not contain a NUL byte".

Definition countKey : string := "count".
Definition bytesKey : string := "bytes".

Record Entry := MkEntry { ID : string; Data : string }.
Record Item := MkItem { Seq : Z; entry : Entry }.
Record Stats := MkStats { Count : Z; Bytes : Z; MaxBytes : Z }.

(** The fields of [Buffer] besides the file. *)
Record Buffer := MkBuffer { max : Z }.

(** [Open], after bbolt created the file and the buckets. *)
Definition Open (maxBytes : Z) : res Buffer :=
  if maxBytes =? 0 then Err (errors_New "buffer: maxBytes must be positive")
  else Ok (MkBuffer maxBytes).

Definition encodeKey (seq : Z) : string := be 8 seq.
Definition encodeValue (e : Entry) : string := ID e +:+ String NUL (Data e).
#[global] Arguments encodeKey : simpl never.
#[global] Arguments encodeValue : simpl never.
Definition decodeValue (v : string) : Entry :=
  let '(id, data, _) := Cut v NUL in MkEntry id data.
Definition size (e : Entry) : Z := u64 (len (ID e) + len (Data e)).

Section buffer.
Context {B D : Type} `{!Bolt B D}.

Definition getUint (b : B) (key : string) : Z :=
  let v := b_Get key b in if len v =? 8 then be_val v else 0.
Definition putUint (key : string) (n : Z) : M B () := b_Put key (be 8 n).

(** The checks of [Append], and the total it computes. *)
Fixpoint Append_total (b : Buffer) (entries : list Entry) (total : Z) : res Z :=
  match entries with
  | [] => Ok total
  | e :: entries =>
      if Contains (ID e) (String NUL "") then Err ErrNUL
      else if max b <? size e then Err ErrTooLarge
      else Append_total b entries (u64 (total + size e))
  end.

Fixpoint Append_items (entries : list Entry) : M B () :=
  match entries with
  | [] => mret ()
  | e :: entries =>
      seq ← b_NextSequence;
      b_Put (encodeKey seq) (encodeValue e);;
      Append_items entries
  end.

Definition Append_tx (b : Buffer) (entries : list Entry) (total : Z) : M (B * B) () :=
  used ← gets (λ s, getUint s.2 bytesKey);
  if max b <? u64 (used + total) then throw ErrFull
  else
    on_fst (Append_items entries);;
    on_snd (putUint bytesKey (u64 (used + total)));;
    count ← gets (λ s, getUint s.2 countKey);
    on_snd (putUint countKey (u64 (count + Z.of_nat (length entries)))).

Definition Append (b : Buffer) (entries : list Entry) : M D () :=
  total ← lift (Append_total b entries 0);
  db_Update (Append_tx b entries total).

(** The cursor loop of [Peek]; [n] is the room left in the result. *)
Fixpoint Peek_loop (n : nat) (b : B) (kv : option (string * string)) : list Item :=
  match n, kv with
  | S n, Some (k, v) =>
      MkItem (be_val k) (decodeValue v) :: Peek_loop n b (c_Next k b)
  | _, _ => []
  end.

Definition Peek (n : Z) : M D (list Item) :=
  s ← db_View;
  mret (Peek_loop (Z.to_nat n) s.1 (c_First s.1)).

(** The deletion loop of [Remove]: it counts items and bytes. Every round deletes
    a pair, so one more round than there are pairs is enough. *)
Fixpoint Remove_loop (fuel : nat) (upTo count bytes : Z) : M B (Z * Z) :=
  match fuel with
  | O => throw (errors_New "out of fuel")
  | S fuel =>
      kv ← gets c_First;
      match kv with
      | Some (k, v) =>
          if be_val k <=? upTo then
            c_Delete k;;
            Remove_loop fuel upTo (u64 (count + 1)) (u64 (bytes + size (decodeValue v)))
          else mret (count, bytes)
      | None => mret (count, bytes)
      end
  end.

Definition Remove_tx (upTo : Z) : M (B * B) () :=
  fuel ← gets (λ s, S (length (pairs s.1)));
  cb ← on_fst (Remove_loop fuel upTo 0 0);
  let '(count, bytes) := (cb : Z * Z) in
  if count =? 0 then mret ()
  else
    used ← gets (λ s, getUint s.2 bytesKey);
    on_snd (putUint bytesKey (u64 (used - bytes)));;
    n ← gets (λ s, getUint s.2 countKey);
    on_snd (putUint countKey (u64 (n - count))).

Definition Remove (upTo : Z) : M D () := db_Update (Remove_tx upTo).

(** [Stats]: zeros when the file cannot be read. *)
Definition Stats_ (b : Buffer) : M D Stats :=
  r ← try db_View;
  mret match r with
       | Ok s => MkStats (getUint s.2 countKey) (getUint s.2 bytesKey) (max b)
       | Err _ => MkStats 0 0 (max b)
       end.
End buffer.

(** ** The key-value lemmas *)

Lemma kv_insert_last k v l :
  Forall (λ p, String.compare k p.1 = Gt) l → kv_insert k v l = l ++ [(k, v)].
Proof.
  induction 1 as [|[k' v'] l Hk _ IH]; simpl in *; [done|]. by rewrite Hk, IH.
Qed.

Lemma kv_get_insert k v k' l :
  kv_get k' (kv_insert k v l) = if decide (k' = k) then Some v else kv_get k' l.
Proof.
  induction l as [|[k1 v1] l IH]; simpl; [repeat case_match; prop_bool; naive_solver|].
  destruct (String.compare k k1) eqn:E; simpl.
  - apply String.compare_eq_iff in E as ->. repeat case_match; prop_bool; naive_solver.
  - repeat case_match; prop_bool; naive_solver.
  - rewrite IH. assert (k ≠ k1) by (intros <-; by rewrite compare_refl_s in E).
    repeat case_match; prop_bool; naive_solver.
Qed.

Lemma compare_encodeKey a b : is_u64 a → is_u64 b →
  String.compare (encodeKey a) (encodeKey b) = (a ?= b).
Proof. apply (compare_be 8). Qed.

Lemma be_val_encodeKey a : is_u64 a → be_val (encodeKey a) = a.
Proof. apply (be_val_be 8). Qed.

Lemma decode_encodeValue e :
  Contains (ID e) (String NUL "") = false → decodeValue (encodeValue e) = e.
Proof. intros He. unfold decodeValue, encodeValue. rewrite Cut_append by done. by destruct e. Qed.

(** ** The abstract queue *)

Definition bytes_of (q : list Item) : Z := foldr (λ i n, size (entry i) + n) 0 q.
Definition enc (i : Item) : string * string := (encodeKey (Seq i), encodeValue (entry i)).

Section refinement.
Context {B D : Type} `{!Bolt B D}.

(** The buckets [s] hold the queue [q] within the limit of [b]. *)
Record rep (b : Buffer) (q : list Item) (s : B * B) : Prop := {
  rep_pairs : pairs s.1 = enc <$> q;
  rep_sorted : StronglySorted (λ i j, Seq i < Seq j) q;
  rep_seq : Forall (λ i, 0 < Seq i ≤ sequence s.1) q;
  rep_ids : Forall (λ i, Contains (ID (entry i)) (String NUL "") = false) q;
  rep_sequence : 0 ≤ sequence s.1 < 2 ^ 64;
  rep_bytes : getUint s.2 bytesKey = bytes_of q;
  rep_count : getUint s.2 countKey = Z.of_nat (length q);
  rep_max : bytes_of q ≤ max b < 2 ^ 64;
}.

Lemma size_range e : is_u64 (size e).
Proof. apply u64_range. Qed.
#[local] Hint Resolve size_range : go.

Lemma bytes_of_nonneg q : 0 ≤ bytes_of q.
Proof.
  induction q as [|i q IH]; simpl; [lia|]. pose proof (size_range (entry i)) as [? _]. lia.
Qed.

Lemma bytes_of_app q1 q2 : bytes_of (q1 ++ q2) = bytes_of q1 + bytes_of q2.
Proof. induction q1; simpl; lia. Qed.

Lemma getUint_eq b key : getUint b key =
  if len (default "" (kv_get key (pairs b))) =? 8
  then be_val (default "" (kv_get key (pairs b))) else 0.
Proof. unfold getUint. by rewrite b_Get_law. Qed.

Lemma getUint_put key n b b' : is_u64 n → putUint key n b = (Ok (), b') →
  getUint b' key = n ∧ ∀ key', key' ≠ key → getUint b' key' = getUint b key'.
Proof.
  intros Hn [Hp _]%b_Put_law. split.
  - rewrite getUint_eq, Hp, kv_get_insert, decide_True by done.
    unfold len. change (default "" (Some (be 8 n))) with (be 8 n). rewrite length_be.
    by apply (be_val_be 8).
  - intros key' Hne. by rewrite !getUint_eq, Hp, kv_get_insert, decide_False.
Qed.

(** *** Peek *)

Lemma kv_after_enc q1 i q2 : Forall (λ j, is_u64 (Seq j)) (q1 ++ i :: q2) →
  StronglySorted (λ i j, Seq i < Seq j) (q1 ++ i :: q2) →
  kv_after (encodeKey (Seq i)) (enc <$> (q1 ++ i :: q2)) = head (enc <$> q2).
Proof.
  intros Hr Hs. unfold kv_after.
  assert (∀ q, Forall (λ j, is_u64 (Seq j)) q →
    filter (λ p : string * string, String.compare (encodeKey (Seq i)) p.1 = Lt) (enc <$> q)
    = enc <$> filter (λ j, Seq i < Seq j) q) as Hf.
  { induction 1 as [|j q Hj _ IH]; [done|]. rewrite fmap_cons, !filter_cons, IH.
    apply Forall_app in Hr as [_ Hi%Forall_inv].
    assert (String.compare (encodeKey (Seq i)) (enc j).1 = Lt ↔ Seq i < Seq j) as Hc

      by (change (enc j).1 with (encodeKey (Seq j)); by rewrite compare_encodeKey, Z.compare_lt_iff).
    repeat case_decide; [done|tauto|tauto|done]. }
  rewrite Hf by done. f_equal. f_equal.
  apply StronglySorted_app in Hs as (Hs1 & Hs2 & Hs3).
  rewrite filter_app, filter_cons_False by lia.
  apply StronglySorted_inv in Hs3 as [_ Hq2].
  rewrite (filter_all _ q2) by done.
  enough (filter (λ j, Seq i < Seq j) q1 = []) as ->; [done|].
  apply filter_none. rewrite Forall_forall. intros j Hj.
  specialize (Hs1 j i Hj ltac:(set_solver)). simpl in Hs1. lia.
Qed.

Lemma Peek_loop_spec b q n q1 q2 : pairs b = enc <$> q → q = q1 ++ q2 →
  Forall (λ j, is_u64 (Seq j)) q → StronglySorted (λ i j, Seq i < Seq j) q →
  Forall (λ i, Contains (ID (entry i)) (String NUL "") = false) q →
  Peek_loop n b (head (enc <$> q2)) = take n q2.
Proof.
  intros Hb. revert q1 q2. induction n as [|n IH]; intros q1 q2 Hq Hr Hs Hid;
    [done|]. destruct q2 as [|i q2]; [done|]. simpl.
  subst q. pose proof Hr as [_ Hi%Forall_inv]%Forall_app.
  pose proof Hid as [_ Hn%Forall_inv]%Forall_app.
  rewrite be_val_encodeKey, decode_encodeValue by done. f_equal; [by destruct i|].
  rewrite c_Next_law, Hb, kv_after_enc by done.
  apply (IH (q1 ++ [i])); [by rewrite <- app_assoc|done..].
Qed.

Lemma rep_u64 b q s : rep b q s → Forall (λ j, is_u64 (Seq j)) q.
Proof.
  intros Hrep. eapply Forall_impl; [apply (rep_seq _ _ _ Hrep)|]. intros j. simpl.
  pose proof (rep_sequence _ _ _ Hrep). unfold is_u64. lia.
Qed.

(** *** Append *)

(** Items in ascending order of positive sequence numbers up to [n]. *)
Definition numbered (q : list Item) (n : Z) : Prop :=
  StronglySorted (λ i j, Seq i < Seq j) q ∧ Forall (λ i, 0 < Seq i ≤ n) q.

Lemma numbered_length q lo n : lo ≤ n → StronglySorted (λ i j, Seq i < Seq j) q →
  Forall (λ i, lo < Seq i ≤ n) q → Z.of_nat (length q) ≤ n - lo.
Proof.
  intros Hlo Hs. revert lo Hlo. induction Hs as [|i q Hs IH Hi]; intros lo Hlo Hf; [simpl; lia|].
  apply Forall_cons in Hf as [Hi' Hf]. simpl length. rewrite Nat2Z.inj_succ.
  specialize (IH (Seq i) ltac:(lia)). enough (Z.of_nat (length q) ≤ n - Seq i) by lia.
  apply IH. rewrite Forall_forall in *. intros j Hj. specialize (Hi j Hj).
  specialize (Hf j Hj). simpl in *. lia.
Qed.

Lemma numbered_snoc q n e : 0 ≤ n → numbered q n → numbered (q ++ [MkItem (n + 1) e]) (n + 1).
Proof.
  intros Hn [Hs Hf]. split.
  - apply StronglySorted_app_2; [|done|repeat constructor].
    intros i j Hi ->%list_elem_of_singleton. rewrite Forall_forall in Hf.
    specialize (Hf _ Hi). simpl in *. lia.
  - apply Forall_app_2; [|repeat constructor; simpl; lia].
    eapply Forall_impl; [exact Hf|]. simpl. lia.
Qed.

Lemma kv_insert_enc q n e : 0 ≤ n → n + 1 < 2 ^ 64 → numbered q n →
  kv_insert (encodeKey (n + 1)) (encodeValue e) (enc <$> q) =
  enc <$> (q ++ [MkItem (n + 1) e]).
Proof.
  intros H0 Hn [_ Hf]. rewrite kv_insert_last; [by rewrite fmap_app|].
  apply Forall_fmap. eapply Forall_impl; [exact Hf|]. intros i Hi.
  change (String.compare (encodeKey (n + 1)) (encodeKey (Seq i)) = Gt).
  rewrite compare_encodeKey, Z.compare_gt_iff; unfold is_u64; simpl in *; lia.
Qed.

Lemma Append_items_spec es b b' q : pairs b = enc <$> q → 0 ≤ sequence b →
  sequence b + Z.of_nat (length es) < 2 ^ 64 → numbered q (sequence b) →
  Append_items es b = (Ok (), b') →
  ∃ new, entry <$> new = es ∧ pairs b' = enc <$> (q ++ new) ∧
    numbered (q ++ new) (sequence b') ∧ sequence b' = sequence b + Z.of_nat (length es).
Proof.
  revert b q. induction es as [|e es IH]; intros b q Hp H0 Hn Hq H; simpl in *.
  - unfold mret, M_ret in H. simplify_eq. exists []. rewrite app_nil_r, Z.add_0_r. auto.
  - apply bind_ok in H as (n & b1 & Hseq & H). apply bind_ok in H as ([] & b2 & Hput & H).
    apply b_NextSequence_law in Hseq as (-> & Hs1 & Hp1).
    rewrite u64_small in * by (unfold is_u64; lia).
    apply b_Put_law in Hput as [Hp2 Hs2].
    rewrite Hp1, Hp, kv_insert_enc in Hp2 by (done || lia).
    destruct (IH b2 _ Hp2) as (new & He & Hp' & Hq' & Hs'); [lia..| |done|].
    + rewrite Hs2, Hs1. by apply numbered_snoc.
    + exists (MkItem (sequence b + 1) e :: new). rewrite <- app_assoc in Hp', Hq'.
      split_and!; [by f_equal/=|done..|lia].
Qed.

Definition sizes (es : list Entry) : Z := foldr (λ e n, size e + n) 0 es.

Lemma bytes_of_sizes q : bytes_of q = sizes (entry <$> q).
Proof. induction q as [|i q IH]; [done|]. rewrite fmap_cons. simpl. by rewrite IH. Qed.

Lemma sizes_nonneg es : 0 ≤ sizes es.
Proof. induction es as [|e es IH]; simpl; [lia|]. pose proof (size_range e) as [? _]. lia. Qed.

(** What an [Append] has to check of its entries. *)
Definition acceptable (b : Buffer) (e : Entry) : Prop :=
  Contains (ID e) (String NUL "") = false ∧ size e ≤ max b.

Lemma Append_total_spec b es t r : 0 ≤ t → t + sizes es < 2 ^ 64 →
  Append_total b es t = r → if is_ok r then r = Ok (t + sizes es) ∧ Forall (acceptable b) es
  else ¬ Forall (acceptable b) es.
Proof.
  revert t. induction es as [|e es IH]; simpl; intros t H0 Ht Hr.
  - subst r. simpl. rewrite Z.add_0_r. auto.
  - pose proof (size_range e) as [? _]. pose proof (sizes_nonneg es).
    destruct (Contains _ _) eqn:E; [subst r; intros [[??] _]%Forall_cons; congruence|].
    destruct (Z.ltb_spec (max b) (size e)).
    { subst r. intros [[_ ?] _]%Forall_cons. lia. }
    rewrite u64_small in Hr by (unfold is_u64; lia).
    apply IH in Hr; [|lia..]. destruct r; simpl in *.
    + destruct Hr as [-> Hf]. split; [f_equal; lia|]. by constructor.
    + intros [_ ?]%Forall_cons. done.
Qed.

Lemma Append_tx_spec b es q s s' : rep b q s →
  bytes_of q + sizes es < 2 ^ 64 → sequence s.1 + Z.of_nat (length es) < 2 ^ 64 →
  Forall (acceptable b) es → Append_tx b es (sizes es) s = (Ok (), s') →
  bytes_of q + sizes es ≤ max b ∧ ∃ new, entry <$> new = es ∧ rep b (q ++ new) s'.
Proof.
  intros [Hp Hs Hn Hid Hseq Hby Hc Hmax] Hsz Hlen Hacc H. destruct s as [bi bm].
  unfold Append_tx, gets in H. cbn [fst snd] in *.
  assert (Z.of_nat (length q) ≤ sequence bi - 0) as Hlq by (apply numbered_length; lia || done).
  pose proof (bytes_of_nonneg q). pose proof (sizes_nonneg es).
  apply bind_ok in H as (used & ? & [= <- <-] & H).
  rewrite Hby, u64_small in H by (unfold is_u64; lia).
  destruct (Z.ltb_spec (max b) (bytes_of q + sizes es)); [done|]. split; [done|].
  apply bind_ok in H as ([] & s1 & Hs1 & H). apply bind_ok in H as ([] & s2 & Hs2 & H).
  apply bind_ok in H as (n & ? & [= <- <-] & H). unfold on_fst, on_snd in *.
  destruct (Append_items es bi) as [r1 bi'] eqn:Hai. simplify_eq.
  destruct (putUint bytesKey _ bm) as [r2 bm2] eqn:Hp2. simplify_eq. cbn [fst snd] in *.
  destruct (putUint countKey _ bm2) as [r3 bm3] eqn:Hp3. simplify_eq.
  apply (Append_items_spec es bi bi' q) in Hai as (new & He & Hp' & [Hs' Hn'] & Hsq);
    [|done|lia|done|by split].
  apply getUint_put in Hp2 as [Hb2 Hc2]; [|unfold is_u64; lia].
  apply getUint_put in Hp3 as [Hb3 Hc3]; [|apply u64_range].
  assert (length new = length es) by (subst es; by rewrite length_fmap).
  exists new. split; [done|]. subst es. rewrite <- bytes_of_sizes in *.
  split; cbn [fst snd]; try done.
  - apply Forall_app. split; [done|]. rewrite Forall_fmap in Hacc.
    eapply Forall_impl; [exact Hacc|]. by intros i [? _].
  - lia.
  - rewrite Hc3, Hb2, bytes_of_app by done. done.
  - rewrite Hb3, Hc2, Hc, length_app by done. 
    rewrite u64_small; unfold is_u64; lia.
  - rewrite bytes_of_app. lia.
Qed.

Lemma Append_spec b es d r d' q : rep b q (stored d) →
  bytes_of q + sizes es < 2 ^ 64 → sequence (stored d).1 + Z.of_nat (length es) < 2 ^ 64 →
  Append b es d = (r, d') →
  match r with
  | Ok _ => Forall (acceptable b) es ∧ bytes_of q + sizes es ≤ max b ∧
            ∃ new, entry <$> new = es ∧ rep b (q ++ new) (stored d')
  | Err _ => rep b q (stored d')
  end.
Proof.
  intros Hrep Hsz Hlen H. unfold Append in H. run_unfold.
  pose proof (bytes_of_nonneg q).
  destruct (Append_total b es 0) as [t|e] eqn:Ht; [|by simplify_eq].
  apply Append_total_spec in Ht as [[= ->] Hacc]; [|lia..].
  apply db_Update_law in H. simpl in H.
  destruct r as [[]|e]; [|by rewrite H].
  destruct (Append_tx _ _ _ _) as [[[]|e] s'] eqn:Htx; [|done].
  rewrite H. split; [done|]. by eapply Append_tx_spec.
Qed.

(** [Append_refines]: [Append] adds all entries at the end of the queue or
    none: it succeeds only when every entry is acceptable and they fit the limit
    together, and on any error, a failed transaction included, the queue is as
    before. The invariant of the file is kept. The two bounds say that 64-bit
    counters do not run out. *)
Theorem Append_refines b es d r d' q : rep b q (stored d) →
  bytes_of q + sizes es < 2 ^ 64 → sequence (stored d).1 + Z.of_nat (length es) < 2 ^ 64 →
  Append b es d = (r, d') →
  match r with
  | Ok _ => Forall (acceptable b) es ∧ bytes_of q + sizes es ≤ max b ∧
            ∃ new, entry <$> new = es ∧ rep b (q ++ new) (stored d')
  | Err _ => rep b q (stored d')
  end.
Proof. apply Append_spec. Qed.

Lemma Append_one b e d r d' q : rep b q (stored d) →
  bytes_of q + size e < 2 ^ 64 → sequence (stored d).1 + 1 < 2 ^ 64 →
  Append b [e] d = (r, d') →
  match r with
  | Ok _ => ∃ n, 0 < n ∧ Forall (λ i, Seq i < n) q ∧ rep b (q ++ [MkItem n e]) (stored d')
  | Err _ => rep b q (stored d')
  end.
Proof.
  intros Hrep Hb Hs H. apply (Append_spec _ _ _ _ _ q) in H; [|done|simpl; lia..].
  destruct r as [[]|]; [|done]. destruct H as (_ & _ & new & Hnew & Hr).
  destruct new as [|[n e'] [|]]; simplify_eq/=. exists n.
  pose proof (rep_seq _ _ _ Hr) as [_ Hn%Forall_inv]%Forall_app. simpl in Hn.
  split; [lia|]. split; [|done]. rewrite Forall_forall. intros i Hi.
  pose proof (rep_sorted _ _ _ Hr) as (Hlt & _)%StronglySorted_app.
  apply (Hlt i (MkItem n e) Hi). by left.
Qed.

(** *** Peek, Stats *)

Lemma Peek_spec b q n d r d' : rep b q (stored d) → Peek n d = (r, d') →
  stored d' = stored d ∧ ∀ items, r = Ok items → items = take (Z.to_nat n) q.
Proof.
  intros Hrep H. unfold Peek in H. run_unfold.
  destruct (db_View d) as [[s|e] d1] eqn:Hv; apply db_View_law in Hv as [Hs Hr];
    simplify_eq; split; try done.
  intros ? [= <-]. rewrite (Hr s), c_First_law, (rep_pairs _ _ _ Hrep) by done.
  eapply (Peek_loop_spec _ q _ []); [apply Hrep|done| |apply Hrep..].
  by eapply rep_u64.
Qed.

(** [Peek_refines]: [Peek] returns the oldest [n] items, in order, and changes
    nothing. *)
Theorem Peek_refines b q n d r d' : rep b q (stored d) → Peek n d = (r, d') →
  stored d' = stored d ∧ ∀ items, r = Ok items → items = take (Z.to_nat n) q.
Proof. apply Peek_spec. Qed.

Lemma Stats_spec b q d r d' : rep b q (stored d) → Stats_ b d = (r, d') →
  stored d' = stored d ∧
  (r = Ok (MkStats (Z.of_nat (length q)) (bytes_of q) (max b)) ∨ r = Ok (MkStats 0 0 (max b))).
Proof.
  intros Hrep H. unfold Stats_ in H. run_unfold.
  destruct (db_View d) as [[s|e] d1] eqn:Hv; apply db_View_law in Hv as [Hs Hr];
    simplify_eq; split; auto.
  rewrite (Hr s), (rep_bytes _ _ _ Hrep), (rep_count _ _ _ Hrep) by done. auto.
Qed.

Lemma Stats_view b q d r d' : rep b q (stored d) → is_ok (db_View d).1 = true →
  Stats_ b d = (r, d') → r = Ok (MkStats (Z.of_nat (length q)) (bytes_of q) (max b)).
Proof.
  intros Hrep Hok H. unfold Stats_ in H. run_unfold.
  destruct (db_View d) as [[s|e] d1] eqn:Hv; apply db_View_law in Hv as [Hs Hr];
    simplify_eq/=.
  by rewrite (Hr s), (rep_bytes _ _ _ Hrep), (rep_count _ _ _ Hrep).
Qed.

(** *** Remove *)

Lemma kv_delete_enc i q : Forall (λ j, is_u64 (Seq j)) (i :: q) →
  StronglySorted (λ i j, Seq i < Seq j) (i :: q) →
  filter (λ p : string * string, p.1 ≠ encodeKey (Seq i)) (enc <$> (i :: q)) = enc <$> q.
Proof.
  intros [Hi Hr]%Forall_cons [_ Hs]%StronglySorted_inv.
  rewrite fmap_cons, filter_cons_False by (intros Hne; by apply Hne).
  apply filter_all, Forall_fmap. rewrite Forall_forall in *. intros j Hj Heq.
  apply (f_equal be_val) in Heq. specialize (Hs j Hj). specialize (Hr j Hj).
  change (be_val (encodeKey (Seq j)) = be_val (encodeKey (Seq i))) in Heq.
  rewrite !be_val_encodeKey in Heq by done. simpl in Hs. lia.
Qed.

Lemma Remove_loop_spec fuel upTo q : ∀ c by0 b c' by' b',
  pairs b = enc <$> q → StronglySorted (λ i j, Seq i < Seq j) q →
  Forall (λ j, is_u64 (Seq j)) q → 0 ≤ c → c + Z.of_nat (length q) < 2 ^ 64 →
  0 ≤ by0 → by0 + bytes_of q < 2 ^ 64 →
  Forall (λ i, Contains (ID (entry i)) (String NUL "") = false) q →
  Remove_loop fuel upTo c by0 b = (Ok (c', by'), b') →
  ∃ q1 q2, q = q1 ++ q2 ∧ q2 = filter (λ i, upTo < Seq i) q ∧ pairs b' = enc <$> q2 ∧
    sequence b' = sequence b ∧ c' = c + Z.of_nat (length q1) ∧ by' = by0 + bytes_of q1.
Proof.
  revert q. induction fuel as [|fuel IH]; intros q c by0 b c' by' b' Hp Hs Hu Hc0 Hc Hb0 Hb Hid H;
    [done|]. cbn [Remove_loop] in H.
  apply bind_ok in H as (kv & ? & [= <- <-] & H). rewrite c_First_law, Hp in H.
  destruct q as [|i q]; cbn [fmap list_fmap head] in H; unfold enc in H; cbn iota beta in H.
  { unfold mret, M_ret in H. simplify_eq. exists [], []. simpl. split_and!; auto; lia. }
  pose proof Hu as [Hui Huq]%Forall_cons. pose proof Hs as [Hsq Hi]%StronglySorted_inv.
  pose proof Hid as [Hidi Hidq]%Forall_cons.
  rewrite be_val_encodeKey, decode_encodeValue in H by done.
  destruct (Z.leb_spec (Seq i) upTo).
  - apply bind_ok in H as ([] & b1 & Hdel & H).
    apply c_Delete_law in Hdel as [Hp1 Hs1]. rewrite Hp, kv_delete_enc in Hp1 by done.
    simpl in Hb, Hc. pose proof (size_range (entry i)). pose proof (bytes_of_nonneg q).
    rewrite !u64_small in H by (unfold is_u64 in *; lia).
    apply (IH q) in H as (q1 & q2 & -> & Hq2 & Hp' & Hs' & -> & ->); try done;
      [|unfold is_u64 in *; lia..].
    exists (i :: q1), q2. rewrite filter_cons_False by lia.
    split_and!; [done|done|done|congruence|simpl; lia|simpl; lia].
  - unfold mret, M_ret in H. simplify_eq. exists [], (i :: q). simpl.
    split_and!; auto; [|lia..]. symmetry. apply filter_all. constructor; [done|].
    eapply Forall_impl; [exact Hi|]. simpl. lia.
Qed.

Lemma Remove_tx_spec b upTo q s s' : rep b q s → Remove_tx upTo s = (Ok (), s') →
  rep b (filter (λ i, upTo < Seq i) q) s'.
Proof.
  intros Hrep H. pose proof (rep_u64 _ _ _ Hrep) as Hu.
  destruct Hrep as [Hp Hs Hn Hid Hseq Hby Hc Hmax]. destruct s as [bi bm].
  unfold Remove_tx, gets in H. cbn [fst snd] in *.
  apply bind_ok in H as (fuel & ? & [= <- <-] & H).
  apply bind_ok in H as ([c by'] & s1 & Hx1 & H). unfold on_fst in Hx1.
  assert (Z.of_nat (length q) ≤ sequence bi - 0) as Hlq by (apply numbered_length; lia || done).
  destruct (Remove_loop _ _ _ _ _) as [r1 bi'] eqn:Hl. simplify_eq.
  pose proof (bytes_of_nonneg q).
  apply (Remove_loop_spec _ _ q) in Hl
    as (q1 & q2 & Hq & Hq2 & Hp' & Hs' & -> & ->); try done; try lia.
  rewrite <- Hq2. clear Hq2. subst q. rewrite bytes_of_app, length_app in *.
  apply StronglySorted_app in Hs as (_ & _ & Hs). pose proof (bytes_of_nonneg q1).
  apply Forall_app in Hn as [_ Hn]. apply Forall_app in Hid as [_ Hid].
  pose proof (bytes_of_nonneg q2).
  destruct (Z.eqb_spec (0 + Z.of_nat (length q1)) 0) as [Hz|Hz].
  - unfold mret, M_ret in H. simplify_eq. assert (q1 = []) as -> by (destruct q1; done || simpl in *; lia).
    simpl in *. split; cbn [fst snd]; rewrite ?Hs'; done || lia.
  - apply bind_ok in H as (used & ? & [= <- <-] & H). cbn [fst snd] in H.
    apply bind_ok in H as ([] & s2 & Hx2 & H). apply bind_ok in H as (n & ? & [= <- <-] & H).
    unfold on_snd in *. destruct (putUint bytesKey _ bm) as [r2 bm2] eqn:Hp2. simplify_eq.
    cbn [snd] in H. destruct (putUint countKey _ bm2) as [r3 bm3] eqn:Hp3. simplify_eq.
    apply getUint_put in Hp2 as [Hb2 Hc2]; [|apply u64_range].
    apply getUint_put in Hp3 as [Hb3 Hc3]; [|apply u64_range].
    split; cbn [fst snd]; rewrite ?Hs'; try done; [| |lia].
    + rewrite Hc3, Hb2, Hby, u64_small by (done || unfold is_u64; lia). lia.
    + rewrite Hb3, Hc2, Hc, u64_small by (done || unfold is_u64; lia). lia.
Qed.

Lemma Remove_spec b upTo q d r d' : rep b q (stored d) → Remove upTo d = (r, d') →
  match r with
  | Ok _ => rep b (filter (λ i, upTo < Seq i) q) (stored d')
  | Err _ => rep b q (stored d')
  end.
Proof.
  intros Hrep H. unfold Remove in H. apply db_Update_law in H.
  destruct r as [[]|e]; [|by rewrite H].
  destruct (Remove_tx _ _) as [[[]|e] s'] eqn:Htx; [|done].
  rewrite H. by eapply Remove_tx_spec.
Qed.

(** [Remove_refines]: [Remove] takes exactly the items up to the given number
    off the queue, or, when it fails, none. *)
Theorem Remove_refines b upTo q d r d' : rep b q (stored d) → Remove upTo d = (r, d') →
  match r with
  | Ok _ => rep b (filter (λ i, upTo < Seq i) q) (stored d')
  | Err _ => rep b q (stored d')
  end.
Proof. apply Remove_spec. Qed.
End refinement.

(** ** Progress on a file that works *)

(** A file on which no operation fails of its own. *)
Class Working (B D : Type) `{!Bolt B D} := {
  Put_ok k v b : (b_Put k v b).1 = Ok ();
  NextSequence_ok b : is_ok (b_NextSequence b).1 = true;
  Delete_ok k b : (c_Delete k b).1 = Ok ();
  View_ok d : is_ok (db_View d).1 = true;
  Update_ok f d : (db_Update f d).1 = (f (stored d)).1;
}.

Section progress.
Context {B D : Type} `{!Bolt B D, !Working B D}.
#[local] Set Default Proof Using "All".

Lemma putUint_ok key n b : (putUint key n b).1 = Ok ().
Proof. apply Put_ok. Qed.

Lemma Append_items_ok es b : (Append_items es b).1 = Ok ().
Proof.
  revert b. induction es as [|e es IH]; intros b; [done|]. cbn [Append_items]. run_unfold.
  pose proof (NextSequence_ok b). destruct (b_NextSequence b) as [[n|] b1]; [|done].
  pose proof (Put_ok (encodeKey n) (encodeValue e) b1).
  destruct (b_Put _ _ _) as [[[]|] b2]; [apply IH|done].
Qed.

Lemma Append_tx_result b es total s :
  (Append_tx b es total s).1 =
  if max b <? u64 (getUint s.2 bytesKey + total) then Err ErrFull else Ok ().
Proof.
  unfold Append_tx. destruct s as [bi bm]. run_unfold. destruct (_ <? _); [done|].
  unfold on_fst, on_snd.
  pose proof (Append_items_ok es bi). destruct (Append_items es bi) as [[]]; simplify_eq/=.
  pose proof (putUint_ok bytesKey (u64 (getUint bm bytesKey + total)) bm).
  destruct (putUint bytesKey _ bm) as [[] bm2]; simplify_eq/=.
  pose proof (putUint_ok countKey (u64 (getUint bm2 countKey + Z.of_nat (length es))) bm2).
  by destruct (putUint countKey _ bm2) as [[] bm3]; simplify_eq/=.
Qed.

(** [Append_result]: on a file that works, [Append] accepts every batch that is
    acceptable and fits, refuses one that does not fit with [ErrFull], and one
    with an unacceptable entry with [ErrTooLarge] or the NUL error. *)
Theorem Append_result b es d q : rep b q (stored d) → bytes_of q + sizes es < 2 ^ 64 →
  (Forall (acceptable b) es → (Append b es d).1 =
     if decide (bytes_of q + sizes es ≤ max b) then Ok () else Err ErrFull) ∧
  (¬ Forall (acceptable b) es →
     (Append b es d).1 = Err ErrTooLarge ∨ (Append b es d).1 = Err ErrNUL).
Proof.
  intros Hrep Hsz. unfold Append. run_unfold. pose proof (bytes_of_nonneg q).
  destruct (Append_total b es 0) as [t|e] eqn:Ht.
  - apply Append_total_spec in Ht as [[= ->] Hacc]; [|lia..]. split; [intros _|done].
    rewrite Update_ok, Append_tx_result, (rep_bytes _ _ _ Hrep).
    pose proof (sizes_nonneg es). rewrite Z.add_0_l, u64_small by (unfold is_u64; lia).
    destruct (Z.ltb_spec (max b) (bytes_of q + sizes es)); case_decide; done || lia.
  - split; intros Hacc.
    + apply Append_total_spec in Ht; [done|lia..].
    + revert Ht. clear. generalize 0. induction es as [|x es IH]; simpl; [done|].
      intros z. destruct (Contains _ _); [intros [= <-]; by right|].
      destruct (_ <? _); [intros [= <-]; by left|apply IH].
Qed.

Lemma Remove_loop_ok q fuel upTo c by0 b : (length q < fuel)%nat →
  pairs b = enc <$> q → StronglySorted (λ i j, Seq i < Seq j) q →
  Forall (λ j, is_u64 (Seq j)) q → is_ok (Remove_loop fuel upTo c by0 b).1 = true.
Proof.
  revert q c by0 b. induction fuel as [|fuel IH]; intros q c by0 b Hf Hp Hs Hu; [lia|].
  cbn [Remove_loop]. unfold gets, mbind, M_bind. rewrite c_First_law, Hp.
  destruct q as [|i q]; cbn [fmap list_fmap head]; unfold enc; cbn iota beta; [done|].
  destruct (_ <=? _); [|done].
  pose proof (Delete_ok (encodeKey (Seq i)) b) as Hd.
  destruct (c_Delete _ b) as [[[]|] b1] eqn:Hdel; [|done].
  apply c_Delete_law in Hdel as [Hp1 _]. rewrite Hp, kv_delete_enc in Hp1 by done.
  apply (IH q); [simpl in Hf; lia|done|by inversion Hs|by inversion Hu].
Qed.

(** [Remove_succeeds]: on a file that works, [Remove] terminates without an
    error: one round of its loop per stored pair is enough. *)
Theorem Remove_succeeds b upTo q d : rep b q (stored d) → (Remove upTo d).1 = Ok ().
Proof.
  intros Hrep. unfold Remove. rewrite Update_ok.
  pose proof (rep_u64 _ _ _ Hrep) as Hu. destruct Hrep as [Hp Hs _ _ _ _ _ _].
  destruct (stored d) as [bi bm]. unfold Remove_tx, gets, on_fst, on_snd, mbind, M_bind, mret, M_ret.
  cbn [fst snd] in *. pose proof (Remove_loop_ok q (S (length (pairs bi))) upTo 0 0 bi) as Hok.
  destruct (Remove_loop _ _ _ _ bi) as [[[c by']|] bi'].
  - destruct (c =? 0); [done|].
    pose proof (putUint_ok bytesKey (u64 (getUint bm bytesKey - by')) bm).
    destruct (putUint bytesKey _ bm) as [[] bm2]; simplify_eq/=.
    pose proof (putUint_ok countKey (u64 (getUint bm2 countKey - c)) bm2).
    by destruct (putUint countKey _ bm2) as [[] bm3]; simplify_eq/=.
  - rewrite Hp, length_fmap in Hok. discriminate Hok; done || lia.
Qed.
End progress.

(** ** A file in memory

    The interface can be implemented: a bucket is its sorted pairs and its counter. *)
Module MemFile.
Record bucket := Mk { kvs : list (string * string); seq : Z }.

#[export] Program Instance file : Bolt bucket (bucket * bucket) := {|
  b_Get k b := default "" (kv_get k (kvs b));
  b_Put k v := λ b, (Ok (), Mk (kv_insert k v (kvs b)) (seq b));
  b_NextSequence := λ b, let n := u64 (seq b + 1) in (Ok n, Mk (kvs b) n);
  c_First b := head (kvs b);
  c_Next k b := kv_after k (kvs b);
  c_Delete k := λ b, (Ok (), Mk (filter (λ p, p.1 ≠ k) (kvs b)) (seq b));
  db_View := λ d, (Ok d, d);
  db_Update f := λ d, match f d with
                      | (Ok _, d') => (Ok (), d')
                      | (Err e, _) => (Err e, d)
                      end;
  pairs := kvs; sequence := seq; stored d := d;
|}.
Solve Obligations with (simpl; intros; repeat case_match; naive_solver).

#[export] Instance file_works : Working bucket (bucket * bucket).
Proof. split; simpl; try done. intros f d. by destruct (f d) as [[[]|]]. Qed.

Definition empty : bucket * bucket := (Mk [] 0, Mk [] 0).

Lemma rep_empty m : 0 ≤ m < 2 ^ 64 → rep (MkBuffer m) [] empty.
Proof. intros. split; simpl; try done; constructor. Qed.
End MemFile.

(** ** Witnesses *)

Section witnesses.
Import MemFile.
#[local] Existing Instance file.
#[local] Existing Instance file_works.

Definition demo : list Entry := [MkEntry "a" "xx"; MkEntry "b" "yyy"].
Definition full : bucket * bucket := (Append (MkBuffer 8) demo empty).2.

Lemma Append_refines_witness : ∃ new, entry <$> new = demo ∧ rep (MkBuffer 8) new full.
Proof.
  assert (Append (MkBuffer 8) demo empty = (Ok (), full)) as H by (by vm_compute).
  apply (Append_refines (MkBuffer 8) demo empty _ full []) in H as (_ & _ & new & H1 & H2);
    [by exists new|by apply rep_empty|done|done].
Defined.

Definition full_queue : list Item :=
  [MkItem 1 (MkEntry "a" "xx"); MkItem 2 (MkEntry "b" "yyy")].

Lemma rep_full : rep (MkBuffer 8) full_queue (stored full).
Proof.
  split; try (vm_compute; done || (split; [discriminate|done])).
  - repeat constructor.
  - repeat constructor; done.
  - repeat constructor.
Qed.

Lemma Peek_refines_witness :
  ∃ items, (Peek 1 full).1 = Ok items ∧ items = take (Z.to_nat 1) full_queue.
Proof.
  destruct (Peek 1 full) as [[items|e] d'] eqn:E; [|by vm_compute in E]. exists items.
  split; [done|]. by apply (Peek_refines (MkBuffer 8) full_queue 1 full (Ok items) d' rep_full E).
Defined.

Lemma Remove_refines_witness :
  rep (MkBuffer 8) (filter (λ i, 1 < Seq i) full_queue) (stored (Remove 1 full).2).
Proof.
  assert (Remove 1 full = (Ok (), (Remove 1 full).2)) as E by (by vm_compute).
  exact (Remove_refines (MkBuffer 8) 1 full_queue full (Ok ()) _ rep_full E).
Defined.

Lemma Append_result_witness : (Append (MkBuffer 8) demo full).1 = Err ErrFull.
Proof.
  destruct (Append_result (MkBuffer 8) demo full full_queue rep_full eq_refl) as [H _].
  rewrite H; [by vm_compute|]. repeat constructor; by vm_compute.
Defined.

Lemma Remove_succeeds_witness : (Remove 1 full).1 = Ok ().
Proof. exact (Remove_succeeds (MkBuffer 8) 1 full_queue full rep_full). Defined.
End witnesses.
