(* ===== verification/Publisher.v ===== *)
(** The publisher of the coordinator (pkg/coordinator/publisher.go).

    [Stream] is the interface of the JetStream client. [publish], [drain] and the
    functions around them are translated over it and over the buffer of Buffer.v.
    [PublisherSystem] interleaves one [publish] at a time (they hold a mutex) with
    the drain loop, which does not, at the granularity of single sends and buffer
    operations; its theorems say that order is kept and that nothing accepted is
    lost, whatever fails. The code's functions are runs of that system. *)
From S2P Require Import Prelude Strings Bytes Wire State Buffer.
#[local] Open Scope Z_scope.

(** ** The stream *)

(** [js_Publish subject id data]; [log] is what the stream stored, oldest first. The
    server may drop a message whose identifier it stored before, and an
    acknowledgement may be lost after the message was stored. *)
Class Stream (N : Type) `{!Clock N} := {
  js_Publish : string → string → string → M N ();
  IsConnected : N → bool;
  MaxPayload : N → Z;
  log : N → list Entry;
  js_Publish_law subject id data n r n' : js_Publish subject id data n = (r, n') →
    (log n' = log n ∨ log n' = log n ++ [MkEntry id data]) ∧
    (r = Ok () → MkEntry id data ∈ log n');
  tick_log n : log (tick n).2 = log n;
}.

Definition errNotConnected : error := errors_New "not connected to NATS".
Definition ErrBackpressure : error := sentinel "coordinator.ErrBackpressure"
  "coordinator: the stream is unavailable and the local buffer is full".
Definition ErrMessageTooLarge : error := sentinel "coordinator.ErrMessageTooLarge"
  "coordinator: message is larger than the stream accepts".

Record PublisherConfig := MkPublisherConfig {
  Subject : string;
  Timeout : Z;
  Retry : Z;
  CongestedAt : Z;
}.

Definition Second : Z := 1000000000.

(** The checks and defaults of [NewPublisher]. *)
Definition NewPublisher_config (cfg : PublisherConfig) : res PublisherConfig :=
  if decide (Subject cfg = "") then Err (errors_New "coordinator: publisher needs a subject")
  else Ok (MkPublisherConfig (Subject cfg)
    (if Timeout cfg <=? 0 then 5 * Second else Timeout cfg)
    (if Retry cfg <=? 0 then Second else Retry cfg)
    (if (CongestedAt cfg =? 0) || (100 <? CongestedAt cfg) then 50 else CongestedAt cfg)).

(** The immutable fields of [Publisher]. *)
Record Publisher := MkPublisher { cfg : PublisherConfig; buf : Buffer; pid : string }.

(** The rest of [Publisher], with the connection and the file. *)
Record world (N D : Type) := MkWorld {
  net : N;
  file : D;
  pseq : Z;
  wake : bool;
  failing : bool;
  published : Z;
  lastErr : string;
  lastAt : Z;
}.
Arguments MkWorld {_ _}. Arguments net {_ _}. Arguments file {_ _}.
Arguments pseq {_ _}. Arguments wake {_ _}. Arguments failing {_ _}.
Arguments published {_ _}. Arguments lastErr {_ _}. Arguments lastAt {_ _}.

Record PublisherHealth := MkPublisherHealth {
  Connected : bool;
  Failing : bool;
  Congested : bool;
  Buffered : Z;
  BufferedBytes : Z;
  BufferMax : Z;
  Published : Z;
  LastError : string;
  LastErrorTime : string;
}.

Section publisher.
Context {B D N : Type} `{!Bolt B D, !Clock N, !Stream N}.
(** [json.Marshal] on the tree of a message, [time.Format]. *)
Context (Marshal : json → res string) (Format : Z → string).
#[local] Abbreviation W := (world N D).

Definition set_net (n : N) (w : W) : W :=
  MkWorld n (file w) (pseq w) (wake w) (failing w) (published w) (lastErr w) (lastAt w).
Definition set_file (d : D) (w : W) : W :=
  MkWorld (net w) d (pseq w) (wake w) (failing w) (published w) (lastErr w) (lastAt w).
Definition on_net {A} : M N A → M W A := zoom net set_net.
Definition on_file {A} : M D A → M W A := zoom file set_file.

Definition set_wake : M W () := modify (λ w,
  MkWorld (net w) (file w) (pseq w) true (failing w) (published w) (lastErr w) (lastAt w)).
Definition store_failing (b : bool) : M W () := modify (λ w,
  MkWorld (net w) (file w) (pseq w) (wake w) b (published w) (lastErr w) (lastAt w)).
Definition count_published : M W () := modify (λ w,
  MkWorld (net w) (file w) (pseq w) (wake w) (failing w) (u64 (published w + 1))
    (lastErr w) (lastAt w)).
Definition store_lastErr (e : string) (t : Z) : M W () := modify (λ w,
  MkWorld (net w) (file w) (pseq w) (wake w) (failing w) (published w) e t).

Definition checkSize (data : string) : M W () :=
  limit ← gets (λ w, MaxPayload (net w));
  if (0 <? limit) && (limit <? len data) then
    throw (wrap "" ErrMessageTooLarge (": " +:+ FormatUint (len data) +:+
      " bytes, limit " +:+ FormatUint limit))
  else mret ().

(** [p.seq.Add(1)] and the identifier. *)
Definition nextID (p : Publisher) : M W string :=
  modify (λ w, MkWorld (net w) (file w) (u64 (pseq w + 1)) (wake w) (failing w)
    (published w) (lastErr w) (lastAt w));;
  gets (λ w, pid p +:+ String "-" (FormatUint (pseq w))).

Definition noteFailure (e : error) : M W () :=
  store_failing true;;
  t ← on_net now;
  store_lastErr (err_text e) t.

(** [send]: an expired context is one of the failures of [js_Publish]. *)
Definition send (p : Publisher) (id data : string) : M W () :=
  r ← try (on_net (js_Publish (Subject (cfg p)) id data));
  match r with
  | Ok _ => store_failing false
  | Err e => throw e
  end.

(** The second half of [publish]. *)
Definition park (p : Publisher) (id data : string) : M W () :=
  r ← try (on_file (Append (buf p) [MkEntry id data]));
  match r with
  | Err e => if errors_Is e ErrFull then throw ErrBackpressure else throw e
  | Ok _ => set_wake
  end.

Definition publish (p : Publisher) (id data : string) : M W () :=
  st ← on_file (Stats_ (buf p));
  if Count st =? 0 then
    connected ← gets (λ w, IsConnected (net w));
    if negb connected then noteFailure errNotConnected;; park p id data
    else
      r ← try (send p id data);
      match r with
      | Ok _ => count_published
      | Err e => noteFailure e;; park p id data
      end
  else park p id data.

Definition Publish (p : Publisher) (m : Message) : M W () :=
  data ← lift (Marshal (Encode m));
  checkSize data;;
  id ← nextID p;
  publish p id data.

(** The documents with an identifier of their own. *)
Definition stamp (id : string) (docs : list Wire.Doc) : list Wire.Doc :=
  imap (λ i d, if decide (doc_ID d = "")
               then MkDoc (id +:+ String "-" (FormatUint (Z.of_nat i))) (doc_Doc d)
               else d) docs.

Definition PublishDocs (p : Publisher) (index : string) (docs : list Wire.Doc) : M W () :=
  id ← nextID p;
  data ← lift (Marshal (Encode (NewDocs index (stamp id docs))));
  checkSize data;;
  publish p id data.

(** The loop of [drain] over the peeked items: [Some last] when all were sent,
    [None] after a failure, when what was sent has been removed. *)
Fixpoint drain_items (p : Publisher) (items : list Item) (last : Z) : M W (option Z) :=
  match items with
  | [] => mret (Some last)
  | it :: items =>
      r ← try (send p (ID (entry it)) (Data (entry it)));
      match r with
      | Err e =>
          noteFailure e;;
          (if 0 <? last then ignore (on_file (Remove last)) else mret ());;
          mret None
      | Ok _ => count_published;; drain_items p items (Seq it)
      end
  end.

(** One round of the loop of [drain]; the result tells whether it goes on. *)
Definition drain_round (p : Publisher) : M W bool :=
  r ← try (on_file (Peek 64));
  match r with
  | Err e => noteFailure e;; mret false
  | Ok [] => mret false
  | Ok items =>
      l ← drain_items p items 0;
      match l with
      | None => mret false
      | Some last =>
          rm ← try (on_file (Remove last));
          match rm with
          | Err e => noteFailure e;; mret false
          | Ok _ => mret true
          end
      end
  end.

(** [drain]: [rounds] is how often [ctx.Err() == nil] before the context ends. *)
Fixpoint drain (p : Publisher) (rounds : nat) : M W () :=
  match rounds with
  | O => mret ()
  | S rounds =>
      more ← drain_round p;
      if (more : bool) then drain p rounds else mret ()
  end.

Definition Health (p : Publisher) : M W PublisherHealth :=
  st ← on_file (Stats_ (buf p));
  w ← get_state;
  let shown := negb (bool_decide (lastErr w = "")) && (failing w || (0 <? Count st)) in
  mret (MkPublisherHealth (IsConnected (net w)) (failing w)
    (u64 (MaxBytes st * CongestedAt (cfg p)) <=? u64 (Bytes st * 100))
    (Count st) (Bytes st) (MaxBytes st) (published w)
    (if shown then lastErr w else "") (if shown then Format (lastAt w) else "")).
End publisher.

(** ** First occurrences *)

#[export] Instance Entry_eq_dec : EqDecision Entry.
Proof. solve_decision. Defined.

Definition first_occ (l : list Entry) : list Entry :=
  foldl (λ acc m, if decide (m ∈ acc) then acc else acc ++ [m]) [] l.

Lemma first_occ_snoc l m :
  first_occ (l ++ [m]) = if decide (m ∈ first_occ l) then first_occ l else first_occ l ++ [m].
Proof. unfold first_occ. by rewrite foldl_app. Qed.

Lemma elem_of_first_occ l m : m ∈ first_occ l ↔ m ∈ l.
Proof.
  induction l as [|x l IH] using rev_ind; [done|].
  rewrite first_occ_snoc. case_decide; set_solver.
Qed.

(** ** The interleaved system *)

Module PublisherSystem.
Inductive ppc :=
| PIdle
| PChecking (m : Entry)  (** has the mutex *)
| PSending (m : Entry)  (** saw an empty buffer *)
| PParking (m : Entry).

Inductive dpc :=
| DIdle
| DSending (items : list Item) (last : Z)
| DRemoving (last : Z).

Record state := Mk {
  strm : list Entry;
  queue : list Item;
  offered : list Entry;  (** in the order they got the mutex *)
  accepted : list Entry;  (** those [publish] returned nil for *)
  pub : ppc;
  drn : dpc;
}.

(** One attempt to put [m] on the stream: with or without an effect. *)
Definition attempt (m : Entry) (l l' : list Entry) : Prop := l' = l ∨ l' = l ++ [m].

Definition kept (last : Z) (q : list Item) : list Item := filter (λ i, last < Seq i) q.

Inductive step : state → state → Prop :=
| step_offer l q o a d m : ID m ∉ ID <$> o →
    step (Mk l q o a PIdle d) (Mk l q (o ++ [m]) a (PChecking m) d)
| step_direct l o a d m :
    step (Mk l [] o a (PChecking m) d) (Mk l [] o a (PSending m) d)
| step_park l q o a d m :
    step (Mk l q o a (PChecking m) d) (Mk l q o a (PParking m) d)
| step_send l l' q o a d m : attempt m l l' → m ∈ l' →
    step (Mk l q o a (PSending m) d) (Mk l' q o (a ++ [m]) PIdle d)
| step_send_fail l l' q o a d m : attempt m l l' →
    step (Mk l q o a (PSending m) d) (Mk l' q o a (PParking m) d)
| step_append l q o a d m n : 0 < n → Forall (λ i, Seq i < n) q →
    step (Mk l q o a (PParking m) d) (Mk l (q ++ [MkItem n m]) o (a ++ [m]) PIdle d)
| step_refuse l q o a d p :  (** an error return, or a crash *)
    step (Mk l q o a p d) (Mk l q o a PIdle d)
| step_peek l q o a p k :
    step (Mk l q o a p DIdle) (Mk l q o a p (DSending (take k q) 0))
| step_drain_send l l' q o a p i items last : attempt (entry i) l l' → entry i ∈ l' →
    step (Mk l q o a p (DSending (i :: items) last))
         (Mk l' q o a p (DSending items (Seq i)))
| step_drain_fail l l' q o a p i items last : attempt (entry i) l l' →
    step (Mk l q o a p (DSending (i :: items) last)) (Mk l' q o a p (DRemoving last))
| step_drain_done l q o a p last :
    step (Mk l q o a p (DSending [] last)) (Mk l q o a p (DRemoving last))
| step_remove l q o a p last :
    step (Mk l q o a p (DRemoving last)) (Mk l (kept last q) o a p DIdle)
| step_stop l q o a p d :  (** a failed removal, the end of the context, a crash *)
    step (Mk l q o a p d) (Mk l q o a p DIdle).

Definition init : state := Mk [] [] [] [] PIdle DIdle.

(** What is still to be stored for the first time, in order: the parked messages
    the stream does not have, and the one being published. *)
Definition fresh (l : list Entry) (q : list Item) : list Entry :=
  filter (λ m, m ∉ l) (entry <$> q).

Definition current (p : ppc) : list Entry :=
  match p with
  | PIdle => []
  | PChecking m | PSending m | PParking m => [m]
  end.

Definition pending (l : list Entry) (q : list Item) (p : ppc) : list Entry :=
  fresh l q ++ filter (λ m, m ∉ l) (current p).

Definition sorted : list Item → Prop := StronglySorted (λ i j, Seq i < Seq j).

Definition last_ok (last : Z) (l : list Entry) (q : list Item) : Prop :=
  (last = 0 ∨ last ∈ Seq <$> q) ∧ ∀ i, i ∈ q → Seq i ≤ last → entry i ∈ l.

Definition drained (l : list Entry) (q : list Item) (d : dpc) : Prop :=
  match d with
  | DIdle => True
  | DSending items last => last_ok last l q ∧ items `prefix_of` kept last q
  | DRemoving last => last_ok last l q
  end.

Record inv (s : state) : Prop := {
  inv_nodup : NoDup (ID <$> offered s);
  inv_sorted : sorted (queue s);
  inv_pos : Forall (λ i, 0 < Seq i) (queue s);
  inv_order : (first_occ (strm s) ++ pending (strm s) (queue s) (pub s))
                `sublist_of` offered s;
  inv_closed : ∀ i j, i ∈ queue s → j ∈ queue s → Seq i < Seq j →
                entry j ∈ strm s → entry i ∈ strm s;
  inv_current : ∀ m, m ∈ current (pub s) → m ∈ strm s ∨ pub s = PSending m → queue s = [];
  inv_accepted : ∀ m, m ∈ accepted s → m ∈ strm s ∨ m ∈ entry <$> queue s;
  inv_acc_order : (accepted s ++ current (pub s)) `sublist_of` offered s;
  inv_drained : drained (strm s) (queue s) (drn s);
}.

(** *** The lists of the invariant *)

Lemma kept_cons last q i r : kept last q = i :: r → sorted q →
  ∃ pre, q = pre ++ i :: r ∧ (∀ j, j ∈ pre → Seq j ≤ last) ∧ last < Seq i.
Proof.
  unfold kept. intros H Hs. induction Hs as [|j q Hs IH Hj]; [done|].
  rewrite filter_cons in H. case_decide.
  - simplify_eq. exists []. rewrite filter_all; [set_solver|].
    eapply Forall_impl; [exact Hj|]. simpl. lia.
  - destruct (IH H) as (pre & -> & Hpre & ?). exists (j :: pre). split; [done|].
    split; [|done]. intros x [->|Hx]%elem_of_cons; [lia|auto].
Qed.

Lemma kept_after pre i post last : sorted (pre ++ i :: post) → last < Seq i →
  (∀ j, j ∈ pre → Seq j ≤ last) → kept (Seq i) (pre ++ i :: post) = post.
Proof.
  intros (H1 & _ & [_ H2]%StronglySorted_inv)%StronglySorted_app Hl Hpre. unfold kept.
  rewrite filter_app, filter_none, filter_cons_False, filter_all; [done|done|lia|].
  rewrite Forall_forall. intros j Hj. specialize (Hpre j Hj). lia.
Qed.

Lemma pending_nodup l q p o : (first_occ l ++ pending l q p) `sublist_of` o →
  NoDup (ID <$> o) → NoDup (pending l q p).
Proof.
  intros Hsub Ho. apply NoDup_fmap_1 in Ho.
  eapply sublist_NoDup in Ho; [|exact Hsub]. by apply NoDup_app in Ho as (_ & _ & ?).
Qed.

(** The next message reaches the stream for the first time. *)
Lemma pending_store l q p o m rest : (first_occ l ++ pending l q p) `sublist_of` o →
  NoDup (ID <$> o) → m ∉ l → pending l q p = m :: rest →
  (first_occ (l ++ [m]) ++ pending (l ++ [m]) q p) `sublist_of` o.
Proof.
  intros Hsub Ho Hm Hp. pose proof (pending_nodup _ _ _ _ Hsub Ho) as Hnd.
  assert (pending (l ++ [m]) q p = filter (λ x, x ≠ m) (pending l q p)) as ->.
  { unfold pending, fresh. rewrite filter_app, !list_filter_filter.
    f_equal; apply list_filter_iff; set_solver. }
  rewrite first_occ_snoc, decide_False by (by rewrite elem_of_first_occ).
  rewrite Hp in *. apply NoDup_cons in Hnd as [Hr _].
  rewrite filter_cons_False, filter_all by (naive_solver || (rewrite Forall_forall; set_solver)).
  by rewrite <- app_assoc.
Qed.

(** A message the stream stores again changes nothing the invariant sees. *)
Lemma inv_stored_again l l' q o a p d m : inv (Mk l q o a p d) → m ∈ l →
  attempt m l l' → inv (Mk l' q o a p d).
Proof.
  intros Hi Hm [->| ->]; [done|].
  assert (∀ x, x ∈ l ++ [m] ↔ x ∈ l) as Hl by set_solver.
  assert (first_occ (l ++ [m]) = first_occ l) as Hf.
  { rewrite first_occ_snoc, decide_True; [done|]. by rewrite elem_of_first_occ. }
  assert (pending (l ++ [m]) q p = pending l q p) as Hp.
  { unfold pending, fresh. f_equal; apply list_filter_iff; intros; by rewrite Hl. }
  destruct Hi as [H1 H2 H3 H4 H5 H6 H7 H8 H9].
  split; cbn [strm queue offered accepted pub drn] in *; setoid_rewrite Hl || idtac; try done.
  - by rewrite Hf, Hp.
  - unfold drained, last_ok in *. destruct d; try setoid_rewrite Hl; done.
Qed.

Lemma pending_idle l q : pending l q PIdle = fresh l q.
Proof. unfold pending. simpl. by rewrite filter_nil, app_nil_r. Qed.

Lemma pending_new l q p m : current p = [m] → m ∉ l → pending l q p = fresh l q ++ [m].
Proof. intros Hp Hm. unfold pending. by rewrite Hp, filter_cons_True. Qed.

Lemma publisher_inv_init : inv init.
Proof. split; simpl; try done; try constructor; set_solver. Qed.

Lemma elem_of_pending_stored l q p o m : (first_occ l ++ pending l q p) `sublist_of` o →
  m ∈ l → m ∈ o.
Proof.
  intros Hsub Hm. eapply elem_of_sublist; [|exact Hsub].
  apply elem_of_app. left. by rewrite elem_of_first_occ.
Qed.

Lemma inv_offer l q o a d m : ID m ∉ ID <$> o → inv (Mk l q o a PIdle d) →
  inv (Mk l q (o ++ [m]) a (PChecking m) d).
Proof.
  intros Hm [H1 H2 H3 H4 H5 H6 H7 H8 H9].
  split; cbn [strm queue offered accepted pub drn] in *; try done.
  - rewrite fmap_app. apply NoDup_app. split_and!; [done| |apply NoDup_singleton].
    intros x Hx ->%list_elem_of_singleton. done.
  - rewrite pending_idle in H4. rewrite (pending_new _ _ _ m), app_assoc; [|done|].
    { by apply sublist_app. }
    intros Hl. apply Hm, list_elem_of_fmap_2.
    eapply (elem_of_pending_stored _ q PIdle); [|exact Hl]. by rewrite pending_idle.
  - intros x Hx%list_elem_of_singleton [Hl|?]; [|done]. subst x. destruct Hm.
    apply list_elem_of_fmap_2. by eapply elem_of_pending_stored.
  - simpl in *. rewrite app_nil_r in H8. by apply sublist_app.
Qed.

(** The direct send of a message that is new to the stream. *)
Lemma inv_send l o a d m p : inv (Mk l [] o a p d) → current p = [m] → m ∉ l →
  inv (Mk (l ++ [m]) [] o a p d).
Proof.
  intros [H1 H2 H3 H4 H5 H6 H7 H8 H9] Hp Hm.
  split; cbn [strm queue offered accepted pub drn] in *; try done; try set_solver.
  - eapply pending_store; [done..|]. by rewrite (pending_new _ _ _ m).
  - unfold drained, last_ok in *. destruct d; set_solver.
Qed.

(** The publication ends; [a'] is accepted. *)
Lemma inv_end l q o a a' p d : inv (Mk l q o a p d) →
  a' `sublist_of` (a ++ current p) →
  (∀ m, m ∈ a' → m ∈ a ∨ m ∈ l) → inv (Mk l q o a' PIdle d).
Proof.
  intros [H1 H2 H3 H4 H5 H6 H7 H8 H9] Ha Hin.
  split; cbn [strm queue offered accepted pub drn] in *; try done; try set_solver.
  - etrans; [|exact H4]. rewrite pending_idle. unfold pending.
    apply sublist_app; [done|]. by apply sublist_inserts_r.
  - simpl. rewrite app_nil_r. by etrans.
Qed.

Lemma inv_repub l q o a p p' d : inv (Mk l q o a p d) → current p' = current p →
  (∀ m, p' = PSending m → q = []) → inv (Mk l q o a p' d).
Proof.
  intros [H1 H2 H3 H4 H5 H6 H7 H8 H9] Hp Hs.
  split; cbn [strm queue offered accepted pub drn] in *; rewrite ?Hp; try done.
  - unfold pending. by rewrite Hp.
  - intros m Hm [?| ->]; [eauto|by eapply Hs].
Qed.

Lemma inv_redrain l q o a p d d' : inv (Mk l q o a p d) → drained l q d' →
  inv (Mk l q o a p d').
Proof. intros [H1 H2 H3 H4 H5 H6 H7 H8 H9] Hd. by split. Qed.

Lemma fresh_app l q1 q2 : fresh l (q1 ++ q2) = fresh l q1 ++ fresh l q2.
Proof. unfold fresh. by rewrite fmap_app, filter_app. Qed.

Lemma last_ok_append last l q n m : 0 < n → Forall (λ i, Seq i < n) q →
  last_ok last l q → last < n ∧ last_ok last l (q ++ [MkItem n m]).
Proof.
  intros Hn Hq [Hl Hin]. assert (last < n).
  { destruct Hl as [->|(i & -> & Hi)%list_elem_of_fmap]; [done|].
    rewrite Forall_forall in Hq. by apply Hq. }
  split; [done|]. split; [set_solver|].
  intros i [Hi| ->%list_elem_of_singleton]%elem_of_app; [auto|simpl; lia].
Qed.

Lemma inv_append l q o a d m n : 0 < n → Forall (λ i, Seq i < n) q →
  inv (Mk l q o a (PParking m) d) →
  inv (Mk l (q ++ [MkItem n m]) o (a ++ [m]) PIdle d).
Proof.
  intros Hn Hq [H1 H2 H3 H4 H5 H6 H7 H8 H9].
  assert (m ∈ l → q = []) as Hml by (intros; apply (H6 m); [by left|by left]).
  assert (∀ i, i ∈ q → Seq i < n) as Hq' by by rewrite Forall_forall in Hq.
  split; cbn [strm queue offered accepted pub drn] in *; try done.
  - apply StronglySorted_app_2; [|done|repeat constructor].
    by intros i j Hi ->%list_elem_of_singleton; apply Hq'.
  - apply Forall_app_2; [done|by repeat constructor].
  - rewrite pending_idle, fresh_app. destruct (decide (m ∈ l)) as [Hl|Hl].
    + etrans; [|exact H4]. rewrite Hml by done. apply sublist_app; [done|].
      unfold fresh at 2. rewrite fmap_cons. rewrite filter_cons_False by (simpl; tauto).
      apply sublist_nil_l.
    + rewrite (pending_new _ _ _ m) in H4 by done. unfold fresh at 2.
      by rewrite fmap_cons, filter_cons_True.
  - intros i j [Hi| ->%list_elem_of_singleton]%elem_of_app
      [Hj| ->%list_elem_of_singleton]%elem_of_app Hlt Hin; simpl in *.
    + by eapply H5.
    + rewrite (Hml Hin) in Hi. set_solver.
    + specialize (Hq' _ Hj). lia.
    + lia.
  - simpl. set_solver.
  - intros x [Hx| ->%list_elem_of_singleton]%elem_of_app; rewrite fmap_app, elem_of_app;
      [destruct (H7 x Hx)|]; [by left|by right; left|right; right; by left].
  - simpl in *. by rewrite app_nil_r.
  - destruct d as [|items last|last]; simpl in *; [done| |by apply last_ok_append].
    destruct H9 as [Hl Hp]. apply (last_ok_append _ _ _ n m) in Hl as [? ?]; [|done..].
    split; [done|]. unfold kept. rewrite filter_app. by apply prefix_app_r.
Qed.

(** What the drain loop sends next is the oldest message the stream does not have,
    or one that it has. *)
Lemma inv_drain_send l l' q o a p i items last : attempt (entry i) l l' →
  inv (Mk l q o a p (DSending (i :: items) last)) →
  inv (Mk l' q o a p (DSending (i :: items) last)).
Proof.
  intros Hatt Hi. destruct (decide (entry i ∈ l)) as [Hl|Hl].
  { by eapply inv_stored_again. }
  destruct Hatt as [->| ->]; [done|].
  pose proof Hi as [H1 H2 H3 H4 H5 H6 H7 H8 [[Hlast Hin] [r Hk]]].
  cbn [strm queue offered accepted pub drn] in *. simpl in Hk.
  destruct (kept_cons _ _ _ _ Hk H2) as (pre & Hq & Hpre & Hlt).
  assert (∀ j, j ∈ pre → entry j ∈ l) as Hprel.
  { intros j Hj. apply Hin; [subst q; set_solver|by apply Hpre]. }
  assert (fresh l q = entry i :: fresh l (items ++ r)) as Hf.
  { rewrite Hq, fresh_app. unfold fresh. rewrite filter_none, fmap_cons.
    { by rewrite filter_cons_True. }
    rewrite Forall_fmap, Forall_forall. simpl. intros j Hj. specialize (Hprel j Hj). tauto. }
  assert (pending l q p = entry i :: fresh l (items ++ r) ++ filter (λ m, m ∉ l) (current p))
    as Hp by (unfold pending; by rewrite Hf).
  split; cbn [strm queue offered accepted pub drn]; try done.
  - by eapply pending_store.
  - intros x y Hx Hy Hxy [Hyl|Hyi%list_elem_of_singleton]%elem_of_app.
    { apply elem_of_app. left. by eapply H5. }
    assert (y = i) as ->; [|apply elem_of_app; left; subst q].
    { pose proof (pending_nodup _ _ _ _ H4 H1) as Hnd. rewrite Hp in Hnd.
      apply NoDup_cons in Hnd as [Hnd _]. subst q.
      apply elem_of_app in Hy as [Hy|[->|Hy]%elem_of_cons]; [|done|].
      - specialize (Hprel _ Hy). congruence.
      - destruct Hnd. apply elem_of_app. left. rewrite <- Hyi.
        apply list_elem_of_filter. split; [congruence|by apply list_elem_of_fmap_2]. }
    apply elem_of_app in Hx as [Hx|Hx]; [by apply Hprel|].
    apply StronglySorted_app in H2 as (_ & _ & [_ Hs]%StronglySorted_inv).
    rewrite Forall_forall in Hs. apply elem_of_cons in Hx as [->|Hx]; [lia|].
    specialize (Hs x Hx). simpl in Hs. lia.
  - intros m Hm [Hml|?]; [|by eauto]. apply elem_of_app in Hml as [?|Hmi%list_elem_of_singleton].
    + eauto.
    + exfalso. subst m. pose proof (pending_nodup _ _ _ _ H4 H1) as Hnd. rewrite Hp in Hnd.
      apply NoDup_cons in Hnd as [Hnd _]. destruct Hnd. apply elem_of_app. right.
      by apply list_elem_of_filter.
  - intros x Hx. destruct (H7 x Hx); [left; set_solver|by right].
  - split; [|by exists r]. split; [done|]. intros j Hj Hle. apply elem_of_app. left. auto.
Qed.

Lemma inv_remove l q o a p last : inv (Mk l q o a p (DRemoving last)) →
  inv (Mk l (kept last q) o a p DIdle).
Proof.
  intros [H1 H2 H3 H4 H5 H6 H7 H8 [Hlast Hin]].
  cbn [strm queue offered accepted pub drn] in *.
  assert (∀ i, i ∈ kept last q ↔ last < Seq i ∧ i ∈ q) as Hk
    by (intros; unfold kept; by rewrite list_elem_of_filter).
  split; cbn [strm queue offered accepted pub drn]; try done.
  - by apply StronglySorted_filter.
  - rewrite Forall_forall in *. intros i [_ Hi]%Hk. auto.
  - etrans; [|exact H4]. apply sublist_app; [done|]. apply sublist_app; [|done].
    unfold fresh. apply filter_sublist, fmap_sublist, sublist_filter.
  - intros i j [_ Hi]%Hk [_ Hj]%Hk. by apply H5.
  - intros m Hm Hor. by rewrite (H6 m Hm Hor).
  - intros m Hm. destruct (H7 m Hm) as [?|(i & -> & Hi)%list_elem_of_fmap]; [by left|].
    destruct (decide (last < Seq i)); [right|left; apply Hin; [done|lia]].
    apply list_elem_of_fmap_2, Hk. done.
Qed.

Lemma publisher_inv_step s s' : step s s' → inv s → inv s'.
Proof.
  destruct 1 as [l q o a d m Hm|l o a d m|l q o a d m|l l' q o a d m Hatt Hin
    |l l' q o a d m Hatt|l q o a d m n Hn Hq|l q o a d p|l q o a p k
    |l l' q o a p i items last Hatt Hin|l l' q o a p i items last Hatt
    |l q o a p last|l q o a p last|l q o a p d]; intros Hi.
  - by apply inv_offer.
  - by eapply inv_repub.
  - by eapply inv_repub.
  - apply (inv_end _ _ _ a _ (PSending m)); [|done|set_solver].
    assert (q = []) as -> by (eapply (inv_current _ Hi m); [by left|by right]).
    destruct (decide (m ∈ l)); [by eapply inv_stored_again|].
    destruct Hatt as [->| ->]; [done|by apply (inv_send _ _ _ _ m)].
  - assert (q = []) as -> by (eapply (inv_current _ Hi m); [by left|by right]).
    apply (inv_repub _ _ _ _ (PSending m)); [|done..].
    destruct (decide (m ∈ l)); [by eapply inv_stored_again|].
    destruct Hatt as [->| ->]; [done|by apply (inv_send _ _ _ _ m)].
  - by apply inv_append.
  - eapply inv_end; [exact Hi|by apply sublist_inserts_r|auto].
  - eapply inv_redrain; [exact Hi|]. pose proof (inv_pos _ Hi) as Hp. simpl in *.
    rewrite Forall_forall in Hp. split; [split; [by left|]|].
    + intros i Hq ?. specialize (Hp _ Hq). lia.
    + unfold kept. rewrite filter_all by by rewrite Forall_forall. apply prefix_take.
  - apply (inv_drain_send _ l') in Hi; [|done]. eapply inv_redrain; [exact Hi|].
    destruct (inv_drained _ Hi) as [[Hl Hle] [r Hk]]. simpl in *.
    pose proof (inv_sorted _ Hi) as Hs. simpl in Hs.
    destruct (kept_cons _ _ _ _ Hk Hs) as (pre & -> & Hpre & Hlt). split; [split|].
    + right. set_solver.
    + intros j [Hj|[->|Hj]%elem_of_cons]%elem_of_app Hsj; [|done|].
      * apply Hle; [set_solver|auto].
      * apply StronglySorted_app in Hs as (_ & _ & [_ Hs]%StronglySorted_inv).
        rewrite Forall_forall in Hs. specialize (Hs j Hj). simpl in Hs. lia.
    + exists r. by eapply kept_after.
  - apply (inv_drain_send _ l') in Hi; [|done]. eapply inv_redrain; [exact Hi|].
    by apply (inv_drained _ Hi).
  - eapply inv_redrain; [exact Hi|]. by apply (inv_drained _ Hi).
  - by apply inv_remove.
  - by eapply inv_redrain.
Qed.

Lemma inv_reachable s : rtc step init s → inv s.
Proof.
  intros Hr. pose proof publisher_inv_init as Hi. induction Hr; eauto using publisher_inv_step.
Qed.

(** C12: the stream stores messages in the order they were handed
    to the publisher: their first occurrences are a part, in order, of the sequence
    in which [publish] calls got the mutex. Sends may fail or lose their
    acknowledgement, removals may fail, the drain loop runs at any time, and
    either side may die. *)
Theorem publisher_order s : rtc step init s → first_occ (strm s) `sublist_of` offered s.
Proof.
  intros Hi%inv_reachable. etrans; [|apply (inv_order _ Hi)]. by apply sublist_inserts_r.
Qed.

(** C13: a message that was accepted is in the stream or in the
    durable buffer. *)
Theorem publisher_no_loss s m : rtc step init s → m ∈ accepted s →
  m ∈ strm s ∨ m ∈ entry <$> queue s.
Proof. intros Hi%inv_reachable. apply (inv_accepted _ Hi). Qed.

(** [publisher_drained]: once the buffer is empty, the stream holds all accepted
    messages, in the order they were accepted. *)
Theorem publisher_drained s : rtc step init s → queue s = [] →
  accepted s `sublist_of` first_occ (strm s).
Proof.
  intros Hi%inv_reachable Hq. apply (sublist_of_incl _ _ (offered s)).
  - eapply NoDup_fmap_1, (inv_nodup _ Hi).
  - etrans; [|apply (inv_acc_order _ Hi)]. by apply sublist_inserts_r.
  - etrans; [|apply (inv_order _ Hi)]. by apply sublist_inserts_r.
  - intros m Hm. rewrite elem_of_first_occ.
    destruct (inv_accepted _ Hi m Hm) as [?|Hin]; [done|]. rewrite Hq in Hin. set_solver.
Qed.

(** *** The code runs in the system *)

Section runs.
Context {B D N : Type} `{!Bolt B D, !Clock N, !Stream N}.
#[local] Abbreviation W := (world N D).

Lemma send_spec p id data (w w' : W) r : send p id data w = (r, w') →
  file w' = file w ∧ attempt (MkEntry id data) (log (net w)) (log (net w')) ∧
  (r = Ok () → MkEntry id data ∈ log (net w')).
Proof.
  unfold send, on_net, zoom. intros H. run_unfold.
  destruct (js_Publish _ _ _ _) as [[[]|e] n'] eqn:E; apply js_Publish_law in E as [E1 E2];
    unfold store_failing, modify in *; simplify_eq/=; naive_solver.
Qed.

Lemma noteFailure_spec e (w w' : W) r : noteFailure e w = (r, w') →
  r = Ok () ∧ file w' = file w ∧ log (net w') = log (net w).
Proof.
  unfold noteFailure, on_net, zoom, store_failing, store_lastErr, now. intros H.
  run_unfold. pose proof (tick_log (net w)). destruct (tick (net w)). by simplify_eq/=.
Qed.

(** There is room for one more entry in the counters of the file. *)
Definition room (q : list Item) (m : Entry) (s : B * B) : Prop :=
  bytes_of q + size m < 2 ^ 64 ∧ sequence s.1 + 1 < 2 ^ 64.

(** [publish] is at the point where [ppc] is [pc], with the system's view of [w]. *)
Definition at_ (w : W) q o a pc d : state := Mk (log (net w)) q o a pc d.

Lemma park_runs p m (w w' : W) r q o a d : rep (buf p) q (stored (file w)) →
  room q m (stored (file w)) → park p (ID m) (Data m) w = (r, w') →
  ∃ q', rep (buf p) q' (stored (file w')) ∧
    rtc step (at_ w q o a (PParking m) d)
             (at_ w' q' o (if is_ok r then a ++ [m] else a) PIdle d).
Proof.
  intros Hrep [Hb Hs] H. unfold park, on_file, zoom in H. run_unfold.
  destruct (Append _ _ (file w)) as [ra d'] eqn:Ha.
  assert (MkEntry (ID m) (Data m) = m) as Hm by by destruct m.
  rewrite Hm in Ha. pose proof (Append_one _ _ _ _ _ _ Hrep Hb Hs Ha) as Hr.
  destruct ra as [[]|e].
  - destruct Hr as (n & Hn & Hlt & Hr). unfold set_wake, modify in H. simplify_eq/=.
    exists (q ++ [MkItem n m]). split; [done|]. by apply rtc_once, step_append.
  - exists q. assert (is_ok r = false ∧ log (net w') = log (net w) ∧ file w' = d')
      as (-> & Hl & ->) by (destruct (errors_Is e ErrFull); by simplify_eq/=).
    split; [done|]. unfold at_. rewrite Hl. apply rtc_once, step_refuse.
Qed.

Lemma send_runs p m (w w' : W) r q o a d : send p (ID m) (Data m) w = (r, w') →
  file w' = file w ∧
  step (at_ w q o a (PSending m) d)
       (if is_ok r then at_ w' q o (a ++ [m]) PIdle d else at_ w' q o a (PParking m) d).
Proof.
  intros (Hf & Hatt & Hin)%send_spec. assert (MkEntry (ID m) (Data m) = m) as Hm by by destruct m.
  rewrite Hm in *. split; [done|]. destruct r as [[]|e]; unfold at_; simpl.
  - apply step_send; auto.
  - by apply step_send_fail.
Qed.

(** [publish] after it read the fill level of the buffer. *)
Lemma publish_count_runs p m (w w' : W) r q o a d : rep (buf p) q (stored (file w)) →
  room q m (stored (file w)) →
  (if Z.of_nat (length q) =? 0 then
     connected ← gets (λ w, IsConnected (net w));
     if negb connected then noteFailure errNotConnected;; park p (ID m) (Data m)
     else
       r ← try (send p (ID m) (Data m));
       match r with
       | Ok _ => count_published
       | Err e => noteFailure e;; park p (ID m) (Data m)
       end
   else park p (ID m) (Data m)) w = (r, w') →
  ∃ q', rep (buf p) q' (stored (file w')) ∧
    rtc step (at_ w q o a (PChecking m) d)
             (at_ w' q' o (if is_ok r then a ++ [m] else a) PIdle d).
Proof.
  intros Hrep Hroom H.
  assert (∀ w1, file w1 = file w → log (net w1) = log (net w) → park p (ID m) (Data m) w1 = (r, w') →
    ∃ q', rep (buf p) q' (stored (file w')) ∧
      rtc step (at_ w q o a (PParking m) d)
               (at_ w' q' o (if is_ok r then a ++ [m] else a) PIdle d)) as Hpark.
  { intros w1 Hf Hl Hp. unfold at_ at 1. rewrite <- Hl. eapply park_runs; by rewrite ?Hf. }
  assert (∀ s, rtc step (at_ w q o a (PParking m) d) s → rtc step (at_ w q o a (PChecking m) d) s)
    as Hskip by (intros s; apply rtc_l, step_park).
  destruct (Z.eqb_spec (Z.of_nat (length q)) 0) as [Hz|Hz].
  - assert (q = []) as -> by (destruct q; done || simpl in Hz; lia).
    apply bind_inv in H as [(e & [=] & _)|(c & ? & [= <- <-] & H)].
    destruct (IsConnected (net w)); simpl in H.
    + apply bind_inv in H as [(e & Hs & _)|(rs & w1 & Hs & H)];
        [unfold try in Hs; by destruct (send _ _ _ _)|].
      unfold try in Hs. destruct (send p (ID m) (Data m) w) as [rs' w1'] eqn:Hsend. simplify_eq.
      apply (send_runs _ _ _ _ _ [] o a d) in Hsend as [Hf Hstep]. destruct rs as [[]|e].
      * unfold count_published, modify in H. simplify_eq/=. exists [].
        split; [by rewrite Hf|]. eapply rtc_l; [by apply step_direct|]. by apply rtc_once.
      * apply bind_inv in H as [(e' & Hn & _)|([] & w2 & Hn & H)];
          apply noteFailure_spec in Hn as (? & Hf2 & Hl2); [done|].
        eapply park_runs in H as (q' & Hr' & Hrt); [|rewrite Hf2, Hf; exact Hrep|by rewrite Hf2, Hf].
        exists q'. split; [done|]. eapply rtc_l; [by apply step_direct|].
        eapply rtc_l; [exact Hstep|]. unfold at_ at 1 in Hrt. rewrite Hl2 in Hrt. exact Hrt.
    + apply bind_inv in H as [(e' & Hn & _)|([] & w2 & Hn & H)];
        apply noteFailure_spec in Hn as (? & Hf2 & Hl2); [done|].
      destruct (Hpark _ Hf2 Hl2 H) as (q' & ? & ?). eauto.
  - destruct (Hpark _ eq_refl eq_refl H) as (q' & ? & ?). eauto.
Qed.

(** [publish_runs]: [publish] of a message with a new identifier is a run of the
    system that ends with the message accepted exactly when [publish] returns nil,
    as long as the file can be read and the counters of the file do not run out. *)
Theorem publish_runs p m (w w' : W) r q o a d : rep (buf p) q (stored (file w)) →
  is_ok (db_View (file w)).1 = true → room q m (stored (file w)) →
  ID m ∉ ID <$> o → publish p (ID m) (Data m) w = (r, w') →
  ∃ q', rep (buf p) q' (stored (file w')) ∧
    rtc step (at_ w q o a PIdle d)
             (at_ w' q' (o ++ [m]) (if is_ok r then a ++ [m] else a) PIdle d).
Proof.
  intros Hrep Hview Hroom Hm H. unfold publish, on_file in H.
  apply bind_inv in H as [(e & H & _)|(st & w1 & H1 & H)]; unfold zoom in *.
  { destruct (Stats_ _ _) as [rs d1] eqn:Hst. by rewrite (Stats_view _ _ _ _ _ Hrep Hview Hst) in H. }
  destruct (Stats_ (buf p) (file w)) as [rs d1] eqn:Hst.
  pose proof (Stats_spec _ _ _ _ _ Hrep Hst) as [Hd1 _].
  rewrite (Stats_view _ _ _ _ _ Hrep Hview Hst) in H1. simplify_eq.
  eapply (publish_count_runs p m (set_file d1 w) w' r q (o ++ [m]) a d) in H
    as (q' & Hr' & Hrt); simpl; [|by rewrite Hd1..].
  exists q'. split; [done|]. eapply rtc_l; [by apply step_offer|exact Hrt].
Qed.

(** The drain loop after a failed send. *)
Lemma drain_fail_runs p e last (w w' : W) r q o a c : rep (buf p) q (stored (file w)) →
  (noteFailure e;;
   (if 0 <? last then ignore (on_file (Remove last)) else mret ());;
   mret (None : option Z)) w = (r, w') →
  r = Ok None ∧ ∃ q', rep (buf p) q' (stored (file w')) ∧
    rtc step (at_ w q o a c (DRemoving last)) (at_ w' q' o a c DIdle).
Proof.
  intros Hrep H.
  apply bind_inv in H as [(e' & Hn & _)|([] & w2 & Hn & H)];
    apply noteFailure_spec in Hn as (? & Hf2 & Hl2); [done|]. unfold at_ at 1.
  destruct (0 <? last); unfold ignore, on_file, zoom, mbind, M_bind, mret, M_ret in H.
  - destruct (Remove last (file w2)) as [rr d'] eqn:Hrm.
    apply (Remove_spec (buf p) _ q) in Hrm; [|by rewrite Hf2]. simplify_eq/=.
    split; [done|]. unfold at_. simpl. rewrite Hl2. destruct rr as [[]|].
    + exists (kept last q). split; [done|]. apply rtc_once, step_remove.
    + exists q. split; [done|]. apply rtc_once, step_stop.
  - simplify_eq. split; [done|]. exists q. split; [by rewrite Hf2|]. unfold at_. rewrite Hl2.
    apply rtc_once, step_stop.
Qed.

Lemma drain_items_runs p items : ∀ last (w w' : W) r q o a c,
  rep (buf p) q (stored (file w)) → drain_items p items last w = (r, w') →
  match r with
  | Ok (Some last') => stored (file w') = stored (file w) ∧
      rtc step (at_ w q o a c (DSending items last)) (at_ w' q o a c (DSending [] last'))
  | Ok None => ∃ q', rep (buf p) q' (stored (file w')) ∧
      rtc step (at_ w q o a c (DSending items last)) (at_ w' q' o a c DIdle)
  | Err _ => False
  end.
Proof.
  induction items as [|i items IH]; intros last w w' r q o a c Hrep H.
  { unfold drain_items, mret, M_ret in H. simplify_eq. split; [done|apply rtc_refl]. }
  cbn [drain_items] in H. destruct (entry i) as [id data] eqn:Hi. cbn [ID Data] in H.
  apply bind_inv in H as [(e & Hs & _)|(rs & w1 & Hs & H)]; unfold try in Hs;
    destruct (send p id data w) as [rs' w1'] eqn:Hsend; simplify_eq.
  apply send_spec in Hsend as (Hf & Hatt & Hin). rewrite <- Hi in *.
  destruct rs as [[]|e].
  - apply bind_inv in H as [(e & [=] & _)|([] & w2 & [= <-] & H)].
    apply (IH _ _ _ _ q o a c) in H; [|simpl; by rewrite Hf]. simpl in H. rewrite Hf in H.
    pose proof (step_drain_send (log (net w)) (log (net w1)) q o a c i items last Hatt (Hin eq_refl)).
    destruct r as [[last'|]|]; [|destruct H as (q' & ? & Hrt); exists q'|done];
      [destruct H as [? Hrt]|]; (split; [done|]); (eapply rtc_l; [done|exact Hrt]).
  - pose proof (step_drain_fail (log (net w)) (log (net w1)) q o a c i items last Hatt) as Hst.
    apply (drain_fail_runs p _ _ _ _ _ q o a c) in H as (-> & q' & ? & Hrt); [|by rewrite Hf].
    exists q'. split; [done|]. by eapply rtc_l.
Qed.

Lemma drain_round_runs p (w w' : W) r q o a c :
  rep (buf p) q (stored (file w)) → drain_round p w = (r, w') →
  is_ok r = true ∧ ∃ q', rep (buf p) q' (stored (file w')) ∧
    rtc step (at_ w q o a c DIdle) (at_ w' q' o a c DIdle).
Proof.
  intros Hrep H. unfold drain_round, on_file, try, zoom, mbind, M_bind, mret, M_ret in H.
  destruct (Peek 64 (file w)) as [rp d1] eqn:Hpk.
  apply (Peek_spec (buf p) q) in Hpk as [Hd1 Hit]; [|exact Hrep].
  destruct rp as [items|e]; simpl in H.
  - specialize (Hit items eq_refl). destruct items as [|i items].
    { simplify_eq. split; [done|]. exists q. simpl. rewrite Hd1. split; [done|apply rtc_refl]. }
    destruct (drain_items p (i :: items) 0 (set_file d1 w)) as [rd w1] eqn:Hdr.
    apply (drain_items_runs _ _ _ _ _ _ q o a c) in Hdr; [|simpl; by rewrite Hd1].
    pose proof (step_peek (log (net w)) q o a c (Z.to_nat 64)) as Hpeek. rewrite <- Hit in Hpeek.
    destruct rd as [[last|]|]; [|destruct Hdr as (q' & ? & Hrt); simplify_eq|done].
    + destruct Hdr as [Hf Hrt]. destruct (Remove last (file w1)) as [rr d2] eqn:Hrm.
      apply (Remove_spec (buf p) _ q) in Hrm; [|rewrite Hf; simpl; by rewrite Hd1].
      pose proof (step_drain_done (log (net w1)) q o a c last) as Hdone. destruct rr as [[]|e].
      * simplify_eq. split; [done|]. exists (kept last q). split; [done|].
        eapply rtc_l; [exact Hpeek|]. etrans; [exact Hrt|].
        eapply rtc_l; [exact Hdone|]. apply rtc_once, step_remove.
      * destruct (noteFailure e (set_file d2 w1)) as [rn w2] eqn:Hn.
        apply noteFailure_spec in Hn as (-> & Hf2 & Hl2). injection H as <- <-. simpl in *.
        split; [done|]. exists q. rewrite Hf2. split; [done|]. unfold at_. rewrite Hl2.
        eapply rtc_l; [exact Hpeek|]. etrans; [exact Hrt|apply rtc_once, step_stop].
    + split; [done|]. exists q'. split; [done|]. eapply rtc_l; [exact Hpeek|exact Hrt].
  - destruct (noteFailure e (set_file d1 w)) as [rn w2] eqn:Hn.
    apply noteFailure_spec in Hn as (-> & Hf2 & Hl2). injection H as <- <-. simpl in *. split; [done|]. exists q.
    rewrite Hf2, Hd1. split; [done|]. unfold at_. rewrite Hl2. apply rtc_refl.
Qed.

(** [drain_runs]: [drain] never fails, and alone it is a run of the system,
    whatever [publish] was about to do. *)
Theorem drain_runs p rounds (w w' : W) r q o a c :
  rep (buf p) q (stored (file w)) → drain p rounds w = (r, w') →
  r = Ok () ∧ ∃ q', rep (buf p) q' (stored (file w')) ∧
    rtc step (at_ w q o a c DIdle) (at_ w' q' o a c DIdle).
Proof.
  revert w q. induction rounds as [|n IH]; intros w q Hrep H; simpl in H.
  { unfold mret, M_ret in H. simplify_eq. split; [done|]. exists q. split; [done|apply rtc_refl]. }
  apply bind_inv in H as [(e & Hr & ->)|(more & w1 & Hr & H)];
    apply (drain_round_runs p _ _ _ q o a c) in Hr as (Hok & q1 & Hrep1 & Hrt); try done.
  destruct more.
  - destruct (IH _ _ Hrep1 H) as (-> & q2 & ? & ?). split; [done|]. exists q2.
    split; [done|]. by etrans.
  - unfold mret, M_ret in H. simplify_eq. split; [done|]. by exists q1.
Qed.
End runs.
End PublisherSystem.

(** ** Identifiers and health *)

Lemma Cut_FormatUint n s : Cut (FormatUint n +:+ String "-" s) "-" = (FormatUint n, s, true).
Proof. apply Cut_append, FormatUint_no_byte. done. Qed.

(** The identifier of document [i] of message [n] of a publisher. *)
Definition derived_id (pid : string) (n : Z) (i : nat) : string :=
  (pid +:+ String "-" (FormatUint n)) +:+ String "-" (FormatUint (Z.of_nat i)).

Lemma derived_id_inj p n n' i i' : is_u64 n → is_u64 n' →
  Z.of_nat i < 2 ^ 64 → Z.of_nat i' < 2 ^ 64 →
  derived_id p n i = derived_id p n' i' → n = n' ∧ i = i'.
Proof.
  intros Hn Hn' Hi Hi' H. unfold derived_id in H. rewrite <- !append_assoc_s in H.
  apply append_cancel_l in H. cbn [String.append] in H. injection H as H.
  apply (f_equal (λ s, Cut s "-")) in H. rewrite !Cut_FormatUint in H.
  injection H as H1 H2. apply FormatUint_inj in H1, H2; unfold is_u64 in *; lia.
Qed.

Section ids.
Context {D N : Type}.
#[local] Abbreviation W := (world N D).

Lemma nextID_eq p (w : W) : nextID p w =
  (Ok (pid p +:+ String "-" (FormatUint (u64 (pseq w + 1)))),
   MkWorld (net w) (file w) (u64 (pseq w + 1)) (wake w) (failing w) (published w)
     (lastErr w) (lastAt w)).
Proof. done. Qed.

Lemma stamp_lookup id docs i d : docs !! i = Some d →
  stamp id docs !! i = Some
    (if decide (doc_ID d = "") then MkDoc (id +:+ String "-" (FormatUint (Z.of_nat i))) (doc_Doc d)
     else d).
Proof. intros H. unfold stamp. by rewrite list_lookup_imap, H. Qed.

(** [stamp_spec]: [PublishDocs] gives a document without an identifier one
    that no other document of any other message of this publisher is given, leaves
    every other document as it is, and keeps their order and contents. *)
Theorem stamp_spec p (w w' : W) id docs : nextID p w = (Ok id, w') →
  length (stamp id docs) = length docs ∧
  (∀ i d, docs !! i = Some d → ∃ d', stamp id docs !! i = Some d' ∧ doc_Doc d' = doc_Doc d ∧
     doc_ID d' = if decide (doc_ID d = "") then derived_id (pid p) (pseq w') i else doc_ID d) ∧
  (∀ i j d n, docs !! i = Some d → doc_ID d = "" → Z.of_nat i < 2 ^ 64 → Z.of_nat j < 2 ^ 64 →
     is_u64 n → doc_ID <$> stamp id docs !! i = Some (derived_id (pid p) n j) →
     n = pseq w' ∧ i = j).
Proof.
  rewrite nextID_eq. intros [= <- <-]. simpl. split_and!.
  - apply length_imap.
  - intros i d Hd. rewrite (stamp_lookup _ _ _ _ Hd). eexists. split; [done|].
    by case_decide.
  - intros i j d n Hd Hid Hi Hj Hn. rewrite (stamp_lookup _ _ _ _ Hd), decide_True by done.
    intros [= H]. symmetry in H. apply derived_id_inj in H as [-> ->]; auto using u64_range.
Qed.
End ids.

(** [NewPublisher_config_valid]: the configuration a publisher runs with has a
    subject, positive durations and a congestion level between 1 and 100 percent,
    and keeps every valid setting. *)
Theorem NewPublisher_config_valid c c' : NewPublisher_config c = Ok c' → 0 ≤ CongestedAt c →
  Subject c' = Subject c ∧ Subject c' ≠ "" ∧ 0 < Timeout c' ∧ 0 < Retry c' ∧
  1 ≤ CongestedAt c' ≤ 100 ∧
  (0 < Timeout c → Timeout c' = Timeout c) ∧ (0 < Retry c → Retry c' = Retry c) ∧
  (1 ≤ CongestedAt c ≤ 100 → CongestedAt c' = CongestedAt c).
Proof.
  unfold NewPublisher_config, Second. intros H Hc. case_decide; [done|]. simplify_eq/=.
  destruct (Z.leb_spec (Timeout c) 0), (Z.leb_spec (Retry c) 0),
    (Z.eqb_spec (CongestedAt c) 0), (Z.ltb_spec 100 (CongestedAt c)); simpl; naive_solver lia.
Qed.

Section health.
Context {B D N : Type} `{!Bolt B D, !Clock N, !Stream N} (Format : Z → string).

(** [Health_spec]: [Health] reports how many messages and bytes wait in the
    buffer, is congested exactly from the configured fill level, and shows the last
    error only while it matters. *)
Theorem Health_spec p (w w' : world N D) q h : rep (buf p) q (stored (file w)) →
  is_ok (db_View (file w)).1 = true → 0 ≤ CongestedAt (cfg p) ≤ 100 →
  max (buf p) * 100 < 2 ^ 64 → Health Format p w = (Ok h, w') →
  Buffered h = Z.of_nat (length q) ∧ BufferedBytes h = bytes_of q ∧
  BufferMax h = max (buf p) ∧
  (Congested h = true ↔ max (buf p) * CongestedAt (cfg p) ≤ bytes_of q * 100) ∧
  (LastError h ≠ "" → LastError h = lastErr w ∧ (failing w = true ∨ q ≠ [])).
Proof.
  intros Hrep Hview Hc Hmax H. unfold Health, on_file, zoom in H. run_unfold.
  destruct (Stats_ (buf p) (file w)) as [rs d1] eqn:Hst.
  rewrite (Stats_view _ _ _ _ _ Hrep Hview Hst) in H. simplify_eq/=.
  pose proof (rep_max _ _ _ Hrep). pose proof (bytes_of_nonneg q).
  rewrite !u64_small by (unfold is_u64; nia).
  split_and!; [done..| |].
  - by rewrite Z.leb_le.
  - repeat case_match; try done. prop_bool. intros _. split; [done|].
    destruct (failing w); [by left|right]. simpl in *. prop_bool. by intros ->.
Qed.
End health.

(** ** A stream in memory

    [acks] decides the attempts to come: whether the message is stored and whether
    the acknowledgement arrives. *)
Module MemStream.
Record conn := Mk { msgs : list Entry; acks : list (bool * bool); up : bool; limit : Z; time : Z }.

#[export] Instance clock : Clock conn :=
  {| tick n := (time n, Mk (msgs n) (acks n) (up n) (limit n) (time n + 1)) |}.

Definition send (subject id data : string) : M conn () := λ n,
  let '(st, ack) := default (true, true) (head (acks n)) in
  (if ack then Ok () else Err (errors_New "timeout"),
   Mk (if st || ack then msgs n ++ [MkEntry id data] else msgs n)
      (tail (acks n)) (up n) (limit n) (time n)).

#[export] Program Instance stream : Stream conn := {|
  js_Publish := send; IsConnected := up; MaxPayload := limit; log := msgs;
|}.
Next Obligation.
  unfold send. intros subject i data n r n' H. destruct (default _ _) as [[|] [|]];
    simplify_eq/=; split; auto; set_solver.
Qed.
Next Obligation. done. Qed.
End MemStream.

(** ** Witnesses *)

Section witnesses.
Import PublisherSystem.
#[local] Abbreviation bucket := MemFile.bucket.
#[local] Abbreviation empty := MemFile.empty.
#[local] Existing Instance MemFile.file.
#[local] Existing Instance MemStream.clock.
#[local] Existing Instance MemStream.stream.

Definition pub0 : Publisher :=
  MkPublisher (MkPublisherConfig "logs" Second Second 50) (MkBuffer 100) "00ff".
Definition net0 (acks : list (bool * bool)) : MemStream.conn := MemStream.Mk [] acks true 0 0.
Definition world0 (acks : list (bool * bool)) : world MemStream.conn (bucket * bucket) :=
  MkWorld (net0 acks) empty 0 false false 0 "" 0.
Definition msg : Entry := MkEntry "00ff-1" "hello".

(** [publish_lost_ack]: the acknowledgement of a message that is larger than
    the local buffer is lost: the stream has the message, and [publish] returns an
    error, although its comment says that on an error nothing of the message was
    accepted. *)
Theorem publish_lost_ack :
  let p := MkPublisher (cfg pub0) (MkBuffer 4) "00ff" in
  let '(r, w) := publish p (ID msg) (Data msg) (world0 [(true, false)]) in
  r = Err ErrTooLarge ∧ log (net w) = [msg].
Proof. by vm_compute. Qed.

Definition after_park : state :=
  Mk [msg] [] [msg] [msg] PIdle DIdle.

(** The acknowledgement of the direct send is lost, the message is parked, sent
    again by the drain loop, and removed. *)
Lemma run_lost_ack : rtc step init after_park.
Proof.
  eapply rtc_l; [apply (step_offer _ _ _ _ _ msg); set_solver|].
  eapply rtc_l; [apply step_direct|].
  eapply rtc_l; [apply (step_send_fail [] [msg]); by right|].
  eapply rtc_l; [apply (step_append _ _ _ _ _ _ 1); [done|constructor]|].
  eapply rtc_l; [apply (step_peek _ _ _ _ _ 64)|].
  eapply rtc_l; [apply (step_drain_send _ [msg]); [by left|by left]|].
  eapply rtc_l; [apply step_drain_done|]. apply rtc_once.
  exact (step_remove [msg] [MkItem 1 msg] [msg] [msg] PIdle 1).
Qed.

Lemma publisher_order_witness : first_occ (strm after_park) `sublist_of` offered after_park.
Proof. exact (publisher_order after_park run_lost_ack). Defined.

Lemma publisher_no_loss_witness : msg ∈ strm after_park ∨ msg ∈ entry <$> queue after_park.
Proof. apply (publisher_no_loss after_park msg run_lost_ack). by left. Defined.

Lemma publisher_drained_witness : accepted after_park `sublist_of` first_occ (strm after_park).
Proof. exact (publisher_drained after_park run_lost_ack eq_refl). Defined.

Definition w_down := world0 [(false, false)].

Lemma publish_runs_witness : ∃ q' w',
  rep (buf pub0) q' (stored (file w')) ∧
  rtc step (at_ w_down [] [] [] PIdle DIdle) (at_ w' q' [msg] [msg] PIdle DIdle).
Proof.
  destruct (publish pub0 (ID msg) (Data msg) w_down) as [r w'] eqn:E.
  assert (r = Ok ()) as -> by (revert E; vm_compute; congruence).
  destruct (publish_runs pub0 msg w_down w' (Ok ()) [] [] [] DIdle) as (q' & H1 & H2);
    [by apply MemFile.rep_empty|done|by vm_compute|set_solver|exact E|]. by exists q', w'.
Defined.

Lemma drain_runs_witness : ∃ q' w',
  rep (buf pub0) q' (stored (file w')) ∧
  rtc step (at_ w_down [] [] [] PIdle DIdle) (at_ w' q' [] [] PIdle DIdle).
Proof.
  destruct (drain pub0 3 w_down) as [r w'] eqn:E.
  destruct (drain_runs pub0 3 w_down w' r [] [] [] PIdle) as (_ & q' & H1 & H2);
    [by apply MemFile.rep_empty|exact E|]. by exists q', w'.
Defined.

Lemma stamp_spec_witness :
  length (stamp "00ff-1" [MkDoc "" None; MkDoc "x" None]) = 2%nat.
Proof.
  destruct (stamp_spec pub0 w_down (nextID pub0 w_down).2 "00ff-1"
    [MkDoc "" None; MkDoc "x" None]) as [H _]; [by vm_compute|]. exact H.
Defined.

Lemma NewPublisher_config_valid_witness :
  Subject (MkPublisherConfig "logs" (5 * Second) Second 50) = "logs".
Proof.
  apply (NewPublisher_config_valid (MkPublisherConfig "logs" 0 0 0)); [by vm_compute|simpl; lia].
Defined.

Lemma Health_spec_witness : ∃ h, Buffered h = 0.
Proof.
  destruct (Health (λ _, "") pub0 w_down) as [[h|e] w'] eqn:E; [|by vm_compute in E].
  exists h. apply (Health_spec (λ _, "") pub0 w_down w' [] h); [by apply MemFile.rep_empty|done| | |exact E];
    simpl; lia.
Defined.
End witnesses.
