(* ===== verification/Ingest.v ===== *)
(** Documents and operations from HTTP requests into the stream (parseDocs, ingest and admin
    of pkg/coordinator/api.go): reading a body, splitting it into messages and handing them
    to the publisher.

    The text of JSON is encoding/json ([parse_json], [Marshal]); a body is what can be read
    of it and the error after that. *)
From S2P Require Import Prelude Strings Bytes State Wire Buffer Publisher.
#[local] Open Scope Z_scope.

(** ** Configuration and answers *)

Record APIConfig := MkAPIConfig { Token : string; MaxBody : Z; MaxDocsPerMessage : Z; MaxMessageBytes : Z }.
Definition APIConfig_defaults (a : APIConfig) : APIConfig :=
  MkAPIConfig (Token a) (if MaxBody a <=? 0 then Z.shiftl 32 20 else MaxBody a)
    (if MaxDocsPerMessage a <=? 0 then 500 else MaxDocsPerMessage a)
    (if MaxMessageBytes a <=? 0 then Z.shiftl 512 10 else MaxMessageBytes a).

(** The fields of an answer that are read here: the error, what was accepted. *)
Inductive reply_body :=
| BError (text : string)
| BPart (text : string) (documents messages : Z)
| BAccepted (documents messages : Z)
| BMessage (text : string).
Record Reply := MkReply { code : Z; headers : list (string * string); rbody : reply_body }.
Definition fail (code : Z) (text : string) : Reply := MkReply code [] (BError text).

(** ** Bodies *)

Record reader := MkReader { r_data : string; r_err : option error }.
Definition MaxBytesErrorTag : string := "http.MaxBytesError".
Definition MaxBytesError : error := Error "http: request body too large" [MaxBytesErrorTag].
Definition IsMaxBytesError (e : error) : bool := bool_decide (MaxBytesErrorTag ∈ err_tags e).
Definition MaxBytesReader (r : reader) (n : Z) : reader :=
  if n <? len (r_data r) then MkReader (String.substring 0 (Z.to_nat n) (r_data r)) (Some MaxBytesError) else r.
Definition ReadAll (r : reader) : res string := match r_err r with Some e => Err e | None => Ok (r_data r) end.

(** The longest line [bufio.Scanner] takes here. *)
Definition max_line : Z := Z.shiftl 8 20.
Definition ErrTooLong : error := errors_New "bufio.Scanner: token too long".

Fixpoint obj_get (k : string) (o : obj) : option json :=
  match o with [] => None | (k', v) :: o => if decide (k = k') then Some v else obj_get k o end.
Definition obj_delete (k : string) (o : obj) : obj := filter (λ kv, kv.1 ≠ k) o.

Section ingest.
Context {B D N : Type} `{!Bolt B D, !Clock N, !Stream N}.
Context (parse_json : string → option json) (Marshal : json → res string).
#[local] Abbreviation W := (world N D).

(** ** Documents *)

Record docLine := MkDocLine { doc : Wire.Doc; dsize : Z }.

(** [json.Unmarshal] into a [map[string]interface{}]; [None] is nil. *)
Definition unmarshal_object (text : string) : res (option obj) :=
  match parse_json text with Some v => get_map v None | None => Err ErrUnmarshal end.
Definition unmarshal_objects (text : string) : res (list (option obj)) :=
  match parse_json text with
  | Some (JArr l) => map_res (λ v, get_map v None) l
  | Some JNull => Ok []
  | _ => Err ErrUnmarshal
  end.

(** The lines of a body from the [n]-th on, and the error after them. *)
Fixpoint parse_lines (n : Z) (lines : list string) (err : option error) : res (list (option obj)) :=
  match lines with
  | [] => match err with Some e => Err e | None => Ok [] end
  | l :: lines =>
      if max_line <=? len l then Err ErrTooLong
      else
        let line := TrimSpace l in
        if decide (line = "") then parse_lines (n + 1) lines err
        else match unmarshal_object line with
             | Err e => Err (errors_New ("line " +:+ FormatUint n +:+ " is not a JSON object: " +:+ err_text e))
             | Ok o => os ← parse_lines (n + 1) lines err; Ok (o :: os)
             end
  end.

Definition parse_objects (body : reader) (contentType : string) : res (list (option obj)) :=
  if Contains contentType "ndjson" || Contains contentType "jsonl" then
    parse_lines 1 (Split (r_data body) "010") (r_err body)
  else
    raw ← ReadAll body;
    match TrimSpace raw with
    | "" => Err (errors_New "empty body")
    | String c _ as raw =>
        if decide (c = "["%char) then
          match unmarshal_objects raw with
          | Ok os => Ok os
          | Err e => Err (errors_New ("body is not an array of JSON objects: " +:+ err_text e))
          end
        else match unmarshal_object raw with
             | Ok o => Ok [o]
             | Err e => Err (errors_New ("body is not a JSON object: " +:+ err_text e))
             end
    end.

Definition name_object (key : string) (i : Z) (o : obj) : string * obj :=
  let '(id, o) := match obj_get "_id" o with
                  | Some (JStr v) => if decide (v = "") then ("", o) else (v, obj_delete "_id" o)
                  | _ => ("", o)
                  end in
  (if bool_decide (id = "") && negb (bool_decide (key = "")) then key +:+ "-" +:+ FormatUint i else id, o).

Fixpoint build_docs (key : string) (i : Z) (os : list (option obj)) : res (list docLine) :=
  match os with
  | [] => Ok []
  | None :: _ => Err (errors_New ("document " +:+ FormatUint (i + 1) +:+ " is null"))
  | Some o :: os =>
      let '(id, o) := name_object key i o in
      raw ← Marshal (JObj o);
      ds ← build_docs key (i + 1) os;
      Ok (MkDocLine (MkDoc id (Some o)) (len raw + len id + 32) :: ds)
  end.

Definition parseDocs (body : reader) (contentType idempotencyKey : string) : res (list docLine) :=
  objects ← parse_objects body contentType;
  match objects with
  | [] => Err (errors_New "no documents in the body")
  | _ => build_docs idempotencyKey 0 objects
  end.

(** ** Messages *)

(** The loop of [ingest] that splits; [None]: a document that can never fit. *)
Fixpoint split_docs (cfg : APIConfig) (ds : list docLine) (batches : list (list Wire.Doc)) (current : list Wire.Doc)
    (currentSize : Z) : option (list (list Wire.Doc)) :=
  match ds with
  | [] => Some (batches ++ [current])
  | d :: ds =>
      if MaxMessageBytes cfg <? dsize d then None
      else if negb (bool_decide (current = [])) &&
              ((MaxDocsPerMessage cfg <=? Z.of_nat (length current)) || (MaxMessageBytes cfg <? currentSize + dsize d))
      then split_docs cfg ds (batches ++ [current]) [doc d] (dsize d)
      else split_docs cfg ds batches (current ++ [doc d]) (currentSize + dsize d)
  end.

Definition publish_error (e : error) : Z * list (string * string) :=
  if errors_Is e ErrMessageTooLarge then (413, if errors_Is e ErrBackpressure then [("Retry-After", "5")] else [])
  else if errors_Is e ErrBackpressure then (503, [("Retry-After", "5")]) else (500, []).

(** The loop of [ingest] that publishes the [i]-th message and those after it. *)
Fixpoint publish_batches (p : Publisher) (index : string) (batches : list (list Wire.Doc)) (i accepted : Z) : M W Reply :=
  match batches with
  | [] => mret (MkReply 202 [] (BAccepted accepted i))
  | batch :: batches =>
      r ← try (PublishDocs Marshal p index batch);
      match r with
      | Err e => let '(code, headers) := publish_error e in mret (MkReply code headers (BPart (err_text e) accepted i))
      | Ok _ => publish_batches p index batches (i + 1) (accepted + Z.of_nat (length batch))
      end
  end.

Definition bad_index (index : string) : bool :=
  bool_decide (index = "") || HasPrefix index "_" || Contains index "/" || Contains index " " || Contains index "\".

(** [p]: the publisher, if the coordinator has one. *)
Definition ingest (cfg : APIConfig) (p : option Publisher) (index key contentType : string) (body : reader) : M W Reply :=
  match p with
  | None => mret (fail 501 "this coordinator has no publisher")
  | Some p =>
      if bad_index index then mret (fail 400 "invalid index name")
      else if negb (bool_decide (key = "")) && negb (ValidKey key) then
        mret (fail 400 "Idempotency-Key must be made of letters, digits and /_=.-")
      else match parseDocs (MaxBytesReader body (MaxBody cfg)) contentType key with
           | Err e => mret (if IsMaxBytesError e then fail 413 "the body is too large" else fail 400 (err_text e))
           | Ok docs =>
               match split_docs cfg docs [] [] 0 with
               | None => mret (fail 413 "a document is too large")
               | Some batches => publish_batches p index batches 0 0
               end
           end
  end.

(** ** Administrative operations *)

Definition admin (cfg : APIConfig) (p : option Publisher) (index op : string) (body : reader) : M W Reply :=
  match p with
  | None => mret (fail 501 "this coordinator has no publisher")
  | Some p =>
      if negb (bool_decide (op ∈ [OpCreateIndex; OpDeleteIndex; OpSetMapping])) then mret (fail 400 "unknown operation")
      else match ReadAll (MaxBytesReader body (MaxBody cfg)) with
           | Err e => mret (fail 400 (err_text e))
           | Ok text =>
               match (if decide (TrimSpace text = "") then Ok None
                      else match parse_json text with Some v => Ok (Some v) | None => Err (errors_New "the body is not valid JSON") end) with
               | Err e => mret (fail 400 (err_text e))
               | Ok data =>
                   let msg := NewAdmin index op data in
                   match Decode (Some (Encode msg)) with
                   | Err e => mret (fail 400 (err_text e))
                   | Ok _ =>
                       r ← try (Publish Marshal p msg);
                       match r with
                       | Err e => mret (fail (if errors_Is e ErrBackpressure then 503 else 500) (err_text e))
                       | Ok _ => mret (MkReply 202 [] (BMessage "accepted"))
                       end
                   end
               end
           end
  end.
End ingest.

(** ** Splitting *)

Section spec.
Context {B D N : Type} `{!Bolt B D, !Clock N, !Stream N}.
Context (parse_json : string → option json) (Marshal : json → res string).
#[local] Abbreviation W := (world N D).
#[local] Set Default Proof Using "Type".

Definition total_size (g : list docLine) : Z := foldr (λ d n, dsize d + n) 0 g.
(** What fits into one message. *)
Record good_message (cfg : APIConfig) (g : list docLine) : Prop := {
  gm_some : g ≠ [];
  gm_docs : Z.of_nat (length g) ≤ MaxDocsPerMessage cfg;
  gm_size : total_size g ≤ MaxMessageBytes cfg;
}.

Definition messages (groups : list (list docLine)) : list (list Wire.Doc) := (λ g : list docLine, doc <$> g) <$> groups.
Lemma messages_app a b : messages (a ++ b) = messages a ++ messages b.
Proof. apply fmap_app. Qed.
Lemma length_messages a : length (messages a) = length a.
Proof. apply length_fmap. Qed.

Lemma total_size_snoc g d : total_size (g ++ [d]) = total_size g + dsize d.
Proof. unfold total_size. induction g as [|x g IH]; simpl; lia. Qed.

Lemma split_docs_spec cfg ds : 1 ≤ MaxDocsPerMessage cfg → ∀ groups cur out,
  Forall (good_message cfg) groups → cur = [] ∨ good_message cfg cur → cur ++ ds ≠ [] →
  split_docs cfg ds (messages groups) (doc <$> cur) (total_size cur) = Some out →
  ∃ groups', out = messages groups' ∧ Forall (good_message cfg) groups' ∧ concat groups' = concat groups ++ cur ++ ds.
Proof.
  intros Hmax. induction ds as [|d ds IH]; intros groups cur out Hg Hc Hne H; cbn [split_docs] in H.
  { injection H as <-. exists (groups ++ [cur]). rewrite messages_app, concat_app. simpl. rewrite !app_nil_r in *.
    split_and!; [done| |done]. apply Forall_app. split; [done|]. constructor; [|done]. by destruct Hc. }
  destruct (MaxMessageBytes cfg <? dsize d) eqn:Ebig; [done|]. apply Z.ltb_ge in Ebig.
  assert (good_message cfg [d]) as Hd by (split; [done|simpl; lia|simpl; lia]).
  destruct (negb (bool_decide (doc <$> cur = [])) && _) eqn:Efull.
  - destruct Hc as [->|Hc]; [done|].
    change [doc d] with (doc <$> [d]) in H. replace (dsize d) with (total_size [d]) in H by (simpl; lia).
    change [doc <$> cur] with (messages [cur]) in H. rewrite <- messages_app in H.
    apply IH in H as (groups' & -> & Hg' & E); [|by apply Forall_app; split; [done|constructor]|by right|done].
    exists groups'. split_and!; [done|done|]. rewrite E, concat_app. simpl. by rewrite app_nil_r, <- !(assoc_L (++)).
  - change [doc d] with (doc <$> [d]) in H. rewrite <- fmap_app, <- total_size_snoc in H.
    apply IH in H as (groups' & -> & Hg' & E); [|done| |by destruct cur].
    + exists groups'. split_and!; [done|done|]. by rewrite E, <- !(assoc_L (++)).
    + right. destruct Hc as [->|Hc]; [done|]. apply andb_false_iff in Efull as [Efull|Efull].
      { apply negb_false_iff, bool_decide_eq_true_1, fmap_nil_inv in Efull. by destruct (gm_some _ _ Hc). }
      apply orb_false_iff in Efull as [E1 E2]. apply Z.leb_gt in E1. apply Z.ltb_ge in E2. rewrite length_fmap in E1.
      split; [by destruct cur|rewrite length_app; simpl; lia|rewrite total_size_snoc; lia].
Qed.

(** Documents of a request with a key have names of their own. *)
Lemma build_docs_named key i os ds : key ≠ "" → build_docs Marshal key i os = Ok ds → Forall (λ d, doc_ID (doc d) ≠ "") ds.
Proof.
  intros Hk. revert i ds. induction os as [|[o|] os IH]; intros i ds H; cbn [build_docs] in H; [injection H as <-; constructor| |done].
  destruct (name_object key i o) as [id o'] eqn:En. apply res_bind_Ok in H as (raw & _ & H).
  apply res_bind_Ok in H as (ds' & Hds & H). injection H as <-. constructor; [|by eapply IH]. simpl.
  unfold name_object in En. rewrite (bool_decide_eq_false_2 (key = "")) in En by done.
  assert (∀ id0 (o0 : obj), (if bool_decide (id0 = "") && negb false then key +:+ "-" +:+ FormatUint i else id0, o0) = (id, o') → id ≠ "") as Hi.
  { intros id0 o0. case_bool_decide as E0; simpl; intros [= <- <-]; [|done]. by destruct key. }
  destruct (obj_get "_id" o) as [[]|]; try by apply Hi in En. case_decide; by apply Hi in En.
Qed.
Lemma build_docs_length key i os ds : build_docs Marshal key i os = Ok ds → length ds = length os.
Proof.
  revert i ds. induction os as [|[o|] os IH]; intros i ds H; cbn [build_docs] in H; [by injection H as <-| |done].
  destruct (name_object key i o) as [id o']. apply res_bind_Ok in H as (raw & _ & H).
  apply res_bind_Ok in H as (ds' & Hds & H). injection H as <-. simpl. f_equal. by eapply IH.
Qed.
Lemma parseDocs_ok body ct key ds : parseDocs parse_json Marshal body ct key = Ok ds →
  ds ≠ [] ∧ (key ≠ "" → Forall (λ d, doc_ID (doc d) ≠ "") ds).
Proof.
  unfold parseDocs. intros (os & _ & H)%res_bind_Ok. destruct os as [|o os]; [done|]. split.
  - apply build_docs_length in H. by destruct ds.
  - intros Hk. by eapply build_docs_named.
Qed.

Lemma stamp_named id ds : Forall (λ d, doc_ID d ≠ "") ds → stamp id ds = ds.
Proof.
  intros H. unfold stamp. apply list_eq. intros i. rewrite list_lookup_imap.
  destruct (ds !! i) as [d|] eqn:E; [|done]. simpl. rewrite decide_False; [done|].
  rewrite Forall_forall in H. by eapply H, list_elem_of_lookup_2.
Qed.

(** ** Publishing *)

(** Each of these was accepted by the publisher, one after the other. *)
Inductive published (p : Publisher) (index : string) : list (list Wire.Doc) → W → W → Prop :=
| published_nil w : published p index [] w w
| published_cons b bs w w1 w2 : PublishDocs Marshal p index b w = (Ok (), w1) →
    published p index bs w1 w2 → published p index (b :: bs) w w2.

Definition count_docs {A} (bs : list (list A)) : Z := Z.of_nat (length (concat bs)).

Lemma publish_batches_spec p index bs : ∀ i acc w r w', publish_batches Marshal p index bs i acc w = (r, w') →
  (r = Ok (MkReply 202 [] (BAccepted (acc + count_docs bs) (i + Z.of_nat (length bs)))) ∧ published p index bs w w') ∨
  ∃ sent b rest w1 e, bs = sent ++ b :: rest ∧ published p index sent w w1 ∧
    PublishDocs Marshal p index b w1 = (Err e, w') ∧
    r = Ok (MkReply (publish_error e).1 (publish_error e).2 (BPart (err_text e) (acc + count_docs sent) (i + Z.of_nat (length sent)))).
Proof.
  induction bs as [|b bs IH]; intros i acc w r w' H; cbn [publish_batches] in H.
  { injection H as <- <-. left. unfold count_docs. simpl. rewrite !Z.add_0_r. split; [done|constructor]. }
  apply try_inv in H as (x & w1 & Hp & H). destruct x as [[]|e].
  - apply IH in H as [[-> Hpub]|(sent & b' & rest & w2 & e & -> & Hpub & He & ->)].
    + left. split; [|by econstructor]. unfold count_docs. simpl. rewrite length_app. do 3 f_equal; lia.
    + right. exists (b :: sent), b', rest, w2, e. split_and!; [done|by econstructor|done|].
      unfold count_docs. simpl. rewrite length_app. do 3 f_equal; lia.
  - destruct (publish_error e) as [c hs] eqn:Ee. injection H as <- <-. right. exists [], b, bs, w, e.
    split_and!; [done|constructor|done|]. unfold count_docs. simpl. by rewrite Ee, !Z.add_0_r.
Qed.

(** C14: a request that is refused has put nothing into the stream; one whose
    documents are read is split into messages that fit, in the order of the documents and
    without loss; when it is accepted all of them were published, and otherwise the answer
    says how many of the first were. With a key, the documents have names, so the messages
    of a second attempt are those of the first. *)
Theorem ingest_exact cfg p index key ct body w r w' : 1 ≤ MaxDocsPerMessage cfg →
  ingest parse_json Marshal cfg p index key ct body w = (r, w') →
  ∃ rep, r = Ok rep ∧
  ((∃ text, rbody rep = BError text ∧ (code rep = 400 ∨ code rep = 413 ∨ code rep = 501) ∧ w' = w) ∨
   ∃ pub docs groups, p = Some pub ∧ parseDocs parse_json Marshal (MaxBytesReader body (MaxBody cfg)) ct key = Ok docs ∧
     concat groups = docs ∧ Forall (good_message cfg) groups ∧
     (key ≠ "" → ∀ g id, g ∈ groups → stamp id (doc <$> g) = doc <$> g) ∧
     let n := Z.of_nat (length docs) in
     ((code rep = 202 ∧ rbody rep = BAccepted n (Z.of_nat (length groups)) ∧ published pub index (messages groups) w w') ∨
      ∃ sent g rest w1 e, groups = sent ++ g :: rest ∧ published pub index (messages sent) w w1 ∧
        PublishDocs Marshal pub index (doc <$> g) w1 = (Err e, w') ∧ code rep ≠ 202 ∧
        rbody rep = BPart (err_text e) (count_docs sent) (Z.of_nat (length sent)))).
Proof.
  intros Hmax H. unfold ingest in H.
  assert (∀ c t (Q : Reply → Prop), (mret (fail c t) : M W Reply) w = (r, w') → c = 400 ∨ c = 413 ∨ c = 501 → ∃ rep, r = Ok rep ∧
    ((∃ text, rbody rep = BError text ∧ (code rep = 400 ∨ code rep = 413 ∨ code rep = 501) ∧ w' = w) ∨ Q rep)) as Hfail.
  { intros c t Q [= <- <-] Hc. eexists. split; [done|]. left. by exists t. }
  destruct p as [pub|]; [|eapply Hfail; [exact H|auto]].
  destruct (bad_index index); [eapply Hfail; [exact H|auto]|]. destruct (_ && _); [eapply Hfail; [exact H|auto]|].
  destruct (parseDocs _ _ _ _ _) as [docs|e] eqn:Ep; [|destruct (IsMaxBytesError e); (eapply Hfail; [exact H|auto])].
  apply parseDocs_ok in Ep as [Hne Hn].
  destruct (split_docs cfg docs [] [] 0) as [batches|] eqn:Es; [|eapply Hfail; [exact H|auto]].
  destruct (split_docs_spec cfg docs Hmax [] [] batches) as (groups & -> & Hg & Hcat); [constructor|by left|done|exact Es|].
  simpl in Hcat. apply publish_batches_spec in H as H'. clear Hfail H.
  assert (∀ l : list (list docLine), count_docs (messages l) = count_docs l) as Hcount.
  { intros l. unfold count_docs. f_equal. induction l as [|g l IH]; [done|]. simpl. by rewrite !length_app, length_fmap, IH. }
  assert (key ≠ "" → ∀ g id, g ∈ groups → stamp id (doc <$> g) = doc <$> g) as Hst.
  { intros Hk g id Hin. apply stamp_named, Forall_fmap. apply Forall_forall. intros d Hd. specialize (Hn Hk).
    rewrite Forall_forall in Hn. apply Hn. rewrite <- Hcat. apply list_elem_of_In, in_concat. exists g.
    by rewrite <- !list_elem_of_In. }
  destruct H' as [[-> Hpub]|(sent & b & rest & w1 & e & Eb & Hpub & He & ->)]; eexists; (split; [done|]); right;
    exists pub, docs, groups; (split_and!; [done..|]).
  - left. cbn [code rbody]. rewrite Hcount, length_messages. unfold count_docs. by rewrite Hcat.
  - right. apply fmap_app_inv in Eb as (sent' & rest' & -> & Eb & ->). destruct rest' as [|g rest']; [done|].
    injection Eb as -> ->. exists sent', g, rest', w1, e. cbn [code rbody]. rewrite Hcount, length_messages. split_and!; try done.
    unfold publish_error. by repeat case_match; simplify_eq.
Qed.
End spec.

(** ** Inputs *)

Module IngestDemo.
#[local] Existing Instance MemFile.file.
#[local] Existing Instance MemStream.clock.
#[local] Existing Instance MemStream.stream.

(** Objects are what stands in braces; every text has ten bytes. *)
Definition braces (s : string) : option json :=
  if HasPrefix s "{" && HasSuffix s "}" then Some (JObj [("text", JStr s)]) else None.
Definition ten_bytes (j : json) : res string := Ok "0123456789".
Definition two_each : APIConfig := MkAPIConfig "" 100 2 1000.
Definition lines (l : list string) : reader := MkReader (String.concat (String "010" "") l) None.
Definition ingest3 := ingest braces ten_bytes two_each (Some pub0) "logs" "request-1" "application/x-ndjson"
  (lines ["{a}"; "{b}"; ""; "{c}"]) (world0 []).

Lemma ingest_exact_witness : ingest3.1 = Ok (MkReply 202 [] (BAccepted 3 2)) ∧
  ∃ groups, Forall (good_message two_each) groups ∧ length (concat groups) = 3%nat ∧ length groups = 2%nat.
Proof.
  assert (ingest3.1 = Ok (MkReply 202 [] (BAccepted 3 2))) as Hr by (vm_compute; reflexivity). split; [exact Hr|].
  assert (1 ≤ MaxDocsPerMessage two_each) as Hm by (simpl; lia).
  destruct (ingest_exact braces ten_bytes two_each (Some pub0) "logs" "request-1" "application/x-ndjson"
    (lines ["{a}"; "{b}"; ""; "{c}"]) (world0 []) ingest3.1 ingest3.2 Hm (surjective_pairing ingest3)) as (rep & Hrep & H).
  rewrite Hr in Hrep. injection Hrep as <-. clear Hr Hm. destruct H as [(text & [=] & _)|(pub & docs & groups & _ & _ & Hc & Hg & _ & H)].
  exists groups. split; [exact Hg|]. rewrite Hc. cbn [code rbody] in H. destruct H as [(_ & H & _)|(sent & g & rest & w1 & e & _ & _ & _ & [] & _)]; [|reflexivity].
  injection H as H1 H2. lia.
Defined.

(** [cut_line]: a body of lines that is too large is cut at the limit, and what is left of
    the line there is refused as bad JSON: 400 instead of 413. *)
Theorem cut_line : let cfg := MkAPIConfig "" 5 2 1000 in
  (ingest braces ten_bytes cfg (Some pub0) "logs" "" "application/x-ndjson" (lines ["{a}"; "{b}"]) (world0 [])).1 =
    Ok (fail 400 "line 2 is not a JSON object: json: cannot unmarshal") ∧
  (ingest braces ten_bytes cfg (Some pub0) "logs" "" "application/json" (lines ["{a}"; "{b}"]) (world0 [])).1 =
    Ok (fail 413 "the body is too large").
Proof. by vm_compute. Qed.
End IngestDemo.
