(* ===== verification/Node.v ===== *)
(** The coordinator's client of one ZincSearch node (pkg/coordinator/node.go).

    [HTTP] is the interface of the HTTP client; what the JSON bodies decode to is a
    parameter of the section. [Cluster] and [Backups] use the operations below. *)
From S2P Require Import Prelude Strings State.
#[local] Open Scope Z_scope.

Record NodeConfig := MkNodeConfig { nc_Name : string; URL : string; User : string; Password : string }.

Record StreamStatus := MkStreamStatus {
  ss_Connected : bool;
  ss_Paused : bool;
  ss_Drained : bool;
  ss_Stream : string;
  ss_Consumer : string;
  LastApplied : Z;
  StreamLast : Z;
  Lag : Z;
  AppliedTotal : Z;
  SkippedTotal : Z;
  ss_LastError : string;
  ss_LastErrorTime : string;
}.

Definition zero_StreamStatus : StreamStatus :=
  MkStreamStatus false false false "" "" 0 0 0 0 0 "" "".

Record BackupInfo := MkBackupInfo {
  bi_Name : string;
  bi_Size : Z;
  bi_SHA256 : string;
  bi_CreatedAt : Z;
  bi_LastApplied : Z;
  bi_Indexes : list string;
}.

Record Download := MkDownload { dl_Body : string; dl_Size : Z; dl_SHA256 : string }.

(** ** HTTP *)

Record Response := MkResponse { StatusCode : Z; Header : string → string; Body : string }.

(** [http_Do method url auth]: the credentials are sent when given. *)
Class HTTP (S : Type) := {
  http_Do : string → string → option (string * string) → M S Response;
}.

Definition NodeError (node : string) (status : Z) (body : string) : error :=
  Error ("node " +:+ node +:+ " answered " +:+ FormatUint status +:+ ": " +:+ TrimSpace body)
    ["coordinator.NodeError"].

Section node.
Context {S : Type} `{!HTTP S}.
(** The members the code reads of the decoded bodies of /healthz and /api/backup;
    [url.PathEscape] and the encoded query of a drain timeout. *)
Context (decode_healthz : string → option (option StreamStatus))
  (decode_backup : string → option BackupInfo)
  (PathEscape : string → string) (timeout_query : Z → string).

Definition do_ (n : NodeConfig) (method path query : string) (auth : bool) : M S Response :=
  let u := TrimRight (URL n) "/" +:+ path in
  let u := if decide (query = "") then u else u +:+ "?" +:+ query in
  resp ← http_Do method u (if auth then Some (User n, Password n) else None);
  if negb (Z.quot (StatusCode resp) 100 =? 2)
  then throw (NodeError (nc_Name n) (StatusCode resp) (String.substring 0 4096 (Body resp)))
  else mret resp.

(** [doJSON] with a decoder of the body, or without one. *)
Definition doJSON {A} (n : NodeConfig) (method path query : string)
    (decode : string → option A) : M S A :=
  resp ← do_ n method path query true;
  lift (of_option (errors_New "invalid JSON") (decode (Body resp))).

Definition Health (n : NodeConfig) : M S StreamStatus :=
  resp ← do_ n "GET" "/healthz" "" false;
  match decode_healthz (Body resp) with
  | None => throw (errors_New ("node " +:+ nc_Name n +:+ ": unreadable /healthz"))
  | Some None => throw (errors_New
      ("node " +:+ nc_Name n +:+ " does not consume a stream (zinc_stream_enable)"))
  | Some (Some s) => mret s
  end.

Definition Resume (n : NodeConfig) : M S () :=
  doJSON n "POST" "/api/stream/resume" "" (λ _, Some ()).

Definition CreateBackup (n : NodeConfig) (drainTimeout : Z) : M S BackupInfo :=
  info ← doJSON n "POST" "/api/backup" (timeout_query drainTimeout) decode_backup;
  if decide (bi_Name info = "")
  then throw (errors_New ("node " +:+ nc_Name n +:+ " returned no backup"))
  else mret info.

Definition DownloadBackup (n : NodeConfig) (name : string) : M S Download :=
  resp ← do_ n "GET" ("/api/backup/" +:+ PathEscape name) "" true;
  let size := match ParseInt (Header resp "Content-Length") with
              | Ok size => size
              | Err _ => -1
              end in
  mret (MkDownload (Body resp) size (Header resp "X-Zinc-Backup-Sha256")).

Definition DeleteBackup (n : NodeConfig) (name : string) : M S () :=
  doJSON n "DELETE" ("/api/backup/" +:+ PathEscape name) "" (λ _, Some ()).

Lemma do_ok n method path query auth s resp s' :
  do_ n method path query auth s = (Ok resp, s') → 200 ≤ StatusCode resp < 300.
Proof.
  unfold do_. intros H. apply bind_ok in H as (r & s1 & _ & H).
  destruct (Z.eqb_spec (Z.quot (StatusCode r) 100) 2) as [Hq|]; simpl in H; [|done].
  unfold mret, M_ret in H. simplify_eq.
  pose proof (Z.quot_rem' (StatusCode resp) 100).
  pose proof (Z.rem_bound_abs (StatusCode resp) 100).
  assert (0 ≤ StatusCode resp) by lia.
  pose proof (Z.rem_nonneg (StatusCode resp) 100). lia.
Qed.

(** [CreateBackup_named]: [CreateBackup] succeeds only with a named backup, and
    only on a 2xx answer whose body decodes to it. *)
Theorem CreateBackup_named n timeout s info s' :
  CreateBackup n timeout s = (Ok info, s') →
  bi_Name info ≠ "" ∧ ∃ resp s0,
    do_ n "POST" "/api/backup" (timeout_query timeout) true s = (Ok resp, s0) ∧
    200 ≤ StatusCode resp < 300 ∧ decode_backup (Body resp) = Some info.
Proof.
  unfold CreateBackup, doJSON. intros H. apply bind_ok in H as (i & s1 & Hi & H).
  apply bind_ok in Hi as (resp & s2 & Hdo & Hi).
  case_decide; [done|]. unfold mret, M_ret, lift in *. simplify_eq.
  split; [done|]. eexists resp, _. split; [exact Hdo|]. split; [by eapply do_ok|].
  by destruct (decode_backup (Body resp)); simplify_eq/=.
Qed.
End node.

Module NodeDemo.
Definition info : BackupInfo := MkBackupInfo "b1" 10 "ff" 0 7 ["logs"].
#[export] Instance http : HTTP () :=
  {| http_Do _ _ _ := mret (MkResponse 200 (λ _, "") "body") |}.

Lemma CreateBackup_named_witness : bi_Name info ≠ "".
Proof.
  destruct (CreateBackup (λ _, Some info) (λ _, "timeout=1s")
    (MkNodeConfig "a" "http://a" "" "") 1 ()) as [r s] eqn:E.
  assert (r = Ok info) as -> by (revert E; vm_compute; congruence).
  exact (proj1 (CreateBackup_named (λ _, Some info) (λ _, "timeout=1s") _ _ _ _ _ E)).
Defined.
End NodeDemo.
