(* ===== verification/Cluster.v ===== *)
(** The coordinator's view of the nodes and the decision about the master
    (pkg/coordinator/monitor.go and failover.go).

    - [classify], [PollOnce]: what the coordinator makes of the answers of a node.
    - [loadCluster], [FailoverOnce], [Promote], [History]: the shared decision, kept
      in the state store and changed by compare-and-set, over the interfaces [Store]
      of State.v and [HTTP] of Node.v.
    - [ClusterSystem]: several coordinators that decide at the same time. *)
From S2P Require Import Prelude Strings Bytes State Node.
#[local] Open Scope Z_scope.

(** ** monitor.go *)

Definition NodeState := string.
Definition NodeUnknown : NodeState := "unknown".
Definition NodeUp : NodeState := "up".
Definition NodeLagging : NodeState := "lagging".
Definition NodeDegraded : NodeState := "degraded".
Definition NodeSuspect : NodeState := "suspect".
Definition NodeDown : NodeState := "down".
Definition NodeNeedsRestore : NodeState := "needs_restore".

Definition gapMessage : string := "does not reach back".
Definition aheadMessage : string := "is ahead of the stream".

Record NodeStatus := MkNodeStatus {
  ns_Name : string;
  ns_URL : string;
  ns_State : NodeState;
  Failures : Z;
  LastSeen : Z;
  Stream : StreamStatus;
  ns_Error : string;
}.

Definition zero_NodeStatus : NodeStatus :=
  MkNodeStatus "" "" "" 0 time_zero zero_StreamStatus "".

(** [Config] of coordinator.go without the clock, which is the class [Clock]. *)
Record Config := MkConfig {
  cfg_ID : string;
  Nodes : list NodeConfig;
  PollInterval : Z;
  PollTimeout : Z;
  FailThreshold : Z;
  MaxLag : Z;
  PromoteCooldown : Z;
  LeaseTTL : Z;
  BackupInterval : Z;
  BackupRetry : Z;
  BackupRetention : Z;
  OrphanGrace : Z;
  DrainTimeout : Z;
  VerifyInterval : Z;
}.

Definition classify (s : NodeStatus) (cfg : Config) : NodeState :=
  if FailThreshold cfg <=? Failures s then NodeDown
  else if 0 <? Failures s then NodeSuspect
  else if IsZero (LastSeen s) then NodeUnknown
  else if Contains (ss_LastError (Stream s)) gapMessage
       || Contains (ss_LastError (Stream s)) aheadMessage then NodeNeedsRestore
  else if negb (ss_Connected (Stream s)) then NodeDegraded
  else if MaxLag cfg <? Lag (Stream s) then NodeLagging
  else NodeUp.

(** ** failover.go: the shared decision *)

Definition clusterKey : string := "cluster".

Record Cluster := MkCluster { Master : string; Epoch : Z; ChangedAt : Z; cl_Reason : string }.
Definition zero_Cluster : Cluster := MkCluster "" 0 time_zero "".

Record Promotion := MkPromotion {
  p_Epoch : Z; p_From : string; p_To : string; p_At : Z; p_Reason : string }.

Definition history_key (epoch : Z) : string := "history/" +:+ dec20 epoch.

Lemma history_key_lt a b : is_u64 a → is_u64 b →
  String.le (history_key a) (history_key b) → history_key a ≠ history_key b → a < b.
Proof.
  intros Ha Hb Hle Hne. unfold history_key in *.
  assert (String.compare (dec20 a) (dec20 b) ≠ Gt) as Hc.
  { unfold String.le, String.leb in Hle. intros Hc. by cbn in Hle; rewrite Hc in Hle. }
  rewrite compare_dec20 in Hc by done.
  destruct (Z.compare_spec a b) as [->|?|?]; done.
Qed.

(** The immutable fields of [Coordinator] and the mutable ones, with the outside. *)
Record Coordinator := MkCoordinator {
  cfg : Config;
  nodes : gmap string NodeConfig;
  order : list string;
}.

Record world (S : Type) := MkWorld {
  outer : S;
  status : gmap string NodeStatus;
  cluster : Cluster;
  leader : bool;
}.
Arguments MkWorld {_}. Arguments outer {_}. Arguments status {_}.
Arguments cluster {_}. Arguments leader {_}.

(** What a poll makes of the answer of a node; the clock is read on success only. *)
Definition poll_update (cfg : Config) (answer : res (StreamStatus * Z)) (s : NodeStatus)
    : NodeStatus :=
  let s := match answer with
           | Err e => MkNodeStatus (ns_Name s) (ns_URL s) (ns_State s) (i64 (Failures s + 1))
                        (LastSeen s) (Stream s) (err_text e)
           | Ok (stream, t) => MkNodeStatus (ns_Name s) (ns_URL s) (ns_State s) 0 t stream ""
           end in
  MkNodeStatus (ns_Name s) (ns_URL s) (classify s cfg) (Failures s) (LastSeen s) (Stream s)
    (ns_Error s).

Definition ErrUnknownNode (name : string) : error := errors_New ("unknown node " +:+ name).

Section cluster.
Context {V S : Type} `{!Store V S, !JSON V Cluster, !JSON V Promotion, !Clock S, !HTTP S}.
Context (decode_healthz : string → option (option StreamStatus)).
#[local] Abbreviation W := (world S).

Definition set_outer (s : S) (w : W) : W := MkWorld s (status w) (cluster w) (leader w).
Definition out {A} : M S A → M W A := zoom outer set_outer.
Definition set_status (name : string) (s : NodeStatus) : M W () := modify (λ w,
  MkWorld (outer w) (<[name := s]> (status w)) (cluster w) (leader w)).
Definition set_cluster (cl : Cluster) : M W () := modify (λ w,
  MkWorld (outer w) (status w) cl (leader w)).

(** [c.status[name]]: the zero value when missing. *)
Definition status_of (name : string) (w : W) : NodeStatus :=
  default zero_NodeStatus (status w !! name).
Definition nodeStatus (name : string) : M W NodeStatus := gets (status_of name).
Definition NodeStatuses (c : Coordinator) : M W (list NodeStatus) :=
  gets (λ w, (λ name, status_of name w) <$> order c).

(** One goroutine of [PollOnce]. *)
Definition poll (c : Coordinator) (name : string) : M W () :=
  answer ← match nodes c !! name with
           | None => mret (Err (errors_New "nil node"))
           | Some node => try (out (stream ← Health decode_healthz node; t ← now;
                                    mret (stream, t)))
           end;
  s ← nodeStatus name;
  set_status name (poll_update (cfg c) answer s).

(** [PollOnce]: the goroutines finish in the order [finish], a permutation of
    [order c]. Each asks its own node and touches its own entry only, under the
    lock. *)
Fixpoint PollOnce (c : Coordinator) (finish : list string) : M W () :=
  match finish with
  | [] => mret ()
  | name :: finish => poll c name;; PollOnce c finish
  end.

(** [loadCluster]; [fuel] bounds its recursion. *)
Fixpoint loadCluster (fuel : nat) (c : Coordinator) : M W (Cluster * Z) :=
  match fuel with
  | O => throw (errors_New "out of fuel")
  | Datatypes.S fuel =>
      r ← try (out (GetJSON (A := Cluster) clusterKey));
      match r with
      | Ok (cl, rev) =>
          match nodes c !! Master cl with
          | None => throw (errors_New ("the state names master " +:+ Master cl +:+
                             ", which is not a configured node"))
          | Some _ => mret (cl, rev)
          end
      | Err e =>
          if negb (errors_Is e ErrNotFound) then throw e
          else
            match order c with
            | [] => throw (errors_New "index out of range")
            | first :: _ =>
                t ← out now;
                let cl := MkCluster first 1 t "initial" in
                r ← try (out (CreateJSON clusterKey cl));
                match r with
                | Err e => if errors_Is e ErrConflict then loadCluster fuel c else throw e
                | Ok rev => mret (cl, rev)
                end
            end
      end
  end.

Definition refreshCluster (fuel : nat) (c : Coordinator) : M W () :=
  r ← try (loadCluster fuel c);
  match r with
  | Err _ => mret ()
  | Ok (cl, _) => set_cluster cl
  end.

Definition promote (c : Coordinator) (cl : Cluster) (rev : Z) (to reason : string) : M W () :=
  t ← out now;
  let next := MkCluster to (u64 (Epoch cl + 1)) t reason in
  out (UpdateJSON clusterKey next rev);;
  set_cluster next;;
  ignore (out (CreateJSON (history_key (Epoch next))
    (MkPromotion (Epoch next) (Master cl) to (ChangedAt next) reason)));;
  s ← nodeStatus to;
  if ss_Paused (Stream s) then
    match nodes c !! to with
    | Some node => ignore (out (Resume node))
    | None => throw (errors_New "nil node")
    end
  else mret ().

(** The candidate of [FailoverOnce]: the first of the freshest replicas that are up. *)
Fixpoint candidate_loop (master : string) (ss : list NodeStatus) (candidate : string)
    (freshest : Z) : string :=
  match ss with
  | [] => candidate
  | s :: ss =>
      if bool_decide (ns_Name s = master) || negb (bool_decide (ns_State s = NodeUp))
      then candidate_loop master ss candidate freshest
      else if bool_decide (candidate = "") || (freshest <? LastApplied (Stream s))
      then candidate_loop master ss (ns_Name s) (LastApplied (Stream s))
      else candidate_loop master ss candidate freshest
  end.

Definition FailoverOnce (fuel : nat) (c : Coordinator) : M W string :=
  cr ← loadCluster fuel c;
  let '(cl, rev) := (cr : Cluster * Z) in
  set_cluster cl;;
  master ← nodeStatus (Master cl);
  if negb (bool_decide (ns_State master = NodeDown))
     && negb (bool_decide (ns_State master = NodeNeedsRestore)) then mret ""
  else
    t ← out now;
    if Sub t (ChangedAt cl) <? PromoteCooldown (cfg c) then mret ""
    else
      ss ← NodeStatuses c;
      let candidate := candidate_loop (Master cl) ss "" 0 in
      if decide (candidate = "") then mret ""
      else
        r ← try (promote c cl rev candidate
               ("master " +:+ Master cl +:+ " is " +:+ ns_State master));
        match r with
        | Err e => if errors_Is e ErrConflict
                   then refreshCluster fuel c;; mret ""
                   else throw e
        | Ok _ => mret candidate
        end.

Definition Promote (fuel : nat) (c : Coordinator) (name : string) : M W () :=
  match nodes c !! name with
  | None => throw (ErrUnknownNode name)
  | Some _ =>
      s ← nodeStatus name;
      if bool_decide (ns_State s ∈ [NodeDown; NodeSuspect; NodeUnknown; NodeNeedsRestore])
      then throw (errors_New ("node " +:+ name +:+ " is " +:+ ns_State s +:+
                              " and cannot become master"))
      else
        cr ← loadCluster fuel c;
        let '(cl, rev) := (cr : Cluster * Z) in
        if decide (Master cl = name) then mret ()
        else promote c cl rev name "promoted by hand"
  end.

Fixpoint History_loop (es : list (Entry V)) : M W (list Promotion) :=
  match es with
  | [] => mret []
  | e :: es =>
      pr ← out (GetJSON (A := Promotion) (Key e));
      ps ← History_loop es;
      mret (pr.1 :: ps)
  end.

Definition History : M W (list Promotion) :=
  entries ← out (ListPrefix "history/");
  History_loop entries.

(** The node readers are sent to. *)
Definition Master_ (c : Coordinator) (w : W) : option NodeConfig :=
  nodes c !! Master (cluster w).
End cluster.

(** ** What a status says *)

(** The number of failed polls at the end of a sequence. *)
Fixpoint trailing (answers : list (res (StreamStatus * Z))) : nat :=
  match answers with
  | [] => 0
  | _ :: rest =>
      if forallb (λ a, negb (is_ok a)) answers then length answers else trailing rest
  end.

Lemma trailing_snoc answers a :
  trailing (answers ++ [a]) = if is_ok a then 0%nat else S (trailing answers).
Proof.
  induction answers as [|b answers IH]; simpl; [by destruct a|].
  rewrite forallb_app, IH, length_app. simpl.
  destruct a; simpl; [by rewrite !andb_false_r|]. rewrite andb_true_r.
  destruct (is_ok b); simpl; [done|]. destruct (forallb _ answers); simpl; lia.
Qed.

Lemma poll_Failures cfg answers s : Failures s = 0 → Z.of_nat (length answers) < 2 ^ 63 →
  Failures (foldl (λ s a, poll_update cfg a s) s answers) = Z.of_nat (trailing answers).
Proof.
  intros Hs. induction answers as [|a answers IH] using rev_ind; intros Hl; [done|].
  rewrite length_app in Hl. simpl in Hl. rewrite foldl_app, trailing_snoc. simpl.
  destruct a as [[stream t]|e]; simpl; [done|].
  assert (∀ l : list (res (StreamStatus * Z)), (trailing l ≤ length l)%nat) as Ht.
  { clear. induction l as [|a l IH]; simpl; [done|]. case_match; lia. }
  specialize (Ht answers). rewrite IH, i64_small by (unfold is_i64; lia). lia.
Qed.

(** [poll_down]: a node is called down exactly when its last [FailThreshold] polls
    failed, and suspect when fewer at the end did. *)
Theorem poll_down cfg answers s : Failures s = 0 → Z.of_nat (length answers) < 2 ^ 63 →
  answers ≠ [] → 0 < FailThreshold cfg →
  let s' := foldl (λ s a, poll_update cfg a s) s answers in
  (ns_State s' = NodeDown ↔ FailThreshold cfg ≤ Z.of_nat (trailing answers)) ∧
  (ns_State s' = NodeSuspect ↔ 0 < Z.of_nat (trailing answers) < FailThreshold cfg).
Proof.
  intros Hs Hl Hne Ht s'. pose proof (poll_Failures cfg answers s Hs Hl) as Hf. fold s' in Hf.
  assert (ns_State s' = classify s' cfg) as ->.
  { unfold s'. destruct answers as [|a answers _] using rev_ind; [done|].
    rewrite foldl_app. simpl. by destruct a as [[]|]. }
  unfold classify. rewrite Hf. clear Hf.
  repeat case_match; prop_bool; split; split; intros; try done; try lia.
Qed.

(** [classify_up]: only a node that answered its last poll, can continue the
    stream, is connected to it and not further behind than allowed counts as up. *)
Theorem classify_up s cfg : classify s cfg = NodeUp ↔
  Failures s < FailThreshold cfg ∧ Failures s ≤ 0 ∧ LastSeen s ≠ time_zero ∧
  Contains (ss_LastError (Stream s)) gapMessage = false ∧
  Contains (ss_LastError (Stream s)) aheadMessage = false ∧
  ss_Connected (Stream s) = true ∧ Lag (Stream s) ≤ MaxLag cfg.
Proof.
  unfold classify, IsZero. split.
  - intros H. repeat case_match; try done. prop_bool.
    destruct (Contains _ gapMessage), (Contains _ aheadMessage), (ss_Connected _); done.
  - intros (H1 & H2 & H3 & -> & -> & -> & H4). simpl.
    apply Z.leb_gt in H1. apply Z.ltb_ge in H2, H4. apply Z.eqb_neq in H3.
    by rewrite H1, H2, H3, H4.
Qed.

(** *** The candidate *)

(** A replica that may take over from [master]. *)
Definition eligible (master : string) (s : NodeStatus) : Prop :=
  ns_Name s ≠ master ∧ ns_State s = NodeUp.

Lemma candidate_loop_spec master ss c f :
  Forall (λ s, ns_Name s ≠ "" ∧ 0 ≤ LastApplied (Stream s)) ss → (c = "" → f = 0) →
  let to := candidate_loop master ss c f in
  (to = "" → c = "" ∧ Forall (λ s, ¬ eligible master s) ss) ∧
  (to ≠ "" → ∃ n, f ≤ n ∧
     ((to = c ∧ n = f) ∨ ∃ s, s ∈ ss ∧ eligible master s ∧ ns_Name s = to ∧
        LastApplied (Stream s) = n) ∧
     ∀ s, s ∈ ss → eligible master s → LastApplied (Stream s) ≤ n).
Proof.
  revert c f. induction ss as [|s ss IH]; intros c f Hss Hc to.
  { unfold to. simpl. split; [auto|]. intros _. exists f.
    split; [lia|]. split; [by left|set_solver]. }
  apply Forall_cons in Hss as [[Hn Hl] Hss]. unfold to. simpl. clear to.
  destruct (bool_decide _ || _) eqn:E1; [|destruct (bool_decide (c = "") || _) eqn:E2].
  - assert (¬ eligible master s) as Hs.
    { intros [??]. apply orb_true_iff in E1 as [?|?]; prop_bool; done. }
    destruct (IH c f Hss Hc) as [H1 H2]. split.
    + intros Hto. destruct (H1 Hto). split; [done|by constructor].
    + intros Hto. destruct (H2 Hto) as (n & Hfn & Hor & Hall). exists n. split; [done|].
      split; [|by intros s' [->|?]%elem_of_cons ?; [done|auto]].
      destruct Hor as [?|(s' & Hin & ?)]; [by left|right; exists s'; by rewrite elem_of_cons; auto].
  - apply orb_false_iff in E1 as [Hm Hu]. prop_bool.
    assert (eligible master s) by by split.
    destruct (IH (ns_Name s) (LastApplied (Stream s)) Hss) as [H1 H2]; [done|]. split.
    + intros Hto. by destruct (H1 Hto).
    + intros Hto. destruct (H2 Hto) as (n & Hfn & Hor & Hall). exists n.
      split; [apply orb_true_iff in E2 as [E2|E2]; prop_bool; [rewrite (Hc E2)|]; lia|].
      split; [right|by intros s' [->|?]%elem_of_cons ?; auto].
      destruct Hor as [[Heq ->]|(s' & Hin & Hs')]; [|exists s'; by rewrite elem_of_cons; auto].
      exists s. by rewrite elem_of_cons; auto.
  - apply orb_false_iff in E2 as [Hcn Hle]. prop_bool.
    destruct (IH c f Hss Hc) as [H1 H2]. split.
    + intros Hto. by destruct (H1 Hto).
    + intros Hto. destruct (H2 Hto) as (n & Hfn & Hor & Hall). exists n. split; [done|].
      split; [|by intros s' [->|?]%elem_of_cons ?; [lia|auto]].
      destruct Hor as [?|(s' & Hin & ?)]; [by left|right; exists s'; by rewrite elem_of_cons; auto].
Qed.

(** ** The decision is changed correctly *)

(** Reading the clock and talking to the nodes leaves the state store alone. *)
Class Outside (V S : Type) `{!Store V S, !StoreLaws V S, !Clock S, !HTTP S} := {
  tick_view s : store_ok s → store_ok (tick s).2 ∧ view (tick s).2 = view s;
  http_view method url auth s r s' : store_ok s → http_Do method url auth s = (r, s') →
    store_ok s' ∧ view s' = view s;
}.

Section decision.
Context {V S : Type} `{!Store V S, !StoreLaws V S, !JSON V Cluster, !JSON V Promotion,
  !Clock S, !HTTP S, !Outside V S}.
#[local] Set Default Proof Using "All".
#[local] Abbreviation W := (world S).

Definition contents (w : W) : gmap string (V * Z) := view (outer w).

(** The part of the coordinator that the store operations leave alone. *)
Definition same_view (w w' : W) : Prop :=
  status w' = status w ∧ cluster w' = cluster w ∧ leader w' = leader w.

Lemma out_inv {A} (c : M S A) (w w' : W) r : out c w = (r, w') →
  ∃ s', c (outer w) = (r, s') ∧ outer w' = s' ∧ same_view w w'.
Proof using Type.
  unfold out, zoom. destruct (c (outer w)) as [r' s'] eqn:E. intros [= <- <-].
  by exists s'.
Qed.

(** What the clock says, and the state after it was read. *)
Definition time_at (w : W) : Z := (tick (outer w)).1.

Lemma out_now (w w' : W) r : out now w = (r, w') → store_ok (outer w) →
  r = Ok (time_at w) ∧ outer w' = (tick (outer w)).2 ∧ store_ok (outer w') ∧
  contents w' = contents w ∧ same_view w w'.
Proof.
  intros (s' & H & Hs' & Hs)%out_inv Hok. unfold now in H.
  pose proof (tick_view _ Hok) as [H1 H2]. unfold contents, time_at. subst s'.
  destruct (tick (outer w)) as [t s1]. injection H as <- <-. simpl in *. eauto.
Qed.

(** What [loadCluster] returns is the stored decision, or the initial one that it
    has stored. *)
Definition loaded (c : Coordinator) (v0 : gmap string (V * Z)) (cl : Cluster) (rev : Z)
    (v1 : gmap string (V * Z)) : Prop :=
  (v1 = v0 ∧ is_Some (nodes c !! Master cl) ∧
     ∃ x, v0 !! clusterKey = Some (x, rev) ∧ unmarshal x = Some cl) ∨
  (v0 !! clusterKey = None ∧ v1 = <[clusterKey := (marshal cl, rev)]> v0 ∧
     head (order c) = Some (Master cl) ∧ Epoch cl = 1).

Lemma loaded_current c v0 cl rev v1 : loaded c v0 cl rev v1 →
  ∃ x, v1 !! clusterKey = Some (x, rev) ∧ unmarshal x = Some cl.
Proof.
  intros [(-> & _ & x & ? & ?)|(_ & -> & _)]; [by exists x|].
  exists (marshal cl). by rewrite lookup_insert_eq, unmarshal_marshal.
Qed.

Lemma loadCluster_spec fuel c (w w' : W) r : loadCluster (Datatypes.S fuel) c w = (r, w') →
  store_ok (outer w) →
  store_ok (outer w') ∧ same_view w w' ∧
  match r with
  | Ok (cl, rev) => loaded c (contents w) cl rev (contents w')
  | Err e => contents w' = contents w ∨
      contents w !! clusterKey = None ∧ ∃ x rev, contents w' = <[clusterKey := (x, rev)]> (contents w)
  end.
Proof.
  intros H Hok. cbn [loadCluster] in H.
  apply bind_inv in H as [(e & Hg & _)|(g & w1 & Hg & H)]; unfold try in Hg;
    destruct (out _ w) as [g' w1'] eqn:Hout; simplify_eq.
  apply out_inv in Hout as (s1 & Hg & Hs1 & Hsame).
  apply GetJSON_spec in Hg as (Hok1 & Hv1 & Hg); [|done]. subst s1.
  destruct g as [[cl rev]|e].
  { destruct Hg as (x & Hx & Hu). destruct (nodes c !! Master cl) eqn:Hn;
      unfold mret, M_ret, throw in H; simplify_eq; split_and!; try done; [|by left].
    left. split_and!; [done|by rewrite Hn|by exists x]. }
  destruct (errors_Is e ErrNotFound) eqn:He; simpl in H; [|unfold throw in H; simplify_eq; auto].
  specialize (Hg eq_refl). destruct (order c) as [|first rest] eqn:Ho;
    [unfold throw in H; simplify_eq; auto|].
  apply bind_inv in H as [(e' & Hn & ->)|(t & w2 & Hn & H)];
    apply out_now in Hn as (? & _ & Hok2 & Hv2 & Hsame2); try done; simplify_eq.
  apply bind_inv in H as [(e' & Hc & _)|(cr & w3 & Hc & H)]; unfold try in Hc;
    destruct (out _ w2) as [c' w3'] eqn:Hout; simplify_eq.
  apply out_inv in Hout as (s3 & Hc & Hs3 & Hsame3). subst s3.
  apply Create_law in Hc as [Hok3 Hc]; [|done].
  assert (same_view w w3) as Hsame' by (unfold same_view in *; naive_solver congruence).
  assert (contents w2 = contents w) as Hw2 by (rewrite Hv2; done).
  change (view (outer w2)) with (contents w2) in Hc. rewrite Hw2 in Hc.
  change (view (outer w3)) with (contents w3) in Hc.
  destruct cr as [rev|e'].
  - destruct Hc as [Hc1 Hc2]. unfold mret, M_ret in H. simplify_eq.
    split_and!; [done..|]. right. simpl. by rewrite Ho.
  - destruct Hc as [Hc1 Hc2]. destruct (errors_Is e' ErrConflict).
    + destruct (Hc1 eq_refl) as [_ Hsome]. unfold contents in Hsome.
      rewrite Hg in Hsome. by destruct Hsome.
    + unfold throw in H. simplify_eq. split_and!; [done..|].
      destruct Hc2 as [?|(? & rv & ?)]; [by left|right]. eauto.
Qed.

Definition next_cluster (cl : Cluster) (to : string) (t : Z) (reason : string) : Cluster :=
  MkCluster to (u64 (Epoch cl + 1)) t reason.
Definition promotion (cl : Cluster) (to : string) (t : Z) (reason : string) : Promotion :=
  MkPromotion (u64 (Epoch cl + 1)) (Master cl) to t reason.

(** The contents after the decision [next] was written, with or without its entry
    of the history. *)
Definition written (cl : Cluster) (to : string) (t : Z) (reason : string)
    (v0 v1 : gmap string (V * Z)) : Prop :=
  ∃ rev v, v = <[clusterKey := (marshal (next_cluster cl to t reason), rev)]> v0 ∧
  (v1 = v ∨ v !! history_key (u64 (Epoch cl + 1)) = None ∧ ∃ hrev,
     v1 = <[history_key (u64 (Epoch cl + 1)) := (marshal (promotion cl to t reason), hrev)]> v).

Lemma ignore_http {A} (c : M S A) (w w' : W) r :
  (∀ s r s', store_ok s → c s = (r, s') → store_ok s' ∧ view s' = view s) →
  store_ok (outer w) → ignore (out c) w = (r, w') →
  r = Ok () ∧ store_ok (outer w') ∧ contents w' = contents w ∧ same_view w w'.
Proof.
  unfold ignore. intros Hc Hok H. destruct (out c w) as [r1 w1] eqn:Hout.
  injection H as <- <-. apply out_inv in Hout as (s1 & H1 & H2 & Hs). subst s1.
  unfold contents. naive_solver.
Qed.

Lemma do_view n method path query auth s r s' : store_ok s →
  do_ n method path query auth s = (r, s') → store_ok s' ∧ view s' = view s.
Proof.
  unfold do_. intros Hok H.
  apply bind_inv in H as [(e & H & _)|(resp & s1 & H & H')]; [by eapply http_view|].
  apply http_view in H as Hv; [|done].
  destruct (negb _); unfold throw, mret, M_ret in H'; by simplify_eq.
Qed.

Lemma Resume_view n s r s' : store_ok s → Resume n s = (r, s') →
  store_ok s' ∧ view s' = view s.
Proof.
  unfold Resume, doJSON. intros Hok H.
  apply bind_inv in H as [(e & H & _)|(resp & s1 & H & H')];
    apply do_view in H; try done. unfold lift in H'. by simplify_eq.
Qed.

(** [promote] after the decision was written: nothing of it is taken back. *)
Lemma promote_tail_spec c cl to t reason (w w' : W) r :
  let v := contents w in
  (ignore (out (CreateJSON (history_key (u64 (Epoch cl + 1))) (promotion cl to t reason)));;
   s ← nodeStatus to;
   if ss_Paused (Stream s) then
     match nodes c !! to with
     | Some node => ignore (out (Resume node))
     | None => throw (errors_New "nil node")
     end
   else mret ()) w = (r, w') → store_ok (outer w) →
  store_ok (outer w') ∧ same_view w w' ∧ (is_Some (nodes c !! to) → r = Ok ()) ∧
  (∀ e, r = Err e → errors_Is e ErrConflict = false) ∧
  (contents w' = v ∨ v !! history_key (u64 (Epoch cl + 1)) = None ∧ ∃ hrev, contents w' =
     <[history_key (u64 (Epoch cl + 1)) := (marshal (promotion cl to t reason), hrev)]> v).
Proof.
  intros v H Hok. apply bind_inv in H as [(e & H & _)|([] & w1 & H & Hrest)];
    unfold ignore in H; destruct (out _ w) as [rc w1'] eqn:Hout; [done|].
  injection H as <-. apply out_inv in Hout as (s1 & Hc & Hs1 & Hsame). subst s1.
  apply Create_law in Hc as [Hok1 Hc]; [|done].
  assert (contents w1' = v ∨ v !! history_key (u64 (Epoch cl + 1)) = None ∧ ∃ hrev, contents w1' =
     <[history_key (u64 (Epoch cl + 1)) := (marshal (promotion cl to t reason), hrev)]> v) as Hv.
  { unfold v, contents. destruct rc; naive_solver. }
  assert (store_ok (outer w') ∧ same_view w1' w' ∧ contents w' = contents w1' ∧
    (is_Some (nodes c !! to) → r = Ok ()) ∧ ∀ e, r = Err e → errors_Is e ErrConflict = false)
    as (? & ? & Hw' & ? & ?).
  { apply bind_inv in Hrest as [(e & [=] & _)|(s & ? & [= <- <-] & H)].
    destruct (ss_Paused _); [destruct (nodes c !! to) as [n|] eqn:Hn|].
    - apply (ignore_http _ w1' w' r) in H as (-> & ? & ? & ?);
        [by split_and!|apply Resume_view|done].
    - unfold throw in H. simplify_eq. split_and!; try done; (by intros []) || (by intros e [= <-]).
    - unfold mret, M_ret in H. simplify_eq. by split_and!. }
  rewrite Hw'. split_and!; try done. unfold same_view in *. naive_solver congruence.
Qed.

Lemma promote_spec c cl rev to reason (w w' : W) r : promote c cl rev to reason w = (r, w') →
  store_ok (outer w) →
  store_ok (outer w') ∧ status w' = status w ∧ leader w' = leader w ∧
  ((∃ old, contents w !! clusterKey = Some (old, rev) ∧
      written cl to (time_at w) reason (contents w) (contents w') ∧
      cluster w' = next_cluster cl to (time_at w) reason ∧
      (is_Some (nodes c !! to) → r = Ok ()) ∧
      ∀ e, r = Err e → errors_Is e ErrConflict = false) ∨
   (∃ e, r = Err e ∧ cluster w' = cluster w ∧
      (errors_Is e ErrConflict = true → contents w' = contents w ∧
         ∃ old rv, contents w !! clusterKey = Some (old, rv) ∧ rv ≠ rev) ∧
      (contents w' = contents w ∨ ∃ old, contents w !! clusterKey = Some (old, rev) ∧
         written cl to (time_at w) reason (contents w) (contents w')))).
Proof.
  intros H Hok. unfold promote in H.
  apply bind_inv in H as [(e & Hn & ->)|(t & w1 & Hn & H)];
    apply out_now in Hn as (Ht & _ & Hok1 & Hv1 & (Hs1 & Hs2 & Hs3)); try done.
  injection Ht as ->. set (t := time_at w) in *. fold (next_cluster cl to t reason) in H. cbn [Epoch ChangedAt next_cluster] in H.
  fold (promotion cl to t reason) in H.
  apply bind_inv in H as [(e & Hu & ->)|(rev' & w2 & Hu & H)];
    apply out_inv in Hu as (s2 & Hu & Hs & (Ha1 & Ha2 & Ha3)); subst s2;
    apply Update_law in Hu as [Hok2 Hu]; try done;
    change (view (outer w1)) with (contents w1) in Hu; rewrite Hv1 in Hu.
  - change (view (outer w')) with (contents w') in Hu.
    destruct Hu as (Hc & Hnf & Hw). split_and!; [done|congruence..|right].
    exists e. split_and!; [done|congruence|done|].
    destruct Hw as [?|((old & ?) & rv & ?)]; [by left|right]. exists old. split; [done|].
    exists rv. eexists. split; [done|]. by left.
  - change (view (outer w2)) with (contents w2) in Hu. destruct Hu as [(old & Hold) Hw2].
    apply bind_inv in H as [(e & [=] & _)|([] & w3 & [= <-] & H)].
    apply promote_tail_spec in H as (Hok4 & (Hb1 & Hb2 & Hb3) & Hr & Hre & Hw); [|done].
    cbn [status cluster leader] in *. change (contents (MkWorld _ _ _ _)) with (contents w2) in Hw.
    split_and!; [done|congruence..|left].
    exists old. split_and!; [done| |done|done|done]. exists rev', (contents w2). done.
Qed.

(** Every configured node has a name and a status that carries it. *)
Definition statuses_ok (c : Coordinator) (st : gmap string NodeStatus) : Prop :=
  ∀ name, name ∈ order c → name ≠ "" ∧ is_Some (nodes c !! name) ∧
    ∃ s, st !! name = Some s ∧ ns_Name s = name ∧ 0 ≤ LastApplied (Stream s).

Definition unavailable (w : W) (name : string) : Prop :=
  ns_State (status_of name w) = NodeDown ∨ ns_State (status_of name w) = NodeNeedsRestore.

Definition replica (c : Coordinator) (w : W) (master : string) (s : NodeStatus) : Prop :=
  s ∈ (λ name, status_of name w) <$> order c ∧ eligible master s.

Lemma statuses_names c (w : W) : statuses_ok c (status w) →
  Forall (λ s, ns_Name s ≠ "" ∧ 0 ≤ LastApplied (Stream s)) ((λ name, status_of name w) <$> order c).
Proof using Type.
  intros H. apply Forall_fmap, Forall_forall. intros name Hn.
  destruct (H name Hn) as (? & _ & s & Hs & Hname & ?). simpl. unfold status_of.
  rewrite Hs. simpl. by rewrite Hname.
Qed.

Lemma status_of_name c (w : W) s : statuses_ok c (status w) →
  s ∈ (λ name, status_of name w) <$> order c → ns_Name s ∈ order c.
Proof using Type.
  intros H (name & -> & Hn)%list_elem_of_fmap.
  destruct (H name Hn) as (? & _ & s & Hs & Hname & ?). unfold status_of. rewrite Hs. simpl.
  by rewrite Hname.
Qed.

(** The decision of [FailoverOnce] after it loaded [cl]. *)
Lemma FailoverOnce_decide fuel c cl rev (w w' : W) (to : string) :
  (∃ x, contents w !! clusterKey = Some (x, rev)) →
  (master ← nodeStatus (Master cl);
   if negb (bool_decide (ns_State master = NodeDown))
      && negb (bool_decide (ns_State master = NodeNeedsRestore)) then mret ""
   else
     t ← out now;
     if Sub t (ChangedAt cl) <? PromoteCooldown (cfg c) then mret ""
     else
       ss ← NodeStatuses c;
       let candidate := candidate_loop (Master cl) ss "" 0 in
       if decide (candidate = "") then mret ""
       else
         r ← try (promote c cl rev candidate
                ("master " +:+ Master cl +:+ " is " +:+ ns_State master));
         match r with
         | Err e => if errors_Is e ErrConflict
                    then refreshCluster fuel c;; mret ""
                    else throw e
         | Ok _ => mret candidate
         end) w = (Ok to, w') →
  store_ok (outer w) → statuses_ok c (status w) →
  (to = "" ∧ contents w' = contents w ∧
     (¬ unavailable w (Master cl) ∨ Sub (time_at w) (ChangedAt cl) < PromoteCooldown (cfg c) ∨
      ∀ s, ¬ replica c w (Master cl) s)) ∨
  (to ≠ "" ∧ unavailable w (Master cl) ∧
     PromoteCooldown (cfg c) ≤ Sub (time_at w) (ChangedAt cl) ∧
     (∃ s, replica c w (Master cl) s ∧ ns_Name s = to ∧ to ∈ order c ∧
        ∀ s', replica c w (Master cl) s' → LastApplied (Stream s') ≤ LastApplied (Stream s)) ∧
     let t := (tick (tick (outer w)).2).1 in
     ∃ reason, cluster w' = next_cluster cl to t reason ∧
       written cl to t reason (contents w) (contents w')).
Proof.
  intros [x Hx] H Hok Hst.
  apply bind_inv in H as [(e & [=] & _)|(m & w1 & [= <- <-] & H)].
  destruct (negb _ && _) eqn:Hm.
  { unfold mret, M_ret in H. simplify_eq. left. split_and!; [done..|left].
    intros [Hd|Hd]; prop_bool; done. }
  assert (unavailable w (Master cl)) as Hun.
  { unfold unavailable. apply andb_false_iff in Hm as [Hm|Hm]; prop_bool; auto. }
  apply bind_inv in H as [(e & Hn & [=])|(t & w1 & Hn & H)].
  apply out_now in Hn as ([= ->] & Htick & Hok1 & Hv1 & (Hs1 & Hs2 & Hs3)); [|done].
  destruct (Z.ltb_spec (Sub (time_at w) (ChangedAt cl)) (PromoteCooldown (cfg c))).
  { unfold mret, M_ret in H. simplify_eq. left. split_and!; [done..|right; left; done]. }
  apply bind_inv in H as [(e & [=] & _)|(ss & ? & [= <- <-] & H)]. cbv zeta in H.
  assert ((λ name, status_of name w1) <$> order c = (λ name, status_of name w) <$> order c) as Hss
    by (apply list_fmap_ext; intros; unfold status_of; by rewrite Hs1).
  rewrite Hss in H.
  destruct (candidate_loop_spec (Master cl) ((λ name, status_of name w) <$> order c) "" 0)
    as [Hnone Hsome]; [by apply statuses_names|done|].
  case_decide as Hc.
  { unfold mret, M_ret in H. simplify_eq. left. split_and!; [done..|right; right].
    destruct (Hnone Hc) as [_ Hall]. rewrite Forall_forall in Hall.
    intros s [Hin He]. by apply (Hall s). }
  destruct (Hsome Hc) as (n & _ & [[? _]|(s & Hin & He & Hname & <-)] & Hmax); [done|].
  apply bind_inv in H as [(e & Hp & [=])|(pr & w2 & Hp & H)]. unfold try in Hp.
  destruct (promote _ _ _ _ _ w1) as [pr' w2'] eqn:Hpr. injection Hp as <- <-.
  apply promote_spec in Hpr as (Hok2 & Hst2 & Hl2 & Hpr); [|done]. rewrite Hv1 in Hpr.
  unfold time_at at 1 2 3 in Hpr. rewrite Htick in Hpr.
  destruct Hpr as [(old & Hold & Hw & Hcl & Hr & Hre)|(e & -> & Hcl & Hconf & _)].
  - right. destruct pr' as [[]|e].
    + unfold mret, M_ret in H. simplify_eq. split_and!; [done|done|done| |by eauto].
      exists s. split_and!; [by split|done| |].
      * rewrite <- Hname. by eapply status_of_name.
      * intros s' [??]. by apply Hmax.
    + rewrite (Hre e eq_refl) in H. done.
  - destruct (errors_Is e ErrConflict); [|done].
    destruct (Hconf eq_refl) as (_ & old & rv & Hrv & Hne). congruence.
Qed.

(** C21: a run of [FailoverOnce] that names a new master has found the stored master
    down or in need of a restore and, by the clock it read once the decision was loaded,
    the cooldown since the last change over; it has taken a configured replica that is
    up and at least as far as every other such replica; it has written the decision with
    the next epoch and the next reading of the clock, against the revision it read, and
    adopted it. A run that names none, without an error, has changed nothing but, at
    most, stored the initial decision, and one of the three conditions did not hold. No
    other coordinator writes in between (several of them: [one_master_per_epoch]). *)
Theorem FailoverOnce_promotes fuel c (w w' : W) (to : string) :
  store_ok (outer w) → statuses_ok c (status w) →
  FailoverOnce (Datatypes.S fuel) c w = (Ok to, w') →
  ∃ cl rev w1, loadCluster (Datatypes.S fuel) c w = (Ok (cl, rev), w1) ∧
  loaded c (contents w) cl rev (contents w1) ∧
  ((to = "" ∧ contents w' = contents w1 ∧
     (¬ unavailable w (Master cl) ∨ Sub (time_at w1) (ChangedAt cl) < PromoteCooldown (cfg c) ∨
      ∀ s, ¬ replica c w (Master cl) s)) ∨
   (to ≠ "" ∧ unavailable w (Master cl) ∧
     PromoteCooldown (cfg c) ≤ Sub (time_at w1) (ChangedAt cl) ∧
     (∃ s, replica c w (Master cl) s ∧ ns_Name s = to ∧ to ∈ order c ∧
        ∀ s', replica c w (Master cl) s' → LastApplied (Stream s') ≤ LastApplied (Stream s)) ∧
     let t := (tick (tick (outer w1)).2).1 in
     ∃ reason, cluster w' = next_cluster cl to t reason ∧
       written cl to t reason (contents w1) (contents w'))).
Proof.
  intros Hok Hst H. unfold FailoverOnce in H.
  apply bind_inv in H as [(e & Hl & [=])|([cl rev] & w1 & Hl & H)]. exists cl, rev, w1. split; [done|].
  apply loadCluster_spec in Hl as (Hok1 & (Hs1 & _ & _) & Hload); [|done].
  pose proof (loaded_current _ _ _ _ _ Hload) as (x & Hx & _).
  apply bind_inv in H as [(e & [=] & _)|([] & w2 & [= <-] & H)]. split; [done|].
  apply FailoverOnce_decide in H; [|by exists x|done|simpl; by rewrite Hs1].
  unfold unavailable, replica, status_of in *. cbn [status] in *. rewrite Hs1 in H. exact H.
Qed.

(** [Promote_by_hand]: [Promote] makes a configured node master only when its
    state allows it, by a decision with the next epoch, and does nothing when the
    node is master already. *)
Theorem Promote_by_hand fuel c (w w' : W) (to : string) :
  store_ok (outer w) → Promote (Datatypes.S fuel) c to w = (Ok (), w') →
  is_Some (nodes c !! to) ∧
  (ns_State (status_of to w) ∉ [NodeDown; NodeSuspect; NodeUnknown; NodeNeedsRestore]) ∧
  ∃ cl rev v1, loaded c (contents w) cl rev v1 ∧
    ((Master cl = to ∧ contents w' = v1) ∨
     (Master cl ≠ to ∧ ∃ t, cluster w' = next_cluster cl to t "promoted by hand" ∧
        written cl to t "promoted by hand" v1 (contents w'))).
Proof.
  intros Hok H. unfold Promote in H. destruct (nodes c !! to) as [n|] eqn:Hn; [|done].
  split; [by eexists|].
  apply bind_inv in H as [(e & [=] & _)|(s & ? & [= <- <-] & H)].
  destruct (bool_decide _) eqn:Hs; [done|]. apply bool_decide_eq_false in Hs. split; [done|].
  apply bind_inv in H as [(e & Hl & [=])|([cl rev] & w1 & Hl & H)].
  apply loadCluster_spec in Hl as (Hok1 & _ & Hload); [|done].
  exists cl, rev, (contents w1). split; [done|].
  case_decide; [unfold mret, M_ret in H; simplify_eq; by left|right].
  split; [done|]. apply promote_spec in H as (_ & _ & _ & H); [|done].
  destruct H as [(old & _ & Hw & Hcl & _)|(e & [=] & _)]. by exists (time_at w1).
Qed.

(** [loadCluster_total]: without other writers [loadCluster] does not recurse:
    one level of fuel is enough, and more fuel gives the same result. *)
Theorem loadCluster_total fuel c (w : W) : store_ok (outer w) →
  loadCluster (Datatypes.S fuel) c w = loadCluster 1 c w.
Proof.
  intros Hok. cbn [loadCluster]. unfold mbind, M_bind, try at 1 3.
  destruct (out (GetJSON clusterKey) w) as [g w1] eqn:Hg. destruct g as [|e]; [done|].
  apply out_inv in Hg as (s1 & Hg & Hs1 & _). subst s1.
  apply GetJSON_spec in Hg as (Hok1 & Hv1 & Hg); [|done].
  destruct (errors_Is e ErrNotFound); simpl; [|done]. specialize (Hg eq_refl).
  destruct (order c) as [|first rest]; [done|].
  destruct (out now w1) as [t w2] eqn:Hn. apply out_now in Hn as (-> & _ & Hok2 & Hv2 & _); [|done].
  unfold try. destruct (out _ w2) as [[|e'] w3] eqn:Hc; [done|].
  apply out_inv in Hc as (s3 & Hc & _). apply Create_law in Hc as (_ & Hc & _); [|done].
  destruct (errors_Is e' ErrConflict); [|done]. destruct (Hc eq_refl) as [_ Hsome].
  change (view (outer w2)) with (contents w2) in Hsome. rewrite Hv2 in Hsome.
  unfold contents in Hsome. rewrite Hv1, Hg in Hsome. by destruct Hsome.
Qed.

(** *** The history *)

(** Every entry of the history is filed under its epoch. *)
Definition history_ok (v : gmap string (V * Z)) : Prop :=
  ∀ k x rev, v !! k = Some (x, rev) → HasPrefix k "history/" = true →
    ∃ p, unmarshal x = Some p ∧ k = history_key (p_Epoch p) ∧ is_u64 (p_Epoch p).

Lemma written_history cl to t reason v0 v1 : written cl to t reason v0 v1 →
  history_ok v0 → history_ok v1.
Proof.
  intros (rev & v & -> & Hv1) Hh.
  assert (history_ok (<[clusterKey:=(marshal (next_cluster cl to t reason), rev)]> v0)) as Hh'.
  { intros k x rv Hk Hp. rewrite lookup_insert_ne in Hk; [by eapply Hh|]. by intros <-. }
  destruct Hv1 as [->|(_ & hrev & ->)]; [done|].
  intros k x rv Hk Hp. rewrite lookup_insert in Hk. case_decide; [|by eapply Hh'].
  simplify_eq. exists (promotion cl to t reason). rewrite unmarshal_marshal.
  split_and!; [done|done|apply u64_range].
Qed.

Lemma History_loop_spec es (w w' : W) ps : store_ok (outer w) →
  History_loop es w = (Ok ps, w') →
  contents w' = contents w ∧
  Forall2 (λ e p, ∃ x rev, contents w !! Key e = Some (x, rev) ∧ unmarshal x = Some p) es ps.
Proof.
  revert w ps. induction es as [|e es IH]; intros w ps Hok H; cbn [History_loop] in H.
  { unfold mret, M_ret in H. simplify_eq. split; [done|constructor]. }
  apply bind_ok in H as ([p rev] & w1 & Hg & H). apply bind_ok in H as (ps' & w2 & Hr & H).
  unfold mret, M_ret in H. simplify_eq.
  apply out_inv in Hg as (s1 & Hg & Hs1 & _). subst s1.
  apply GetJSON_spec in Hg as (Hok1 & Hv1 & x & Hx & Hu); [|done].
  destruct (IH w1 ps' Hok1 Hr) as [Hv2 Hall]. unfold contents in *. rewrite Hv1 in *.
  split; [done|]. constructor; [by exists x, rev|done].
Qed.

(** [History_sorted]: [History] returns the promotions in ascending order of
    their epochs: the decimal keys have the order of the numbers. *)
Theorem History_sorted (w w' : W) ps : store_ok (outer w) → history_ok (contents w) →
  History w = (Ok ps, w') →
  contents w' = contents w ∧ StronglySorted (λ p q, p_Epoch p < p_Epoch q) ps ∧
  ∀ p, p ∈ ps → ∃ x rev, contents w !! history_key (p_Epoch p) = Some (x, rev) ∧
                        unmarshal x = Some p.
Proof.
  intros Hok Hh H. unfold History in H. apply bind_ok in H as (es & w1 & Hl & H).
  apply out_inv in Hl as (s1 & Hl & Hs1 & _). subst s1.
  apply List_law in Hl as (Hok1 & Hv1 & Hes); [|done].
  destruct (Hes es eq_refl) as (Hsort & Hnd & Hin). clear Hes.
  apply History_loop_spec in H as [Hv2 Hall]; [|done].
  assert (contents w1 = contents w) as Hw by done. rewrite Hw in *. split; [done|].
  assert (Forall2 (λ e p, Key e = history_key (p_Epoch p) ∧ is_u64 (p_Epoch p) ∧
    ∃ x rev, contents w !! Key e = Some (x, rev) ∧ unmarshal x = Some p) es ps) as Hkeys.
  { apply Forall2_same_length_lookup_2; [by eapply Forall2_length|].
    intros i e p He Hp. destruct (Forall2_lookup_lr _ _ _ _ _ _ Hall He Hp) as (x & rev & Hx & Hu).
    destruct (Hh _ _ _ Hx) as (p' & Hu' & Hk & Hr); [|naive_solver].
    apply (Hin (Key e) (Value e) (Revision e)). exists e. split; [|done].
    by eapply list_elem_of_lookup_2. }
  clear Hall Hin Hv1 Hv2 Hw Hok1. split.
  - revert Hsort Hnd. induction Hkeys as [|e p es ps (He & Hr & _) Hkeys IH]; intros Hs Hnd; constructor.
    + apply IH; [by inversion Hs|by inversion Hnd].
    + apply StronglySorted_inv in Hs as [_ Hle]. apply NoDup_cons in Hnd as [Hne _].
      rewrite Forall_forall in Hle. apply Forall_forall. intros q (i & Hq)%list_elem_of_lookup.
      destruct (Forall2_lookup_r _ _ _ _ _ Hkeys Hq) as (e' & He' & Hk' & Hr' & _).
      apply list_elem_of_lookup_2 in He'. specialize (Hle _ He'). simpl in Hle.
      assert (Key e ≠ Key e') by (intros Heq; apply Hne; rewrite Heq; by apply list_elem_of_fmap_2).
      rewrite He, Hk' in *. by apply history_key_lt.
  - intros p (i & Hp)%list_elem_of_lookup.
    destruct (Forall2_lookup_r _ _ _ _ _ Hkeys Hp) as (e & _ & Hk & _ & x & rev & Hx & Hu).
    exists x, rev. by rewrite <- Hk.
Qed.
End decision.

(** ** Several coordinators

    Every instance loads the decision and later tries to replace it; loads and
    compare-and-set writes of all instances interleave on one [Mem], which other
    writers use too. [decided] is every decision that was ever stored, newest first. *)
Module ClusterSystem.
Section system.
Context {V : Type} `{!JSON V Cluster}.

Record state := Mk {
  store : Mem.t V;
  held : string → option (Cluster * Z);  (** what an instance last loaded *)
  decided : list Cluster;
}.

Definition lookup_cluster (m : Mem.t V) : option (V * Z) := Mem.contents m !! clusterKey.

Definition hold (h : string) (x : Cluster * Z) (f : string → option (Cluster * Z)) :=
  λ h', if decide (h' = h) then Some x else f h'.

Inductive step : state → state → Prop :=
| step_init m f d cl r m' : Epoch cl = 1 → Mem.rev m + 1 < u64_max →
    Mem.Create clusterKey (marshal cl) m = (r, m') →
    step (Mk m f d) (Mk m' f (if is_ok r then cl :: d else d))
| step_load m f d h x rev cl : lookup_cluster m = Some (x, rev) → unmarshal x = Some cl →
    step (Mk m f d) (Mk m (hold h (cl, rev) f) d)
| step_promote m f d h cl rev to t reason r m' : f h = Some (cl, rev) →
    Mem.rev m + 1 < u64_max →
    Mem.Update clusterKey (marshal (next_cluster cl to t reason)) rev m = (r, m') →
    step (Mk m f d) (Mk m' f (if is_ok r then next_cluster cl to t reason :: d else d))
| step_other m f d m' : Mem.ok m' → Mem.rev m ≤ Mem.rev m' →
    lookup_cluster m' = lookup_cluster m → step (Mk m f d) (Mk m' f d).

Definition init : state := Mk Mem.NewMem (λ _, None) [].

(** The epochs of the decisions count up from one. *)
Fixpoint numbered (d : list Cluster) : Prop :=
  match d with
  | [] => True
  | cl :: d => Epoch cl = Z.of_nat (S (length d)) ∧ numbered d
  end.

Record inv (s : state) : Prop := {
  inv_mem : Mem.ok (store s);
  inv_current : match lookup_cluster (store s), decided s with
                | None, [] => True
                | Some (x, _), cl :: _ => unmarshal x = Some cl
                | _, _ => False
                end;
  inv_numbered : numbered (decided s);
  inv_length : Z.of_nat (length (decided s)) ≤ Mem.rev (store s);
  inv_held : ∀ h cl rev, held s h = Some (cl, rev) →
    cl ∈ decided s ∧ rev ≤ Mem.rev (store s) ∧
    ∀ x, lookup_cluster (store s) = Some (x, rev) → unmarshal x = Some cl;
}.

Lemma numbered_lookup d cl : numbered d → cl ∈ d →
  ∃ i, d !! i = Some cl ∧ Epoch cl = Z.of_nat (length d) - Z.of_nat i.
Proof.
  induction d as [|c d IH]; intros Hn Hin; [set_solver|]. destruct Hn as [Hc Hn].
  apply elem_of_cons in Hin as [->|Hin]; [exists 0%nat; simpl; split; [done|lia]|].
  destruct (IH Hn Hin) as (i & Hi & He). exists (S i). split; [done|]. simpl length. lia.
Qed.

Lemma numbered_inj d a b : numbered d → a ∈ d → b ∈ d → Epoch a = Epoch b → a = b.
Proof.
  intros Hn (i & Hi & Hai)%numbered_lookup (j & Hj & Hbj)%numbered_lookup He; [|done..].
  assert (i = j) as -> by lia. congruence.
Qed.

(** A write of the decision [cl] over the current one. *)
Lemma cluster_inv_write m f d cl : inv (Mk m f d) → Mem.rev m + 1 < u64_max →
  Epoch cl = Z.of_nat (S (length d)) →
  inv (Mk (Mem.put clusterKey (marshal cl) m).2 f (cl :: d)).
Proof.
  intros [Hm Hc Hn Hl Hh] Hrev He. cbn [store held decided] in *.
  assert (lookup_cluster (Mem.put clusterKey (marshal cl) m).2 = Some (marshal cl, Mem.rev m + 1)) as Hlk.
  { unfold lookup_cluster. by rewrite Mem.contents_put, lookup_insert_eq, Mem.rev_succ. }
  assert (Mem.rev (Mem.put clusterKey (marshal cl) m).2 = Mem.rev m + 1) as Hr
    by (simpl; by apply Mem.rev_succ).
  split; cbn [store held decided].
  - by apply Mem.put_ok.
  - rewrite Hlk. apply unmarshal_marshal.
  - done.
  - rewrite Hr. simpl length. lia.
  - intros h cl' rev Hh'. destruct (Hh h cl' rev Hh') as (Hin & Hle & _).
    split_and!; [by right|lia|]. rewrite Hlk. intros x [= _ ?]. lia.
Qed.

Lemma cluster_inv_create m f d cl r m' : Epoch cl = 1 → Mem.rev m + 1 < u64_max →
  Mem.Create clusterKey (marshal cl) m = (r, m') → inv (Mk m f d) →
  inv (Mk m' f (if is_ok r then cl :: d else d)).
Proof.
  intros He Hrev [[-> ->]|(-> & Hnone & ->)]%Mem.Create_put Hi; [done|].
  apply cluster_inv_write; [done..|]. pose proof (inv_current _ Hi) as Hcur.
  unfold lookup_cluster in Hcur. simpl in Hcur. rewrite Hnone in Hcur. by destruct d.
Qed.

Lemma cluster_inv_promote m f d h cl rev to t reason r m' : f h = Some (cl, rev) →
  Mem.rev m + 1 < u64_max →
  Mem.Update clusterKey (marshal (next_cluster cl to t reason)) rev m = (r, m') →
  inv (Mk m f d) → inv (Mk m' f (if is_ok r then next_cluster cl to t reason :: d else d)).
Proof.
  intros Hh Hrev [[-> ->]|(-> & [old Hold] & ->)]%Mem.Update_put Hi; [done|].
  apply cluster_inv_write; [done..|]. pose proof Hi as [Hm Hc Hn Hl Hheld].
  cbn [store held decided] in *. unfold lookup_cluster in *. rewrite Hold in Hc.
  destruct (Hheld _ _ _ Hh) as (Hin & _ & Hcur). destruct d as [|c d]; [done|].
  specialize (Hcur _ Hold). assert (c = cl) as -> by congruence.
  destruct Hn as [Hn _]. simpl in *. rewrite Hn, u64_small; unfold is_u64, u64_max in *; lia.
Qed.

Lemma cluster_inv_step s s' : step s s' → inv s → inv s'.
Proof.
  destruct 1 as [|m f d h x rev cl Hlk Hu| |m f d m' Hok Hle Hlk]; intros Hi;
    eauto using cluster_inv_create, cluster_inv_promote;
    destruct Hi as [Hm Hc Hn Hl Hh]; cbn [store held decided] in *.
  - split; cbn [store held decided]; try done.
    intros h' cl' rev'. unfold hold. case_decide; [|by apply Hh]. intros [= <- <-].
    rewrite Hlk in Hc. destruct d as [|c d]; [done|]. assert (c = cl) as -> by congruence.
    split_and!; [by left| |intros; congruence].
    unfold lookup_cluster in Hlk. rewrite Mem.contents_lookup, fmap_Some in Hlk.
    destruct Hlk as (e & He & [= _ ->]). apply (Mem.ok_rev _ Hm) in He. lia.
  - split; cbn [store held decided]; rewrite ?Hlk; try done; [lia|].
    intros h cl rev H. destruct (Hh h cl rev H) as (?&?&?). split_and!; [done|lia|done].
Qed.

(** C11: whatever instances decide at the same time, the
    stored decisions have the epochs 1, 2, 3, ..., one decision per epoch, and two
    instances that hold decisions of the same epoch hold the same one: they agree
    who is master. *)
Theorem one_master_per_epoch s h1 h2 cl1 cl2 rev1 rev2 : rtc step init s →
  numbered (decided s) ∧
  (held s h1 = Some (cl1, rev1) → held s h2 = Some (cl2, rev2) → Epoch cl1 = Epoch cl2 →
   cl1 = cl2).
Proof.
  intros Hr. assert (inv s) as Hi.
  { assert (inv init) as Hinit.
    { split; simpl; try done. }
    induction Hr; eauto using cluster_inv_step. }
  split; [apply (inv_numbered _ Hi)|]. intros H1 H2 He.
  apply (inv_held _ Hi) in H1 as [H1 _], H2 as [H2 _].
  eapply numbered_inj; [apply (inv_numbered _ Hi)|done..].
Qed.

(** *** The code runs in the system

    The outside of one instance is the shared store and the rest, [T]. *)
Context {T : Type} `{!JSON V Promotion, !Clock T, !HTTP T}.
#[local] Existing Instance Mem.Mem_Store.
#[local] Existing Instance Beside.store.
#[local] Instance shared_Clock : Clock (Mem.t V * T) :=
  {| tick := λ '(m, t), let '(n, t) := tick t in (n, (m, t)) |}.
#[local] Instance shared_HTTP : HTTP (Mem.t V * T) :=
  {| http_Do m u a := on_snd (http_Do m u a) |}.
#[local] Abbreviation W := (world (Mem.t V * T)).

Definition mem_of (w : W) : Mem.t V := (outer w).1.

Lemma out_mem {A} (c : M (Mem.t V) A) (w w' : W) r :
  out (on_fst c) w = (r, w') → c (mem_of w) = (r, mem_of w').
Proof.
  unfold out, zoom, on_fst, mem_of. destruct (outer w) as [m t]. simpl.
  destruct (c m). intros [= <- <-]. done.
Qed.

(** What does not touch the store. *)
Lemma out_mem_same {A} (c : M T A) (w w' : W) r :
  out (on_snd c) w = (r, w') → mem_of w' = mem_of w.
Proof.
  unfold out, zoom, on_snd, mem_of. destruct (outer w) as [m t]. simpl.
  destruct (c t). by intros [= <- <-].
Qed.

Lemma out_now_mem (w w' : W) r : out now w = (r, w') → is_ok r = true ∧ mem_of w' = mem_of w.
Proof.
  unfold out, zoom, now, mem_of. destruct (outer w) as [m t]. simpl.
  destruct (tick t). by intros [= <- <-].
Qed.

Lemma Resume_mem n (w w' : W) r : ignore (out (Resume n)) w = (r, w') → mem_of w' = mem_of w.
Proof.
  unfold ignore, out, zoom, Resume, doJSON, do_, mem_of. destruct (outer w) as [m t]. simpl.
  run_unfold. unfold on_snd. destruct (http_Do _ _ _ t) as [[resp|] t'].
  - destruct (negb _); by intros [= <- <-].
  - by intros [= <- <-].
Qed.

(** A write to another key is a step of another writer. *)
Lemma step_create_other key x (m m' : Mem.t V) f d r : key ≠ clusterKey → Mem.ok m →
  Mem.rev m + 1 < u64_max → Mem.Create key x m = (r, m') → step (Mk m f d) (Mk m' f d).
Proof.
  intros Hk Hok Hrev [[_ ->]|(_ & _ & ->)]%Mem.Create_put; [by apply step_other|].
  apply step_other; [by apply Mem.put_ok| |].
  - simpl. rewrite Mem.rev_succ by done. lia.
  - unfold lookup_cluster. by rewrite Mem.contents_put, lookup_insert_ne.
Qed.

Lemma out_cluster {A} (c : M (Mem.t V * T) A) (w w' : W) r :
  out c w = (r, w') → cluster w' = cluster w.
Proof. unfold out, zoom. destruct (c _). by intros [= <- <-]. Qed.

(** The writes of [promote] after the decision. *)
Lemma promote_tail_runs c key p to (w w' : W) r f d : Mem.ok (mem_of w) →
  Mem.rev (mem_of w) + 1 < u64_max → key ≠ clusterKey →
  (ignore (out (CreateJSON (A := Promotion) key p));;
   s ← nodeStatus to;
   if ss_Paused (Stream s) then
     match nodes c !! to with
     | Some node => ignore (out (Resume node))
     | None => throw (errors_New "nil node")
     end
   else mret ()) w = (r, w') →
  step (Mk (mem_of w) f d) (Mk (mem_of w') f d) ∧ cluster w' = cluster w.
Proof.
  intros Hok Hrev Hk H.
  apply bind_inv in H as [(e & H & _)|([] & w1 & H & Hrest)];
    unfold ignore in H; destruct (out _ w) as [rc w1'] eqn:Hout; [done|].
  injection H as <-. pose proof (out_cluster _ _ _ _ Hout) as Hcl. rewrite <- Hcl.
  apply out_mem in Hout. eapply step_create_other in Hout; [|done..].
  assert (mem_of w' = mem_of w1' ∧ cluster w' = cluster w1') as [-> ->]; [|by split].
  apply bind_inv in Hrest as [(e & [=] & _)|(s & ? & [= <- <-] & H)].
  destruct (ss_Paused _); [destruct (nodes c !! to)|]; [|unfold throw in H|unfold mret, M_ret in H];
    simplify_eq; [|done..].
  split; [by eapply Resume_mem|]. unfold ignore in H. destruct (out _ w1') eqn:Ho.
  simplify_eq. by eapply out_cluster.
Qed.

(** [promote_runs]: [promote], called with a decision the instance holds, is a
    run of the system: it stores the next decision and adopts it, or it stores
    nothing and fails. *)
Theorem promote_runs c h cl rev to reason (w w' : W) r f d :
  Mem.ok (mem_of w) → Mem.rev (mem_of w) + 2 < u64_max → f h = Some (cl, rev) →
  promote c cl rev to reason w = (r, w') →
  ∃ d', rtc step (Mk (mem_of w) f d) (Mk (mem_of w') f d') ∧
    ((d' = d ∧ is_ok r = false ∧ cluster w' = cluster w) ∨
     ∃ t, d' = next_cluster cl to t reason :: d ∧ cluster w' = next_cluster cl to t reason).
Proof.
  intros Hok Hrev Hf H. unfold promote in H.
  apply bind_inv in H as [(e & Hn & ->)|(t & w1 & Hn & H)];
    pose proof (out_cluster _ _ _ _ Hn) as Hcl1; apply out_now_mem in Hn as [? Hm1]; [done|].
  cbv zeta in H. fold (next_cluster cl to t reason) in H.
  apply bind_inv in H as [(e & Hu & ->)|(rev' & w2 & Hu & H)];
    pose proof (out_cluster _ _ _ _ Hu) as Hcl2; apply out_mem in Hu; rewrite Hm1 in Hu;
    assert (Mem.rev (mem_of w) + 1 < u64_max) as Hrev1 by lia;
    pose proof (step_promote _ f d _ _ _ _ _ _ _ _ Hf Hrev1 Hu) as Hs1.
  - exists d. split; [by apply rtc_once|left; split_and!; [done|done|congruence]].
  - exists (next_cluster cl to t reason :: d).
    apply Mem.Update_put in Hu as [[? _]|(_ & _ & Hput)]; [done|].
    apply bind_inv in H as [(e & [=] & _)|([] & w3 & [= <-] & H)].
    apply (promote_tail_runs _ _ _ _ _ _ _ f (next_cluster cl to t reason :: d)) in H as [Hs2 Hcl3].
    + split; [eapply rtc_l; [exact Hs1|by apply rtc_once]|right]. exists t. done.
    + unfold mem_of in *. simpl. rewrite Hput. by apply Mem.put_ok.
    + unfold mem_of in *. simpl. rewrite Hput. simpl. rewrite Mem.rev_succ by done. lia.
    + done.
Qed.

Lemma GetJSON_mem (w w' : W) r : out (GetJSON (A := Cluster) clusterKey) w = (r, w') →
  mem_of w' = mem_of w ∧
  ∀ cl rev, r = Ok (cl, rev) → ∃ x, lookup_cluster (mem_of w) = Some (x, rev) ∧ unmarshal x = Some cl.
Proof.
  unfold out, zoom, GetJSON, mem_of, lookup_cluster. destruct (outer w) as [m t]. simpl.
  rewrite Mem.contents_lookup. run_unfold. unfold on_fst, Mem.Get.
  destruct (Mem.entries m !! clusterKey) as [e|]; [|by intros [= <- <-]].
  destruct (unmarshal (Value e)) eqn:E; intros [= <- <-]; split; try done.
  intros ? ? [= <- <-]. eauto.
Qed.

(** [loadCluster_runs]: what [loadCluster] returns is a decision the instance
    then holds in the system. *)
Theorem loadCluster_runs fuel c h cl rev (w w' : W) f d : Mem.ok (mem_of w) →
  Mem.rev (mem_of w) + 1 < u64_max →
  loadCluster fuel c w = (Ok (cl, rev), w') →
  ∃ d', rtc step (Mk (mem_of w) f d) (Mk (mem_of w') (hold h (cl, rev) f) d').
Proof.
  revert w. induction fuel as [|fuel IH]; intros w Hok Hrev H; [done|].
  cbn [loadCluster] in H.
  apply bind_inv in H as [(e & _ & [=])|(g & w1 & Hg & H)]. unfold try in Hg.
  destruct (out (GetJSON clusterKey) w) as [g' w1'] eqn:Hout. injection Hg as <- <-.
  apply GetJSON_mem in Hout as [Hm1 Hget]. destruct g' as [[cl' rev']|e].
  { destruct (nodes c !! Master cl'); [|done]. unfold mret, M_ret in H. simplify_eq.
    destruct (Hget _ _ eq_refl) as (x & Hx & Hu). exists d. rewrite Hm1.
    by eapply rtc_once, step_load. }
  destruct (negb _); [done|]. destruct (order c) as [|first rest]; [done|].
  apply bind_inv in H as [(e' & _ & [=])|(t & w2 & Hn & H)].
  apply out_now_mem in Hn as [_ Hm2].
  apply bind_inv in H as [(e' & _ & [=])|(cr & w3 & Hc & H)]. unfold try in Hc.
  destruct (out _ w2) as [cr' w3'] eqn:Hout. injection Hc as <- <-.
  apply out_mem in Hout. rewrite Hm2, Hm1 in Hout. destruct cr' as [rev'|e'].
  - unfold mret, M_ret in H. simplify_eq. pose proof (Mem.Create_revision clusterKey _ _ _ _ Hout) as Hlk.
    exists (MkCluster first 1 t "initial" :: d).
    eapply rtc_l; [by apply (step_init _ f d (MkCluster first 1 t "initial") (Ok rev))|]. apply rtc_once.
    eapply step_load; [exact Hlk|apply unmarshal_marshal].
  - destruct (errors_Is e' ErrConflict); [|done].
    apply Mem.Create_put in Hout as [[_ Hm3]|(? & _)]; [|done].
    destruct (IH w3') as [d' Hd']; [by rewrite Hm3..|done|]. rewrite Hm3 in Hd'. by exists d'.
Qed.
End system.
End ClusterSystem.

(** ** Witnesses *)

Module ClusterDemo.
Inductive value := VCluster (c : Cluster) | VPromotion (p : Promotion).

#[export] Instance cluster_json : JSON value Cluster := {|
  marshal := VCluster; unmarshal v := match v with VCluster c => Some c | _ => None end;
  unmarshal_marshal _ := eq_refl |}.
#[export] Instance promotion_json : JSON value Promotion := {|
  marshal := VPromotion; unmarshal v := match v with VPromotion p => Some p | _ => None end;
  unmarshal_marshal _ := eq_refl |}.

(** A clock that moves by a minute per reading, and a network without nodes. *)
#[export] Instance env_clock : Clock Z := {| tick t := (t, t + 60 * 1000000000) |}.
#[export] Instance env_http : HTTP Z :=
  {| http_Do _ _ _ := throw (errors_New "connection refused") |}.

#[export] Existing Instance Mem.Mem_Store.
#[export] Existing Instance Mem.Mem_laws.
#[export] Existing Instance Beside.store.
#[export] Existing Instance Beside.laws.

#[export] Instance shared_clock : Clock (Mem.t value * Z) :=
  {| tick := λ '(m, t), let '(n, t) := tick t in (n, (m, t)) |}.
#[export] Instance shared_http : HTTP (Mem.t value * Z) :=
  {| http_Do m u a := on_snd (http_Do m u a) |}.
#[export] Instance outside : Outside value (Mem.t value * Z).
Proof.
  split.
  - intros [m t] Hok. done.
  - intros ??? [m t] r s' Hok H. simpl in H. unfold throw in H. by simplify_eq.
Qed.

Definition node (name : string) : NodeConfig := MkNodeConfig name "http://zinc" "" "".
Definition config : Config :=
  MkConfig "c1" [node "a"; node "b"] 1 1 3 1000 1 1 1 1 3 1 1 1.
Definition coord : Coordinator :=
  MkCoordinator config (<["a" := node "a"]> (<["b" := node "b"]> ∅)) ["a"; "b"].

Definition up_stream : StreamStatus :=
  MkStreamStatus true false false "logs" "b" 7 7 0 7 0 "" "".
Definition st (name : string) (state : NodeState) : NodeStatus :=
  MkNodeStatus name "http://zinc" state 0 1 up_stream "".
Definition w0 : world (Mem.t value * Z) :=
  MkWorld (Mem.NewMem, 1) (<["a" := st "a" NodeDown]> (<["b" := st "b" NodeUp]> ∅))
    zero_Cluster false.

Lemma w0_statuses : statuses_ok coord (status w0).
Proof.
  intros name Hn. simpl in Hn. rewrite !elem_of_cons in Hn.
  destruct Hn as [->|[->|Hn]]; [..|set_solver];
    (split; [done|split; [by eexists|eexists; split; [done|done]]]).
Qed.

Lemma w0_ok : store_ok (outer w0).
Proof. by intros k e H. Qed.

(** The master is down: the replica takes over. *)
Lemma FailoverOnce_promotes_witness : ∃ s w1, replica coord w0 "a" s ∧ ns_Name s = "b" ∧
  PromoteCooldown config ≤ Sub (time_at w1) 1 ∧
  contents w1 !! clusterKey = Some (VCluster (MkCluster "a" 1 1 "initial"), 1).
Proof.
  destruct (FailoverOnce 1 coord w0) as [r w'] eqn:E.
  assert (r = Ok "b") as -> by (revert E; vm_compute; congruence).
  destruct (FailoverOnce_promotes 0 coord w0 w' "b" w0_ok w0_statuses E)
    as (cl & rev & w1 & Hl & _ & [[? _]|(_ & _ & Ht & (s & Hs & Hn & _) & _)]); [done|].
  assert (cl = MkCluster "a" 1 1 "initial" ∧ contents w1 !! clusterKey = Some (VCluster (MkCluster "a" 1 1 "initial"), 1))
    as [-> Hc].
  { vm_compute in Hl. by injection Hl as <- <- <-. }
  by exists s, w1.
Defined.

Lemma Promote_by_hand_witness : is_Some (nodes coord !! "b").
Proof.
  destruct (Promote 1 coord "b" w0) as [r w'] eqn:E.
  assert (r = Ok ()) as -> by (revert E; vm_compute; congruence).
  by destruct (Promote_by_hand 0 coord w0 w' "b" w0_ok E) as [? _].
Defined.

Lemma loadCluster_total_witness : loadCluster 5 coord w0 = loadCluster 1 coord w0.
Proof. exact (loadCluster_total 4 coord w0 w0_ok). Defined.

Lemma poll_down_witness :
  let s' := foldl (λ s a, poll_update config a s) (st "a" NodeUp)
              [Ok (up_stream, 5); Err ErrNotFound; Err ErrNotFound; Err ErrNotFound] in
  ns_State s' = NodeDown.
Proof. apply poll_down; done. Defined.

(** After the failover the history holds one promotion. *)
Definition w1 : world (Mem.t value * Z) := (FailoverOnce 1 coord w0).2.

Lemma lookup_in_image {A B} (g : A → B) (m : gmap string A) l k x :
  prod_map id g <$> map_to_list m = l → m !! k = Some x → (k, g x) ∈ l.
Proof. intros <- Hk%elem_of_map_to_list. by apply (list_elem_of_fmap_2 (prod_map id g) _ (k, x)). Qed.

Lemma w1_ok : store_ok (outer w1) ∧ history_ok (contents w1).
Proof.
  split.
  - intros k e He. apply (lookup_in_image Key _ [("cluster", "cluster"); (history_key 2, history_key 2)]) in He;
      [|by vm_compute].
    apply elem_of_cons in He as [[= -> ->]|He]; [done|].
    apply elem_of_cons in He as [[= -> ->]|He%elem_of_nil]; done.
  - intros k x rev He. apply (lookup_in_image id _
      [("cluster", (VCluster (MkCluster "b" 2 120000000001 "master a is down"), 2));
       (history_key 2, (VPromotion (MkPromotion 2 "a" "b" 120000000001 "master a is down"), 3))]) in He;
      [|by vm_compute].
    apply elem_of_cons in He as [[= -> -> ->]|He]; [done|].
    apply elem_of_cons in He as [[= -> -> ->]|He%elem_of_nil]; [|done]. intros _.
    eexists. split_and!; [done|done|]. unfold is_u64. simpl. lia.
Qed.

Lemma History_sorted_witness : ∃ ps w', History w1 = (Ok ps, w') ∧
  StronglySorted (λ p q, p_Epoch p < p_Epoch q) ps.
Proof.
  destruct (History w1) as [[ps|e] w'] eqn:E; [|by vm_compute in E]. exists ps, w'.
  split; [done|]. destruct w1_ok as [H1 H2]. by apply (History_sorted w1 w' ps H1 H2).
Defined.

Lemma loadCluster_runs_witness : ∃ cl rev (w' : world (Mem.t value * Z)) d',
  rtc (ClusterSystem.step (V := value)) (ClusterSystem.Mk Mem.NewMem (λ _, None) [])
      (ClusterSystem.Mk (ClusterSystem.mem_of w')
         (ClusterSystem.hold "c1" (cl, rev) (λ _, None)) d').
Proof.
  destruct (loadCluster 1 coord w0) as [[[cl rev]|e] w'] eqn:E; [|by vm_compute in E].
  exists cl, rev, w'.
  exact (ClusterSystem.loadCluster_runs 1 coord "c1" cl rev w0 w' (λ _, None) []
    (Mem.ok_NewMem) ltac:(by vm_compute) E).
Defined.

Definition cl1 : Cluster := MkCluster "a" 1 1 "initial".
Definition w2 : world (Mem.t value * Z) :=
  MkWorld ((Mem.put clusterKey (VCluster cl1) Mem.NewMem).2, 1) (status w0) cl1 false.

Lemma promote_runs_witness : ∃ (w' : world (Mem.t value * Z)) d',
  rtc (ClusterSystem.step (V := value))
      (ClusterSystem.Mk (ClusterSystem.mem_of w2) (λ _, Some (cl1, 1)) [cl1])
      (ClusterSystem.Mk (ClusterSystem.mem_of w') (λ _, Some (cl1, 1)) d').
Proof.
  assert (Mem.ok (ClusterSystem.mem_of w2)) as Hok
    by (apply Mem.put_ok; [apply Mem.ok_NewMem|by vm_compute]).
  destruct (promote coord cl1 1 "b" "by hand" w2) as [r w'] eqn:E. exists w'.
  destruct (ClusterSystem.promote_runs coord "c1" cl1 1 "b" "by hand" w2 w' r (λ _, Some (cl1, 1)) [cl1])
    as (d' & H & _); [done|by vm_compute|done|exact E|]. by exists d'.
Defined.

Lemma run_init : rtc (ClusterSystem.step (V := value)) ClusterSystem.init
  (ClusterSystem.Mk (Mem.put clusterKey (VCluster cl1) Mem.NewMem).2 (λ _, None) [cl1]).
Proof. apply rtc_once. by apply (ClusterSystem.step_init _ (λ _, None) [] cl1 (Ok 1)). Qed.

Lemma one_master_per_epoch_witness : ClusterSystem.numbered [cl1].
Proof.
  exact (proj1 (ClusterSystem.one_master_per_epoch _ "c1" "c2" cl1 cl1 1 1 run_init)).
Defined.
End ClusterDemo.
