(* ===== verification/Backups.v ===== *)
(** The backups of the coordinator (pkg/coordinator/backups.go) and the interface of
    the blob store that keeps them (pkg/coordinator/blob/blob.go).

    The outside of the coordinator has three parts here: the state store [ST], the
    blob store [BT] and the rest [ET] (clock, nodes, contexts, temporary files, the
    verifier), so that what an operation cannot touch is visible in its type. *)
From S2P Require Import Prelude Strings Bytes State Node Cluster.
#[local] Open Scope Z_scope.

(** ** blob.go *)

Definition BlobErrNotFound : error := sentinel "blob.ErrNotFound" "blob: not found".

Record Info := MkInfo { in_Name : string; in_Size : Z; ModTime : Z }.

(** [GetBlob] is [Get] and reading the object to the end: what was delivered and the
    error that ended it, if any. *)
Class BlobStore (BT : Type) := {
  Put : string → string → Z → M BT ();
  GetBlob : string → M BT (string * option error);
  ListBlobs : string → M BT (list Info);
  DeleteBlob : string → M BT ();
}.

(** What the comments of the interface promise; [objects] holds contents and times. *)
Class BlobLaws (BT : Type) `{!BlobStore BT} := {
  objects : BT → gmap string (string * Z);
  Put_law name data size b r b' : Put name data size b = (r, b') →
    (∃ t, objects b' = <[name := (data, t)]> (objects b)) ∨
    is_ok r = false ∧ objects b' = objects b;
  GetBlob_law name b r b' : GetBlob name b = (r, b') → objects b' = objects b ∧
    match r with
    | Ok (data, None) => ∃ t, objects b !! name = Some (data, t)
    | Ok (_, Some e) => True
    | Err e => errors_Is e BlobErrNotFound = true → objects b !! name = None
    end;
  ListBlobs_law prefix b r b' : ListBlobs prefix b = (r, b') → objects b' = objects b;
  DeleteBlob_law name b r b' : DeleteBlob name b = (r, b') →
    objects b' = delete name (objects b) ∨ is_ok r = false ∧ objects b' = objects b;
}.

(** ** The records of backups.go *)

Definition BackupStatus := string.
Definition BackupUploaded : BackupStatus := "uploaded".
Definition BackupVerified : BackupStatus := "verified".
Definition BackupBad : BackupStatus := "bad".

(** [BackupRecord]; its field [revision] is not stored and goes beside the record. *)
Record BackupRecord := MkBackupRecord {
  info : BackupInfo;
  br_Node : string;
  UploadedAt : Z;
  Status : BackupStatus;
  CheckedAt : option Z;
  VerifiedAt : option Z;
  Note : string;
}.

Definition Name (r : BackupRecord) : string := bi_Name (info r).
Definition SHA256 (r : BackupRecord) : string := bi_SHA256 (info r).
Definition CreatedAt (r : BackupRecord) : Z := bi_CreatedAt (info r).

Definition backupPrefix : string := "backups/".

Definition ErrNoBackupNode : error := sentinel "coordinator.ErrNoBackupNode"
  "coordinator: no healthy replica to take a backup from".
Definition ErrNoBackups : error := sentinel "coordinator.ErrNoBackups"
  "coordinator: there is no usable backup".
Definition ErrBackupDamaged : error :=
  sentinel "coordinator.ErrBackupDamaged" "backup is damaged".
Definition ErrNoBlobs : error := errors_New "coordinator: no blob store configured".

Record Schedule := MkSchedule { LastAttempt : Z; LastSuccess : Z; sc_LastError : string }.
Definition zero_Schedule : Schedule := MkSchedule time_zero time_zero "".

(** The order of [listBackupRecords]: newest first, then by descending name. *)
Definition newest (a b : BackupRecord * Z) : Prop :=
  CreatedAt b.1 < CreatedAt a.1 ∨
  CreatedAt b.1 = CreatedAt a.1 ∧ String.le (Name b.1) (Name a.1).
#[export] Instance newest_dec : RelDecision newest.
Proof. intros a b. unfold newest. apply _. Defined.
#[export] Instance newest_total : Total newest.
Proof.
  intros a b. unfold newest. destruct (String.le_total (Name a.1) (Name b.1));
    destruct (Z.lt_total (CreatedAt a.1) (CreatedAt b.1)) as [|[|]]; auto.
Qed.
#[export] Instance newest_trans : Transitive newest.
Proof.
  intros a b c [?|[? ?]] [?|[? ?]]; unfold newest; [left; lia..|].
  right. split; [lia|by etrans].
Qed.

(** Contexts, temporary files and the verifier: what remains of the outside. The
    error of [Deep] carries the tag [exec.ExitError] when the scratch node failed. *)
Class Jobs (ET : Type) := {
  ctx_Err : ET → option error;
  CreateTemp : M ET ();
  CloseTemp : M ET ();
  Deep : string → M ET ();
}.
Definition ExitError (e : error) : bool := bool_decide ("exec.ExitError" ∈ err_tags e).

Section backups.
Context {V ST BT ET : Type} `{!Store V ST, !JSON V Cluster, !JSON V Promotion,
  !JSON V Schedule, !JSON V BackupRecord, !BlobStore BT, !Clock ET, !HTTP ET, !Jobs ET}.
Context (decode_backup : string → option BackupInfo) (PathEscape : string → string)
  (timeout_query : Z → string) (sha256_hex : string → string)
  (has_blobs has_verifier : bool).
#[local] Abbreviation W := (world (ST * (BT * ET))).

Definition on_state {A} (c : M ST A) : M W A := out (on_fst c).
Definition on_blobs {A} (c : M BT A) : M W A := out (on_snd (on_fst c)).
Definition on_env {A} (c : M ET A) : M W A := out (on_snd (on_snd c)).
Definition Now : M W Z := on_env now.
Definition ctxErr : M W (option error) := on_env (gets ctx_Err).

(** *** Schedules *)

(** A schedule that cannot be read comes with its error and the zero value. *)
Definition loadSchedule (job : string) : M W (Schedule * Z) :=
  r ← try (on_state (GetJSON (A := Schedule) ("schedule/" +:+ job)));
  match r with
  | Err e => if errors_Is e ErrNotFound then mret (zero_Schedule, 0) else throw e
  | Ok sr => mret sr
  end.

Fixpoint saveSchedule_loop (n : nat) (job : string) (s : Schedule) : M W () :=
  match n with
  | O => mret ()
  | S n =>
      r ← try (
        sr ← loadSchedule job;
        if sr.2 =? 0 then on_state (CreateJSON ("schedule/" +:+ job) s)
        else on_state (UpdateJSON ("schedule/" +:+ job) s sr.2));
      match r with
      | Err e => if errors_Is e ErrConflict then saveSchedule_loop n job s else mret ()
      | Ok _ => mret ()
      end
  end.
Definition saveSchedule : string → Schedule → M W () := saveSchedule_loop 3.

Definition due_at (cfg : Config) (now : Z) (s : Schedule) (interval : Z) : bool :=
  if interval <=? 0 then false
  else if After (LastAttempt s) (LastSuccess s) && (Sub now (LastAttempt s) <? BackupRetry cfg)
  then false
  else IsZero (LastSuccess s) || (interval <=? Sub now (LastSuccess s)).

Definition due (c : Coordinator) (s : Schedule) (interval : Z) : M W bool :=
  if interval <=? 0 then mret false
  else now ← Now; mret (due_at (cfg c) now s interval).

(** The deferred part of the jobs: the outcome goes into the schedule. *)
Definition finish {A} (job : string) (sched : Schedule) (r : res A) : M W () :=
  match r with
  | Err e => saveSchedule job (MkSchedule (LastAttempt sched) (LastSuccess sched) (err_text e))
  | Ok _ => now ← Now; saveSchedule job (MkSchedule (LastAttempt sched) now "")
  end.

(** *** The node to back up *)

Fixpoint pick_loop (c : Coordinator) (master : string) (ss : list NodeStatus)
    (best : option NodeConfig) (freshest : Z) : option NodeConfig :=
  match ss with
  | [] => best
  | s :: ss =>
      if bool_decide (ns_Name s = master) || negb (bool_decide (ns_State s = NodeUp))
      then pick_loop c master ss best freshest
      else if bool_decide (best = None) || (freshest <? LastApplied (Stream s))
      then pick_loop c master ss (nodes c !! ns_Name s) (LastApplied (Stream s))
      else pick_loop c master ss best freshest
  end.

Definition pickBackupNode (c : Coordinator) : M W NodeConfig :=
  w ← get_state;
  ss ← NodeStatuses c;
  lift (of_option ErrNoBackupNode (pick_loop c (Master (cluster w)) ss None 0)).

(** *** Listing *)

Fixpoint list_loop (es : list (Entry V)) : M W (list (BackupRecord * Z)) :=
  match es with
  | [] => mret []
  | e :: es =>
      r ← try (on_state (GetJSON (A := BackupRecord) (Key e)));
      match r with
      | Err err => if errors_Is err ErrNotFound then list_loop es else throw err
      | Ok rr => rs ← list_loop es; mret (rr :: rs)
      end
  end.

Definition listBackups : M W (list (BackupRecord * Z)) :=
  entries ← on_state (ListPrefix backupPrefix);
  recs ← list_loop entries;
  mret (merge_sort newest recs).

Fixpoint latest_loop (recs : list (BackupRecord * Z)) (fallback : option BackupRecord)
    : option BackupRecord :=
  match recs with
  | [] => fallback
  | (r, _) :: recs =>
      if decide (Status r = BackupVerified) then Some r
      else if decide (Status r = BackupUploaded)
      then latest_loop recs (match fallback with Some _ => fallback | None => Some r end)
      else latest_loop recs fallback
  end.

Definition LatestUsable : M W BackupRecord :=
  recs ← listBackups;
  lift (of_option ErrNoBackups (latest_loop recs None)).

(** *** Pruning *)

(** The names of the newest usable backups, and how many usable ones there are. *)
Fixpoint keep_newest (retention : Z) (recs : list (BackupRecord * Z)) (usable : Z)
    : list string * Z :=
  match recs with
  | [] => ([], usable)
  | (r, _) :: recs =>
      if decide (Status r = BackupBad) then keep_newest retention recs usable
      else
        let usable := usable + 1 in
        let '(keep, n) := keep_newest retention recs usable in
        (if usable <=? retention then Name r :: keep else keep, n)
  end.

Fixpoint keep_verified (recs : list (BackupRecord * Z)) : list string :=
  match recs with
  | [] => []
  | (r, _) :: recs => if decide (Status r = BackupVerified) then [Name r] else keep_verified recs
  end.

Fixpoint prune_loop (keep : list string) (recs : list (BackupRecord * Z)) : M W (list error) :=
  match recs with
  | [] => mret []
  | (r, _) :: recs =>
      if decide (Name r ∈ keep) then prune_loop keep recs
      else
        d ← try (on_blobs (DeleteBlob (Name r)));
        match d with
        | Err e => es ← prune_loop keep recs;
                   mret (wrap ("delete " +:+ Name r +:+ ": ") e "" :: es)
        | Ok _ =>
            f ← try (on_state (Delete (backupPrefix +:+ Name r)));
            match f with
            | Err e => es ← prune_loop keep recs;
                       mret (wrap ("forget " +:+ Name r +:+ ": ") e "" :: es)
            | Ok _ => prune_loop keep recs
            end
        end
  end.

Fixpoint orphan_loop (known : list string) (mayDelete : bool) (grace now : Z)
    (infos : list Info) : M W () :=
  match infos with
  | [] => mret ()
  | i :: infos =>
      (if bool_decide (in_Name i ∈ known) || negb (HasSuffix (in_Name i) ".tgz") then mret ()
       else if mayDelete && (grace <? Sub now (ModTime i))
       then ignore (on_blobs (DeleteBlob (in_Name i)))
       else mret ());;
      orphan_loop known mayDelete grace now infos
  end.

Definition handleOrphans (c : Coordinator) (recs : list (BackupRecord * Z)) (mayDelete : bool)
    : M W () :=
  let known := (λ r, Name r.1) <$> recs in
  l ← try (on_blobs (ListBlobs "zincsearch-"));
  match l with
  | Err _ => mret ()
  | Ok infos =>
      let mayDelete := mayDelete && negb (bool_decide (recs = [])) && (0 <? OrphanGrace (cfg c)) in
      now ← Now;
      orphan_loop known mayDelete (OrphanGrace (cfg c)) now infos
  end.

Definition Prune (c : Coordinator) : M W () :=
  recs ← listBackups;
  let '(keep, usable) := keep_newest (BackupRetention (cfg c)) recs 0 in
  if usable =? 0 then handleOrphans c recs false
  else
    errs ← prune_loop (keep ++ keep_verified recs) recs;
    handleOrphans c recs true;;
    match errors_Join errs with
    | Some e => throw e
    | None => mret ()
    end.

(** *** Taking a backup *)

Definition BackupOnce_store (c : Coordinator) (node : NodeConfig) (bi : BackupInfo)
    : M W BackupRecord :=
  dl ← annotate ("download from " +:+ nc_Name node +:+ ": ")
         (on_env (DownloadBackup PathEscape node (bi_Name bi)));
  if decide (dl_SHA256 dl ≠ "" ∧ dl_SHA256 dl ≠ bi_SHA256 bi) then
    throw (errors_New ("node " +:+ nc_Name node +:+ " announced checksum " +:+ bi_SHA256 bi +:+
                       " but serves " +:+ dl_SHA256 dl))
  else
    annotate ("store " +:+ bi_Name bi +:+ ": ")
      (on_blobs (Put (bi_Name bi) (dl_Body dl) (bi_Size bi)));;
    let got := sha256_hex (dl_Body dl) in
    if decide (got ≠ bi_SHA256 bi) then
      ignore (on_blobs (DeleteBlob (bi_Name bi)));;
      throw (errors_New ("backup " +:+ bi_Name bi +:+ " changed on the way from " +:+
        nc_Name node +:+ ": checksum " +:+ got +:+ ", expected " +:+ bi_SHA256 bi))
    else
      now ← Now;
      let rec := MkBackupRecord bi (nc_Name node) now BackupUploaded (Some now) None "" in
      annotate ("record " +:+ bi_Name bi +:+ ": ")
        (on_state (CreateJSON (backupPrefix +:+ bi_Name bi) rec));;
      ignore (Prune c);;
      mret rec.

Definition BackupOnce (c : Coordinator) : M W BackupRecord :=
  if negb has_blobs then throw ErrNoBlobs
  else
    started ← Now;
    sr ← try (loadSchedule "backup");
    let sched := match sr with Ok sr => sr.1 | Err _ => zero_Schedule end in
    let sched := MkSchedule started (LastSuccess sched) (sc_LastError sched) in
    defer (finish "backup" sched) (
      node ← pickBackupNode c;
      bi ← annotate ("backup on " +:+ nc_Name node +:+ ": ")
             (on_env (CreateBackup decode_backup timeout_query node (DrainTimeout (cfg c))));
      defer (λ _, ignore (on_env (DeleteBackup PathEscape node (bi_Name bi))))
        (BackupOnce_store c node bi)).

(** *** Fetching and verifying *)

(** [FetchBackup]: the record, or the error, and what the writer received. *)
Definition FetchBackup (name : string) : M W (res BackupRecord * string) :=
  if negb has_blobs then mret (Err ErrNoBlobs, "")
  else
    rr ← try (if decide (name = "") then LatestUsable
              else r ← on_state (GetJSON (A := BackupRecord) (backupPrefix +:+ name)); mret r.1);
    match rr with
    | Err e => mret (Err e, "")
    | Ok rec =>
        g ← try (on_blobs (GetBlob (Name rec)));
        match g with
        | Err e =>
            if errors_Is e BlobErrNotFound
            then mret (Err (Error ("backup is damaged: stored backup " +:+ Name rec +:+
                                   " is missing: " +:+ err_text e)
                         (err_tags ErrBackupDamaged ++ err_tags e)), "")
            else mret (Err e, "")
        | Ok (data, Some e) => mret (Err e, data)
        | Ok (data, None) =>
            if decide (sha256_hex data ≠ SHA256 rec)
            then mret (Err (wrap "" ErrBackupDamaged (": stored backup " +:+ Name rec +:+
                    ": checksum " +:+ sha256_hex data +:+ ", expected " +:+ SHA256 rec)), data)
            else mret (Ok rec, data)
        end
    end.

(** [saveRecord]: the new revision goes into the record's field. *)
Definition saveRecord (r : BackupRecord) (rev : Z) : M W Z :=
  on_state (UpdateJSON (backupPrefix +:+ Name r) r rev).

Definition with_status (r : BackupRecord) (s : BackupStatus) (v : option Z) (n : string) :=
  MkBackupRecord (info r) (br_Node r) (UploadedAt r) s (CheckedAt r) v n.

(** [markBad]: the record in memory is bad even when it cannot be saved. *)
Definition markBad (r : BackupRecord) (rev : Z) (why : error) : M W (BackupRecord * Z) :=
  let r := with_status r BackupBad (VerifiedAt r) (err_text why) in
  s ← try (saveRecord r rev);
  mret (r, match s with Ok rev => rev | Err _ => rev end).

Definition checkStored (r : BackupRecord) : M W () :=
  g ← try (on_blobs (GetBlob (Name r)));
  match g with
  | Err e =>
      if errors_Is e BlobErrNotFound
      then throw (wrap "" ErrBackupDamaged ": the object is missing from the blob store")
      else throw e
  | Ok (_, Some e) => throw e
  | Ok (data, None) =>
      if decide (sha256_hex data ≠ SHA256 r)
      then throw (wrap "" ErrBackupDamaged (": checksum " +:+ sha256_hex data +:+
                           " does not match the recorded " +:+ SHA256 r))
      else mret ()
  end.

Definition deepVerify (r : BackupRecord) (rev : Z) : M W (BackupRecord * Z) :=
  on_env CreateTemp;;
  f ← FetchBackup (Name r);
  match f with
  | (Err e, _) => ignore (on_env CloseTemp);; throw e
  | (Ok _, data) =>
      on_env CloseTemp;;
      d ← try (on_env (Deep data));
      match d with
      | Err e =>
          if ExitError e
          then throw (Error ("backup is damaged: restore in a scratch node failed: " +:+ err_text e)
                        (err_tags ErrBackupDamaged ++ err_tags e))
          else throw (wrap "restore in a scratch node: " e "")
      | Ok _ =>
          now ← Now;
          let r := with_status r BackupVerified (Some now) "" in
          rev ← saveRecord r rev;
          mret (r, rev)
      end
  end.

(** The first loop of [VerifyOnce]: every backup is read back. The outer error is
    the end of the context; the collected errors are joined at the end. *)
Fixpoint verify_loop (recs : list (BackupRecord * Z))
    : M W (list (BackupRecord * Z) * list error) :=
  match recs with
  | [] => mret ([], [])
  | (r, rev) :: recs =>
      if decide (Status r = BackupBad) then
        rest ← verify_loop recs; mret ((r, rev) :: rest.1, rest.2)
      else
        ck ← try (checkStored r);
        match ck with
        | Err e =>
            ce ← ctxErr;
            match ce with
            | Some ce => throw ce
            | None =>
                rr ← (if errors_Is e ErrBackupDamaged then markBad r rev e else mret (r, rev));
                rest ← verify_loop recs;
                mret (rr :: rest.1, wrap (Name r +:+ ": ") e "" :: rest.2)
            end
        | Ok _ =>
            now ← Now;
            let r := MkBackupRecord (info r) (br_Node r) (UploadedAt r) (Status r) (Some now)
                       (VerifiedAt r) (Note r) in
            s ← try (saveRecord r rev);
            rest ← verify_loop recs;
            match s with
            | Err e => mret ((r, rev) :: rest.1, e :: rest.2)
            | Ok rev => mret ((r, rev) :: rest.1, rest.2)
            end
        end
  end.

(** The second loop: the newest backup that is not bad is restored. *)
Fixpoint deep_loop (recs : list (BackupRecord * Z)) : M W (list error) :=
  match recs with
  | [] => mret []
  | (r, rev) :: recs =>
      if decide (Status r = BackupBad) then deep_loop recs
      else
        d ← try (deepVerify r rev);
        match d with
        | Ok _ => mret []
        | Err e =>
            ce ← ctxErr;
            match ce with
            | Some ce => throw ce
            | None =>
                (if errors_Is e ErrBackupDamaged then _ ← markBad r rev e; mret () else mret ());;
                mret [wrap (Name r +:+ ": ") e ""]
            end
        end
  end.

Definition VerifyOnce_body : M W () :=
  recs ← listBackups;
  ve ← verify_loop recs;
  de ← (if has_verifier then deep_loop ve.1 else mret []);
  match errors_Join (ve.2 ++ de) with
  | Some e => throw e
  | None => mret ()
  end.

Definition VerifyOnce : M W () :=
  if negb has_blobs then throw ErrNoBlobs
  else
    sr ← try (loadSchedule "verify");
    let sched := match sr with Ok sr => sr.1 | Err _ => zero_Schedule end in
    started ← Now;
    let sched := MkSchedule started (LastSuccess sched) (sc_LastError sched) in
    defer (finish "verify" sched) VerifyOnce_body.

(** [startDueJobs]: whether each job is started; the jobs themselves run apart. *)
Definition startDueJobs (c : Coordinator) : M W (bool * bool) :=
  if negb has_blobs then mret (false, false)
  else
    b ← try (loadSchedule "backup");
    backup ← match b with Ok sr => due c sr.1 (BackupInterval (cfg c)) | Err _ => mret false end;
    v ← try (loadSchedule "verify");
    verify ← match v with Ok sr => due c sr.1 (VerifyInterval (cfg c)) | Err _ => mret false end;
    mret (backup, verify).

Definition Schedules : M W (Schedule * Schedule) :=
  b ← try (loadSchedule "backup");
  v ← try (loadSchedule "verify");
  mret (match b with Ok sr => sr.1 | Err _ => zero_Schedule end,
        match v with Ok sr => sr.1 | Err _ => zero_Schedule end).
End backups.

(** ** What a backup in the state promises *)

Section spec.
Context {V ST BT ET : Type} `{!Store V ST, !StoreLaws V ST, !JSON V BackupRecord,
  !BlobStore BT, !BlobLaws BT}.
#[local] Abbreviation W := (world (ST * (BT * ET))).

Definition stv (w : W) : gmap string (V * Z) := view (outer w).1.
Definition stok (w : W) : Prop := store_ok (outer w).1.
Definition blv (w : W) : gmap string (string * Z) := objects (outer w).2.1.

Definition backup_key (name : string) : string := backupPrefix +:+ name.

Definition recorded (v : gmap string (V * Z)) (r : BackupRecord) (rev : Z) : Prop :=
  ∃ x, v !! backup_key (Name r) = Some (x, rev) ∧ unmarshal x = Some r.

(** Every record is filed under its name and has one of the three states. *)
Definition records_ok (v : gmap string (V * Z)) : Prop :=
  ∀ k x rev, v !! k = Some (x, rev) → HasPrefix k backupPrefix = true →
    ∃ r, unmarshal x = Some r ∧ k = backup_key (Name r) ∧
         (Status r = BackupUploaded ∨ Status r = BackupVerified ∨ Status r = BackupBad).

(** The backup [LatestUsable] stands for: the newest verified one, or, when none
    is verified, the newest uploaded one. *)
Definition is_latest (v : gmap string (V * Z)) (b : BackupRecord) : Prop :=
  (∃ rev, recorded v b rev) ∧
  ((Status b = BackupVerified ∧
      ∀ r rev, recorded v r rev → Status r = BackupVerified → newest (b, 0) (r, 0)) ∨
   (Status b = BackupUploaded ∧
      ∀ r rev, recorded v r rev → Status r ≠ BackupVerified ∧
        (Status r = BackupUploaded → newest (b, 0) (r, 0)))).

(** What [listBackups] returns. *)
Definition listed (v : gmap string (V * Z)) (recs : list (BackupRecord * Z)) : Prop :=
  StronglySorted newest recs ∧ NoDup ((λ r, Name r.1) <$> recs) ∧
  ∀ r rev, (r, rev) ∈ recs ↔ recorded v r rev.

Lemma on_state_inv {A} (c : M ST A) (w w' : W) r : on_state c w = (r, w') →
  c (outer w).1 = (r, (outer w').1) ∧ (outer w').2 = (outer w).2 ∧ same_view w w'.
Proof.
  unfold on_state, out, zoom, on_fst, same_view. destruct w as [[s t] ? ? ?]. simpl.
  destruct (c s). intros [= <- <-]. done.
Qed.

Lemma on_blobs_inv {A} (c : M BT A) (w w' : W) r : on_blobs c w = (r, w') →
  c (outer w).2.1 = (r, (outer w').2.1) ∧ (outer w').1 = (outer w).1 ∧ same_view w w'.
Proof.
  unfold on_blobs, out, zoom, on_fst, on_snd, same_view. destruct w as [[s [b t]] ? ? ?]. simpl.
  destruct (c b). intros [= <- <-]. done.
Qed.

Lemma on_env_inv {A} (c : M ET A) (w w' : W) r : on_env c w = (r, w') →
  (outer w').1 = (outer w).1 ∧ (outer w').2.1 = (outer w).2.1 ∧ same_view w w'.
Proof.
  unfold on_env, out, zoom, on_snd, same_view. destruct w as [[s [b t]] ? ? ?]. simpl.
  destruct (c t). intros [= <- <-]. done.
Qed.

Lemma on_env_run {A} (c : M ET A) (w w' : W) r : on_env c w = (r, w') →
  c (outer w).2.2 = (r, (outer w').2.2).
Proof.
  unfold on_env, out, zoom, on_snd. destruct w as [[s [b t]] ? ? ?]. simpl.
  destruct (c t). by intros [= <- <-].
Qed.

(** A step that changes neither the records nor the objects. *)
Definition reads_only (w w' : W) : Prop :=
  (stok w → stok w') ∧ stv w' = stv w ∧ blv w' = blv w.

#[export] Instance reads_only_preorder : PreOrder reads_only.
Proof. split; [by intros w|]. unfold reads_only. intros w1 w2 w3. naive_solver congruence. Qed.

Lemma on_env_reads {A} (c : M ET A) (w w' : W) r : on_env c w = (r, w') → reads_only w w'.
Proof.
  intros (H1 & H2 & _)%on_env_inv. unfold reads_only, stok, stv, blv. by rewrite H1, H2.
Qed.

Lemma on_state_reads {A} (c : M ST A) (w w' : W) r : on_state c w = (r, w') →
  store_ok (outer w).1 →
  (∀ s r s', store_ok s → c s = (r, s') → store_ok s' ∧ view s' = view s) → reads_only w w'.
Proof.
  intros (H1 & H2 & _)%on_state_inv Hok Hc. apply Hc in H1 as [? ?]; [|done].
  unfold reads_only, stok, stv, blv. by rewrite H2.
Qed.

Lemma on_blobs_reads {A} (c : M BT A) (w w' : W) r : on_blobs c w = (r, w') →
  (∀ b r b', c b = (r, b') → objects b' = objects b) → reads_only w w'.
Proof.
  intros (H1 & H2 & _)%on_blobs_inv Hc. apply Hc in H1.
  unfold reads_only, stok, stv, blv. by rewrite H2.
Qed.

(** *** Listing *)

Lemma get_record key (w w' : W) r : stok w →
  on_state (GetJSON (A := BackupRecord) key) w = (r, w') →
  reads_only w w' ∧
  match r with
  | Ok (a, rev) => ∃ v, stv w !! key = Some (v, rev) ∧ unmarshal v = Some a
  | Err e => errors_Is e ErrNotFound = true → stv w !! key = None
  end.
Proof.
  intros Hok H. pose proof (on_state_inv _ _ _ _ H) as (H1 & H2 & _).
  apply GetJSON_spec in H1 as (Hok' & Hv & Hr); [|done].
  split; [|done]. unfold reads_only, stok, stv, blv. by rewrite H2.
Qed.

Lemma list_loop_spec es (w w' : W) r : stok w → list_loop es w = (r, w') →
  reads_only w w' ∧ ∀ recs, r = Ok recs →
    (∀ e, e ∈ es → is_Some (stv w !! Key e)) →
    Forall2 (λ e rr, ∃ v, stv w !! Key e = Some (v, rr.2) ∧ unmarshal v = Some rr.1) es recs.
Proof.
  revert w w' r. induction es as [|e es IH]; intros w w' r Hok H; cbn [list_loop] in H.
  { unfold mret, M_ret in H. simplify_eq. split; [done|]. intros ? [= <-] _. constructor. }
  apply try_inv in H as (g & w1 & Hget & H).
  apply get_record in Hget as [Hro Hg]; [|done].
  pose proof (proj1 Hro Hok) as Hok1. assert (stv w1 = stv w) as Hv1 by apply Hro.
  destruct g as [[a rev]|er].
  - apply bind_inv in H as [(er & Hl & ->)|(rs & w2 & Hl & H)];
      apply IH in Hl as [Hro2 Hl]; try done; [split; [by etrans|done]|].
    unfold mret, M_ret in H. simplify_eq. split; [by etrans|]. intros ? [= <-] Hall.
    constructor; [done|]. rewrite <- Hv1. apply Hl; [done|]. rewrite Hv1. set_solver.
  - destruct (errors_Is er ErrNotFound) eqn:Hnf.
    + apply IH in H as [Hro2 Hl]; [|done]. split; [by etrans|]. intros recs -> Hall.
      destruct (Hall e) as [? Hs]; [by left|]. rewrite Hg in Hs; done.
    + unfold throw in H. simplify_eq. done.
Qed.

Lemma HasPrefix_backup_key name : HasPrefix (backup_key name) backupPrefix = true.
Proof. apply HasPrefix_append. Qed.

Lemma backup_key_inj a b : backup_key a = backup_key b → a = b.
Proof. unfold backup_key, backupPrefix. simpl. congruence. Qed.

Lemma listBackups_spec (w w' : W) r : stok w → records_ok (stv w) → listBackups w = (r, w') →
  reads_only w w' ∧ ∀ recs, r = Ok recs → listed (stv w) recs.
Proof.
  intros Hok Hrec H. unfold listBackups in H.
  assert (∀ (w1 : W) rl, on_state (ListPrefix backupPrefix) w = (rl, w1) → reads_only w w1) as Hlro.
  { intros w1 rl Hl. eapply on_state_reads; [exact Hl|done|].
    intros s rs s' Hs Hls. apply List_law in Hls as (? & ? & _); done. }
  apply bind_inv in H as [(e & Hl & ->)|(es & w1 & Hl & H)]; [by split; [eapply Hlro|]|].
  pose proof (Hlro _ _ Hl) as Hro. apply on_state_inv in Hl as (Hl & _).
  apply List_law in Hl as (_ & _ & Hes); [|done].
  destruct (Hes es eq_refl) as (_ & Hnd & Hin). clear Hes. fold (stv w) in Hin.
  pose proof (proj1 Hro Hok) as Hok1. assert (stv w1 = stv w) as Hv1 by apply Hro.
  apply bind_inv in H as [(e & Hl & ->)|(rs & w2 & Hl & H)];
    apply list_loop_spec in Hl as [Hro2 Hl]; try done; [by split; [etrans|]|].
  unfold mret, M_ret in H. simplify_eq. split; [by etrans|]. intros ? [= <-].
  rewrite Hv1 in Hl.
  assert (∀ e, e ∈ es → stv w !! Key e = Some (Value e, Revision e) ∧
    HasPrefix (Key e) backupPrefix = true) as Hes by (intros e He; apply Hin; eauto).
  specialize (Hl _ eq_refl (λ e He, ex_intro _ _ (proj1 (Hes e He)))).

  assert (Forall2 (λ e rr, Key e = backup_key (Name rr.1) ∧ recorded (stv w) rr.1 rr.2) es rs) as Hall.
  { apply Forall2_same_length_lookup. split; [by eapply Forall2_length|].
    intros i e [a rev] He Ha. simpl.
    destruct (Forall2_lookup_lr _ _ _ _ _ _ Hl He Ha) as (v & Hv & Hu). simpl in *.
    apply list_elem_of_lookup_2 in He. destruct (Hes e He) as [_ Hp].
    destruct (Hrec _ _ _ Hv Hp) as (a' & Hu' & Hk & _). assert (a' = a) as -> by congruence.
    split; [done|]. exists v. by rewrite <- Hk. }
  clear Hl. split; [apply (StronglySorted_merge_sort newest)|split].
  - rewrite merge_sort_Permutation. apply (NoDup_fmap_1 backup_key).
    assert (backup_key <$> ((λ r, Name r.1) <$> rs) = Key <$> es) as ->; [|done].
    clear -Hall. induction Hall as [|e rr es rs [Hk _] _ IH]; [done|]. rewrite !fmap_cons. by f_equal.
  - intros a rev. rewrite merge_sort_Permutation. split.
    + intros (i & Hi)%list_elem_of_lookup.
      by destruct (Forall2_lookup_r _ _ _ _ _ Hall Hi) as (e & _ & _ & ?).
    + intros (x & Hx & Hu). destruct (Hin (backup_key (Name a)) x rev) as [_ (e & He & Hk & Hv & Hrv)].
      { split; [done|apply HasPrefix_backup_key]. }
      apply list_elem_of_lookup in He as [i Hi].
      destruct (Forall2_lookup_l _ _ _ _ _ Hall Hi) as ([a' rev'] & Ha' & Hk' & x' & Hx' & Hu').
      simpl in *. apply list_elem_of_lookup. exists i. rewrite Ha'.
      rewrite <- Hk', Hk, Hx in Hx'. congruence.
Qed.

(** *** The latest usable backup *)

Lemma newest_refl r : newest r r.
Proof. right. split; [done|reflexivity]. Qed.

(** [r] is the first of the sorted [recs] with property [P]. *)
Definition first_with (P : BackupRecord → Prop) (recs : list (BackupRecord * Z))
    (r : BackupRecord) : Prop :=
  ∃ pre rev post, recs = pre ++ (r, rev) :: post ∧ P r ∧ Forall (λ x, ¬ P x.1) pre.

Lemma first_with_newest P recs r : StronglySorted newest recs → first_with P recs r →
  ∀ x rev, (x, rev) ∈ recs → P x → newest (r, 0) (x, 0).
Proof.
  intros Hs (pre & rev0 & post & -> & _ & Hpre) x rev Hx HP.
  apply StronglySorted_app in Hs as (_ & _ & [_ Hs]%StronglySorted_inv).
  rewrite Forall_forall in Hs, Hpre.
  apply elem_of_app in Hx as [Hx|[Hx|Hx]%elem_of_cons].
  - by apply Hpre in Hx.
  - simplify_eq. apply newest_refl.
  - by apply (Hs (x, rev)).
Qed.

Lemma first_with_exists (P : BackupRecord → Prop) `{!∀ r, Decision (P r)} recs :
  (∃ r, first_with P recs r) ∨ Forall (λ x, ¬ P x.1) recs.
Proof.
  induction recs as [|[r rev] recs IH]; [by right|].
  destruct (decide (P r)) as [HP|HP].
  - left. exists r, [], rev, recs. auto.
  - destruct IH as [(r' & pre & rev' & post & -> & HP' & Hpre)|Hall]; [left|right; by constructor].
    exists r', ((r, rev) :: pre), rev', post. split; [done|]. split; [done|]. by constructor.
Qed.

Lemma latest_loop_verified pre r rev post fb : Status r = BackupVerified →
  Forall (λ x, Status x.1 ≠ BackupVerified) pre →
  latest_loop (pre ++ (r, rev) :: post) fb = Some r.
Proof.
  intros Hr Hpre. revert fb. induction Hpre as [|[x xr] pre Hx _ IH]; intros fb; simpl in *.
  - by rewrite decide_True.
  - rewrite decide_False by done. by case_decide.
Qed.

Lemma latest_loop_unverified recs fb : Forall (λ x, Status x.1 ≠ BackupVerified) recs →
  (∀ r, first_with (λ x, Status x = BackupUploaded) recs r →
     latest_loop recs fb = match fb with Some _ => fb | None => Some r end) ∧
  (Forall (λ x, Status x.1 ≠ BackupUploaded) recs → latest_loop recs fb = fb).
Proof.
  intros Hv. revert fb. induction Hv as [|[x xr] recs Hx _ IH]; intros fb; simpl in *.
  { split; [|done]. intros r (pre & ? & ? & ? & _). by destruct pre. }
  rewrite decide_False by done. split.
  - intros r (pre & rev & post & Heq & Hr & Hpre). destruct pre as [|y pre]; simplify_eq/=.
    + rewrite decide_True by done.
      destruct (first_with_exists (λ x, Status x = BackupUploaded) post) as [[r' Hr']|Hnone].
      * rewrite (proj1 (IH _) r' Hr'). by destruct fb.
      * rewrite (proj2 (IH _) Hnone). by destruct fb.
    + apply Forall_cons in Hpre as [Hy Hpre]. simpl in Hy. rewrite decide_False by done.
      apply (proj1 (IH fb)). by exists pre, rev, post.
  - intros [Hy Hall]%Forall_cons. simpl in Hy. rewrite decide_False by done. by apply IH.
Qed.

Lemma newest_antisym a b : newest (a, 0) (b, 0) → newest (b, 0) (a, 0) → Name a = Name b.
Proof.
  unfold newest. simpl. intros [?|[? H1]] [?|[? H2]]; try lia.
  by apply (anti_symm String.le).
Qed.

Lemma is_latest_unique v a b : is_latest v a → is_latest v b → a = b.
Proof.
  intros [[ra Ha] La] [[rb Hb] Lb].
  assert (Name a = Name b) as Hn.
  { destruct La as [[Sa Ma]|[Sa Ma]], Lb as [[Sb Mb]|[Sb Mb]].
    - apply newest_antisym; eauto.
    - by destruct (Mb a ra Ha) as [? _].
    - by destruct (Ma b rb Hb) as [? _].
    - apply newest_antisym; [by apply (Ma b rb)|by apply (Mb a ra)]. }
  destruct Ha as (x & Hx & Hu), Hb as (y & Hy & Hu'). rewrite Hn in Hx. congruence.
Qed.

(** The loop of [LatestUsable] finds the latest usable backup. *)
Lemma latest_loop_spec v recs b : listed v recs →
  latest_loop recs None = Some b ↔ is_latest v b.
Proof.
  intros (Hs & Hnd & Hin).
  destruct (first_with_exists (λ x, Status x = BackupVerified) recs) as [[r Hf]|Hnone].
  - pose proof (first_with_newest _ _ _ Hs Hf) as Hnew.
    destruct Hf as (pre & rev & post & Hrecs & Hr & Hpre).
    assert (latest_loop recs None = Some r) as Hl by (rewrite Hrecs; by apply latest_loop_verified).
    assert (recorded v r rev) as Hrv by (apply Hin; rewrite Hrecs; set_solver).
    assert (is_latest v r) as Hlat.
    { split; [by exists rev|left]. split; [done|]. intros x xr Hx Hxv.
      apply (Hnew x xr); [by apply Hin|done]. }
    rewrite Hl. split; [by intros [= <-]|]. intros Hb. f_equal.
    by eapply is_latest_unique.
  - destruct (first_with_exists (λ x, Status x = BackupUploaded) recs) as [[r Hf]|Hnone'].
    + pose proof (first_with_newest _ _ _ Hs Hf) as Hnew.
      assert (latest_loop recs None = Some r) as Hl by by apply (latest_loop_unverified recs None Hnone).
      destruct Hf as (pre & rev & post & Hrecs & Hr & Hpre).
      assert (is_latest v r) as Hlat.
      { split; [exists rev; apply Hin; rewrite Hrecs; set_solver|right]. split; [done|].
        intros x xr Hx%Hin. rewrite Forall_forall in Hnone. split; [by apply (Hnone (x, xr))|].
        by apply (Hnew x xr). }
      rewrite Hl. split; [by intros [= <-]|]. intros Hb. f_equal. by eapply is_latest_unique.
    + rewrite (proj2 (latest_loop_unverified recs None Hnone) Hnone'). split; [done|].
      intros [[rev Hb%Hin] [[Hv _]|[Hu _]]]; rewrite Forall_forall in Hnone, Hnone'.
      * by apply (Hnone _ Hb) in Hv.
      * by apply (Hnone' _ Hb) in Hu.
Qed.

(** *** Pruning *)

Context `{!Clock ET, !HTTP ET, !Jobs ET}.

(** From [w] to [w'], only backups and objects whose name is not in [keep] can
    have disappeared, and nothing appeared or changed. *)
Definition only_removes (keep : list string) (w w' : W) : Prop :=
  (stok w → stok w') ∧
  (∀ k, stv w' !! k = stv w !! k ∨
        stv w' !! k = None ∧ ∃ name, k = backup_key name ∧ name ∉ keep) ∧
  (∀ name, blv w' !! name = blv w !! name ∨ blv w' !! name = None ∧ name ∉ keep).

#[local] Instance only_removes_preorder keep : PreOrder (only_removes keep).
Proof.
  split; [intros w; split; [auto|split; intros; by left]|].
  intros w1 w2 w3 (H1 & H2 & H3) (H1' & H2' & H3'). unfold only_removes. split_and!.
  - auto.
  - intros k. destruct (H2' k) as [->|?]; [apply H2|by right].
  - intros k. destruct (H3' k) as [->|?]; [apply H3|by right].
Qed.

Lemma reads_only_removes keep (w w' : W) : reads_only w w' → only_removes keep w w'.
Proof.
  intros (H1 & H2 & H3). unfold only_removes.
  split_and!; [done|intros; left; by rewrite H2|intros; left; by rewrite H3].
Qed.

Lemma DeleteBlob_removes keep name (w w' : W) r : name ∉ keep →
  on_blobs (DeleteBlob name) w = (r, w') → only_removes keep w w'.
Proof.
  intros Hn (H & Hs & _)%on_blobs_inv. apply DeleteBlob_law in H.
  unfold only_removes, stok, stv, blv. rewrite Hs. split_and!; [done|by left|].
  intros k. destruct H as [->|[_ ->]]; [|by left].
  destruct (decide (k = name)) as [->|]; [right|left].
  - by rewrite lookup_delete_eq.
  - by rewrite lookup_delete_ne.
Qed.

Lemma Delete_removes keep name (w w' : W) r : stok w → name ∉ keep →
  on_state (Delete (backupPrefix +:+ name)) w = (r, w') → only_removes keep w w'.
Proof.
  intros Hok Hn (H & Hs & _)%on_state_inv. apply Delete_law in H as [Hok' H]; [|done].
  unfold only_removes, stok, stv, blv. rewrite Hs. split_and!; [done| |by left].
  fold (backup_key name) in H. intros k.
  assert (view (outer w').1 = delete (backup_key name) (view (outer w).1) ∨
          view (outer w').1 = view (outer w).1) as [->| ->]; [by destruct r; naive_solver| |by left].
  destruct (decide (k = backup_key name)) as [->|]; [right|left].
  - rewrite lookup_delete_eq. eauto.
  - by rewrite lookup_delete_ne.
Qed.

Lemma prune_loop_removes keep recs : ∀ (w w' : W) r, stok w →
  prune_loop keep recs w = (r, w') → is_ok r = true ∧ only_removes keep w w'.
Proof.
  induction recs as [|[b rev] recs IH]; intros w w' r Hok H; cbn [prune_loop] in H.
  { unfold mret, M_ret in H. simplify_eq. split; [done|reflexivity]. }
  case_decide as Hk; [by apply IH|].
  apply try_inv in H as (d & w1 & Hdel & H).
  pose proof (DeleteBlob_removes keep _ _ _ _ Hk Hdel) as Hr1.
  pose proof (proj1 Hr1 Hok) as Hok1.
  assert (∀ (w2 : W) es0 r, (es ← prune_loop keep recs; mret (es0 :: es)) w2 = (r, w') → stok w2 →
    is_ok r = true ∧ only_removes keep w2 w') as Hrest.
  { intros w2 es0 r2 H2 Hok2. apply bind_inv in H2 as [(e & He & ->)|(es & w3 & He & H2)];
      apply IH in He as [? ?]; try done. unfold mret, M_ret in H2. by simplify_eq. }
  destruct d as [[]|e].
  - apply try_inv in H as (f & w2 & Hfor & H).
    pose proof (Delete_removes keep _ _ _ _ Hok1 Hk Hfor) as Hr2.
    pose proof (proj1 Hr2 Hok1) as Hok2.
    assert (is_ok r = true ∧ only_removes keep w2 w') as [? ?].
    { destruct f; [by apply IH|by eapply Hrest]. }
    split; [done|]. etrans; [exact Hr1|]. by etrans.
  - apply Hrest in H as [? ?]; [|done]. split; [done|]. by etrans.
Qed.

Lemma orphan_loop_removes known may grace now infos : ∀ (w w' : W) r,
  orphan_loop known may grace now infos w = (r, w') → only_removes known w w'.
Proof.
  induction infos as [|i infos IH]; intros w w' r H; cbn [orphan_loop] in H.
  { unfold mret, M_ret in H. simplify_eq. reflexivity. }
  apply bind_inv in H as [(e & H & _)|([] & w1 & H & Hrest)].
  - destruct (bool_decide _ || _); [done|]. destruct (may && _); [|done].
    unfold ignore in H. by destruct (on_blobs _ w).
  - apply IH in Hrest. etrans; [|exact Hrest].
    destruct (bool_decide _ || _) eqn:E; [unfold mret, M_ret in H; simplify_eq; reflexivity|].
    destruct (may && _); [|unfold mret, M_ret in H; simplify_eq; reflexivity].
    unfold ignore in H. destruct (on_blobs _ w) as [d w1'] eqn:Hd. simplify_eq.
    apply orb_false_iff in E as [E _]. prop_bool. by eapply DeleteBlob_removes.
Qed.

Lemma handleOrphans_removes c recs may (w w' : W) r :
  handleOrphans c recs may w = (r, w') →
  only_removes ((λ x, Name x.1) <$> recs) w w'.
Proof.
  intros H. unfold handleOrphans in H. cbv zeta in H.
  apply try_inv in H as (l & w1 & Hls & H).
  assert (reads_only w w1) as Hr1.
  { eapply on_blobs_reads; [exact Hls|]. intros b ? b' Hb. by eapply ListBlobs_law. }
  etrans; [by apply reads_only_removes|].
  destruct l as [infos|]; [|unfold mret, M_ret in H; simplify_eq; reflexivity].
  apply bind_inv in H as [(e & Hn & _)|(now & w2 & Hn & H)];
    unfold Now in Hn; pose proof (on_env_reads _ _ _ _ Hn) as Hr2.
  - by apply reads_only_removes.
  - apply orphan_loop_removes in H. etrans; [by apply reads_only_removes|done].
Qed.

Lemma keep_newest_first retention recs r n : 0 ≤ n < retention →
  first_with (λ x, Status x ≠ BackupBad) recs r → Name r ∈ (keep_newest retention recs n).1.
Proof.
  intros Hn (pre & rev & post & -> & Hr & Hpre). induction Hpre as [|[x xr] pre Hx _ IH]; simpl in *.
  - rewrite decide_False by done. destruct (keep_newest retention post (n + 1)) as [keep m].
    simpl. rewrite (proj2 (Z.leb_le _ _)) by lia. by left.
  - by rewrite decide_True by (by apply dec_stable).
Qed.

Lemma keep_verified_first recs r :
  first_with (λ x, Status x = BackupVerified) recs r → Name r ∈ keep_verified recs.
Proof.
  intros (pre & rev & post & -> & Hr & Hpre). induction Hpre as [|[x xr] pre Hx _ IH]; simpl in *.
  - rewrite decide_True by done. by left.
  - by rewrite decide_False.
Qed.

(** The latest usable backup is among those that are kept. *)
Lemma latest_kept v recs retention b : 1 ≤ retention → records_ok v → listed v recs →
  is_latest v b →
  Name b ∈ (keep_newest retention recs 0).1 ++ keep_verified recs.
Proof.
  intros Hret Hok Hl Hb. pose proof Hl as (Hs & _ & Hin).
  pose proof Hb as [[rev Hrec%Hin] Hb'].
  rewrite elem_of_app.
  destruct (first_with_exists (λ x, Status x = BackupVerified) recs) as [[r Hf]|Hnone].
  - right. assert (r = b) as ->; [|by apply keep_verified_first].
    pose proof Hf as (pre & rv & post & Heq & Hr & Hpre).
    apply (latest_loop_spec v recs b Hl) in Hb. rewrite Heq, latest_loop_verified in Hb; [|done..].
    congruence.
  - left. destruct (first_with_exists (λ x, Status x ≠ BackupBad) recs) as [[r Hf]|Hall].
    + assert (r = b) as ->; [|apply keep_newest_first; [lia|done]].
      apply (latest_loop_spec v recs b Hl) in Hb.
      assert (first_with (λ x, Status x = BackupUploaded) recs r) as Hfu.
      { destruct Hf as (pre & rv & post & Heq & Hr & Hpre). exists pre, rv, post.
        split_and!; [done| |].
        * destruct (Hin r rv) as [(x & Hx & Hu) _]; [rewrite Heq; set_solver|].
          destruct (Hok _ _ _ Hx (HasPrefix_backup_key _)) as (r' & Hu' & _ & Hst).
          assert (r' = r) as -> by congruence. destruct Hst as [?|[Hv|?]]; [done| |done].
          rewrite Forall_forall in Hnone. exfalso. apply (Hnone (r, rv)); [|done].
          rewrite Heq. set_solver.
        * eapply Forall_impl; [exact Hpre|]. simpl. intros x Hx Hux. apply Hx. by rewrite Hux. }
      rewrite (proj1 (latest_loop_unverified recs None Hnone) r Hfu) in Hb. congruence.
    + rewrite Forall_forall in Hall. exfalso. apply (Hall _ Hrec). simpl.
      destruct Hb' as [[-> _]|[-> _]]; done.
Qed.

Lemma is_latest_removes keep (w w' : W) b : only_removes keep w w' → Name b ∈ keep →
  is_latest (stv w) b → is_latest (stv w') b ∧ blv w' !! Name b = blv w !! Name b.
Proof.
  intros (_ & Hv & Hb) Hk [[rev (x & Hx & Hu)] Hlat].
  assert (∀ r rev, recorded (stv w') r rev → recorded (stv w) r rev) as Hsub.
  { intros r rv (y & Hy & Hyu). exists y. split; [|done].
    destruct (Hv (backup_key (Name r))) as [<-|[E _]]; [done|]. by rewrite E in Hy. }
  split.
  - split.
    + exists rev, x. split; [|done].
      destruct (Hv (backup_key (Name b))) as [->|[_ (n & Hn%backup_key_inj & Hnk)]]; [done|].
      congruence.
    + destruct Hlat as [[Hs H]|[Hs H]]; [left|right]; (split; [done|]); eauto.
  - destruct (Hb (Name b)) as [?|[_ ?]]; done.
Qed.

Lemma only_removes_mono keep keep' (w w' : W) : (∀ n, n ∈ keep' → n ∈ keep) →
  only_removes keep w w' → only_removes keep' w w'.
Proof.
  intros Hk (H1 & H2 & H3). unfold only_removes. split_and!; [done|..].
  - intros k. destruct (H2 k) as [?|(? & n & ? & ?)]; [by left|right]. naive_solver.
  - intros n. destruct (H3 n) as [?|[? ?]]; [by left|right]. naive_solver.
Qed.

(** [Prune] keeps the backups that are among the newest usable ones or the newest
    verified one. *)
Lemma Prune_removes c ns (w w' : W) r : stok w → records_ok (stv w) → Prune c w = (r, w') →
  (∀ recs n, listed (stv w) recs → n ∈ ns →
     n ∈ (λ x, Name x.1) <$> recs ∧
     n ∈ (keep_newest (BackupRetention (cfg c)) recs 0).1 ++ keep_verified recs) →
  only_removes ns w w'.
Proof.
  intros Hok Hrec H Hn. unfold Prune in H.
  apply bind_inv in H as [(e & Hl & _)|(recs & w1 & Hl & H)];
    apply listBackups_spec in Hl as [Hro Hl]; try done; [by apply reads_only_removes|].
  pose proof (λ n H, proj1 (Hn recs n (Hl recs eq_refl) H)) as Hknown.
  pose proof (λ n H, proj2 (Hn recs n (Hl recs eq_refl) H)) as Hkeep. clear Hn.
  trans w1; [by apply reads_only_removes|]. pose proof (proj1 Hro Hok) as Hok1.
  destruct (keep_newest _ recs 0) as [keep usable]. simpl in *.
  assert (∀ (w2 : W) may u, handleOrphans c recs may w1 = (u, w2) → only_removes ns w1 w2) as Ho1.
  { intros w2 may u Ho%handleOrphans_removes. eapply only_removes_mono; [|exact Ho]. set_solver. }
  destruct (Z.eqb_spec usable 0); [by eapply Ho1|]. clear Ho1.
  apply bind_inv in H as [(e & Hp & _)|(errs & w2 & Hp & H)];
    apply prune_loop_removes in Hp as [? Hp]; try done.
  apply (only_removes_mono _ ns) in Hp; [|set_solver]. trans w2; [done|].
  apply bind_inv in H as [(e & Ho & _)|([] & w3 & Ho & H)]; apply handleOrphans_removes in Ho;
    (apply (only_removes_mono _ ns) in Ho; [|set_solver]); [done|].
  destruct (errors_Join errs); unfold throw, mret, M_ret in H; by simplify_eq.
Qed.

(** C22: there is never less to recover from than before: whatever
    [Prune] deletes and whichever of its deletions fail, the backup that would be
    used for a recovery before is the one after it, and its object is untouched. *)
Theorem Prune_safe c (w w' : W) r b : 1 ≤ BackupRetention (cfg c) → stok w →
  records_ok (stv w) → Prune c w = (r, w') → is_latest (stv w) b →
  is_latest (stv w') b ∧ blv w' !! Name b = blv w !! Name b.
Proof.
  intros Hret Hok Hrec H Hb. eapply is_latest_removes; [|by left|done].
  apply (Prune_removes c [Name b]) in H; [|done..|]; [done|]. intros recs n Hl ->%list_elem_of_singleton.
  split; [|by apply (latest_kept _ _ _ _ Hret Hrec Hl Hb)].
  destruct Hb as [[rev Hr] _]. apply (proj2 (proj2 Hl)) in Hr.
  by apply (list_elem_of_fmap_2 (λ x : BackupRecord * Z, Name x.1)) in Hr.
Qed.

(** [LatestUsable_spec]: [LatestUsable] returns the newest verified backup, or
    when there is none the newest uploaded one; it never returns one that is known
    to be bad, and it reports that there is none only when there is none. *)
Theorem LatestUsable_spec (w w' : W) r : stok w → records_ok (stv w) →
  LatestUsable w = (r, w') →
  stv w' = stv w ∧
  match r with
  | Ok b => is_latest (stv w) b ∧ Status b ≠ BackupBad
  | Err e => errors_Is e ErrNoBackups = true → is_ok (listBackups w).1 = true →
      ∀ b, ¬ is_latest (stv w) b
  end.
Proof using All.
  intros Hok Hrec H. unfold LatestUsable in H.
  apply bind_inv in H as [(e & Hl & ->)|(recs & w1 & Hl & H)].
  - pose proof Hl as Hl'. apply listBackups_spec in Hl as [(_ & ? & _) _]; [|done..].
    split; [done|]. rewrite Hl'. done.
  - apply listBackups_spec in Hl as [(_ & Hv & _) Hl]; [|done..]. specialize (Hl recs eq_refl).
    unfold lift in H. simplify_eq. split; [done|].
    pose proof (λ b, latest_loop_spec _ _ b Hl) as Hspec.
    destruct (latest_loop recs None) as [b|]; simpl.
    + pose proof (proj1 (Hspec b) eq_refl) as Hb. split; [done|].
      destruct Hb as [_ [[-> _]|[-> _]]]; done.
    + intros _ _ b Hb. by apply Hspec in Hb.
Qed.
End spec.

(** ** The schedules live beside the backups *)

Section schedules.
Context {V ST BT ET : Type} `{!Store V ST, !StoreLaws V ST, !JSON V Schedule,
  !BlobStore BT, !BlobLaws BT, !Clock ET}.
#[local] Set Default Proof Using "All".
#[local] Abbreviation W := (world (ST * (BT * ET))).

Definition same_backups (w w' : W) : Prop :=
  (stok w → stok w') ∧ blv w' = blv w ∧
  ∀ name, stv w' !! backup_key name = stv w !! backup_key name.

#[export] Instance same_backups_preorder : PreOrder same_backups.
Proof.
  split; [by intros w|]. intros w1 w2 w3 (H1 & H2 & H3) (H1' & H2' & H3').
  unfold same_backups. split_and!; [auto|congruence|]. intros name. by rewrite H3'.
Qed.

Lemma reads_same w w' : reads_only w w' → same_backups w w'.
Proof. intros (H1 & H2 & H3). unfold same_backups. by rewrite H2. Qed.

Lemma write_same {A} (c : M ST A) key x (w w' : W) r : stok w → on_state c w = (r, w') →
  (∀ name, key ≠ backup_key name) →
  (∀ s r s', store_ok s → c s = (r, s') → store_ok s' ∧
     (view s' = view s ∨ ∃ rv, view s' = <[key := (x, rv)]> (view s))) →
  same_backups w w'.
Proof.
  intros Hok (H & Hs & _)%on_state_inv Hk Hc. apply Hc in H as [Hok' H]; [|done].
  unfold same_backups, blv, stv, stok. rewrite Hs. split_and!; [done..|].
  intros name. destruct H as [->|[rv ->]]; [done|]. by rewrite lookup_insert_ne.
Qed.

Lemma schedule_key_backup job name : "schedule/" +:+ job ≠ backup_key name.
Proof. by unfold backup_key, backupPrefix. Qed.

Lemma loadSchedule_reads job (w w' : W) r : stok w → loadSchedule job w = (r, w') →
  reads_only w w'.
Proof.
  intros Hok H. unfold loadSchedule in H. apply try_inv in H as (x & w1 & Hg & H).
  assert (reads_only w w1).
  { eapply on_state_reads; [exact Hg|done|]. by intros ???? (? & ? & _)%GetJSON_spec. }
  destruct x as [sr|e]; [|destruct (errors_Is _ _)]; unfold throw, mret, M_ret in H; by simplify_eq.
Qed.

Lemma saveSchedule_same n job s : ∀ (w w' : W) r, stok w →
  saveSchedule_loop n job s w = (r, w') → same_backups w w'.
Proof.
  induction n as [|n IH]; intros w w' r Hok H; cbn [saveSchedule_loop] in H.
  { unfold mret, M_ret in H. by simplify_eq. }
  apply try_inv in H as (x & w1 & Hs & H).
  assert (same_backups w w1) as Hsame.
  { apply bind_inv in Hs as [(e & Hl & _)|(sr & w2 & Hl & Hs)];
      apply loadSchedule_reads in Hl as Hro; try done; [by apply reads_same|].
    pose proof (proj1 Hro Hok). trans w2; [by apply reads_same|].
    destruct (_ =? _); (eapply write_same; [done|exact Hs|apply schedule_key_backup|]).
    - intros st [rv|e] st' Hst Hc; apply Create_law in Hc as [? Hc]; [|done| |done]; (split; [done|]).
      + right. exists rv. apply Hc.
      + destruct Hc as (_ & [?|(_ & ?)]); [by left|by right].
    - intros st [rv|e] st' Hst Hc; apply Update_law in Hc as [? Hc]; [|done| |done]; (split; [done|]).
      + right. exists rv. apply Hc.
      + destruct Hc as (_ & _ & [?|(_ & ?)]); [by left|by right]. }
  destruct x as [rv|e]; [unfold mret, M_ret in H; by simplify_eq|].
  destruct (errors_Is _ _); [|unfold mret, M_ret in H; by simplify_eq].
  trans w1; [done|]. eapply IH; [by apply Hsame|done].
Qed.

Lemma finish_same {A} job sched (r : res A) (w w' : W) u : stok w →
  finish job sched r w = (u, w') → same_backups w w'.
Proof.
  intros Hok H. unfold finish in H. destruct r as [a|e]; [|by eapply saveSchedule_same].
  apply bind_inv in H as [(e & Hn & _)|(t & w1 & Hn & H)]; apply on_env_reads in Hn as Hro;
    [by apply reads_same|]. trans w1; [by apply reads_same|].
  eapply saveSchedule_same; [by apply Hro|done].
Qed.
End schedules.

(** ** Fetching, verifying, backing up *)

(** The errors of the stores and of the rest of the outside are not the error that
    condemns a backup: only the coordinator itself says that one is damaged. *)
Class Foreign (V ST BT ET : Type) `{!Store V ST, !BlobStore BT, !Jobs ET} := {
  Get_foreign key s e s' : Get (V := V) key s = (Err e, s') → errors_Is e ErrBackupDamaged = false;
  List_foreign p s e s' : ListPrefix (V := V) p s = (Err e, s') → errors_Is e ErrBackupDamaged = false;
  Update_foreign key (v : V) rev s e s' : Update key v rev s = (Err e, s') →
    errors_Is e ErrBackupDamaged = false;
  GetBlob_foreign name b e b' : GetBlob name b = (Err e, b') → errors_Is e ErrBackupDamaged = false;
  Read_foreign name b d e b' : GetBlob name b = (Ok (d, Some e), b') →
    errors_Is e ErrBackupDamaged = false;
  CreateTemp_foreign s e s' : CreateTemp s = (Err e, s') → errors_Is e ErrBackupDamaged = false;
  CloseTemp_foreign s e s' : CloseTemp s = (Err e, s') → errors_Is e ErrBackupDamaged = false;
  Deep_foreign d s e s' : Deep d s = (Err e, s') → errors_Is e ErrBackupDamaged = false;
}.

Section verify.
Context {V ST BT ET : Type} `{!Store V ST, !StoreLaws V ST, !JSON V BackupRecord,
  !JSON V Schedule, !BlobStore BT, !BlobLaws BT, !Clock ET, !HTTP ET, !Jobs ET,
  !Foreign V ST BT ET}.
Context (sha256_hex : string → string).
#[local] Set Default Proof Using "All".
#[local] Abbreviation W := (world (ST * (BT * ET))).

(** The stored object is what the record says. *)
Definition intact (w : W) (name sha : string) : Prop :=
  ∃ data t, blv w !! name = Some (data, t) ∧ sha256_hex data = sha.

Lemma GetBlob_spec name (w w' : W) r : on_blobs (GetBlob name) w = (r, w') →
  reads_only w w' ∧
  match r with
  | Ok (data, None) => ∃ t, blv w !! name = Some (data, t)
  | Ok (_, Some e) => errors_Is e ErrBackupDamaged = false
  | Err e => errors_Is e ErrBackupDamaged = false ∧
             (errors_Is e BlobErrNotFound = true → blv w !! name = None)
  end.
Proof.
  intros H. split.
  { eapply on_blobs_reads; [exact H|]. intros b ? b' Hb. by apply GetBlob_law in Hb as [? _]. }
  apply on_blobs_inv in H as (H & _). pose proof (GetBlob_law _ _ _ _ H) as [_ Hr].
  destruct r as [[data [e|]]|e]; [by eapply Read_foreign|done|].
  split; [by eapply GetBlob_foreign|done].
Qed.

Lemma checkStored_spec r (w w' : W) res : checkStored sha256_hex r w = (res, w') →
  reads_only w w' ∧
  match res with
  | Ok _ => intact w (Name r) (SHA256 r)
  | Err e => errors_Is e ErrBackupDamaged = true → ¬ intact w (Name r) (SHA256 r)
  end.
Proof.
  unfold checkStored. intros H.
  apply try_inv in H as (g & w1 & Hget & H).
  apply GetBlob_spec in Hget as [Hro Hr]. unfold intact.
  destruct g as [[data [e|]]|e].
  - unfold throw in H. simplify_eq. split; [done|]. by rewrite Hr.
  - destruct Hr as [t Ht]. case_decide as Hs; unfold throw, mret, M_ret in H; simplify_eq;
      (split; [done|]).
    + intros _ (d & t' & Hd & Hsha). congruence.
    + eauto.
  - destruct Hr as [Hf Hn]. destruct (errors_Is e BlobErrNotFound); unfold throw in H;
      simplify_eq; (split; [done|]).
    + intros _ (d & t & Hd & _). rewrite (Hn eq_refl) in Hd. done.
    + by rewrite Hf.
Qed.

Lemma get_record_err key (w w' : W) e :
  on_state (GetJSON (A := BackupRecord) key) w = (Err e, w') → errors_Is e ErrBackupDamaged = false.
Proof.
  intros (H & _)%on_state_inv. unfold GetJSON in H.
  apply bind_inv in H as [(e' & Hg & [= <-])|(en & s1 & _ & H)]; [by eapply Get_foreign|].
  unfold lift, mbind, M_bind, mret, M_ret in H. destruct (unmarshal _); simplify_eq/=. done.
Qed.

(** Fetching by name. *)
Lemma FetchBackup_named name (w w' : W) r : name ≠ "" → stok w →
  FetchBackup sha256_hex true name w = (r, w') →
  reads_only w w' ∧ ∃ fr data, r = Ok (fr, data) ∧
  match fr with
  | Ok rec => (∃ x rev, stv w !! backup_key name = Some (x, rev) ∧ unmarshal x = Some rec) ∧
      sha256_hex data = SHA256 rec ∧ ∃ t, blv w !! Name rec = Some (data, t)
  | Err e => errors_Is e ErrBackupDamaged = true →
      ∃ x rev rec, stv w !! backup_key name = Some (x, rev) ∧ unmarshal x = Some rec ∧
        ¬ intact w (Name rec) (SHA256 rec)
  end.
Proof.
  intros Hn Hok H. unfold FetchBackup in H. cbn [negb] in H.
  rewrite decide_False in H by done.
  apply bind_inv in H as [(e & Hg & _)|(g & w1 & Hg & H)]; unfold try, mbind, M_bind, mret, M_ret in Hg;
    destruct (on_state _ w) as [g' w1'] eqn:Hget; [by destruct g'; simplify_eq|].
  pose proof (get_record _ _ _ _ Hok Hget) as [Hro Hr]. fold (backup_key name) in *.
  destruct g' as [[rec rev]|e]; simplify_eq/=.
  2: { unfold mret, M_ret in H. simplify_eq. split; [done|]. eexists _, _. split; [done|]. intros He.
       by rewrite (get_record_err _ _ _ _ Hget) in He. }
  destruct Hr as (x & Hx & Hu). pose proof Hro as (_ & _ & Hbl).
  apply try_inv in H as (g & w2 & Hb & H).
  apply GetBlob_spec in Hb as [Hro2 Hr]. rewrite Hbl in Hr.
  assert (reads_only w w2) as Hro' by by etrans.
  destruct g as [[data [e|]]|e].
  - unfold mret, M_ret in H. simplify_eq. split; [done|]. eexists _, _. split; [done|].
    intros He. by rewrite Hr in He.
  - case_decide as Hs; unfold mret, M_ret in H; simplify_eq; (split; [done|]);
      eexists _, _; (split; [done|]).
    + intros _. exists x, rev, rec. split_and!; [done..|]. destruct Hr as [t Ht].
      intros (d & t' & Hd & Hsha). congruence.
    + split; [by exists x, rev|]. split; [exact Hs|]. exact Hr.
  - destruct Hr as [Hf Hnf]. destruct (errors_Is e BlobErrNotFound); unfold mret, M_ret in H;
      simplify_eq; (split; [done|]); eexists _, _; (split; [done|]).
    + intros _. exists x, rev, rec. split_and!; [done..|].
      intros (d & t & Hd & _). by rewrite (Hnf eq_refl) in Hd.
    + intros He. by rewrite Hf in He.
Qed.

(** [FetchBackup_sound]: what [FetchBackup] returns is the recorded backup of the
    given name, the copied data are its stored object, and their checksum is the
    recorded one. *)
Theorem FetchBackup_sound name (w w' : W) rec data : name ≠ "" → stok w →
  FetchBackup sha256_hex true name w = (Ok (Ok rec, data), w') →
  (∃ x rev, stv w !! backup_key name = Some (x, rev) ∧ unmarshal x = Some rec) ∧
  sha256_hex data = SHA256 rec ∧ ∃ t, blv w !! Name rec = Some (data, t).
Proof.
  intros Hn Hok H. apply FetchBackup_named in H as (_ & fr & d & [= <- <-] & Hr); done.
Qed.

(** *** Verification does not condemn a good backup *)

(** The record [r0], its name and its content: the backup that is intact. *)
Context (r0 : BackupRecord) (data0 : string) (t0 : Z)
  (sha0 : sha256_hex data0 = SHA256 r0)
  (restorable : ∀ s e s', Deep data0 s = (Err e, s') → ExitError e = false).

(** Every record under the name of [r0] is a version of it that is not bad, and the
    object is there. *)
Definition good_record (r : BackupRecord) : Prop :=
  Name r = Name r0 → info r = info r0 ∧ Status r ≠ BackupBad.

Definition good (w : W) : Prop :=
  stok w ∧ blv w !! Name r0 = Some (data0, t0) ∧
  ∃ x rev r, stv w !! backup_key (Name r0) = Some (x, rev) ∧ unmarshal x = Some r ∧
    info r = info r0 ∧ Status r ≠ BackupBad.

Lemma good_lookup w x rev r : good w → stv w !! backup_key (Name r0) = Some (x, rev) →
  unmarshal x = Some r → info r = info r0 ∧ Status r ≠ BackupBad.
Proof. intros (_ & _ & y & rv & r' & Hy & Hu & H) Hx Hr. by simplify_map_eq. Qed.

Lemma good_reads w w' : good w → reads_only w w' → good w'.
Proof. intros (H1 & H2 & H3) (H4 & H5 & H6). unfold good. rewrite H5, H6. auto. Qed.

Lemma good_intact w r : good w → Name r = Name r0 → info r = info r0 →
  intact w (Name r) (SHA256 r).
Proof.
  intros (_ & Hb & _) Hn Hi. exists data0, t0. rewrite Hn. split; [done|].
  rewrite sha0. unfold SHA256. by rewrite Hi.
Qed.

Lemma saveRecord_good r rev w w' res : good w → good_record r →
  saveRecord r rev w = (res, w') → good w' ∧
  ∀ e, res = Err e → errors_Is e ErrBackupDamaged = false.
Proof.
  intros (H1 & H2 & H3) Hr H. unfold saveRecord in H.
  pose proof (on_state_inv _ _ _ _ H) as (Hu & Hs & _). unfold UpdateJSON in Hu.
  split; [|intros e ->; by eapply Update_foreign].
  apply Update_law in Hu as [Hok Hu]; [|done]. fold (backup_key (Name r)) in Hu.
  assert (stv w' = stv w ∨ ∃ rv, stv w' = <[backup_key (Name r) := (marshal r, rv)]> (stv w)) as Hv.
  { unfold stv. destruct res as [rv|e]; [right; exists rv; apply Hu|].
    destruct Hu as (_ & _ & [?|(_ & ?)]); auto. }
  unfold good, blv. rewrite Hs. split_and!; [done..|]. destruct Hv as [->|[rv ->]]; [done|].
  destruct (decide (backup_key (Name r) = backup_key (Name r0))) as [Hk|Hk].
  - exists (marshal r), rv, r. rewrite Hk, lookup_insert_eq, unmarshal_marshal.
    split; [done|]. split; [done|]. by apply Hr, backup_key_inj.
  - by rewrite lookup_insert_ne.
Qed.

Lemma markBad_good r rev why w w' res : good w → Name r ≠ Name r0 →
  markBad r rev why w = (res, w') →
  good w' ∧ ∃ r' rev', res = Ok (r', rev') ∧ Name r' = Name r.
Proof.
  intros Hg Hn H. unfold markBad in H. cbv zeta in H.
  apply try_inv in H as (s & w1 & Hsv & H).
  apply saveRecord_good in Hsv as [Hg1 _]; [|done|by intros ?].
  unfold mret, M_ret in H. simplify_eq. split; [done|]. eauto.
Qed.

Lemma Now_good w w' res : good w → Now w = (res, w') → good w'.
Proof. intros Hg H. eapply good_reads; [done|]. by eapply on_env_reads. Qed.

Lemma verify_loop_good recs : ∀ w w' res, good w →
  Forall (λ x, good_record x.1) recs → verify_loop sha256_hex recs w = (res, w') →
  good w' ∧ ∀ out, res = Ok out → Forall (λ x, good_record x.1) out.1.
Proof.
  induction recs as [|[r rev] recs IH]; intros w w' res Hg Hr H; cbn [verify_loop] in H.
  { unfold mret, M_ret in H. simplify_eq. split; [done|]. intros ? [= <-]. constructor. }
  apply Forall_cons in Hr as [Hr Hrs]. simpl in Hr.
  (* the rest of the loop, with this record [x] in front *)
  assert (∀ w1 x (f : list error → list error) res, good w1 → good_record x.1 →
    (rest ← verify_loop sha256_hex recs; mret (x :: rest.1, f rest.2)) w1 = (res, w') →
    good w' ∧ ∀ out, res = Ok out → Forall (λ x, good_record x.1) out.1) as Hrest.
  { intros w1 x f res1 Hg1 Hx H1.
    apply bind_inv in H1 as [(e & Hl & ->)|(rest & w2 & Hl & H1)];
      apply IH in Hl as [Hg2 Hl]; try done.
    unfold mret, M_ret in H1. simplify_eq. split; [done|]. intros ? [= <-].
    constructor; [done|by apply Hl]. }
  case_decide; [by eapply (Hrest w (r, rev) id)|].
  apply try_inv in H as (ck & w1 & Hck & H).
  apply checkStored_spec in Hck as [Hro Hck]. pose proof (good_reads _ _ Hg Hro) as Hg1.
  destruct ck as [[]|e].
  - apply bind_inv in H as [(e & Hn & ->)|(now & w2 & Hn & H)]; pose proof (Now_good _ _ _ Hg1 Hn) as Hg2;
      [done|]. cbv zeta in H.
    apply try_inv in H as (s & w3 & Hsv & H).
    pose proof (saveRecord_good _ _ _ _ _ Hg2 (Hr : good_record (MkBackupRecord _ _ _ _ _ _ _)) Hsv) as [Hg3 _].
    destruct s as [rv|e]; [eapply (Hrest _ (_, rv) id)|eapply (Hrest _ (_, rev) (cons e))]; try exact H; done.
  - apply bind_inv in H as [(e' & Hc & _)|(ce & w2 & Hc & H)];
      pose proof (good_reads _ _ Hg1 (on_env_reads _ _ _ _ Hc)) as Hg2; [by unfold ctxErr, on_env, out, zoom, on_snd in Hc; destruct (outer w1) as [? [? ?]]|].
    destruct ce as [ce|]; [unfold throw in H; simplify_eq; done|].
    apply bind_inv in H as [(e' & Hm & ->)|(rr & w3 & Hm & H)].
    + destruct (errors_Is e ErrBackupDamaged) eqn:He; [|done].
      apply markBad_good in Hm as (? & ? & ? & [=] & _); [done|].
      intros Hn. destruct (Hr Hn) as [Hi _]. by apply (Hck eq_refl), good_intact.
    + assert (good w3 ∧ good_record rr.1) as [Hg3 Hrr].
      { destruct (errors_Is e ErrBackupDamaged) eqn:He.
        - assert (Name r ≠ Name r0) as Hne.
          { intros Hn. destruct (Hr Hn) as [Hi _]. by apply (Hck eq_refl), good_intact. }
          apply markBad_good in Hm as (? & r' & rv & [= ->] & Hn'); [|done..].
          split; [done|]. simpl. intros Hn. congruence.
        - unfold mret, M_ret in Hm. by simplify_eq. }
      by eapply (Hrest _ rr (cons _)).
Qed.

Lemma LatestUsable_reads (w w' : W) r : stok w → LatestUsable w = (r, w') → reads_only w w'.
Proof.
  intros Hok H. unfold LatestUsable in H.
  assert (∀ (w1 : W) rl, listBackups w = (rl, w1) → reads_only w w1) as Hl.
  { clear H. intros w1 rl H. unfold listBackups in H.
    apply bind_inv in H as [(e & Hl & _)|(es & w2 & Hl & H)];
      (eapply on_state_reads in Hl as Hro; [|done|by intros ???? (? & ? & _)%List_law]); [done|].
    apply bind_inv in H as [(e & Hl' & ->)|(rs & w3 & Hl' & H)];
      apply list_loop_spec in Hl' as [? _]; try (by apply Hro); [by etrans|].
    unfold mret, M_ret in H. simplify_eq. by etrans. }
  apply bind_inv in H as [(e & H & ->)|(rs & w2 & H & H')]; apply Hl in H; [done|].
  unfold lift in H'. by simplify_eq.
Qed.

Lemma FetchBackup_reads name (w w' : W) r : stok w →
  FetchBackup sha256_hex true name w = (r, w') → reads_only w w' ∧ is_ok r = true.
Proof.
  intros Hok H. destruct (decide (name = "")) as [->|Hn].
  2: { apply FetchBackup_named in H as (? & fr & data & -> & _); done. }
  unfold FetchBackup in H. cbn [negb] in H. rewrite decide_True in H by done.
  apply try_inv in H as (g & w1 & Hl & H). apply LatestUsable_reads in Hl; [|done].
  destruct g as [rec|e]; [|unfold mret, M_ret in H; by simplify_eq].
  apply try_inv in H as (g & w2 & Hb & H). apply GetBlob_spec in Hb as [Hro _].
  assert (w2 = w' ∧ is_ok r = true) as [<- ?]; [|split; [by etrans|done]].
  destruct g as [[data [e|]]|e]; [|case_decide|destruct (errors_Is _ _)];
    unfold mret, M_ret in H; by simplify_eq.
Qed.

(** What a step of the verification leaves: the backup [r0] is good as before, and
    when it found a backup damaged, that was another one. *)
Definition innocent {A} (r : BackupRecord) (w' : W) (res : res A) : Prop :=
  good w' ∧ ∀ e, res = Err e → errors_Is e ErrBackupDamaged = true → Name r ≠ Name r0.

Lemma foreign_innocent {A} r w' (e : error) : good w' → errors_Is e ErrBackupDamaged = false →
  innocent (A := A) r w' (Err e).
Proof. intros Hg He. split; [done|]. intros ? [= <-] He'. by rewrite He in He'. Qed.

Context (named0 : Name r0 ≠ "").

(** What [FetchBackup] returns for [r0] is the good record and its content. *)
Lemma FetchBackup_good r w w' fr data : good w →
  FetchBackup sha256_hex true (Name r) w = (Ok (fr, data), w') →
  good w' ∧ (Name r = Name r0 →
    match fr with
    | Ok _ => data = data0
    | Err e => errors_Is e ErrBackupDamaged = false
    end).
Proof.
  intros Hg H. pose proof (proj1 Hg) as Hok.
  split; [eapply good_reads; [done|by eapply FetchBackup_reads]|]. intros Hn. rewrite Hn in H.
  apply FetchBackup_named in H as (_ & fr' & d & [= <- <-] & Hr); [|done..].
  pose proof Hg as (_ & Hb & _). destruct fr as [rec|e].
  - destruct Hr as ((x & rev & Hx & Hu) & _ & t & Ht).
    destruct (good_lookup _ _ _ _ Hg Hx Hu) as [Hi _].
    assert (Name rec = Name r0) as Hn' by (unfold Name; by rewrite Hi).
    rewrite Hn' in Ht. congruence.
  - destruct (errors_Is e ErrBackupDamaged); [|done].
    destruct (Hr eq_refl) as (x & rev & rec & Hx & Hu & Hni). exfalso. apply Hni.
    destruct (good_lookup _ _ _ _ Hg Hx Hu) as [Hi _]. apply good_intact; [done| |done].
    unfold Name. by rewrite Hi.
Qed.

Lemma deepVerify_good r rev w w' res : good w → good_record r →
  deepVerify sha256_hex true r rev w = (res, w') → innocent r w' res.
Proof.
  intros Hg Hr H. unfold deepVerify in H.
  apply bind_inv in H as [(e & Hc & ->)|([] & w1 & Hc & H)];
    pose proof (good_reads _ _ Hg (on_env_reads _ _ _ _ Hc)) as Hg1.
  { apply foreign_innocent; [done|]. by apply on_env_run, CreateTemp_foreign in Hc. }
  apply bind_inv in H as [(e & Hf & ->)|([fr data] & w2 & Hf & H)].
  { by apply FetchBackup_reads in Hf as [_ ?]; [|apply Hg1]. }
  apply (FetchBackup_good _ _ _ _ _ Hg1) in Hf as [Hg2 Hf]. destruct fr as [rec|e].
  - apply bind_inv in H as [(e & Hc' & ->)|([] & w3 & Hc' & H)];
      pose proof (good_reads _ _ Hg2 (on_env_reads _ _ _ _ Hc')) as Hg3.
    { apply foreign_innocent; [done|]. by apply on_env_run, CloseTemp_foreign in Hc'. }
    apply try_inv in H as (d & w4 & Hd & H).
    pose proof (good_reads _ _ Hg3 (on_env_reads _ _ _ _ Hd)) as Hg4. apply on_env_run in Hd.
    destruct d as [[]|e].
    + apply bind_inv in H as [(e & Hnow & ->)|(now & w5 & Hnow & H)];
        pose proof (Now_good _ _ _ Hg4 Hnow) as Hg5.
      { apply on_env_run in Hnow. unfold now in Hnow. by destruct (tick _). }
      cbv zeta in H.
      apply bind_inv in H as [(e & Hs & ->)|(rv & w6 & Hs & H)];
        apply saveRecord_good in Hs as [Hg6 Hs]; try done.
      * apply foreign_innocent; auto.
      * intros Hn. by destruct (Hr Hn).
      * unfold mret, M_ret in H. by simplify_eq.
      * intros Hn. by destruct (Hr Hn).
    + destruct (ExitError e) eqn:Hex; unfold throw in H; simplify_eq.
      * split; [done|]. intros ? _ _ Hn. rewrite (Hf Hn) in Hd.
        apply restorable in Hd. congruence.
      * apply foreign_innocent; [done|]. by apply Deep_foreign in Hd.
  - apply ignore_inv in H as (x & w3 & Hc' & H). unfold throw in H. simplify_eq.
    split; [exact (good_reads _ _ Hg2 (on_env_reads _ _ _ _ Hc'))|]. intros ? [= <-] He Hn.
    rewrite (Hf Hn) in He. done.
Qed.

Lemma deep_loop_good recs : ∀ w w' res, good w → Forall (λ x, good_record x.1) recs →
  deep_loop sha256_hex true recs w = (res, w') → good w'.
Proof.
  induction recs as [|[r rev] recs IH]; intros w w' res Hg Hr H; cbn [deep_loop] in H.
  { unfold mret, M_ret in H. by simplify_eq. }
  apply Forall_cons in Hr as [Hr Hrs]. simpl in Hr.
  case_decide; [by eapply IH|].
  apply try_inv in H as (d & w1 & Hd & H).
  apply deepVerify_good in Hd as [Hg1 Hd]; [|done..].
  destruct d as [|e]; [unfold mret, M_ret in H; by simplify_eq|].
  apply bind_inv in H as [(e' & Hc & ->)|(ce & w2 & Hc & H)];
    pose proof (good_reads _ _ Hg1 (on_env_reads _ _ _ _ Hc)) as Hg2; [done|].
  destruct ce as [ce|]; [unfold throw in H; by simplify_eq|].
  destruct (errors_Is e ErrBackupDamaged) eqn:He.
  - apply bind_inv in H as [(e' & Hm & ->)|(u & w3 & Hm & H)];
      apply bind_inv in Hm as [(e2 & Hm & Heq)|(rr & w4 & Hm & Hu)];
      (apply markBad_good in Hm as [? _]; [|done|by apply (Hd e)]);
      unfold mret, M_ret in *; by simplify_eq.
  - unfold mbind, M_bind, mret, M_ret in H. by simplify_eq.
Qed.

Lemma good_same w w' : good w → same_backups w w' → good w'.
Proof. intros (H1 & H2 & H3) (H4 & H5 & H6). unfold good. rewrite H5, H6. auto. Qed.

Lemma VerifyOnce_body_good has_verifier w w' res : good w → records_ok (stv w) →
  VerifyOnce_body sha256_hex true has_verifier w = (res, w') → good w'.
Proof.
  intros Hg Hrec H. unfold VerifyOnce_body in H.
  apply bind_inv in H as [(e & Hl & _)|(recs & w1 & Hl & H)];
    apply listBackups_spec in Hl as [Hro Hl]; try done; try apply Hg;
    pose proof (good_reads _ _ Hg Hro) as Hg1; [done|].
  assert (Forall (λ x, good_record x.1) recs) as Hgr.
  { apply Forall_forall. intros [r rev] Hr Hn. destruct (Hl recs eq_refl) as (_ & _ & Hin).
    apply Hin in Hr as (x & Hx & Hu). simpl in *. rewrite Hn in Hx.
    by apply (good_lookup w x rev). }
  apply bind_inv in H as [(e & Hv & _)|(ve & w2 & Hv & H)];
    apply verify_loop_good in Hv as [Hg2 Hv]; try done.
  apply bind_inv in H as [(e & Hd & _)|(de & w3 & Hd & H)].
  - destruct has_verifier; [|done]. eapply deep_loop_good; [exact Hg2| |exact Hd]. by apply Hv.
  - assert (good w3) as Hg3.
    { destruct has_verifier; [|unfold mret, M_ret in Hd; by simplify_eq].
      eapply deep_loop_good; [exact Hg2| |exact Hd]. by apply Hv. }
    destruct (errors_Join _); unfold throw, mret, M_ret in H; by simplify_eq.
Qed.

(** C23: however the stores, the clock and the scratch node
    behave, [VerifyOnce] never condemns a backup whose stored object has the
    recorded checksum and restores: its record stays, with the same content and not
    marked bad, and so does its object. *)
Theorem VerifyOnce_innocent has_verifier rev (w w' : W) res :
  stok w → records_ok (stv w) → recorded (stv w) r0 rev → Status r0 ≠ BackupBad →
  blv w !! Name r0 = Some (data0, t0) →
  VerifyOnce sha256_hex true has_verifier w = (res, w') →
  blv w' !! Name r0 = Some (data0, t0) ∧
  ∃ x rev' r', stv w' !! backup_key (Name r0) = Some (x, rev') ∧ unmarshal x = Some r' ∧
    info r' = info r0 ∧ Status r' ≠ BackupBad.
Proof.
  intros Hok Hrec (x & Hx & Hu) Hs Hb H.
  assert (good w) as Hg by (split_and!; [done..|]; by exists x, rev, r0).
  cut (good w'); [by intros (_ & ? & ?)|]. unfold VerifyOnce in H. cbn [negb] in H.
  apply try_inv in H as (sr & w1 & Hl & H). apply loadSchedule_reads in Hl as Hro; [|done].
  apply (good_reads _ _ Hg) in Hro as Hg1.
  assert (stv w1 = stv w) as Hv1 by apply Hro. rewrite <- Hv1 in Hrec.
  cbv zeta in H. apply bind_inv in H as [(e & Hn & _)|(t & w2 & Hn & H)];
    apply on_env_reads in Hn as Hro2; apply (good_reads _ _ Hg1) in Hro2 as Hg2; [done|].
  assert (stv w2 = stv w1) as Hv2 by apply Hro2. rewrite <- Hv2 in Hrec.
  unfold defer in H. destruct (VerifyOnce_body _ _ _ w2) as [rb w3] eqn:Hbody.
  apply VerifyOnce_body_good in Hbody as Hg3; [|done..].
  destruct (finish _ _ rb w3) as [u w4] eqn:Hf. simplify_eq.
  eapply good_same; [exact Hg3|]. eapply finish_same; [apply Hg3|done].
Qed.
End verify.

(** ** Taking a backup *)

Section backup.
Context {V ST BT ET : Type} `{!Store V ST, !StoreLaws V ST, !JSON V BackupRecord,
  !JSON V Schedule, !BlobStore BT, !BlobLaws BT, !Clock ET, !HTTP ET, !Jobs ET}.
Context (decode_backup : string → option BackupInfo) (PathEscape : string → string)
  (timeout_query : Z → string) (sha256_hex : string → string).
#[local] Set Default Proof Using "All".
#[local] Abbreviation W := (world (ST * (BT * ET))).

(** The node to back up is found like the node to promote. *)
Lemma pick_loop_candidate c master ss cand f :
  Forall (λ s, ns_Name s ≠ "" ∧ is_Some (nodes c !! ns_Name s)) ss →
  (cand ≠ "" → is_Some (nodes c !! cand)) →
  let to := candidate_loop master ss cand f in
  pick_loop c master ss (if decide (cand = "") then None else nodes c !! cand) f =
    (if decide (to = "") then None else nodes c !! to).
Proof.
  revert cand f. induction ss as [|s ss IH]; intros cand f Hss Hc; simpl; [done|].
  apply Forall_cons in Hss as [[Hn Hs] Hss].
  destruct (bool_decide (ns_Name s = master) || _); [by apply IH|].
  assert (bool_decide ((if decide (cand = "") then None else nodes c !! cand) = None) =
          bool_decide (cand = "")) as ->.
  { apply bool_decide_ext. case_decide as He; [done|]. destruct (Hc He) as [x ->]. done. }
  destruct (bool_decide (cand = "") || _); [|by apply IH].
  rewrite <- IH by done. by rewrite decide_False.
Qed.

Lemma pickBackupNode_spec c (w w' : W) node : statuses_ok c (status w) →
  pickBackupNode c w = (Ok node, w') → w' = w ∧
  ∃ s, replica c w (Master (cluster w)) s ∧ nodes c !! ns_Name s = Some node ∧
    ∀ s', replica c w (Master (cluster w)) s' → LastApplied (Stream s') ≤ LastApplied (Stream s).
Proof.
  intros Hst H. unfold pickBackupNode, get_state, NodeStatuses, gets, lift, mbind, M_bind in H.
  pose proof (statuses_names c w Hst) as Hnames.
  pose proof (candidate_loop_spec (Master (cluster w)) _ "" 0 Hnames (λ _, eq_refl)) as [_ Hsome].
  set (ss := (λ name, status_of name w) <$> order c) in *.
  assert (Forall (λ s, ns_Name s ≠ "" ∧ is_Some (nodes c !! ns_Name s)) ss) as Hall.
  { apply Forall_forall. intros s Hs. apply status_of_name in Hs; [|done].
    by destruct (Hst _ Hs) as (? & ? & _). }
  pose proof (pick_loop_candidate c (Master (cluster w)) ss "" 0 Hall ltac:(done)) as Hpick.
  rewrite decide_True in Hpick by done. rewrite Hpick in H. case_decide as Hto; [done|].
  destruct (Hsome Hto) as (n & _ & [[? _]|(s & Hin & He & Hname & <-)] & Hmax); [done|].
  rewrite <- Hname in H. destruct (nodes c !! ns_Name s) as [node'|] eqn:Hn; simplify_eq/=.
  split; [done|]. exists s. split; [by split|]. split; [done|]. intros s' [Hs' He']. by apply Hmax.
Qed.

(** A record newer than all others heads the list and is kept. *)
Lemma newest_kept v recs retention r rev : 1 ≤ retention → listed v recs → recorded v r rev →
  Status r ≠ BackupBad →
  (∀ x xr, recorded v x xr → Name x ≠ Name r → CreatedAt x < CreatedAt r) →
  Name r ∈ (λ x, Name x.1) <$> recs ∧
  Name r ∈ (keep_newest retention recs 0).1 ++ keep_verified recs.
Proof.
  intros Hret (Hs & Hnd & Hin) Hr Hst Hnew. apply Hin in Hr as Hr'. split.
  { by apply (list_elem_of_fmap_2 (λ x : BackupRecord * Z, Name x.1)) in Hr'. }
  apply elem_of_app. left. apply keep_newest_first; [lia|].
  apply list_elem_of_split in Hr' as (pre & post & ->). exists pre, rev, post.
  split; [done|]. split; [done|]. destruct pre as [|[x xr] pre]; [constructor|]. exfalso.
  assert (recorded v x xr) as Hx by (apply Hin; set_solver).
  apply StronglySorted_inv in Hs as [_ Hs]. rewrite Forall_forall in Hs.
  specialize (Hs (r, rev)). simpl in Hs, Hnd. apply NoDup_cons in Hnd as [Hnd _].
  assert (Name x ≠ Name r) as Hne.
  { intros Hn. apply Hnd. rewrite Hn. change (Name r) with ((λ x : BackupRecord * Z, Name x.1) (r, rev)).
    apply list_elem_of_fmap_2. set_solver. }
  specialize (Hnew _ _ Hx Hne).
  assert (newest (x, xr) (r, rev)) as [?|[? _]] by (apply Hs; set_solver); simpl in *; lia.
Qed.

(** What [BackupOnce_store] leaves: the object and its record. *)
Lemma BackupOnce_store_spec c node bi (w w' : W) rec : stok w → records_ok (stv w) →
  1 ≤ BackupRetention (cfg c) →
  BackupOnce_store PathEscape sha256_hex c node bi w = (Ok rec, w') →
  stok w' ∧ info rec = bi ∧ br_Node rec = nc_Name node ∧ Status rec = BackupUploaded ∧
  stv w !! backup_key (Name rec) = None ∧
  ((∀ r rev, recorded (stv w) r rev → CreatedAt r < CreatedAt rec) →
   (∃ rev, recorded (stv w') rec rev) ∧
   ∃ data t, blv w' !! Name rec = Some (data, t) ∧ sha256_hex data = SHA256 rec).
Proof.
  intros Hok Hrec Hret H. unfold BackupOnce_store in H.
  apply bind_ok in H as (dl & w1 & Hd & H). apply annotate_ok, on_env_reads in Hd.
  destruct (decide (_ ∧ _)); [done|].
  apply bind_ok in H as ([] & w2 & Hp & H). apply annotate_ok, on_blobs_inv in Hp as (Hp & Hs & _).
  apply Put_law in Hp as [[t Hp]|[? _]]; [|done]. cbv zeta in H.
  destruct (decide (sha256_hex (dl_Body dl) ≠ bi_SHA256 bi)) as [|Hsha];
    [apply ignore_inv in H as (? & ? & _ & H); done|apply dec_stable in Hsha].
  apply bind_ok in H as (now & w3 & Hn & H). apply on_env_reads in Hn.
  apply bind_ok in H as (rev & w4 & Hc & H). apply annotate_ok, on_state_inv in Hc as (Hc & Hb & _).
  pose proof (proj1 Hd Hok) as Hok1.
  assert (stok w3) as Hok3 by (apply Hn; unfold stok; by rewrite Hs).
  apply Create_law in Hc as [Hok4 [Hnone Hc]]; [|done].
  assert (stv w3 = stv w) as Hv3.
  { destruct Hd as (_ & <- & _), Hn as (_ & -> & _). unfold stv. by rewrite Hs. }
  assert (blv w4 = <[bi_Name bi := (dl_Body dl, t)]> (blv w1)) as Hb4.
  { destruct Hn as (_ & _ & Hn). unfold blv in *. by rewrite Hb, Hn, Hp. }
  fold (stv w3) in Hnone, Hc. fold (stv w4) in Hc. rewrite Hv3 in Hnone, Hc.
  set (r := MkBackupRecord _ _ _ _ _ _ _) in *.
  apply ignore_inv in H as (u & w5 & Hpr & H). injection H as <- <-.
  change (backupPrefix +:+ bi_Name bi) with (backup_key (Name r)) in Hnone, Hc.
  assert (∀ x xr, Name x ≠ Name r → recorded (stv w4) x xr → recorded (stv w) x xr) as Hother.
  { intros x xr Hne (y & Hy & Hu). exists y. split; [|done]. rewrite Hc in Hy.
    rewrite lookup_insert_ne in Hy; [done|]. by intros ?%backup_key_inj. }
  assert (recorded (stv w4) r rev) as Hr4.
  { exists (marshal r). by rewrite Hc, lookup_insert_eq, unmarshal_marshal. }
  assert (records_ok (stv w4)) as Hrec4.
  { intros k x xr. rewrite Hc, lookup_insert_Some. intros [[<- [= <- <-]]|[_ Hx]]; [|by eapply Hrec].
    intros _. exists r. split; [apply unmarshal_marshal|]. split; [done|by left]. }
  split; [by apply (Prune_removes c []) in Hpr as (Hok5 & _); [apply Hok5|..| intros ? ? ? ?%elem_of_nil]|].
  split; [done|]. split; [done|]. split; [done|]. split; [done|]. intros Hnew.
  apply (Prune_removes c [Name r]) in Hpr as (_ & Hv5 & Hb5); [|done..|].
  2: { intros recs n1 Hl ->%list_elem_of_singleton. eapply newest_kept; [done..|].
       intros x xr Hx Hne. by eapply Hnew, Hother. }
  split.
  - exists rev. destruct Hr4 as (x & Hx & Hu). exists x. split; [|done].
    destruct (Hv5 (backup_key (Name r))) as [->|(_ & name & Hn'%backup_key_inj & Hin)]; [done|].
    set_solver.
  - exists (dl_Body dl), t. split; [|done].
    destruct (Hb5 (Name r)) as [->|[_ Hin]]; [|set_solver].
    rewrite Hb4. apply lookup_insert_eq.
Qed.

Lemma loadSchedule_same_view job (w w' : W) r :
  loadSchedule job w = (r, w') → same_view w w'.
Proof.
  intros H. unfold loadSchedule in H. apply try_inv in H as (x & w1 & Hg & H).
  apply on_state_inv in Hg as (_ & _ & Hg).
  destruct x as [sr|e]; [|destruct (errors_Is _ _)]; unfold throw, mret, M_ret in H; by simplify_eq.
Qed.

(** C24: a backup that [BackupOnce] reports was taken from the freshest replica that is
    up, never from the master, and recorded under a name that was not taken. If every
    record that was there was created before it (clocks that are not skewed), then after
    pruning its record is still there, and the stored object has the recorded checksum.
    *)
Theorem BackupOnce_sound c (w w' : W) rec :
  stok w → records_ok (stv w) → statuses_ok c (status w) → 1 ≤ BackupRetention (cfg c) →
  BackupOnce decode_backup PathEscape timeout_query sha256_hex true c w = (Ok rec, w') →
  (∃ s node, replica c w (Master (cluster w)) s ∧ nodes c !! ns_Name s = Some node ∧
     nc_Name node = br_Node rec ∧
     ∀ s', replica c w (Master (cluster w)) s' → LastApplied (Stream s') ≤ LastApplied (Stream s)) ∧
  Status rec = BackupUploaded ∧ stv w !! backup_key (Name rec) = None ∧
  ((∀ r rev, recorded (stv w) r rev → CreatedAt r < CreatedAt rec) →
   (∃ rev, recorded (stv w') rec rev) ∧
   ∃ data t, blv w' !! Name rec = Some (data, t) ∧ sha256_hex data = SHA256 rec).
Proof.
  intros Hok Hrec Hst Hret H. unfold BackupOnce in H. cbn [negb] in H.
  apply bind_ok in H as (started & w1 & Hn & H). pose proof (on_env_inv _ _ _ _ Hn) as (_ & _ & Hs1).
  apply on_env_reads in Hn.
  apply try_inv in H as (sr & w2 & Hl & H). pose proof (loadSchedule_same_view _ _ _ _ Hl) as Hs2.
  apply loadSchedule_reads in Hl; [|by apply Hn].
  assert (reads_only w w2) as Hro by by etrans.
  assert (status w2 = status w ∧ cluster w2 = cluster w) as [Hst2 Hcl2]
    by (unfold same_view in *; naive_solver congruence).
  clear Hn Hl Hs1 Hs2. cbv zeta in H. apply defer_inv in H as (w3 & u & H & Hf).
  apply bind_ok in H as (node & w4 & Hpick & H).
  apply pickBackupNode_spec in Hpick as [-> (s & Hs & Hnode & Hmax)]; [|by rewrite Hst2].
  apply bind_ok in H as (bi & w5 & Hc & H). apply annotate_ok, on_env_reads in Hc.
  apply defer_inv in H as (w6 & u' & H & Hdel). apply ignore_run in Hdel as [x Hdel].
  apply on_env_reads in Hdel.
  assert (reads_only w w5) as Hro5 by by etrans. pose proof Hro5 as (Hok5 & Hv5 & _).
  apply Hok5 in Hok. rewrite <- Hv5 in Hrec.
  apply BackupOnce_store_spec in H as (Hok6 & Hi & Hnd & Hstat & Hnone & Hkept); [|done..].
  assert (same_backups w6 w') as (_ & Hb & Hv).
  { trans w3; [by apply reads_same|].
    eapply finish_same; [|exact Hf]. by apply Hdel. }
  rewrite Hv5 in Hnone. split.
  - exists s, node. unfold replica, status_of in *. rewrite Hst2, Hcl2 in *. split; [exact Hs|]. split; [exact Hnode|]. split; [by symmetry|exact Hmax].
  - split; [done|]. split; [done|]. intros Hnew. rewrite <- Hv5 in Hnew.
    destruct (Hkept Hnew) as ((rev & Hr) & data & t & Hd & Hsha). split.
    + exists rev. destruct Hr as (y & Hy & Hu). exists y. by rewrite Hv.
    + exists data, t. by rewrite Hb.
Qed.
End backup.

(** ** Witnesses *)

Module BackupsDemo.
Inductive value := VBackup (r : BackupRecord) | VSchedule (s : Schedule).
#[export] Instance backup_json : JSON value BackupRecord := {|
  marshal := VBackup; unmarshal v := match v with VBackup r => Some r | _ => None end;
  unmarshal_marshal _ := eq_refl |}.
#[export] Instance schedule_json : JSON value Schedule := {|
  marshal := VSchedule; unmarshal v := match v with VSchedule s => Some s | _ => None end;
  unmarshal_marshal _ := eq_refl |}.

(** A blob store in memory. *)
#[local] Abbreviation blobs := (gmap string (string * Z)).
#[export] Instance blobs_store : BlobStore blobs := {|
  Put name data size b := (Ok (), <[name := (data, 0)]> b);
  GetBlob name b := (match b !! name with
                     | Some (data, _) => Ok (data, None)
                     | None => Err BlobErrNotFound
                     end, b);
  ListBlobs prefix b := (Ok ((λ nb, MkInfo nb.1 (Z.of_nat (String.length nb.2.1)) nb.2.2) <$>
                               map_to_list b), b);
  DeleteBlob name b := (Ok (), delete name b);
|}.
#[export] Instance blobs_laws : BlobLaws blobs.
Proof.
  refine {| objects b := b |}; simpl.
  - intros name data size b r b' [= <- <-]. eauto.
  - intros name b r b' [= <- <-]. split; [done|].
    destruct (b !! name) as [[data t]|] eqn:E; simpl; [|done]. exists t. done.
  - by intros prefix b r b' [= <- <-].
  - intros name b r b' [= <- <-]. eauto.
Defined.

(** Nodes that make and serve the backup ["n3"]; the clock stands still. *)
#[export] Instance env_clock : Clock Z := {| tick t := (t, t) |}.
#[export] Instance env_http : HTTP Z := {|
  http_Do method url auth := mret (MkResponse 200 (λ _, "") "data3") |}.
#[export] Instance env_jobs : Jobs Z := {|
  ctx_Err _ := None; CreateTemp := mret (); CloseTemp := mret (); Deep _ := mret () |}.

#[export] Existing Instance Mem.Mem_Store.
#[export] Existing Instance Mem.Mem_laws.

Lemma Update_foreign_mem key (v : value) rev m e m' :
  Mem.Update key v rev m = (Err e, m') → errors_Is e ErrBackupDamaged = false.
Proof.
  unfold Mem.Update, throw, mbind, M_bind, get_state.
  destruct (negb _); [by intros [= <- <-]|].
  destruct (Mem.entries m !! key) as [en|]; [|by intros [= <- <-]].
  destruct (_ =? _); [done|by intros [= <- <-]].
Qed.

#[export] Instance foreign : Foreign value (Mem.t value) blobs Z.
Proof.
  split; simpl; try done.
  - intros key m e m'. unfold Mem.Get. by destruct (_ !! _); intros [= <- <-].
  - apply Update_foreign_mem.
  - intros name b e b'. by destruct (b !! name) as [[]|]; intros [= <- <-].
  - intros name b d e b'. by destruct (b !! name) as [[]|].
Qed.

Definition record (name data : string) (created : Z) (s : BackupStatus) : BackupRecord :=
  MkBackupRecord (MkBackupInfo name 5 data created 7 ["logs"]) "b" created s None None "".
Definition b1 := record "n1" "data1" 10 BackupVerified.
Definition b2 := record "n2" "data2" 20 BackupUploaded.

Definition mem : Mem.t value :=
  Mem.Mk (<["backups/n1" := MkEntry "backups/n1" (VBackup b1) 1]>
           (<["backups/n2" := MkEntry "backups/n2" (VBackup b2) 2]> ∅)) 2.
Definition stored : blobs := <["n1" := ("data1", 0)]> (<["n2" := ("data2", 0)]> ∅).

Definition w0 : world (Mem.t value * (blobs * Z)) :=
  MkWorld (mem, (stored, 100)) (status ClusterDemo.w0) (MkCluster "a" 1 1 "initial") true.

Lemma w0_stok : stok w0.
Proof. intros k e. simpl. rewrite !lookup_insert_Some. naive_solver. Qed.

Lemma w0_stv : stv w0 = <["backups/n1" := (VBackup b1, 1)]>
                          (<["backups/n2" := (VBackup b2, 2)]> ∅).
Proof. by vm_compute. Qed.

Lemma w0_recorded r rev : recorded (stv w0) r rev → r = b1 ∧ rev = 1 ∨ r = b2 ∧ rev = 2.
Proof.
  intros (x & Hx & Hu). rewrite w0_stv, !lookup_insert_Some in Hx.
  destruct Hx as [[_ [= <- <-]]|[_ [[_ [= <- <-]]|[_ ?]]]]; simplify_eq/=; auto.
Qed.

Lemma w0_records : records_ok (stv w0).
Proof.
  intros k x rev. rewrite w0_stv, !lookup_insert_Some.
  intros [[<- [= <- <-]]|[_ [[<- [= <- <-]]|[_ ?]]]] _; [exists b1|exists b2|done];
    split_and!; auto.
Qed.

Lemma b1_recorded : recorded (stv w0) b1 1.
Proof. exists (VBackup b1). by rewrite w0_stv. Qed.

Lemma b1_latest : is_latest (stv w0) b1.
Proof.
  split; [exists 1; apply b1_recorded|left]. split; [done|].
  intros r rev [[-> _]|[-> _]]%w0_recorded; [intros _; apply newest_refl|done].
Qed.

Lemma LatestUsable_spec_witness :
  is_latest (stv w0) b1 ∧ Status b1 ≠ BackupBad.
Proof.
  destruct (LatestUsable w0) as [r w'] eqn:E.
  assert (r = Ok b1) as -> by (revert E; vm_compute; congruence).
  exact (proj2 (LatestUsable_spec w0 w' (Ok b1) w0_stok w0_records E)).
Defined.

(** Pruning to one backup deletes nothing that a recovery would use. *)
Lemma Prune_safe_witness : ∃ w', Prune ClusterDemo.coord w0 = (Ok (), w') ∧
  blv w' !! "n1" = Some ("data1", 0).
Proof.
  destruct (Prune ClusterDemo.coord w0) as [r w'] eqn:E.
  assert (r = Ok ()) as -> by (revert E; vm_compute; congruence).
  exists w'. split; [done|].
  destruct (Prune_safe ClusterDemo.coord w0 w' (Ok ()) b1) as [_ H];
    [by vm_compute|apply w0_stok|apply w0_records|exact E|apply b1_latest|].
  exact H.
Defined.

Lemma FetchBackup_sound_witness : ∃ t, blv w0 !! "n2" = Some ("data2", t).
Proof.
  destruct (FetchBackup id true "n2" w0) as [r w'] eqn:E.
  assert (r = Ok (Ok b2, "data2")) as -> by (revert E; vm_compute; congruence).
  destruct (FetchBackup_sound id "n2" w0 w' b2 "data2") as (_ & _ & H);
    [done|apply w0_stok|exact E|exact H].
Defined.

Lemma VerifyOnce_innocent_witness : ∃ w', VerifyOnce id true true w0 = (Ok (), w') ∧
  blv w' !! "n1" = Some ("data1", 0).
Proof.
  destruct (VerifyOnce id true true w0) as [r w'] eqn:E.
  assert (r = Ok ()) as -> by (revert E; vm_compute; congruence).
  exists w'. split; [done|].
  assert (∀ (s : Z) e s', Deep "data1" s = (Err e, s') → ExitError e = false) as Hdeep by done.
  assert (Name b1 ≠ "") as Hn by done.
  assert (Status b1 ≠ BackupBad) as Hs by done.
  assert (blv w0 !! Name b1 = Some ("data1", 0)) as Hb by (by vm_compute).
  exact (proj1 (VerifyOnce_innocent id b1 "data1" 0 eq_refl Hdeep Hn true 1 w0 w' (Ok ())
    w0_stok w0_records b1_recorded Hs Hb E)).
Defined.

Definition info3 : BackupInfo := MkBackupInfo "n3" 5 "data3" 30 7 ["logs"].

Lemma BackupOnce_sound_witness : ∃ rec (w' : world (Mem.t value * (blobs * Z))) data t,
  blv w' !! Name rec = Some (data, t) ∧ data = "data3".
Proof.
  destruct (BackupOnce (λ _, Some info3) id (λ _, "") id true ClusterDemo.coord w0) as [r w'] eqn:E.
  set (b3 := MkBackupRecord info3 "b" 100 BackupUploaded (Some 100) None "").
  assert (r = Ok b3) as -> by (revert E; vm_compute; congruence).
  assert (∀ r rev, recorded (stv w0) r rev → CreatedAt r < CreatedAt b3) as Hnew
    by (intros r rev [[-> _]|[-> _]]%w0_recorded; vm_compute; done).
  pose proof (BackupOnce_sound (λ _, Some info3) id (λ _, "") id ClusterDemo.coord w0 w' b3
    w0_stok w0_records ClusterDemo.w0_statuses ltac:(by vm_compute) E) as Hs.
  destruct Hs as (_ & _ & _ & Hs). destruct (Hs Hnew) as (_ & data & t & Hd & Hsha).
  exists b3, w', data, t. split; [exact Hd|exact Hsha].
Defined.
End BackupsDemo.
