(* ===== verification/Coordinator.v ===== *)
(** The coordinator as a whole (pkg/coordinator/coordinator.go): its configuration,
    the event loop [Run] that ties the node monitor, the lease, failover and the
    jobs together, and admission.

    An iteration of the [select] of [Run] is an event. A job runs in a goroutine of
    its own, one at a time ([jobMu]); [JobRuns] is its run. *)
From S2P Require Import Prelude Strings State Buffer Publisher Node Cluster Backups.
#[local] Open Scope Z_scope.

(** The state store, the blob store and the rest of the outside side by side. *)
Section outside.
Context {V ST BT ET : Type} `{!Store V ST, !StoreLaws V ST, !Clock ET, !HTTP ET}.

#[export] Instance clock3 : Clock (ST * (BT * ET)) :=
  {| tick := λ '(s, (b, t)), let '(n, t') := tick t in (n, (s, (b, t'))) |}.
#[export] Instance http3 : HTTP (ST * (BT * ET)) :=
  {| http_Do m u a := on_snd (on_snd (http_Do m u a)) |}.

#[export] Existing Instance Beside.store.
#[export] Existing Instance Beside.laws.

#[export] Instance outside3 : Outside V (ST * (BT * ET)).
Proof using All.
  split.
  - intros [s [b t]] Hok. simpl. by destruct (tick t).
  - intros ??? [s [b t]] r s' Hok H. simpl in H.
    destruct (http_Do _ _ _ t) as [x t']. by injection H as <- <-.
Qed.
End outside.

(** ** Configuration *)

Definition second : Z := 1000000000.
Definition minute : Z := 60 * second.
Definition hour : Z := 60 * minute.

(** [def]: the default when the value is zero. *)
Definition def (d v : Z) : Z := if d =? 0 then v else d.

Fixpoint check_nodes (seen : list string) (ns : list NodeConfig) : option error :=
  match ns with
  | [] => None
  | n :: ns =>
      if bool_decide (nc_Name n = "") || bool_decide (URL n = "")
      then Some (errors_New "coordinator: every node needs a name and a URL")
      else if negb (ValidKey (nc_Name n))
      then Some (errors_New ("coordinator: node name " +:+ nc_Name n +:+ " is not usable as a key"))
      else if bool_decide (nc_Name n ∈ seen)
      then Some (errors_New ("coordinator: node " +:+ nc_Name n +:+ " is configured twice"))
      else check_nodes (nc_Name n :: seen) ns
  end.

(** [default_ID] is the host name and process ID. *)
Definition defaults (default_ID : string) (c : Config) : res Config :=
  if bool_decide (Nodes c = []) then Err (errors_New "coordinator: no nodes configured")
  else match check_nodes [] (Nodes c) with
  | Some e => Err e
  | None => Ok (MkConfig
      (if bool_decide (cfg_ID c = "") then default_ID else cfg_ID c) (Nodes c)
      (def (PollInterval c) (2 * second)) (def (PollTimeout c) (3 * second))
      (def (FailThreshold c) 3) (def (MaxLag c) 1000)
      (def (PromoteCooldown c) minute) (def (LeaseTTL c) (15 * second))
      (def (BackupInterval c) hour) (def (BackupRetry c) (5 * minute))
      (def (BackupRetention c) 3) (def (OrphanGrace c) (24 * hour))
      (def (DrainTimeout c) (10 * minute)) (def (VerifyInterval c) (24 * hour)))
  end.

(** One round of the loop of [New]. *)
Definition add_node (a : gmap string NodeConfig * list string * gmap string NodeStatus)
    (n : NodeConfig) :=
  let '(nodes, order, status) := a in
  (<[nc_Name n := n]> nodes, order ++ [nc_Name n],
   <[nc_Name n := MkNodeStatus (nc_Name n) (URL n) NodeUnknown 0 time_zero
                    zero_StreamStatus ""]> status).

(** [New]: a coordinator that is given a state store, and its first state. *)
Definition New {S} (default_ID : string) (cfg : Config) (s : S) : res (Coordinator * world S) :=
  match defaults default_ID cfg with
  | Err e => Err e
  | Ok cfg =>
      let '(nodes, order, status) := foldl add_node (∅, [], ∅) (Nodes cfg) in
      Ok (MkCoordinator cfg nodes order, MkWorld s status zero_Cluster false)
  end.

(** ** Admission *)

Record Admission := MkAdmission { Allowed : bool; Reasons : list string }.

(** [health] is [c.pub.Health()], when there is a publisher. *)
Definition Admit {S} (health : option PublisherHealth) (c : Coordinator) : M (world S) Admission :=
  let reasons := match health with
    | None => []
    | Some h =>
        if negb (Connected h) then ["the replication stream is not connected"]
        else if Failing h then ["publishing to the replication stream fails"]
        else if Congested h then ["the local log buffer is filling up"]
        else []
    end in
  ss ← NodeStatuses c;
  let usable := existsb (λ s, bool_decide
    (ns_State s ∈ [NodeUp; NodeLagging; NodeDegraded; NodeSuspect])) ss in
  let reasons := if usable then reasons
                 else reasons ++ ["no ZincSearch node is available"] in
  mret (MkAdmission (bool_decide (length reasons = 0%nat)) reasons).
(** ** Leadership: [tryLease] *)

Section lease.
Context {V S : Type} `{!Store V S, !JSON V Lease.leaseRecord, !Clock S}.
#[local] Abbreviation W := (world S).

Definition lease (c : Coordinator) : Lease.t :=
  Lease.NewLease "leader" (cfg_ID (cfg c)) (LeaseTTL (cfg c)).

Definition IsLeader : M W bool := gets leader.
Definition set_leader (b : bool) : M W () := modify (λ w,
  MkWorld (outer w) (status w) (cluster w) b).

Definition tryLease (c : Coordinator) : M W () :=
  r ← try (out (Lease.Acquire (lease c)));
  set_leader (match r with Ok ok => ok | Err _ => false end).
End lease.

Section coordinator.
Context {V ST BT ET : Type} `{!Store V ST, !JSON V Cluster, !JSON V Promotion,
  !JSON V Schedule, !JSON V BackupRecord, !JSON V Lease.leaseRecord, !BlobStore BT,
  !Clock ET, !HTTP ET, !Jobs ET}.
Context (decode_healthz : string → option (option StreamStatus))
  (decode_backup : string → option BackupInfo) (PathEscape : string → string)
  (timeout_query : Z → string) (sha256_hex : string → string)
  (has_blobs has_verifier : bool).
#[local] Abbreviation S := (ST * (BT * ET))%type.
#[local] Abbreviation W := (world S).

(** *** Run *)

Inductive job := JobBackup | JobVerify.
Inductive event := LeaseTick | PollTick (finish : list string) | JobRuns.
#[local] Abbreviation R := (W * option job)%type.

(** [runJob]: nothing happens while another job runs. *)
Definition runJob (j : job) : M R () := modify (λ s,
  match s.2 with Some _ => s | None => (s.1, Some j) end).

Definition run_job (c : Coordinator) (j : job) : M W () :=
  match j with
  | JobBackup => ignore (BackupOnce decode_backup PathEscape timeout_query sha256_hex has_blobs c)
  | JobVerify => ignore (VerifyOnce sha256_hex has_blobs has_verifier)
  end.

Definition poll_tick (fuel : nat) (c : Coordinator) (finish : list string) : M R () :=
  on_fst (PollOnce decode_healthz c finish);;
  on_fst (refreshCluster (V := V) fuel c : M W ());;
  leads ← on_fst IsLeader;
  if leads : bool then
    ignore (on_fst (FailoverOnce (V := V) fuel c : M W string));;
    due ← on_fst (startDueJobs (V := V) has_blobs c : M W (bool * bool));
    let '(backup, verify) := (due : bool * bool) in
    (if backup then runJob JobBackup else mret ());;
    (if verify then runJob JobVerify else mret ())
  else mret ().

Definition handle (fuel : nat) (c : Coordinator) (e : event) : M R () :=
  match e with
  | LeaseTick => on_fst (tryLease (V := V) c : M W ())
  | PollTick finish => poll_tick fuel c finish
  | JobRuns =>
      s ← get_state;
      match (s : R).2 with
      | None => mret ()
      | Some j => on_fst (run_job c j);; modify (λ s : R, (s.1, None))
      end
  end.

Fixpoint handle_all (fuel : nat) (c : Coordinator) (es : list event) : M R () :=
  match es with
  | [] => mret ()
  | e :: es => handle fuel c e;; handle_all fuel c es
  end.

(** [Run] until the context ends, after the events [es]. *)
Definition Run (fuel : nat) (c : Coordinator) (finish : list string) (es : list event) : M R () :=
  on_fst (tryLease (V := V) c : M W ());;
  on_fst (PollOnce decode_healthz c finish);;
  on_fst (refreshCluster (V := V) fuel c : M W ());;
  handle_all fuel c es;;
  on_fst (ignore (out (Lease.Release (V := V) (lease c)) : M W ()));;
  on_fst (set_leader false).
End coordinator.

(** ** The configuration *)

Lemma check_nodes_spec ns seen : check_nodes seen ns = None ↔
  Forall (λ n, nc_Name n ≠ "" ∧ URL n ≠ "" ∧ ValidKey (nc_Name n) = true ∧ nc_Name n ∉ seen) ns ∧
  NoDup (nc_Name <$> ns).
Proof.
  revert seen. induction ns as [|n ns IH]; intros seen; cbn [check_nodes fmap list_fmap].
  { split; [|done]. intros _. split; constructor. }
  rewrite Forall_cons, NoDup_cons.
  destruct (bool_decide (nc_Name n = "") || bool_decide (URL n = "")) eqn:E.
  { split; [done|]. intros [[(? & ? & _) _] _]. apply orb_true_iff in E as [?|?]; prop_bool; done. }
  apply orb_false_iff in E as [E1 E2]. prop_bool.
  destruct (ValidKey (nc_Name n)) eqn:Hv; simpl; [|by split; [|intros [[(_ & _ & ? & _) _] _]]].
  case_bool_decide as Hs; [by split; [|intros [[(_ & _ & _ & ?) _] _]]|].
  rewrite IH. rewrite list_elem_of_fmap. rewrite !Forall_forall. split.
  - intros [Hall Hnd]. split_and!; try done.
    + intros x Hx. destruct (Hall x Hx) as (? & ? & ? & Hni). set_solver.
    + intros (x & Hn & Hx). destruct (Hall x Hx) as (_ & _ & _ & Hni). set_solver.
  - intros [[_ Hall] [Hn Hnd]]. split; [|done]. intros x Hx.
    destruct (Hall x Hx) as (? & ? & ? & Hni). split_and!; try done.
    rewrite not_elem_of_cons. split; [|done]. intros Heq. apply Hn. by exists x.
Qed.

Lemma def_nonzero d v : v ≠ 0 → def d v ≠ 0.
Proof. unfold def. intros. destruct (Z.eqb_spec d 0); lia. Qed.

Lemma def_idemp d v : v ≠ 0 → def (def d v) v = def d v.
Proof. intros H. unfold def at 1. by rewrite (proj2 (Z.eqb_neq _ _) (def_nonzero d v H)). Qed.

Lemma def_given d v : d ≠ 0 → def d v = d.
Proof. intros H. unfold def. by rewrite (proj2 (Z.eqb_neq _ _) H). Qed.

Lemma defaults_Ok id c c' : defaults id c = Ok c' → Nodes c ≠ [] ∧ check_nodes [] (Nodes c) = None ∧
  Nodes c' = Nodes c.
Proof.
  unfold defaults. case_bool_decide; [done|]. destruct (check_nodes _ _) eqn:E; [done|].
  by intros [= <-].
Qed.

(** [defaults_complete]: the configuration that [defaults] accepts has named,
    distinct nodes and no zero setting left, keeps every setting that was given, and
    is not changed by another round. *)
Theorem defaults_complete id c c' : id ≠ "" → defaults id c = Ok c' →
  Nodes c' = Nodes c ∧ Nodes c ≠ [] ∧ NoDup (nc_Name <$> Nodes c) ∧
  Forall (λ n, nc_Name n ≠ "" ∧ URL n ≠ "" ∧ ValidKey (nc_Name n) = true) (Nodes c) ∧
  cfg_ID c' ≠ "" ∧
  Forall (λ f : Config → Z, f c' ≠ 0 ∧ (f c ≠ 0 → f c' = f c))
    [PollInterval; PollTimeout; FailThreshold; MaxLag; PromoteCooldown; LeaseTTL; BackupInterval;
     BackupRetry; BackupRetention; OrphanGrace; DrainTimeout; VerifyInterval] ∧
  ∀ id', defaults id' c' = Ok c'.
Proof.
  intros Hid H. pose proof (defaults_Ok _ _ _ H) as (Hne & Hc & Hn).
  pose proof (proj1 (check_nodes_spec _ _) Hc) as [Hall Hnd].
  unfold defaults in H. rewrite bool_decide_false in H by done. rewrite Hc in H. simplify_eq/=.
  assert ((if bool_decide (cfg_ID c = "") then id else cfg_ID c) ≠ "") as HID
    by (by case_bool_decide).
  split_and!; try done.
  - eapply Forall_impl; [exact Hall|]. naive_solver.
  - repeat constructor; simpl; (apply def_nonzero || apply def_given); by vm_compute.
  - intros id'. unfold defaults. simpl. rewrite bool_decide_false by done. rewrite Hc.
    rewrite bool_decide_false by done. by rewrite !def_idemp by by vm_compute.
Qed.

(** [New] registers every node under its name. *)
Section new.
Context {S : Type}.
#[local] Abbreviation W := (world S).
#[local] Set Default Proof Using "Type".

Definition registered (a : gmap string NodeConfig * list string * gmap string NodeStatus) : Prop :=
  let '(nodes, order, status) := a in
  (∀ name node, nodes !! name = Some node → nc_Name node = name) ∧
  ∀ name, name ∈ order → is_Some (nodes !! name) ∧ ∃ s, status !! name = Some s ∧
    ns_Name s = name ∧ ns_State s = NodeUnknown ∧ LastApplied (Stream s) = 0.

Lemma add_node_registered a n : registered a → registered (add_node a n).
Proof.
  destruct a as [[nodes order] status]. intros [H1 H2]. split.
  - intros name node. rewrite lookup_insert_Some. intros [[<- <-]|[_ ?]]; [done|by apply H1].
  - intros name. rewrite elem_of_app, list_elem_of_singleton. intros Hn.
    destruct (decide (nc_Name n = name)) as [<-|Hne].
    + rewrite !lookup_insert_eq. split; [by eexists|]. by eexists.
    + rewrite !lookup_insert_ne by done. apply H2. destruct Hn; [done|congruence].
Qed.

Lemma foldl_registered ns a : registered a → registered (foldl add_node a ns).
Proof. revert a. induction ns as [|n ns IH]; intros a H; [done|]. by apply IH, add_node_registered. Qed.

Lemma foldl_order ns nodes order status :
  (foldl add_node (nodes, order, status) ns).1.2 = order ++ (nc_Name <$> ns).
Proof.
  revert nodes order status. induction ns as [|n ns IH]; intros; simpl; [by rewrite app_nil_r|].
  rewrite IH. by rewrite <- (assoc_L (++)).
Qed.

(** [New_ready]: the coordinator that [New] makes knows exactly the configured
    nodes, in their order, each under its name and with a status nobody has
    reported yet, and does not lead. *)
Theorem New_ready id cf s (c : Coordinator) (w : W) : New id cf s = Ok (c, w) →
  order c = nc_Name <$> Nodes cf ∧ order c ≠ [] ∧ NoDup (order c) ∧
  (∀ name node, nodes c !! name = Some node → nc_Name node = name) ∧
  statuses_ok c (status w) ∧
  (∀ name, name ∈ order c → ns_State (status_of name w) = NodeUnknown) ∧
  leader w = false ∧ outer w = s.
Proof.
  unfold New. destruct (defaults id cf) as [cf'|] eqn:Hd; [|done].
  apply defaults_Ok in Hd as (Hne & Hc & Hn). rewrite Hn.
  apply check_nodes_spec in Hc as [Hall Hnd].
  pose proof (foldl_order (Nodes cf) ∅ [] ∅) as Ho.
  assert (registered (foldl add_node (∅, [], ∅) (Nodes cf))) as Hr
    by (apply foldl_registered; split; [done|by intros ? ?%not_elem_of_nil]).
  destruct (foldl add_node _ _) as [[nodes0 order0] status0]. simpl in Ho. subst order0.
  intros [= <- <-]. destruct Hr as [H1 H2]. simpl. split_and!; try done.
  - by destruct (Nodes cf).
  - intros name Hin. destruct (H2 name Hin) as (Hs & st & Hst & Hname & _ & Hl).
    split; [|split; [done|exists st; split_and!; try done; simpl in *; lia]].
    apply list_elem_of_fmap in Hin as (n & -> & Hn'). rewrite Forall_forall in Hall.
    by apply Hall.
  - intros name Hin. destruct (H2 name Hin) as (_ & st & Hst & _ & Hu & _).
    unfold status_of. simpl. by rewrite Hst.
Qed.
End new.

(** [Admit_spec]: new builds are admitted exactly when the publisher, if there is
    one, is connected, not failing and not congested, and some node is up, lagging,
    degraded or suspect; otherwise a reason is given. *)
Theorem Admit_spec {S} health c (w w' : world S) a : Admit health c w = (Ok a, w') →
  w' = w ∧ (Allowed a = true ↔ Reasons a = []) ∧
  (Allowed a = true ↔
     (∀ h, health = Some h → Connected h = true ∧ Failing h = false ∧ Congested h = false) ∧
     ∃ name, name ∈ order c ∧
       ns_State (status_of name w) ∈ [NodeUp; NodeLagging; NodeDegraded; NodeSuspect]).
Proof.
  unfold Admit, NodeStatuses, gets, mbind, M_bind, mret, M_ret. intros [= <- <-]. simpl.
  split; [done|]. rewrite bool_decide_eq_true. split; [by rewrite length_zero_iff_nil|].
  rewrite length_zero_iff_nil.
  destruct (existsb _ _) eqn:He.
  - apply existsb_exists in He as (s & Hs & Hst). prop_bool.
    apply list_elem_of_In, list_elem_of_fmap in Hs as (name & -> & Hn).
    split; [|by intros [Hh _]; destruct health as [h|]; [destruct (Hh h eq_refl) as (-> & -> & ->)|]].
    intros Hr. split; [|by exists name]. intros h ->.
    destruct (Connected h), (Failing h), (Congested h); done.
  - split; [by destruct health as [h|]; [repeat case_match|]|]. intros [_ (name & Hn & Hs)]. exfalso.
    assert (existsb (λ s, bool_decide (ns_State s ∈ [NodeUp; NodeLagging; NodeDegraded; NodeSuspect]))
      ((λ name, status_of name w) <$> order c) = true) as Ht; [|congruence].
    apply existsb_exists. exists (status_of name w). split; [|by apply bool_decide_eq_true].
    apply list_elem_of_In. by apply (list_elem_of_fmap_2 (λ name, status_of name w)).
Qed.

(** ** What leading means *)

Section leads.
Context {V S : Type} `{!Store V S, !StoreLaws V S, !JSON V Lease.leaseRecord, !Clock S,
  !HTTP S, !Outside V S}.
#[local] Set Default Proof Using "All".
Import Lease.

Lemma now_view (s s' : S) r : store_ok s → now s = (r, s') →
  r = Ok (tick s).1 ∧ s' = (tick s).2 ∧ store_ok s' ∧ view s' = view s.
Proof.
  unfold now. intros Hok H. destruct (tick_view s Hok) as [H1 H2].
  destruct (tick s). by simplify_eq/=.
Qed.

(** The lease in the store: the record and its revision. *)
Definition held (l : t) (v : gmap string (V * Z)) (r : leaseRecord) (rev : Z) : Prop :=
  ∃ x, v !! key l = Some (x, rev) ∧ unmarshal x = Some r.

Definition takes (l : t) (t0 : Z) (v v' : gmap string (V * Z)) : Prop :=
  ∃ rev, v' = <[key l := (marshal (MkRecord (holder l) (t0 + ttl l)), rev)]> v.

(** Nobody else held the lease at [t1]. *)
Definition free (l : t) (t1 : Z) (v : gmap string (V * Z)) : Prop :=
  ∀ r rev, held l v r rev → Holder r = holder l ∨ Before t1 (Expires r) = false.

(** The two readings of the clock in [Acquire]: when it begins, and after it has read the
    record. *)
Definition time_begun (s : S) : Z := (tick s).1.
Definition time_checked (l : t) (s : S) : Z := (tick (GetJSON (A := leaseRecord) (key l) (tick s).2).2).1.

Lemma Acquire_update_spec l mine rev (s s' : S) r : store_ok s →
  (∃ old, view s !! key l = Some (old, rev)) →
  Acquire_update l mine rev s = (r, s') →
  store_ok s' ∧
  match r with
  | Ok ok => ok = true ∧ ∃ rev', view s' = <[key l := (marshal mine, rev')]> (view s)
  | Err _ => view s' = view s ∨ ∃ rev', view s' = <[key l := (marshal mine, rev')]> (view s)
  end.
Proof.
  intros Hok [old Hold] H. unfold Acquire_update in H.
  apply try_inv in H as (u & s1 & Hu & H). apply Update_law in Hu as [Hok1 Hu]; [|done].
  destruct u as [rv|e].
  - unfold mret, M_ret in H. simplify_eq. split; [done|]. split; [done|]. exists rv. apply Hu.
  - destruct Hu as (Hc & Hn & Hu).
    destruct (errors_Is e ErrConflict) eqn:E1.
    { destruct (Hc eq_refl) as (_ & old' & rv & Hl & Hne). congruence. }
    destruct (errors_Is e ErrNotFound) eqn:E2.
    { destruct (Hn eq_refl) as (_ & Hl). congruence. }
    simpl in H. unfold throw in H. simplify_eq. split; [done|].
    destruct Hu as [?|[_ ?]]; [by left|by right].
Qed.

(** [Acquire] without interference: it says no only when another instance holds
    an unexpired lease, and says yes only when it wrote its own record. *)
Lemma Acquire_spec l (s s' : S) r : store_ok s → Acquire l s = (r, s') →
  store_ok s' ∧
  match r with
  | Ok true => free l (time_checked l s) (view s) ∧ takes l (time_begun s) (view s) (view s')
  | Ok false => view s' = view s ∧ ∃ c rev, held l (view s) c rev ∧
      Holder c ≠ holder l ∧ Before (time_checked l s) (Expires c) = true
  | Err _ => view s' = view s ∨ takes l (time_begun s) (view s) (view s')
  end.
Proof.
  intros Hok H. unfold Acquire in H.
  apply bind_inv in H as [(e & Hn & ->)|(t0 & s1 & Hn & H)];
    apply now_view in Hn as (Ht0 & Hs1 & Hok1 & Hv1); try done.
  injection Ht0 as ->. cbv zeta in H. apply try_inv in H as (g & s2 & Hg & H).
  assert (time_checked l s = (tick s2).1) as Hchk by (unfold time_checked; by rewrite <- Hs1, Hg).
  fold (time_begun s) in H. set (t0 := time_begun s) in *. set (t1 := time_checked l s) in *.
  apply GetJSON_spec in Hg as (Hok2 & Hv2 & Hg); [|done]. rewrite Hv1 in Hv2, Hg.
  destruct g as [[current rev]|e].
  - destruct Hg as (x & Hx & Hu).
    assert (∀ s3, store_ok s3 → view s3 = view s →
      (Holder current = holder l ∨ Before t1 (Expires current) = false) →
      Acquire_update l (MkRecord (holder l) (t0 + ttl l)) rev s3 = (r, s') →
      store_ok s' ∧ match r with
      | Ok true => free l t1 (view s) ∧ takes l t0 (view s) (view s')
      | Ok false => view s' = view s ∧ ∃ c rev, held l (view s) c rev ∧
          Holder c ≠ holder l ∧ Before t1 (Expires c) = true
      | Err _ => view s' = view s ∨ takes l t0 (view s) (view s')
      end) as Hup.
    { intros s3 Hok3 Hv3 Hfree Ha.
      apply Acquire_update_spec in Ha as [Hok' Ha]; [|done|rewrite Hv3; eauto].
      rewrite Hv3 in Ha. split; [done|]. destruct r as [[]|e].
      - split; [|apply Ha]. intros c rv (y & Hy & Hc). congruence.
      - by destruct Ha.
      - destruct Ha as [?|?]; [by left|by right]. }
    case_decide as Hh; [|apply (Hup s2); try done; left; done].
    apply bind_inv in H as [(e & Hn & ->)|(t & s3 & Hn & H)];
      apply now_view in Hn as (Ht1 & _ & Hok3 & Hv3); try done.
    injection Ht1 as ->. rewrite <- Hchk in H.
    destruct (Before t1 (Expires current)) eqn:Hb.
    + unfold mret, M_ret in H. simplify_eq. split; [done|]. split; [congruence|].
      exists current, rev. split_and!; [by exists x|done|done].
    + apply (Hup s3); [done|congruence|by right|done].
  - destruct (errors_Is e ErrNotFound); [|unfold throw in H; simplify_eq; split; [done|by left]].
    specialize (Hg eq_refl). apply try_inv in H as (c & s3 & Hc & H).
    apply Create_law in Hc as [Hok3 Hc]; [|done]. rewrite Hv2 in Hc.
    destruct c as [rv|e'].
    + unfold mret, M_ret in H. simplify_eq. split; [done|].
      split; [|exists rv; apply Hc]. intros c rv' (y & Hy & _). congruence.
    + destruct Hc as [Hc1 Hc2]. destruct (errors_Is e' ErrConflict) eqn:E.
      { destruct (Hc1 eq_refl) as [_ [? ?]]. congruence. }
      unfold throw in H. simplify_eq. split; [done|].
      destruct Hc2 as [?|(_ & rv & ?)]; [by left|right]. by exists rv.
Qed.

(** C29: without interference (several instances: [lease_mutual_exclusion]): after
    [tryLease] the instance leads only when it wrote its own record, which expires a TTL
    after the first reading of the clock, while no other instance held a lease that was
    not expired at the second reading, the one after the record was read. When it does
    not lead, another instance held such a lease and nothing was written, or the store
    failed. *)
Theorem tryLease_leads c (w w' : world S) r : store_ok (outer w) → tryLease c w = (r, w') →
  r = Ok () ∧ status w' = status w ∧ cluster w' = cluster w ∧
  (leader w' = true → free (lease c) (time_checked (lease c) (outer w)) (contents w) ∧
     takes (lease c) (time_begun (outer w)) (contents w) (contents w')) ∧
  (leader w' = false →
     (contents w' = contents w ∧ ∃ cur rev, held (lease c) (contents w) cur rev ∧
        Holder cur ≠ cfg_ID (cfg c) ∧ Before (time_checked (lease c) (outer w)) (Expires cur) = true) ∨
     (∃ e, (Acquire (lease c) (outer w)).1 = Err e ∧
        (contents w' = contents w ∨ takes (lease c) (time_begun (outer w)) (contents w) (contents w')))).
Proof.
  intros Hok H. unfold tryLease in H. apply try_inv in H as (a & w1 & Ha & H).
  apply out_inv in Ha as (s1 & Ha & Hs1 & Hst & Hcl & _). pose proof Ha as Hrun.
  apply Acquire_spec in Ha as [Hok1 Ha]; [|done].
  unfold set_leader, modify in H. simplify_eq. unfold contents. simpl.
  split; [done|]. split; [done|]. split; [done|].
  split; destruct a as [[]|e]; try done; intros _; [by left|right].
  exists e. by rewrite Hrun.
Qed.
End leads.

(** ** The run of the coordinator *)

Section run.
Context {V ST BT ET : Type} `{!Store V ST, !JSON V Cluster, !JSON V Promotion,
  !JSON V Schedule, !JSON V BackupRecord, !JSON V Lease.leaseRecord, !BlobStore BT,
  !Clock ET, !HTTP ET, !Jobs ET}.
Context (decode_healthz : string → option (option StreamStatus))
  (decode_backup : string → option BackupInfo) (PathEscape : string → string)
  (timeout_query : Z → string) (sha256_hex : string → string)
  (has_blobs has_verifier : bool).
#[local] Set Default Proof Using "All".
#[local] Abbreviation S := (ST * (BT * ET))%type.
#[local] Abbreviation W := (world S).

#[local] Instance same_view_preorder : PreOrder (same_view (S := S)).
Proof using Type.
  split; [by intros w|]. intros w1 w2 w3 (? & ? & ?) (? & ? & ?).
  split_and!; congruence.
Qed.

Lemma on_state_keeps {A} (c : M ST A) : keeps same_view (on_state (BT := BT) (ET := ET) c).
Proof using Type. intros w r w' H. by eapply on_state_inv. Qed.
Lemma on_blobs_keeps {A} (c : M BT A) : keeps same_view (on_blobs (ST := ST) (ET := ET) c).
Proof using Type. intros w r w' H. by eapply on_blobs_inv. Qed.
Lemma on_env_keeps {A} (c : M ET A) : keeps same_view (on_env (ST := ST) (BT := BT) c).
Proof using Type. intros w r w' H. by eapply on_env_inv. Qed.
#[local] Hint Resolve on_state_keeps on_blobs_keeps on_env_keeps : keeps.

Lemma loadSchedule_keeps job : keeps same_view (loadSchedule job : M W _).
Proof using Type. unfold loadSchedule. solve_keeps. Qed.
#[local] Hint Resolve loadSchedule_keeps : keeps.

(** The loops and the operations of the jobs, bottom up. *)
Lemma saveSchedule_keeps n job s : keeps same_view (saveSchedule_loop n job s : M W _).
Proof using Type. induction n; cbn [saveSchedule_loop]; solve_keeps. Qed.
#[local] Hint Resolve saveSchedule_keeps : keeps.

Lemma finish_keeps {A} job s (r : res A) : keeps same_view (finish job s r : M W _).
Proof using Type. unfold finish, saveSchedule, Now. solve_keeps. Qed.

Lemma pickBackupNode_keeps c : keeps same_view (pickBackupNode c : M W _).
Proof using Type. unfold pickBackupNode, NodeStatuses. solve_keeps. Qed.

Lemma list_loop_keeps es : keeps same_view (list_loop es : M W _).
Proof using Type. induction es; cbn [list_loop]; solve_keeps. Qed.
#[local] Hint Resolve finish_keeps pickBackupNode_keeps list_loop_keeps : keeps.

Lemma listBackups_keeps : keeps same_view (listBackups : M W _).
Proof using Type. unfold listBackups. solve_keeps. Qed.
#[local] Hint Resolve listBackups_keeps : keeps.

Lemma prune_loop_keeps keep recs : keeps same_view (prune_loop keep recs : M W _).
Proof using Type. induction recs; cbn [prune_loop]; solve_keeps. Qed.

Lemma orphan_loop_keeps known may grace now infos :
  keeps same_view (orphan_loop known may grace now infos : M W _).
Proof using Type. induction infos; cbn [orphan_loop]; solve_keeps. Qed.
#[local] Hint Resolve prune_loop_keeps orphan_loop_keeps : keeps.

Lemma handleOrphans_keeps c recs may : keeps same_view (handleOrphans c recs may : M W _).
Proof using Type. unfold handleOrphans, Now. solve_keeps. Qed.
#[local] Hint Resolve handleOrphans_keeps : keeps.

Lemma Prune_keeps c : keeps same_view (Prune c : M W _).
Proof using Type. unfold Prune. solve_keeps. Qed.
#[local] Hint Resolve Prune_keeps : keeps.

Lemma BackupOnce_keeps c :
  keeps same_view (BackupOnce decode_backup PathEscape timeout_query sha256_hex has_blobs c : M W _).
Proof using Type. unfold BackupOnce, BackupOnce_store, Now. solve_keeps. Qed.

Lemma LatestUsable_keeps : keeps same_view (LatestUsable : M W _).
Proof using Type. unfold LatestUsable. solve_keeps. Qed.
#[local] Hint Resolve LatestUsable_keeps : keeps.

Lemma FetchBackup_keeps name : keeps same_view (FetchBackup sha256_hex has_blobs name : M W _).
Proof using Type. unfold FetchBackup. solve_keeps. Qed.
#[local] Hint Resolve FetchBackup_keeps : keeps.

Lemma saveRecord_keeps r rev : keeps same_view (saveRecord r rev : M W _).
Proof using Type. unfold saveRecord. solve_keeps. Qed.
#[local] Hint Resolve saveRecord_keeps : keeps.

Lemma markBad_keeps r rev why : keeps same_view (markBad r rev why : M W _).
Proof using Type. unfold markBad. solve_keeps. Qed.
#[local] Hint Resolve markBad_keeps : keeps.

Lemma verify_loop_keeps recs : keeps same_view (verify_loop sha256_hex recs : M W _).
Proof using Type.
  induction recs; cbn [verify_loop]; unfold checkStored, Now, ctxErr; solve_keeps.
Qed.

Lemma deep_loop_keeps recs : keeps same_view (deep_loop sha256_hex has_blobs recs : M W _).
Proof using Type.
  induction recs; cbn [deep_loop]; unfold deepVerify, Now, ctxErr; solve_keeps.
Qed.
#[local] Hint Resolve verify_loop_keeps deep_loop_keeps : keeps.

Lemma VerifyOnce_keeps :
  keeps same_view (VerifyOnce sha256_hex has_blobs has_verifier : M W _).
Proof using Type. unfold VerifyOnce, VerifyOnce_body, Now. solve_keeps. Qed.

Lemma startDueJobs_keeps c : keeps same_view (startDueJobs has_blobs c : M W _).
Proof using Type. unfold startDueJobs, due, Now. solve_keeps. Qed.
#[local] Hint Resolve BackupOnce_keeps VerifyOnce_keeps startDueJobs_keeps : keeps.

Lemma run_job_keeps c j : keeps same_view (run_job decode_backup PathEscape timeout_query sha256_hex
  has_blobs has_verifier c j : M W _).
Proof using Type. unfold run_job. solve_keeps. Qed.

(** *** The decision about the master leaves statuses and leadership alone *)

Definition same_status (w w' : W) : Prop := status w' = status w ∧ leader w' = leader w.

#[local] Instance same_status_preorder : PreOrder same_status.
Proof using Type.
  split; [by intros w|]. intros w1 w2 w3 (? & ?) (? & ?). split; congruence.
Qed.

Lemma out_keeps_status {A} (c : M S A) : keeps same_status (out c).
Proof using Type. intros w r w' (s' & _ & _ & H1 & _ & H3)%out_inv. by split. Qed.
Lemma set_cluster_keeps cl : keeps same_status (set_cluster cl).
Proof using Type. by intros w r w' [= <- <-]. Qed.
#[local] Hint Resolve out_keeps_status set_cluster_keeps : keeps.

Lemma loadCluster_keeps fuel c : keeps same_status (loadCluster (V := V) fuel c : M W _).
Proof using Type. induction fuel; cbn [loadCluster]; solve_keeps. Qed.
#[local] Hint Resolve loadCluster_keeps : keeps.

Lemma refreshCluster_keeps fuel c : keeps same_status (refreshCluster (V := V) fuel c : M W _).
Proof using Type. unfold refreshCluster. solve_keeps. Qed.

Lemma promote_keeps c cl rev to reason : keeps same_status (promote (V := V) c cl rev to reason : M W _).
Proof using Type. unfold promote, nodeStatus. solve_keeps. Qed.
#[local] Hint Resolve refreshCluster_keeps promote_keeps : keeps.

Lemma FailoverOnce_keeps fuel c : keeps same_status (FailoverOnce (V := V) fuel c : M W _).
Proof using Type. unfold FailoverOnce, nodeStatus, NodeStatuses. solve_keeps. Qed.

(** *** What holds between two events *)

Definition world_ok (c : Coordinator) (w : W) : Prop := statuses_ok c (status w).

(** The statuses that [/healthz] reports. *)
Definition reports_ok : Prop :=
  ∀ body s, decode_healthz body = Some (Some s) → 0 ≤ LastApplied s.

Lemma Health_reports n (s s' : S) st : reports_ok → Health decode_healthz n s = (Ok st, s') →
  0 ≤ LastApplied st.
Proof using Type.
  unfold Health. intros Hr H. apply bind_ok in H as (resp & s1 & _ & H).
  destruct (decode_healthz (Body resp)) as [[st'|]|] eqn:E; try done.
  unfold mret, M_ret in H. simplify_eq. by eapply Hr.
Qed.

Lemma poll_ok c name (w w' : W) r : reports_ok → name ∈ order c → world_ok c w →
  poll decode_healthz c name w = (r, w') → r = Ok () ∧ world_ok c w' ∧ leader w' = leader w.
Proof using Type.
  intros Hr Hn Hok H. unfold poll in H.
  apply bind_inv in H as [(e & Ha & _)|(answer & w1 & Ha & H)].
  { exfalso. destruct (nodes c !! name); [|done]. unfold try in Ha. by destruct (out _ w). }
  assert (same_status w w1 ∧ ∀ st t, answer = Ok (st, t) → 0 ≤ LastApplied st) as [[Hst Hl] Hans].
  { destruct (nodes c !! name) as [node|]; [|unfold mret, M_ret in Ha; by simplify_eq].
    split; [eapply (keeps_try same_status), Ha; apply out_keeps_status|].
    intros st t ->. unfold try in Ha. destruct (out _ w) as [a w1'] eqn:Ho. simplify_eq.
    apply out_inv in Ho as (s' & Ho & _). apply bind_ok in Ho as (st' & s1 & Hh & Ho).
    apply bind_ok in Ho as (t' & s2 & _ & Ho). unfold mret, M_ret in Ho. simplify_eq.
    by eapply Health_reports. }
  unfold nodeStatus, gets, set_status, modify, mbind, M_bind in H. simplify_eq/=.
  split; [done|]. split; [|done]. intros name' Hn'. destruct (Hok name' Hn') as (Hne & Hs & st & Hlk & Hname & Hla).
  split; [done|]. split; [done|]. cbn [status]. rewrite Hst.
  destruct (decide (name = name')) as [<-|Hd]; [|rewrite lookup_insert_ne by done; by exists st].
  rewrite lookup_insert_eq. eexists. split; [done|]. unfold status_of. rewrite Hst, Hlk.
  destruct answer as [[st' t]|e]; simpl; [|done]. split; [done|by eapply Hans].
Qed.

Lemma PollOnce_ok c finish : ∀ (w w' : W) r, reports_ok → Forall (.∈ order c) finish → world_ok c w →
  PollOnce decode_healthz c finish w = (r, w') → r = Ok () ∧ world_ok c w' ∧ leader w' = leader w.
Proof using Type.
  induction finish as [|name finish IH]; intros w w' r Hr Hf Hok H; cbn [PollOnce] in H.
  { unfold mret, M_ret in H. by simplify_eq. }
  apply Forall_cons in Hf as [Hn Hf].
  apply bind_inv in H as [(e & Hp & ->)|([] & w1 & Hp & H)];
    apply poll_ok in Hp as (? & Hok1 & Hl1); try done.
  apply IH in H as (? & ? & ?); try done. split_and!; [done..|congruence].
Qed.

Definition event_ok (c : Coordinator) (e : event) : Prop :=
  match e with PollTick finish => Forall (.∈ order c) finish | _ => True end.

(** Every part of the loop keeps [world_ok]. *)
Definition inv_W (c : Coordinator) (w w' : W) : Prop := world_ok c w → world_ok c w'.
Definition inv_R (c : Coordinator) (s s' : W * option job) : Prop := inv_W c s.1 s'.1.

#[local] Instance inv_W_preorder c : PreOrder (inv_W c).
Proof using Type. split; [by intros w ?|]. intros w1 w2 w3 H1 H2 H. by apply H2, H1. Qed.

#[local] Instance inv_R_preorder c : PreOrder (inv_R c).
Proof using Type. split; [by intros s ?|]. intros s1 s2 s3 H1 H2 H. by apply H2, H1. Qed.

Lemma inv_on_fst {A} c (m : M W A) : keeps (inv_W c) m → keeps (inv_R c) (on_fst m).
Proof using Type.
  intros Hm [w j] r [w' j'] H. unfold on_fst in H. destruct (m w) as [r' w1] eqn:E.
  simplify_eq. by apply Hm in E.
Qed.

Lemma inv_status {A} c (m : M W A) : keeps same_status m → keeps (inv_W c) m.
Proof using Type.
  intros Hm. eapply keeps_mono; [done|]. intros w w' [Hs _]. unfold inv_W, world_ok. by rewrite Hs.
Qed.

Lemma inv_view {A} c (m : M W A) : keeps same_view m → keeps (inv_W c) m.
Proof using Type.
  intros Hm. apply inv_status. eapply keeps_mono; [done|]. by intros w w' (? & _ & ?).
Qed.

Lemma tryLease_keeps c c' : keeps (inv_W c) (tryLease (V := V) c' : M W _).
Proof using Type.
  intros w r w' H. unfold tryLease in H. apply try_inv in H as (a & w1 & Ha & H).
  apply out_keeps_status in Ha as [Hs _]. unfold set_leader, modify in H. simplify_eq.
  unfold inv_W, world_ok. simpl. by rewrite Hs.
Qed.

Lemma set_leader_keeps c b : keeps (inv_W c) (set_leader b).
Proof using Type. by intros w r w' [= <- <-] H. Qed.

Lemma modify_job_keeps c f : (∀ s, (f s).1 = s.1) → keeps (inv_R c) (modify f).
Proof using Type. intros Hf s r s' [= <- <-]. unfold inv_R, inv_W. by rewrite Hf. Qed.

Lemma runJob_keeps c j : keeps (inv_R c) (runJob j).
Proof using Type. apply modify_job_keeps. intros [w []]; done. Qed.
Lemma clear_job_keeps c : keeps (inv_R c) (modify (λ s : W * option job, (s.1, None))).
Proof using Type. by apply modify_job_keeps. Qed.
#[local] Hint Resolve inv_on_fst tryLease_keeps set_leader_keeps runJob_keeps clear_job_keeps : keeps.

Lemma PollOnce_keeps c finish : reports_ok → Forall (.∈ order c) finish →
  keeps (inv_W c) (PollOnce decode_healthz c finish : M W _).
Proof using Type. intros Hr Hf w r w' H Hok. by eapply PollOnce_ok in H as (_ & ? & _). Qed.

Lemma refresh_inv fuel c : keeps (inv_W c) (refreshCluster (V := V) fuel c : M W _).
Proof using Type. apply inv_status, refreshCluster_keeps. Qed.
Lemma failover_inv fuel c : keeps (inv_W c) (FailoverOnce (V := V) fuel c : M W _).
Proof using Type. apply inv_status, FailoverOnce_keeps. Qed.
Lemma due_inv c : keeps (inv_W c) (startDueJobs has_blobs c : M W _).
Proof using Type. apply inv_view, startDueJobs_keeps. Qed.
Lemma job_inv c j : keeps (inv_W c) (run_job decode_backup PathEscape timeout_query sha256_hex
  has_blobs has_verifier c j : M W _).
Proof using Type. apply inv_view, run_job_keeps. Qed.
Lemma release_inv c : keeps (inv_W c) (ignore (out (Lease.Release (V := V) (lease c))) : M W _).
Proof using Type. apply inv_status, keeps_ignore, out_keeps_status. Qed.
#[local] Hint Resolve refresh_inv failover_inv due_inv job_inv release_inv : keeps.

#[local] Abbreviation handle_ := (handle (V := V) decode_healthz decode_backup PathEscape
  timeout_query sha256_hex has_blobs has_verifier).
#[local] Abbreviation Run_ := (Run (V := V) decode_healthz decode_backup PathEscape timeout_query
  sha256_hex has_blobs has_verifier).

Lemma handle_keeps fuel c e : reports_ok → event_ok c e → keeps (inv_R c) (handle_ fuel c e).
Proof using Type.
  intros Hr He. destruct e as [|finish|]; simpl.
  - auto with keeps.
  - pose proof (PollOnce_keeps c finish Hr He). unfold poll_tick, IsLeader. solve_keeps.
  - solve_keeps.
Qed.

Lemma tryLease_total c : total (tryLease (V := V) c : M W _).
Proof using Type. unfold tryLease, set_leader. solve_keeps. Qed.
Lemma refresh_total fuel c : total (refreshCluster (V := V) fuel c : M W _).
Proof using Type. unfold refreshCluster, set_cluster. solve_keeps. Qed.
Lemma poll_total c finish : total (PollOnce decode_healthz c finish : M W _).
Proof using Type. induction finish; cbn [PollOnce]; unfold poll, nodeStatus, set_status; solve_keeps. Qed.
Lemma due_total c : total (startDueJobs has_blobs c : M W _).
Proof using Type.
  assert (total (Now : M W Z)) as Hnow.
  { intros [[s [b t]] ? ? ?]. unfold Now, on_env, out, zoom, on_snd, now. simpl. by destruct (tick t). }
  unfold startDueJobs, due. solve_keeps.
Qed.
Lemma job_total c j : total (run_job decode_backup PathEscape timeout_query sha256_hex
  has_blobs has_verifier c j : M W _).
Proof using Type. unfold run_job. solve_keeps. Qed.
#[local] Hint Resolve tryLease_total refresh_total poll_total due_total job_total : keeps.

Lemma handle_total fuel c e : total (handle_ fuel c e).
Proof using Type. destruct e; simpl; unfold poll_tick, IsLeader, runJob; solve_keeps. Qed.
#[local] Hint Resolve handle_keeps handle_total : keeps.

Lemma handle_all_ok fuel c es : reports_ok → Forall (event_ok c) es →
  keeps (inv_R c) (handle_all (V := V) decode_healthz decode_backup PathEscape timeout_query
    sha256_hex has_blobs has_verifier fuel c es) ∧
  total (handle_all (V := V) decode_healthz decode_backup PathEscape timeout_query
    sha256_hex has_blobs has_verifier fuel c es).
Proof using Type.
  intros Hr. induction 1 as [|e es He Hes [IH1 IH2]]; cbn [handle_all]; split; solve_keeps.
Qed.

(** C33: whatever happens outside and in whichever order ticks and jobs
    come, [Run] returns nil when its context ends, the instance does not lead any
    more, and every configured node still has a status under its own name. *)
Theorem Run_stops fuel c finish es w j r w' j' : reports_ok → Forall (.∈ order c) finish →
  Forall (event_ok c) es → world_ok c w → Run_ fuel c finish es (w, j) = (r, (w', j')) →
  r = Ok () ∧ world_ok c w' ∧ leader w' = false.
Proof using Type.
  intros Hr Hf Hes Hok H. destruct (handle_all_ok fuel c es Hr Hes) as [Hk Ht].
  pose proof (PollOnce_keeps c finish Hr Hf) as Hp.
  assert (keeps (inv_R c) (Run_ fuel c finish es)) as Hrun by (unfold Run; solve_keeps).
  assert (total (Run_ fuel c finish es)) as Htot by (unfold Run, set_leader; solve_keeps).
  pose proof (total_run _ _ _ _ Htot H) as Hr'. destruct r as [[]|]; [|done].
  split; [done|]. split; [exact (Hrun _ _ _ H Hok)|]. clear Hrun Htot. unfold Run in H.
  apply bind_ok in H as (? & ? & _ & H). apply bind_ok in H as (? & ? & _ & H).
  apply bind_ok in H as (? & ? & _ & H). apply bind_ok in H as (? & ? & _ & H).
  apply bind_ok in H as (? & [w2 j2] & _ & H).
  unfold on_fst, set_leader, modify in H. by simplify_eq.
Qed.
End run.

(** ** Only the leader acts *)

Section follower.
Context {V ST BT ET : Type} `{!Store V ST, !StoreLaws V ST, !JSON V Cluster, !JSON V Promotion,
  !JSON V Schedule, !JSON V BackupRecord, !BlobStore BT, !BlobLaws BT, !Clock ET, !HTTP ET, !Jobs ET}.
Context (decode_healthz : string → option (option StreamStatus)) (has_blobs : bool).
#[local] Abbreviation S := (ST * (BT * ET))%type.
#[local] Abbreviation W := (world S).

(** Neither the records nor the objects nor the leadership change. *)
Definition watches (w w' : W) : Prop := leader w' = leader w ∧ (stok w → reads_only w w').

#[local] Instance watches_preorder : PreOrder watches.
Proof using Type.
  split; [by intros w; split|]. intros w1 w2 w3 [H1 H2] [H3 H4]. split; [congruence|].
  intros Hok. etrans; [by apply H2|]. by apply H4, H2.
Qed.

(** Reading the clock and asking a node touch the last component only. *)
Definition env_only (s s' : S) : Prop := s'.1 = s.1 ∧ s'.2.1 = s.2.1.

#[local] Instance env_only_preorder : PreOrder env_only.
Proof using Type. split; [by intros s|]. intros s1 s2 s3 [? ?] [? ?]. split; congruence. Qed.

Lemma now_env : keeps env_only (now : M S Z).
Proof using Type.
  intros [s [b t]] r s' H. unfold now in H. simpl in H. destruct (tick t). by simplify_eq.
Qed.
Lemma http_env m u a : keeps env_only (http_Do m u a : M S Response).
Proof using Type.
  intros [s [b t]] r s' H. simpl in H. destruct (http_Do m u a t). by simplify_eq.
Qed.
#[local] Hint Resolve now_env http_env : keeps.

Lemma Health_env n : keeps env_only (Health decode_healthz n : M S StreamStatus).
Proof using Type. unfold Health, do_. solve_keeps. Qed.
#[local] Hint Resolve Health_env : keeps.

Lemma out_watches {A} (c : M S A) : keeps env_only c → keeps watches (out c).
Proof using Type.
  intros Hc w r w' (s' & H & Hs & _ & _ & Hl)%out_inv. apply Hc in H as [H1 H2].
  split; [done|]. intros Hok. unfold reads_only, stok, stv, blv. by rewrite Hs, H1, H2.
Qed.

Lemma set_status_watches n s : keeps watches (set_status n s).
Proof using Type. by intros w r w' [= <- <-]. Qed.
#[local] Hint Resolve out_watches set_status_watches : keeps.

Lemma poll_watches c n : keeps watches (poll decode_healthz c n : M W _).
Proof using Type.
  unfold poll, nodeStatus.
  assert (∀ node, keeps env_only (stream ← Health decode_healthz node; t ← now; mret (stream, t) : M S _))
    by (intros; solve_keeps).
  solve_keeps.
Qed.
#[local] Hint Resolve poll_watches : keeps.

Lemma PollOnce_watches c finish : keeps watches (PollOnce decode_healthz c finish : M W _).
Proof using Type. induction finish; cbn [PollOnce]; solve_keeps. Qed.

(** What [refreshCluster] may write: the initial decision, when there is none. *)
Lemma refreshCluster_writes fuel c (w w' : W) r : stok w →
  refreshCluster (V := V) (Datatypes.S fuel) c w = (r, w') →
  leader w' = leader w ∧ (stv w' = stv w ∨
    stv w !! clusterKey = None ∧ ∃ x rev, stv w' = <[clusterKey := (x, rev)]> (stv w)).
Proof using All.
  intros Hok H. unfold refreshCluster in H. apply try_inv in H as (x & w1 & Hl & H).
  apply loadCluster_spec in Hl as (_ & (_ & _ & Hle) & Hl); [|done].
  assert (leader w' = leader w1 ∧ outer w' = outer w1) as [Hle' Ho].
  { destruct x as [[cl rev]|e]; unfold set_cluster, modify, mret, M_ret in H; by simplify_eq. }
  split; [congruence|]. unfold stv. rewrite Ho.
  change (view (outer w1).1) with (contents w1). change (view (outer w).1) with (contents w).
  destruct x as [[cl rev]|e]; [|destruct Hl as [?|(? & ?)]; [by left|by right]].
  destruct Hl as [[? _]|(? & ? & _)]; [by left|right]. eauto.
Qed.

(** C30: a tick of an instance that does not lead promotes nobody
    and starts no job: the state stays as it is, except that the initial decision is
    written when there was none. *)
Theorem follower_watches fuel c finish (w w' : W) j r j' : stok w → leader w = false →
  poll_tick (V := V) decode_healthz has_blobs (Datatypes.S fuel) c finish (w, j) = (r, (w', j')) →
  r = Ok () ∧ j' = j ∧ leader w' = false ∧
  (stv w' = stv w ∨
     stv w !! clusterKey = None ∧ ∃ x rev, stv w' = <[clusterKey := (x, rev)]> (stv w)).
Proof using All.
  intros Hok Hl H. unfold poll_tick, on_fst, mbind, M_bind in H.
  pose proof (PollOnce_watches c finish w) as Hp.
  pose proof (poll_total decode_healthz c finish w) as Ht.
  destruct (PollOnce decode_healthz c finish w) as [[[]|e] w1] eqn:E1; [|done].
  destruct (Hp _ _ eq_refl) as [Hl1 Hro]. specialize (Hro Hok).
  pose proof (refresh_total (Datatypes.S fuel) c w1) as Ht2.
  destruct (refreshCluster (Datatypes.S fuel) c w1) as [[[]|e] w2] eqn:E2; [|done].
  apply refreshCluster_writes in E2 as [Hl2 Hw]; [|by apply Hro].
  assert (leader w2 = false) as Hl3 by congruence.
  unfold IsLeader, gets in H. rewrite Hl3 in H. unfold mret, M_ret in H. simplify_eq.
  assert (stv w1 = stv w) as <- by apply Hro. by split_and!.
Qed.
End follower.

(** ** Witnesses *)

Module CoordinatorDemo.
Inductive value :=
| VBackup (r : BackupRecord) | VSchedule (s : Schedule) | VCluster (c : Cluster)
| VPromotion (p : Promotion) | VLease (l : Lease.leaseRecord).

#[export] Instance backup_json : JSON value BackupRecord := {|
  marshal := VBackup; unmarshal v := match v with VBackup r => Some r | _ => None end;
  unmarshal_marshal _ := eq_refl |}.
#[export] Instance schedule_json : JSON value Schedule := {|
  marshal := VSchedule; unmarshal v := match v with VSchedule s => Some s | _ => None end;
  unmarshal_marshal _ := eq_refl |}.
#[export] Instance cluster_json : JSON value Cluster := {|
  marshal := VCluster; unmarshal v := match v with VCluster c => Some c | _ => None end;
  unmarshal_marshal _ := eq_refl |}.
#[export] Instance promotion_json : JSON value Promotion := {|
  marshal := VPromotion; unmarshal v := match v with VPromotion p => Some p | _ => None end;
  unmarshal_marshal _ := eq_refl |}.
#[export] Instance lease_json : JSON value Lease.leaseRecord := {|
  marshal := VLease; unmarshal v := match v with VLease l => Some l | _ => None end;
  unmarshal_marshal _ := eq_refl |}.

(** A clock of one-second steps and nodes that answer every request. *)
#[export] Instance env_clock : Clock Z := {| tick t := (t, t + second) |}.
#[export] Instance env_http : HTTP Z := {|
  http_Do method url auth := mret (MkResponse 200 (λ _, "") "ok") |}.
#[export] Existing Instance Mem.Mem_Store.
#[export] Existing Instance Mem.Mem_laws.
#[export] Existing Instance BackupsDemo.blobs_store.
#[export] Existing Instance BackupsDemo.blobs_laws.
#[export] Existing Instance BackupsDemo.env_jobs.

#[local] Abbreviation outside := (Mem.t value * (gmap string (string * Z) * Z))%type.

Definition healthz (body : string) : option (option StreamStatus) :=
  Some (Some (MkStreamStatus true false false "logs" "b" 7 7 0 7 0 "" "")).

Definition given : Config :=
  MkConfig "" [MkNodeConfig "a" "http://a" "" ""; MkNodeConfig "b" "http://b" "" ""]
    0 0 0 0 0 0 (-1) 0 0 0 0 0.

Lemma defaults_complete_witness : ∃ c, defaults "host-1" given = Ok c ∧ BackupInterval c = -1 ∧
  BackupRetention c = 3 ∧ NoDup (nc_Name <$> Nodes c).
Proof.
  destruct (defaults "host-1" given) as [c|] eqn:E; [|by vm_compute in E]. exists c.
  assert ("host-1" ≠ "") as Hid by done.
  destruct (defaults_complete "host-1" given c Hid E) as (Hn & _ & Hnd & _).
  split; [done|]. rewrite Hn. split_and!; [| |exact Hnd]; by (vm_compute in E; injection E as <-).
Defined.

Definition start : outside := (Mem.NewMem, (∅, 1)).
Definition made : Coordinator * world outside :=
  match New "host-1" given start with
  | Ok cw => cw
  | Err _ => (MkCoordinator given ∅ [], MkWorld start ∅ zero_Cluster false)
  end.

Lemma made_New : New "host-1" given start = Ok made.
Proof. by vm_compute. Qed.

Lemma New_ready_witness : statuses_ok made.1 (status made.2) ∧ order made.1 = ["a"; "b"].
Proof.
  destruct made as [c w] eqn:E. pose proof made_New as H. rewrite E in H.
  destruct (New_ready "host-1" given start c w H) as (Ho & _ & _ & _ & Hst & _).
  split; [exact Hst|]. exact Ho.
Defined.

Lemma Admit_spec_witness : ∃ a w, Admit None made.1 made.2 = (Ok a, w) ∧
  (Allowed a = true ↔ Reasons a = []).
Proof.
  destruct (Admit None made.1 made.2) as [[a|] w] eqn:E; [|by vm_compute in E].
  exists a, w. split; [done|]. by destruct (Admit_spec None made.1 made.2 w a E) as (_ & H & _).
Defined.

Lemma start_ok : store_ok (outer made.2).
Proof. by intros k e. Qed.

(** The first instance gets the lease. *)
Lemma tryLease_leads_witness : ∃ w', tryLease (V := value) made.1 made.2 = (Ok (), w') ∧
  leader w' = true ∧ takes (lease made.1) (time_begun (outer made.2)) (contents made.2) (contents w').
Proof.
  destruct (tryLease (V := value) made.1 made.2) as [r w'] eqn:E.
  destruct (tryLease_leads made.1 made.2 w' r start_ok E) as (-> & _ & _ & Hlead & _).
  exists w'. assert (leader w' = true) as Hl by (by (vm_compute in E; injection E as <-)).
  split_and!; [done|done|]. by apply (Hlead Hl).
Defined.

(** A run in which the instance leads and verifies its backups. *)
Definition info3 : BackupInfo := MkBackupInfo "n3" 5 "ok" 30 7 ["logs"].
Lemma Run_stops_witness : ∃ w' j',
  Run (V := value) healthz (λ _, Some info3) id (λ _, "") id true true 3 made.1 ["a"; "b"]
    [PollTick ["b"; "a"]; JobRuns; LeaseTick] (made.2, None) = (Ok (), (w', j')) ∧
  leader w' = false ∧ is_Some (Mem.entries (outer w').1 !! "schedule/verify").
Proof.
  destruct (Run (V := value) healthz (λ _, Some info3) id (λ _, "") id true true 3 made.1 ["a"; "b"]
    [PollTick ["b"; "a"]; JobRuns; LeaseTick] (made.2, None)) as [r [w' j']] eqn:E.
  assert (reports_ok healthz) as Hr by (by intros ?? [= <-]).
  assert (order made.1 = ["a"; "b"]) as Ho by (by vm_compute).
  assert (world_ok made.1 made.2) as Hw.
  { destruct made as [c w] eqn:Em. pose proof made_New as H. rewrite Em in H.
    by destruct (New_ready "host-1" given start c w H) as (_ & _ & _ & _ & Hst & _). }
  assert (Forall (.∈ order made.1) ["a"; "b"]) as Hf by (rewrite Ho; repeat constructor; set_solver).
  assert (Forall (event_ok made.1) [PollTick ["b"; "a"]; JobRuns; LeaseTick]) as He
    by (repeat constructor; simpl; rewrite Ho; set_solver).
  destruct (Run_stops (V := value) healthz (λ _, Some info3) id (λ _, "") id true true 3 made.1
    ["a"; "b"] [PollTick ["b"; "a"]; JobRuns; LeaseTick] made.2 None r w' j' Hr Hf He Hw E)
    as (-> & _ & Hl).
  exists w', j'. split; [done|]. split; [exact Hl|].
  assert (w' = (Run (V := value) healthz (λ _, Some info3) id (λ _, "") id true true 3 made.1 ["a"; "b"]
    [PollTick ["b"; "a"]; JobRuns; LeaseTick] (made.2, None)).2.1) as -> by (by rewrite E).
  vm_compute. eexists. reflexivity.
Defined.

Lemma follower_watches_witness : ∃ w',
  poll_tick (V := value) healthz true 3 made.1 ["a"; "b"] (made.2, None) = (Ok (), (w', None)) ∧
  leader w' = false.
Proof.
  destruct (poll_tick (V := value) healthz true 3 made.1 ["a"; "b"] (made.2, None)) as [r [w' j']] eqn:E.
  assert (leader made.2 = false) as Hl by (by vm_compute).
  destruct (follower_watches (V := value) healthz true 2 made.1 ["a"; "b"] made.2 w' None r j'
    start_ok Hl E) as (-> & -> & H & _).
  by exists w'.
Defined.
End CoordinatorDemo.
