(* ===== verification/Api.v ===== *)
(** The HTTP interface of the coordinator (pkg/coordinator/api.go): who may ask for what,
    and what the answers are. Ingest holds the endpoints that publish; the others call the
    operations of the coordinator, over the same outside.

    A request names its endpoint, as the routes of the code do. *)
From S2P Require Import Prelude Strings State Wire Buffer Publisher Ingest Node Cluster Backups Coordinator.
#[local] Open Scope Z_scope.

Inductive endpoint :=
| Healthz | GetStatus | GetAdmit | GetMaster
| PostIngest (index : string) | PostAdmin (index op : string)
| GetBackups | PostBackups | GetBackup (name : string) | PostVerify | PostFailover.
#[export] Instance endpoint_eq_dec : EqDecision endpoint.
Proof. solve_decision. Defined.

Record api_request := MkRequest {
  target : endpoint; Authorization : string; IdempotencyKey : string; ContentType : string; rq_body : reader }.

(** The answer of [GET /v1/status]. *)
Record StatusReply := MkStatusReply {
  sr_ID : string; sr_Leader : bool; sr_Master : string; sr_Epoch : Z; sr_Nodes : list NodeStatus;
  sr_Publisher : option PublisherHealth; sr_Admission : Admission; sr_Backup : Schedule; sr_Verify : Schedule;
  sr_Backups : list BackupRecord }.

Inductive answer :=
| AReply (r : Reply)
| AHealth (leader : bool)
| AStatus (s : StatusReply)
| AAdmission (a : Admission)
| AMaster (name url : string) (epoch : Z)
| ABackups (recs : list BackupRecord)
| ARecord (rec : BackupRecord)
| AGood
| ADownload (sha256 : string) (size : Z) (sent : string)
| AFailover (master : string) (epoch : Z).

Definition answer_code (a : answer) : Z :=
  match a with
  | AReply r => code r
  | AAdmission a => if Allowed a then 200 else 503
  | _ => 200
  end.

(** [a.auth]: the header is the token, with or without the name of the scheme. *)
Definition authorized (cfg : APIConfig) (header : string) : bool :=
  bool_decide (Token cfg = "") || bool_decide (TrimPrefix header "Bearer " = Token cfg).
Definition leaderOnly (t : endpoint) : bool :=
  match t with PostBackups | PostVerify | PostFailover => true | _ => false end.

Section api.
Context {V ST BT ET B D N : Type} `{!Store V ST, !JSON V Cluster, !JSON V Promotion,
  !JSON V Schedule, !JSON V BackupRecord, !BlobStore BT, !Clock ET, !HTTP ET, !Jobs ET}
  `{!Bolt B D, !Clock N, !Publisher.Stream N}.
Context (decode_backup : string → option BackupInfo) (PathEscape : string → string)
  (timeout_query : Z → string) (sha256_hex : string → string) (has_blobs has_verifier : bool)
  (parse_json : string → option json) (Marshal : json → res string) (Format : Z → string)
  (decode_failover : reader → res string) (fuel : nat).
#[local] Abbreviation S := (ST * (BT * ET))%type.
#[local] Abbreviation W := (Cluster.world S).
(** The coordinator, the job that holds [jobMu], and the publisher. *)
#[local] Abbreviation R := (W * option job)%type.
#[local] Abbreviation A := (R * Publisher.world N D)%type.
Context (c : Coordinator) (pub : option Publisher).

Definition on_coord {X} (m : M W X) : M A X := on_fst (on_fst m).
Definition failA {X} (code : Z) (text : string) : M X answer := mret (AReply (fail code text)).

Definition pub_Health : M A (option PublisherHealth) :=
  match pub with None => mret None | Some p => h ← on_snd (Publisher.Health Format p); mret (Some h) end.

Definition coord_Status : M A StatusReply :=
  cl ← on_coord (gets cluster);
  leads ← on_coord IsLeader;
  ss ← on_coord (NodeStatuses c);
  h ← pub_Health;
  adm ← on_coord (Admit h c);
  h ← pub_Health;
  sched ← on_coord Schedules;
  recs ← (if has_blobs then on_coord (listBackups : M W (list (BackupRecord * Z))) else mret []);
  mret (MkStatusReply (cfg_ID (Cluster.cfg c)) leads (Master cl) (Epoch cl) ss h adm sched.1 sched.2 (fst <$> recs)).

Definition do_status : M A answer :=
  r ← try coord_Status;
  match r with Ok s => mret (AStatus s) | Err e => failA 500 (err_text e) end.

Definition do_admit : M A answer := h ← pub_Health; a ← on_coord (Admit h c); mret (AAdmission a).

Definition do_master : M A answer :=
  m ← on_coord (gets (Master_ c));
  match m with
  | None => failA 503 "the master is not known yet"
  | Some m => cl ← on_coord (gets cluster); mret (AMaster (nc_Name m) (URL m) (Epoch cl))
  end.

Definition do_backups : M A answer :=
  if negb has_blobs then failA 501 "this coordinator has no blob store"
  else
    r ← try (on_coord (listBackups : M W (list (BackupRecord * Z))));
    match r with Ok recs => mret (ABackups (fst <$> recs)) | Err e => failA 500 (err_text e) end.

Definition TryLock : M A bool := gets (λ s, bool_decide (s.1.2 = None)).
Definition do_create : M A answer :=
  free ← TryLock;
  if negb free then failA 409 "a backup or verification is already running"
  else
    r ← try (on_coord (BackupOnce decode_backup PathEscape timeout_query sha256_hex has_blobs c));
    match r with
    | Ok rec => mret (ARecord rec)
    | Err e => failA (if errors_Is e ErrNoBackupNode then 503 else 500) (err_text e)
    end.
Definition do_verify : M A answer :=
  free ← TryLock;
  if negb free then failA 409 "a backup or verification is already running"
  else
    r ← try (on_coord (VerifyOnce sha256_hex has_blobs has_verifier));
    match r with Ok _ => mret AGood | Err e => failA 500 (err_text e) end.

Definition do_download (name : string) : M A answer :=
  if negb has_blobs then failA 501 "this coordinator has no blob store"
  else
    r ← try (on_coord (on_state (GetJSON (A := BackupRecord) (backupPrefix +:+ name)) : M W (BackupRecord * Z)));
    match r with
    | Err e => failA (if errors_Is e ErrNotFound then 404 else 500) (err_text e)
    | Ok (rec, _) =>
        b ← try (on_coord (on_blobs (GetBlob name) : M W (string * option error)));
        match b with
        | Err e => failA (if errors_Is e BlobErrNotFound then 404 else 500) (err_text e)
        | Ok (sent, _) => mret (ADownload (bi_SHA256 (info rec)) (bi_Size (info rec)) sent)
        end
    end.

Definition do_failover (body : reader) : M A answer :=
  match decode_failover (MaxBytesReader body (Z.shiftl 4 10)) with
  | Err _ | Ok "" => failA 400 "body must be an object with the name of a node"
  | Ok to =>
      r ← try (on_coord (Promote fuel c to));
      match r with
      | Err e => failA 409 (err_text e)
      | Ok _ =>
          m ← on_coord (gets (Master_ c));
          cl ← on_coord (gets cluster);
          mret (AFailover (from_option nc_Name "" m) (Epoch cl))
      end
  end.

Definition reply_of (m : M (Publisher.world N D) Reply) : M A answer := r ← on_snd m; mret (AReply r).

(** The handler of an endpoint, without its guards. *)
Definition handle_request (cfg : APIConfig) (r : api_request) : M A answer :=
  match target r with
  | Healthz => leads ← on_coord IsLeader; mret (AHealth leads)
  | GetStatus => do_status
  | GetAdmit => do_admit
  | GetMaster => do_master
  | PostIngest index => reply_of (ingest parse_json Marshal cfg pub index (IdempotencyKey r) (ContentType r) (rq_body r))
  | PostAdmin index op => reply_of (admin parse_json Marshal cfg pub index op (rq_body r))
  | GetBackups => do_backups
  | PostBackups => do_create
  | GetBackup name => do_download name
  | PostVerify => do_verify
  | PostFailover => do_failover (rq_body r)
  end.

Definition serve (cfg : APIConfig) (r : api_request) : M A answer :=
  match target r with
  | Healthz => handle_request cfg r
  | t =>
      if negb (authorized cfg (Authorization r)) then failA 401 "missing or wrong token"
      else
        leads ← on_coord IsLeader;
        if leaderOnly t && negb leads then failA 409 "this coordinator instance is not the leader; ask the leader"
        else handle_request cfg r
  end.

(** The API with the defaults of its configuration. *)
Definition Handler (cfg : APIConfig) (r : api_request) : M A answer := serve (APIConfig_defaults cfg) r.
End api.

(** ** Guards *)

Section guards.
Context {V ST BT ET B D N : Type} `{!Store V ST, !JSON V Cluster, !JSON V Promotion,
  !JSON V Schedule, !JSON V BackupRecord, !BlobStore BT, !Clock ET, !HTTP ET, !Jobs ET}
  `{!Bolt B D, !Clock N, !Publisher.Stream N}.
Context (decode_backup : string → option BackupInfo) (PathEscape : string → string)
  (timeout_query : Z → string) (sha256_hex : string → string) (has_blobs has_verifier : bool)
  (parse_json : string → option json) (Marshal : json → res string) (Format : Z → string)
  (decode_failover : reader → res string) (fuel : nat).
#[local] Set Default Proof Using "Type".
#[local] Abbreviation S := (ST * (BT * ET))%type.
#[local] Abbreviation W := (Cluster.world S).
#[local] Abbreviation A := (W * option job * Publisher.world N D)%type.
#[local] Abbreviation serve := (serve decode_backup PathEscape timeout_query sha256_hex has_blobs has_verifier
  parse_json Marshal Format decode_failover fuel).
#[local] Abbreviation Handler := (Handler decode_backup PathEscape timeout_query sha256_hex has_blobs has_verifier
  parse_json Marshal Format decode_failover fuel).

Lemma unauthorized cfg header : Token cfg ≠ "" → header ≠ Token cfg → header ≠ "Bearer " +:+ Token cfg →
  authorized cfg header = false.
Proof.
  intros Ht H1 H2. unfold authorized. rewrite (bool_decide_eq_false_2 (Token cfg = "")) by done. simpl.
  apply bool_decide_eq_false_2. by intros [->| ->]%TrimPrefix_inv.
Qed.

Lemma IsLeader_run (s : A) : on_coord (IsLeader : M W bool) s = (Ok (leader s.1.1), s).
Proof. by destruct s as [[w j] q]. Qed.

Lemma serve_inv cfg c pub r (s : A) x s' : serve c pub cfg r s = (x, s') →
  (target r = Healthz) ∨
  (authorized cfg (Authorization r) = false ∧ answer_code <$> x = Ok 401 ∧ s' = s) ∨
  (authorized cfg (Authorization r) = true ∧ leaderOnly (target r) = true ∧ leader s.1.1 = false ∧
     answer_code <$> x = Ok 409 ∧ s' = s) ∨
  (authorized cfg (Authorization r) = true ∧ (leaderOnly (target r) = true → leader s.1.1 = true) ∧
     handle_request decode_backup PathEscape timeout_query sha256_hex has_blobs has_verifier parse_json Marshal
       Format decode_failover fuel c pub cfg r s = (x, s')).
Proof.
  unfold Api.serve. intros Hr. destruct (decide (target r = Healthz)) as [|Ht]; [by left|right].
  assert ((if negb (authorized cfg (Authorization r)) then failA 401 "missing or wrong token"
      else
        leads ← on_coord IsLeader;
        if leaderOnly (target r) && negb leads then failA 409 "this coordinator instance is not the leader; ask the leader"
        else handle_request decode_backup PathEscape timeout_query sha256_hex has_blobs has_verifier parse_json Marshal
               Format decode_failover fuel c pub cfg r) s = (x, s')) as Hr' by (revert Hr Ht; destruct (target r); intros; done).
  clear Hr. destruct (authorized cfg (Authorization r)); simpl in Hr'; [right|left; by injection Hr' as <- <-].
  unfold mbind, M_bind in Hr'. rewrite IsLeader_run in Hr'.
  destruct (leaderOnly (target r)) eqn:El; simpl in Hr'; [|right; by split_and!].
  destruct (leader s.1.1) eqn:E; simpl in Hr'; [right; by split_and!|left; by injection Hr' as <- <-].
Qed.

(** C15: with a token set, a request without it is answered 401 and changes
    nothing, whatever it asks for, health apart; an instance that does not lead takes no
    backup, verifies none and promotes nobody; and neither job starts while one runs. *)
Theorem api_guarded cfg c pub r (s : A) x s' : Handler c pub cfg r s = (x, s') → target r ≠ Healthz →
  (Token cfg ≠ "" → Authorization r ≠ Token cfg → Authorization r ≠ "Bearer " +:+ Token cfg →
     answer_code <$> x = Ok 401 ∧ s' = s) ∧
  (leaderOnly (target r) = true → leader s.1.1 = false → (answer_code <$> x = Ok 401 ∨ answer_code <$> x = Ok 409) ∧ s' = s) ∧
  (target r = PostBackups ∨ target r = PostVerify → s.1.2 ≠ None →
     (answer_code <$> x = Ok 401 ∨ answer_code <$> x = Ok 409) ∧ s' = s).
Proof.
  intros Hr Ht. unfold Api.Handler in Hr. apply serve_inv in Hr as [Hz|[(Ha & Hx & ->)|[(Ha & Hl & Hf & Hx & ->)|(Ha & Hl & Hr)]]]; [done| | |].
  - split_and!; auto.
  - split_and!; [|auto..]. intros H1 H2 H3. by rewrite (unauthorized (APIConfig_defaults cfg) _ H1 H2 H3) in Ha.
  - split_and!.
    + intros H1 H2 H3. by rewrite (unauthorized (APIConfig_defaults cfg) _ H1 H2 H3) in Ha.
    + intros H1 H2. by rewrite (Hl H1) in H2.
    + intros Hj Hn. unfold handle_request in Hr.
      assert (TryLock s = (Ok false, s)) as Hlock.
      { unfold TryLock, gets. by rewrite bool_decide_eq_false_2. }
      destruct Hj as [E|E]; rewrite E in Hr; unfold do_create, do_verify, mbind, M_bind in Hr; rewrite Hlock in Hr;
        injection Hr as <- <-; auto.
Qed.
End guards.

(** ** Reading *)

Section reads.
Context {V ST BT ET B D N : Type} `{!Store V ST, !StoreLaws V ST, !JSON V Cluster, !JSON V Promotion,
  !JSON V Schedule, !JSON V BackupRecord, !BlobStore BT, !BlobLaws BT, !Clock ET, !HTTP ET, !Jobs ET}
  `{!Bolt B D, !Clock N, !Publisher.Stream N}.
Context (decode_backup : string → option BackupInfo) (PathEscape : string → string)
  (timeout_query : Z → string) (sha256_hex : string → string) (has_blobs has_verifier : bool)
  (parse_json : string → option json) (Marshal : json → res string) (Format : Z → string)
  (decode_failover : reader → res string) (fuel : nat).
#[local] Set Default Proof Using "Type".
#[local] Abbreviation S := (ST * (BT * ET))%type.
#[local] Abbreviation W := (Cluster.world S).
#[local] Abbreviation A := (W * option job * Publisher.world N D)%type.

(** What a step may not touch: what the coordinator knows, the job, the records and the
    objects, the stream and the buffer. *)
Definition reading (w w' : W) : Prop :=
  stok w → stok w' ∧ same_view w w' ∧ stv w' = stv w ∧ blv w' = blv w.
Definition undisturbed (s s' : A) : Prop :=
  stok s.1.1 → stok s'.1.1 ∧ same_view s.1.1 s'.1.1 ∧ stv s'.1.1 = stv s.1.1 ∧ blv s'.1.1 = blv s.1.1 ∧
  s'.1.2 = s.1.2 ∧ net s'.2 = net s.2 ∧ stored (file s'.2) = stored (file s.2).
#[local] Instance reading_preorder : PreOrder reading.
Proof.
  split; [by intros w Hok|]. intros a b d Hab Hbd Ha. destruct (Hab Ha) as (Hb & (? & ? & ?) & ? & ?).
  destruct (Hbd Hb) as (Hd & (? & ? & ?) & ? & ?). unfold same_view. split_and!; congruence.
Qed.
#[local] Instance undisturbed_preorder : PreOrder undisturbed.
Proof.
  split; [by intros w Hok|]. intros a b d Hab Hbd Ha. destruct (Hab Ha) as (Hb & (? & ? & ?) & ? & ? & ? & ? & ?).
  destruct (Hbd Hb) as (Hd & (? & ? & ?) & ? & ? & ? & ? & ?). unfold same_view. split_and!; congruence.
Qed.

Lemma on_coord_undisturbed {X} (m : M W X) : keeps reading m → keeps undisturbed (on_coord (N := N) (D := D) m).
Proof.
  intros Hm [[w j] q] x s' Hr Hok. unfold on_coord, on_fst in Hr. destruct (m w) as [y w'] eqn:E. injection Hr as <- <-.
  destruct (Hm _ _ _ E Hok) as (? & ? & ? & ?). by split_and!.
Qed.
Lemma on_state_reading {X} (m : M ST X) :
  (∀ s x s', store_ok s → m s = (x, s') → store_ok s' ∧ view s' = view s) → keeps reading (on_state m : M W X).
Proof.
  intros Hm w x w' Hr Hok. pose proof (on_state_reads m w w' x Hr Hok Hm) as (H1 & H2 & H3).
  apply on_state_inv in Hr as (_ & _ & Hv). by split_and!; [apply H1| | |].
Qed.
Lemma GetJSON_reading {X} `{!JSON V X} key : keeps reading (on_state (GetJSON (A := X) key) : M W (X * Z)).
Proof. apply on_state_reading. intros s x s' Hok Hr. by apply GetJSON_spec in Hr as (? & ? & _). Qed.
Lemma ListPrefix_reading key : keeps reading (on_state (ListPrefix key) : M W (list (State.Entry V))).
Proof. apply on_state_reading. intros s x s' Hok Hr. by apply List_law in Hr as (? & ? & _). Qed.
Lemma GetBlob_reading name : keeps reading (on_blobs (GetBlob name) : M W (string * option error)).
Proof.
  intros w x w' Hr Hok. pose proof (on_blobs_reads (V := V) _ _ _ _ Hr) as Hb.
  destruct Hb as (H1 & H2 & H3); [intros b y b' Hy; by apply GetBlob_law in Hy as [? _]|].
  apply on_blobs_inv in Hr as (_ & _ & Hv). by split_and!; [apply H1| | |].
Qed.
#[local] Hint Resolve GetJSON_reading ListPrefix_reading GetBlob_reading on_coord_undisturbed : keeps.

Lemma listBackups_reading : keeps reading (listBackups : M W (list (BackupRecord * Z))).
Proof.
  assert (∀ es, keeps reading (list_loop es : M W _)) as Hl by (induction es; cbn [list_loop]; solve_keeps).
  unfold listBackups. solve_keeps.
Qed.
Lemma Schedules_reading : keeps reading (Schedules : M W (Schedule * Schedule)).
Proof. unfold Schedules, loadSchedule. solve_keeps. Qed.
Lemma NodeStatuses_reading c : keeps reading (NodeStatuses c : M W (list NodeStatus)).
Proof. unfold NodeStatuses. solve_keeps. Qed.
#[local] Hint Resolve listBackups_reading Schedules_reading NodeStatuses_reading : keeps.
Lemma Admit_reading h c : keeps reading (Admit h c : M W Admission).
Proof. unfold Admit. solve_keeps. Qed.
Lemma IsLeader_reading : keeps reading (IsLeader : M W bool).
Proof. unfold IsLeader. solve_keeps. Qed.
#[local] Hint Resolve Admit_reading IsLeader_reading : keeps.

Lemma pub_Health_undisturbed pub : keeps undisturbed (pub_Health (ST := ST) (BT := BT) (ET := ET) Format pub).
Proof.
  unfold pub_Health. destruct pub as [p|]; [|solve_keeps]. apply keeps_bind; [apply _| |solve_keeps].
  intros [[w j] q] x s' Hr Hok. unfold on_snd in Hr. destruct (Publisher.Health Format p q) as [y q'] eqn:E. injection Hr as <- <-.
  assert (net q' = net q ∧ stored (file q') = stored (file q)) as [H1 H2]; [|by split_and!].
  unfold Publisher.Health, on_file, zoom, mbind, M_bind, get_state, mret, M_ret in E.
  unfold Stats_, try, mbind, M_bind, mret, M_ret in E. destruct (db_View (file q)) as [v d] eqn:Ev.
  apply db_View_law in Ev as [Hd _]. destruct v; injection E as _ <-; done.
Qed.
#[local] Hint Resolve pub_Health_undisturbed : keeps.

Lemma pub_Health_total pub : total (pub_Health (ST := ST) (BT := BT) (ET := ET) Format pub).
Proof.
  unfold pub_Health. destruct pub as [p|]; [|by intros s]. apply total_bind; [|by intros h s].
  intros [[w j] q]. unfold on_snd, Publisher.Health, on_file, zoom, mbind, M_bind, get_state, mret, M_ret.
  unfold Stats_, try, mbind, M_bind, mret, M_ret. by destruct (db_View (file q)) as [[v|e] d].
Qed.
Lemma Admit_total h c : total (Admit h c : M W Admission).
Proof. unfold Admit, NodeStatuses. solve_keeps. Qed.
Lemma IsLeader_total : total (IsLeader : M W bool).
Proof. by intros w. Qed.
#[local] Hint Resolve pub_Health_total Admit_total IsLeader_total : keeps.

Definition is_get (t : endpoint) : bool :=
  match t with PostIngest _ | PostAdmin _ _ | PostBackups | PostVerify | PostFailover => false | _ => true end.

(** C31: a GET changes nothing: neither what the coordinator knows nor its leadership,
    no record and no object, neither the stream nor the buffer; and it is always answered. *)
Theorem api_reads cfg c pub r (s : A) x s' : is_get (target r) = true → stok s.1.1 →
  Handler decode_backup PathEscape timeout_query sha256_hex has_blobs has_verifier parse_json Marshal Format
    decode_failover fuel c pub cfg r s = (x, s') → is_ok x = true ∧ undisturbed s s'.
Proof.
  intros Hg Hok Hr. unfold Handler in Hr. set (cfg' := APIConfig_defaults cfg) in Hr. clearbody cfg'. clear cfg. rename cfg' into cfg.
  assert (∀ m : M A answer, keeps undisturbed m → total m → m s = (x, s') → is_ok x = true ∧ undisturbed s s') as Hm.
  { intros m Hk Ht Hrun. split; [by eapply total_run|by eapply Hk]. }
  assert (∀ t, is_get t = true → keeps undisturbed (handle_request decode_backup PathEscape timeout_query sha256_hex has_blobs
    has_verifier parse_json Marshal Format decode_failover fuel c pub cfg (MkRequest t (Authorization r) (IdempotencyKey r) (ContentType r) (rq_body r)))) as Hk.
  { intros [] Ht; try done; unfold handle_request, do_status, coord_Status, do_admit, do_master, do_backups, do_download, failA; cbn [target];
      solve_keeps. }
  assert (∀ t, is_get t = true → total (handle_request decode_backup PathEscape timeout_query sha256_hex has_blobs
    has_verifier parse_json Marshal Format decode_failover fuel c pub cfg (MkRequest t (Authorization r) (IdempotencyKey r) (ContentType r) (rq_body r)))) as Ht.
  { intros [] Ht; try done; unfold handle_request, do_status, coord_Status, do_admit, do_master, do_backups, do_download, failA, on_coord; cbn [target];
      solve_keeps. }
  specialize (Hk (target r) Hg). specialize (Ht (target r) Hg). destruct r as [t a k ct b]. simpl in *.
  unfold serve in Hr. cbn [target] in Hr. eapply Hm; [..|exact Hr]; destruct t; try done; try exact Hk; try exact Ht; first [solve [unfold failA; solve_keeps]|unfold failA, on_coord; solve_keeps].
Qed.
End reads.

(** ** Inputs *)

Module ApiDemo.
Import CoordinatorDemo.
#[local] Existing Instance MemFile.file.
#[local] Existing Instance MemStream.clock.
#[local] Existing Instance MemStream.stream.

#[local] Abbreviation outside := (Mem.t value * (gmap string (string * Z) * Z))%type.
#[local] Abbreviation A := (Cluster.world outside * option job *
  Publisher.world MemStream.conn (MemFile.bucket * MemFile.bucket))%type.
Definition serve0 (pub : option Publisher) (token : string) (r : api_request) : M A answer :=
  Handler (V := value) (λ _, Some info3) id (λ _, "") id true true IngestDemo.braces IngestDemo.ten_bytes (λ _, "")
    (λ r, Ok (r_data r)) 3 made.1 pub (MkAPIConfig token 100 2 1000) r.
Definition idle : A := (made.2, None, world0 []).
Definition ask (t : endpoint) (auth : string) : api_request := MkRequest t auth "" "" (MkReader "b" None).

Lemma api_guarded_witness :
  (answer_code <$> (serve0 (Some pub0) "secret" (ask (PostIngest "logs") "Bearer guess") idle).1 = Ok 401 ∧
   (serve0 (Some pub0) "secret" (ask (PostIngest "logs") "Bearer guess") idle).2 = idle) ∧
  (serve0 None "" (ask PostFailover "") idle).2 = idle.
Proof.
  split.
  - destruct (serve0 (Some pub0) "secret" (ask (PostIngest "logs") "Bearer guess") idle) as [x s'] eqn:E.
    destruct (api_guarded (V := value) _ _ _ _ _ _ _ _ _ _ _ _ _ _ _ _ _ _ E) as (Hl & _); [discriminate|].
    apply Hl; discriminate.
  - destruct (serve0 None "" (ask PostFailover "") idle) as [x s'] eqn:E.
    destruct (api_guarded (V := value) _ _ _ _ _ _ _ _ _ _ _ _ _ _ _ _ _ _ E) as (_ & Hl & _); [discriminate|].
    exact (proj2 (Hl eq_refl eq_refl)).
Defined.

Lemma api_reads_witness : is_ok (serve0 (Some pub0) "" (ask GetStatus "") idle).1 = true.
Proof.
  destruct (serve0 (Some pub0) "" (ask GetStatus "") idle) as [x s'] eqn:E.
  assert (stok (V := value) idle.1.1) as Hok by (intros k e Hk; discriminate Hk).
  assert (is_get (target (ask GetStatus "")) = true) as Hg by reflexivity.
  exact (proj1 (api_reads (V := value) _ _ _ _ _ _ _ _ _ _ _ _ _ _ _ _ _ _ Hg Hok E)).
Defined.

(** A leader, while somebody else promotes b. *)
Definition after {X} (m : M (Cluster.world outside) X) (w : Cluster.world outside) : Cluster.world outside := (m w).2.
Definition leading : Cluster.world outside :=
  after (refreshCluster (V := value) 3 made.1) (after (PollOnce healthz made.1 ["a"; "b"]) (after (tryLease (V := value) made.1) made.2)).
Definition overtaken : Cluster.world outside :=
  MkWorld (outer (after (Promote (V := value) 3 made.1 "b") leading)) (status leading) (cluster leading) (leader leading).

(** [failover_stale_answer]: asked to make b the master, which it is already by the decision
    of another instance, the leader answers that all is well and that the master is a, what
    it knew before. *)
Theorem failover_stale_answer :
  let '(x, s') := serve0 None "" (ask PostFailover "") (overtaken, None, world0 []) in
  x = Ok (AFailover "a" 1) ∧
  (λ cr : Cluster * Z, Master cr.1) <$> (loadCluster (V := value) 3 made.1 s'.1.1).1 = Ok "b".
Proof. by vm_compute. Qed.
End ApiDemo.
