(* ===== verification/Consumer.v ===== *)
(** The stream consumer of a node (pkg/streaming/consumer.go, offset.go).

    JetStream, the applier, the metadata that keeps the offset and the rest of the
    outside (clock, context, waiting) are interfaces. The goroutine [run] is a
    sequence of [iter]s, one per turn of its loop; [Pause] and [Resume] of other
    goroutines come between them. A turn that finds the consumer paused parks. *)
From S2P Require Import Prelude Strings State Wire.
#[local] Open Scope Z_scope.

(** ** JetStream *)

Record StreamInfo := MkStreamInfo { FirstSeq : Z; LastSeq : Z; Msgs : Z }.

(** A delivered message: its stream sequence, when its metadata can be read, and its
    body. *)
Record Msg := MkMsg { Metadata : res Z; MsgData : option json }.

(** [OptStartSeq] is [None] for [DeliverAllPolicy]. *)
Record ConsumerConfig := MkConsumerConfig {
  cc_Name : string; MaxAckPending : Z; FilterSubject : string; OptStartSeq : option Z }.

Definition ErrConsumerNotFound : error :=
  sentinel "jetstream.ErrConsumerNotFound" "nats: API error: consumer not found".
Definition ErrTimeout : error := sentinel "nats.ErrTimeout" "nats: timeout".
Definition ErrNoMessages : error := sentinel "jetstream.ErrNoMessages" "nats: no messages".

(** [Fetch] with reading the channel of messages to its end, and [batch.Error]. *)
Class JetStream (NT : Type) := {
  js_Stream : string → M NT ();
  stream_Info : M NT StreamInfo;
  DeleteConsumer : string → M NT ();
  CreateConsumer : ConsumerConfig → M NT ();
  Fetch : Z → Z → M NT (list Msg * option error);
  Ack : Msg → M NT ();
}.

(** [Applier] of apply.go; [Apply] gets a pointer to the message. *)
Class Applier (AT : Type) := {
  Apply : Z → M (AT * Message) ();
  Flush : M AT ();
}.

(** [OffsetStore] of offset.go. *)
Class OffsetStore (KT : Type) := {
  Load : M KT Z;
  Save : Z → M KT ();
}.

(** The context and waiting: [sleep] reports whether the context is alive. *)
Class Waiting (ET : Type) := {
  ctx_Err : ET → option error;
  sleep : Z → M ET bool;
}.

(** ** Configuration *)

Record Config := MkConfig {
  cfg_URL : string; cfg_Stream : string; cfg_Subject : string; cfg_Consumer : string;
  Batch : Z; FetchWait : Z; Retry : Z; AllowGap : bool }.

Definition second : Z := 1000000000.

Definition prepare_config (c : Config) : res Config :=
  if bool_decide (cfg_URL c = "") || bool_decide (cfg_Stream c = "")
     || bool_decide (cfg_Consumer c = "")
  then Err (errors_New "streaming: URL, Stream and Consumer are required")
  else Ok (MkConfig (cfg_URL c) (cfg_Stream c) (cfg_Subject c) (cfg_Consumer c)
    (if Batch c <=? 0 then 256 else Batch c)
    (if FetchWait c <=? 0 then second else FetchWait c)
    (if Retry c <=? 0 then second else Retry c) (AllowGap c)).

Definition ErrGap : error :=
  sentinel "streaming.ErrGap" "stream does not reach back to the node's offset".
Definition ErrAhead : error :=
  sentinel "streaming.ErrAhead" "node offset is ahead of the stream".
Definition Canceled : error := sentinel "context.Canceled" "context canceled".

(** ** The state of a consumer and its outside *)

Record node (NT AT KT ET : Type) := MkNode {
  applied : Z; streamLast : Z; total_ : Z; skipped : Z;
  paused : bool; parked : bool; running : bool;
  lastErr : string; lastAt : Z;
  net : NT; app : AT; kv : KT; env : ET }.
Arguments MkNode {_ _ _ _}. Arguments applied {_ _ _ _}. Arguments streamLast {_ _ _ _}.
Arguments total_ {_ _ _ _}. Arguments skipped {_ _ _ _}. Arguments paused {_ _ _ _}.
Arguments parked {_ _ _ _}. Arguments running {_ _ _ _}. Arguments lastErr {_ _ _ _}.
Arguments lastAt {_ _ _ _}. Arguments net {_ _ _ _}. Arguments app {_ _ _ _}.
Arguments kv {_ _ _ _}. Arguments env {_ _ _ _}.

(** [Status] of consumer.go; [Connected] is [nc.IsConnected()]. *)
Record Status := MkStatus {
  st_Paused : bool; st_Drained : bool; st_LastApplied : Z; st_StreamLast : Z; st_Lag : Z;
  st_AppliedTotal : Z; st_SkippedTotal : Z; st_LastError : string }.

Section consumer.
Context {NT AT KT ET : Type} `{!JetStream NT, !Applier AT, !OffsetStore KT, !Clock ET, !Waiting ET}.
Context (cfg : Config).
#[local] Abbreviation W := (node NT AT KT ET).

Definition on_net {A} : M NT A → M W A := zoom net (λ x w,
  MkNode (applied w) (streamLast w) (total_ w) (skipped w) (paused w) (parked w) (running w)
    (lastErr w) (lastAt w) x (app w) (kv w) (env w)).
Definition set_app (x : AT) (w : W) : W :=
  MkNode (applied w) (streamLast w) (total_ w) (skipped w) (paused w) (parked w) (running w)
    (lastErr w) (lastAt w) (net w) x (kv w) (env w).
Definition on_app {A} : M AT A → M W A := zoom app set_app.
Definition on_kv {A} : M KT A → M W A := zoom kv (λ x w,
  MkNode (applied w) (streamLast w) (total_ w) (skipped w) (paused w) (parked w) (running w)
    (lastErr w) (lastAt w) (net w) (app w) x (env w)).
Definition on_env {A} : M ET A → M W A := zoom env (λ x w,
  MkNode (applied w) (streamLast w) (total_ w) (skipped w) (paused w) (parked w) (running w)
    (lastErr w) (lastAt w) (net w) (app w) (kv w) x).

Definition set_applied (n : Z) : M W () := modify (λ w,
  MkNode n (streamLast w) (total_ w) (skipped w) (paused w) (parked w) (running w)
    (lastErr w) (lastAt w) (net w) (app w) (kv w) (env w)).
Definition set_streamLast (n : Z) : M W () := modify (λ w,
  MkNode (applied w) n (total_ w) (skipped w) (paused w) (parked w) (running w)
    (lastErr w) (lastAt w) (net w) (app w) (kv w) (env w)).
Definition add_total : M W () := modify (λ w,
  MkNode (applied w) (streamLast w) (u64 (total_ w + 1)) (skipped w) (paused w) (parked w) (running w)
    (lastErr w) (lastAt w) (net w) (app w) (kv w) (env w)).
Definition add_skipped : M W () := modify (λ w,
  MkNode (applied w) (streamLast w) (total_ w) (u64 (skipped w + 1)) (paused w) (parked w) (running w)
    (lastErr w) (lastAt w) (net w) (app w) (kv w) (env w)).
Definition set_flags (pa pk ru : bool) : M W () := modify (λ w,
  MkNode (applied w) (streamLast w) (total_ w) (skipped w) pa pk ru
    (lastErr w) (lastAt w) (net w) (app w) (kv w) (env w)).
Definition set_lastErr (e : string) (t : Z) : M W () := modify (λ w,
  MkNode (applied w) (streamLast w) (total_ w) (skipped w) (paused w) (parked w) (running w)
    e t (net w) (app w) (kv w) (env w)).

Definition ctxErr : M W (option error) := on_env (gets ctx_Err).

Definition fail (e : error) : M W () :=
  t ← on_env now; set_lastErr (err_text e) t.

(** *** Start, Pause, Resume, Status *)

(** [Start] up to the goroutine, for a client that connects. *)
Definition Start : M W () :=
  w ← get_state;
  if running w then throw (errors_New "streaming: consumer already started")
  else
    offset ← annotate "load stream offset: " (on_kv Load);
    set_applied offset;;
    set_flags (paused w) (parked w) true.

(** [Pause] before it waits, and whether it waits any longer. *)
Definition Pause : M W () := w ← get_state; set_flags true (parked w) (running w).
Definition Pause_returns : M W bool := gets (λ w, negb (running w && negb (parked w))).
Definition Resume : M W () := w ← get_state; set_flags false (parked w) (running w).

Definition Status_ : M W Status := gets (λ w,
  MkStatus (paused w) (paused w && parked w) (applied w) (streamLast w)
    (if applied w <? streamLast w then u64 (streamLast w - applied w) else 0)
    (total_ w) (skipped w) (lastErr w)).

(** *** Position *)

(** The first message the stream still has, or the next one it will get. *)
Definition first_available (info : StreamInfo) : Z :=
  if Msgs info =? 0 then u64 (LastSeq info + 1) else FirstSeq info.

Definition checkGap (info : StreamInfo) : M W Z :=
  w ← get_state;
  let need := u64 (applied w + 1) in
  let first := first_available info in
  if first <=? need then mret need
  else if negb (AllowGap cfg) then
    throw (wrap "" ErrGap (": node needs message " +:+ FormatUint need +:+
                           ", stream starts at " +:+ FormatUint first))
  else mret first.

Definition prepare : M W () :=
  annotate ("stream " +:+ cfg_Stream cfg +:+ ": ") (on_net (js_Stream (cfg_Stream cfg)));;
  info ← annotate ("stream " +:+ cfg_Stream cfg +:+ " info: ") (on_net stream_Info);
  set_streamLast (LastSeq info);;
  need ← checkGap info;
  if u64 (LastSeq info + 1) <? need then
    throw (wrap "" ErrAhead (": node needs message " +:+ FormatUint need +:+
                             ", stream ends at " +:+ FormatUint (LastSeq info)))
  else
    d ← try (on_net (DeleteConsumer (cfg_Consumer cfg)));
    match d with
    | Err e =>
        if errors_Is e ErrConsumerNotFound then mret ()
        else throw (wrap ("delete consumer " +:+ cfg_Consumer cfg +:+ ": ") e "")
    | Ok _ => mret ()
    end;;
    annotate ("create consumer " +:+ cfg_Consumer cfg +:+ ": ")
      (on_net (CreateConsumer (MkConsumerConfig (cfg_Consumer cfg) (i64 (2 * Batch cfg))
        (cfg_Subject cfg) (if 1 <? need then Some need else None)))).

(** *** One message *)

(** One attempt: its outcome, and the message as it leaves it. *)
Definition attempt (seq : Z) (msg : res Message) : M W (res () * res Message) :=
  match msg with
  | Ok m => λ w, let '(r, (a, m)) := Apply seq (app w, m) in (Ok (r, Ok m), set_app a w)
  | Err e => mret (Err e, Err e)
  end.

(** The loop of [applyOne]. [tries] is how often the message is tried before the
    consumer is stopped: then [sleep] reports the end of the context. *)
Fixpoint apply_loop (tries : nat) (seq : Z) (msg : res Message) : M W () :=
  match tries with
  | O => throw Canceled
  | Datatypes.S tries =>
      x ← attempt seq msg;
      match x.1 with
      | Ok _ => add_total
      | Err e =>
          if IsPermanent e then
            add_skipped;;
            fail (wrap ("skipping message " +:+ FormatUint seq +:+ ": ") e "")
          else
            fail (wrap ("apply message " +:+ FormatUint seq +:+ ": ") e "");;
            alive ← on_env (sleep (Retry cfg));
            if alive : bool then
              match x.2 with
              | Ok m => apply_loop tries seq (Ok m)
              | Err _ => throw (errors_New "nil message")
              end
            else
              e ← ctxErr;
              match e with Some e => throw e | None => mret () end
      end
  end.

Definition applyOne (tries : nat) (seq : Z) (data : option json) : M W () :=
  apply_loop tries seq (Decode data).

(** *** One batch *)

(** The loop over the messages: the last one applied, and the error it stopped at. *)
Fixpoint msg_loop (tries : nat) (msgs : list Msg) (last : Z) : M W (Z * option error) :=
  match msgs with
  | [] => mret (last, None)
  | m :: msgs =>
      match Metadata m with
      | Err e => mret (last, Some (wrap "message metadata: " e ""))
      | Ok seq =>
          if seq <=? last then msg_loop tries msgs last
          else
            r ← try (applyOne tries seq (MsgData m));
            match r with
            | Err e => mret (last, Some e)
            | Ok _ => msg_loop tries msgs seq
            end
      end
  end.

Fixpoint ack_loop (msgs : list Msg) (last : Z) : M W () :=
  match msgs with
  | [] => mret ()
  | m :: msgs =>
      match Metadata m with
      | Ok seq => if seq <=? last then ignore (on_net (Ack m)) else mret ()
      | Err _ => mret ()
      end;;
      ack_loop msgs last
  end.

(** The check that the first message follows the saved position. *)
Definition first_check (msgs : list Msg) (applied : Z) : M W () :=
  match msgs with
  | [] => mret ()
  | m :: _ =>
      match Metadata m with
      | Err _ => mret ()
      | Ok seq =>
          if u64 (applied + 1) <? seq then
            info ← annotate "stream info: " (on_net stream_Info);
            checkGap info;;
            mret ()
          else mret ()
      end
  end.

(** What was applied is made durable before the offset moves. *)
Definition commit (msgs : list Msg) (before last : Z) : M W () :=
  if before <? last then
    annotate "flush: " (on_app Flush);;
    annotate "save offset: " (on_kv (Save last));;
    set_applied last;;
    ack_loop msgs last
  else mret ().

Definition step (tries : nat) : M W Z :=
  b ← annotate "fetch: " (on_net (Fetch (Batch cfg) (FetchWait cfg)));
  let '(msgs, berr) := (b : list Msg * option error) in
  match berr with
  | Some e => if errors_Is e ErrTimeout || errors_Is e ErrNoMessages then mret ()
              else throw (wrap "fetch: " e "")
  | None => mret ()
  end;;
  if decide (msgs = []) then mret 0
  else
    w ← get_state;
    first_check msgs (applied w);;
    l ← msg_loop tries msgs (applied w);
    let '(last, applyErr) := (l : Z * option error) in
    commit msgs (applied w) last;;
    match applyErr with
    | Some e => throw e
    | None => mret (Z.of_nat (length msgs))
    end.

(** *** The goroutine *)

(** The local variables of [run]: whether there is a cursor, whether the loop waited
    while it was paused, and when the lag was asked for. *)
Record local := MkLocal { has_cons : bool; waited : bool; lastLag : Z }.

Definition finish : M W (option local) :=
  w ← get_state; set_flags (paused w) false false;; mret None.

Definition refresh_lag (n lag : Z) : M W Z :=
  old ← (if n =? 0 then mret true else t ← on_env now; mret (second <? Sub t lag));
  if old : bool then
    i ← try (on_net stream_Info);
    match i with Ok info => set_streamLast (LastSeq info) | Err _ => mret () end;;
    on_env now
  else mret lag.

(** One turn of the loop; [None] when the goroutine ends. *)
Definition iter (tries : nat) (l : local) : M W (option local) :=
  e ← ctxErr;
  match e with
  | Some _ => finish
  | None =>
      w ← get_state;
      if paused w then
        set_flags true true (running w);;
        mret (Some (MkLocal (has_cons l) true (lastLag l)))
      else
        set_flags false false (running w);;
        let cons := has_cons l && negb (waited l) in
        p ← (if cons then mret (Ok ()) else try prepare);
        match p with
        | Err e =>
            fail e;;
            ignore (on_env (sleep (Retry cfg)));;
            mret (Some (MkLocal false false (lastLag l)))
        | Ok _ =>
            n ← try (step tries);
            match n with
            | Err e =>
                c ← ctxErr;
                match c with
                | None => fail e;; ignore (on_env (sleep (Retry cfg)))
                | Some _ => mret ()
                end;;
                mret (Some (MkLocal false false (lastLag l)))
            | Ok n =>
                lag ← refresh_lag n (lastLag l);
                mret (Some (MkLocal true false lag))
            end
        end
  end.
End consumer.

(** ** The offset in the node metadata (offset.go) *)

Definition OffsetKey : string := "stream_offset".
Definition ErrKeyNotFound : error := sentinel "errors.ErrKeyNotFound" "key not found".

(** [metadata.KV]. *)
Class MetadataKV (KT : Type) := {
  KV_Get : string → M KT string;
  KV_Set : string → string → M KT ();
}.

Definition KVOffset_Load {KT} `{!MetadataKV KT} : M KT Z :=
  r ← try (KV_Get OffsetKey);
  match r with
  | Err e => if errors_Is e ErrKeyNotFound then mret 0 else throw e
  | Ok raw => lift (match ParseUint raw with
                    | Ok n => Ok n
                    | Err e => Err (wrap ("invalid saved stream offset " +:+ raw +:+ ": ") e "")
                    end)
  end.

Definition KVOffset_Save {KT} `{!MetadataKV KT} (seq : Z) : M KT () :=
  KV_Set OffsetKey (FormatUint seq).

#[export] Instance KVOffsetStore {KT} `{!MetadataKV KT} : OffsetStore KT :=
  {| Load := KVOffset_Load; Save := KVOffset_Save |}.

(** What the consumer relies on: the saved offset is the one that is loaded. A failed
    save may have taken place. *)
Class OffsetLaws (KT : Type) `{!OffsetStore KT} := {
  saved : KT → option Z;
  Load_law k r k' : Load k = (r, k') → k' = k ∧
    match r with Ok n => saved k = Some n | Err _ => True end;
  Save_law n k r k' : is_u64 n → Save n k = (r, k') →
    match r with
    | Ok _ => saved k' = Some n
    | Err _ => saved k' = Some n ∨ saved k' = saved k
    end;
}.

Class KVLaws (KT : Type) `{!MetadataKV KT} := {
  kv_view : KT → gmap string string;
  KV_Get_law key k r k' : KV_Get key k = (r, k') → k' = k ∧
    match r with
    | Ok v => kv_view k !! key = Some v
    | Err e => errors_Is e ErrKeyNotFound = true → kv_view k !! key = None
    end;
  KV_Set_law key v k r k' : KV_Set key v k = (r, k') →
    kv_view k' = <[key := v]> (kv_view k) ∨ is_ok r = false ∧ kv_view k' = kv_view k;
}.

(** What is saved under [OffsetKey]: 0 when nothing is, nothing when it is no number. *)
Definition saved_offset (v : gmap string string) : option Z :=
  match v !! OffsetKey with
  | None => Some 0
  | Some raw => match ParseUint raw with Ok n => Some n | Err _ => None end
  end.

Lemma saved_offset_insert n v : is_u64 n → saved_offset (<[OffsetKey := FormatUint n]> v) = Some n.
Proof. intros Hn. unfold saved_offset. by rewrite lookup_insert_eq, ParseUint_FormatUint. Qed.

#[export] Instance KVOffsetLaws {KT} `{!MetadataKV KT, !KVLaws KT} : OffsetLaws KT.
Proof.
  refine {| saved k := saved_offset (kv_view k) |}.
  - intros k r k' H. simpl in H. unfold KVOffset_Load in H. apply try_inv in H as (x & k1 & Hg & H).
    apply KV_Get_law in Hg as [-> Hg]. unfold saved_offset. destruct x as [raw|e].
    + unfold lift in H. destruct (ParseUint raw) as [n|] eqn:E; simplify_eq/=; (split; [done|]); [|done].
      by rewrite Hg, E.
    + destruct (errors_Is e ErrKeyNotFound); unfold throw, mret, M_ret in H; simplify_eq/=;
        (split; [done|]); [|done]. by rewrite Hg.
  - intros n k r k' Hn H. simpl in H. unfold KVOffset_Save in H.
    apply KV_Set_law in H as [Hk|[Hr Hk]]; rewrite Hk.
    + rewrite saved_offset_insert by done. destruct r; auto.
    + destruct r; [done|by right].
Defined.

(** [offset_roundtrip]: the offset that was saved is the one that is loaded, and
    a node without a saved offset starts at the beginning. *)
Theorem offset_roundtrip {KT} `{!MetadataKV KT, !KVLaws KT} n k k1 r k2 : is_u64 n →
  KVOffset_Save n k = (Ok (), k1) → KVOffset_Load k1 = (Ok r, k2) → r = n ∧ k2 = k1.
Proof.
  intros Hn Hs Hl. pose proof (Save_law n k (Ok ()) k1 Hn Hs) as Hsaved. simpl in Hsaved.
  pose proof (Load_law k1 (Ok r) k2 Hl) as [-> Hload]. simpl in Hload. rewrite Hsaved in Hload.
  by simplify_eq.
Qed.

(** ** What the outside promises *)

(** A stream and its cursor as the node meets them: every message the stream ever got
    ([all]), its last sequence, the lowest sequence it may still have, what the cursor
    delivers next, and what went [missed]: messages the cursor has passed although they
    were in no batch the node got. JetStream offers those again only when their
    acknowledgement is late; the consumer does not wait for that. *)
Record stream_view := MkView {
  all : gmap Z (option json); last : Z; held : Z; cur : Z; missed : gset Z }.

Definition view_ok (v : stream_view) : Prop :=
  0 ≤ last v < 2 ^ 64 - 1 ∧ cur v ≤ last v + 1 ∧ ∀ x, x ∈ dom (all v) → 1 ≤ x ≤ last v.

(** Time passes: messages arrive at the end and old ones are trimmed. *)
Definition grows (v v' : stream_view) : Prop :=
  all v ⊆ all v' ∧ last v ≤ last v' ∧ held v ≤ held v' ∧ missed v ⊆ missed v' ∧
  ∀ x, x ∈ dom (all v') → x ∈ dom (all v) ∨ last v < x.

(** The same when nothing is delivered. *)
Definition idles (v v' : stream_view) : Prop := grows v v' ∧ missed v' = missed v.

Definition in_batch (msgs : list Msg) (x : Z) : bool :=
  existsb (λ m, match Metadata m with Ok q => q =? x | Err _ => false end) msgs.
(** Before the first message of the batch. *)
Definition in_front (msgs : list Msg) (x : Z) : bool :=
  match msgs with
  | m :: _ => match Metadata m with Ok q => x <? q | Err _ => true end
  | [] => true
  end.

(** What one [Fetch] does: the cursor moves forward; the messages of the batch are
    those of the stream; those from the old position of the cursor on come in their
    order, others may come again; and what the cursor passes without its being in the
    batch is missed, unless the stream had dropped it before the batch began. *)
Definition delivered (v v' : stream_view) (msgs : list Msg) : Prop :=
  cur v ≤ cur v' ∧
  (∀ m q, m ∈ msgs → Metadata m = Ok q →
     all v' !! q = Some (MsgData m) ∧ q < cur v' ∧ held v ≤ q) ∧
  (∀ pre m post q x, msgs = pre ++ m :: post → Metadata m = Ok q → in_batch msgs x = true →
     cur v ≤ x < q → in_batch pre x = true) ∧
  (∀ x, x ∈ missed v' ↔ x ∈ missed v ∨
     x ∈ dom (all v') ∧ cur v ≤ x < cur v' ∧ in_batch msgs x = false ∧
     (x <? held v') && in_front msgs x = false).

Class StreamLaws (NT : Type) `{!JetStream NT} := {
  view : NT → stream_view;
  js_Stream_law name s r s' : view_ok (view s) → js_Stream name s = (r, s') →
    view_ok (view s') ∧ idles (view s) (view s');
  Info_law s r s' : view_ok (view s) → stream_Info s = (r, s') →
    view_ok (view s') ∧ idles (view s) (view s') ∧ cur (view s') = cur (view s) ∧
    match r with
    | Ok i => LastSeq i ≤ last (view s') ∧ last (view s) ≤ LastSeq i ∧
              held (view s) ≤ first_available i ≤ held (view s')
    | Err _ => True
    end;
  Delete_law name s r s' : view_ok (view s) → DeleteConsumer name s = (r, s') →
    view_ok (view s') ∧ idles (view s) (view s');
  CreateConsumer_law c s r s' : view_ok (view s) →
    default 1 (OptStartSeq c) ≤ last (view s) + 1 → CreateConsumer c s = (r, s') →
    view_ok (view s') ∧ idles (view s) (view s') ∧
    match r with Ok _ => cur (view s') = default 1 (OptStartSeq c) | Err _ => True end;
  Fetch_law n wait s r s' : view_ok (view s) → Fetch n wait s = (r, s') →
    view_ok (view s') ∧ grows (view s) (view s') ∧
    match r with
    | Ok (msgs, _) => delivered (view s) (view s') msgs
    | Err _ => missed (view s') = missed (view s)
    end;
  Ack_law m s r s' : view_ok (view s) → Ack m s = (r, s') →
    view_ok (view s') ∧ idles (view s) (view s') ∧ cur (view s') = cur (view s);
}.

(** An applier: the messages whose effect is durable, those whose effect a crash can
    still lose, those it refused for good, and the order of what it applied. *)
Class ApplierLaws (AT : Type) `{!Applier AT} := {
  durable : AT → gset Z;
  pending : AT → gset Z;
  rejected : AT → gset Z;
  history : AT → list Z;
  Apply_law seq m a r a' m' : Apply seq (a, m) = (r, (a', m')) →
    durable a ⊆ durable a' ∧ pending a ⊆ pending a' ∪ durable a' ∧ rejected a ⊆ rejected a' ∧
    match r with
    | Ok _ => seq ∈ pending a' ∪ durable a' ∧ history a' = history a ++ [seq]
    | Err e => history a' = history a ∧ (IsPermanent e = true → seq ∈ rejected a')
    end;
  Flush_law a r a' : Flush a = (r, a') →
    durable a ⊆ durable a' ∧ rejected a ⊆ rejected a' ∧ history a' = history a ∧
    match r with Ok _ => pending a ⊆ durable a' | Err _ => True end;
}.

(** [sleep] is cut short only by the end of the context. *)
Class WaitingLaws (ET : Type) `{!Waiting ET} := {
  sleep_law d s s' : sleep d s = (Ok false, s') → ctx_Err s' ≠ None;
}.

#[export] Instance grows_preorder : PreOrder grows.
Proof.
  split; [intros v; split_and!; try done; auto|].
  intros v1 v2 v3 (A1 & B1 & C1 & E1 & D1) (A2 & B2 & C2 & E2 & D2). split_and!; [by etrans|lia|lia|by etrans|].
  intros x Hx. destruct (D2 x Hx) as [Hx'|?]; [|right; lia]. by apply D1.
Qed.

Section safe.
Context {NT AT KT ET : Type} `{!JetStream NT, !StreamLaws NT, !Applier AT, !ApplierLaws AT,
  !OffsetStore KT, !OffsetLaws KT, !Clock ET, !Waiting ET, !WaitingLaws ET}.
Context (cfg : Config).
#[local] Set Default Proof Using "All".
#[local] Abbreviation W := (node NT AT KT ET).
#[local] Abbreviation nv w := (view (net w)).

(** What the consumer cannot know of: [x] went missed, or it is allowed to pass over what
    the stream has dropped. *)
Definition lost (v : stream_view) (x : Z) : Prop :=
  x ∈ missed v ∨ AllowGap cfg = true ∧ x < held v.
(** The effect of [x] cannot be lost any more, or there is none. *)
Definition undecodable (w : W) (x : Z) : Prop :=
  ∃ data, all (nv w) !! x = Some data ∧ is_ok (Decode data) = false.
Definition secured (w : W) (x : Z) : Prop :=
  x ∈ durable (app w) ∨ x ∈ rejected (app w) ∨ undecodable w x.
Definition covered (w : W) (x : Z) : Prop := secured w x ∨ lost (nv w) x.
(** As before, or it was applied and waits for [Flush]. *)
Definition done_ (w : W) (x : Z) : Prop := covered w x ∨ x ∈ pending (app w).

(** Everything up to the saved offset is covered. *)
Definition inv (w : W) : Prop :=
  view_ok (nv w) ∧ ∃ n, saved (kv w) = Some n ∧ 0 ≤ applied w ≤ n ∧ n ≤ last (nv w) ∧
    ∀ x, x ∈ dom (all (nv w)) → x ≤ n → covered w x.

(** The cursor is where the saved position is. *)
Definition live (w : W) : Prop :=
  ∀ x, x ∈ dom (all (nv w)) → applied w < x →
  cur (nv w) ≤ x ∨ x < held (nv w) ∨ x ∈ missed (nv w).

(** *** Steps that touch neither the applier nor the offset *)

Definition outside_only (w w' : W) : Prop :=
  app w' = app w ∧ kv w' = kv w ∧ applied w' = applied w ∧
  (view_ok (nv w) → view_ok (nv w') ∧ grows (nv w) (nv w')).

#[local] Instance outside_only_preorder : PreOrder outside_only.
Proof using Type.
  split; [intros w; split_and!; try done; by intros ?|].
  intros w1 w2 w3 (A1 & B1 & C1 & D1) (A2 & B2 & C2 & D2). split_and!; [congruence..|].
  intros Hok. destruct (D1 Hok) as [Hok' ?]. destruct (D2 Hok') as [? ?].
  split; [done|by etrans].
Qed.

(** The same with the cursor where it was. *)
Definition quiet (w w' : W) : Prop := outside_only w w' ∧
  (view_ok (nv w) → cur (nv w') = cur (nv w) ∧ missed (nv w') = missed (nv w)).

#[local] Instance quiet_preorder : PreOrder quiet.
Proof using Type.
  split; [by intros w|]. intros w1 w2 w3 [A1 B1] [A2 B2]. split; [by etrans|].
  intros Hok. destruct (B1 Hok), (B2 (proj1 (proj2 (proj2 (proj2 A1)) Hok))). split; congruence.
Qed.

Lemma quiet_outside w w' : quiet w w' → outside_only w w'.
Proof using Type. by intros [? _]. Qed.

Lemma lost_grows v v' x : grows v v' → lost v x → lost v' x.
Proof using Type. intros (_ & _ & Hh & Hm & _) [?|[? ?]]; [left; by apply Hm|right; split; [done|lia]]. Qed.

Lemma covered_mono w w' x : grows (nv w) (nv w') → durable (app w) ⊆ durable (app w') →
  rejected (app w) ⊆ rejected (app w') → covered w x → covered w' x.
Proof using Type.
  intros Hg Hd Hr [[?|[?|(data & Hlk & ?)]]|?].
  - left; left. by apply Hd.
  - left; right; left. by apply Hr.
  - left; right; right. exists data. split; [|done]. eapply lookup_weaken; [done|apply Hg].
  - right. by eapply lost_grows.
Qed.

(** Up to [n], which the stream has reached, everything stays covered. *)
Lemma covered_upto w w' n : n ≤ last (nv w) → grows (nv w) (nv w') → durable (app w) ⊆ durable (app w') →
  rejected (app w) ⊆ rejected (app w') →
  (∀ x, x ∈ dom (all (nv w)) → x ≤ n → covered w x) → ∀ x, x ∈ dom (all (nv w')) → x ≤ n → covered w' x.
Proof using Type.
  intros Hn Hg Hd Hr Hx x Hxd Hle. pose proof Hg as (_ & _ & _ & _ & Hnew).
  destruct (Hnew x Hxd) as [?|?]; [|lia]. eapply covered_mono; [done..|]. by apply Hx.
Qed.

Lemma inv_outside w w' : inv w → outside_only w w' → inv w'.
Proof using Type.
  intros (Hok & n & Hs & Ha & Hn & Hx) (A & B & C & D). destruct (D Hok) as (Hok' & Hg). pose proof Hg as (_ & ? & _).
  split; [done|]. exists n. rewrite B, C. split_and!; [done|lia|lia|lia|].
  eapply covered_upto; [exact Hn|done|by rewrite A..|done].
Qed.

Lemma live_quiet w w' : inv w → live w → quiet w w' → live w'.
Proof using Type.
  intros (Hok & _) Hl [(A & B & C & D) Hc] x Hx Ha. destruct (D Hok) as (Hok' & Hall & Hla & Hh & Hm & Hnew).
  rewrite C in Ha. rewrite (proj1 (Hc Hok)). destruct (Hnew x Hx) as [Hx'|?].
  - destruct (Hl x Hx' Ha) as [?|[?|?]]; [by left|right; left; lia|right; right; by apply Hm].
  - left. destruct Hok as (_ & ? & _). lia.
Qed.

Lemma same_quiet w w' : net w' = net w → app w' = app w → kv w' = kv w → applied w' = applied w →
  quiet w w'.
Proof using Type.
  intros Hn Ha Hk Hp. unfold quiet, outside_only. rewrite Hn. by split_and!.
Qed.

Lemma on_env_quiet {A} (c : M ET A) : keeps quiet (on_env c).
Proof using Type.
  intros w r w' H. unfold on_env, zoom in H. destruct (c (env w)). simplify_eq.
  by apply same_quiet.
Qed.
Lemma set_flags_quiet a b c : keeps quiet (set_flags a b c).
Proof using Type. intros w r w' [= <- <-]. by apply same_quiet. Qed.
Lemma set_streamLast_quiet n : keeps quiet (set_streamLast n).
Proof using Type. intros w r w' [= <- <-]. by apply same_quiet. Qed.
Lemma set_lastErr_quiet e t : keeps quiet (set_lastErr e t).
Proof using Type. intros w r w' [= <- <-]. by apply same_quiet. Qed.
Lemma add_total_quiet : keeps quiet add_total.
Proof using Type. intros w r w' [= <- <-]. by apply same_quiet. Qed.
Lemma add_skipped_quiet : keeps quiet add_skipped.
Proof using Type. intros w r w' [= <- <-]. by apply same_quiet. Qed.
#[local] Hint Resolve on_env_quiet set_flags_quiet set_streamLast_quiet set_lastErr_quiet
  add_total_quiet add_skipped_quiet : keeps.

Lemma fail_quiet e : keeps quiet (fail e).
Proof using Type. unfold fail. solve_keeps. Qed.
Lemma ctxErr_quiet : keeps quiet ctxErr.
Proof using Type. unfold ctxErr. solve_keeps. Qed.
#[local] Hint Resolve fail_quiet ctxErr_quiet : keeps.

Lemma on_net_inv {A} (c : M NT A) (w w' : W) r : on_net c w = (r, w') →
  c (net w) = (r, net w') ∧ app w' = app w ∧ kv w' = kv w ∧ applied w' = applied w.
Proof using Type.
  unfold on_net, zoom. destruct (c (net w)) eqn:E. intros [= <- <-]. done.
Qed.

Lemma Info_quiet : keeps quiet (on_net stream_Info).
Proof using Type.
  intros w r w' (H & ? & ? & ?)%on_net_inv. unfold quiet, outside_only.
  split_and!; try done; intros Hok; by apply Info_law in H as (? & [? ?] & ? & _).
Qed.
Lemma Ack_quiet m : keeps quiet (on_net (Ack m)).
Proof using Type.
  intros w r w' (H & ? & ? & ?)%on_net_inv. unfold quiet, outside_only.
  split_and!; try done; intros Hok; by apply Ack_law in H as (? & [? ?] & ?).
Qed.
#[local] Hint Resolve Info_quiet Ack_quiet : keeps.

Lemma ack_loop_quiet msgs n : keeps quiet (ack_loop msgs n).
Proof using Type. induction msgs; cbn [ack_loop]; solve_keeps. Qed.

Lemma checkGap_quiet info : keeps quiet (checkGap cfg info).
Proof using Type. unfold checkGap. solve_keeps. Qed.
#[local] Hint Resolve ack_loop_quiet checkGap_quiet : keeps.

Lemma first_check_quiet msgs n : keeps quiet (first_check cfg msgs n).
Proof using Type. unfold first_check. solve_keeps. Qed.
Lemma refresh_lag_quiet n lag : keeps quiet (refresh_lag n lag).
Proof using Type. unfold refresh_lag. solve_keeps. Qed.

Lemma inv_applied w : inv w → u64 (applied w + 1) = applied w + 1.
Proof using Type.
  intros (Hok & n & _ & Ha & Hn & _). apply u64_small. unfold is_u64. destruct Hok. lia.
Qed.

Lemma checkGap_spec info (w w' : W) r : inv w → checkGap cfg info w = (r, w') →
  w' = w ∧ match r with
           | Ok need => applied w + 1 ≤ need ∧ first_available info ≤ need ∧
               (need = applied w + 1 ∨ AllowGap cfg = true ∧ need = first_available info)
           | Err e => errors_Is e ErrGap = true ∧ applied w + 1 < first_available info
           end.
Proof using Type.
  intros Hi H. unfold checkGap in H. unfold get_state, mbind, M_bind in H. rewrite inv_applied in H by done.
  destruct (Z.leb_spec (first_available info) (applied w + 1)); [|destruct (AllowGap cfg)];
    unfold mret, M_ret, throw in H; simpl in H; simplify_eq; (split; [done|]); split_and!; try done; try lia; auto.
Qed.

Lemma js_Stream_outside name : keeps outside_only (on_net (js_Stream name)).
Proof using Type.
  intros w r w' (H & ? & ? & ?)%on_net_inv. unfold outside_only.
  split_and!; try done. intros Hok. by apply js_Stream_law in H as (? & [? _]).
Qed.
Lemma Delete_outside name : keeps outside_only (on_net (DeleteConsumer name)).
Proof using Type.
  intros w r w' (H & ? & ? & ?)%on_net_inv. unfold outside_only.
  split_and!; try done. intros Hok. by apply Delete_law in H as (? & [? _]).
Qed.

Lemma annotate_inv {A} pre (c : M W A) w r w' : annotate pre c w = (r, w') →
  ∃ r', c w = (r', w') ∧ is_ok r' = is_ok r ∧ ∀ a, r = Ok a → r' = Ok a.
Proof using Type.
  unfold annotate. destruct (c w) as [[a|e] w1]; intros [= <- <-]; eexists; split_and!; try done.
Qed.

Lemma Info_spec (w w' : W) i pre : inv w → annotate pre (on_net stream_Info) w = (Ok i, w') →
  inv w' ∧ quiet w w' ∧ last (nv w) ≤ LastSeq i ≤ last (nv w') ∧
  held (nv w) ≤ first_available i ≤ held (nv w').
Proof using Type.
  intros Hi (r' & H & _ & Hr)%annotate_inv. rewrite (Hr i eq_refl) in H.
  pose proof (Info_quiet w _ w' H) as Hq. split; [by eapply inv_outside, quiet_outside|].
  split; [done|]. apply on_net_inv in H as (H & _). apply Info_law in H as (_ & _ & _ & ? & ? & ? & ?); [done|].
  apply Hi.
Qed.

(** [prepare] puts the cursor behind the saved position, or fails. *)
Lemma prepare_spec (w w' : W) r : inv w → prepare cfg w = (r, w') →
  inv w' ∧ (is_ok r = true → live w').
Proof using Type.
  intros Hi H. unfold prepare in H.
  apply bind_inv in H as [(e & H & ->)|([] & w1 & H1 & H)].
  { apply annotate_inv in H as (r' & H & Hr & _). apply js_Stream_outside in H.
    split; [by eapply inv_outside|done]. }
  apply annotate_inv in H1 as (r1 & H1 & _). apply js_Stream_outside in H1.
  apply (inv_outside _ _ Hi) in H1. clear Hi.
  apply bind_inv in H as [(e & H & ->)|(i & w2 & H2 & H)].
  { apply annotate_inv in H as (r' & H & _). apply Info_quiet in H as [H _].
    split; [by eapply inv_outside|done]. }
  apply Info_spec in H2 as (Hi2 & _ & Hl2 & Hh2); [|done].
  apply bind_inv in H as [(e & [=] & _)|([] & w3 & H3 & H)].
  assert (net w3 = net w2) as Hn3 by (by injection H3 as <-).
  apply set_streamLast_quiet, quiet_outside in H3. apply (inv_outside _ _ Hi2) in H3 as Hi3.
  apply bind_inv in H as [(e & H & ->)|(need & w4 & Hc & H)].
  { apply checkGap_spec in H as [-> _]; [|done]. by split. }
  apply checkGap_spec in Hc as (-> & Hneed & Hfirst & Hwhich); [|done].
  pose proof Hi3 as (Hok3 & n & Hs3 & Ha3 & Hn3' & _).
  assert (u64 (LastSeq i + 1) = LastSeq i + 1) as Hu.
  { apply u64_small. rewrite Hn3 in Hok3. unfold is_u64. destruct H1 as [[? _] _]. destruct Hi2 as [[? _] _]. lia. }
  rewrite Hu in H. destruct (Z.ltb_spec (LastSeq i + 1) need) as [|Hahead];
    [unfold throw in H; by simplify_eq|].
  apply bind_inv in H as [(e & H & ->)|(d & w5 & H & Hrest)];
    [unfold try in H; by destruct (on_net _ w3)|].
  assert (outside_only w3 w5) as H5.
  { unfold try in H. destruct (on_net _ w3) as [d' w5'] eqn:E. simplify_eq.
    by apply Delete_outside in E. }
  apply (inv_outside _ _ Hi3) in H5 as Hi5.
  apply bind_inv in Hrest as [(e & H6 & ->)|([] & w6 & H6 & H7)].
  { destruct d; [done|]. destruct (errors_Is _ _); [done|]. unfold throw in H6. by simplify_eq. }
  assert (w6 = w5) as -> by (destruct d; [|destruct (errors_Is _ _)]; unfold mret, M_ret, throw in H6; by simplify_eq).
  destruct H5 as (Happ5 & Hkv5 & Hap5 & Hv5). destruct (Hv5 Hok3) as (Hok5 & Hg5).
  apply annotate_inv in H7 as (r' & H7 & Hr' & _). apply on_net_inv in H7 as (H7 & Ha7 & Hk7 & Hp7).
  assert (default 1 (if 1 <? need then Some need else None) = need) as Hstart.
  { destruct (Z.ltb_spec 1 need); simpl; lia. }
  apply CreateConsumer_law in H7 as (Hok7 & [Hg7 _] & Hc7); [|done|].
  2: { simpl. rewrite Hstart. destruct Hg5 as (_ & ? & _). rewrite Hn3 in *. lia. }
  assert (outside_only w5 w') as Ho7 by (unfold outside_only; split_and!; try done).
  split; [by eapply inv_outside|]. intros Hr. destruct r' as [[]|]; [|by rewrite Hr in Hr'].
  simpl in Hc7. rewrite Hstart in Hc7. intros x _ Hx. rewrite Hc7. rewrite Hp7, Hap5 in Hx.
  destruct (Z.le_gt_cases need x); [by left|right; left]. destruct Hwhich as [?|[_ ->]]; [lia|].
  destruct Hg5 as (_ & _ & Hh5 & _), Hg7 as (_ & _ & Hh7 & _). rewrite Hn3 in Hh5. lia.
Qed.

(** *** Applying one message *)

(** What applying messages may change: the state of the applier, which only gains. *)
Definition progress (w w' : W) : Prop :=
  net w' = net w ∧ kv w' = kv w ∧ applied w' = applied w ∧
  durable (app w) ⊆ durable (app w') ∧ rejected (app w) ⊆ rejected (app w') ∧
  pending (app w) ⊆ pending (app w') ∪ durable (app w').

#[local] Instance progress_preorder : PreOrder progress.
Proof using Type.
  split; [intros w; unfold progress; split_and!; try done; set_solver-|].
  intros w1 w2 w3 (A1 & B1 & C1 & D1 & E1 & F1) (A2 & B2 & C2 & D2 & E2 & F2).
  unfold progress. rewrite A2, B2, C2. split_and!; [done..|by etrans|by etrans|].
  clear -D2 F1 F2. set_solver.
Qed.

Lemma progress_done w w' x : progress w w' → done_ w x → done_ w' x.
Proof using Type.
  intros (Hn & _ & _ & Hd & Hr & Hp) [Hc|H].
  - left. eapply covered_mono; [|exact Hd|exact Hr|exact Hc]. by rewrite Hn.
  - apply Hp in H as [?|?]%elem_of_union; [by right|by left; left; left].
Qed.

(** Applied at most once, and then it is last in the history. *)
Definition once (seq : Z) (w w' : W) : Prop :=
  progress w w' ∧ ∃ l, history (app w') = history (app w) ++ l ∧ (l = [] ∨ l = [seq]).

Lemma same_progress w w' : app w' = app w → net w' = net w → kv w' = kv w → applied w' = applied w →
  progress w w'.
Proof using Type. intros Ha ???. unfold progress. rewrite Ha. split_and!; try done; set_solver-. Qed.

Lemma on_env_same {A} (c : M ET A) (w w' : W) r : on_env c w = (r, w') →
  c (env w) = (r, env w') ∧ app w' = app w ∧ net w' = net w ∧ kv w' = kv w ∧ applied w' = applied w.
Proof using Type.
  unfold on_env, zoom. destruct (c (env w)) eqn:E. intros [= <- <-]. done.
Qed.

Lemma fail_same e (w w' : W) r : fail e w = (r, w') →
  app w' = app w ∧ net w' = net w ∧ kv w' = kv w ∧ applied w' = applied w.
Proof using Type.
  intros H. unfold fail in H. apply bind_inv in H as [(e' & H & _)|(t & w1 & H & H')];
    apply on_env_same in H as (_ & ? & ? & ? & ?); [done|].
  unfold set_lastErr, modify in H'. by simplify_eq.
Qed.

Lemma once_same seq w w1 w2 : once seq w w1 → app w2 = app w1 → net w2 = net w1 → kv w2 = kv w1 →
  applied w2 = applied w1 → once seq w w2.
Proof using Type.
  intros [Hp Hh] Ha ???. split; [|by rewrite Ha]. etrans; [exact Hp|]. by apply same_progress.
Qed.

Lemma once_trans seq w w1 w2 : progress w w1 → history (app w1) = history (app w) →
  once seq w1 w2 → once seq w w2.
Proof using Type. intros Hp Hh [Hp' Hl]. split; [by etrans|]. by rewrite <- Hh. Qed.

Lemma apply_loop_spec tries seq : ∀ msg (w w' : W) r,
  (∀ e, msg = Err e → IsPermanent e = true) →
  apply_loop cfg tries seq msg w = (r, w') →
  once seq w w' ∧
  (is_ok r = true → seq ∈ pending (app w') ∪ durable (app w') ∨ seq ∈ rejected (app w') ∨
     is_ok msg = false).
Proof.
  induction tries as [|tries IH]; intros msg w w' r Hperm H; cbn [apply_loop] in H.
  { unfold throw in H. simplify_eq. split; [|done]. split; [done|]. exists []. by rewrite app_nil_r; auto. }
  apply bind_inv in H as [(e & Ha & _)|([x msg'] & w1 & Ha & H)].
  { destruct msg as [m|]; simpl in Ha; [by destruct (Apply seq (app w, m)) as [? []]|done]. }
  assert (once seq w w1 ∧ is_ok msg' = is_ok msg ∧ match x with
    | Ok _ => seq ∈ pending (app w1) ∪ durable (app w1) ∧ history (app w1) = history (app w) ++ [seq]
    | Err e => history (app w1) = history (app w) ∧
        (IsPermanent e = true → seq ∈ rejected (app w1) ∨ is_ok msg = false) ∧
        (IsPermanent e = false → is_ok msg = true) end) as (Ho & Hm' & Hx).
  { destruct msg as [m|e]; simpl in Ha.
    - destruct (Apply seq (app w, m)) as [x' [a' m']] eqn:E. simplify_eq.
      apply Apply_law in E as (Hd & Hp & Hr & Hx). simpl. split; [|split; [done|]].
      + split; [by unfold progress|]. destruct x as [[]|e]; [exists [seq]|exists []; rewrite app_nil_r];
          (split; [apply Hx|auto]).
      + destruct x as [[]|e]; [done|]. destruct Hx as [? Hx]. split_and!; [done| |done].
        intros He. left. by apply Hx.
    - unfold mret, M_ret in Ha. simplify_eq. split; [|split; [done|]].
      + split; [done|]. exists []. rewrite app_nil_r. auto.
      + split_and!; [done|by right|by rewrite (Hperm e eq_refl)]. }
  simpl in H.
  clear Ha. destruct x as [[]|e].
  { unfold add_total, modify in H. simplify_eq. simpl.
    split; [by eapply once_same|intros _; left; apply Hx]. }
  destruct Hx as (Hh & Hx & Hmsg). destruct (IsPermanent e) eqn:He.
  - apply bind_inv in H as [(e' & [=] & _)|([] & w2 & H2 & H)]. apply fail_same in H as (Ha & ? & ? & ?).
    unfold add_skipped, modify in H2. simplify_eq. simpl in *.
    split; [by eapply once_same|]. intros _. rewrite Ha. destruct (Hx eq_refl); auto.
  - specialize (Hmsg eq_refl). apply bind_inv in H as [(e' & H2 & ->)|([] & w2 & H2 & H)];
      apply fail_same in H2 as (Ha & ? & ? & ?); [by split; [eapply once_same|]|].
    apply (once_same _ _ _ w2) in Ho as Ho2; try done. rewrite <- Ha in Hh. clear Ho.
    apply bind_inv in H as [(e' & Hs & ->)|(alive & w3 & Hs & H)];
      apply on_env_same in Hs as (Hsl & Ha3 & ? & ? & ?); [by split; [eapply once_same|]|].
    apply (once_same _ _ _ w3) in Ho2 as [Hp3 _]; try done. rewrite <- Ha3 in Hh.
    destruct alive.
    + rewrite Hmsg in Hm'. destruct msg' as [m|]; [|done]. apply IH in H as [Ho' Hr']; [|done].
      split; [by eapply once_trans|]. rewrite Hmsg. done.
    + apply sleep_law in Hsl. apply bind_inv in H as [(e' & [=] & _)|(ce & w4 & Hc & H)].
      unfold ctxErr, on_env, zoom, gets in Hc. destruct (ctx_Err (env w3)); [|done].
      simplify_eq. simpl in H. unfold throw in H. simplify_eq. split; [|done].
      eapply once_trans; [exact Hp3|exact Hh|]. split; [by apply same_progress|].
      exists []. rewrite app_nil_r. auto.
Qed.

(** *** One batch *)

(** The messages of a batch are those of the stream, and none of the stream between
    the saved position [a] and one of them is missing before it without being lost. *)
Definition complete (v : stream_view) (a : Z) (msgs : list Msg) : Prop :=
  (∀ m q, m ∈ msgs → Metadata m = Ok q → all v !! q = Some (MsgData m)) ∧
  ∀ pre m post q x, msgs = pre ++ m :: post → Forall (λ m, is_ok (Metadata m) = true) pre →
    Metadata m = Ok q → x ∈ dom (all v) → a < x < q → lost v x ∨ ∃ m', m' ∈ pre ∧ Metadata m' = Ok x.

(** Where the loop is: [pre] was gone through up to [l]. *)
Definition at_ (w : W) (a l : Z) (pre : list Msg) : Prop :=
  a ≤ l ∧ Forall (λ m, is_ok (Metadata m) = true) pre ∧
  (∀ m q, m ∈ pre → Metadata m = Ok q → q ≤ l) ∧
  ∀ x, x ∈ dom (all (nv w)) → a < x ≤ l → done_ w x.

Lemma at_progress w w' a l pre : progress w w' → at_ w a l pre → at_ w' a l pre.
Proof using Type.
  intros Hp (H1 & H0 & H2 & H3). split_and!; [done..|]. intros x Hx Hl.
  eapply progress_done; [done|]. apply H3; [|done]. destruct Hp as (Hn & _). by rewrite <- Hn.
Qed.

Lemma at_shrink w a l pre pre' : at_ w a l (pre ++ pre') → at_ w a l pre.
Proof using Type.
  intros (H1 & [H0 _]%Forall_app & H2 & H3). split_and!; [done..| |done].
  intros m q Hin. apply H2, elem_of_app. by left.
Qed.

(** What was applied on top of the history: in the order of the stream, after [l]. *)
Definition in_order (l : Z) (w w' : W) : Prop :=
  ∃ h, history (app w') = history (app w) ++ h ∧ StronglySorted Z.lt h ∧ Forall (Z.lt l) h.

Lemma in_order_refl l w : in_order l w w.
Proof using Type. exists []. rewrite app_nil_r. split_and!; [done|constructor..]. Qed.

Lemma once_in_order seq l w w' : once seq w w' → l < seq → in_order l w w'.
Proof using Type.
  intros [_ (h & Hh & Hl)] Hs. exists h. split; [done|].
  destruct Hl as [->| ->]; (split; [repeat constructor|]); repeat constructor; done.
Qed.

Lemma in_order_once seq l w w1 w' : once seq w w1 → l < seq → in_order seq w1 w' → in_order l w w'.
Proof using Type.
  intros [_ (h & Hh & Hl)] Hs (h' & Hh' & Hsort & Hall). exists (h ++ h'). split_and!.
  - by rewrite Hh', Hh, (assoc_L (++)).
  - destruct Hl as [->| ->]; [done|]. by constructor.
  - apply Forall_app. split; [destruct Hl as [->| ->]; repeat constructor; done|].
    eapply Forall_impl; [exact Hall|]. simpl. lia.
Qed.

Lemma msg_loop_spec tries msgs a : ∀ pre l (w w' : W) r, complete (nv w) a (pre ++ msgs) →
  at_ w a l pre → msg_loop cfg tries msgs l w = (r, w') →
  progress w w' ∧ in_order l w w' ∧ ∃ l' err, r = Ok (l', err) ∧ l ≤ l' ∧
    at_ w' a l' pre ∧ (l' = l ∨ ∃ m, m ∈ msgs ∧ Metadata m = Ok l') ∧
    (err = None → at_ w' a l' (pre ++ msgs)).
Proof.
  induction msgs as [|m msgs IH]; intros pre l w w' r Hc Hat H; cbn [msg_loop] in H.
  { unfold mret, M_ret in H. simplify_eq. split; [done|]. split; [apply in_order_refl|].
    exists l, None. rewrite app_nil_r. split_and!; auto; lia. }
  destruct (Metadata m) as [q|e] eqn:Hm.
  2: { unfold mret, M_ret in H. simplify_eq. split; [done|]. split; [apply in_order_refl|].
       eexists l, _. split_and!; try done; auto; lia. }
  rewrite (app_assoc pre [m] msgs : pre ++ m :: msgs = _) in Hc |- *.
  destruct (Z.leb_spec q l) as [Hq|Hq].
  { apply (IH (pre ++ [m])) in H as (Hp & Ho & l' & err & -> & Hl & Hat' & Hfrom & Hend); [|done|].
    - split; [done|]. split; [done|]. exists l', err. split_and!; [done|done| | |done].
      + by eapply at_shrink.
      + destruct Hfrom as [?|(m' & ? & ?)]; [by left|right]. exists m'. set_solver.
    - destruct Hat as (H1 & H0 & H2 & H3). split_and!; [done| | |done].
      { apply Forall_app. split; [done|]. constructor; [by rewrite Hm|constructor]. }
      intros m' q' [?| ->%list_elem_of_singleton]%elem_of_app Hm'; [by eapply H2|congruence]. }
  apply try_inv in H as (x & w1 & Ha & H). unfold applyOne in Ha.
  apply apply_loop_spec in Ha as [Hon Hdone]; [|intros e He; by eapply Decode_permanent].
  pose proof (proj1 Hon) as Hp1. pose proof (at_progress _ _ _ _ _ Hp1 Hat) as Hat1.
  destruct x as [[]|e].
  2: { unfold mret, M_ret in H. simplify_eq. split; [done|]. split; [by eapply once_in_order|].
       eexists l, _. split_and!; try done; auto; lia. }
  assert (complete (nv w1) a ((pre ++ [m]) ++ msgs)) as Hc1
    by (destruct Hp1 as (-> & _); done).
  assert (at_ w1 a q (pre ++ [m])) as Hat2.
  { destruct Hat1 as (H1 & H0 & H2 & H3). split_and!; [lia| | |].
    - apply Forall_app. split; [done|]. constructor; [by rewrite Hm|constructor].
    - intros m' q' [Hin| ->%list_elem_of_singleton]%elem_of_app Hm'; [|rewrite Hm in Hm'; injection Hm' as <-; lia].
      specialize (H2 _ _ Hin Hm'). lia.
    - intros y Hy Hyq. destruct (decide (y ≤ l)); [apply H3; [done|lia]|].
      destruct (decide (y = q)) as [->|].
      + destruct Hdone as [Hd|[Hd|Hd]]; [done| | |]; unfold done_, secured.
        * apply elem_of_union in Hd as [?|?]; [by right|by left; left; left].
        * by left; left; right; left.
        * left; left; right; right. exists (MsgData m). split; [|done]. apply (proj1 Hc1); [|done].
          clear. set_solver.
      + destruct (proj2 Hc1 pre m msgs q y) as [?|(m' & Hin & Hm')];
          [by rewrite <- (assoc_L (++))|done|done|done|lia|by left; right|].
        specialize (H2 _ _ Hin Hm'). lia. }
  apply (IH (pre ++ [m])) in H as (Hp & Ho & l' & err & -> & Hl & Hat' & Hfrom & Hend); [|done..].
  split; [by etrans|]. split; [by eapply in_order_once|]. exists l', err.
  split_and!; [done|lia| | |done].
  - by eapply at_shrink.
  - right. destruct Hfrom as [->|(m' & Hin & ?)]; [exists m|exists m']; (split; [|done]).
    + by left.
    + by right.
Qed.

Lemma in_batch_true msgs x : in_batch msgs x = true ↔ ∃ m, m ∈ msgs ∧ Metadata m = Ok x.
Proof using Type.
  unfold in_batch. rewrite existsb_exists. split.
  - intros (m & Hin%list_elem_of_In & Hm). exists m. split; [done|]. destruct (Metadata m); [|done].
    by apply Z.eqb_eq in Hm as ->.
  - intros (m & Hin & Hm). exists m. rewrite <- list_elem_of_In. split; [done|]. by rewrite Hm, Z.eqb_refl.
Qed.

(** What the cursor passed came in the batch, was dropped before it, or is missed. *)
Lemma delivered_cases v v' msgs x : delivered v v' msgs → x ∈ dom (all v') → cur v ≤ x < cur v' →
  in_batch msgs x = true ∨ x < held v' ∧ in_front msgs x = true ∨ x ∈ missed v'.
Proof using Type.
  intros (_ & _ & _ & Hm) Hx Hc. destruct (in_batch msgs x) eqn:Eb; [by left|right].
  destruct ((x <? held v') && in_front msgs x) eqn:Ef.
  - apply andb_true_iff in Ef as [?%Z.ltb_lt ?]. by left.
  - right. apply Hm. by right.
Qed.

(** Where a fetch that delivers [msgs] leaves the cursor: at what is not among them. *)
Lemma fetch_live w v' a msgs b : live w → applied w = a → view_ok (nv w) → grows (nv w) v' →
  delivered (nv w) v' msgs → a ≤ b → (∀ m q, m ∈ msgs → Metadata m = Ok q → q ≤ b) →
  ∀ x, x ∈ dom (all v') → b < x → cur v' ≤ x ∨ x < held v' ∨ x ∈ missed v'.
Proof using Type.
  intros Hl <- (_ & Hcur & _) (_ & _ & Hh & Hm & Hnew) Hdel Hab Hb x Hx Hbx.
  destruct (decide (cur v' ≤ x)); [by left|right].
  destruct (decide (cur (nv w) ≤ x)).
  - destruct (delivered_cases _ _ _ x Hdel Hx) as [(m & Hin & Hmx)%in_batch_true|[[? _]|?]]; [lia| |by left|by right].
    specialize (Hb _ _ Hin Hmx). lia.
  - destruct (Hnew x Hx) as [Hx'|?]; [|lia].
    destruct (Hl x Hx') as [?|[?|?]]; [lia|lia|left; lia|right; by apply Hm].
Qed.

(** What [first_check] lets pass. *)
Definition checked (v : stream_view) (a : Z) (msgs : list Msg) : Prop :=
  ∀ m q, head msgs = Some m → Metadata m = Ok q → q ≤ a + 1 ∨ held v ≤ a + 1 ∨ AllowGap cfg = true.

Lemma first_check_spec msgs (w w' : W) : inv w →
  first_check cfg msgs (applied w) w = (Ok (), w') → checked (nv w) (applied w) msgs.
Proof.
  intros Hi H. destruct msgs as [|m msgs]; intros m' q [=] Hm. simplify_eq. unfold first_check in H.
  rewrite Hm, inv_applied in H by done. destruct (Z.ltb_spec (applied w + 1) q); [right|by left].
  apply bind_ok in H as (i & w1 & Hinfo & H). apply Info_spec in Hinfo as (Hi1 & Hq & _ & Hh); [|done].
  apply bind_ok in H as (need & w2 & Hc & _). apply checkGap_spec in Hc as (_ & _ & Hf & [->|[? _]]); [|by right|done].
  left. destruct Hq as [(_ & _ & Ha & _) _]. lia.
Qed.

(** A batch that passed the check is complete. *)
Lemma batch_complete w v1 v2 msgs : inv w → live w → grows (nv w) v1 → view_ok v1 → grows v1 v2 →
  delivered (nv w) v1 msgs → checked v1 (applied w) msgs → complete v2 (applied w) msgs.
Proof using Type.
  intros (Hok & _) Hl Hg Hok1 Hg2 Hdel Hchk. pose proof Hdel as (Hcc & Hbody & Hord & _).
  pose proof Hg as (_ & Hlast & Hh & Hmiss & Hnew). pose proof Hg2 as (Hsub & _ & Hh2 & Hmiss2 & Hnew2). split.
  { intros m q Hin Hm. destruct (Hbody m q Hin Hm) as [Hd _]. by eapply lookup_weaken. }
  intros pre m post q x Heq Hpre Hm Hx Hxq.
  assert (m ∈ msgs) as Hin by (rewrite Heq; clear; set_solver).
  destruct (Hbody m q Hin Hm) as (Hd & Hqc & _).
  assert (q ≤ last v1) as Hql by (apply Hok1; apply elem_of_dom; eauto).
  destruct (Hnew2 x Hx) as [Hx1|?]; [|lia].
  (* the first message of the batch *)
  assert (∃ m0 q0, head msgs = Some m0 ∧ Metadata m0 = Ok q0) as (m0 & q0 & Hhd & Hq0).
  { destruct pre as [|m1 pre]; rewrite Heq; [by exists m, q|]. apply Forall_cons in Hpre as [Hp _].
    destruct (Metadata m1) as [q0|] eqn:E; [by exists m1, q0|done]. }
  assert (held (nv w) ≤ q0) as Hheld0.
  { apply (Hbody m0 q0); [|done]. destruct msgs; simplify_eq/=. by left. }
  specialize (Hchk m0 q0 Hhd Hq0).
  (* what was dropped is lost only where that is allowed *)
  assert (x < held v1 → held v1 ≤ applied w + 1 ∨ AllowGap cfg = true → lost v2 x) as Hgone.
  { intros ? [?|?]; [lia|]. right. split; [done|lia]. }
  destruct (decide (cur (nv w) ≤ x)) as [Hcx|Hcx].
  - destruct (delivered_cases _ _ _ x Hdel Hx1) as [Hb|[[? Hf]|?]]; [lia| | |].
    + right. apply in_batch_true. eapply Hord; [exact Heq|exact Hm|exact Hb|lia].
    + left. apply Hgone; [done|]. unfold in_front in Hf. destruct msgs as [|m1 msgs]; [done|].
      simplify_eq/=. rewrite Hq0 in Hf. apply Z.ltb_lt in Hf. destruct Hchk; [lia|done].
    + left; left. by apply Hmiss2.
  - left. destruct (Hnew x Hx1) as [Hx0|?]; [|destruct Hok as (_ & ? & _); lia].
    destruct (Hl x Hx0) as [?|[?|?]]; [lia|lia| |left; by apply Hmiss2, Hmiss].
    destruct Hchk as [?|?]; [lia|]. apply Hgone; [lia|done].
Qed.

(** Time passes at the stream and the cursor stays. *)
Definition still (w w' : W) : Prop := view_ok (nv w) →
  view_ok (nv w') ∧ grows (nv w) (nv w') ∧ cur (nv w') = cur (nv w).

#[local] Instance still_preorder : PreOrder still.
Proof using Type.
  split; [by intros w Hok|]. intros w1 w2 w3 H1 H2 Hok. destruct (H1 Hok) as (Hok2 & G1 & C1).
  destruct (H2 Hok2) as (Hok3 & G2 & C2). split_and!; [done|by etrans|congruence].
Qed.

Lemma quiet_still w w' : quiet w w' → still w w'.
Proof using Type. intros [(_ & _ & _ & H) Hc] Hok. destruct (H Hok), (Hc Hok). by split_and!. Qed.

Lemma same_net_still w w' : net w' = net w → still w w'.
Proof using Type. intros Hn Hok. by rewrite Hn. Qed.

Lemma inv_progress w w' : inv w → progress w w' → inv w'.
Proof using Type.
  intros (Hok & n & Hs & Ha & Hn & Hx) (A & B & C & D & E & F). split; [by rewrite A|].
  exists n. rewrite A, B, C. split_and!; [done|lia|lia|lia|]. rewrite <- A.
  eapply (covered_upto w); [done|by rewrite A|done..].
Qed.

Lemma Flush_spec (w w' : W) r : on_app Flush w = (r, w') →
  net w' = net w ∧ kv w' = kv w ∧ applied w' = applied w ∧ history (app w') = history (app w) ∧
  (∀ x, covered w x → covered w' x) ∧ (is_ok r = true → ∀ x, done_ w x → covered w' x).
Proof using Type.
  unfold on_app, zoom. destruct (Flush (app w)) as [r' a'] eqn:E. intros [= <- <-].
  apply Flush_law in E as (Hd & Hr & Hh & Hp). simpl.
  assert (∀ x, covered w x → covered (set_app a' w) x) as Hc by (intros x; by apply covered_mono).
  split_and!; [done..|]. destruct r'; [|done]. intros _ x [?|?]; [by apply Hc|].
  left; left. by apply Hp.
Qed.

Lemma Save_spec n (w w' : W) r : is_u64 n → on_kv (Save n) w = (r, w') →
  net w' = net w ∧ app w' = app w ∧ applied w' = applied w ∧
  (saved (kv w') = Some n ∨ is_ok r = false ∧ saved (kv w') = saved (kv w)).
Proof using Type.
  intros Hn. unfold on_kv, zoom. destruct (Save n (kv w)) as [r' k'] eqn:E. intros [= <- <-].
  apply Save_law in E; [|done]. simpl. split_and!; try done. destruct r'; [by left|].
  destruct E; [by left|by right].
Qed.

(** [commit] moves the offset only over what is secured. *)
Lemma commit_spec msgs l (w w' : W) r : inv w → applied w ≤ l ≤ last (nv w) →
  (∀ x, x ∈ dom (all (nv w)) → applied w < x ≤ l → done_ w x) →
  commit msgs (applied w) l w = (r, w') →
  inv w' ∧ still w w' ∧ history (app w') = history (app w) ∧ (is_ok r = true → applied w' = l).
Proof using Type.
  intros Hi Hl Hdone H. unfold commit in H. destruct (Z.ltb_spec (applied w) l).
  2: { unfold mret, M_ret in H. simplify_eq. split_and!; [done|done|done|]. intros _. lia. }
  pose proof Hi as (Hok & n & Hs & Ha & Hn & Hx).
  apply bind_inv in H as [(e & H & ->)|([] & w1 & H1 & H)].
  { apply annotate_inv in H as (r' & H & _). apply Flush_spec in H as (A & B & C & Hh & D & _).
    split_and!; [|by apply same_net_still|done|done]. split; [by rewrite A|]. exists n.
    rewrite A, B, C. split_and!; [done|lia|lia|lia|]. intros x Hd Hle. by apply D, Hx. }
  apply annotate_inv in H1 as (r1 & H1 & Hr1 & _).
  apply Flush_spec in H1 as (A1 & B1 & C1 & Hh1 & D1 & E1). specialize (E1 Hr1).
  assert (∀ x, x ∈ dom (all (nv w1)) → x ≤ l → covered w1 x) as Hsec.
  { intros x Hd Hle. rewrite A1 in Hd. destruct (decide (x ≤ n)); [by apply D1, Hx|].
    apply E1, Hdone; [done|lia]. }
  apply bind_inv in H as [(e & H & ->)|([] & w2 & H2 & H)].
  - apply annotate_inv in H as (r' & H & _). apply Save_spec in H as (A & B & C & Hsv).
    2: { destruct Hok as (? & _). unfold is_u64. lia. }
    split_and!; [|by apply same_net_still; congruence|congruence|done]. split; [by rewrite A, A1|].
    destruct Hsv as [Hsv|[_ Hsv]]; [exists l|exists n]; rewrite A, A1, C, C1;
      (split_and!; [try done; by rewrite Hsv, B1|lia|lia|lia|]); intros x Hd Hle;
      unfold covered, secured, undecodable; rewrite B, A; [apply Hsec|apply D1, Hx]; try done; by rewrite A1.
  - apply annotate_inv in H2 as (r2 & H2 & Hr2 & _). apply Save_spec in H2 as (A & B & C & Hsv).
    2: { destruct Hok as (? & _). unfold is_u64. lia. }
    destruct Hsv as [Hsv|[Hb _]]; [|by rewrite Hb in Hr2].
    apply bind_inv in H as [(e & [=] & _)|([] & w3 & H3 & H)].
    unfold set_applied, modify in H3. injection H3 as <-.
    apply ack_loop_quiet in H as Hq. set (w3 := MkNode _ _ _ _ _ _ _ _ _ _ _ _ _) in *.
    assert (inv w3) as Hi3.
    { split; [by rewrite <- A1, <- A in Hok|]. exists l. simpl. rewrite A, A1.
      split_and!; [done|lia|lia|lia|]. intros x Hd Hle. unfold covered, secured, undecodable. simpl.
      rewrite A, B. apply Hsec; [by rewrite A1|done]. }
    split_and!.
    + by eapply inv_outside, quiet_outside.
    + trans w3; [apply same_net_still; simpl; congruence|by apply quiet_still].
    + destruct Hq as [(Happ & _) _]. rewrite Happ. simpl. congruence.
    + intros _. destruct Hq as [(_ & _ & Hap & _) _]. by rewrite Hap.
Qed.

Lemma Fetch_spec (w w' : W) n t r : view_ok (nv w) → annotate "fetch: " (on_net (Fetch n t)) w = (r, w') →
  outside_only w w' ∧ ∀ msgs e, r = Ok (msgs, e) → delivered (nv w) (nv w') msgs.
Proof using Type.
  intros Hok (r' & H & _ & Hr)%annotate_inv. apply on_net_inv in H as (H & ? & ? & ?).
  apply Fetch_law in H as (Hok' & Hg & Hd); [|done]. split; [by unfold outside_only|].
  intros msgs e ->. rewrite (Hr _ eq_refl) in Hd. done.
Qed.

Lemma fetch_error_same (e : option error) (w w' : W) r :
  match e with
  | Some e => if errors_Is e ErrTimeout || errors_Is e ErrNoMessages then mret ()
              else throw (wrap "fetch: " e "")
  | None => mret ()
  end w = (r, w') → w' = w.
Proof using Type.
  destruct e as [e|]; [destruct (_ || _)|]; unfold mret, M_ret, throw; by intros [= _ <-].
Qed.

Lemma live_after w v' w' a b msgs : live w → applied w = a → view_ok (nv w) → grows (nv w) v' →
  view_ok v' → delivered (nv w) v' msgs → a ≤ b → (∀ m q, m ∈ msgs → Metadata m = Ok q → q ≤ b) →
  grows v' (nv w') → cur (nv w') = cur v' → applied w' = b → live w'.
Proof using Type.
  intros Hl Ha Hok Hg Hok' Hd Hab Hb (_ & _ & Hh & Hm & Hnew) Hc Hap x Hx Hbx. rewrite Hap in Hbx.
  rewrite Hc. destruct (Hnew x Hx) as [Hx'|?].
  - destruct (fetch_live w v' a msgs b Hl Ha Hok Hg Hd Hab Hb x Hx' Hbx) as [?|[?|?]];
      [by left|right; left; lia|right; right; by apply Hm].
  - left. destruct Hok' as (_ & ? & _). lia.
Qed.

(** One batch: the offset only covers what is secured, what is applied is applied in
    the order of the stream, and after a success the cursor fits the offset. *)
Lemma step_spec tries (w w' : W) r : inv w → live w → step cfg tries w = (r, w') →
  inv w' ∧ in_order (applied w) w w' ∧ (is_ok r = true → live w').
Proof.
  intros Hi Hl H. unfold step in H. pose proof Hi as (Hok & _).
  apply bind_inv in H as [(e & H & ->)|([msgs berr] & w1 & H1 & H)].
  { apply Fetch_spec in H as [Ho _]; [|done]. split_and!; [by eapply inv_outside| |done].
    destruct Ho as (Ha & _). exists []. rewrite Ha, app_nil_r. split_and!; [done|constructor..]. }
  apply Fetch_spec in H1 as [Ho1 Hdel]; [|done]. specialize (Hdel msgs berr eq_refl).
  pose proof (inv_outside _ _ Hi Ho1) as Hi1. destruct Ho1 as (Happ1 & _ & Hap1 & Hv1).
  destruct (Hv1 Hok) as [Hok1 Hg1]. rewrite <- Hap1 in *.
  assert (∀ w2, app w2 = app w1 → in_order (applied w1) w w2) as Hnone.
  { intros w2 Ha. exists []. rewrite Ha, Happ1, app_nil_r. split_and!; [done|constructor..]. }
  apply bind_inv in H as [(e & H & ->)|([] & w2 & H2 & H)];
    [apply fetch_error_same in H as ->|apply fetch_error_same in H2 as ->];
    [split_and!; [done|by apply Hnone|done]|].
  case_decide as Hm.
  { unfold mret, M_ret in H. simplify_eq. split_and!; [done|by apply Hnone|]. intros _.
    eapply (live_after w (nv w') w'); try done; by intros ?? ?%elem_of_nil. }
  apply bind_inv in H as [(e & [=] & _)|(w1' & w2 & [= <- <-] & H)].
  apply bind_inv in H as [(e & H & ->)|([] & w2 & H2 & H)].
  { apply first_check_quiet, quiet_outside in H as Ho. split_and!; [by eapply inv_outside| |done].
    apply Hnone. by destruct Ho. }
  pose proof (first_check_spec _ _ _ Hi1 H2) as Hchk.
  apply first_check_quiet in H2 as Hq2. pose proof (inv_outside _ _ Hi1 (quiet_outside _ _ Hq2)) as Hi2.
  destruct Hq2 as [(Happ2 & _ & Hap2 & Hv2) Hc2]. destruct (Hv2 Hok1) as [Hok2 Hg2].
  rewrite Hap1 in Hchk. pose proof (batch_complete w _ _ msgs Hi Hl Hg1 Hok1 Hg2 Hdel Hchk) as Hcomp.
  apply bind_inv in H as [(e & H & ->)|([l err] & w3 & H3 & H)].
  { apply (msg_loop_spec _ _ (applied w) []) in H as (_ & _ & ? & ? & [=] & _); [done|].
    split_and!; [lia|constructor|by intros ?? ?%elem_of_nil|intros; lia]. }
  apply (msg_loop_spec _ _ (applied w) []) in H3 as (Hp3 & Ho3 & l' & err' & [= <- <-] & Hll & Hat & Hfrom & Hend);
    [|done|rewrite Hap1; split_and!; [lia|constructor|by intros ?? ?%elem_of_nil|intros; lia]].
  pose proof (inv_progress _ _ Hi2 Hp3) as Hi3. pose proof Hp3 as (Hn3 & _ & Hap3 & _).
  assert (applied w3 = applied w1) as Hap31 by congruence. rewrite <- Hap31 in H.
  assert (l ≤ last (nv w3)) as Hlast.
  { destruct Hfrom as [->|(m & Hin & Hm')].
    - rewrite Hap1, Hn3. destruct Hi2 as (_ & n & _ & ? & ? & _). rewrite Hap2 in *. lia.
    - rewrite Hn3. apply Hok2. apply elem_of_dom. eexists. by apply (proj1 Hcomp m l). }
  assert (∀ w4, history (app w4) = history (app w3) → in_order (applied w1) w w4) as Hord.
  { intros w4 Hh4. destruct Ho3 as (h & Hh & ? & ?). exists h. by rewrite Hh4, Hh, Happ2, Happ1. }
  apply bind_inv in H as [(e & H & ->)|([] & w4 & H4 & H)].
  { apply commit_spec in H as (? & _ & ? & _); [by split_and!; auto|done|split; [lia|done]|].
    intros x Hx Hxl. apply Hat; [done|lia]. }
  apply commit_spec in H4 as (Hi4 & Hs4 & Hh4 & Hap4); [|done|split; [lia|done]|].
  2: { intros x Hx Hxl. apply Hat; [done|lia]. }
  specialize (Hap4 eq_refl).
  destruct err as [e|]; [unfold throw in H; simplify_eq; by split_and!; auto|].
  unfold mret, M_ret in H. simplify_eq. split_and!; [done|by apply Hord|]. intros _.
  destruct Hs4 as (_ & Hg4 & Hc4); [apply Hi3|].
  eapply (live_after w (nv w1) w'); try done; [| |].
  - intros m q Hin Hmq. destruct (Hend eq_refl) as (_ & _ & Hle & _). by eapply Hle.
  - etrans; [exact Hg2|]. by rewrite <- Hn3.
  - rewrite Hc4, Hn3. by apply Hc2.
Qed.

(** *** The goroutine and everything around it *)

Definition fits (l : option local) (w : W) : Prop :=
  match l with
  | Some l => has_cons l = true → waited l = false → live w
  | None => True
  end.

Lemma quiet_fits w w' l : inv w → fits l w → quiet w w' → fits l w'.
Proof using Type. intros Hi Hf Hq. destruct l as [l|]; [|done]. intros ??. eapply live_quiet; eauto. Qed.

(** What comes after a failed [prepare] or [step]: waiting, and a new cursor. *)
Definition retry (w w' : W) (r : res (option local)) : Prop :=
  quiet w w' ∧ ∀ l, r = Ok l → fits l w'.

Lemma retry_prepare e lag (w w' : W) r :
  (fail e;; ignore (on_env (sleep (Retry cfg)));; mret (Some (MkLocal false false lag))) w = (r, w') →
  retry w w' r.
Proof using Type.
  intros H. split.
  - assert (keeps quiet (fail (NT := NT) (AT := AT) (KT := KT) e;;
      ignore (on_env (sleep (Retry cfg)));; mret (Some (MkLocal false false lag)))) as Hk by solve_keeps.
    by eapply Hk.
  - intros l ->. apply bind_ok in H as (? & ? & _ & H). apply bind_ok in H as (? & ? & _ & H).
    unfold mret, M_ret in H. by simplify_eq.
Qed.

Lemma retry_step e lag (w w' : W) r :
  (c ← ctxErr;
   match c with
   | None => fail e;; ignore (on_env (sleep (Retry cfg)))
   | Some _ => mret ()
   end;;
   mret (Some (MkLocal false false lag))) w = (r, w') → retry w w' r.
Proof using Type.
  intros H. split.
  - assert (keeps quiet (c ← ctxErr (NT := NT) (AT := AT) (KT := KT);
      match c with
      | None => fail e;; ignore (on_env (sleep (Retry cfg)))
      | Some _ => mret ()
      end;;
      mret (Some (MkLocal false false lag)))) as Hk by solve_keeps.
    by eapply Hk.
  - intros l ->. apply bind_ok in H as (? & ? & _ & H). apply bind_ok in H as (? & ? & _ & H).
    unfold mret, M_ret in H. by simplify_eq.
Qed.

Lemma in_order_quiet l w w1 w' : in_order l w w1 → quiet w1 w' → in_order l w w'.
Proof using Type. intros (h & Hh & ?) [(Ha & _) _]. exists h. by rewrite Ha. Qed.

(** The part of a turn with a cursor. *)
Lemma iter_step tries lag (w w' : W) r : inv w → live w →
  (n ← try (step cfg tries);
   match n with
   | Err e =>
       c ← ctxErr;
       match c with
       | None => fail e;; ignore (on_env (sleep (Retry cfg)))
       | Some _ => mret ()
       end;;
       mret (Some (MkLocal false false lag))
   | Ok n => lag ← refresh_lag n lag; mret (Some (MkLocal true false lag))
   end) w = (r, w') →
  inv w' ∧ in_order (applied w) w w' ∧ ∀ l, r = Ok l → fits l w'.
Proof.
  intros Hi Hl H. apply try_inv in H as (n & w1 & H1 & H).
  apply step_spec in H1 as (Hi1 & Ho1 & Hl1); [|done..]. destruct n as [n|e].
  - apply bind_inv in H as [(e & H & ->)|(lag' & w2 & H2 & H)].
    + apply refresh_lag_quiet in H. split_and!; [by eapply inv_outside, quiet_outside| |done].
      by eapply in_order_quiet.
    + apply refresh_lag_quiet in H2 as Hq. unfold mret, M_ret in H. simplify_eq.
      split_and!; [by eapply inv_outside, quiet_outside|by eapply in_order_quiet|].
      intros l [= <-]. eapply quiet_fits; [exact Hi1| |exact Hq]. intros _ _. by apply Hl1.
  - apply retry_step in H as [Hq Hf].
    split_and!; [by eapply inv_outside, quiet_outside|by eapply in_order_quiet|done].
Qed.

Lemma prepare_history (w w' : W) r : prepare cfg w = (r, w') → app w' = app w ∧ applied w' = applied w.
Proof using Type.
  set (R := λ w w' : W, app w' = app w ∧ applied w' = applied w).
  assert (PreOrder R) as HR.
  { split; [by intros ?|]. intros w1 w2 w3 [? ?] [? ?]. split; congruence. }
  assert (∀ A (c : M NT A), keeps R (on_net c)) as Hn.
  { intros A c w1 r1 w2 (_ & ? & _ & ?)%on_net_inv. by split. }
  assert (keeps R (prepare cfg)) as Hk; [|apply Hk].
  assert (∀ n, keeps R (set_streamLast n)) as Hs by (by intros n w1 r1 w2 [= <- <-]).
  unfold prepare, checkGap. solve_keeps; auto.
Qed.

(** One turn of the loop. *)
Lemma iter_spec tries l (w w' : W) r : inv w → fits (Some l) w → iter cfg tries l w = (r, w') →
  inv w' ∧ in_order (applied w) w w' ∧ ∀ l', r = Ok l' → fits l' w'.
Proof.
  intros Hi Hf H. unfold iter in H.
  apply bind_inv in H as [(e & H & ->)|(e & w1 & H1 & H)].
  { apply ctxErr_quiet in H. split_and!; [by eapply inv_outside, quiet_outside| |done].
    eapply in_order_quiet; [apply in_order_refl|done]. }
  apply ctxErr_quiet in H1 as Hq1. pose proof (inv_outside _ _ Hi (quiet_outside _ _ Hq1)) as Hi1.
  pose proof (quiet_fits _ _ _ Hi Hf Hq1) as Hf1.
  assert (app w1 = app w ∧ applied w1 = applied w) as [Ha1 Hp1] by (destruct Hq1 as [(? & _ & ? & _) _]; done).
  assert (∀ w2, quiet w1 w2 → inv w2 ∧ in_order (applied w) w w2) as Hquiet.
  { intros w2 Hq2. split; [by eapply inv_outside, quiet_outside|].
    eapply in_order_quiet; [apply in_order_refl|]. by etrans. }
  clear Hi Hf Hq1. destruct e as [e|].
  { assert (keeps quiet (finish (NT := NT) (AT := AT) (KT := KT) (ET := ET))) as Hk
      by (unfold finish; solve_keeps).
    apply Hk in H as Hq. destruct (Hquiet _ Hq). split_and!; [done..|]. intros l' ->.
    unfold finish in H. apply bind_ok in H as (? & ? & _ & H). apply bind_ok in H as (? & ? & _ & H).
    unfold mret, M_ret in H. by simplify_eq. }
  apply bind_inv in H as [(e & [=] & _)|(w1' & w2 & [= <- <-] & H)].
  destruct (paused w1).
  { apply bind_inv in H as [(e & [=] & _)|([] & w2 & H2 & H)]. apply set_flags_quiet in H2 as Hq2.
    unfold mret, M_ret in H. simplify_eq. destruct (Hquiet _ Hq2). split_and!; [done..|].
    by intros l' [= <-]. }
  apply bind_inv in H as [(e & [=] & _)|([] & w2 & H2 & H)]. apply set_flags_quiet in H2 as Hq2.
  destruct (Hquiet _ Hq2) as [Hi2 _]. pose proof (quiet_fits _ _ _ Hi1 Hf1 Hq2) as Hf2.
  assert (app w2 = app w ∧ applied w2 = applied w) as [Ha2 Hp2].
  { destruct Hq2 as [(? & _ & ? & _) _]. split; congruence. }
  clear Hquiet. cbv zeta in H.
  apply bind_inv in H as [(e & H & ->)|(p & w3 & H3 & H)].
  { destruct (has_cons l && negb (waited l)); [done|]. unfold try in H. by destruct (prepare cfg w2). }
  assert (inv w3 ∧ app w3 = app w ∧ applied w3 = applied w ∧ (is_ok p = true → live w3))
    as (Hi3 & Ha3 & Hp3 & Hl3).
  { destruct (has_cons l && negb (waited l)) eqn:Hc.
    - unfold mret, M_ret in H3. simplify_eq. split_and!; [done..|]. intros _.
      apply andb_true_iff in Hc as [? ?%negb_true_iff]. by apply Hf2.
    - unfold try in H3. destruct (prepare cfg w2) as [p' w3'] eqn:Hp. simplify_eq.
      pose proof (prepare_history _ _ _ Hp) as [? ?]. apply prepare_spec in Hp as [? ?]; [|done].
      split_and!; [done|congruence|congruence|done]. }
  destruct p as [[]|e].
  - apply iter_step in H as (? & Ho & ?); [|done|by apply Hl3]. split_and!; [done| |done].
    destruct Ho as (h & Hh & Ho). exists h. by rewrite Hh, Ha3, <- Hp3.
  - apply retry_prepare in H as [Hq Hf3]. split_and!; [by eapply inv_outside, quiet_outside| |done].
    destruct Hq as [(Ha & _) _]. exists []. rewrite Ha, Ha3, app_nil_r. split_and!; [done|constructor..].
Qed.

(** The process dies: what was not durable is lost, and so is the cursor; the saved
    offset is there. *)
Definition crash (w w0 : W) : Prop :=
  (view_ok (nv w) → view_ok (nv w0) ∧ idles (nv w) (nv w0)) ∧ saved (kv w0) = saved (kv w) ∧
  durable (app w) ⊆ durable (app w0) ∧ rejected (app w) ⊆ rejected (app w0) ∧ running w0 = false.

(** Turns of the loop, other goroutines, the outside, and crashes with a restart. *)
Inductive turn : W * option local → W * option local → Prop :=
| turn_iter tries l w r w' : iter cfg tries l w = (Ok r, w') → turn (w, Some l) (w', r)
| turn_pause l w w' : Pause w = (Ok (), w') → turn (w, l) (w', l)
| turn_resume l w w' : Resume w = (Ok (), w') → turn (w, l) (w', l)
| turn_outside l w w' : quiet w w' → turn (w, l) (w', l)
| turn_restart l w w0 w' : crash w w0 → Start w0 = (Ok (), w') →
    turn (w, l) (w', Some (MkLocal false false time_zero)).

Lemma Start_spec (w w' : W) n : saved (kv w) = Some n → Start w = (Ok (), w') →
  net w' = net w ∧ app w' = app w ∧ kv w' = kv w ∧ applied w' = n.
Proof using Type.
  intros Hs H. unfold Start in H. apply bind_ok in H as (w1 & w2 & [= <- <-] & H).
  destruct (running w); [done|]. apply bind_ok in H as (off & w3 & Hl & H).
  apply annotate_ok in Hl. unfold on_kv, zoom in Hl.
  destruct (Load (kv w)) as [x k'] eqn:E. simplify_eq. apply Load_law in E as [-> Hlo].
  unfold set_applied, set_flags, modify, mbind, M_bind in H. simplify_eq/=.
  split_and!; try done. all: congruence.
Qed.

Lemma turn_inv s s' : inv s.1 → fits s.2 s.1 → turn s s' → inv s'.1 ∧ fits s'.2 s'.1.
Proof.
  intros Hi Hf Ht. destruct Ht as [tries l w r w' H|l w w' H|l w w' H|l w w' Hq|l w w0 w' Hc H];
    cbn [fst snd] in *.
  - apply iter_spec in H as (? & _ & ?); auto.
  - assert (quiet w w') as Hq by (by apply set_flags_quiet in H).
    split; [by eapply inv_outside, quiet_outside|by eapply quiet_fits].
  - assert (quiet w w') as Hq by (by apply set_flags_quiet in H).
    split; [by eapply inv_outside, quiet_outside|by eapply quiet_fits].
  - split; [by eapply inv_outside, quiet_outside|by eapply quiet_fits].
  - split; [|done]. destruct Hi as (Hok & n & Hs & Ha & Hn & Hx).
    destruct Hc as (Hv & Hs0 & Hd & Hr & _). destruct (Hv Hok) as (Hok0 & [Hg _]). pose proof Hg as (_ & ? & _).
    rewrite <- Hs0 in Hs. apply (Start_spec _ _ _ Hs) in H as (A & B & C & D).
    split; [by rewrite A|]. exists n. rewrite A, C, D. split_and!; [done|lia|lia|lia|].
    rewrite <- A. eapply (covered_upto w); [done|by rewrite A|by rewrite B..|done].
Qed.

Lemma turns_inv w l w' l' : inv w → fits l w → rtc turn (w, l) (w', l') → inv w'.
Proof.
  intros Hi Hf Hr. remember (w, l) as s eqn:Hs. remember (w', l') as s' eqn:Hs'.
  assert (inv s.1) as Hi1 by (by rewrite Hs). assert (fits s.2 s.1) as Hf1 by (by rewrite Hs).
  assert (inv s'.1) as Hi2; [|by rewrite Hs' in Hi2]. clear Hs Hs' Hi Hf.
  induction Hr as [s|s1 s2 s3 Ht Hr IH]; [done|].
  destruct (turn_inv _ _ Hi1 Hf1 Ht). by apply IH.
Qed.

(** C9: at every moment, through batches, errors, pauses, crashes and restarts, every
    message of the stream up to the saved offset is durable, or was refused for good, or
    cannot be decoded, or was lost on the way to the consumer: the cursor of the server
    passed it without its being in a batch that reached the node
    ([lost_delivery_skipped] is such a run), or, only where gaps are allowed, the stream
    had dropped it. *)
Theorem consumer_safe w l w' l' : inv w → fits l w → rtc turn (w, l) (w', l') → inv w'.
Proof. apply turns_inv. Qed.

(** C20: what a turn applies, it applies in the order of the
    stream, each message at most once and only messages behind the saved position. *)
Theorem consumer_in_order tries l (w w' : W) r : inv w → fits (Some l) w →
  iter cfg tries l w = (r, w') → in_order (applied w) w w'.
Proof. intros Hi Hf H. by apply iter_spec in H as (_ & ? & _). Qed.
End safe.

(** ** Pausing *)

Section pause.
Context {NT AT KT ET : Type} `{!JetStream NT, !Applier AT, !OffsetStore KT, !Clock ET, !Waiting ET}.
#[local] Abbreviation W := (node NT AT KT ET).

(** [paused_frozen]: while the consumer is paused, a turn of its loop touches
    neither the data nor the offset nor the stream; the consumer is then parked, or
    has stopped, and [Pause] returns. *)
Theorem paused_frozen cfg tries l (w w' : W) r : paused w = true → iter cfg tries l w = (r, w') →
  app w' = app w ∧ kv w' = kv w ∧ net w' = net w ∧ applied w' = applied w ∧ paused w' = true ∧
  Pause_returns w' = (Ok true, w').
Proof using Type.
  intros Hp H. unfold iter, ctxErr, on_env, zoom, gets, mbind, M_bind in H. simpl in H.
  destruct (ctx_Err (env w)) as [e|]; unfold finish, get_state, set_flags, modify, mbind, M_bind, mret, M_ret in H;
    simpl in H; rewrite ?Hp in H; simplify_eq/=; unfold Pause_returns, gets; simpl;
    split_and!; try done. by destruct (running w).
Qed.
End pause.

(** ** Witnesses and a defect *)

Module ConsumerDemo.
(** A stream of one message; the state is the position of the cursor. *)
Definition body : option json :=
  Some (JObj [("kind", JStr "doc"); ("index", JStr "logs"); ("doc", JObj [("a", JNum "1")])]).

#[export] Instance one_stream : JetStream Z := {|
  js_Stream _ := mret ();
  stream_Info := mret (MkStreamInfo 1 1 1);
  DeleteConsumer _ := mret ();
  CreateConsumer c := modify (λ _, default 1 (OptStartSeq c));
  Fetch _ _ := λ c, if c =? 1 then (Ok ([MkMsg (Ok 1) body], None), 2)
                    else (Ok ([], Some ErrTimeout), c);
  Ack _ := mret ();
|}.

Definition one_view (c : Z) : stream_view := MkView {[1 := body]} 1 1 c ∅.

Lemma one_idles c c' : idles (one_view c) (one_view c').
Proof. split; [|done]. split_and!; try done. simpl. intros x ?. by left. Qed.
Lemma one_delivered c c' msgs : c ≤ c' ≤ 2 → (c ≤ 1 < c' → in_batch msgs 1 = true) →
  (∀ m q, m ∈ msgs → Metadata m = Ok q → MsgData m = body ∧ q = 1 ∧ 1 < c') →
  delivered (one_view c) (one_view c') msgs.
Proof.
  intros Hc Hb Hm. split_and!; simpl; [lia| | |].
  - intros m q Hin Hq. destruct (Hm m q Hin Hq) as (-> & -> & ?). split_and!; [done|lia|lia].
  - intros pre m post q x -> Hq (m' & Hin & Hx)%in_batch_true Hlt.
    destruct (Hm m' x Hin Hx) as (_ & -> & _). destruct (Hm m q) as (_ & -> & _); [|done|lia].
    apply elem_of_app. right. by left.
  - intros x. split; [by intros ?%elem_of_empty|]. intros [?%elem_of_empty|(Hx & Hlt & Hn & Hf)]; [done|].
    rewrite dom_singleton, elem_of_singleton in Hx. subst x. by rewrite Hb in Hn.
Qed.

#[export] Instance one_laws : StreamLaws Z.
Proof.
  assert (∀ c, c ≤ 2 → view_ok (one_view c)) as Hok.
  { intros c Hc. split_and!; simpl; try lia. intros x Hx.
    rewrite dom_singleton, elem_of_singleton in Hx. lia. }
  refine {| view := one_view |}; simpl; unfold mret, M_ret, modify.
  - intros name s r s' H [= <- <-]. split; [done|apply one_idles].
  - intros s r s' H [= <- <-]. split; [done|]. split; [apply one_idles|]. by split_and!.
  - intros name s r s' H [= <- <-]. split; [done|apply one_idles].
  - intros c s r s' H Hc [= <- <-]. split; [apply Hok; simpl in Hc; lia|]. by split; [apply one_idles|].
  - intros n t s r s' H Hf. destruct (Z.eqb_spec s 1) as [->|Hs]; simplify_eq.
    + split; [apply Hok; lia|]. split; [apply one_idles|]. apply one_delivered; [lia|done|].
      intros m q ->%list_elem_of_singleton [= <-]. done.
    + split; [done|]. split; [apply one_idles|]. destruct H as (_ & Hc & _). simpl in Hc.
      apply one_delivered; [lia|lia|by intros m q ?%elem_of_nil].
  - intros m s r s' H [= <- <-]. split; [done|]. by split; [apply one_idles|].
Defined.

(** An applier that is durable at once. *)
#[export] Instance log_app : Applier (list Z) := {|
  Apply seq := on_fst (modify (λ h, h ++ [seq])); Flush := mret () |}.
#[export] Instance log_laws : ApplierLaws (list Z).
Proof.
  refine {| durable h := list_to_set h; pending _ := ∅; rejected _ := ∅; history h := h |};
    simpl; unfold mret, M_ret, modify.
  - intros seq m a r a' m' [= <- <- <-]. rewrite list_to_set_app_L. set_solver.
  - intros a r a' [= <- <-]. set_solver.
Defined.

#[export] Instance mem_kv : MetadataKV (gmap string string) := {|
  KV_Get key := λ k, (of_option ErrKeyNotFound (k !! key), k);
  KV_Set key v := modify (<[key := v]>) |}.
#[export] Instance mem_kv_laws : KVLaws (gmap string string).
Proof.
  refine {| kv_view k := k |}; simpl; unfold modify.
  - intros key k r k' [= <- <-]. split; [done|]. by destruct (k !! key).
  - intros key v k r k' [= <- <-]. by left.
Defined.

#[export] Instance env_clock : Clock Z := {| tick t := (t, t + 1) |}.
#[export] Instance env_wait : Waiting Z := {| ctx_Err _ := None; sleep _ := mret true |}.
#[export] Instance env_wait_laws : WaitingLaws Z.
Proof. by split. Qed.

Definition config : Config := MkConfig "nats://n" "logs" "" "a" 256 second second false.
Definition w0 : node Z (list Z) (gmap string string) Z :=
  MkNode 0 0 0 0 false false true "" 0 1 [] ∅ 1.
Definition l0 : local := MkLocal false false time_zero.

Lemma w0_inv : inv config w0.
Proof.
  split; [|exists 0; split_and!; try done; simpl; try lia].
  - split_and!; simpl; try lia. intros x Hx. rewrite dom_singleton, elem_of_singleton in Hx. lia.
  - intros x Hx. rewrite dom_singleton, elem_of_singleton in Hx. lia.
Qed.

(** What the turn leaves, as far as it is shown. *)
Lemma after_spec r w' : iter config 3 l0 w0 = (r, w') →
  is_ok r = true ∧ applied w' = 1 ∧ app w' = [1] ∧ saved (kv w') = Some 1.
Proof.
  intros E. change (is_ok (r, w').1 = true ∧ applied (r, w').2 = 1 ∧ app (r, w').2 = [1] ∧
    saved (kv (r, w').2) = Some 1). rewrite <- E. by vm_compute.
Qed.

Lemma consumer_safe_witness : ∃ w' : node Z (list Z) (gmap string string) Z,
  inv config w' ∧ applied w' = 1 ∧ saved (kv w') = Some 1.
Proof.
  destruct (iter config 3 l0 w0) as [r0 w'] eqn:E. destruct (after_spec _ _ E) as (Hok & Ha & _ & Hs).
  destruct r0 as [r|e]; [|done]. exists w'.
  assert (fits (Some l0) w0) as Hf by done.
  split_and!; [|done|done].
  exact (consumer_safe config w0 (Some l0) w' r w0_inv Hf
    (rtc_once _ _ (turn_iter config 3 l0 w0 r w' E))).
Defined.

Lemma consumer_in_order_witness : ∃ w' : node Z (list Z) (gmap string string) Z,
  app w' = [1] ∧ in_order 0 w0 w'.
Proof.
  destruct (iter config 3 l0 w0) as [r w'] eqn:E. destruct (after_spec _ _ E) as (_ & _ & Ha & _).
  exists w'.
  assert (fits (Some l0) w0) as Hf by done.
  split; [done|]. exact (consumer_in_order config 3 l0 w0 w' r w0_inv Hf E).
Defined.

Lemma paused_frozen_witness : ∃ w' : node Z (list Z) (gmap string string) Z,
  parked w' = true ∧ app w' = [] ∧ Pause_returns w' = (Ok true, w').
Proof.
  destruct (Pause w0) as [u w1] eqn:Ep.
  assert (w1 = (Pause w0).2) as Hw by (by rewrite Ep).
  destruct (iter config 3 l0 w1) as [r w'] eqn:E. exists w'.
  assert (paused w1 = true) as Hp by (by rewrite Hw).
  destruct (paused_frozen config 3 l0 w1 w' r Hp E) as (Ha & _ & _ & _ & _ & Hr).
  split_and!; [|by rewrite Ha, Hw|done].
  change w' with (r, w').2. rewrite <- E, Hw. by vm_compute.
Defined.

Lemma offset_roundtrip_witness : ∃ k k' : gmap string string,
  KVOffset_Save 42 ∅ = (Ok (), k) ∧ KVOffset_Load k = (Ok 42, k').
Proof.
  assert (is_ok (KVOffset_Save (KT := gmap string string) 42 ∅).1 = true ∧
          is_ok (KVOffset_Load (KVOffset_Save (KT := gmap string string) 42 ∅).2).1 = true) as [H1 H2]
    by (by vm_compute).
  destruct (KVOffset_Save (KT := gmap string string) 42 ∅) as [[[]|] k] eqn:Es; [|done].
  simpl in H2. destruct (KVOffset_Load k) as [[n|] k'] eqn:El; [|done].
  exists k, k'. assert (is_u64 42) as H42 by (by vm_compute).
  destruct (offset_roundtrip 42 (∅ : gmap string string) k n k' H42 Es El) as [-> _]. done.
Defined.

(** A client that loses what the server delivered first: the stream holds messages 6
    to 8, and the batch that reaches the node starts with 8. The state is the number
    of fetches. *)
Module Lossy.
#[local] Instance lossy_stream : JetStream nat := {|
  js_Stream _ := mret ();
  stream_Info := mret (MkStreamInfo 6 8 3);
  DeleteConsumer _ := mret ();
  CreateConsumer _ := mret ();
  Fetch _ _ := λ k, match k with
                    | O => (Ok ([], Some ErrTimeout), Datatypes.S k)
                    | _ => (Ok ([MkMsg (Ok 8) body], None), Datatypes.S k)
                    end;
  Ack _ := mret ();
|}.

Definition w5 : node nat (list Z) (gmap string string) Z :=
  MkNode 5 8 5 0 false false true "" 0 O [1; 2; 3; 4; 5] {[OffsetKey := "5"]} 1.

(** [lost_delivery_skipped]: [step] takes a first message that does not follow the
    saved position when the stream still reaches back to that position: the messages
    between are never applied, and the saved offset moves past them. *)
Theorem lost_delivery_skipped :
  let '(r, w1) := iter config 3 l0 w5 in
  match r with
  | Ok (Some l1) =>
      let '(r', w2) := iter config 3 l1 w1 in
      is_ok r' = true ∧ app w2 = [1; 2; 3; 4; 5; 8] ∧ saved (kv w2) = Some 8 ∧ lastErr w2 = ""
  | _ => False
  end.
Proof. by vm_compute. Qed.
End Lossy.
End ConsumerDemo.
