(* ===== verification/Mappings.v ===== *)
(** The mappings of an index (pkg/meta/mappings.go, pkg/uquery/mappings/mappings.go and
    sql.go, Index.SetMappings of pkg/core/index.go).

    A Go map is a [gmap]; a map that comes from JSON is the list of its members in the
    order in which [range] visits them, so a theorem about every list is about every
    order. A type assertion that fails is the error [Panic]. [Request] recurses into
    sub-objects with the depth of the request as fuel. *)
From S2P Require Import Prelude Strings Wire.
#[local] Open Scope Z_scope.

(** A run-time panic that nothing recovers. *)
Definition Panic (what : string) : error := sentinel "panic" what.
Definition is_panic (e : error) : bool := errors_Is e (Panic "").

(** ** pkg/meta/mappings.go *)

Record Options := MkOptions {
  Type_ : string; Analyzer : string; SearchAnalyzer : string; Format : string;
  TimeZone : string; Indexed : bool; Stored : bool; Sortable : bool; Aggregatable : bool;
  Highlightable : bool }.

#[export] Instance Options_eq_dec : EqDecision Options.
Proof. solve_decision. Defined.

(** [None] is the nil map of sub-fields. *)
Inductive Property :=
| MkProperty (options : Options) (fields : option (gmap string Property)).

#[export] Instance Property_eq_dec : EqDecision Property.
Proof.
  refine (fix go p q := let _ : EqDecision Property := @go in
    match p, q with
    | MkProperty o f, MkProperty o' f' => cast_if_and (decide (o = o')) (decide (f = f'))
    end); abstract congruence.
Defined.

Definition options (p : Property) : Options := let 'MkProperty o _ := p in o.
Definition Fields (p : Property) : option (gmap string Property) := let 'MkProperty _ f := p in f.

Abbreviation Mappings := (gmap string Property).

(** The zero value of the struct. *)
Definition zero_Property : Property :=
  MkProperty (MkOptions "" "" "" "" "" false false false false false) None.

Definition NewProperty (typ : string) : Property :=
  let text := bool_decide (typ = "text") in
  MkProperty (MkOptions typ "" "" "" "" true false (negb text) (negb text) false) (Some ∅).

Definition AddField (p : Property) (field : string) (value : Property) : Property :=
  MkProperty (options p)
    (Some (<[field := MkProperty (options value) None]> (default ∅ (Fields p)))).

(** [DeepClone] with the sub-fields cloned by [clone]: the time zone is not copied. *)
Fixpoint DeepClone (p : Property) : Property :=
  let o := options p in
  MkProperty (MkOptions (Type_ o) (Analyzer o) (SearchAnalyzer o) (Format o) "" (Indexed o)
                (Stored o) (Sortable o) (Aggregatable o) (Highlightable o))
    (let 'MkProperty _ f := p in
     match f with Some f => Some (DeepClone <$> f) | None => None end).

Definition set_options (f : Options → Options) (p : Property) : Property :=
  MkProperty (f (options p)) (Fields p).

(** ** Index.SetMappings *)

Definition TimeFieldName : string := "@timestamp".

(** Analyzers are for text fields only. *)
Definition only_text (p : Property) : Property :=
  if decide (Type_ (options p) = "text") then p
  else set_options (λ o, MkOptions (Type_ o) "" "" (Format o) (TimeZone o) (Indexed o)
         (Stored o) (Sortable o) (Aggregatable o) (Highlightable o)) p.

Definition aggregated (p : Property) : Property :=
  set_options (λ o, MkOptions (Type_ o) (Analyzer o) (SearchAnalyzer o) (Format o)
    (TimeZone o) true (Stored o) true true (Highlightable o)) p.

(** What the argument becomes: it is changed in place. *)
Definition complete_mappings (m : Mappings) : Mappings :=
  let m := <["_id" := NewProperty "keyword"]> (only_text <$> m) in
  <[TimeFieldName := aggregated (default (NewProperty "date") (m !! TimeFieldName))]> m.

(** The mappings of the index afterwards: fields are added or replaced, none goes. *)
Definition SetMappings (old m : option Mappings) : Mappings :=
  complete_mappings (default ∅ m) ∪ default ∅ old.

(** ** Requests (pkg/uquery/mappings) *)

Definition zerr (typ reason : string) : error :=
  errors_New ("type: " +:+ typ +:+ ", reason: " +:+ reason).
Definition parsing (reason : string) : error := zerr "parsing_exception" ("[mappings] " +:+ reason).

Fixpoint lookup_obj (k : string) (o : obj) : option json :=
  match o with
  | [] => None
  | (k', v) :: o => if decide (k = k') then Some v else lookup_obj k o
  end.

Definition assert_str (j : json) : res string :=
  match j with JStr s => Ok s | _ => Err (Panic "interface conversion: interface {} is not string") end.
Definition assert_bool (j : json) : res bool :=
  match j with JBool b => Ok b | _ => Err (Panic "interface conversion: interface {} is not bool") end.

(** What a request depends on: the configuration, the SQL parser (the columns of the
    one CREATE TABLE of a text), analyzers by name, time zones by name, and the
    decoding of sub-fields by encoding/json. *)
Class RequestEnv := {
  EnableSQLMappings : bool;
  EnableTextKeywordMapping : bool;
  ParseStrictDDL : string → res (option (list (string * string)));
  QueryAnalyzer : string → option error;
  LoadLocation : string → option error;
  Unmarshal_Properties : obj → res (gmap string Property);
}.

Section request.
Context {renv : RequestEnv}.

(** [zutils.ParseTimeZone], as far as its error goes. *)
Definition ParseTimeZone (name : string) : option error :=
  match name with
  | String c _ => if bool_decide (c ∈ ["+"; "-"]%char) then None
                  else if bool_decide (to_lower name ∈ ["utc"; "local"]) then None
                  else LoadLocation name
  | "" => None
  end.

(** *** SQL *)

Definition sql_type (typ : string) : option (list (string * json)) :=
  let one_of l := bool_decide (typ ∈ l) in
  let t name := [("type", JStr name)] in
  if one_of ["char"; "varchar"; "enum"; "set"; "time"] then Some (t "keyword")
  else if one_of ["tinytext"; "text"; "mediumtext"; "longtext"] then Some (t "text")
  else if one_of ["tinyint"; "smallint"; "mediumint"; "int"; "integer"; "bigint"; "decimal";
              "numeric"; "float"; "double"; "real"; "year"; "bit"] then Some (t "numeric")
  else if one_of ["bool"; "boolean"] then Some (t "bool")
  else if one_of ["date"] then Some [("type", JStr "date"); ("format", JStr "2006-01-02")]
  else if one_of ["datetime"; "timestamp"] then
    Some [("type", JStr "date"); ("format", JStr "2006-01-02 15:04:05")]
  else if one_of ["json"] then Some (t "object")
  else None.

Fixpoint sql_columns (cols : list (string * string)) (seen : gset string) (acc : obj) : res obj :=
  match cols with
  | [] => Ok acc
  | (name, typ) :: cols =>
      let key := to_lower name in
      if bool_decide (name = "") || bool_decide (key ∈ seen) then
        Err (errors_New ("empty or duplicate SQL column [" +:+ name +:+ "]"))
      else match sql_type (to_lower typ) with
           | None => Err (errors_New ("SQL column [" +:+ name +:+ "] has unsupported type [" +:+
                                      to_lower typ +:+ "]"))
           | Some prop => sql_columns cols ({[key]} ∪ seen) (obj_set name (JObj prop) acc)
           end
  end.

Definition sqlProperties (ddl : string) : res obj :=
  match ParseStrictDDL ddl with
  | Err e => Err (wrap "invalid MySQL CREATE TABLE: " e "")
  | Ok None | Ok (Some []) =>
      Err (errors_New "sql must contain one CREATE TABLE with explicit columns")
  | Ok (Some cols) => sql_columns cols ∅ []
  end.

(** *** One property *)

(** The property a type name stands for; [zero_Property] for a type that is ignored. *)
Definition type_property (field typ : string) : res Property :=
  let one_of l := bool_decide (typ ∈ l) in
  if one_of ["text"] then
    Ok (if EnableTextKeywordMapping then AddField (NewProperty "text") "keyword" (NewProperty "keyword")
        else NewProperty "text")
  else if one_of ["keyword"; "numeric"; "bool"; "date"] then Ok (NewProperty typ)
  else if one_of ["constant_keyword"] then Ok (NewProperty "keyword")
  else if one_of ["match_only_text"] then Ok (NewProperty "text")
  else if one_of ["integer"; "double"; "long"; "short"; "int"; "float"] then Ok (NewProperty "numeric")
  else if one_of ["boolean"] then Ok (NewProperty "bool")
  else if one_of ["time"; "datetime"] then Ok (NewProperty "date")
  else if one_of ["flattened"; "object"; "nested"; "wildcard"; "byte"; "alias"; "geo_point"; "ip";
              "ip_range"; "scaled_float"] then Ok zero_Property
  else Err (zerr "x_content_parse_exception" ("[mappings] properties [" +:+ field +:+
                                               "] doesn't support type [" +:+ typ +:+ "]")).

Definition set_option (field : string) (p : Property) (kv : string * json) : res Property :=
  let '(k, v) := kv in
  let o := options p in
  let '(MkOptions ty an sa fo tz ix st so ag hi) := o in
  let put o := Ok (MkProperty o (Fields p)) in
  if decide (k = "analyzer") then s ← assert_str v; put (MkOptions ty s sa fo tz ix st so ag hi)
  else if decide (k = "search_analyzer") then
    s ← assert_str v; put (MkOptions ty an s fo tz ix st so ag hi)
  else if decide (k = "format") then s ← assert_str v; put (MkOptions ty an sa s tz ix st so ag hi)
  else if decide (k = "time_zone") then
    s ← assert_str v;
    match ParseTimeZone s with
    | Some e => Err (parsing (field +:+ " time_zone parse err " +:+ err_text e))
    | None => put (MkOptions ty an sa fo s ix st so ag hi)
    end
  else if decide (k = "index") then b ← assert_bool v; put (MkOptions ty an sa fo tz b st so ag hi)
  else if decide (k = "store") then b ← assert_bool v; put (MkOptions ty an sa fo tz ix b so ag hi)
  else if decide (k = "sortable") then b ← assert_bool v; put (MkOptions ty an sa fo tz ix st b ag hi)
  else if decide (k = "aggregatable") then
    b ← assert_bool v; put (MkOptions ty an sa fo tz ix st so b hi)
  else if decide (k = "highlightable") then
    b ← assert_bool v; put (MkOptions ty an sa fo tz ix st so ag b)
  else Ok p.

(** A highlightable field is stored. *)
Definition store_highlight (p : Property) : Property :=
  set_options (λ o, MkOptions (Type_ o) (Analyzer o) (SearchAnalyzer o) (Format o) (TimeZone o)
    (Indexed o) (Highlightable o || Stored o) (Sortable o) (Aggregatable o) (Highlightable o)) p.

Definition not_exists : error := parsing "properties [type] should be exists".
Definition not_string : error := parsing "properties [type] should be a string".

Definition check_type (v : option json) : res string :=
  match v with
  | None => Err not_exists
  | Some (JStr s) => Ok s
  | Some _ => Err not_string
  end.

(** The sub-fields of a request: an object whose object members have a type. *)
Definition request_fields (field : string) (prop : obj) : res obj :=
  match lookup_obj "fields" prop with
  | None => Ok []
  | Some (JObj fs) =>
      fold_res (λ _ kv, match kv.2 with
                        | JObj sub => _ ← check_type (lookup_obj "type" sub); Ok ()
                        | _ => Ok ()
                        end) () fs;;
      Ok fs
  | Some _ => Err (parsing ("property.fields [" +:+ field +:+ "] should be an object"))
  end.

Definition convertToField (v : obj) : res (gmap string Property) :=
  match v with [] => Ok ∅ | _ => Unmarshal_Properties v end.

Definition check_analyzer (name : string) : res () :=
  if decide (name = "") then Ok ()
  else match QueryAnalyzer name with Some e => Err e | None => Ok () end.

(** A property without sub-properties: its effect on the mappings. *)
Definition request_leaf (m : Mappings) (field : string) (prop : obj) : res Mappings :=
  fs ← request_fields field prop;
  typ ← check_type (lookup_obj "type" prop);
  p ← type_property field (to_lower typ);
  p ← fold_res (set_option field) p prop;
  let p := store_highlight p in
  if decide (Type_ (options p) = "") then Ok m
  else if decide (Type_ (options p) = "text") then
    fields ← convertToField fs;
    check_analyzer (Analyzer (options p));;
    check_analyzer (SearchAnalyzer (options p));;
    let p := map_fold (λ k v p, AddField p k v) p fields in
    Ok (map_fold (λ k v m, <[field +:+ "." +:+ k := v]> m) (<[field := p]> m) fields)
  else Ok (<[field := p]> m).

(** *** A request *)

Definition OutOfFuel : error := errors_New "out of fuel".

Fixpoint Request (fuel : nat) (data : obj) : res (option Mappings) :=
  match fuel with
  | O => Err OutOfFuel
  | S fuel =>
      match data with
      | [] => Ok None
      | _ =>
      match lookup_obj "sql" data with
      | Some sql =>
          if negb EnableSQLMappings then Err (parsing "SQL mappings are disabled")
          else if negb (bool_decide (length data = 1%nat)) then
            Err (parsing "sql cannot be combined with other mapping options")
          else match sql with
               | JStr ddl =>
                   if decide (TrimSpace ddl = "") then Err (parsing "sql should be a non-empty string")
                   else match sqlProperties ddl with
                        | Err e => Err (parsing (err_text e))
                        | Ok ps => Request fuel [("properties", JObj ps)]
                        end
               | _ => Err (parsing "sql should be a non-empty string")
               end
      | None =>
          match lookup_obj "properties" data with
          | None | Some JNull => Err (parsing "properties should be defined")
          | Some (JObj ps) =>
              m ← fold_res (λ m kv,
                    let '(field, prop) := (kv : string * json) in
                    match prop with
                    | JObj prop =>
                        match lookup_obj "properties" prop with
                        | Some (JObj _) =>
                            sub ← Request fuel prop;
                            Ok (map_fold (λ k v m, <[field +:+ "." +:+ k := v]> m) m (default ∅ sub))
                        | Some _ => Err (parsing ("properties [" +:+ field +:+ "] should be an object"))
                        | None => request_leaf m field prop
                        end
                    | _ => Err (parsing ("properties [" +:+ field +:+ "] should be an object"))
                    end) (∅ : Mappings) ps;
              Ok (Some m)
          | Some _ => Err (parsing "properties should be an object")
          end
      end
      end
  end.

(** The depth of a value: sub-objects are shallower. *)
Fixpoint depth (j : json) : nat :=
  match j with
  | JArr l => S (list_max (depth <$> l))
  | JObj o => S (list_max ((λ kv, depth kv.2) <$> o))
  | _ => 1
  end.

(** The fuel of a request; the objects made from SQL are at most four deep. *)
Definition request (data : obj) : res (option Mappings) := Request (depth (JObj data) + 4) data.
End request.

(** ** Requests *)

Section request_proofs.
Context {renv : RequestEnv}.

Lemma fold_res_ext {A B} (f g : A → B → res A) l a :
  (∀ a b, b ∈ l → f a b = g a b) → fold_res f a l = fold_res g a l.
Proof.
  revert a. induction l as [|b l IH]; intros a H; [done|]. simpl. rewrite H by (by left).
  destruct (g a b); [|done]. apply IH. intros ???. apply H. by right.
Qed.

Lemma fold_res_inv {A B} (P : A → Prop) (f : A → B → res A) l a r :
  P a → (∀ a b a', b ∈ l → P a → f a b = Ok a' → P a') → fold_res f a l = Ok r → P r.
Proof.
  revert a. induction l as [|b l IH]; intros a Ha Hf H; simpl in H; [by simplify_eq|].
  destruct (f a b) as [a'|] eqn:E; [|done]. eapply IH, H; [by eapply Hf; [left|..]|].
  intros a1 b1 a2 ?. apply Hf. by right.
Qed.

Lemma depth_cons kv o : depth (JObj (kv :: o)) = Nat.max (S (depth kv.2)) (depth (JObj o)).
Proof. reflexivity. Qed.

Lemma lookup_obj_depth k o v : lookup_obj k o = Some v → (depth v < depth (JObj o))%nat.
Proof.
  induction o as [|[k2 v2] o IH]; [done|]. rewrite depth_cons. simpl lookup_obj. simpl snd.
  case_decide; [intros [= ->]; lia|]. intros Hl%IH. lia.
Qed.

Lemma elem_of_depth (kv : string * json) o : kv ∈ o → (depth kv.2 < depth (JObj o))%nat.
Proof.
  induction o as [|kv2 o IH]; [by intros ?%elem_of_nil|].
  rewrite depth_cons. intros [->|Hl%IH]%elem_of_cons; lia.
Qed.

(** Objects made from SQL have no sub-objects with properties. *)
Definition flat (ps : obj) : Prop :=
  ∀ kv, kv ∈ ps → ∃ prop, kv.2 = JObj prop ∧ lookup_obj "properties" prop = None.

Lemma obj_set_flat k prop o : flat o → lookup_obj "properties" prop = None → flat (obj_set k (JObj prop) o).
Proof.
  intros Ho Hp. induction o as [|[k' v'] o IH]; simpl.
  - intros kv ->%list_elem_of_singleton. eauto.
  - assert (flat o) as Ho' by (intros kv ?; apply Ho; by right). case_decide; intros kv [->|Hk]%elem_of_cons.
    + eauto.
    + by apply Ho'.
    + apply Ho. by left.
    + by apply IH.
Qed.

Lemma sql_type_flat typ prop : sql_type typ = Some prop → lookup_obj "properties" prop = None.
Proof. unfold sql_type. intros. repeat case_match; by simplify_eq. Qed.

Lemma sql_columns_flat cols seen acc r : flat acc → sql_columns cols seen acc = Ok r → flat r.
Proof.
  revert seen acc. induction cols as [|[n t] cols IH]; intros seen acc Ha H; simpl in H; [by simplify_eq|].
  destruct (_ || _); [done|]. destruct (sql_type _) as [prop|] eqn:E; [|done].
  eapply IH, H. apply obj_set_flat; [done|by eapply sql_type_flat].
Qed.

Lemma sqlProperties_flat ddl r : sqlProperties ddl = Ok r → flat r.
Proof.
  unfold sqlProperties. destruct (ParseStrictDDL ddl) as [[[|? ?]|]|]; [done| |done..].
  apply sql_columns_flat. by intros kv ?%elem_of_nil.
Qed.

Lemma Request_flat f1 f2 ps : flat ps →
  Request (S f1) [("properties", JObj ps)] = Request (S f2) [("properties", JObj ps)].
Proof.
  intros Hp. simpl. f_equal. apply fold_res_ext. intros m [k v] Hkv.
  destruct (Hp _ Hkv) as (prop & Hv & Hl). simpl in Hv. subst v. by rewrite Hl.
Qed.

(** [Request_terminates]: the recursion of a request ends within its depth: more
    fuel than [request] gives never changes the answer. *)
Theorem Request_terminates fuel data :
  (depth (JObj data) + 4 ≤ fuel)%nat → Request fuel data = request data.
Proof.
  unfold request. remember (depth (JObj data) + 4)%nat as f2 eqn:Hf2.
  assert (depth (JObj data) + 4 ≤ f2)%nat as H2 by lia. clear Hf2. intros H1.
  revert data f2 H1 H2. induction fuel as [|f1 IH]; intros data f2 H1 H2; [lia|].
  destruct f2 as [|f2]; [lia|]. cbn [Request]. destruct data as [|kv data']; [done|].
  set (data := kv :: data') in *. clearbody data. clear kv data'.
  destruct (lookup_obj "sql" data) as [sql|].
  { repeat case_match; try done.
    match goal with H : sqlProperties _ = Ok _ |- _ => apply sqlProperties_flat in H end.
    destruct f1, f2; [lia..|]. by apply Request_flat. }
  destruct (lookup_obj "properties" data) as [[]|] eqn:Hp; try done.
  apply lookup_obj_depth in Hp. f_equal. apply fold_res_ext. intros m [field prop] Hin.
  apply elem_of_depth in Hin. simpl fst in Hin; simpl snd in Hin. destruct prop; try done.
  destruct (lookup_obj "properties" o0) as [[]|]; try done.
  by rewrite (IH o0 f2 ltac:(lia) ltac:(lia)).
Qed.

(** A property as a request declares it. *)
Definition declared (p : Property) : Prop :=
  Type_ (options p) ∈ ["text"; "keyword"; "numeric"; "bool"; "date"] ∧
  (Highlightable (options p) = true → Stored (options p) = true) ∧
  map_Forall (λ _ f, Fields f = None) (default ∅ (Fields p)).
(** A sub-field is what its members say, unchecked. *)
Definition sub_field (p : Property) : Prop :=
  ∃ fs r k, Unmarshal_Properties fs = Ok r ∧ r !! k = Some p.

Lemma AddField_options p k v : options (AddField p k v) = options p.
Proof. done. Qed.

Lemma AddField_declared p k v : declared p → declared (AddField p k v).
Proof.
  intros (Ht & Hs & Hf). split_and!; [done..|]. simpl. by apply map_Forall_insert_2.
Qed.

Lemma set_option_keeps field p kv p' : set_option field p kv = Ok p' →
  Type_ (options p') = Type_ (options p) ∧ Fields p' = Fields p.
Proof.
  unfold set_option. destruct kv as [k v]. destruct (options p) as [ty an sa fo tz ix st so ag hi] eqn:E.
  intros H. repeat (case_decide; [|]); try (by simplify_eq; rewrite E);
    unfold mbind, res_bind in H; destruct v; simpl in H; try done; try (by simplify_eq).
  destruct (ParseTimeZone _); by simplify_eq.
Qed.

Lemma type_property_ok field typ p : type_property field typ = Ok p →
  (Type_ (options p) = "" ∨ Type_ (options p) ∈ ["text"; "keyword"; "numeric"; "bool"; "date"]) ∧
  map_Forall (λ _ f, Fields f = None) (default ∅ (Fields p)).
Proof.
  unfold type_property. intros H. repeat case_match; simplify_eq; prop_bool;
    (split; [try (by left); right; try set_solver|]); simpl; try apply map_Forall_empty.
  by apply map_Forall_insert_2.
Qed.

Definition checked (m : Mappings) : Prop := map_Forall (λ _ p, declared p ∨ sub_field p) m.

Lemma map_fold_insert_checked (g : string → string) (fields m : Mappings) :
  checked m → map_Forall (λ _ p, declared p ∨ sub_field p) fields →
  checked (map_fold (λ k v m, <[g k := v]> m) m fields).
Proof.
  intros Hm. induction fields as [|k p fields Hk Hf IH] using map_first_key_ind; intros Hs; [done|].
  apply map_Forall_insert in Hs as [Hp Hs]; [|done]. rewrite map_fold_insert_first_key by done.
  apply map_Forall_insert_2; [exact Hp|by apply IH].
Qed.

Lemma add_fields_declared (fields : Mappings) p :
  declared p → declared (map_fold (λ k v p, AddField p k v) p fields).
Proof.
  intros Hp. induction fields as [|k v fields Hk Hf IH] using map_first_key_ind; [done|].
  rewrite map_fold_insert_first_key by done. by apply AddField_declared.
Qed.

Lemma leaf_property field typ prop p q : type_property field typ = Ok p →
  fold_res (set_option field) p prop = Ok q → Type_ (options q) ≠ "" →
  declared (store_highlight q).
Proof.
  intros [Ht Hf]%type_property_ok Hq Hne.
  assert (Type_ (options q) = Type_ (options p) ∧ Fields q = Fields p) as [Et Ef].
  { eapply (fold_res_inv (λ q, Type_ (options q) = Type_ (options p) ∧ Fields q = Fields p)); [done| |done].
    intros a kv a' _ [??] [??]%set_option_keeps. split; congruence. }
  destruct q as [[]]; simpl in *. subst. unfold declared; simpl.
  split_and!; [by destruct Ht|by intros ->|done].
Qed.

Lemma convertToField_checked fs r : convertToField fs = Ok r →
  map_Forall (λ _ p, declared p ∨ sub_field p) r.
Proof.
  unfold convertToField. destruct fs; [intros [= <-]; apply map_Forall_empty|].
  intros Hu k q Hk. right. eexists _, _, _. eauto.
Qed.

Lemma request_leaf_checked m field prop m' :
  checked m → request_leaf m field prop = Ok m' → checked m'.
Proof.
  unfold request_leaf. intros Hm (fs & _ & Hr)%res_bind_Ok.
  apply res_bind_Ok in Hr as (typ & _ & Hr). apply res_bind_Ok in Hr as (p & Hp & Hr).
  apply res_bind_Ok in Hr as (q & Hq & Hr). cbv zeta in Hr.
  case_decide as He; [by simplify_eq|].
  assert (declared (store_highlight q)) as Hd by (by eapply leaf_property).
  case_decide.
  - apply res_bind_Ok in Hr as (fields & Hf & Hr). apply res_bind_Ok in Hr as (? & _ & Hr).
    apply res_bind_Ok in Hr as (? & _ & [= <-]).
    apply (map_fold_insert_checked (λ k, field +:+ "." +:+ k)).
    + apply map_Forall_insert_2; [|done]. left. by apply add_fields_declared.
    + by eapply convertToField_checked.
  - injection Hr as <-. apply map_Forall_insert_2; [by left|done].
Qed.

(** [Request_declared]: every field of the answer to a request has one of the five
    types fields are built for, is stored when it is highlightable and has sub-fields
    of one level, unless it is a sub-field, which nothing checks. *)
Theorem Request_declared fuel data m : Request fuel data = Ok (Some m) → checked m.
Proof.
  revert data m. induction fuel as [|fuel IH]; intros data m Hr; [done|]. cbn [Request] in Hr.
  destruct data as [|kv data']; [done|]. set (data := kv :: data') in *. clearbody data.
  destruct (lookup_obj "sql" data) as [sql|].
  { repeat case_match; try done. by eapply IH. }
  destruct (lookup_obj "properties" data) as [[]|]; try done.
  apply res_bind_Ok in Hr as (m' & Hf & [= <-]).
  eapply (fold_res_inv checked); [apply map_Forall_empty| |done].
  intros m1 [field prop] m2 _ Hm Hs. destruct prop; try done.
  destruct (lookup_obj "properties" o0) as [[]|]; try done; [|by eapply request_leaf_checked].
  apply res_bind_Ok in Hs as ([sub|] & Hq & [= <-]); simpl; [|done].
  apply (map_fold_insert_checked (λ k, field +:+ "." +:+ k)); [done|by eapply IH].
Qed.
End request_proofs.

(** ** The mappings of an index *)

Lemma only_text_idemp p : only_text (only_text p) = only_text p.
Proof. unfold only_text at 2. case_decide; [done|]. unfold only_text. simpl. by rewrite !decide_False. Qed.
Lemma aggregated_only_text p : only_text (aggregated p) = aggregated (only_text p).
Proof. destruct p as [[] ?]. unfold only_text, aggregated. simpl. by case_decide. Qed.
Lemma aggregated_idemp p : aggregated (aggregated p) = aggregated p.
Proof. done. Qed.

Lemma complete_lookup m k : complete_mappings m !! k =
  if decide (k = TimeFieldName) then Some (aggregated (default (NewProperty "date") (only_text <$> m !! TimeFieldName)))
  else if decide (k = "_id") then Some (NewProperty "keyword")
  else only_text <$> m !! k.
Proof.
  unfold complete_mappings. cbv zeta. case_decide as Ht; [subst k|].
  - by rewrite lookup_insert_eq, lookup_insert_ne, lookup_fmap by done.
  - rewrite lookup_insert_ne by done. case_decide as Hi; [subst k; by rewrite lookup_insert_eq|].
    by rewrite lookup_insert_ne, lookup_fmap by done.
Qed.

Lemma complete_idemp m : complete_mappings (complete_mappings m) = complete_mappings m.
Proof.
  apply map_eq. intros k. rewrite !complete_lookup. case_decide as Ht.
  - rewrite decide_True by done. simpl. by rewrite aggregated_only_text, aggregated_idemp; destruct (m !! TimeFieldName);
      simpl; rewrite ?only_text_idemp.
  - case_decide; [done|]. destruct (m !! k); simpl; [|done]. by rewrite only_text_idemp.
Qed.

(** [SetMappings_spec]: whatever is set, the mappings of an index have the
    identifier as a keyword and a time field that can be searched, sorted and
    aggregated; no field that was mapped disappears, every field that is set gets what
    was set, less the analyzers of fields that are not text, and setting the result
    again changes nothing. *)
Theorem SetMappings_spec old m :
  let r := SetMappings old m in
  r !! "_id" = Some (NewProperty "keyword") ∧
  (∃ p, r !! TimeFieldName = Some (aggregated p)) ∧
  dom (default ∅ old) ⊆ dom r ∧
  (∀ k p, default ∅ m !! k = Some p → k ≠ "_id" → k ≠ TimeFieldName → r !! k = Some (only_text p)) ∧
  SetMappings (Some r) m = r.
Proof.
  cbv zeta. unfold SetMappings. generalize (default ∅ m) as n, (default ∅ old) as o. intros n o.
  assert (∀ k, is_Some (complete_mappings n !! k) → (complete_mappings n ∪ o) !! k = complete_mappings n !! k)
    as Hl by (intros k [p Hp]; by rewrite Hp, (lookup_union_Some_l _ _ _ _ Hp)).
  split_and!.
  - rewrite Hl, complete_lookup by (rewrite complete_lookup; eauto). done.
  - rewrite Hl, complete_lookup by (rewrite complete_lookup; eauto). eauto.
  - rewrite dom_union_L. set_solver.
  - intros k p Hk Hi Ht.
    assert (complete_mappings n !! k = Some (only_text p)) as Hc
      by (by rewrite complete_lookup, !decide_False, Hk).
    by rewrite Hl, Hc by (by rewrite Hc).
  - simpl. apply map_eq. intros k. rewrite !lookup_union. by destruct (complete_mappings n !! k), (o !! k).
Qed.

(** [DeepClone_loses_time_zone]: the copy of a property without sub-fields is the
    property without its time zone. *)
Theorem DeepClone_loses_time_zone o :
  DeepClone (MkProperty o None) = MkProperty o None ↔ TimeZone o = "".
Proof. destruct o; simpl. split; [by intros [= <-]|by intros ->]. Qed.

(** ** Examples *)

Module MappingsDemo.
(** encoding/json for sub-fields that give a type and nothing else. *)
Definition unmarshal_type (kv : string * json) : res Property :=
  match kv.2 with
  | JObj [("type", JStr t)] => Ok (MkProperty (MkOptions t "" "" "" "" false false false false false) None)
  | _ => Err ErrUnmarshal
  end.

#[export] Instance demo : RequestEnv := {|
  EnableSQLMappings := true; EnableTextKeywordMapping := false;
  ParseStrictDDL _ := Ok (Some [("Name", "VARCHAR"); ("born", "date")]);
  QueryAnalyzer _ := None; LoadLocation _ := None;
  Unmarshal_Properties fs := fold_res (λ m kv, p ← unmarshal_type kv; Ok (<[kv.1 := p]> m)) ∅ fs;
|}.

Definition nested : obj :=
  [("properties", JObj [("user", JObj [("properties",
     JObj [("name", JObj [("type", JStr "Keyword"); ("highlightable", JBool true)])])])])].

Definition fields_of (r : res (option Mappings)) : option (list string) :=
  match r with Ok (Some m) => Some (map_to_list m).*1 | _ => None end.

Lemma Request_terminates_witness : Request 20 nested = request nested ∧
  fields_of (request nested) = Some ["user.name"].
Proof.
  split; [|by vm_compute]. exact (Request_terminates 20 nested ltac:(vm_compute; lia)).
Defined.

Lemma Request_declared_witness : ∃ m, Request 20 nested = Ok (Some m) ∧ checked m.
Proof.
  assert (fields_of (Request 20 nested) = Some ["user.name"]) as Hf by (by vm_compute).
  destruct (Request 20 nested) as [[m|]|] eqn:Er; [|done..].
  exists m. split; [done|]. exact (Request_declared 20 nested m Er).
Defined.

Definition with_subfield : obj :=
  [("properties", JObj [("n", JObj [("type", JStr "text");
     ("fields", JObj [("raw", JObj [("type", JStr "integer")])])])])].

(** [subfield_type_unchecked]: a type name that a field must not keep is kept by a
    sub-field: the answer maps a field of type integer, which no field is built for. *)
Theorem subfield_type_unchecked :
  match request with_subfield with
  | Ok (Some m) => (λ p, Type_ (options p)) <$> m !! "n.raw" = Some "integer"
  | _ => False
  end ∧
  ∀ q, type_property "n.raw" "integer" = Ok q → Type_ (options q) = "numeric".
Proof. split; [by vm_compute|by intros q [= <-]]. Qed.

(** [option_type_panics]: an option of the wrong type in a mapping ends in a panic,
    not in an error. *)
Theorem option_type_panics k v m : k ∈ ["analyzer"; "search_analyzer"; "format"; "time_zone"] →
  (∀ s, v ≠ JStr s) → ∃ e, request_leaf m "f" [("type", JStr "text"); (k, v)] = Err e ∧ is_panic e = true.
Proof.
  intros Hk Hv. assert (∃ e, assert_str v = Err e ∧ is_panic e = true) as (e & He & Hp).
  { destruct v; try (eexists; by split). by destruct (Hv s). }
  exists e. split; [|done]. unfold request_leaf.
  rewrite !elem_of_cons, elem_of_nil in Hk.
  destruct Hk as [->|[->|[->|[->|[]]]]]; cbn -[assert_str store_highlight]; by rewrite He.
Qed.

Lemma option_type_panics_witness :
  ∃ e, request_leaf ∅ "f" [("type", JStr "text"); ("analyzer", JNum "5")] = Err e ∧ is_panic e = true.
Proof.
  assert ("analyzer" ∈ ["analyzer"; "search_analyzer"; "format"; "time_zone"]) as Hin by (by left).
  exact (option_type_panics "analyzer" (JNum "5") ∅ Hin (λ s, ltac:(done))).
Defined.
End MappingsDemo.
