(* ===== verification/Index.v ===== *)
(** The indexes of a node (pkg/core/indexlist.go, newindex.go, deleteindex.go, index.go,
    stream.go, GetShardByDocID and CreateDocument, CreateIndexWorker of
    pkg/handlers/index/create.go).

    The process keeps the list of indexes; their metadata and their files are
    interfaces, because what is in the list, in the metadata and on disk comes apart
    when one of them fails. The fields that documents add to the mappings are part of
    the interface of the files. *)
From S2P Require Import Prelude Strings Base62 Wire Hash Mappings.
#[local] Open Scope Z_scope.
#[local] Existing Instance Fnv64.NewDefaultHasher.

(** ** Names *)

Definition name_byte (c : ascii) : bool := is_alnum c || bool_decide (c ∈ ["_"; "."; "-"]%char).

Definition CheckIndexName (name : string) : option error :=
  if decide (name = "") then Some (errors_New "index name cannot be empty")
  else if HasPrefix name "_" then Some (errors_New "index name cannot start with _")
  else if all_bytes name_byte name then None
  else Some (errors_New ("index name [" +:+ name +:+ "] is invalid, just accept [a-zA-Z0-9_.-]")).

(** ** Settings *)

Record IndexAnalysis := MkAnalysis {
  an_Analyzer : option (gmap string json); an_CharFilter : option (gmap string json);
  an_Tokenizer : option (gmap string json); an_TokenFilter : option (gmap string json) }.

Record IndexSettings := MkSettings {
  NumberOfShards : Z; NumberOfReplicas : Z; Analysis : option IndexAnalysis }.

(** The body of a request to create an index. *)
Record IndexSimple := MkSimple {
  si_Name : string; si_ShardNum : Z; si_Settings : option IndexSettings; si_Mappings : obj }.

Record Template := MkTemplate { tp_Settings : option IndexSettings; tp_Mappings : option Mappings }.

(** An index: [ix_Shards] are the identifiers of its shards, [ix_Hash] the ring. *)
Record index := MkIndex {
  ix_Name : string; ix_StorageType : string; ix_ShardNum : Z;
  ix_Settings : option IndexSettings; ix_Mappings : option Mappings;
  ix_Analyzers : option (list string); ix_Shards : list string; ix_Hash : Rendezvous.t }.

Definition with_settings (ix : index) (s : option IndexSettings) : index :=
  MkIndex (ix_Name ix) (ix_StorageType ix) (ix_ShardNum ix) s (ix_Mappings ix) (ix_Analyzers ix)
    (ix_Shards ix) (ix_Hash ix).
Definition with_mappings (ix : index) (m : option Mappings) : index :=
  MkIndex (ix_Name ix) (ix_StorageType ix) (ix_ShardNum ix) (ix_Settings ix) m (ix_Analyzers ix)
    (ix_Shards ix) (ix_Hash ix).
Definition with_analyzers (ix : index) (a : option (list string)) : index :=
  MkIndex (ix_Name ix) (ix_StorageType ix) (ix_ShardNum ix) (ix_Settings ix) (ix_Mappings ix) a
    (ix_Shards ix) (ix_Hash ix).

Definition merge_part (old new : option (gmap string json)) : option (gmap string json) :=
  match new with None => old | Some n => Some (n ∪ default ∅ old) end.

Definition merge_analysis (old : option IndexAnalysis) (n : IndexAnalysis) : IndexAnalysis :=
  let o := default (MkAnalysis None None None None) old in
  MkAnalysis (merge_part (an_Analyzer o) (an_Analyzer n)) (merge_part (an_CharFilter o) (an_CharFilter n))
    (merge_part (an_Tokenizer o) (an_Tokenizer n)) (merge_part (an_TokenFilter o) (an_TokenFilter n)).

Definition SetSettings (ix : index) (s : option IndexSettings) : index :=
  match s with
  | None => ix
  | Some s =>
      let o := default (MkSettings 0 0 None) (ix_Settings ix) in
      with_settings ix (Some (MkSettings
        (if (0 <? NumberOfShards s) && (NumberOfShards o =? 0) then NumberOfShards s else NumberOfShards o)
        (if 0 <? NumberOfReplicas s then NumberOfReplicas s else NumberOfReplicas o)
        (match Analysis s with None => Analysis o | Some a => Some (merge_analysis (Analysis o) a) end)))
  end.

Definition SetAnalyzers (ix : index) (a : list string) : index :=
  match a with [] => ix | _ => with_analyzers ix (Some a) end.

Definition index_SetMappings (ix : index) (m : option Mappings) : index :=
  with_mappings ix (Some (SetMappings (ix_Mappings ix) m)).

(** [checkIndex]: what is nil gets its default. *)
Definition checkIndex (ix : index) : index :=
  MkIndex (ix_Name ix) (ix_StorageType ix) (ix_ShardNum ix)
    (Some (default (MkSettings 0 0 None) (ix_Settings ix)))
    (Some (default {[TimeFieldName := NewProperty "date"]} (ix_Mappings ix)))
    (Some (default [] (ix_Analyzers ix))) (ix_Shards ix) (ix_Hash ix).

(** ** Metadata and files *)

(** [core.InvalidDocumentError]. *)
Definition InvalidTag : string := "core.InvalidDocumentError".
Definition InvalidDocumentError (e : error) : error := Error (err_text e) (InvalidTag :: err_tags e).
Definition is_invalid (e : error) : bool := bool_decide (InvalidTag ∈ err_tags e).

(** [metadata.Index], with the encoding of the index. *)
Class MetaIndex (MT : Type) := {
  Index_Set : string → index → M MT ();
  Index_Delete : string → M MT ();
}.

(** Templates, identifiers ([ider], by node), and per shard of an index: accepting a
    document ([OpenWAL], [CheckDocument] and [wal.Write] of an update; the document is
    a map, which it changes), syncing the log, the log's last entry and the last one
    that is committed. *)
Class Files (DT : Type) := {
  UseTemplate_ : string → DT → res (option Template);
  Generate : Z → M DT string;
  Accept : string → string → string → M (DT * option obj) ();
  Sync : string → string → M DT ();
  Positions : string → string → M DT (Z * Z);
  CloseIndex : string → M DT ();
  RemoveAll : string → M DT ();
}.

(** Analyzers of a request; [config.Global.Shard.Num]. *)
Class IndexEnv := {
  RequestAnalyzer : option IndexAnalysis → res (list string);
  DefaultShardNum : Z;
}.

Record world (MT DT : Type) := MkWorld { Indexes : gmap string index; metaidx : MT; disk : DT }.
Arguments MkWorld {_ _}. Arguments Indexes {_ _}. Arguments metaidx {_ _}. Arguments disk {_ _}.

Section index.
Context {MT DT : Type} `{!MetaIndex MT, !Files DT} {renv : RequestEnv} {ienv : IndexEnv}.
#[local] Abbreviation W := (world MT DT).

Definition on_meta {A} : M MT A → M W A :=
  zoom metaidx (λ x w, MkWorld (Indexes w) x (disk w)).
Definition on_disk {A} : M DT A → M W A :=
  zoom disk (λ x w, MkWorld (Indexes w) (metaidx w) x).
Definition put_index (name : string) (ix : index) : M W () :=
  modify (λ w, MkWorld (<[name := ix]> (Indexes w)) (metaidx w) (disk w)).
Definition drop_index (name : string) : M W () :=
  modify (λ w, MkWorld (delete name (Indexes w)) (metaidx w) (disk w)).

(** *** The list *)

Definition GetIndex (name : string) : M W (option index) := gets (λ w, Indexes w !! name).

Definition apply_template (ix : index) (t : Template) : index :=
  let ix := match tp_Settings t with
            | None => ix
            | Some s =>
                SetAnalyzers (SetSettings ix (Some s))
                  (match RequestAnalyzer (Analysis s) with Ok a => a | Err _ => [] end)
            end in
  match tp_Mappings t with None => ix | Some m => index_SetMappings ix (Some m) end.

Definition UseTemplate (ix : index) : M W index :=
  w ← get_state;
  t ← lift (UseTemplate_ (ix_Name ix) (disk w));
  mret (match t with None => ix | Some t => apply_template ix t end).

(** The shards [i], [i+1], ... of a new index. *)
Fixpoint new_shards (n : nat) (i : Z) : M W (list string) :=
  match n with
  | O => mret []
  | Datatypes.S n =>
      node ← lift (NewNode i);
      id ← on_disk (Generate node);
      ids ← new_shards n (i + 1);
      mret (id :: ids)
  end.

Definition NewIndex (name storageType : string) (shardNum : Z) : M W index :=
  match CheckIndexName name with
  | Some e => throw e
  | None =>
      let storageType := if decide (storageType = "") then "disk" else storageType in
      let shardNum := if shardNum <=? 0 then DefaultShardNum else shardNum in
      ix ← UseTemplate (MkIndex name storageType 0 None None None [] Rendezvous.New);
      let shardNum := match ix_Settings ix with
                      | Some s => if NumberOfShards s =? 0 then shardNum else NumberOfShards s
                      | None => shardNum
                      end in
      ids ← new_shards (Z.to_nat shardNum) 0;
      mret (MkIndex name storageType shardNum (ix_Settings ix) (ix_Mappings ix) (ix_Analyzers ix)
              ids (Rendezvous.AddAll ids))
  end.

Definition storeIndex (ix : index) : M W () :=
  annotate ("core.storeIndex: index: " +:+ ix_Name ix +:+ ", error: ")
    (on_meta (Index_Set (ix_Name ix) ix)).

Definition StoreIndex (ix : index) : M W () :=
  let ix := checkIndex ix in
  storeIndex ix;;
  put_index (ix_Name ix) ix.

Definition GetOrCreateIndex (name storageType : string) (shardNum : Z) : M W (index * bool) :=
  o ← GetIndex name;
  match o with
  | Some ix => mret (ix, true)
  | None =>
      ix ← NewIndex name storageType shardNum;
      let ix := checkIndex ix in
      storeIndex ix;;
      put_index (ix_Name ix) ix;;
      mret (ix, false)
  end.

(** The list's [Delete]: the error of closing is logged. *)
Definition IndexList_Delete (name : string) : M W () :=
  o ← GetIndex name;
  match o with Some _ => ignore (on_disk (CloseIndex name)) | None => mret () end;;
  drop_index name.

Definition DeleteIndex (name : string) : M W () :=
  o ← GetIndex name;
  match o with
  | None => throw (errors_New ("index " +:+ name +:+ " does not exists"))
  | Some ix =>
      IndexList_Delete name;;
      ignore (on_disk (RemoveAll (ix_Name ix)));;
      on_meta (Index_Delete name)
  end.

Definition CreateIndexWorker (new : IndexSimple) (indexName : string) : M W () :=
  let name := if decide (si_Name new = "") then indexName else si_Name new in
  if decide (name = "") then throw (errors_New "index.name should be not empty") else
  o ← GetIndex name;
  match o with
  | Some _ => throw (errors_New ("index [" +:+ name +:+ "] already exists"))
  | None =>
      let settings := default (MkSettings 0 0 None) (si_Settings new) in
      analyzers ← lift (RequestAnalyzer (Analysis settings));
      mappings ← lift (request (si_Mappings new));
      let shardNum := if (si_ShardNum new =? 0) && negb (NumberOfShards settings =? 0)
                      then NumberOfShards settings else si_ShardNum new in
      let shardNum := if shardNum =? 0 then DefaultShardNum else shardNum in
      ix ← NewIndex name "disk" shardNum;
      StoreIndex (index_SetMappings (SetAnalyzers (SetSettings ix (Some settings)) analyzers) mappings)
  end.

(** *** Documents *)

Definition GetShardByDocID (ix : index) (docID : string) : res string :=
  match Rendezvous.Lookup (ix_Hash ix) docID with
  | Some shard => Ok shard
  | None => Err (Panic "invalid memory address or nil pointer dereference")
  end.

(** [CreateDocument] with [update]; the document is part of the state. *)
Definition CreateDocument (ix : index) (docID : string) : M (W * option obj) () :=
  shard ← lift (GetShardByDocID ix docID);
  zoom (λ x, (disk x.1, x.2)) (λ y x, (MkWorld (Indexes x.1) (metaidx x.1) y.1, y.2))
    (Accept (ix_Name ix) shard docID).

Fixpoint sync_shards (name : string) (shards : list string) (errs : list error) : M W (list error) :=
  match shards with
  | [] => mret errs
  | s :: shards =>
      r ← try (on_disk (Sync name s));
      sync_shards name shards (match r with Ok _ => errs | Err e => errs ++ [e] end)
  end.

Definition SyncWAL (ix : index) : M W () :=
  errs ← sync_shards (ix_Name ix) (ix_Shards ix) [];
  match errors_Join errs with Some e => throw e | None => mret () end.

(** [OpenWAL] and the two reads are [Positions]; sums wrap. *)
Fixpoint pending_shards (name : string) (shards : list string) (pending : Z) : M W Z :=
  match shards with
  | [] => mret pending
  | s :: shards =>
      p ← on_disk (Positions name s);
      let '(last, committed) := (p : Z * Z) in
      pending_shards name shards
        (if committed <? last then u64 (pending + (last - committed)) else pending)
  end.

Definition index_WALPending (ix : index) : M W Z := pending_shards (ix_Name ix) (ix_Shards ix) 0.
End index.

(** ** What is relied on *)

(** The metadata keeps what was set last; a failed operation may have taken place. *)
Class MetaLaws (MT : Type) `{!MetaIndex MT} := {
  stored : MT → gmap string index;
  Index_Set_law k ix s r s' : Index_Set k ix s = (r, s') →
    stored s' = <[k := ix]> (stored s) ∨ is_ok r = false ∧ stored s' = stored s;
  Index_Delete_law k s r s' : Index_Delete k s = (r, s') →
    stored s' = delete k (stored s) ∨ is_ok r = false ∧ stored s' = stored s;
}.

(** What of a document stays when it is accepted: [CheckDocument] takes [@timestamp]
    out and converts, in place, the elements of its arrays to the types of the mapping. *)
Definition scalar (j : json) : bool :=
  match j with JArr _ | JObj _ => false | _ => true end.
Fixpoint content_of (j : json) : json :=
  match j with
  | JObj o => JObj (map (λ kv, (kv.1, content_of kv.2)) o)
  | JArr l => JArr (if existsb scalar l then map (λ _, JNull) l else map content_of l)
  | _ => j
  end.
Definition content (d : option obj) : option obj :=
  option_map (λ o, map (λ kv, (kv.1, content_of kv.2)) (filter (λ kv, kv.1 ≠ TimeFieldName) o)) d.

(** [accepted]: the content of the documents in the logs, the last of each identifier;
    [dirty]: the shards whose log has entries that a crash can lose. *)
Class FilesLaws (DT : Type) `{!Files DT} := {
  accepted : DT → gmap (string * string) (option obj);
  dirty : DT → gset (string * string);
  Generate_law i s r s' : Generate i s = (r, s') → accepted s' = accepted s ∧ dirty s' = dirty s;
  Accept_law name shard id d s r s' d' : Accept name shard id (s, d) = (r, (s', d')) →
    content d' = content d ∧ dirty s' ⊆ {[(name, shard)]} ∪ dirty s ∧
    match r with
    | Ok _ => accepted s' = <[(name, id) := content d]> (accepted s)
    | Err e => accepted s' = accepted s ∨
               is_invalid e = false ∧ accepted s' = <[(name, id) := content d]> (accepted s)
    end;
  Sync_law name shard s r s' : Sync name shard s = (r, s') →
    accepted s' = accepted s ∧ dirty s' ⊆ dirty s ∧
    match r with Ok _ => (name, shard) ∉ dirty s' | Err _ => True end;
  Positions_law name shard s r s' : Positions name shard s = (r, s') →
    accepted s' = accepted s ∧ dirty s' ⊆ dirty s;
  CloseIndex_law name s r s' : CloseIndex name s = (r, s') →
    accepted s' = accepted s ∧ dirty s' ⊆ dirty s;
  RemoveAll_law name s r s' : RemoveAll name s = (r, s') →
    dirty s' ⊆ dirty s ∧ ∀ k, k.1 ≠ name → accepted s' !! k = accepted s !! k;
}.

(** ** Well-formed indexes *)

Record wf_index (name : string) (ix : index) : Prop := {
  wf_name : ix_Name ix = name;
  wf_valid : CheckIndexName name = None;
  wf_shards : ix_Shards ix ≠ [];
  wf_hash : ix_Hash ix = Rendezvous.AddAll (ix_Shards ix);
}.

Lemma with_wf name ix ix' : ix_Name ix' = ix_Name ix → ix_Shards ix' = ix_Shards ix →
  ix_Hash ix' = ix_Hash ix → wf_index name ix → wf_index name ix'.
Proof. intros H1 H2 H3 [W1 W2 W3 W4]. split; congruence. Qed.

Lemma SetSettings_wf name ix s : wf_index name ix → wf_index name (SetSettings ix s).
Proof. by destruct s; [apply with_wf|]. Qed.
Lemma SetAnalyzers_wf name ix a : wf_index name ix → wf_index name (SetAnalyzers ix a).
Proof. by destruct a; [|apply with_wf]. Qed.
Lemma index_SetMappings_wf name ix m : wf_index name ix → wf_index name (index_SetMappings ix m).
Proof. by apply with_wf. Qed.
Lemma checkIndex_wf name ix : wf_index name ix → wf_index name (checkIndex ix).
Proof. by apply with_wf. Qed.
#[export] Hint Resolve SetSettings_wf SetAnalyzers_wf index_SetMappings_wf checkIndex_wf : go.

Section index_proofs.
Context {MT DT : Type} `{!MetaIndex MT, !Files DT} {renv : RequestEnv} {ienv : IndexEnv}.
#[local] Abbreviation W := (world MT DT).

(** An operation on the list keeps the documents and makes no shard dirty. *)
Definition docs_kept `{!FilesLaws DT} (w w' : W) : Prop :=
  accepted (disk w') = accepted (disk w) ∧ dirty (disk w') ⊆ dirty (disk w).

#[export] Instance docs_kept_preorder `{!FilesLaws DT} : PreOrder docs_kept.
Proof.
  split; [by intros w|]. intros w1 w2 w3 [A1 B1] [A2 B2]. split; [congruence|by etrans].
Qed.

(** The list and the metadata are as they were. *)
Definition list_kept (w w' : W) : Prop := Indexes w' = Indexes w ∧ metaidx w' = metaidx w.

#[export] Instance list_kept_preorder : PreOrder list_kept.
Proof. split; [by intros w|]. intros w1 w2 w3 [A1 B1] [A2 B2]. split; congruence. Qed.

Lemma on_disk_list_kept {A} (c : M DT A) : keeps list_kept (on_disk c).
Proof. intros w r w' H. unfold on_disk, zoom in H. destruct (c (disk w)). by simplify_eq. Qed.
Lemma on_meta_docs_kept `{!FilesLaws DT} {A} (c : M MT A) : keeps docs_kept (on_meta c).
Proof. intros w r w' H. unfold on_meta, zoom in H. destruct (c (metaidx w)). by simplify_eq. Qed.
Lemma put_docs_kept `{!FilesLaws DT} name ix : keeps docs_kept (put_index name ix).
Proof. by intros w r w' [= <- <-]. Qed.
Lemma drop_docs_kept `{!FilesLaws DT} name : keeps docs_kept (drop_index name).
Proof. by intros w r w' [= <- <-]. Qed.
Lemma Generate_docs_kept `{!FilesLaws DT} i : keeps docs_kept (on_disk (Generate i)).
Proof.
  intros w r w' H. unfold on_disk, zoom in H. destruct (Generate i (disk w)) eqn:E. simplify_eq.
  apply Generate_law in E as [E1 E2]. split; simpl; [done|by rewrite E2].
Qed.
#[local] Hint Resolve on_disk_list_kept on_meta_docs_kept put_docs_kept drop_docs_kept
  Generate_docs_kept : keeps.

Lemma UseTemplate_kept ix : keeps list_kept (UseTemplate ix).
Proof. unfold UseTemplate. solve_keeps. Qed.
Lemma UseTemplate_docs `{!FilesLaws DT} ix : keeps docs_kept (UseTemplate ix).
Proof. unfold UseTemplate. solve_keeps. Qed.
Lemma new_shards_kept n i : keeps list_kept (new_shards n i).
Proof. revert i. induction n; intros i; simpl; solve_keeps; auto with keeps. Qed.
Lemma new_shards_docs `{!FilesLaws DT} n i : keeps docs_kept (new_shards n i).
Proof. revert i. induction n; intros i; simpl; solve_keeps; auto with keeps. Qed.
#[local] Hint Resolve UseTemplate_kept UseTemplate_docs new_shards_kept new_shards_docs : keeps.

Lemma NewIndex_kept name st n : keeps list_kept (NewIndex name st n).
Proof. unfold NewIndex. solve_keeps. Qed.
Lemma NewIndex_docs `{!FilesLaws DT} name st n : keeps docs_kept (NewIndex name st n).
Proof. unfold NewIndex. solve_keeps. Qed.
#[local] Hint Resolve NewIndex_kept NewIndex_docs : keeps.

Lemma GetOrCreateIndex_docs `{!FilesLaws DT} name st n : keeps docs_kept (GetOrCreateIndex name st n).
Proof. unfold GetOrCreateIndex, GetIndex, storeIndex. solve_keeps. Qed.
Lemma StoreIndex_docs `{!FilesLaws DT} ix : keeps docs_kept (StoreIndex ix).
Proof. unfold StoreIndex, storeIndex. solve_keeps. Qed.
#[local] Hint Resolve StoreIndex_docs : keeps.
Lemma CreateIndexWorker_docs `{!FilesLaws DT} si name : keeps docs_kept (CreateIndexWorker si name).
Proof. unfold CreateIndexWorker, GetIndex. solve_keeps. Qed.

(** *** New indexes *)

Definition shards_nonneg (ix : index) : Prop :=
  match ix_Settings ix with Some s => 0 ≤ NumberOfShards s | None => True end.

Lemma apply_template_spec ix t : ix_Settings ix = None →
  ix_Name (apply_template ix t) = ix_Name ix ∧ shards_nonneg (apply_template ix t).
Proof.
  intros Hs. unfold apply_template. destruct t as [[s|] tm]; cbn [tp_Settings tp_Mappings].
  - set (a := match RequestAnalyzer _ with Ok a => a | Err _ => [] end). clearbody a.
    assert (∃ o, SetSettings ix (Some s) = with_settings ix (Some o) ∧ 0 ≤ NumberOfShards o) as (o & -> & Ho).
    { eexists. split; [done|]. rewrite Hs. simpl. destruct (Z.ltb_spec 0 (NumberOfShards s)); simpl; lia. }
    by destruct tm, a.
  - destruct tm; unfold shards_nonneg; simpl; by rewrite Hs.
Qed.

Lemma UseTemplate_spec ix ix' (w w' : W) : ix_Settings ix = None → UseTemplate ix w = (Ok ix', w') →
  ix_Name ix' = ix_Name ix ∧ shards_nonneg ix'.
Proof.
  intros Hs Hu. unfold UseTemplate in Hu. apply bind_ok in Hu as (w1 & w2 & _ & Hu).
  apply bind_ok in Hu as (t & w3 & _ & Hu). unfold mret, M_ret in Hu. simplify_eq.
  destruct t as [t|]; [by apply apply_template_spec|]. unfold shards_nonneg. by rewrite Hs.
Qed.

Lemma new_shards_length n i ids (w w' : W) : new_shards n i w = (Ok ids, w') → length ids = n.
Proof.
  revert i ids w w'. induction n as [|n IH]; intros i ids w w' H; simpl in H.
  { unfold mret, M_ret in H. by simplify_eq. }
  apply bind_ok in H as (node & w0 & _ & H). apply bind_ok in H as (id & w1 & _ & H).
  apply bind_ok in H as (ids' & w2 & H & H'). apply IH in H. unfold mret, M_ret in H'.
  simplify_eq. done.
Qed.

Lemma NewIndex_wf name st n ix (w w' : W) : 0 < DefaultShardNum →
  NewIndex name st n w = (Ok ix, w') → wf_index name ix.
Proof.
  intros Hd H. unfold NewIndex in H. destruct (CheckIndexName name) eqn:Hc; [done|].
  cbv zeta in H. apply bind_ok in H as (t & w1 & Ht & H).
  apply UseTemplate_spec in Ht as [Hn Hs]; [|done]. unfold shards_nonneg in Hs. apply bind_ok in H as (ids & w2 & Hi & H).
  unfold mret, M_ret in H. apply new_shards_length in Hi. simplify_eq. split; [done..| |done].
  simpl. intros ->. simpl in Hi. destruct (Z.leb_spec n 0), (ix_Settings t) as [s|];
    try destruct (Z.eqb_spec (NumberOfShards s) 0); lia.
Qed.

(** *** The list *)

Definition list_wf (w : W) : Prop := map_Forall wf_index (Indexes w).

Lemma storeIndex_list ix (w w' : W) r : storeIndex ix w = (r, w') → Indexes w' = Indexes w.
Proof.
  intros H. assert (keeps (λ w w' : W, Indexes w' = Indexes w) (storeIndex ix)) as Hk; [|by apply Hk in H].
  assert (PreOrder (λ w w' : W, Indexes w' = Indexes w)) by (split; [by intros ?|intros ???; congruence]).
  unfold storeIndex. apply keeps_annotate. intros w1 r1 w1' H1. unfold on_meta, zoom in H1.
  destruct (Index_Set _ _ _). by simplify_eq.
Qed.

Lemma StoreIndex_spec ix (w w' : W) r : StoreIndex ix w = (r, w') →
  match r with
  | Ok _ => Indexes w' = <[ix_Name ix := checkIndex ix]> (Indexes w)
  | Err _ => Indexes w' = Indexes w
  end.
Proof.
  intros H. unfold StoreIndex in H. cbv zeta in H.
  apply bind_inv in H as [(e & H & ->)|(u & w1 & H & H2)]; apply storeIndex_list in H; [done|].
  unfold put_index, modify in H2. simplify_eq/=. by rewrite H.
Qed.

Lemma StoreIndex_wf name ix (w w' : W) r : list_wf w → wf_index name ix → StoreIndex ix w = (r, w') → list_wf w'.
Proof.
  intros Hw Hi H. apply StoreIndex_spec in H. unfold list_wf. destruct r; rewrite H; [|done].
  pose proof (wf_name _ _ Hi) as ->. apply map_Forall_insert_2; auto with go.
Qed.

(** What [GetOrCreateIndex] answers, and the list afterwards. *)
Lemma GetOrCreateIndex_spec name st n (w w' : W) r : 0 < DefaultShardNum → list_wf w →
  GetOrCreateIndex name st n w = (r, w') →
  match r with
  | Ok (ix, true) => Indexes w !! name = Some ix ∧ w' = w
  | Ok (ix, false) => Indexes w !! name = None ∧ wf_index name ix ∧
                      Indexes w' = <[name := ix]> (Indexes w)
  | Err _ => Indexes w' = Indexes w
  end.
Proof.
  intros Hd Hw H. unfold GetOrCreateIndex in H.
  apply bind_inv in H as [(e & H & _)|(o & w1 & H1 & H)]; [done|].
  unfold GetIndex, gets in H1. simplify_eq. destruct (Indexes w1 !! name) as [ix|] eqn:Hl.
  { unfold mret, M_ret in H. by simplify_eq. }
  apply bind_inv in H as [(e & H & ->)|(ix & w2 & H1 & H)]; [by apply NewIndex_kept in H as [? _]|].
  pose proof (NewIndex_wf _ _ _ _ _ _ Hd H1) as Hi. apply NewIndex_kept in H1 as [Hk _]. cbv zeta in H.
  apply bind_inv in H as [(e & H & ->)|(u & w3 & H1 & H)].
  { apply storeIndex_list in H. congruence. }
  apply storeIndex_list in H1. unfold put_index, modify, mbind, M_bind, mret, M_ret in H. simplify_eq/=.
  pose proof (wf_name _ _ Hi) as ->. split_and!; [done|auto with go|]. congruence.
Qed.

Lemma DeleteIndex_spec name (w w' : W) r : DeleteIndex name w = (r, w') →
  Indexes w' = delete name (Indexes w).
Proof.
  intros H. unfold DeleteIndex in H. apply bind_inv in H as [(e & H & _)|(o & w1 & H1 & H)]; [done|].
  unfold GetIndex, gets in H1. simplify_eq. destruct (Indexes w1 !! name) as [ix|] eqn:Hl.
  2: { unfold throw in H. simplify_eq. by rewrite delete_id. }
  apply bind_inv in H as [(e & H & ->)|(u & w2 & H1 & H)].
  - unfold IndexList_Delete, GetIndex, gets, mbind, M_bind, ignore, on_disk, zoom, drop_index, modify in H.
    rewrite Hl in H. by destruct (CloseIndex name (disk w1)).
  - assert (Indexes w2 = delete name (Indexes w1)) as H2.
    { unfold IndexList_Delete, GetIndex, gets, mbind, M_bind, ignore, on_disk, zoom, drop_index, modify in H1.
      rewrite Hl in H1. destruct (CloseIndex name (disk w1)). by simplify_eq. }
    rewrite <- H2. apply ignore_inv in H as (x & w3 & H3 & H). apply on_disk_list_kept in H3 as [<- _].
    unfold on_meta, zoom in H. destruct (Index_Delete name (metaidx w3)). by simplify_eq.
Qed.

Lemma CreateIndexWorker_spec si name (w w' : W) r : 0 < DefaultShardNum →
  CreateIndexWorker si name w = (r, w') →
  Indexes w' = Indexes w ∨
  ∃ n ix, (n = name ∨ n = si_Name si) ∧ Indexes w !! n = None ∧ wf_index n ix ∧
          Indexes w' = <[n := ix]> (Indexes w).
Proof.
  intros Hd H. unfold CreateIndexWorker in H. cbv zeta in H.
  set (n := if decide (si_Name si = "") then name else si_Name si) in H.
  assert (n = name ∨ n = si_Name si) as Hn by (unfold n; destruct (decide (si_Name si = "")); auto).
  destruct (decide (n = "")); [unfold throw in H; simplify_eq; by left|].
  apply bind_inv in H as [(e & H & _)|(o & w1 & H1 & H)]; [done|].
  unfold GetIndex, gets in H1. simplify_eq.
  destruct (Indexes w1 !! n) as [ix|] eqn:Hl; [unfold throw in H; simplify_eq; by left|].
  apply bind_inv in H as [(e & H & ->)|(an & w2 & H1 & H)]; [unfold lift in H; simplify_eq; by left|].
  unfold lift in H1. simplify_eq.
  apply bind_inv in H as [(e & H & ->)|(ma & w3 & H2 & H)]; [unfold lift in H; simplify_eq; by left|].
  unfold lift in H2. simplify_eq.
  apply bind_inv in H as [(e & H & ->)|(ix & w4 & H1' & H)].
  { apply NewIndex_kept in H as [? _]. by left. }
  pose proof (NewIndex_wf _ _ _ _ _ _ Hd H1') as Hi. apply NewIndex_kept in H1' as [Hk _].
  set (ix' := index_SetMappings _ _) in H. assert (wf_index n ix') as Hi' by (unfold ix'; auto with go).
  apply StoreIndex_spec in H. rewrite <- Hk in *. destruct r; [right|by left; rewrite H].
  exists n, (checkIndex ix'). rewrite (wf_name _ _ Hi') in H. split_and!; auto with go.
Qed.

Lemma DeleteIndex_docs `{!FilesLaws DT} name (w w' : W) r : list_wf w → DeleteIndex name w = (r, w') →
  ∀ k, k.1 ≠ name → accepted (disk w') !! k = accepted (disk w) !! k.
Proof.
  intros Hw H. set (R := λ w w' : W, ∀ k, k.1 ≠ name → accepted (disk w') !! k = accepted (disk w) !! k).
  assert (PreOrder R) by (split; [by intros ?|intros ??? R1 R2 k Hk; rewrite R2, R1 by done; done]).
  assert (∀ A (c : M DT A), (∀ s r s', c s = (r, s') → ∀ k, k.1 ≠ name → accepted s' !! k = accepted s !! k) →
          keeps R (on_disk c)) as Hdk.
  { intros A c Hc w1 r1 w1' H1. unfold on_disk, zoom in H1. destruct (c (disk w1)) eqn:E. simplify_eq.
    intros k Hk. by eapply Hc. }
  assert (keeps R (on_disk (CloseIndex name))) as Hc.
  { apply Hdk. intros s r1 s' [E _]%CloseIndex_law k _. by rewrite E. }
  assert (keeps R (on_disk (RemoveAll name))) as Hr.
  { apply Hdk. intros s r1 s' [_ E]%RemoveAll_law. done. }
  assert (∀ A (c : M MT A), keeps R (on_meta c)) as Hm.
  { intros A c w1 r1 w1' H1. unfold on_meta, zoom in H1. destruct (c (metaidx w1)). by simplify_eq. }
  assert (keeps R (drop_index name)) as Hp by (by intros w1 r1 w1' [= <- <-]).
  unfold DeleteIndex in H. apply bind_inv in H as [(e & H & _)|(o & w1 & H1 & H)]; [done|].
  unfold GetIndex, gets in H1. injection H1 as <- <-. destruct (Indexes w !! name) as [ix|] eqn:Hl.
  2: { unfold throw in H. by simplify_eq. }
  rewrite (wf_name _ _ (Hw _ _ Hl)) in H.
  assert (keeps R (IndexList_Delete name;; ignore (on_disk (RemoveAll name));; on_meta (Index_Delete name))) as Hk.
  { unfold IndexList_Delete, GetIndex. solve_keeps; auto with keeps. }
  by apply Hk in H.
Qed.

(** C34: every index of the list, however it was created, is registered
    under its own valid name and has shards; no operation breaks this, and every
    document has a shard to go to. *)
Theorem index_list_wf (w : W) : 0 < DefaultShardNum → list_wf w →
  (∀ name st n r w', GetOrCreateIndex name st n w = (r, w') → list_wf w') ∧
  (∀ si name r w', CreateIndexWorker si name w = (r, w') → list_wf w') ∧
  (∀ name r w', DeleteIndex name w = (r, w') → list_wf w') ∧
  (∀ name ix id, Indexes w !! name = Some ix → ∃ s, GetShardByDocID ix id = Ok s ∧ s ∈ ix_Shards ix).
Proof.
  intros Hd Hw. split_and!.
  - intros name st n r w' H. apply GetOrCreateIndex_spec in H; [|done..].
    destruct r as [[ix []]|e]; unfold list_wf.
    + by destruct H as [_ ->].
    + destruct H as (_ & ? & ->). by apply map_Forall_insert_2.
    + by rewrite H.
  - intros si name r w' H. apply CreateIndexWorker_spec in H; [|done]. unfold list_wf.
    destruct H as [->|(n & ix & _ & _ & ? & ->)]; [done|by apply map_Forall_insert_2].
  - intros name r w' H. apply DeleteIndex_spec in H. unfold list_wf. rewrite H. by apply map_Forall_delete.
  - intros name ix id Hl. destruct (Hw _ _ Hl) as [_ _ Hs Hh]. unfold GetShardByDocID. rewrite Hh.
    destruct (Rendezvous.Lookup_max (Rendezvous.AddAll (ix_Shards ix)) id) as (m & -> & Hm & _).
    + apply Rendezvous.AddAll_wf.
    + destruct (ix_Shards ix) as [|s l] eqn:E; [done|]. intros Hn.
      assert (s ∈ Rendezvous.nstr (Rendezvous.AddAll (s :: l))) as Hin by (rewrite Rendezvous.elem_of_AddAll; by left).
      rewrite Hn in Hin. by apply elem_of_nil in Hin.
    + exists m. split; [done|]. by apply Rendezvous.elem_of_AddAll.
Qed.
End index_proofs.

(** ** A node *)

Module IndexDemo.
(** Metadata that fails for a number of times, then works. *)
Record meta := MkMeta { md : gmap string index; fails : nat }.

Definition flaky (f : gmap string index → gmap string index) : M meta () :=
  λ m, match fails m with
       | O => (Ok (), MkMeta (f (md m)) O)
       | Datatypes.S n => (Err (errors_New "disk full"), MkMeta (md m) n)
       end.

#[export] Instance demo_meta : MetaIndex meta := {|
  Index_Set k ix := flaky <[k := ix]>; Index_Delete k := flaky (delete k) |}.
#[export] Instance demo_meta_laws : MetaLaws meta.
Proof.
  refine {| stored := md |}; simpl; unfold flaky.
  - intros k ix [m []] r s' [= <- <-]; [by left|by right].
  - intros k [m []] r s' [= <- <-]; [by left|by right].
Defined.

(** Files whose log is full for a number of times. A document is stored with its time:
    its [@timestamp], in seconds, or else that of a clock. *)
Record files := MkFiles {
  f_docs : gmap (string * string) (option obj * Z); f_dirty : gset (string * string); f_next : nat;
  f_clock : Z; f_fails : nat }.

Definition timestamp (d : option obj) : option Z :=
  match d ≫= lookup_obj TimeFieldName with
  | Some (JNum n) => match ParseInt n with Ok z => Some z | Err _ => None end
  | _ => None
  end.
Definition untimed (d : option obj) : option obj :=
  option_map (filter (λ kv, kv.1 ≠ TimeFieldName)) d.

Lemma content_untimed d : content (untimed d) = content d.
Proof.
  destruct d as [o|]; [|done]. unfold content, untimed. simpl. do 2 f_equal. apply filter_all.
  apply Forall_forall. by intros kv [? _]%list_elem_of_filter.
Qed.

#[export] Instance demo_files : Files files := {|
  UseTemplate_ _ _ := Ok None;
  Generate _ := λ f, (Ok ("shard" +:+ pretty (f_next f)),
                      MkFiles (f_docs f) (f_dirty f) (Datatypes.S (f_next f)) (f_clock f) (f_fails f));
  Accept name shard id := λ '(f, d),
    let t := default (f_clock f) (timestamp d) in
    let d := untimed d in
    match f_fails f with
    | O => (Ok (), (MkFiles (<[(name, id) := (d, t)]> (f_docs f)) ({[(name, shard)]} ∪ f_dirty f)
                      (f_next f) (f_clock f + 1) O, d))
    | Datatypes.S n => (Err (errors_New "no space left on device"),
                        (MkFiles (f_docs f) (f_dirty f) (f_next f) (f_clock f + 1) n, d))
    end;
  Sync name shard := modify (λ f, MkFiles (f_docs f) (f_dirty f ∖ {[(name, shard)]}) (f_next f)
    (f_clock f) (f_fails f));
  Positions _ _ := mret (0, 0);
  CloseIndex _ := mret ();
  RemoveAll name := modify (λ f,
    MkFiles (filter (λ kv, kv.1.1 ≠ name) (f_docs f)) (f_dirty f) (f_next f) (f_clock f) (f_fails f));
|}.
#[export] Instance demo_files_laws : FilesLaws files.
Proof.
  refine {| accepted f := content ∘ fst <$> f_docs f; dirty := f_dirty |}; simpl; unfold modify, mret, M_ret.
  - by intros i s r s' [= <- <-].
  - intros name shard id d s r s' d'. destruct (f_fails s); intros [= <- <- <-]; simpl.
    + rewrite fmap_insert. simpl. by rewrite content_untimed.
    + rewrite content_untimed. split_and!; [done|set_solver|by left].
  - intros name shard s r s' [= <- <-]. simpl. split_and!; [done|set_solver..].
  - by intros name shard s r s' [= <- <-].
  - by intros name s r s' [= <- <-].
  - intros name s r s' [= <- <-]. simpl. split; [done|]. intros k Hk.
    rewrite !lookup_fmap. f_equal. apply option_eq. intros d. rewrite map_lookup_filter_Some. naive_solver.
Defined.

#[export] Instance demo_env : IndexEnv := {| RequestAnalyzer _ := Ok []; DefaultShardNum := 2 |}.
#[export] Existing Instance MappingsDemo.demo.

Definition empty_node : world meta files := MkWorld ∅ (MkMeta ∅ 0) (MkFiles ∅ ∅ 0 0 0).

Lemma index_list_wf_witness : ∃ ix w', GetOrCreateIndex "logs" "" 0 empty_node = (Ok (ix, false), w') ∧
  list_wf w' ∧ length (ix_Shards ix) = 2%nat ∧ is_ok (GetShardByDocID ix "a") = true.
Proof.
  destruct (GetOrCreateIndex "logs" "" 0 empty_node) as [[[ix []]|] w'] eqn:E; [by vm_compute in E| |by vm_compute in E].
  assert (0 < DefaultShardNum) as Hd by done.
  assert (list_wf empty_node) as Hw by apply map_Forall_empty.
  pose proof (proj1 (index_list_wf empty_node Hd Hw) _ _ _ _ _ E) as Hw'.
  exists ix, w'. split_and!; [done|done|by (vm_compute in E; injection E as <- <-)|].
  assert (Indexes w' !! "logs" = Some ix) as Hl by (vm_compute in E; by injection E as <- <-).
  destruct (proj2 (proj2 (proj2 (index_list_wf w' Hd Hw'))) "logs" ix "a" Hl) as (s & -> & _). done.
Defined.
End IndexDemo.
