(* ===== verification/Apply.v ===== *)
(** The applier of stream messages (pkg/streaming/apply.go), over the indexes of the
    node (Index.v), as the applier that the consumer (Consumer.v) relies on.

    [touched] is the set of the applier, the rest of the state is that of the indexes.
    Go visits the fields of a mapping in any order: [range_] is one of them. *)
From S2P Require Import Prelude Strings Hash State Wire Mappings Index Consumer.
#[local] Open Scope Z_scope.

(** encoding/json for [meta.IndexSimple], and the order of [range] over mappings. *)
Class ApplyEnv := {
  UnmarshalSimple : json → res IndexSimple;
  range_ : Mappings → list (string * Property);
  range_perm m : range_ m ≡ₚ map_to_list m;
}.

Record applier (MT DT : Type) := MkApplier { touched : gset string; core : world MT DT }.
Arguments MkApplier {_ _}. Arguments touched {_ _}. Arguments core {_ _}.

Section apply.
Context {MT DT : Type} `{!MetaIndex MT, !Files DT} {renv : RequestEnv} {ienv : IndexEnv} {aenv : ApplyEnv}.
#[local] Abbreviation W := (world MT DT).
#[local] Abbreviation A := (applier MT DT).

Definition on_core {B} : M W B → M A B := zoom core (λ x a, MkApplier (touched a) x).
(** A computation on the indexes and a document, which it may change. *)
Definition on_doc {B} (c : M (W * option obj) B) (d : option obj) : M A (res B * option obj) := λ a,
  let '(r, (w, d)) := c (core a, d) in (Ok (r, d), MkApplier (touched a) w).
Definition touch (name : string) : M A () :=
  modify (λ a, MkApplier ({[name]} ∪ touched a) (core a)).

(** *** Documents *)

Definition classifyDocError (e : error) : error := if is_invalid e then PermanentError e else e.

Definition with_doc (m : Message) (d : option obj) : Message :=
  MkMessage (Kind m) (Index m) (ID m) d (Docs m) (Op m) (Data m).
Definition with_docs (m : Message) (ds : list Doc) : Message :=
  MkMessage (Kind m) (Index m) (ID m) (MDoc m) ds (Op m) (Data m).

(** Messages are passed by pointer: the message is part of the state. *)
Definition applyDoc (seq : Z) : M (A * Message) () :=
  m ← gets snd;
  match CheckIndexName (Index m) with
  | Some e => throw (PermanentError e)
  | None =>
      x ← on_fst (on_core (GetOrCreateIndex (Index m) "" 0));
      let id := if decide (ID m = "") then "seq-" +:+ FormatUint seq else ID m in
      r ← on_fst (on_doc (CreateDocument x.1 id) (MDoc m));
      on_snd (modify (λ m, with_doc m r.2));;
      match r.1 with
      | Err e => throw (classifyDocError e)
      | Ok _ => on_fst (touch (Index m))
      end
  end.

(** The identifier of document [i] of a batch. *)
Definition doc_id (seq i : Z) (d : Doc) : string :=
  if decide (doc_ID d = "") then "seq-" +:+ FormatUint seq +:+ "-" +:+ FormatUint i else doc_ID d.

(** The outcome, and the documents as they are left. *)
Fixpoint docs_loop (seq : Z) (ix : index) (i : Z) (ds : list Doc) : M A (res () * list Doc) :=
  match ds with
  | [] => mret (Ok (), [])
  | d :: ds =>
      x ← on_doc (CreateDocument ix (doc_id seq i d)) (doc_Doc d);
      let d := MkDoc (doc_ID d) x.2 in
      if match x.1 with Ok _ => true | Err e => is_invalid e end then
        y ← docs_loop seq ix (i + 1) ds; mret (y.1, d :: y.2)
      else mret (x.1, d :: ds)
  end.

Definition applyDocs (seq : Z) : M (A * Message) () :=
  m ← gets snd;
  match CheckIndexName (Index m) with
  | Some e => throw (PermanentError e)
  | None =>
      x ← on_fst (on_core (GetOrCreateIndex (Index m) "" 0));
      y ← on_fst (docs_loop seq x.1 0 (Docs m));
      on_snd (modify (λ m, with_docs m y.2));;
      match y.1 with
      | Err e => throw e
      | Ok _ => on_fst (touch (Index m))
      end
  end.

(** *** Administration *)

(** An error that skips the message; a panic is none. *)
Definition permanently {B} (r : res B) : M W B :=
  match r with
  | Ok b => mret b
  | Err e => throw (if is_panic e then e else PermanentError e)
  end.

Definition applyCreateIndex (m : Message) : M W () :=
  match CheckIndexName (Index m) with
  | Some e => throw (PermanentError e)
  | None =>
      o ← GetIndex (Index m);
      match o with
      | Some _ => mret ()
      | None =>
          simple ← match Data m with
                   | None => mret (MkSimple "" 0 None [])
                   | Some j => match UnmarshalSimple j with
                               | Ok s => mret s
                               | Err e => throw (Permanent ("create_index data: " +:+ err_text e))
                               end
                   end;
          if negb (bool_decide (si_Name simple = "")) && negb (bool_decide (si_Name simple = Index m)) then
            throw (Permanent ("create_index: index " +:+ Index m +:+ " does not match data.name " +:+
                              si_Name simple))
          else
            let settings := default (MkSettings 0 0 None) (si_Settings simple) in
            permanently (RequestAnalyzer (Analysis settings));;
            permanently (request (si_Mappings simple));;
            CreateIndexWorker simple (Index m)
      end
  end.

Definition applyDeleteIndex (m : Message) : M W () :=
  o ← GetIndex (Index m);
  match o with
  | None => mret ()
  | Some _ => DeleteIndex (Index m)
  end.

(** The body of [set_mapping] as a map; [null] gives an empty one. *)
Definition unmarshal_map (data : option json) : res obj :=
  match data with
  | Some (JObj o) => Ok (to_map o [])
  | Some JNull => Ok []
  | _ => Err ErrUnmarshal
  end.

(** The mappings of an index in the list are shared: they change in place. *)
Definition set_live (name field : string) (p : Property) : M W () :=
  modify (λ w, MkWorld
    (alter (λ ix, with_mappings ix (Some (<[field := p]> (default ∅ (ix_Mappings ix))))) name (Indexes w))
    (metaidx w) (disk w)).

(** Adds the fields that are new; whether there were any. *)
Fixpoint merge_fields (name : string) (fields : list (string * Property)) (changed : bool) : M W bool :=
  match fields with
  | [] => mret changed
  | (field, prop) :: fields =>
      o ← GetIndex name;
      match (o ≫= ix_Mappings) ≫= (.!! field) with
      | Some old =>
          if decide (old = prop) then merge_fields name fields changed
          else throw (Permanent ("index [" +:+ name +:+ "] already maps field [" +:+ field +:+ "] differently"))
      | None =>
          set_live name field prop;;
          merge_fields name fields true
      end
  end.

(** Sub-fields have no sub-fields. *)
Definition strip (p : Property) : Property :=
  MkProperty (options p) (option_map (fmap (λ f, MkProperty (options f) None)) (Fields p)).

Definition nil_dereference : error := Panic "invalid memory address or nil pointer dereference".

Definition applySetMapping (m : Message) : M W () :=
  match CheckIndexName (Index m) with
  | Some e => throw (PermanentError e)
  | None =>
      req ← match unmarshal_map (Data m) with
            | Ok o => mret o
            | Err e => throw (Permanent ("set_mapping data: " +:+ err_text e))
            end;
      requested ← permanently (request req);
      x ← GetOrCreateIndex (Index m) "" 0;
      let '(ix, exists_) := (x : index * bool) in
      target ← match ix_Mappings ix with
               | Some current =>
                   if exists_ && negb (bool_decide (current = ∅)) then
                     match requested with
                     | None => throw nil_dereference
                     | Some r =>
                         changed ← merge_fields (Index m) (range_ r) false;
                         if changed : bool then
                           o ← GetIndex (Index m);
                           mret (Some (o ≫= ix_Mappings))
                         else mret None
                     end
                   else mret (Some requested)
               | None => mret (Some requested)
               end;
      match target with
      | None => mret ()
      | Some None => throw nil_dereference
      | Some (Some r) =>
          o ← GetIndex (Index m);
          let ix := index_SetMappings (default ix o) (Some (strip <$> r)) in
          put_index (Index m) ix;;
          StoreIndex ix
      end
  end.

Definition applyAdmin (m : Message) : M W () :=
  if decide (Op m = OpCreateIndex) then applyCreateIndex m
  else if decide (Op m = OpDeleteIndex) then applyDeleteIndex m
  else if decide (Op m = OpSetMapping) then applySetMapping m
  else throw (Permanent ("unknown admin op " +:+ Op m)).

(** *** Apply and Flush *)

Definition CoreApplier_Apply (seq : Z) : M (A * Message) () :=
  m ← gets snd;
  if decide (Kind m = KindDoc) then applyDoc seq
  else if decide (Kind m = KindDocs) then applyDocs seq
  else if decide (Kind m = KindAdmin) then on_fst (on_core (applyAdmin m))
  else throw (Permanent ("unknown message kind " +:+ Kind m)).

Fixpoint flush_loop (names : list string) (errs : list error) : M A (list error) :=
  match names with
  | [] => mret errs
  | name :: names =>
      o ← on_core (GetIndex name);
      match o with
      | None => flush_loop names errs
      | Some ix =>
          r ← try (on_core (SyncWAL ix));
          flush_loop names
            (match r with
             | Ok _ => errs
             | Err e => errs ++ [wrap ("sync wal of index " +:+ name +:+ ": ") e ""]
             end)
      end
  end.

Definition CoreApplier_Flush : M A () :=
  a ← get_state;
  modify (λ a, MkApplier ∅ (core a));;
  errs ← flush_loop (elements (touched a)) [];
  match errors_Join errs with Some e => throw e | None => mret () end.

#[export] Instance CoreApplier : Applier A := {|
  Apply := CoreApplier_Apply; Flush := CoreApplier_Flush |}.
End apply.

(** ** Administration: what goes wrong *)

Section admin_proofs.
Context {MT DT : Type} `{!MetaIndex MT, !Files DT} {renv : RequestEnv} {ienv : IndexEnv} {aenv : ApplyEnv}.
#[local] Abbreviation W := (world MT DT).

(** [set_mapping_empty_panics]: a [set_mapping] message whose mapping is empty or
    null, which decoding accepts, is no permanent error: it ends in a panic on every
    node, whether the index existed or not. *)
Theorem set_mapping_empty_panics m (w w1 : W) x :
  Data m = Some (JObj []) ∨ Data m = Some JNull → CheckIndexName (Index m) = None →
  GetOrCreateIndex (Index m) "" 0 w = (Ok x, w1) →
  applySetMapping m w = (Err nil_dereference, w1).
Proof.
  intros Hd Hc Hg. unfold applySetMapping. rewrite Hc.
  assert (unmarshal_map (Data m) = Ok []) as -> by (by destruct Hd as [->| ->]).
  unfold mbind, M_bind, mret, M_ret, permanently. simpl. rewrite Hg. destruct x as [ix b]; simpl.
  destruct (ix_Mappings ix) as [cur|]; [|done]. by destruct (b && negb (bool_decide (cur = ∅))).
Qed.

(** [delete_retry_succeeds]: when deleting an index fails on its metadata, the
    message is tried again, and the second attempt reports success at once, without
    touching the metadata. *)
Theorem delete_retry_succeeds m (w w1 : W) e :
  applyDeleteIndex m w = (Err e, w1) → applyDeleteIndex m w1 = (Ok (), w1).
Proof.
  intros H. unfold applyDeleteIndex, GetIndex, gets, mbind, M_bind in *. simpl in *.
  destruct (Indexes w !! Index m) eqn:Hl; [|done]. apply DeleteIndex_spec in H.
  by rewrite H, lookup_delete_eq.
Qed.
End admin_proofs.

(** ** Durability *)

Section durable.
Context {MT DT : Type} `{!MetaIndex MT, !Files DT, !FilesLaws DT} {renv : RequestEnv} {ienv : IndexEnv}
  {aenv : ApplyEnv}.
#[local] Abbreviation W := (world MT DT).
#[local] Abbreviation A := (applier MT DT).

(** A crash can lose accepted documents of the index. *)
Definition at_risk (w : W) (name : string) : bool :=
  match Indexes w !! name with
  | None => false
  | Some ix => existsb (λ sh, bool_decide ((ix_Name ix, sh) ∈ dirty (disk w))) (ix_Shards ix)
  end.

(** Syncing: the list stays, fewer shards are dirty. *)
Definition syncs (w w' : W) : Prop := Indexes w' = Indexes w ∧ docs_kept w w'.
#[local] Instance syncs_preorder : PreOrder syncs.
Proof.
  split; [by intros w|]. intros w1 w2 w3 [A1 B1] [A2 B2]. split; [congruence|by etrans].
Qed.

Lemma not_at_risk w name ix : Indexes w !! name = Some ix →
  (∀ sh, sh ∈ ix_Shards ix → (ix_Name ix, sh) ∉ dirty (disk w)) → at_risk w name = false.
Proof.
  intros Hl Hs. unfold at_risk. rewrite Hl. apply not_true_is_false.
  intros (sh & Hin & Hd%bool_decide_eq_true)%existsb_exists. apply (Hs sh); [|done].
  by apply list_elem_of_In.
Qed.

Lemma at_risk_syncs w w' name : syncs w w' → at_risk w name = false → at_risk w' name = false.
Proof.
  intros [Hi [_ Hd]]. unfold at_risk. rewrite Hi. destruct (Indexes w !! name) as [ix|]; [|done].
  rewrite <- !not_true_iff_false, !existsb_exists. intros H (sh & ? & ?%bool_decide_eq_true). apply H.
  exists sh. split; [done|]. apply bool_decide_eq_true. by apply Hd.
Qed.

Lemma Sync_syncs name sh (w w' : W) r : on_disk (Sync name sh) w = (r, w') →
  syncs w w' ∧ match r with Ok _ => (name, sh) ∉ dirty (disk w') | Err _ => True end.
Proof.
  intros H. unfold on_disk, zoom in H. destruct (Sync name sh (disk w)) as [r0 d] eqn:E.
  apply Sync_law in E as (E1 & E2 & E3). simplify_eq. by split_and!.
Qed.

Lemma sync_shards_spec name shs errs (w w' : W) r : sync_shards name shs errs w = (r, w') →
  syncs w w' ∧ ∃ errs', r = Ok errs' ∧
    (errs' = [] → errs = [] ∧ ∀ sh, sh ∈ shs → (name, sh) ∉ dirty (disk w')).
Proof.
  revert errs w. induction shs as [|sh shs IH]; intros errs w H; simpl in H.
  { unfold mret, M_ret in H. simplify_eq. split; [done|]. eexists. split; [done|].
    intros ->. split; [done|]. by intros ? ?%elem_of_nil. }
  apply try_inv in H as (x & w1 & H1 & H). apply Sync_syncs in H1 as [Hs1 Hx].
  apply IH in H as (Hs2 & errs' & -> & He). split; [by etrans|]. eexists. split; [done|].
  intros He0. destruct (He He0) as [Hc Hn]. destruct x; [|by destruct errs].
  split; [done|]. intros sh' [->|?]%elem_of_cons; [|by apply Hn].
  intros Hd. apply Hx. destruct Hs2 as (_ & _ & Hsub). by apply Hsub.
Qed.

Lemma SyncWAL_spec ix (w w' : W) r : SyncWAL ix w = (r, w') →
  syncs w w' ∧ (is_ok r = true → ∀ sh, sh ∈ ix_Shards ix → (ix_Name ix, sh) ∉ dirty (disk w')).
Proof.
  intros H. unfold SyncWAL in H. apply bind_inv in H as [(e & H & ->)|(errs & w1 & H1 & H)].
  - apply sync_shards_spec in H as (? & ? & ? & _). done.
  - apply sync_shards_spec in H1 as (? & errs' & [= <-] & He).
    destruct (errors_Join errs) eqn:Hj; unfold throw, mret, M_ret in H; simplify_eq; [done|].
    apply errors_Join_None in Hj as ->. split; [done|]. intros _. by apply He.
Qed.

Lemma flush_loop_spec names errs (a a' : A) r : flush_loop names errs a = (r, a') →
  syncs (core a) (core a') ∧ touched a' = touched a ∧ ∃ errs', r = Ok errs' ∧
    (errs' = [] → errs = [] ∧ ∀ name, name ∈ names → at_risk (core a') name = false).
Proof.
  revert errs a. induction names as [|name names IH]; intros errs a H; simpl in H.
  { unfold mret, M_ret in H. simplify_eq. split_and!; [done..|]. eexists. split; [done|].
    intros ->. split; [done|]. by intros ? ?%elem_of_nil. }
  apply bind_inv in H as [(e & H & _)|(o & a1 & H1 & H)]; [done|].
  unfold on_core, zoom, GetIndex, gets in H1. simpl in H1. injection H1 as <- <-.
  destruct (Indexes (core a) !! name) as [ix|] eqn:Hl.
  - apply try_inv in H as (x & a2 & H2 & H). unfold on_core, zoom in H2.
    cbn [core touched] in H2. destruct (SyncWAL ix (core a)) as [x' c] eqn:E.
    apply SyncWAL_spec in E as [Hs1 Hc]. injection H2 as <- <-.
    apply IH in H as (Hs2 & Ht & errs' & -> & He). cbn [core touched] in *.
    split_and!; [by etrans|done|]. eexists. split; [done|]. intros He0.
    destruct (He He0) as [Hn0 Hn]. destruct x'; [|by destruct errs].
    split; [done|]. intros nm [->|?]%elem_of_cons; [|by apply Hn].
    eapply at_risk_syncs; [exact Hs2|]. eapply not_at_risk; [|by apply Hc].
    destruct Hs1 as [-> _]. done.
  - apply IH in H as (Hs2 & Ht & errs' & -> & He). cbn [core touched] in *.
    split_and!; [done..|]. eexists. split; [done|]. intros He0. destruct (He He0) as [Hn0 Hn].
    split; [done|]. intros nm [->|?]%elem_of_cons; [|by apply Hn].
    unfold at_risk. destruct Hs2 as [-> _]. by rewrite Hl.
Qed.

Lemma CoreFlush_spec (a a' : A) r : CoreApplier_Flush a = (r, a') →
  syncs (core a) (core a') ∧ (is_ok r = true → ∀ name, name ∈ touched a → at_risk (core a') name = false).
Proof.
  intros H. unfold CoreApplier_Flush in H. apply bind_inv in H as [(e & [=] & _)|(a0 & a1 & [= <- <-] & H)].
  apply bind_inv in H as [(e & [=] & _)|([] & a1 & [= <-] & H)].
  apply bind_inv in H as [(e & H & ->)|(errs & a2 & H1 & H)].
  { apply flush_loop_spec in H as (? & _ & ? & ? & _). done. }
  apply flush_loop_spec in H1 as (Hs & _ & errs' & [= <-] & He). cbn [core] in Hs.
  destruct (errors_Join errs) eqn:Hj; unfold throw, mret, M_ret in H; simplify_eq; [done|].
  apply errors_Join_None in Hj as ->. split; [done|]. intros _ name Hn. destruct (He eq_refl) as [_ Hr].
  apply Hr. by apply elem_of_elements.
Qed.

(** *** What a message changes *)

(** Only the index [n] and its documents change. *)
Definition frame (n : string) (w w' : W) : Prop :=
  (∀ k, k ≠ n → Indexes w' !! k = Indexes w !! k) ∧
  (∀ k, k.1 ≠ n → accepted (disk w') !! k = accepted (disk w) !! k).
#[local] Instance frame_preorder n : PreOrder (frame n).
Proof.
  split; [by intros w|]. intros w1 w2 w3 [A1 B1] [A2 B2].
  split; intros; [rewrite A2, A1 by done|rewrite B2, B1 by done]; done.
Qed.

Lemma docs_frame n w w' : (∀ k, k ≠ n → Indexes w' !! k = Indexes w !! k) → docs_kept w w' → frame n w w'.
Proof. intros Hi [Ha _]. split; [done|]. intros k _. by rewrite Ha. Qed.

Lemma GetOrCreateIndex_frame n (w w' : W) r : 0 < DefaultShardNum → list_wf w →
  GetOrCreateIndex n "" 0 w = (r, w') → frame n w w'.
Proof.
  intros Hd Hw H. pose proof (GetOrCreateIndex_docs _ _ _ _ _ _ H) as Hdo.
  apply GetOrCreateIndex_spec in H; [|done..]. apply docs_frame; [|done]. intros k Hk.
  destruct r as [[ix []]|]; [by destruct H as [_ ->]| |by rewrite H].
  destruct H as (_ & _ & ->). by rewrite lookup_insert_ne.
Qed.

Lemma CreateDocument_spec ix id d (w w' : W) r d' : CreateDocument ix id (w, d) = (r, (w', d')) →
  content d' = content d ∧ Indexes w' = Indexes w ∧
  match r with
  | Ok _ => accepted (disk w') = <[(ix_Name ix, id) := content d]> (accepted (disk w))
  | Err e => accepted (disk w') = accepted (disk w) ∨
             is_invalid e = false ∧ accepted (disk w') = <[(ix_Name ix, id) := content d]> (accepted (disk w))
  end.
Proof.
  intros H. unfold CreateDocument in H. apply bind_inv in H as [(e & H & ->)|(sh & w1 & H1 & H)].
  - unfold lift in H. simplify_eq. split_and!; [done..|by left].
  - unfold lift in H1. injection H1 as H1 <-. unfold zoom in H. simpl in H.
    destruct (Accept _ _ _ _) as [r0 [dk d0]] eqn:E. apply Accept_law in E as (Hd & _ & E).
    injection H as <- <- <-. destruct r0; done.
Qed.

Lemma CreateDocument_frame ix id d (w w' : W) r d' : CreateDocument ix id (w, d) = (r, (w', d')) →
  frame (ix_Name ix) w w'.
Proof.
  intros (_ & Hi & Ha)%CreateDocument_spec. split; [by intros; rewrite Hi|]. intros k Hk.
  assert (accepted (disk w') = accepted (disk w) ∨
          accepted (disk w') = <[(ix_Name ix, id) := content d]> (accepted (disk w))) as [-> | ->]
    by (destruct r; naive_solver); [done|].
  rewrite lookup_insert_ne; [done|]. intros <-. done.
Qed.

(** The index a message gets. *)
Lemma GetOrCreateIndex_name n st k (w w' : W) ix b : 0 < DefaultShardNum → list_wf w →
  GetOrCreateIndex n st k w = (Ok (ix, b), w') → ix_Name ix = n ∧ list_wf w'.
Proof.
  intros Hd Hw H. apply GetOrCreateIndex_spec in H; [|done..]. destruct b.
  - destruct H as [Hl ->]. split; [|done]. by apply (wf_name _ _ (Hw _ _ Hl)).
  - destruct H as (_ & Hi & Hs). split; [by apply wf_name|]. unfold list_wf. rewrite Hs.
    by apply map_Forall_insert_2.
Qed.

Lemma on_core_inv {B} (c : M W B) (a a' : A) r : on_core c a = (r, a') →
  c (core a) = (r, core a') ∧ touched a' = touched a.
Proof. unfold on_core, zoom. destruct (c (core a)) eqn:E. by intros [= <- <-]. Qed.

Lemma on_doc_inv {B} (c : M (W * option obj) B) d (a a' : A) r :
  on_doc c d a = (r, a') → ∃ x d', r = Ok (x, d') ∧ c (core a, d) = (x, (core a', d')) ∧ touched a' = touched a.
Proof. unfold on_doc. destruct (c _) as [x [w d']] eqn:E. intros [= <- <-]. eauto. Qed.

Lemma docs_loop_frame seq ix i ds (a a' : A) r : docs_loop seq ix i ds a = (r, a') →
  is_ok r = true ∧
  frame (ix_Name ix) (core a) (core a') ∧ Indexes (core a') = Indexes (core a) ∧ touched a' = touched a.
Proof.
  revert i a a' r. induction ds as [|d ds IH]; intros i a a' r H; simpl in H.
  { unfold mret, M_ret in H. by simplify_eq. }
  apply bind_inv in H as [(e & (? & ? & [=] & _)%on_doc_inv & _)|(x & a1 & (x' & d' & [= ->] & H1 & Ht)%on_doc_inv & H)].
  simpl in H. pose proof (CreateDocument_frame _ _ _ _ _ _ _ H1) as Hf.
  apply CreateDocument_spec in H1 as (_ & Hi & _).
  destruct (match x' with Ok _ => _ | Err _ => _ end).
  - apply bind_inv in H as [(e & H2 & ->)|(y & a2 & H2 & H)]; apply IH in H2 as (Hok & ? & ? & ?); [done|].
    unfold mret, M_ret in H. simplify_eq. split_and!; [done|by etrans|congruence..].
  - unfold mret, M_ret in H. by simplify_eq.
Qed.

(** What the two kinds of messages of documents do. *)
Definition documents_applied (n : string) (a a' : A) (r : res ()) : Prop :=
  frame n (core a) (core a') ∧ list_wf (core a') ∧
  touched a ⊆ touched a' ∧ (is_ok r = true → n ∈ touched a').

Lemma with_index n (a : A) (f : index * bool → M (A * Message) ()) m r a' m' :
  0 < DefaultShardNum → list_wf (core a) →
  (x ← on_fst (on_core (GetOrCreateIndex n "" 0)); f x) (a, m) = (r, (a', m')) →
  (∀ ix b a1, ix_Name ix = n → list_wf (core a1) → f (ix, b) (a1, m) = (r, (a', m')) →
     documents_applied n a1 a' r) →
  documents_applied n a a' r.
Proof.
  intros Hd Hw H Hf.
  apply bind_inv in H as [(e & H & ->)|([ix b] & [a2 m2] & H1 & H)].
  - apply on_fst_run in H as [[H Ht]%on_core_inv ->].
    pose proof (GetOrCreateIndex_frame _ _ _ _ Hd Hw H). apply GetOrCreateIndex_spec in H; [|done..].
    split_and!; [done| |by rewrite Ht|done]. unfold list_wf. by rewrite H.
  - apply on_fst_run in H1 as [[H1 Ht1]%on_core_inv ->].
    pose proof (GetOrCreateIndex_frame _ _ _ _ Hd Hw H1) as Hf1.
    apply GetOrCreateIndex_name in H1 as [Hn Hw1]; [|done..].
    destruct (Hf _ _ _ Hn Hw1 H) as (? & ? & ? & ?). split_and!; [by etrans|done|by rewrite <- Ht1|done].
Qed.

Lemma applyDoc_spec seq m m' (a a' : A) r : 0 < DefaultShardNum → list_wf (core a) →
  applyDoc seq (a, m) = (r, (a', m')) → documents_applied (Index m) a a' r.
Proof.
  intros Hd Hw H. apply bind_inv in H as [(e & [=] & _)|(m0 & s & [= <- <-] & H)]. simpl in H.
  destruct (CheckIndexName (Index m)); [unfold throw in H; by simplify_eq|].
  eapply with_index in H; [done..|]. clear a Hw H. intros ix b a Hn Hw H. cbv zeta in H. simpl fst in H.
  apply bind_inv in H as [(e & H & _)|([x d] & [a2 m2] & H2 & H)].
  { by apply on_fst_run in H as [(? & ? & [=] & _)%on_doc_inv _]. }
  apply on_fst_run in H2 as [(x' & d' & [= <- <-] & H2 & Ht2)%on_doc_inv ->].
  pose proof (CreateDocument_frame _ _ _ _ _ _ _ H2) as Hf2. rewrite Hn in Hf2.
  apply CreateDocument_spec in H2 as (_ & Hi & _).
  assert (list_wf (core a2)) as Hw2 by (unfold list_wf; by rewrite Hi).
  apply bind_inv in H as [(e & [=] & _)|([] & s & [= <-] & H)]. simpl in H. destruct x as [u|e].
  - apply on_fst_run in H as [[= <- <-] _]. split_and!; simpl; [done|done|set_solver|set_solver].
  - unfold throw in H. simplify_eq/=. split_and!; [done|done|set_solver|done].
Qed.

Lemma applyDocs_spec seq m m' (a a' : A) r : 0 < DefaultShardNum → list_wf (core a) →
  applyDocs seq (a, m) = (r, (a', m')) → documents_applied (Index m) a a' r.
Proof.
  intros Hd Hw H. apply bind_inv in H as [(e & [=] & _)|(m0 & s & [= <- <-] & H)]. simpl in H.
  destruct (CheckIndexName (Index m)); [unfold throw in H; by simplify_eq|].
  eapply with_index in H; [done..|]. clear a Hw H. intros ix b a Hn Hw H. simpl fst in H.
  apply bind_inv in H as [(e & H & _)|([x ds] & [a2 m2] & H2 & H)].
  { by apply on_fst_run in H as [[? _]%docs_loop_frame _]. }
  apply on_fst_run in H2 as [(_ & Hf2 & Hi & Ht2)%docs_loop_frame ->]. rewrite Hn in Hf2.
  assert (list_wf (core a2)) as Hw2 by (unfold list_wf; by rewrite Hi).
  apply bind_inv in H as [(e & [=] & _)|([] & s & [= <-] & H)]. simpl in H. destruct x as [u|e].
  - apply on_fst_run in H as [[= <- <-] _]. split_and!; simpl; [done|done|set_solver|set_solver].
  - unfold throw in H. simplify_eq/=. split_and!; [done|done|set_solver|done].
Qed.

(** The same with the list well-formed, for administration. *)
Definition changes (n : string) (w w' : W) : Prop := list_wf w → frame n w w' ∧ list_wf w'.
#[local] Instance changes_preorder n : PreOrder (changes n).
Proof.
  split; [by intros w|]. intros w1 w2 w3 C1 C2 Hw. destruct (C1 Hw) as [F1 Hw2].
  destruct (C2 Hw2) as [F2 Hw3]. split; [by etrans|done].
Qed.

Lemma GetOrCreateIndex_changes n : 0 < DefaultShardNum → keeps (changes n) (GetOrCreateIndex n "" 0).
Proof.
  intros Hd w r w' H Hw. split; [by eapply GetOrCreateIndex_frame|].
  apply GetOrCreateIndex_spec in H; [|done..]. unfold list_wf. destruct r as [[ix []]|].
  - by destruct H as [_ ->].
  - destruct H as (_ & ? & ->). by apply map_Forall_insert_2.
  - by rewrite H.
Qed.

Lemma put_index_changes n ix : wf_index n ix → keeps (changes n) (put_index n ix).
Proof.
  intros Hi w r w' [= <- <-] Hw. split; [|by apply map_Forall_insert_2].
  apply docs_frame; [|done]. intros k Hk. simpl. by rewrite lookup_insert_ne.
Qed.

Lemma StoreIndex_changes n ix : wf_index n ix → keeps (changes n) (StoreIndex ix).
Proof.
  intros Hi w r w' H Hw. pose proof (StoreIndex_docs _ _ _ _ H).
  split; [|by eapply StoreIndex_wf]. apply docs_frame; [|done]. intros k Hk.
  apply StoreIndex_spec in H. destruct r; rewrite H; [|done].
  rewrite lookup_insert_ne; [done|]. by rewrite (wf_name _ _ Hi).
Qed.

Lemma set_live_changes n field p : keeps (changes n) (set_live n field p).
Proof.
  intros w r w' [= <- <-] Hw. split.
  - apply docs_frame; [|done]. intros k Hk. simpl. by rewrite lookup_alter_ne.
  - intros k ix. simpl. rewrite lookup_alter_Some. intros [(-> & ix' & Hl & ->)|[? Hl]]; [|by apply Hw].
    by apply (with_wf _ ix'), Hw.
Qed.
#[local] Hint Resolve GetOrCreateIndex_changes put_index_changes StoreIndex_changes set_live_changes : keeps.

Lemma merge_fields_changes n fs b : keeps (changes n) (merge_fields n fs b).
Proof.
  revert b. induction fs as [|[f p] fs IH]; intros b; simpl; unfold GetIndex; solve_keeps; auto with keeps.
Qed.
#[local] Hint Resolve merge_fields_changes : keeps.

(** The end of [applySetMapping]. *)
Lemma set_and_store_changes n ix m : wf_index n ix → keeps (changes n)
  (o ← GetIndex n;
   let ix := index_SetMappings (default ix o) (Some m) in
   put_index n ix;; StoreIndex ix).
Proof.
  intros Hi w r w' H Hw. apply bind_inv in H as [(e & H & _)|(o & w1 & H1 & H)]; [done|].
  unfold GetIndex, gets in H1. injection H1 as <- <-. cbv zeta in H.
  set (ix' := index_SetMappings _ _) in H. assert (wf_index n ix') as Hi'.
  { apply index_SetMappings_wf. destruct (Indexes w !! n) eqn:Hl; simpl; [by apply Hw|done]. }
  clearbody ix'. assert (keeps (changes n) (put_index n ix';; StoreIndex ix')) as Hk by solve_keeps.
  by apply Hk in H; apply H.
Qed.

Lemma permanently_keeps {B} R `{!PreOrder R} (r : res B) : keeps R (permanently r : M W B).
Proof. unfold permanently. solve_keeps. Qed.

Lemma applySetMapping_changes m : 0 < DefaultShardNum → keeps (changes (Index m)) (applySetMapping m).
Proof.
  intros Hd w r w' H Hw. unfold applySetMapping in H.
  destruct (CheckIndexName (Index m)); [unfold throw in H; by simplify_eq|].
  apply bind_inv in H as [(e & H & ->)|(req & w1 & H1 & H)].
  { destruct (unmarshal_map (Data m)); unfold mret, M_ret, throw in H; by simplify_eq. }
  assert (w1 = w) as -> by (destruct (unmarshal_map (Data m)); unfold mret, M_ret, throw in H1; by simplify_eq).
  apply bind_inv in H as [(e & H & ->)|(rq & w2 & H2 & H)].
  { apply (permanently_keeps eq) in H. by subst. }
  apply (permanently_keeps eq) in H2. subst w2.
  apply bind_inv in H as [(e & H & ->)|([ix b] & w3 & H3 & H)].
  { by apply (GetOrCreateIndex_changes (Index m) Hd) in H; apply H. }
  pose proof (GetOrCreateIndex_changes (Index m) Hd _ _ _ H3 Hw) as [Hf Hw3].
  assert (wf_index (Index m) ix) as Hi.
  { apply GetOrCreateIndex_spec in H3; [|done..]. destruct b; [|by destruct H3 as (_ & ? & _)].
    destruct H3 as [Hl ->]. by apply Hw. }
  clear H1 H3 Hd. assert (changes (Index m) w3 w') as Hc.
  2: { destruct (Hc Hw3) as [? ?]. split; [by etrans|done]. }
  match type of H with (?c ≫= ?f) _ = _ => assert (keeps (changes (Index m)) (c ≫= f)) as Hk end;
    [|by apply Hk in H].
  apply keeps_bind; [apply _|solve_keeps; unfold GetIndex; solve_keeps|].
  intros [[q|]|]; [|solve_keeps..]. by apply set_and_store_changes.
Qed.

Lemma applyDeleteIndex_changes m : keeps (changes (Index m)) (applyDeleteIndex m).
Proof.
  intros w r w' H Hw. unfold applyDeleteIndex in H.
  apply bind_inv in H as [(e & H & _)|(o & w1 & H1 & H)]; [done|].
  unfold GetIndex, gets in H1. injection H1 as <- <-. destruct (Indexes w !! Index m) eqn:Hl.
  2: { unfold mret, M_ret in H. by simplify_eq. }
  pose proof (DeleteIndex_docs _ _ _ _ Hw H) as Hdo. apply DeleteIndex_spec in H.
  split; [|unfold list_wf; rewrite H; by apply map_Forall_delete].
  split; [|done]. intros k Hk. by rewrite H, lookup_delete_ne.
Qed.

Lemma applyCreateIndex_changes m : 0 < DefaultShardNum → keeps (changes (Index m)) (applyCreateIndex m).
Proof.
  intros Hd w r w' H Hw. unfold applyCreateIndex in H.
  destruct (CheckIndexName (Index m)); [unfold throw in H; by simplify_eq|].
  apply bind_inv in H as [(e & H & _)|(o & w1 & H1 & H)]; [done|].
  unfold GetIndex, gets in H1. injection H1 as <- <-. destruct (Indexes w !! Index m) eqn:Hl.
  { unfold mret, M_ret in H. by simplify_eq. }
  set (c := match Data m with None => _ | Some _ => _ end) in H.
  assert (keeps eq c) as Hc by (unfold c; solve_keeps).
  apply bind_inv in H as [(e & H & ->)|(si & w1 & H1 & H)]; [by apply Hc in H as <-|].
  apply Hc in H1 as <-. clear c Hc.
  destruct (negb _ && negb _) eqn:Hsi; [unfold throw in H; by simplify_eq|]. cbv zeta in H.
  apply bind_inv in H as [(e & H & ->)|(x1 & w1 & H1 & H)]; [by apply (permanently_keeps eq) in H as <-|].
  apply (permanently_keeps eq) in H1 as <-.
  apply bind_inv in H as [(e & H & ->)|(x2 & w1 & H1 & H)]; [by apply (permanently_keeps eq) in H as <-|].
  apply (permanently_keeps eq) in H1 as <-.
  pose proof (CreateIndexWorker_docs _ _ _ _ _ H) as Hdo. apply CreateIndexWorker_spec in H; [|done].
  assert (list_wf w' ∧ ∀ k, k ≠ Index m → Indexes w' !! k = Indexes w !! k) as [Hw' Hi].
  2: { split; [by apply docs_frame|done]. }
  unfold list_wf. destruct H as [->|(n & ix & Hn & _ & Hix & ->)]; [done|].
  assert (n = Index m) as ->.
  { destruct Hn as [?|Hn]; [done|]. apply andb_false_iff in Hsi.
    destruct Hsi as [He%negb_false_iff%bool_decide_eq_true|?%negb_false_iff%bool_decide_eq_true]; [|congruence].
    pose proof (wf_valid _ _ Hix) as Hv. by rewrite Hn, He in Hv. }
  split; [by apply map_Forall_insert_2|]. intros k Hk. by rewrite lookup_insert_ne.
Qed.

Lemma applyAdmin_changes m : 0 < DefaultShardNum → keeps (changes (Index m)) (applyAdmin m).
Proof.
  intros Hd. unfold applyAdmin. repeat case_decide;
    auto using applyCreateIndex_changes, applyDeleteIndex_changes, applySetMapping_changes.
  apply keeps_throw, _.
Qed.

Lemma Apply_spec seq m m' (a a' : A) r : 0 < DefaultShardNum → list_wf (core a) →
  CoreApplier_Apply seq (a, m) = (r, (a', m')) → frame (Index m) (core a) (core a') ∧ list_wf (core a').
Proof.
  intros Hd Hw H. apply bind_inv in H as [(e & [=] & _)|(m0 & s & [= <- <-] & H)]. simpl in H.
  destruct (decide (Kind m = KindDoc)); [by apply applyDoc_spec in H as (? & ? & _)|].
  destruct (decide (Kind m = KindDocs)); [by apply applyDocs_spec in H as (? & ? & _)|].
  destruct (decide (Kind m = KindAdmin)) as [Hk|]; [|unfold throw in H; by simplify_eq].
  apply on_fst_run in H as [[H Ht]%on_core_inv ->]. apply applyAdmin_changes in H; [|done].
  by destruct (H Hw).
Qed.

(** [Apply_frame]: whatever a message holds, and wherever applying it fails, it
    changes no other index than its own: the mappings and settings of the others, and
    their documents, stay; and the list of indexes stays well-formed. *)
Theorem Apply_frame seq m m' (a a' : A) r : 0 < DefaultShardNum → list_wf (core a) →
  CoreApplier_Apply seq (a, m) = (r, (a', m')) →
  list_wf (core a') ∧ (∀ k, k ≠ Index m → Indexes (core a') !! k = Indexes (core a) !! k) ∧
  (∀ k id, k ≠ Index m → accepted (disk (core a')) !! (k, id) = accepted (disk (core a)) !! (k, id)).
Proof.
  intros Hd Hw H. apply Apply_spec in H as ([Hi Ha] & ?); [|done..].
  split_and!; [done|done|]. intros k id Hk. by apply Ha.
Qed.

(** *** A batch that is tried again *)

(** The contents of the documents of a batch, with their identifiers. *)
Fixpoint writes (seq i : Z) (ds : list Doc) : list (string * option obj) :=
  match ds with
  | [] => []
  | d :: ds => (doc_id seq i d, content (doc_Doc d)) :: writes seq (i + 1) ds
  end.
(** Those that were accepted. *)
Fixpoint taken {A} (oks : list bool) (l : list A) : list A :=
  match oks, l with
  | true :: oks, x :: l => x :: taken oks l
  | false :: oks, _ :: l => taken oks l
  | _, _ => []
  end.
Lemma taken_all {A} (oks : list bool) (l : list A) : length oks = length l → Forall (eq true) oks → taken oks l = l.
Proof. revert l. induction oks as [|b oks IH]; intros [|x l] Hl Hf; try done. apply Forall_cons in Hf as [<- ?]. simpl. f_equal. apply IH; [by injection Hl|done]. Qed.

Definition write_all (name : string) (ws : list (string * option obj)) (docs : gmap (string * string) (option obj)) :=
  foldl (λ docs w, <[(name, w.1) := w.2]> docs) docs ws.

(** Writing all of them forgets what was at their identifiers. *)
Lemma write_all_agree name ws docs1 docs2 :
  (∀ k, (∀ id, id ∈ ws.*1 → k ≠ (name, id)) → docs1 !! k = docs2 !! k) →
  write_all name ws docs1 = write_all name ws docs2.
Proof.
  revert docs1 docs2. induction ws as [|[id d] ws IH]; intros docs1 docs2 Hk; simpl.
  - apply map_eq. intros k. apply Hk. by intros ? ?%elem_of_nil.
  - apply IH. intros k Hn. destruct (decide (k = (name, id))) as [->|Hne]; [by rewrite !lookup_insert_eq|].
    rewrite !lookup_insert_ne by done. apply Hk. intros id' [->|?]%elem_of_cons; [done|by apply Hn].
Qed.

(** Going through the documents of a batch to its end: each is taken, or refused as invalid
    then and there. *)
Inductive pass (ix : index) : list (string * option obj) → list bool → W → W → Prop :=
| pass_nil w : pass ix [] [] w w
| pass_cons id d d' r ws oks w w1 w' :
    CreateDocument ix id (w, d) = (r, (w1, d')) → (∀ e, r = Err e → is_invalid e = true) →
    pass ix ws oks w1 w' → pass ix ((id, content d) :: ws) (is_ok r :: oks) w w'.
Definition outside_of (name : string) (ws : list (string * option obj)) (w w' : W) : Prop :=
  ∀ k, (∀ id, id ∈ ws.*1 → k ≠ (name, id)) → accepted (disk w') !! k = accepted (disk w) !! k.

(** It writes those that were taken. *)
Lemma pass_writes ix ws oks (w w' : W) : pass ix ws oks w w' → length oks = length ws ∧
  accepted (disk w') = write_all (ix_Name ix) (taken oks ws) (accepted (disk w)).
Proof.
  induction 1 as [w|id d d' r ws oks w w1 w' Hc Hr _ [IH1 IH2]]; [done|]. split; [simpl; by f_equal|].
  rewrite IH2. apply CreateDocument_spec in Hc as (_ & _ & Ha). destruct r as [u|e]; simpl; [by rewrite Ha|].
  destruct Ha as [->|[Hn _]]; [done|]. by rewrite (Hr e eq_refl) in Hn.
Qed.

(** The documents left behind have the contents of those before. *)
Lemma docs_loop_writes seq ix i ds (a a' : A) r ds' : docs_loop seq ix i ds a = (Ok (r, ds'), a') →
  writes seq i ds' = writes seq i ds ∧ outside_of (ix_Name ix) (writes seq i ds) (core a) (core a') ∧
  (r = Ok () → ∃ oks, pass ix (writes seq i ds) oks (core a) (core a')).
Proof.
  revert i a a' r ds'. induction ds as [|d ds IH]; intros i a a' r ds' H; simpl in H.
  { unfold mret, M_ret in H. simplify_eq. split_and!; [done..|]. intros _. exists []. constructor. }
  apply bind_inv in H as [(e & _ & [=])|(x & a1 & (x' & d' & [= ->] & H1 & Ht)%on_doc_inv & H)].
  simpl in H. pose proof H1 as Hrun. apply CreateDocument_spec in H1 as (Hc & _ & Ha).
  assert (doc_id seq i (MkDoc (doc_ID d) d') = doc_id seq i d) as Hid by done.
  assert (∀ k, k ≠ (ix_Name ix, doc_id seq i d) →
      accepted (disk (core a1)) !! k = accepted (disk (core a)) !! k) as Hk1.
  { intros k Hk. destruct x' as [|e]; [|destruct Ha as [Ha|[_ Ha]]]; rewrite Ha, ?lookup_insert_ne; done. }
  simpl writes. destruct (match x' with Ok _ => _ | Err _ => _ end) eqn:Hx.
  - apply bind_inv in H as [(e & _ & [=])|([r2 ds2] & a2 & H2 & [= <- <- <-])].
    apply IH in H2 as (Hw2 & Hk2 & Hr2). split_and!.
    + simpl. by rewrite Hid, Hc, Hw2.
    + intros k Hk. rewrite Hk2; [apply Hk1, Hk; by left|]. intros id Hin. apply Hk. by right.
    + intros Hok. destruct (Hr2 Hok) as [oks Hp]. exists (is_ok x' :: oks). eapply pass_cons; [exact Hrun| |exact Hp].
      by intros e ->.
  - unfold mret, M_ret in H. simplify_eq/=. rewrite Hid, Hc. split_and!; [done| |by destruct r].
    intros k Hk. apply Hk1, Hk. by left.
Qed.

Lemma applyDocs_writes seq m m' (a a' : A) r : 0 < DefaultShardNum → list_wf (core a) →
  applyDocs seq (a, m) = (r, (a', m')) →
  list_wf (core a') ∧ Index m' = Index m ∧ writes seq 0 (Docs m') = writes seq 0 (Docs m) ∧
  outside_of (Index m) (writes seq 0 (Docs m)) (core a) (core a') ∧
  (r = Ok () → ∃ ix oks w, ix_Name ix = Index m ∧ accepted (disk w) = accepted (disk (core a)) ∧
     pass ix (writes seq 0 (Docs m)) oks w (core a')).
Proof.
  intros Hd Hw H. split; [by apply applyDocs_spec in H as (_ & ? & _)|].
  apply bind_inv in H as [(e & [=] & _)|(m0 & s & [= <- <-] & H)]. simpl in H.
  destruct (CheckIndexName (Index m)); [unfold throw in H; by simplify_eq|].
  apply bind_inv in H as [(e & H & ->)|([ix x] & [b1 n1] & H1 & H)].
  { apply on_fst_run in H as [[H _]%on_core_inv ->]. apply GetOrCreateIndex_docs in H as [Ha _].
    split_and!; [done..| |done]. intros k _. by rewrite Ha. }
  apply on_fst_run in H1 as [[H1 _]%on_core_inv ->].
  pose proof (GetOrCreateIndex_name _ _ _ _ _ _ _ Hd Hw H1) as [Hn _].
  apply GetOrCreateIndex_docs in H1 as [Ha _]. simpl fst in H. unfold outside_of. rewrite <- Ha, <- Hn.
  apply bind_inv in H as [(e & H & _)|([x' ds] & [b2 n2] & H2 & H)].
  { by apply on_fst_run in H as [[? _]%docs_loop_frame _]. }
  apply on_fst_run in H2 as [H2 ->]. apply docs_loop_writes in H2 as (Hw2 & Hk2 & Hr2).
  apply bind_inv in H as [(e & [=] & _)|([] & s & [= <-] & H)]. simpl in H. destruct x' as [u|e].
  - apply on_fst_run in H as [[= <- <-] ->]. split_and!; [done..|]. intros _. destruct (Hr2 ltac:(by destruct u)) as [oks Hp]. by exists ix, oks, (core b1).
  - unfold throw in H. simplify_eq/=. split_and!; done.
Qed.

(** C25: a batch that fails in the middle and is applied again as a whole, any number of
    times, until an attempt reports success: the last attempt has written, in their
    order and under the identifiers all attempts use, the documents of the message,
    except those that it refused as invalid; the attempts before it wrote at these
    identifiers only. So when none was refused there is what one pass without failures
    would have left. Contents are compared without [@timestamp], which a retry replaces
    ([retry_loses_timestamp]), and without the scalars in lists, which checking converts
    in the message. *)
Theorem applyDocs_retry seq m m1 m2 (a a1 a2 : A) : 0 < DefaultShardNum → list_wf (core a) →
  rtc (λ s s', ∃ e, applyDocs seq s = (Err e, s')) (a, m) (a1, m1) → applyDocs seq (a1, m1) = (Ok (), (a2, m2)) →
  let ws := writes seq 0 (Docs m) in
  outside_of (Index m) ws (core a) (core a1) ∧
  ∃ ix oks w, ix_Name ix = Index m ∧ accepted (disk w) = accepted (disk (core a1)) ∧ pass ix ws oks w (core a2) ∧
    accepted (disk (core a2)) = write_all (Index m) (taken oks ws) (accepted (disk (core a1))) ∧
    (Forall (eq true) oks → accepted (disk (core a2)) = write_all (Index m) ws (accepted (disk (core a)))).
Proof.
  intros Hd Hw Hr Hok ws. assert (outside_of (Index m) ws (core a) (core a1) ∧
    ∃ ix oks w, ix_Name ix = Index m ∧ accepted (disk w) = accepted (disk (core a1)) ∧ pass ix ws oks w (core a2))
    as [Hout (ix & oks & w & Hn & Hacc & Hp)].
  { unfold ws. clear ws. remember (a, m) as s eqn:Es. remember (a1, m1) as s1 eqn:Es1. revert a m Es Hw.
    induction Hr as [s|s [b n] s1 [e He] Hr IH]; intros a m -> Hw.
    - injection Es1 as -> ->. split; [by intros k _|]. by eapply applyDocs_writes in Hok as (_ & _ & _ & _ & Hp); [apply Hp| |].
    - apply applyDocs_writes in He as (Hw' & Hn & Hws & Hk & _); [|done..].
      destruct (IH Es1 Hok _ _ eq_refl Hw') as [Ho Hp]. rewrite Hn, Hws in Ho, Hp. split; [|done].
      intros k Hin. rewrite Ho by done. by apply Hk. }
  split; [done|]. exists ix, oks, w. pose proof (pass_writes _ _ _ _ _ Hp) as [Hl Ha]. rewrite Hn, Hacc in Ha.
  split_and!; [done..|]. intros Hall. rewrite Ha, taken_all by done. apply write_all_agree. exact Hout.
Qed.
End durable.

(** ** The applier the consumer relies on

    The applier with a record of what it was given: for every message of documents
    that was applied its index, the messages whose documents are not at risk any more,
    those that were refused, and the order. Messages of administration have no
    documents. *)

Record trace (MT DT : Type) := MkTrace {
  run : applier MT DT; log : list (Z * string); safe : gset Z; refused : gset Z; order : list Z }.
Arguments MkTrace {_ _}. Arguments run {_ _}. Arguments log {_ _}. Arguments safe {_ _}.
Arguments refused {_ _}. Arguments order {_ _}.

Section traced.
Context {MT DT : Type} `{!MetaIndex MT, !Files DT, !FilesLaws DT} {renv : RequestEnv} {ienv : IndexEnv}
  {aenv : ApplyEnv}.
#[local] Abbreviation T := (trace MT DT).

(** What is not at risk after an operation is safe from then on. *)
Definition settle (t : T) : T :=
  MkTrace (run t) (log t)
    (safe t ∪ list_to_set (filter (λ x, at_risk (core (run t)) x.2 = false) (log t)).*1)
    (refused t) (order t).

Definition traced_Apply (seq : Z) : M (T * Message) () := λ '(t, m),
  let '(r, (a, m')) := CoreApplier_Apply seq (run t, m) in
  (r, (settle match r with
             | Ok _ =>
                 if decide (Kind m = KindAdmin)
                 then MkTrace a (log t) ({[seq]} ∪ safe t) (refused t) (order t ++ [seq])
                 else MkTrace a ((seq, Index m) :: log t) (safe t) (refused t) (order t ++ [seq])
             | Err e => MkTrace a (log t) (safe t)
                          (if IsPermanent e then {[seq]} ∪ refused t else refused t) (order t)
             end, m')).
Definition traced_Flush : M T () := λ t,
  let '(r, a) := CoreApplier_Flush (run t) in
  (r, settle (MkTrace a (log t) (safe t) (refused t) (order t))).

#[export] Instance traced : Applier T := {| Apply := traced_Apply; Flush := traced_Flush |}.

(** The messages the next successful [Flush] makes safe. *)
Definition flushable (t : T) : gset Z :=
  list_to_set (filter (λ x, x.2 ∈ touched (run t)) (log t)).*1.

Lemma elem_of_flushable t x : x ∈ flushable t ↔ ∃ n, (x, n) ∈ log t ∧ n ∈ touched (run t).
Proof.
  unfold flushable. rewrite elem_of_list_to_set, list_elem_of_fmap. split.
  - intros ([y n] & -> & [? ?]%list_elem_of_filter). eauto.
  - intros (n & ? & ?). exists (x, n). split; [done|]. by apply list_elem_of_filter.
Qed.

Lemma elem_of_settle t x : x ∈ safe (settle t) ↔
  x ∈ safe t ∨ ∃ n, (x, n) ∈ log t ∧ at_risk (core (run t)) n = false.
Proof.
  simpl. rewrite elem_of_union, elem_of_list_to_set, list_elem_of_fmap. f_equiv. split.
  - intros ([y n] & -> & [? ?]%list_elem_of_filter). eauto.
  - intros (n & ? & ?). exists (x, n). split; [done|]. by apply list_elem_of_filter.
Qed.

Lemma CoreApplier_touched seq m m' (a a' : applier MT DT) r : CoreApplier_Apply seq (a, m) = (r, (a', m')) →
  touched a ⊆ touched a' ∧ (is_ok r = true → Kind m ≠ KindAdmin → Index m ∈ touched a').
Proof using All.
  intros H. set (R := λ s s' : applier MT DT * Message, touched s.1 ⊆ touched s'.1).
  assert (PreOrder R) by (unfold R; split; [by intros ?|intros ??? ??; by etrans]).
  assert (∀ B (c : M (world MT DT) B), keeps R (on_fst (on_core c))) as Hc.
  { intros B c [w n] r1 [w' n'] [[_ Ht]%on_core_inv _]%on_fst_run. unfold R. simpl. by rewrite Ht. }
  assert (∀ B (c : M (world MT DT * option obj) B) d, keeps R (on_fst (on_doc c d))) as Hdoc.
  { intros B c d [w n] r1 [w' n'] [(? & ? & _ & _ & Ht)%on_doc_inv _]%on_fst_run. unfold R. simpl. by rewrite Ht. }
  assert (∀ n, keeps R (on_fst (touch n))) as Ht.
  { intros n [w m0] r1 [w' m0'] [[= <- <-] _]%on_fst_run. unfold R. simpl. set_solver. }
  assert (∀ f, keeps R (on_snd (modify f))) as Hf by (intros f [w n] r1 [w' n'] [= <- <- <-]; unfold R; simpl; set_solver).
  assert (∀ seq ix i ds, keeps R (on_fst (docs_loop seq ix i ds))) as Hl.
  { intros sq ix i ds [w n] r1 [w' n'] [(_ & _ & _ & E)%docs_loop_frame _]%on_fst_run. unfold R. simpl. by rewrite E. }
  assert (∀ n (w w' : applier MT DT * Message) u, on_fst (touch n) w = (u, w') → n ∈ touched w'.1) as Hin.
  { intros n [w n0] [w' n0'] u [[= <- <-] _]%on_fst_run. simpl. set_solver. }
  split.
  - assert (keeps R (CoreApplier_Apply seq)) as Hk; [|by apply Hk in H].
    unfold CoreApplier_Apply, applyDoc, applyDocs. solve_keeps; auto with keeps.
  - intros Hok Hk. destruct r as [[]|]; [|done].
    apply bind_inv in H as [(e & [=] & _)|(m0 & s & [= <- <-] & H)]. simpl in H.
    destruct (decide (Kind m = KindDoc)); [|destruct (decide (Kind m = KindDocs))].
    + apply bind_ok in H as (? & ? & [= <- <-] & H). simpl in H.
      destruct (CheckIndexName _); [done|]. apply bind_ok in H as (? & ? & _ & H).
      cbv zeta in H. apply bind_ok in H as ([[] ?] & ? & _ & H); apply bind_ok in H as (? & ? & _ & H);
        [by apply Hin in H|done].
    + apply bind_ok in H as (? & ? & [= <- <-] & H). simpl in H.
      destruct (CheckIndexName _); [done|]. apply bind_ok in H as (? & ? & _ & H).
      apply bind_ok in H as ([[] ?] & ? & _ & H); apply bind_ok in H as (? & ? & _ & H);
        [by apply Hin in H|done].
    + by destruct (decide (Kind m = KindAdmin)).
Qed.

#[export] Instance traced_laws : ApplierLaws T.
Proof.
  refine {| durable := safe; pending := flushable; rejected := refused; history := order |}.
  - intros seq m t r t' m' H. simpl in H.
    destruct (CoreApplier_Apply seq (run t, m)) as [r0 [a m0]] eqn:E. apply CoreApplier_touched in E as [Hs Hin].
    injection H as -> <- _.
    assert (∀ t1, run t1 = a → (∀ x, x ∈ log t → x ∈ log t1) → flushable t ⊆ flushable (settle t1)) as Hfl.
    { intros t1 Hr Hlog x (n & Hx & Hn)%elem_of_flushable. apply elem_of_flushable. exists n.
      simpl. rewrite Hr. split; [by apply Hlog|by apply Hs]. }
    assert (∀ t1 x, x ∈ safe t1 → x ∈ safe (settle t1)) as Hsafe.
    { intros t1 x Hx. apply elem_of_settle. by left. }
    destruct r as [[]|e]; [destruct (decide (Kind m = KindAdmin)) as [Hk|Hk]|].
    + split_and!; [intros x Hx; apply Hsafe; simpl; set_solver| |done| |done].
      * intros x Hx. apply elem_of_union_l. by eapply Hfl, Hx.
      * apply elem_of_union_r, Hsafe. simpl. set_solver.
    + split_and!; [intros x Hx; by apply Hsafe| |done| |done].
      * intros x Hx. apply elem_of_union_l. eapply Hfl, Hx; [done|]. simpl. set_solver.
      * apply elem_of_union_l, elem_of_flushable. exists (Index m). simpl. split; [by left|by apply Hin].
    + split_and!; [intros x Hx; by apply Hsafe| |simpl; destruct (IsPermanent e); set_solver|done|].
      * intros x Hx. apply elem_of_union_l. by eapply Hfl, Hx.
      * simpl. intros ->. set_solver.
  - intros t r t' H. simpl in H. unfold traced_Flush in H.
    destruct (CoreApplier_Flush (run t)) as [r0 a] eqn:E. apply CoreFlush_spec in E as [_ Hf].
    injection H as -> <-. split_and!; [simpl; set_solver|done|done|].
    destruct r; [|done]. intros x (n & Hx & Hn)%elem_of_flushable. apply elem_of_settle. right.
    exists n. split; [done|]. by apply Hf.
Defined.
End traced.

Section node.
Context {MT DT NT KT ET : Type} `{!MetaIndex MT, !Files DT, !FilesLaws DT, !JetStream NT, !StreamLaws NT,
  !MetadataKV KT, !KVLaws KT, !Clock ET, !Waiting ET, !WaitingLaws ET}
  {renv : RequestEnv} {ienv : IndexEnv} {aenv : ApplyEnv}.
#[local] Abbreviation W := (node NT (trace MT DT) KT ET).

(** The offset in the metadata is not past what a crash could lose. *)
Definition nothing_lost (cfg : Config) (w : W) : Prop :=
  ∃ n, saved_offset (kv_view (kv w)) = Some n ∧ applied w ≤ n ∧
    ∀ x data, all (view (net w)) !! x = Some data → x ≤ n →
      x ∈ safe (app w) ∨ x ∈ refused (app w) ∨ is_ok (Decode data) = false ∨
      x ∈ missed (view (net w)) ∨ AllowGap cfg = true ∧ x < held (view (net w)).

(** C1: the whole of a node, that is the consumer over the indexes and the offset in the
    metadata, through every sequence of turns, pauses, failures and restarts: the offset
    in the metadata is never past a message whose documents sit in a log that is not
    synced. The messages it passes over without their being applied are only those that
    were refused for good or cannot be decoded, those the cursor of the server passed
    without their being in a batch the node got, and, only where gaps are allowed, those
    the stream had dropped. *)
Theorem node_never_loses cfg (w w' : node NT (trace MT DT) KT ET) l l' :
  inv cfg w → fits l w → rtc (turn cfg) (w, l) (w', l') → nothing_lost cfg w'.
Proof using All.
  intros Hi Hf Hr. assert (inv cfg w') as Hi' by (by eapply turns_inv).
  destruct Hi' as (_ & n & Hs & Ha & _ & Hx). exists n. split_and!; [done|lia|].
  intros x data Hl Hle. destruct (Hx x) as [[?|[?|(d & Hd & ?)]]|?]; [|done|by left|by right; left| |].
  - by apply elem_of_dom_2 in Hl.
  - right; right; left. rewrite Hd in Hl. by simplify_eq.
  - by right; right; right.
Qed.
End node.

(** ** A node *)

Module ApplyDemo.
Import IndexDemo.

#[export] Program Instance demo_apply : ApplyEnv := {|
  UnmarshalSimple _ := Ok (MkSimple "" 0 None []); range_ := map_to_list |}.
Next Obligation. done. Qed.

Definition node0 : applier meta files := MkApplier ∅ empty_node.
Definition fields (fs : list (string * string)) : option json :=
  Some (JObj [("properties", JObj (map (λ ft, (ft.1, JObj [("type", JStr ft.2)])) fs))]).
Definition set_mapping (fs : list (string * string)) : Message :=
  NewAdmin "logs" OpSetMapping (fields fs).
Definition failing (n : nat) (w : world meta files) : world meta files :=
  MkWorld (Indexes w) (MkMeta (md (metaidx w)) n) (disk w).
Definition type_of (o : option index) (field : string) : option string :=
  (λ p, Type_ (options p)) <$> (((λ ix, default ∅ (ix_Mappings ix)) <$> o) ≫= (.!! field)).

(** [set_mapping_retry_not_stored]: when storing the new mappings fails, the
    message is tried again; the second attempt finds the fields in the mappings in
    memory and reports success: the message counts as applied, and the stored index
    does not have the field. *)
Theorem set_mapping_retry_not_stored :
  let w1 := failing 1 (applySetMapping (set_mapping [("a", "keyword")]) empty_node).2 in
  let m := set_mapping [("b", "numeric")] in
  let '(r2, w2) := applySetMapping m w1 in
  let '(r3, w3) := applySetMapping m w2 in
  is_ok r2 = false ∧ r3 = Ok () ∧ fails (metaidx w3) = 0%nat ∧
  type_of (Indexes w3 !! "logs") "b" = Some "numeric" ∧
  type_of (stored (metaidx w3) !! "logs") "b" = None.
Proof. by vm_compute. Qed.

(** [set_mapping_half_applied]: a [set_mapping] message that is refused for good
    because one field is mapped differently has already added the fields that Go's
    random order put before it: they stay in the mappings of the node. *)
Theorem set_mapping_half_applied :
  let w1 := (applySetMapping (set_mapping [("b", "keyword")]) empty_node).2 in
  let '(r, w2) := applySetMapping (set_mapping [("a", "numeric"); ("b", "numeric")]) w1 in
  match r with Err e => IsPermanent e = true | Ok _ => False end ∧
  type_of (Indexes w1 !! "logs") "a" = None ∧ type_of (Indexes w2 !! "logs") "a" = Some "numeric".
Proof. by vm_compute. Qed.

Lemma set_mapping_empty_panics_witness : ∃ w1,
  applySetMapping (NewAdmin "logs" OpSetMapping (Some (JObj []))) empty_node = (Err nil_dereference, w1) ∧
  dom (Indexes w1) = {["logs"]}.
Proof.
  set (m := NewAdmin "logs" OpSetMapping (Some (JObj []))).
  destruct (GetOrCreateIndex "logs" "" 0 empty_node) as [[x|] w1] eqn:E; [|by vm_compute in E].
  exists w1. split.
  - exact (set_mapping_empty_panics m empty_node w1 x (or_introl eq_refl) eq_refl E).
  - vm_compute in E. by injection E as <- <-.
Defined.

Definition one_index : world meta files :=
  (GetOrCreateIndex "logs" "" 0 empty_node).2.
Definition delete_logs : Message := NewAdmin "logs" OpDeleteIndex None.

Lemma delete_retry_succeeds_witness : ∃ e w1,
  applyDeleteIndex delete_logs (failing 1 one_index) = (Err e, w1) ∧
  applyDeleteIndex delete_logs w1 = (Ok (), w1) ∧ is_Some (stored (metaidx w1) !! "logs").
Proof.
  destruct (applyDeleteIndex delete_logs (failing 1 one_index)) as [[|e] w1] eqn:E; [by vm_compute in E|].
  exists e, w1. split_and!; [done|by eapply delete_retry_succeeds|].
  vm_compute in E. injection E as <- <-. vm_compute. eauto.
Defined.

Definition batch : Message := NewDocs "logs" [MkDoc "a" (Some [("x", JNum "1")]); MkDoc "" (Some [])].

Lemma list_wf_empty : list_wf (core node0).
Proof. apply map_Forall_empty. Qed.

Lemma Apply_frame_witness : ∃ a' m', CoreApplier_Apply 7 (node0, batch) = (Ok (), (a', m')) ∧ list_wf (core a') ∧
  dom (accepted (disk (core a'))) = {[("logs", "a"); ("logs", "seq-7-1")]}.
Proof.
  destruct (CoreApplier_Apply 7 (node0, batch)) as [[[]|] [a' m']] eqn:E; [|by vm_compute in E].
  exists a', m'. assert (0 < DefaultShardNum) as Hd by done.
  destruct (Apply_frame 7 batch m' node0 a' (Ok ()) Hd list_wf_empty E) as [Hw _].
  split_and!; [done|done|]. change a' with (Ok (A := ()) (), (a', m')).2.1. rewrite <- E. by vm_compute.
Defined.

(** The files of the example never call a document invalid. *)
Lemma demo_takes ix ws oks w w' : pass (MT := meta) (DT := files) ix ws oks w w' → Forall (eq true) oks.
Proof.
  induction 1 as [|id d d' r ws oks w w1 w' H He _ IH]; constructor; [|done]. destruct r as [u|e]; [done|].
  specialize (He e eq_refl). unfold CreateDocument, mbind, M_bind, lift, GetShardByDocID, zoom in H.
  destruct (Rendezvous.Lookup _ _); [|by simplify_eq/=]. simpl in H.
  destruct (f_fails (disk w)); by simplify_eq/=.
Qed.

(** The log is full when the document comes first, and then it is not. *)
Definition timed : Message :=
  NewDocs "logs" [MkDoc "a" (Some [(TimeFieldName, JNum "1700000000"); ("x", JNum "1")])].
Definition full_disk (a : applier meta files) : applier meta files :=
  MkApplier (touched a) (MkWorld (Indexes (core a)) (metaidx (core a))
    (MkFiles (f_docs (disk (core a))) (f_dirty (disk (core a))) (f_next (disk (core a)))
       (f_clock (disk (core a))) 1)).

Lemma applyDocs_retry_witness : ∃ e s1 a2 m2, applyDocs 7 (full_disk node0, timed) = (Err e, s1) ∧
  applyDocs 7 s1 = (Ok (), (a2, m2)) ∧
  accepted (disk (core a2)) !! ("logs", "a") = Some (Some [("x", JNum "1")]).
Proof.
  destruct (applyDocs 7 (full_disk node0, timed)) as [r [a1 m1]] eqn:E1.
  assert (is_ok r = false) as Hr by (change r with (r, (a1, m1)).1; rewrite <- E1; by vm_compute).
  destruct r as [|e]; [done|]. destruct (applyDocs 7 (a1, m1)) as [r [a2 m2]] eqn:E2.
  assert (r = Ok ()) as ->.
  { change r with (r, (a2, m2)).1. rewrite <- E2. change (a1, m1) with (Err (A := ()) e, (a1, m1)).2.
    rewrite <- E1. by vm_compute. }
  exists e, (a1, m1), a2, m2. assert (0 < DefaultShardNum) as Hd by done. split_and!; [done|done|].
  destruct (applyDocs_retry 7 timed m1 m2 (full_disk node0) a1 a2 Hd list_wf_empty
    (rtc_once _ _ (ex_intro _ e E1)) E2) as [_ (ix & oks & w & _ & _ & Hp & _ & Hall)].
  rewrite Hall by (by eapply demo_takes). by vm_compute.
Defined.

(** [retry_loses_timestamp]: when storing a document fails and its message is
    applied again, the document is stored with the time of the second attempt, not with
    the [@timestamp] it came with, which the first attempt took out of the message. *)
Theorem retry_loses_timestamp :
  let stored_time (a : applier meta files) := snd <$> f_docs (disk (core a)) !! ("logs", "a") in
  let '(r0, s0) := applyDocs 7 (node0, timed) in
  let '(r1, s1) := applyDocs 7 (full_disk node0, timed) in
  let '(r2, s2) := applyDocs 7 s1 in
  r0 = Ok () ∧ stored_time s0.1 = Some 1700000000 ∧
  is_ok r1 = false ∧ r2 = Ok () ∧ stored_time s2.1 = Some (f_clock (disk (core s1.1))) ∧
  f_clock (disk (core s1.1)) = 1.
Proof. by vm_compute. Qed.

Import ConsumerDemo.

Definition whole_node : node Z (trace meta files) (gmap string string) Z :=
  MkNode 0 0 0 0 false false true "" 0 1 (MkTrace node0 [] ∅ ∅ []) ∅ 1.

Lemma whole_node_inv : inv config whole_node.
Proof.
  split; [|exists 0; split_and!; try done; simpl; try lia].
  - split_and!; simpl; try lia. intros x Hx. rewrite dom_singleton, elem_of_singleton in Hx. lia.
  - intros x Hx. rewrite dom_singleton, elem_of_singleton in Hx. lia.
Qed.

Lemma node_never_loses_witness : ∃ w' : node Z (trace meta files) (gmap string string) Z,
  saved_offset (kv w') = Some 1 ∧ 1 ∈ safe (app w') ∧
  nothing_lost config w'.
Proof.
  destruct (iter config 3 l0 whole_node) as [[r|e] w'] eqn:E.
  2: { assert (is_ok (iter config 3 l0 whole_node).1 = true) as Hok by (by vm_compute). by rewrite E in Hok. }
  exists w'. assert (fits (Some l0) whole_node) as Hf by done.
  pose proof (node_never_loses config whole_node w' (Some l0) r whole_node_inv Hf
    (rtc_once _ _ (turn_iter config 3 l0 whole_node r w' E))) as Hn.
  assert (saved_offset (kv (iter config 3 l0 whole_node).2) = Some 1) as H1 by (by vm_compute).
  assert (bool_decide (1 ∈ safe (app (iter config 3 l0 whole_node).2)) = true) as H2 by (by vm_compute).
  rewrite E in H1, H2.
  split; [exact H1|]. split; [by apply bool_decide_eq_true in H2|exact Hn].
Defined.
End ApplyDemo.
