(* ===== verification/Redo.v ===== *)
(** The redo log of a shard (pkg/wal/redo/redo.go).

    The file is a sequence of records of 80 bytes: a key, the length of the value and
    the value in 64 bytes. The log keeps the file in a buffer and a map from keys to the
    offsets of their lengths. A slice of Go reaches up to the capacity of its array, so
    the buffer is the whole array and [dlen] the length of the slice. *)
From S2P Require Import Prelude Strings Bytes Mappings.
#[local] Open Scope Z_scope.

Definition bytes := list ascii.

Definition ErrRedoNotFound : error := sentinel "redo.ErrNotFound" "not found".
Definition ErrValueTooLarge : error := sentinel "redo.ErrValueTooLarge" "value too large".
Definition ValueFixedLength : nat := 64.
(** Key, length of the value and value. *)
Definition record_length : nat := 8 + 8 + ValueFixedLength.

Definition zeros (n : nat) : bytes := replicate n "000"%char.
Definition out_of_range : error := Panic "slice bounds out of range".

(** [binary.LittleEndian]. *)
Definition PutUint64 (v : Z) : bytes := String.list_ascii_of_string (le 8 v).
Definition Uint64 (b : bytes) : Z := le_val (String.string_of_list_ascii b).

(** [b[from : from+n]] of an array. *)
Definition slice (b : bytes) (from n : nat) : res bytes :=
  if decide (from + n ≤ length b)%nat then Ok (take n (drop from b)) else Err out_of_range.
(** Writing at an offset. *)
Definition write_at (b : bytes) (from : nat) (v : bytes) : bytes :=
  take from b ++ v ++ drop (from + length v) b.

(** The file of the log, and the room [append] leaves behind a new slice. *)
Class RedoFile (FT : Type) := {
  ReadAll : M FT (bytes * nat);
  WriteStart : bytes → M FT ();
  FSync : M FT ();
  room : nat → nat;
}.

Record Log (FT : Type) := MkLog {
  index : gmap Z nat; buffer : bytes; dlen : nat; NoSync : bool; NoCopy : bool; file : FT }.
Arguments MkLog {_}. Arguments index {_}. Arguments buffer {_}. Arguments dlen {_}.
Arguments NoSync {_}. Arguments NoCopy {_}. Arguments file {_}.

Section redo.
Context {FT : Type} `{!RedoFile FT}.

(** The loop of [Open] over the data; one turn per record is enough. *)
Fixpoint Open_loop (fuel : nat) (b : bytes) (len n : nat) (ix : gmap Z nat) : res (gmap Z nat) :=
  match fuel with
  | O => Ok ix
  | S fuel =>
      if decide (n < len)%nat then
        k ← slice b n 8;
        Open_loop fuel b len (n + record_length) (<[Uint64 k := (n + 8)%nat]> ix)
      else Ok ix
  end.

(** [Open] after the file is open. *)
Definition Open (noSync noCopy : bool) (f : FT) : res (Log FT) * FT :=
  match ReadAll f with
  | (Err e, f) => (Err e, f)
  | (Ok (data, cap), f) =>
      let b := data ++ zeros cap in
      match Open_loop (length data) b (length data) 0 ∅ with
      | Err e => (Err e, f)
      | Ok ix =>
          (Ok (MkLog ix (if decide (data = []) then zeros 256 else b) (length data) noSync noCopy f), f)
      end
  end.

(** [append] of zeros: in place when there is room. *)
Definition append_zeros (b : bytes) (len n : nat) : bytes :=
  if decide (len + n ≤ length b)%nat then write_at b len (zeros n)
  else take len b ++ zeros n ++ zeros (room (len + n)).

Definition set_buffer (ix : gmap Z nat) (b : bytes) (len : nat) : M (Log FT) () :=
  modify (λ l, MkLog ix b len (NoSync l) (NoCopy l) (file l)).
Definition on_file {A} : M FT A → M (Log FT) A :=
  zoom file (λ f l, MkLog (index l) (buffer l) (dlen l) (NoSync l) (NoCopy l) f).

(** The length and the value of a record at [offset]; a slice out of range panics
    before anything is written. *)
Definition put_value (b : bytes) (offset : nat) (data : bytes) : res bytes :=
  slice b offset 8;;
  slice b (offset + 8) ValueFixedLength;;
  Ok (write_at (write_at b offset (PutUint64 (Z.of_nat (length data)))) (offset + 8) data).

Definition Write (key : Z) (data : bytes) : M (Log FT) () :=
  if decide (ValueFixedLength < length data)%nat then throw ErrValueTooLarge else
  l ← get_state;
  match index l !! key with
  | Some offset =>
      b ← lift (put_value (buffer l) offset data);
      set_buffer (index l) b (dlen l)
  | None =>
      let offset := dlen l in
      let b := append_zeros (buffer l) offset record_length in
      let b := write_at b offset (PutUint64 key) in
      b ← lift (put_value b (offset + 8) data);
      set_buffer (<[key := (offset + 8)%nat]> (index l)) b (offset + record_length)
  end;;
  l ← get_state;
  on_file (WriteStart (take (dlen l) (buffer l)));;
  if NoSync l then mret () else on_file FSync.

(** [Read] and [ReadCopy] differ in whether the answer shares the buffer. *)
Definition Read (l : Log FT) (key : Z) : res bytes :=
  match index l !! key with
  | None => Err ErrRedoNotFound
  | Some offset =>
      n ← slice (buffer l) offset 8;
      let n := i64 (Uint64 n) in
      if n <? 0 then Err out_of_range else slice (buffer l) (offset + 8) (Z.to_nat n)
  end.
End redo.

(** ** Arrays *)

Lemma length_PutUint64 v : length (PutUint64 v) = 8%nat.
Proof. done. Qed.

Lemma Uint64_PutUint64 v : is_u64 v → Uint64 (PutUint64 v) = v.
Proof.
  intros Hv. unfold Uint64, PutUint64. rewrite String.string_of_list_ascii_of_string.
  apply le_val_le. unfold is_u64 in Hv. by replace (256 ^ Z.of_nat 8) with (2 ^ 64) by done.
Qed.

Lemma slice_app (a v b : bytes) from n : length a = from → length v = n →
  slice (a ++ v ++ b) from n = Ok v.
Proof.
  intros <- <-. unfold slice. rewrite decide_True by (rewrite !length_app; lia).
  by rewrite drop_app_length, take_app_length.
Qed.

Lemma write_at_app (a v w b : bytes) from : length a = from → (length v ≤ length w)%nat →
  write_at (a ++ w ++ b) from v = a ++ (v ++ drop (length v) w) ++ b.
Proof.
  intros <- Hl. unfold write_at. rewrite take_app_length. f_equal. rewrite <- app_assoc. f_equal.
  rewrite <- drop_drop, drop_app_length, drop_app_le by done. done.
Qed.

(** ** Records *)

(** The bytes after the value are what an older value left. *)
Record rec := MkRec { rkey : Z; value : bytes; pad : bytes }.

Definition rec_ok (r : rec) : Prop :=
  is_u64 (rkey r) ∧ (length (value r) + length (pad r) = ValueFixedLength)%nat.

Definition encode (r : rec) : bytes :=
  PutUint64 (rkey r) ++ PutUint64 (Z.of_nat (length (value r))) ++ value r ++ pad r.
Definition encode_all (rs : list rec) : bytes := rs ≫= encode.

Lemma length_encode r : rec_ok r → length (encode r) = record_length.
Proof. intros [_ Hl]. unfold encode. rewrite !length_app, !length_PutUint64. unfold record_length. lia. Qed.

Lemma length_encode_all rs : Forall rec_ok rs → length (encode_all rs) = (record_length * length rs)%nat.
Proof.
  induction 1 as [|r rs Hr _ IH]; [done|]. change (encode_all (r :: rs)) with (encode r ++ encode_all rs).
  rewrite length_app, IH, length_encode by done. simpl length. lia.
Qed.

Lemma encode_all_snoc rs r : encode_all (rs ++ [r]) = encode_all rs ++ encode r.
Proof.
  unfold encode_all. rewrite bind_app. f_equal. apply app_nil_r.
Qed.

Lemma encode_all_split rs i r : rs !! i = Some r →
  encode_all rs = encode_all (take i rs) ++ encode r ++ encode_all (drop (S i) rs).
Proof.
  intros Hi. rewrite <- (take_drop_middle rs i r Hi) at 1. unfold encode_all.
  by rewrite bind_app.
Qed.

(** The offset of the length of record [i]. *)
Definition at_ (i : nat) : nat := (record_length * i + 8)%nat.

(** The file is a sequence of bytes; a failed write may have written a part of it. *)
Class RedoFileLaws (FT : Type) `{!RedoFile FT} := {
  content : FT → bytes;
  ReadAll_law f r f' : ReadAll f = (r, f') → f' = f ∧
    match r with Ok (data, _) => data = content f | Err _ => True end;
  WriteStart_law v f r f' : WriteStart v f = (r, f') →
    ∃ n, (n ≤ length v)%nat ∧ content f' = take n v ++ drop n (content f) ∧
         (is_ok r = true → n = length v);
  FSync_law f r f' : FSync f = (r, f') → content f' = content f;
}.

Section refinement.
Context {FT : Type} `{!RedoFile FT}.
#[local] Abbreviation L := (Log FT).

(** The log holds the records. *)
Record rep (l : L) (rs : list rec) : Prop := {
  rep_ok : Forall rec_ok rs;
  rep_nodup : NoDup (rkey <$> rs);
  rep_len : dlen l = (record_length * length rs)%nat;
  rep_data : ∃ tail, buffer l = encode_all rs ++ tail;
  rep_index : ∀ k o, index l !! k = Some o ↔ ∃ i r, rs !! i = Some r ∧ rkey r = k ∧ o = at_ i;
}.

(** What it answers for a key. *)
Definition find_rec (rs : list rec) (k : Z) : option bytes :=
  value <$> head (filter (λ r, rkey r = k) rs).

Lemma find_rec_Some rs i r : NoDup (rkey <$> rs) → rs !! i = Some r → find_rec rs (rkey r) = Some (value r).
Proof.
  revert i. induction rs as [|r0 rs IH]; intros i Hn Hi; [done|]. unfold find_rec. rewrite filter_cons.
  apply NoDup_cons in Hn as [Hr0 Hn]. destruct i as [|i]; simpl in Hi.
  - simplify_eq. by rewrite decide_True.
  - rewrite decide_False; [by eapply IH|]. intros Heq. apply Hr0. rewrite Heq.
    apply list_elem_of_fmap. exists r. split; [done|]. by eapply list_elem_of_lookup_2.
Qed.

Lemma find_rec_None rs k : k ∉ rkey <$> rs → find_rec rs k = None.
Proof.
  intros Hk. unfold find_rec. rewrite filter_none; [done|]. apply Forall_forall. intros r Hr <-.
  apply Hk, list_elem_of_fmap. eauto.
Qed.

Lemma rep_find l rs k : rep l rs →
  match index l !! k with
  | Some o => ∃ i r, rs !! i = Some r ∧ rkey r = k ∧ o = at_ i ∧ find_rec rs k = Some (value r)
  | None => (k ∉ (rkey <$> rs)) ∧ find_rec rs k = None
  end.
Proof.
  intros Hr. destruct (index l !! k) as [o|] eqn:Hk.
  - apply (rep_index _ _ Hr) in Hk as (i & r & Hi & <- & ->). exists i, r. split_and!; [done..|].
    eapply find_rec_Some; [apply Hr|done].
  - assert (k ∉ rkey <$> rs) as Hn; [|by split; [|apply find_rec_None]].
    intros (r & -> & Hin)%list_elem_of_fmap. apply list_elem_of_lookup in Hin as [i Hi].
    assert (index l !! rkey r = Some (at_ i)) as E by (apply (rep_index _ _ Hr); eauto). congruence.
Qed.

(** The buffer around record [i]. *)
Lemma rep_around l rs i r : rep l rs → rs !! i = Some r → ∃ a b,
  buffer l = a ++ PutUint64 (Z.of_nat (length (value r))) ++ (value r ++ pad r) ++ b ∧
  length a = at_ i ∧ (∀ r', rkey r' = rkey r → encode_all (<[i := r']> rs) ++ (drop (dlen l) (buffer l)) =
    a ++ PutUint64 (Z.of_nat (length (value r'))) ++ (value r' ++ pad r') ++ b).
Proof.
  intros [Hok Hn Hlen [tail Hb] _] Hi.
  assert (drop (dlen l) (buffer l) = tail) as Hd.
  { rewrite Hb, Hlen, <- length_encode_all by done. apply drop_app_length. }
  exists (encode_all (take i rs) ++ PutUint64 (rkey r)), (encode_all (drop (S i) rs) ++ tail).
  assert (i < length rs)%nat as Hlt by (by eapply lookup_lt_Some). split_and!.
  - rewrite Hb, (encode_all_split _ _ _ Hi). unfold encode. by rewrite <- !app_assoc.
  - rewrite length_app, length_PutUint64, length_encode_all, length_take by (by apply Forall_take).
    unfold at_. rewrite Nat.min_l by lia. done.
  - intros r' Hk. rewrite Hd, (encode_all_split (<[i:=r']> rs) i r') by (by apply list_lookup_insert_eq).
    rewrite take_insert_ge, drop_insert_lt by lia. unfold encode. rewrite Hk. by rewrite <- !app_assoc.
Qed.

Lemma Read_spec l rs k : rep l rs →
  Read l k = match find_rec rs k with Some v => Ok v | None => Err ErrRedoNotFound end.
Proof.
  intros Hr. unfold Read. pose proof (rep_find l rs k Hr) as Hf.
  destruct (index l !! k) as [o|]; [|by destruct Hf as [_ ->]].
  destruct Hf as (i & r & Hi & Hk & -> & ->).
  destruct (rep_around l rs i r Hr Hi) as (a & b & -> & Ha & _).
  assert (rec_ok r) as [_ Hv] by (eapply Forall_lookup_1; [apply Hr|done]).
  unfold mbind, res_bind. rewrite (slice_app a _ _ (at_ i) 8) by done.
  assert (is_u64 (Z.of_nat (length (value r)))) as Hu by (unfold is_u64, ValueFixedLength in *; lia).
  rewrite Uint64_PutUint64 by done. rewrite i64_small by (unfold is_i64, ValueFixedLength in *; lia).
  destruct (Z.ltb_spec (Z.of_nat (length (value r))) 0); [lia|]. rewrite Nat2Z.id.
  assert (∀ p, a ++ p ++ (value r ++ pad r) ++ b = (a ++ p) ++ value r ++ pad r ++ b) as ->
    by (intros p; by rewrite <- !app_assoc).
  apply slice_app; [|done]. rewrite length_app, length_PutUint64. lia.
Qed.

Lemma find_rec_insert rs i r r' k : NoDup (rkey <$> rs) → rs !! i = Some r → rkey r' = rkey r →
  find_rec (<[i := r']> rs) k = if decide (k = rkey r) then Some (value r') else find_rec rs k.
Proof.
  revert i. induction rs as [|r0 rs IH]; intros i Hn Hi Hk; [done|]. apply NoDup_cons in Hn as [Hr0 Hn].
  unfold find_rec in *. destruct i as [|i]; simpl in Hi; simpl insert; unfold insert; simpl; rewrite !filter_cons.
  - simplify_eq. rewrite Hk. by destruct (decide (rkey r = k)), (decide (k = rkey r)); try congruence.
  - destruct (decide (rkey r0 = k)) as [H0|H0]; [|by apply IH].
    destruct (decide (k = rkey r)) as [E|]; [|done]. destruct Hr0. rewrite H0, E.
    apply list_elem_of_fmap. exists r. split; [done|]. by eapply list_elem_of_lookup_2.
Qed.

Lemma find_rec_snoc rs r k : rkey r ∉ (rkey <$> rs) →
  find_rec (rs ++ [r]) k = if decide (k = rkey r) then Some (value r) else find_rec rs k.
Proof.
  intros Hr. unfold find_rec. rewrite filter_app, filter_cons, filter_nil. case_decide as Hk.
  - subst k. rewrite decide_True by done. rewrite filter_none; [done|]. apply Forall_forall.
    intros r0 Hin E. apply Hr, list_elem_of_fmap. eauto.
  - rewrite decide_False by congruence. by rewrite app_nil_r.
Qed.

Lemma put_value_app (a p w b data : bytes) from : length a = from → length p = 8%nat →
  length w = ValueFixedLength → (length data ≤ ValueFixedLength)%nat →
  put_value (a ++ p ++ w ++ b) from data =
    Ok (a ++ PutUint64 (Z.of_nat (length data)) ++ (data ++ drop (length data) w) ++ b).
Proof.
  intros Ha Hp Hw Hd. unfold put_value, mbind, res_bind.
  rewrite (slice_app a p (w ++ b) from 8), (app_assoc a p (w ++ b)) by done.
  rewrite (slice_app (a ++ p) w b) by (by rewrite ?length_app, ?Ha, ?Hp). f_equal.
  rewrite <- (app_assoc a p (w ++ b)), (write_at_app a _ p) by (rewrite ?length_PutUint64, ?Hp; done).
  rewrite length_PutUint64, <- Hp, drop_all, app_nil_r.
  set (n := PutUint64 _). assert (length n = 8%nat) as Hn by done. rewrite Hp, <- Hn.
  rewrite (app_assoc a n (w ++ b)), write_at_app by (rewrite ?length_app, ?Ha, ?Hw; done).
  by rewrite <- !app_assoc.
Qed.

Lemma append_zeros_app (a t : bytes) n : ∃ t', append_zeros (a ++ t) (length a) n = a ++ zeros n ++ t'.
Proof.
  unfold append_zeros. case_decide as Hl.
  - rewrite length_app in Hl. exists (drop n t). unfold write_at, zeros.
    rewrite take_app_length, length_replicate. f_equal. f_equal.
    rewrite <- drop_drop, drop_app_length. done.
  - rewrite take_app_length. by eexists.
Qed.

(** What [Write] changes in memory, before the file is written. *)
Definition write_memory (key : Z) (data : bytes) (l : L) : res (gmap Z nat * bytes * nat) :=
  match index l !! key with
  | Some offset =>
      b ← put_value (buffer l) offset data;
      Ok (index l, b, dlen l)
  | None =>
      let b := write_at (append_zeros (buffer l) (dlen l) record_length) (dlen l) (PutUint64 key) in
      b ← put_value b (dlen l + 8) data;
      Ok (<[key := (dlen l + 8)%nat]> (index l), b, (dlen l + record_length)%nat)
  end.

Lemma write_memory_spec l rs k data : rep l rs → is_u64 k → (length data ≤ ValueFixedLength)%nat →
  ∃ ix b n rs', write_memory k data l = Ok (ix, b, n) ∧
    rep (MkLog ix b n (NoSync l) (NoCopy l) (file l)) rs' ∧
    (∀ k', find_rec rs' k' = if decide (k' = k) then Some data else find_rec rs k') ∧
    (∀ i r, rs !! i = Some r → rkey r = k →
       rs' = <[i := MkRec k data (drop (length data) (value r ++ pad r))]> rs).
Proof.
  intros Hr Hk Hd. unfold write_memory. pose proof (rep_find l rs k Hr) as Hf.
  destruct (index l !! k) as [o|] eqn:Hix.
  - destruct Hf as (i & r & Hi & Hrk & -> & _). destruct (rep_around l rs i r Hr Hi) as (a & b & Hb & Ha & Hnew).
    assert (rec_ok r) as [_ Hv] by (eapply Forall_lookup_1; [apply Hr|done]).
    set (r' := MkRec k data (drop (length data) (value r ++ pad r))).
    rewrite Hb, put_value_app by (rewrite ?length_app; done). unfold mbind, res_bind.
    eexists _, _, _, (<[i := r']> rs). split; [done|].
    assert (NoDup (rkey <$> <[i := r']> rs) ∧ rkey <$> <[i := r']> rs = rkey <$> rs) as [Hn Heq].
    { rewrite list_fmap_insert, list_insert_id; [split; [apply Hr|done]|].
      rewrite list_lookup_fmap, Hi. simpl. by rewrite Hrk. }
    split_and!.
    + split; simpl; [|done| | |].
      * apply Forall_insert; [apply Hr|]. split; [done|]. simpl. rewrite length_drop, length_app. lia.
      * rewrite length_insert. apply Hr.
      * exists (drop (dlen l) (buffer l)). by rewrite (Hnew r' (eq_sym Hrk)).
      * intros k0 o. rewrite (rep_index _ _ Hr). split.
        -- intros (j & r0 & Hj & <- & ->). destruct (decide (i = j)) as [->|Hne].
           ++ exists j, r'. rewrite list_lookup_insert_eq by (by eapply lookup_lt_Some). split_and!; [done| |done].
              simpl. congruence.
           ++ exists j, r0. by rewrite list_lookup_insert_ne.
        -- intros (j & r0 & Hj & <- & ->). apply list_lookup_insert_Some in Hj as [(<- & <- & _)|[? ?]]; [|eauto].
           exists i, r. by split_and!.
    + intros k'. rewrite (find_rec_insert _ _ r) by (done || apply Hr). by rewrite Hrk.
    + intros j r0 Hj Hrk0. assert (i = j) as <-.
      { eapply NoDup_lookup; [apply Hr|..]; rewrite list_lookup_fmap; [by rewrite Hi|rewrite Hj; simpl; congruence]. }
      assert (r0 = r) as -> by congruence. done.
  - destruct Hf as [Hnew _]. pose proof Hr as [Hok Hn Hlen [tail Hb] Hidx].
    assert (dlen l = length (encode_all rs)) as Hle by (by rewrite Hlen, length_encode_all).
    destruct (append_zeros_app (encode_all rs) tail record_length) as [t Ht].
    rewrite Hb, Hle, Ht.
    assert (zeros record_length = zeros 8 ++ zeros 8 ++ zeros ValueFixedLength) as -> by done.
    rewrite <- !app_assoc, (write_at_app _ _ (zeros 8)) by done.
    rewrite length_PutUint64. change (drop 8 (zeros 8)) with (@nil ascii). rewrite app_nil_r.
    rewrite (app_assoc (encode_all rs) (PutUint64 k)).
    rewrite put_value_app by (rewrite ?length_app; done). unfold mbind, res_bind.
    set (r' := MkRec k data (drop (length data) (zeros ValueFixedLength))).
    assert (rec_ok r') as Hok' by (split; [done|]; simpl; rewrite length_drop; unfold zeros; rewrite length_replicate; lia).
    eexists _, _, _, (rs ++ [r']). split; [done|]. split_and!.
    + split; cbn [dlen buffer index].
      * by apply Forall_app_2; [|apply Forall_singleton].
      * rewrite fmap_app. apply NoDup_app. split_and!; [done| |apply NoDup_singleton].
        intros x Hx ->%list_elem_of_singleton. done.
      * rewrite length_app, length_encode_all by done. simpl length. unfold record_length, ValueFixedLength. lia.
      * exists t. rewrite encode_all_snoc. unfold encode. cbn [rkey value pad r']. by rewrite <- !app_assoc.
      * intros k0 o. rewrite lookup_insert_Some. split.
        -- intros [[<- <-]|[Hne Ho]].
           ++ exists (length rs), r'. rewrite list_lookup_middle by done. split_and!; [done..|].
              unfold at_. rewrite <- Hle, Hlen. done.
           ++ apply Hidx in Ho as (i & r & Hi & <- & ->). exists i, r. split_and!; [|done..].
              by apply lookup_app_l_Some.
        -- intros (i & r & Hi & <- & ->). apply lookup_app_Some in Hi as [Hi|[Hge Hi]].
           ++ right. split; [|apply Hidx; eauto]. intros ->. apply Hnew, list_elem_of_fmap.
              exists r. split; [done|]. by eapply list_elem_of_lookup_2.
           ++ apply list_lookup_singleton_Some in Hi as [Hi <-]. left. split; [done|].
              rewrite <- Hle, Hlen. unfold at_. f_equal. f_equal. lia.
    + intros k'. by rewrite find_rec_snoc.
    + intros i r Hi Hrk. destruct Hnew. apply list_elem_of_fmap. exists r. split; [done|].
      by eapply list_elem_of_lookup_2.
Qed.

Lemma Write_inv k data (l l' : L) r : (length data ≤ ValueFixedLength)%nat →
  ∀ ix b n, write_memory k data l = Ok (ix, b, n) → Write k data l = (r, l') →
  ∃ f, l' = MkLog ix b n (NoSync l) (NoCopy l) f ∧
    ∃ w f1, WriteStart (take n b) (file l) = (w, f1) ∧
      match w with
      | Err e => r = Err e ∧ f = f1
      | Ok _ => if NoSync l then r = Ok () ∧ f = f1 else FSync f1 = (r, f)
      end.
Proof.
  intros Hd ix b n Hm H. unfold Write in H. rewrite decide_False in H by lia.
  assert (∀ A (c c' : M L A) (g : A → M L ()) s, c s = c' s → (c ≫= g) s = (c' ≫= g) s) as Hext
    by (intros A c c' g s0 E; unfold mbind, M_bind; by rewrite E).
  apply bind_inv in H as [(e & [=] & _)|(l0 & l1 & [= <- <-] & H)].
  set (c := match index l !! k with Some _ => _ | None => _ end) in H.
  assert (c l = (Ok (), MkLog ix b n (NoSync l) (NoCopy l) (file l))) as Hc.
  { unfold c, write_memory in *. unfold mbind, M_bind, lift, set_buffer, modify. unfold mbind, res_bind in Hm.
    destruct (index l !! k); cbv zeta in *; destruct (put_value _ _ _); by simplify_eq. }
  clearbody c. apply bind_inv in H as [(e & H & _)|([] & l1 & H1 & H)]; [by rewrite Hc in H|].
  rewrite Hc in H1. injection H1 as <-.
  apply bind_inv in H as [(e & [=] & _)|(l1 & l2 & [= <- <-] & H)]. cbn [dlen buffer NoSync] in H.
  apply bind_inv in H as [(e & H & ->)|(u & l2 & H1 & H)]; unfold on_file, zoom in *; cbn [file index buffer dlen NoSync NoCopy] in *.
  - destruct (WriteStart _ _) as [w f1] eqn:Hw. simplify_eq. eexists. split; [done|].
    eexists _, _. split; [done|]. by cbn iota.
  - destruct (WriteStart _ _) as [w f1] eqn:Hw. simplify_eq. cbn [file index buffer dlen NoSync NoCopy] in *.
    destruct (NoSync l).
    + unfold mret, M_ret in H. simplify_eq. eexists. split; [done|]. eexists _, _. split; [done|]. by cbn iota.
    + simpl in H. destruct (FSync f1) as [w2 f2] eqn:Hs. injection H as -> <-.
      exists f2. split; [done|]. exists (Ok u), f1. by split.
Qed.

(** The file does not matter in memory. *)
Lemma rep_file l rs ns nc f : rep l rs → rep (MkLog (index l) (buffer l) (dlen l) ns nc f) rs.
Proof. by intros [? ? ? ? ?]. Qed.

(** [redo_read_write]: a value that is written is read back under its key, and
    every other key reads as before, also when the file could not be written; a value
    that is too large changes nothing. *)
Theorem redo_read_write k data (l l' : L) rs r : rep l rs → is_u64 k → Write k data l = (r, l') →
  if decide (ValueFixedLength < length data)%nat then r = Err ErrValueTooLarge ∧ l' = l
  else Read l' k = Ok data ∧ (∀ k', k' ≠ k → Read l' k' = Read l k') ∧ ∃ rs', rep l' rs'.
Proof.
  intros Hr Hk H. case_decide as Hd.
  { unfold Write in H. rewrite decide_True in H by done. unfold throw in H. by simplify_eq. }
  apply Nat.nlt_ge in Hd. destruct (write_memory_spec l rs k data Hr Hk Hd) as (ix & b & n & rs' & Hm & Hr' & Hf & _).
  destruct (Write_inv _ _ _ _ _ Hd _ _ _ Hm H) as (f & -> & _).
  apply (rep_file _ _ (NoSync l) (NoCopy l) f) in Hr'. cbn [index buffer dlen] in Hr'.
  split_and!; [|intros k' Hne|by eexists]; rewrite (Read_spec _ _ _ Hr'), Hf.
  - by rewrite decide_True.
  - by rewrite decide_False, (Read_spec _ _ _ Hr).
Qed.

(** *** Opening *)

Lemma Open_loop_spec fuel pre post tail ix : Forall rec_ok (pre ++ post) → NoDup (rkey <$> pre ++ post) →
  (length post ≤ fuel)%nat →
  (∀ k o, ix !! k = Some o ↔ ∃ i r, pre !! i = Some r ∧ rkey r = k ∧ o = at_ i) →
  ∃ ix', Open_loop fuel (encode_all (pre ++ post) ++ tail) (record_length * length (pre ++ post))
           (record_length * length pre) ix = Ok ix' ∧
  ∀ k o, ix' !! k = Some o ↔ ∃ i r, (pre ++ post) !! i = Some r ∧ rkey r = k ∧ o = at_ i.
Proof.
  revert pre post ix. induction fuel as [|fuel IH]; intros pre post ix Hok Hn Hl Hix; cbn [Open_loop].
  { destruct post; [|simpl in Hl; lia]. rewrite app_nil_r in *. eauto. }
  destruct post as [|r post].
  { rewrite app_nil_r in *. rewrite decide_False by lia. eauto. }
  assert (record_length * length pre < record_length * length (pre ++ r :: post))%nat as Hlt.
  { rewrite length_app. simpl. unfold record_length, ValueFixedLength. lia. }
  rewrite decide_True by done.
  assert (Forall rec_ok pre) as Hpre by (by apply Forall_app in Hok as [? _]).
  assert (rec_ok r) as [Hu _] by (apply Forall_app in Hok as [_ Hok]; by inversion Hok).
  assert (pre ++ r :: post = (pre ++ [r]) ++ post) as Hcons by (by rewrite <- app_assoc).
  assert (encode_all (pre ++ r :: post) ++ tail = encode_all pre ++ PutUint64 (rkey r) ++
    (PutUint64 (Z.of_nat (length (value r))) ++ value r ++ pad r ++ encode_all post ++ tail)) as Hb.
  { rewrite (encode_all_split _ (length pre) r) by (by apply list_lookup_middle).
    rewrite take_app_length, Hcons.
    rewrite drop_app_length' by (rewrite length_app; simpl; lia).
    unfold encode. by rewrite <- !app_assoc. }
  assert (slice (encode_all (pre ++ r :: post) ++ tail) (record_length * length pre) 8 =
    Ok (PutUint64 (rkey r))) as Hs by (rewrite Hb; apply slice_app; [by apply length_encode_all|done]).
  unfold mbind, res_bind. rewrite Hs, Uint64_PutUint64 by done. clear Hs Hb Hlt.
  replace (record_length * length pre + record_length)%nat with (record_length * length (pre ++ [r]))%nat
    by (rewrite length_app; simpl; unfold record_length, ValueFixedLength; lia).
  rewrite Hcons in *.
  apply IH; [done|done|simpl in Hl; lia|].
  intros k o. rewrite lookup_insert_Some, Hix. split.
  - intros [[<- <-]|[Hne (i & r0 & Hi & <- & ->)]].
    + exists (length pre), r. rewrite list_lookup_middle by done. split_and!; [done..|].
      unfold at_. lia.
    + exists i, r0. split_and!; [by apply lookup_app_l_Some|done..].
  - intros (i & r0 & Hi & <- & ->). apply lookup_app_Some in Hi as [Hi|[Hge Hi]].
    + right. split; [|eauto]. intros E. rewrite fmap_app, fmap_app in Hn.
      apply NoDup_app in Hn as [Hn _]. apply NoDup_app in Hn as (_ & Hn & _).
      apply (Hn (rkey r)); [|simpl; by left]. rewrite E. apply list_elem_of_fmap. exists r0.
      split; [done|]. by eapply list_elem_of_lookup_2.
    + apply list_lookup_singleton_Some in Hi as [Hi <-]. left. split; [done|]. unfold at_.
      replace i with (length pre) by lia. lia.
Qed.

Lemma Open_rep `{!RedoFileLaws FT} ns nc f r f' rs : Forall rec_ok rs → NoDup (rkey <$> rs) →
  content f = encode_all rs → Open ns nc f = (r, f') →
  content f' = encode_all rs ∧ match r with Ok l => rep l rs ∧ file l = f' | Err _ => ∃ e, ReadAll f = (Err e, f') end.
Proof.
  intros Hok Hn Hc H. unfold Open in H. destruct (ReadAll f) as [[[data cap]|e] f1] eqn:Hra.
  2: { apply ReadAll_law in Hra as [-> _]. simplify_eq. eauto. }
  apply ReadAll_law in Hra as [-> ->]. rewrite Hc in H.
  destruct (Open_loop_spec (length (encode_all rs)) [] rs (zeros cap) ∅) as (ix & Ho & Hix); [done|done| | |].
  - rewrite length_encode_all by done. unfold record_length, ValueFixedLength. lia.
  - intros k o. rewrite lookup_empty. split; [done|]. by intros (i & r0 & [=] & _).
  - cbn [app length] in Ho. rewrite Nat.mul_0_r, <- length_encode_all in Ho by done. rewrite Ho in H.
    simplify_eq. split; [done|]. split; [|done]. split; cbn [dlen buffer index]; [done..| | |done].
    + by apply length_encode_all.
    + case_decide as He; [|by eexists]. rewrite He. by eexists.
Qed.

(** *** What is in the file *)

Definition disk_rep `{!RedoFileLaws FT} (l : L) (rs : list rec) : Prop :=
  rep l rs ∧ content (file l) = encode_all rs.

Lemma write_memory_len k data l ix b n : write_memory k data l = Ok (ix, b, n) → (dlen l ≤ n)%nat.
Proof.
  unfold write_memory, mbind, res_bind. destruct (index l !! k); destruct (put_value _ _ _); intros; simplify_eq; lia.
Qed.

(** The file after a write: a part of the new bytes over the old ones, all of them when
    there was no error. *)
Lemma Write_content `{!RedoFileLaws FT} k data (l l' : L) r rs : disk_rep l rs → is_u64 k →
  (length data ≤ ValueFixedLength)%nat → Write k data l = (r, l') →
  ∃ rs' n, rep l' rs' ∧ (length rs ≤ length rs')%nat ∧
    content (file l') = take n (encode_all rs') ++ drop n (encode_all rs) ∧
    (is_ok r = true → content (file l') = encode_all rs') ∧
    (∀ i q, rs !! i = Some q → rkey q = k →
       rs' = <[i := MkRec k data (drop (length data) (value q ++ pad q))]> rs).
Proof.
  intros [Hr Hc] Hk Hd H.
  destruct (write_memory_spec l rs k data Hr Hk Hd) as (ix & b & n & rs' & Hm & Hr' & _ & Hins).
  destruct (Write_inv _ _ _ _ _ Hd _ _ _ Hm H) as (f & -> & w & f1 & Hw & Hres).
  apply write_memory_len in Hm. cbn [file] in *. exists rs'.
  pose proof (rep_len _ _ Hr') as Hn. cbn [dlen] in Hn. pose proof (rep_len _ _ Hr) as Hn0.
  assert (take n b = encode_all rs') as Ht.
  { destruct (rep_data _ _ Hr') as [tail Hb]. cbn [buffer] in Hb. rewrite Hb, Hn.
    rewrite <- length_encode_all by apply Hr'. apply take_app_length. }
  rewrite Ht in Hw. apply WriteStart_law in Hw as (j & Hj & Hcj & Hok).
  assert (length rs ≤ length rs')%nat as Hle by (unfold record_length, ValueFixedLength in *; lia).
  assert (content f = content f1) as Hf.
  { destruct w; [|by destruct Hres as [_ ->]]. destruct (NoSync l); [by destruct Hres as [_ ->]|].
    by apply FSync_law in Hres. }
  rewrite Hc in Hcj. exists j. split_and!; [by apply (rep_file _ _ (NoSync l) (NoCopy l) f) in Hr'|done|congruence| |done].
  intros Hrok. rewrite Hf, Hcj. destruct w as [u|e]; [|by destruct Hres as [-> _]]. rewrite (Hok eq_refl).
  rewrite firstn_all, drop_ge, app_nil_r; [done|].
  rewrite !length_encode_all by (apply Hr || apply Hr'). unfold record_length, ValueFixedLength. lia.
Qed.

(** [redo_survives]: after a write that reports success the file alone gives the
    same answers: reopening it restores every key. *)
Theorem redo_survives `{!RedoFileLaws FT} k data (l l' l'' : L) rs ns nc f : disk_rep l rs → is_u64 k →
  (length data ≤ ValueFixedLength)%nat → Write k data l = (Ok (), l') →
Open ns nc (file l') = (Ok l'', f) → ∀ k', Read l'' k' = Read l' k'.
Proof.
  intros Hr Hk Hd Hw Ho k'.
  destruct (Write_content _ _ _ _ _ _ Hr Hk Hd Hw) as (rs' & n & Hr' & _ & _ & Hc & _).
  apply (Open_rep _ _ _ _ _ rs') in Ho as (_ & Hr'' & _); [|apply Hr'|apply Hr'|by apply Hc].
  by rewrite (Read_spec _ _ _ Hr''), (Read_spec _ _ _ Hr').
Qed.

(** Old and new bytes with a cut between. *)
Definition mix (n : nat) (new old : bytes) : bytes := take n new ++ drop n old.

Lemma mix_same n a : mix n a a = a.
Proof. apply take_drop. Qed.
Lemma mix_app n a b a' b' : length a = length a' →
  mix n (a ++ b) (a' ++ b') = mix n a a' ++ mix (n - length a) b b'.
Proof.
  intros Hl. unfold mix. rewrite take_app, drop_app, <- Hl.
  destruct (decide (n ≤ length a)%nat) as [Hn|Hn].
  - replace (n - length a)%nat with 0%nat by lia. by rewrite !take_0, app_nil_r, <- app_assoc.
  - rewrite (drop_ge a' n) by lia. by rewrite <- !app_assoc.
Qed.
Lemma length_mix n a b : length a = length b → length (mix n a b) = length b.
Proof. intros Hl. unfold mix. rewrite length_app, length_take, length_drop. lia. Qed.

(** A small number differs from another one in its first byte only. *)
Lemma PutUint64_small z : 0 ≤ z < 256 → PutUint64 z = byte_of z :: zeros 7.
Proof.
  intros Hz. unfold PutUint64. cbn [le]. rewrite !Z.div_small by (rewrite ?Z.div_small; lia).
  done.
Qed.

Lemma mix_length n x y : (x ≤ ValueFixedLength)%nat → (y ≤ ValueFixedLength)%nat →
  ∃ z, (z = x ∨ z = y) ∧
    mix n (PutUint64 (Z.of_nat x)) (PutUint64 (Z.of_nat y)) = PutUint64 (Z.of_nat z).
Proof.
  intros Hx Hy. unfold ValueFixedLength in *. rewrite !PutUint64_small by lia.
  destruct n as [|n]; [exists y|exists x]; rewrite PutUint64_small by lia; (split; [auto|]).
  - done.
  - unfold mix. simpl. by rewrite take_drop.
Qed.

(** A write that was cut short leaves a record in its place. *)
Lemma mix_record n r data : rec_ok r → (length data ≤ ValueFixedLength)%nat →
  ∃ r', rec_ok r' ∧ rkey r' = rkey r ∧
    mix n (encode (MkRec (rkey r) data (drop (length data) (value r ++ pad r)))) (encode r) = encode r'.
Proof.
  intros [Hu Hv] Hd. unfold encode. cbn [rkey value pad].
  rewrite mix_app, mix_same by done. rewrite length_PutUint64, mix_app by done.
  destruct (mix_length (n - 8) (length data) (length (value r)) Hd ltac:(lia)) as (z & Hz & ->).
  rewrite length_PutUint64. set (w := mix (n - 8 - 8) _ _).
  assert (length w = ValueFixedLength) as Hw.
  { unfold w. rewrite length_mix; rewrite ?length_app, ?length_drop, ?length_app; lia. }
  exists (MkRec (rkey r) (take z w) (drop z w)). cbn [rkey value pad].
  rewrite length_take, Nat.min_l by (destruct Hz as [-> | ->]; lia). rewrite take_drop.
  split_and!; [|done|done]. split; [done|]. cbn [value pad]. rewrite length_take, length_drop. lia.
Qed.

Lemma mix_encode_all n rs i r r' : rs !! i = Some r → rec_ok r → rec_ok r' →
  ∃ j, mix n (encode_all (<[i := r']> rs)) (encode_all rs) =
    encode_all (take i rs) ++ mix j (encode r') (encode r) ++ encode_all (drop (S i) rs).
Proof.
  intros Hi Hr Hr'. assert (i < length rs)%nat as Hlt by (by eapply lookup_lt_Some).
  rewrite (encode_all_split rs i r Hi), (encode_all_split (<[i:=r']> rs) i r') by (by apply list_lookup_insert_eq).
  rewrite take_insert_ge, drop_insert_lt by lia. rewrite mix_app, mix_same by done. eexists. f_equal.
  rewrite mix_app by (by rewrite !length_encode). by rewrite mix_same.
Qed.

(** [redo_torn]: when a key is overwritten and the write fails or the process dies
    in the middle of it, reopening the file finds every other key as it was. *)
Theorem redo_torn `{!RedoFileLaws FT} k data (l l' l'' : L) r rs ns nc f : disk_rep l rs → is_u64 k →
  is_Some (index l !! k) → (length data ≤ ValueFixedLength)%nat → Write k data l = (r, l') →
Open ns nc (file l') = (Ok l'', f) → ∀ k', k' ≠ k → Read l'' k' = Read l k'.
Proof.
  intros Hr Hk [o Ho] Hd Hw Hop k' Hne. pose proof (proj1 Hr) as Hrep.
  pose proof (rep_find l rs k Hrep) as Hf. rewrite Ho in Hf. destruct Hf as (i & q & Hi & Hq & _).
  destruct (Write_content _ _ _ _ _ _ Hr Hk Hd Hw) as (rs' & n & _ & _ & Hc & _ & Hins).
  rewrite (Hins _ _ Hi Hq) in Hc. rewrite <- Hq in Hc.
  assert (rec_ok q) as Hqok by (eapply Forall_lookup_1; [apply Hrep|done]).
  destruct (mix_encode_all n rs i q (MkRec (rkey q) data (drop (length data) (value q ++ pad q))) Hi Hqok) as [j Hj].
  { split; [apply Hqok|]. cbn [value pad]. destruct Hqok as [_ ?]. rewrite length_drop, length_app. lia. }
  unfold mix at 1 in Hj. rewrite Hj in Hc.
  destruct (mix_record j q data Hqok Hd) as (q' & Hok' & Hk' & Hm). rewrite Hm in Hc.
  assert (i < length rs)%nat as Hlt by (by eapply lookup_lt_Some).
  assert (content (file l') = encode_all (<[i := q']> rs)) as Hc'.
  { rewrite Hc, (encode_all_split (<[i:=q']> rs) i q') by (by apply list_lookup_insert_eq).
    by rewrite take_insert_ge, drop_insert_lt by lia. }
  apply (Open_rep _ _ _ _ _ (<[i := q']> rs)) in Hop as (_ & Hr'' & _); [| | |done].
  - rewrite (Read_spec _ _ _ Hr''), (Read_spec _ _ _ Hrep).
    rewrite (find_rec_insert _ _ q) by (done || apply Hrep). by rewrite decide_False by congruence.
  - apply Forall_insert; [apply Hrep|done].
  - rewrite list_fmap_insert, list_insert_id; [apply Hrep|]. by rewrite list_lookup_fmap, Hi, Hk'.
Qed.
End refinement.

(** ** The interface of the log

    What a shard relies on: [memory] is what [Read] answers, [saved] what reopening the
    file gives. A failed write may have changed either; if the file is written at all,
    it is written to what the memory holds. *)
Class RedoLog (RT : Type) := {
  redo_Open : M RT ();
  redo_Read : RT → Z → res bytes;
  redo_Write : Z → bytes → M RT ();
}.

Definition put (k : Z) (v : bytes) (m : Z → option bytes) : Z → option bytes :=
  λ k', if decide (k' = k) then Some v else m k'.

Class RedoLogLaws (RT : Type) `{!RedoLog RT} := {
  redo_ok : RT → Prop;
  memory : RT → Z → option bytes;
  saved : RT → Z → option bytes;
  redo_Open_law s r s' : redo_ok s → redo_Open s = (r, s') → redo_ok s' ∧
    (∀ k, saved s' k = saved s k) ∧
    (is_ok r = true → ∀ k, memory s' k = saved s k);
  redo_Read_law s k : redo_ok s →
    redo_Read s k = match memory s k with Some v => Ok v | None => Err ErrRedoNotFound end;
  redo_Write_law k v s r s' : redo_ok s → is_u64 k → (length v ≤ ValueFixedLength)%nat →
    redo_Write k v s = (r, s') → redo_ok s' ∧
    (∀ k', memory s' k' = put k v (memory s) k') ∧
    ((∀ k', saved s' k' = saved s k') ∧ is_ok r = false ∨ ∀ k', saved s' k' = put k v (memory s) k');
}.

(** A file that is written as a whole or not at all. *)
Class AtomicFile (FT : Type) `{!RedoFile FT, !RedoFileLaws FT} := {
  WriteStart_atomic v f r f' : WriteStart v f = (r, f') →
    content f' = v ++ drop (length v) (content f) ∨ is_ok r = false ∧ content f' = content f;
}.

#[export] Instance Log_redo {FT} `{!RedoFile FT} : RedoLog (Log FT) := {|
  redo_Open := λ l,
    match Open (NoSync l) (NoCopy l) (file l) with
    | (Ok l', _) => (Ok (), l')
    | (Err e, f) => (Err e, MkLog (index l) (buffer l) (dlen l) (NoSync l) (NoCopy l) f)
    end;
  redo_Read := Read;
  redo_Write := Write |}.

Section interface.
Context {FT : Type} `{!RedoFile FT, !RedoFileLaws FT, !AtomicFile FT}.
#[local] Abbreviation L := (Log FT).

Definition answer (l : L) (k : Z) : option bytes :=
  match Read l k with Ok v => Some v | Err _ => None end.

(** The log that the bytes of the file are. *)
Definition log_of (b : bytes) (l : L) : L :=
  match Open_loop (length b) b (length b) 0 ∅ with
  | Ok ix => MkLog ix b (length b) (NoSync l) (NoCopy l) (file l)
  | Err _ => MkLog ∅ b (length b) (NoSync l) (NoCopy l) (file l)
  end.

Lemma answer_spec l rs k : rep l rs → answer l k = find_rec rs k.
Proof using Type. intros Hr. unfold answer. rewrite (Read_spec _ _ _ Hr). by destruct (find_rec rs k). Qed.

Lemma log_of_rep l rs : Forall rec_ok rs → NoDup (rkey <$> rs) → rep (log_of (encode_all rs) l) rs.
Proof using Type.
  intros Hok Hn. unfold log_of.
  destruct (Open_loop_spec (length (encode_all rs)) [] rs [] ∅) as (ix & Ho & Hix); [done|done| | |].
  - rewrite length_encode_all by done. unfold record_length, ValueFixedLength. lia.
  - intros k o. rewrite lookup_empty. split; [done|]. by intros (i & r0 & [=] & _).
  - cbn [app length] in Ho. rewrite Nat.mul_0_r, app_nil_r, <- length_encode_all in Ho by done. rewrite Ho.
    split; cbn [dlen buffer index]; [done..| | |done].
    + by apply length_encode_all.
    + exists []. by rewrite app_nil_r.
Qed.

(** The file holds records, no more of them than the memory. *)
Definition file_rep (l : L) (rs rsf : list rec) : Prop :=
  rep l rs ∧ Forall rec_ok rsf ∧ NoDup (rkey <$> rsf) ∧ content (file l) = encode_all rsf ∧
  (length rsf ≤ length rs)%nat.

Lemma file_rep_saved l rs rsf k : file_rep l rs rsf → answer (log_of (content (file l)) l) k = find_rec rsf k.
Proof using Type.
  intros (_ & Hok & Hn & -> & _). by apply answer_spec, log_of_rep.
Qed.

#[export] Instance Log_redo_laws : RedoLogLaws L.
Proof using All.
  refine {| redo_ok := λ l, ∃ rs rsf, file_rep l rs rsf; memory := answer;
            saved := λ l, answer (log_of (content (file l)) l) |}.
  - intros l r l' (rs & rsf & Hf) H. simpl in H. pose proof Hf as (Hr & Hok & Hn & Hc & Hle).
    destruct (Open (NoSync l) (NoCopy l) (file l)) as [[l1|e] f1] eqn:Ho.
    + injection H as <- <-. apply (Open_rep _ _ _ _ _ rsf) in Ho as (Hc1 & Hr1 & Hfl); [|done..].
      assert (file_rep l1 rsf rsf) as Hf1 by (split_and!; [done..|congruence|done]).
      split_and!; [by eexists _, _| |].
      * intros k. by rewrite (file_rep_saved _ _ _ _ Hf), (file_rep_saved _ _ _ _ Hf1).
      * intros _ k. by rewrite (file_rep_saved _ _ _ _ Hf), (answer_spec _ _ _ Hr1).
    + injection H as <- <-. apply (Open_rep _ _ _ _ _ rsf) in Ho as (Hc1 & _); [|done..].
      assert (file_rep (MkLog (index l) (buffer l) (dlen l) (NoSync l) (NoCopy l) f1) rs rsf) as Hf1.
      { split_and!; [by apply rep_file|done..]. }
      split_and!; [by eexists _, _| |done].
      intros k. by rewrite (file_rep_saved _ _ _ _ Hf), (file_rep_saved _ _ _ _ Hf1).
  - intros l k (rs & rsf & Hr & _). unfold answer. simpl. rewrite (Read_spec _ _ _ Hr).
    by destruct (find_rec rs k).
  - intros k v l r l' (rs & rsf & Hf) Hk Hv H. simpl in H. pose proof Hf as (Hr & Hok & Hn & Hc & Hle).
    destruct (write_memory_spec l rs k v Hr Hk Hv) as (ix & b & n & rs' & Hm & Hr' & Hfind & _).
    destruct (Write_inv _ _ _ _ _ Hv _ _ _ Hm H) as (f & -> & w & f1 & Hw & Hres).
    apply write_memory_len in Hm. pose proof (rep_len _ _ Hr') as Hn'. cbn [dlen] in Hn'.
    pose proof (rep_len _ _ Hr) as Hn0.
    assert (length rs ≤ length rs')%nat as Hle' by (unfold record_length, ValueFixedLength in *; lia).
    apply (rep_file _ _ (NoSync l) (NoCopy l) f) in Hr'. cbn [index buffer dlen] in Hr'.
    set (l' := MkLog ix b n (NoSync l) (NoCopy l) f) in *.
    assert (take n b = encode_all rs') as Ht.
    { destruct (rep_data _ _ Hr') as [tail Hb]. cbn [buffer l'] in Hb. rewrite Hb, Hn'.
      rewrite <- length_encode_all by apply Hr'. apply take_app_length. }
    assert (content f = content f1 ∧ (is_ok w = false → is_ok r = false)) as [Hfc Hwr].
    { destruct w; [|by destruct Hres as [-> ->]]. destruct (NoSync l); [by destruct Hres as [_ ->]|].
      by apply FSync_law in Hres. }
    assert (∀ k', answer l' k' = put k v (answer l) k') as Hmem.
    { intros k'. unfold put. rewrite (answer_spec _ _ _ Hr'), (answer_spec _ _ _ Hr). apply Hfind. }
    rewrite Ht in Hw. apply WriteStart_atomic in Hw as [Hw|[Hwe Hw]].
    + assert (content (file l') = encode_all rs') as Hcf.
      { simpl. rewrite Hfc, Hw, Hc, drop_ge, app_nil_r; [done|].
        rewrite !length_encode_all by (done || apply Hr'). unfold record_length, ValueFixedLength. lia. }
      assert (file_rep l' rs' rs') as Hf' by (split_and!; [done|apply Hr'|apply Hr'|done|done]).
      split_and!; [by eexists _, _|done|]. right. intros k'.
      rewrite (file_rep_saved _ _ _ _ Hf'), <- Hmem. by rewrite (answer_spec _ _ _ Hr').
    + assert (file_rep l' rs' rsf) as Hf' by (split_and!; [done..|simpl; congruence|lia]).
      split_and!; [by eexists _, _|done|]. left. split; [|by apply Hwr]. intros k'.
      by rewrite (file_rep_saved _ _ _ _ Hf'), (file_rep_saved _ _ _ _ Hf).
Defined.
End interface.

(** ** Examples *)

Module RedoDemo.
(** A file in memory; the second component is what the next write leaves out. *)
#[export] Instance mem_file : RedoFile (bytes * nat) := {|
  ReadAll := λ f, (Ok (f.1, 512%nat), f);
  WriteStart v := λ '(b, cut),
    let n := (length v - cut)%nat in
    (if decide (n = length v) then Ok () else Err (errors_New "input/output error"),
     (take n v ++ drop n b, O));
  FSync := mret ();
  room n := n |}.
#[export] Instance mem_file_laws : RedoFileLaws (bytes * nat).
Proof.
  refine {| content := fst |}; simpl.
  - by intros f r f' [= <- <-].
  - intros v [b cut] r f' [= <- <-]. exists (length v - cut)%nat. split_and!; [lia|done|].
    by case_decide.
  - by intros f r f' [= <- <-].
Defined.

Definition v1 : bytes := String.list_ascii_of_string "1:10".
Definition v2 : bytes := String.list_ascii_of_string "11:9999".
Definition empty : Log (bytes * nat) := MkLog ∅ (zeros 256) 0 false true ([], O).

Lemma empty_rep : disk_rep empty [].
Proof.
  split; [|done]. split; [constructor|constructor|done|by eexists|]. intros k o. split; [done|].
  by intros (i & r & [=] & _).
Qed.

Lemma redo_read_write_witness : ∃ l', Write 1 v1 empty = (Ok (), l') ∧ Read l' 1 = Ok v1 ∧
  Read l' 2 = Err ErrRedoNotFound.
Proof.
  destruct (Write 1 v1 empty) as [r l'] eqn:E. assert (is_u64 1) as Hu by done.
  destruct (redo_read_write 1 v1 empty l' [] r (proj1 empty_rep) Hu E) as (Hr & Ho & _).
  exists l'. assert (r = Ok ()) as -> by (change r with (r, l').1; rewrite <- E; by vm_compute).
  split_and!; [done|done|]. by rewrite Ho by done.
Defined.

Lemma redo_survives_witness : ∃ l' l'' f, Write 1 v1 empty = (Ok (), l') ∧
Open false true (file l') = (Ok l'', f) ∧ Read l'' 1 = Ok v1.
Proof.
  destruct (Write 1 v1 empty) as [r l'] eqn:E.
  assert (r = Ok ()) as -> by (change r with (r, l').1; rewrite <- E; by vm_compute).
  destruct (Open false true (file l')) as [ro f] eqn:Eo.
  assert (is_ok ro = true ∧ Read l' 1 = Ok v1) as [Hok Hr].
  { change ro with (ro, f).1. rewrite <- Eo. change l' with (Ok (A := ()) (), l').2. rewrite <- E. by vm_compute. }
  destruct ro as [l''|]; [|done]. exists l', l'', f.
  assert (is_u64 1) as Hu by done. assert (length v1 ≤ ValueFixedLength)%nat as Hl by (vm_compute; lia).
  split_and!; [done|done|].
  rewrite (redo_survives 1 v1 empty l' l'' [] false true f empty_rep Hu Hl E Eo 1). done.
Defined.

(** Two keys in the file; the next write loses its last 150 bytes. *)
Definition two : list rec := [MkRec 1 v1 (zeros 60); MkRec 2 v2 (zeros 57)].
Definition full : Log (bytes * nat) :=
  MkLog {[1 := 8%nat; 2 := 88%nat]} (encode_all two) 160 false true (encode_all two, 150%nat).

Lemma full_rep : disk_rep full two.
Proof.
  split; [|done]. split.
  - repeat constructor; by vm_compute.
  - by apply (bool_decide_unpack _); vm_compute.
  - done.
  - exists []. by rewrite app_nil_r.
  - intros k o. unfold full, two. cbn [index]. rewrite lookup_insert_Some, lookup_singleton_Some. split.
    + intros [[<- <-]|[_ [<- <-]]]; [exists 0%nat|exists 1%nat]; eexists; by split_and!.
    + intros ([|[|i]] & r & Hi & <- & ->); simplify_eq/=; auto.
Qed.

Lemma redo_torn_witness : ∃ e l' l'' f, Write 1 v2 full = (Err e, l') ∧
Open false true (file l') = (Ok l'', f) ∧ Read l'' 2 = Ok v2.
Proof.
  destruct (Write 1 v2 full) as [r l'] eqn:E.
  assert (is_ok r = false) as Hbad by (change r with (r, l').1; rewrite <- E; by vm_compute).
  destruct r as [|e]; [done|].
  destruct (Open false true (file l')) as [ro f] eqn:Eo.
  assert (is_ok ro = true) as Hok.
  { change ro with (ro, f).1. rewrite <- Eo. change l' with (Err (A := ()) e, l').2. rewrite <- E. by vm_compute. }
  destruct ro as [l''|]; [|done]. exists e, l', l'', f.
  assert (is_u64 1) as Hu by done. assert (length v2 ≤ ValueFixedLength)%nat as Hl by (vm_compute; lia).
  assert (is_Some (index full !! 1)) as Hin by (by eexists). assert (2 ≠ 1) as Hne by done.
  split_and!; [done|done|].
  rewrite (redo_torn 1 v2 full l' l'' (Err e) two false true f full_rep Hu Hin Hl E Eo 2 Hne). by vm_compute.
Defined.
End RedoDemo.
