(* ===== verification/Values.v ===== *)
(** The values of a document (pkg/zutils: strconv.go, time.go and flatten/flatten.go).

    A document is a Go map decoded from JSON. Numbers are floats of 64 bits. A slice is
    shared by whoever holds it: it carries an identity, and what was written into it
    since is in a store by identity. Go visits maps in any order; the order of the
    lists here stands for one of them. *)
From Stdlib Require Import SpecFloat.
From S2P Require Import Prelude Strings State Wire Mappings.
#[local] Open Scope Z_scope.

(** ** Floats *)

Definition float := spec_float.

#[export] Instance float_eq_dec : EqDecision float.
Proof. solve_decision. Defined.

(** The float nearest to an integer, and to [m / 10^k]. *)
Definition float_of_Z (z : Z) : float := binary_normalize 53 1024 z 0 false.
Definition float_of_ratio (neg : bool) (m k : positive) : float :=
  let '(q, e, l) := SFdiv_core_binary 53 1024 (Zpos m) 0 (Zpos (10 ^ k)) 0 in
  binary_round_aux 53 1024 neg q e l.

(** [int64(f)] of amd64: towards zero, and the smallest integer out of range. *)
Definition int64_of (f : float) : Z :=
  match f with
  | S754_zero _ => 0
  | S754_finite neg m e =>
      let z := Z.shiftl (Zpos m) e in
      let z := if neg then - z else z in
      if (i64_min <=? z) && (z <=? i64_max) then z else i64_min
  | _ => i64_min
  end.

Definition finite (f : float) : bool :=
  match f with S754_zero _ | S754_finite _ _ _ => true | _ => false end.
(** [f != 0], which NaN is. *)
Definition nonzero (f : float) : bool := match f with S754_zero _ => false | _ => true end.

(** The number a JSON text denotes: sign, digits, fraction, exponent. *)
Fixpoint digits (n : Z) (s : string) : Z * nat * string :=
  match s with
  | String c s' =>
      if is_digit c then
        let '(n, k, s) := digits (n * 10 + (byte_val c - byte_val "0")) s' in (n, S k, s)
      else (n, O, s)
  | "" => (n, O, "")
  end.

Definition float_of_text (s : string) : float :=
  let '(neg, s) := match s with String "-" s => (true, s) | _ => (false, s) end in
  let '(n, _, s) := digits 0 s in
  let '(n, frac, s) := match s with String "." s => digits n s | _ => (n, O, s) end in
  let e := match s with
           | String "e" s | String "E" s =>
               match s with
               | String "-" s => - (digits 0 s).1.1
               | String "+" s => (digits 0 s).1.1
               | _ => (digits 0 s).1.1
               end
           | _ => 0
           end - Z.of_nat frac in
  match n with
  | Zpos m => if 0 <=? e then binary_normalize 53 1024 (if neg then - (n * 10 ^ e) else n * 10 ^ e) 0 neg
              else float_of_ratio neg m (Z.to_pos (- e))
  | _ => S754_zero neg
  end.

(** ** Values *)

(** [VInt] is an [int] or [int64]; a slice is named by where it was in its document. *)
Inductive value :=
| VNil
| VBool (b : bool)
| VNum (f : float)
| VInt (z : Z)
| VStr (s : string)
| VSlice (a : list nat) (vs : list value)
| VMap (o : list (string * value)).

Definition is_nil (v : value) : bool := match v with VNil => true | _ => false end.

Abbreviation vdoc := (list (string * value)).

(** The decoded form of a JSON value. A number out of range, which the decoder
    refuses, is infinite here. *)
Fixpoint of_json (p : list nat) (j : json) : value :=
  match j with
  | JNull => VNil
  | JBool b => VBool b
  | JNum n => VNum (float_of_text n)
  | JStr s => VStr s
  | JArr l => VSlice p ((fix go (i : nat) l := match l with
                          | [] => []
                          | j :: l => of_json (i :: p) j :: go (S i) l
                          end) O l)
  | JObj o => VMap ((fix go (i : nat) o := match o with
                      | [] => []
                      | (k, j) :: o => (k, of_json (i :: p) j) :: go (S i) o
                      end) O o)
  end.

Definition of_obj (o : obj) : vdoc := match of_json [] (JObj o) with VMap o => o | _ => [] end.

(** Maps: [m[k]], [m[k] = v] and [delete(m, k)]. *)
Fixpoint lookup_doc (k : string) (o : vdoc) : option value :=
  match o with
  | [] => None
  | (k', v) :: o => if decide (k = k') then Some v else lookup_doc k o
  end.
Fixpoint set_doc (k : string) (v : value) (o : vdoc) : vdoc :=
  match o with
  | [] => [(k, v)]
  | (k', v') :: o => if decide (k = k') then (k, v) :: o else (k', v') :: set_doc k v o
  end.
Definition delete_doc (k : string) (o : vdoc) : vdoc := filter (λ kv, kv.1 ≠ k) o.

(** ** Slices *)

Abbreviation heap := (gmap (list nat) (list value)).

(** What is in a slice now. *)
Definition elements_of (h : heap) (a : list nat) (vs : list value) : list value := default vs (h !! a).
(** A value with its slices as they are now. *)
Fixpoint refresh (h : heap) (v : value) : value :=
  match v with
  | VSlice a vs => match h !! a with Some ws => VSlice a ws | None => VSlice a (map (refresh h) vs) end
  | VMap o => VMap (map (λ kv, (kv.1, refresh h kv.2)) o)
  | _ => v
  end.
Definition refresh_doc (h : heap) (o : vdoc) : vdoc := map (λ kv, (kv.1, refresh h kv.2)) o.

(** ** flatten.go *)

Definition is_container (v : value) : bool :=
  match v with VSlice _ _ | VMap _ => true | _ => false end.
Definition enkey (top : bool) (prefix subkey : string) : string :=
  if top then prefix +:+ subkey else prefix +:+ "." +:+ subkey.

Fixpoint flatten (top : bool) (flatMap : vdoc) (nested : value) (prefix : string) : vdoc :=
  match nested with
  | VMap o =>
      (fix go (o : list (string * value)) (flatMap : vdoc) : vdoc :=
         match o with
         | [] => flatMap
         | (k, v) :: o =>
             let newKey := enkey top prefix k in
             go o (if is_container v then flatten false flatMap v newKey else set_doc newKey v flatMap)
         end) o flatMap
  | VSlice _ vs =>
      if forallb is_container vs then
        (fix go (i : nat) (vs : list value) (flatMap : vdoc) : vdoc :=
           match vs with
           | [] => flatMap
           | v :: vs =>
               go (S i) vs (flatten false flatMap v (enkey top prefix (FormatUint (Z.of_nat i))))
           end) O vs flatMap
      else set_doc prefix nested flatMap
  | _ => flatMap
  end.

Definition Flatten (nested : vdoc) (prefix : string) : vdoc := flatten true [] (VMap nested) prefix.

(** ** strconv.go and time.go *)

(** Texts of numbers, [%v], and the time zones and layouts of package time. Times are
    nanoseconds since 1970. *)
Class GoLib := {
  ParseFloat : string → res float;
  FormatFloat : float → string;
  Sprint : value → string;
  Location : Type;
  UTC : Location;
  Local_ : Location;
  LoadZone : string → res Location;
  ParseInLocation : string → string → Location → res Z;
}.

Definition FormatInt (z : Z) : string := pretty z.
Definition FormatBool (b : bool) : string := if b then "true" else "false".
Definition ParseBool (s : string) : res bool :=
  if bool_decide (s ∈ ["1"; "t"; "T"; "TRUE"; "true"; "True"]) then Ok true
  else if bool_decide (s ∈ ["0"; "f"; "F"; "FALSE"; "false"; "False"]) then Ok false
  else Err ErrSyntax.

(** [%T]. *)
Definition type_name (v : value) : string :=
  match v with
  | VNil => "<nil>"
  | VBool _ => "bool"
  | VNum _ => "float64"
  | VInt _ => "int64"
  | VStr _ => "string"
  | VSlice _ _ => "[]interface {}"
  | VMap _ => "map[string]interface {}"
  end.

Section conversions.
Context {lib : GoLib}.

Definition ToString (v : value) : res string :=
  match v with
  | VStr s => Ok s
  | VNum f => Ok (FormatFloat f)
  | VInt z => Ok (FormatInt z)
  | VBool b => Ok (FormatBool b)
  | _ => Ok (Sprint v)
  end.

Definition ToFloat64 (v : value) : res float :=
  match v with
  | VNum f => Ok f
  | VInt z => Ok (float_of_Z z)
  | VStr s => ParseFloat s
  | VBool b => Ok (float_of_Z (if b then 1 else 0))
  | _ => Err (errors_New ("ToFloat64: unknown supported type " +:+ type_name v))
  end.

Definition ToBool (v : value) : res bool :=
  match v with
  | VBool b => Ok b
  | VStr s => ParseBool s
  | VNum f => Ok (nonzero f)
  | VInt z => Ok (negb (z =? 0))
  | _ => Err (errors_New ("ToInt: unknown supported type " +:+ type_name v))
  end.

(** [Unix]: the unit follows from the number of digits. *)
Definition Unix (n : Z) : Z :=
  if n =? 0 then 0
  else if 10 ^ 18 <? n then n
  else if 10 ^ 15 <? n then n * 10 ^ 3
  else if 10 ^ 12 <? n then n * 10 ^ 6
  else n * 10 ^ 9.

Definition parseNumericTime (n : Z) : res Z :=
  let t := Unix n in
  if IsZero t && negb (n =? 0)
  then Err (errors_New ("value [" +:+ FormatInt n +:+ "] is not a valid timestamp"))
  else Ok t.

(** The name is compared in upper case, here of ASCII. *)
Definition parseTimeZone (timeZone : string) : res Location :=
  if bool_decide (timeZone = "") then Ok UTC
  else if bool_decide (to_lower timeZone = "utc") then Ok UTC
  else if bool_decide (to_lower timeZone ∈ ["local"; "system"]) then Ok Local_
  else LoadZone timeZone.

Definition RFC3339 : string := "2006-01-02T15:04:05Z07:00".

Definition parseStringTime (s format timeZone : string) : res Z :=
  if decide (s = "") then Err (errors_New "time value is empty")
  else if decide (format = "epoch_millis") then
    match ParseInt s with
    | Ok v => parseNumericTime v
    | Err _ => Err (errors_New ("time format is [epoch_millis] but value [" +:+ s +:+ "] cannot be converted to int"))
    end
  else
    match parseTimeZone timeZone with
    | Err _ => Err (errors_New ("invalid time zone: " +:+ timeZone))
    | Ok loc =>
        let layout := if decide (format = "") then RFC3339 else format in
        match ParseInLocation layout s loc with
        | Ok t => Ok t
        | Err e => Err (wrap ("time format [" +:+ layout +:+ "] value [" +:+ s +:+ "] parse error: ") e "")
        end
    end.

Definition ParseTime (v : value) (format timeZone : string) : res Z :=
  match v with
  | VNum f => parseNumericTime (int64_of f)
  | VInt z => parseNumericTime z
  | VStr s => parseStringTime s format timeZone
  | _ => Err (errors_New ("value type of time must be string or numeric, got " +:+ type_name v))
  end.
End conversions.

(** [json.Marshal] and [json.Unmarshal] of a value: NaN and infinities have no JSON,
    integers become floats, everything else is as before. *)
Fixpoint has_json (v : value) : bool :=
  match v with
  | VNum f => finite f
  | VSlice _ vs => forallb has_json vs
  | VMap o => forallb (λ kv, has_json kv.2) o
  | _ => true
  end.
Fixpoint reload (v : value) : value :=
  match v with
  | VInt z => VNum (float_of_Z z)
  | VSlice a vs => VSlice a (map reload vs)
  | VMap o => VMap (map (λ kv, (kv.1, reload kv.2)) o)
  | _ => v
  end.
Definition ErrUnsupportedValue : error := errors_New "json: unsupported value".
(** The text is represented by what decoding it gives. *)
Definition Marshal (o : vdoc) : res vdoc :=
  if has_json (VMap o) then Ok (map (λ kv, (kv.1, reload kv.2)) o) else Err ErrUnsupportedValue.

(** ** Maps as lists *)

Lemma lookup_set_eq k v o : lookup_doc k (set_doc k v o) = Some v.
Proof.
  induction o as [|[k' v'] o IH]; simpl; [by rewrite decide_True|].
  destruct (decide (k = k')); simpl; [by rewrite decide_True|by rewrite decide_False].
Qed.

Lemma lookup_set_ne k k' v o : k ≠ k' → lookup_doc k (set_doc k' v o) = lookup_doc k o.
Proof.
  intros Hne. induction o as [|[k0 v0] o IH]; simpl; [by rewrite decide_False|].
  destruct (decide (k' = k0)) as [->|]; simpl; [by rewrite !decide_False|].
  by destruct (decide (k = k0)).
Qed.

Lemma lookup_delete_eq k o : lookup_doc k (delete_doc k o) = None.
Proof.
  induction o as [|[k' v'] o IH]; [done|]. unfold delete_doc. rewrite filter_cons. simpl.
  case_decide; [|done]. simpl. by rewrite decide_False by congruence.
Qed.

Lemma lookup_delete_ne k k' o : k ≠ k' → lookup_doc k (delete_doc k' o) = lookup_doc k o.
Proof.
  intros Hne. induction o as [|[k0 v0] o IH]; [done|]. unfold delete_doc. rewrite filter_cons. simpl.
  case_decide as H0; simpl in *; [by destruct (decide (k = k0))|].
  subst. by rewrite decide_False.
Qed.

Lemma lookup_doc_fmap f k o :
  lookup_doc k (map (λ kv : string * value, (kv.1, f kv.2)) o) = f <$> lookup_doc k o.
Proof. induction o as [|[k' v'] o IH]; simpl; [done|]. by destruct (decide (k = k')). Qed.

Lemma lookup_doc_In k v o : lookup_doc k o = Some v → (k, v) ∈ o.
Proof.
  induction o as [|[k' v'] o IH]; simpl; [done|]. destruct (decide (k = k')) as [->|].
  - intros [= ->]. by left.
  - intros ?. right. auto.
Qed.

Lemma In_lookup_doc k v o : NoDup o.*1 → (k, v) ∈ o → lookup_doc k o = Some v.
Proof.
  induction o as [|[k' v'] o IH]; simpl; [by intros _ ?%elem_of_nil|].
  intros [Hk' Hn]%NoDup_cons [[= <- <-]|Hin]%elem_of_cons; [by rewrite decide_True|].
  rewrite decide_False; [by apply IH|]. intros ->. apply Hk', list_elem_of_fmap. by exists (k', v).
Qed.

Lemma set_doc_keys k v o : (set_doc k v o).*1 = if decide (k ∈ o.*1) then o.*1 else o.*1 ++ [k].
Proof.
  induction o as [|[k' v'] o IH]; [done|]. cbn [set_doc]. rewrite fmap_cons.
  destruct (decide (k = k')) as [->|Hne]; rewrite fmap_cons; cbn [fst].
  - rewrite decide_True by (by left). done.
  - rewrite IH. destruct (decide (k ∈ o.*1)) as [Hin|Hin].
    + rewrite decide_True by (by right). done.
    + rewrite decide_False; [done|]. by intros [?|?]%elem_of_cons.
Qed.

Lemma set_doc_NoDup k v o : NoDup o.*1 → NoDup (set_doc k v o).*1.
Proof.
  intros Hn. rewrite set_doc_keys. case_decide; [done|]. apply NoDup_app. split_and!; [done| |apply NoDup_singleton].
  intros x Hx ->%list_elem_of_singleton. done.
Qed.

(** ** Induction on values *)

Lemma value_ind' (P : value → Prop) :
  P VNil → (∀ b, P (VBool b)) → (∀ f, P (VNum f)) → (∀ z, P (VInt z)) → (∀ s, P (VStr s)) →
  (∀ a vs, Forall P vs → P (VSlice a vs)) → (∀ o, Forall (λ kv, P kv.2) o → P (VMap o)) → ∀ v, P v.
Proof.
  intros Hn Hb Hf Hi Hs Hl Hm. fix go 1. intros [| | | | |a vs|o];
    [apply Hn|apply Hb|apply Hf|apply Hi|apply Hs|..].
  - apply Hl. induction vs as [|v vs IH]; constructor; [apply go|apply IH].
  - apply Hm. induction o as [|[k v] o IH]; constructor; [apply go|apply IH].
Qed.

(** ** Flat documents *)

(** Nothing but what JSON has. *)
Fixpoint plain (v : value) : bool :=
  match v with
  | VInt _ => false
  | VSlice _ vs => forallb plain vs
  | VMap o => forallb (λ kv, plain kv.2) o
  | _ => true
  end.

Lemma reload_plain v : plain v = true → reload v = v.
Proof.
  induction v as [| | | | |a vs IH|o IH] using value_ind'; try done; simpl;
    intros Hp%Is_true_eq_left%forallb_True; f_equal.
  - induction IH as [|v vs Hv _ IH]; [done|]. apply Forall_cons in Hp as [Hp1 Hp2]. simpl. f_equal; [|auto].
    apply Hv. by apply Is_true_eq_true.
  - induction IH as [|[k v] o Hv _ IH]; [done|]. apply Forall_cons in Hp as [Hp1 Hp2]. simpl in *. f_equal; [|auto].
    f_equal. apply Hv. by apply Is_true_eq_true.
Qed.

(** The slices of a document, and of a flat one. *)
Fixpoint slices_in (v : value) : list (list nat) :=
  match v with
  | VSlice a vs => a :: concat (map slices_in vs)
  | VMap o => concat (map (λ kv, slices_in kv.2) o)
  | _ => []
  end.
Definition tag (v : value) : option (list nat) := match v with VSlice a _ => Some a | _ => None end.
Definition tags (flat : vdoc) : list (list nat) := omap (λ kv, tag kv.2) flat.

Lemma elem_of_tags a flat : a ∈ tags flat ↔ ∃ k vs, (k, VSlice a vs) ∈ flat.
Proof.
  unfold tags. rewrite list_elem_of_omap. split.
  - intros ([k v] & Hin & Hv). destruct v; simplify_eq/=. eauto.
  - intros (k & vs & Hin). by exists (k, VSlice a vs).
Qed.

(** What setting a key adds. *)
Lemma set_doc_In k v o x : x ∈ set_doc k v o → x ∈ o ∨ x = (k, v).
Proof.
  induction o as [|[k' v'] o IH]; simpl; [by intros ->%list_elem_of_singleton; right|].
  destruct (decide (k = k')); rewrite !elem_of_cons; naive_solver.
Qed.

Lemma set_doc_tags k v o : NoDup (tags o) → (∀ a, tag v = Some a → a ∉ tags o) → NoDup (tags (set_doc k v o)).
Proof.
  intros Hn Hv. induction o as [|[k' v'] o IH]; simpl.
  { destruct (tag v); simpl; [apply NoDup_singleton|constructor]. }
  unfold tags in *. simpl in *. destruct (decide (k = k')) as [->|]; simpl.
  - destruct (tag v') as [a'|]; destruct (tag v) as [a|] eqn:E; try done.
    + apply NoDup_cons in Hn as [_ Hn]. apply NoDup_cons. split; [|done]. intros Ha. apply (Hv a); [done|by right].
    + by apply NoDup_cons in Hn as [_ ?].
    + apply NoDup_cons. split; [|done]. by apply Hv.
  - destruct (tag v') as [a'|]; [|by apply IH]. apply NoDup_cons in Hn as [Ha' Hn]. apply NoDup_cons. split.
    + intros ([k0 v0] & [Hin|Heq]%set_doc_In & Hv0)%list_elem_of_omap; simplify_eq/=.
      * apply Ha', list_elem_of_omap. by eexists (k0, v0).
      * apply (Hv a'); [done|by left].
    + apply IH; [done|]. intros a Ha Hin. apply (Hv a Ha). by right.
Qed.

(** A flat document whose keys and slices are different ones and hold JSON. *)
Record flat_ok (flat : vdoc) : Prop := {
  flat_keys : NoDup flat.*1;
  flat_tags : NoDup (tags flat);
  flat_plain : Forall (λ kv, plain kv.2 = true) flat;
}.

Lemma set_doc_ok k v o : flat_ok o → plain v = true → (∀ a, tag v = Some a → a ∉ tags o) →
  flat_ok (set_doc k v o).
Proof.
  intros [Hk Ht Hp] Hv Ha. split; [by apply set_doc_NoDup|by apply set_doc_tags|].
  apply Forall_forall. intros x [Hx| ->]%set_doc_In; [|done]. by eapply Forall_forall in Hp.
Qed.

(** Flattening a value adds some of its slices. *)
Definition flattens (f : vdoc → vdoc) (S : list (list nat)) : Prop := ∀ flat,
  flat_ok flat → NoDup S → (∀ a, a ∈ S → a ∉ tags flat) →
  flat_ok (f flat) ∧ ∀ a, a ∈ tags (f flat) → a ∈ tags flat ∨ a ∈ S.

Lemma flattens_set k v S : plain v = true → (∀ a, tag v = Some a → a ∈ S) → flattens (set_doc k v) S.
Proof.
  intros Hp Ht flat Hf HS Hd. split; [apply set_doc_ok; auto|].
  intros a (k' & vs & [Hin|Heq]%set_doc_In)%elem_of_tags; [left; apply elem_of_tags; eauto|].
  right. simplify_eq. by apply Ht.
Qed.

Lemma flattens_app f g S T : flattens f S → flattens g T → flattens (λ o, g (f o)) (S ++ T).
Proof.
  intros Hf Hg flat Hok (HS & Hdis & HT)%NoDup_app Hd.
  destruct (Hf flat Hok HS) as [H1 H1']; [set_solver|].
  destruct (Hg (f flat) H1 HT) as [H2 H2'].
  { intros a Ha Hin. destruct (H1' a Hin) as [?|?]; [|by eapply Hdis]. eapply Hd; [|done]. set_solver. }
  split; [done|]. intros a Ha. destruct (H2' a Ha) as [?|?]; [|set_solver].
  destruct (H1' a); set_solver.
Qed.

Lemma forallb_Forall {A} (f : A → bool) l : forallb f l = true ↔ Forall (λ x, f x = true) l.
Proof.
  induction l as [|x l IH]; simpl; [by split|]. rewrite andb_true_iff, Forall_cons, IH. done.
Qed.

Lemma flatten_flattens v : plain v = true →
  ∀ top prefix, flattens (λ flat, flatten top flat v prefix) (slices_in v).
Proof.
  induction v as [| | | | |a vs IH|o IH] using value_ind'; intros Hp top prefix;
    try (by intros flat Hf _ _; split; [done|auto]).
  - cbn [flatten]. destruct (forallb is_container vs).
    + assert (∀ i, flattens (λ flat, (fix go (i : nat) (vs : list value) (flatMap : vdoc) : vdoc :=
           match vs with
           | [] => flatMap
           | v :: vs =>
               go (S i) vs (flatten false flatMap v (enkey top prefix (FormatUint (Z.of_nat i))))
           end) i vs flat) (concat (map slices_in vs))) as Hgo.
      { simpl in Hp. rewrite forallb_Forall in Hp. clear a. induction IH as [|v vs Hv _ IH]; intros i.
        - intros flat Hf _ _. split; [done|auto].
        - apply Forall_cons in Hp as [Hp1 Hp2]. simpl.
          apply (flattens_app (λ flat, flatten false flat v _) _); [by apply Hv|by apply IH]. }
      intros flat Hf HS Hd. simpl in HS. apply NoDup_cons in HS as [_ HS].
      destruct (Hgo O flat Hf HS) as [H1 H2]; [intros b Hb; apply Hd; by right|].
      split; [done|]. intros b Hb. destruct (H2 b Hb); [by left|right; by right].
    + apply flattens_set; [done|]. intros b [= <-]. by left.
  - cbn [flatten]. simpl in Hp. rewrite forallb_Forall in Hp. simpl.
    induction IH as [|[k v] o Hv _ IH].
    + intros flat Hf _ _. split; [done|auto].
    + apply Forall_cons in Hp as [Hp1 Hp2]. simpl.
      apply (flattens_app (λ flat, if is_container v then flatten false flat v _ else set_doc _ v flat) _);
        [|by apply IH].
      destruct (is_container v) eqn:Hc; [by apply Hv|]. apply flattens_set; [done|]. by destruct v.
Qed.

(** *** Decoded documents *)

Lemma json_ind' (P : json → Prop) :
  P JNull → (∀ b, P (JBool b)) → (∀ n, P (JNum n)) → (∀ s, P (JStr s)) →
  (∀ l, Forall P l → P (JArr l)) → (∀ o, Forall (λ kv, P kv.2) o → P (JObj o)) → ∀ j, P j.
Proof.
  intros Hn Hb Hf Hs Hl Hm. fix go 1. intros [| | | |l|o]; [apply Hn|apply Hb|apply Hf|apply Hs|..].
  - apply Hl. induction l as [|j l IH]; constructor; [apply go|apply IH].
  - apply Hm. induction o as [|[k j] o IH]; constructor; [apply go|apply IH].
Qed.

Lemma of_json_plain j : ∀ p, plain (of_json p j) = true.
Proof.
  induction j as [| | | |l IH|o IH] using json_ind'; intros p; try done; cbn [of_json]; generalize O; simpl.
  - induction IH as [|j l Hj _ IH]; intros i; [done|]. simpl. by rewrite Hj, IH.
  - induction IH as [|[k j] o Hj _ IH]; intros i; [done|]. simpl in *. by rewrite Hj, IH.
Qed.

(** A slice is named by its path, which no other slice has. *)
Lemma of_json_slices j : ∀ p, NoDup (slices_in (of_json p j)) ∧
  ∀ a, a ∈ slices_in (of_json p j) → p `suffix_of` a.
Proof.
  set (named := λ (n : nat) (p : list nat) (S : list (list nat)),
    NoDup S ∧ ∀ a, a ∈ S → ∃ i, (n ≤ i)%nat ∧ (i :: p) `suffix_of` a).
  assert (∀ n p S T, (NoDup S ∧ ∀ a, a ∈ S → (n :: p) `suffix_of` a) → named (Datatypes.S n) p T →
    named n p (S ++ T)) as Happ.
  { intros n p S T [HS HS'] [HT HT']. split.
    - apply NoDup_app. split_and!; [done| |done]. intros a Ha Hb.
      destruct (HS' a Ha) as [x Hx], (HT' a Hb) as (i & Hi & y & Hy). rewrite Hx in Hy.
      change (n :: p) with ([n] ++ p) in Hy. change (i :: p) with ([i] ++ p) in Hy.
      rewrite !app_assoc in Hy. apply app_inv_tail, app_inj_tail in Hy as [_ ->]. lia.
    - intros a [Ha|Ha]%elem_of_app; [exists n; split; [done|by apply HS']|].
      destruct (HT' a Ha) as (i & ? & ?). exists i. split; [lia|done]. }
  assert (∀ n p S, named n p S → NoDup S ∧ ∀ a, a ∈ S → p `suffix_of` a ∧ a ≠ p) as Hnamed.
  { intros n p S [HS HS']. split; [done|]. intros a Ha. destruct (HS' a Ha) as (i & _ & x & ->). split.
    - exists (x ++ [i]). by rewrite <- app_assoc.
    - intros E%(f_equal length). rewrite length_app in E. simpl in E. lia. }
  induction j as [| | | |l IH|o IH] using json_ind'; intros p; try (by split; [constructor|intros a ?%elem_of_nil]);
    cbn [of_json].
  - match goal with |- context [VSlice p ?t] => set (vs := t) end. assert (named O p (concat (map slices_in vs))) as [H1 H2]%Hnamed.
    { unfold vs. generalize O. induction IH as [|j l Hj _ IH]; intros n; simpl;
        [by split; [constructor|intros a ?%elem_of_nil]|]. apply Happ; [apply Hj|apply IH]. }
    simpl. split.
    + apply NoDup_cons. split; [|done]. intros Hp. by destruct (H2 p Hp).
    + intros a [->|Ha]%elem_of_cons; [done|by apply H2].
  - match goal with |- context [VMap ?t] => set (vs := t) end. assert (named O p (concat (map (λ kv, slices_in kv.2) vs))) as [H1 H2]%Hnamed.
    { unfold vs. generalize O. induction IH as [|[k j] o Hj _ IH]; intros n; simpl;
        [by split; [constructor|intros a ?%elem_of_nil]|]. apply Happ; [apply Hj|apply IH]. }
    simpl. split; [done|]. intros a Ha. by apply H2.
Qed.

Lemma Flatten_ok o : flat_ok (Flatten (of_obj o) "").
Proof.
  assert (flat_ok []) as H0 by (split; [constructor|constructor|constructor]).
  unfold Flatten, of_obj. destruct (of_json [] (JObj o)) as [| | | | | |vs] eqn:E;
    try by simpl.
  apply (flatten_flattens (VMap vs)); rewrite <- ?E; [apply of_json_plain|done| |].
  - apply of_json_slices.
  - intros a _. by intros ?%elem_of_nil.
Qed.
