(* ===== verification/Document.v ===== *)
(** Documents of a shard (pkg/core/index_shards_document.go, [isDateProperty] of
    index_document.go, [SetTimestamp] of index_shards.go, [QueryAnalyzerForField]).

    [CheckDocument] maps the new fields of a document, converts its values to the types
    of the mappings and makes the entry of the log; [BuildBlugeDocumentFromJSON] makes
    the document of the search engine from an entry. The mappings are those of the
    index, which all of its documents change in place. *)
From Stdlib Require Import SpecFloat.
From S2P Require Import Prelude Strings State Wire Mappings Index Values.
#[local] Open Scope Z_scope.

Definition IDFieldName : string := "@_id".
Definition ActionFieldName : string := "@_action".
Definition ShardFieldName : string := "@_shard".
Definition SourceFieldName : string := "@_source".

Definition ActionTypeInsert : string := "insert".
Definition ActionTypeUpdate : string := "update".
Definition ActionTypeDelete : string := "delete".

(** The clock, storing the index, and the analyzers of the index by name. *)
Class DocEnv (S : Type) := {
  Now : M S Z;
  StoreIndex : Mappings → M S ();
  Analyzer_ : string → option string;
  TextKeyword : bool;
}.

(** Of the index its mappings, of the shard the range of its times. *)
Record root (S : Type) := MkRoot {
  live : Mappings; DocTimeMin : Z; DocTimeMax : Z; outside : S }.
Arguments MkRoot {_}. Arguments live {_}. Arguments DocTimeMin {_}. Arguments DocTimeMax {_}.
Arguments outside {_}.

(** ** Dates *)


Definition detectTimeLayout (v : string) : string :=
  if (len v =? 19) && (IndexByte v " " =? 10) then "2006-01-02 15:04:05"
  else if (len v =? 19) && (IndexByte v "T" =? 10) then "2006-01-02T15:04:05"
  else if (len v =? 25) && (IndexByte v "T" =? 10) then RFC3339
  else if (len v =? 29) && (IndexByte v "T" =? 10) && (IndexByte v "." =? 19)
  then "2006-01-02T15:04:05.999Z07:00"
  else "".

(** The fields of a document that is being made. [FNil] is a field that is nil. *)
Inductive field_value :=
| FText (s : string) (analyzer : option string)
| FNumeric (f : float)
| FKeyword (s : string)
| FDate (t : Z)
| FSource (v : value)
| FIndex (name : string)
| FAll
| FNil.

Record field := MkField {
  f_key : string; f_value : field_value; f_store : bool; f_highlight : bool; f_sort : bool; f_agg : bool }.

(** A document of the engine. *)
Record bdoc := MkBdoc { b_id : string; b_fields : list field; b_time : Z }.

Section document.
Context {S : Type} {lib : GoLib} {denv : DocEnv S}.
#[local] Abbreviation R := (root S).

Definition on_outside {A} : M S A → M R A :=
  zoom outside (λ x r, MkRoot (live r) (DocTimeMin r) (DocTimeMax r) x).
Definition SetProperty (key : string) (p : Property) : M R () :=
  modify (λ r, MkRoot (<[key := p]> (live r)) (DocTimeMin r) (DocTimeMax r) (outside r)).
Definition GetProperty (key : string) : M R (option Property) := gets (λ r, live r !! key).

Definition isDateProperty (v : string) : option string :=
  let layout := detectTimeLayout v in
  if decide (layout = "") then None
  else match ParseInLocation layout v UTC with Ok _ => Some layout | Err _ => None end.

(** ** checkProperty *)

Definition date_property (layout : string) : Property :=
  set_options (λ o, MkOptions (Type_ o) (Analyzer o) (SearchAnalyzer o) layout (TimeZone o)
    (Indexed o) (Stored o) (Sortable o) (Aggregatable o) (Highlightable o)) (NewProperty "date").

(** The mapping of a string. *)
Definition map_string (key v : string) : M R () :=
  match isDateProperty v with
  | Some layout => SetProperty key (date_property layout)
  | None =>
      let keyword := NewProperty "keyword" in
      if TextKeyword then
        SetProperty (key +:+ ".keyword") keyword;;
        SetProperty key (AddField (NewProperty "text") "keyword" keyword)
      else SetProperty key (NewProperty "text")
  end.

(** The property that a value gives its key. *)
Definition guess (key : string) (v : value) : M R () :=
  match v with
  | VStr s => map_string key s
  | VInt _ | VNum _ => SetProperty key (NewProperty "numeric")
  | VBool _ => SetProperty key (NewProperty "bool")
  | VSlice _ (VStr s :: _) => map_string key s
  | VSlice _ (VNum _ :: _) => SetProperty key (NewProperty "numeric")
  | VSlice _ (VBool _ :: _) => SetProperty key (NewProperty "bool")
  | _ => mret ()
  end.

(** Whether the mappings need an update. *)
Definition checkProperty (key : string) (v : value) : M R bool :=
  prop ← GetProperty key;
  keyword ← GetProperty (key +:+ ".keyword");
  let done_ := match prop with
               | Some p =>
                   if TextKeyword && bool_decide (Type_ (options p) = "text")
                   then bool_decide (is_Some keyword) else true
               | None => false
               end in
  if done_ : bool then mret false else guess key v;; mret true.

(** ** checkField *)

Definition field_error (key what : string) (v : value) (end_ : string) : error :=
  errors_New ("field [" +:+ key +:+ "] " +:+ what +:+ "[" +:+ Sprint v +:+ "] " +:+ end_).

(** The value a field holds instead of [v]; that of an unknown type is nil. *)
Definition convert (p : Property) (key : string) (v : value) : res value :=
  let o := options p in
  let cannot typ to :=
    field_error key ("was set type to [" +:+ typ +:+ "] but the value ") v ("can't convert to " +:+ to) in
  if decide (Type_ o = "text") then
    match ToString v with Ok s => Ok (VStr s) | Err _ => Err (cannot "text" "string") end
  else if decide (Type_ o = "numeric") then
    match ToFloat64 v with Ok f => Ok (VNum f) | Err _ => Err (cannot "numeric" "int") end
  else if decide (Type_ o = "keyword") then
    match ToString v with Ok s => Ok (VStr s) | Err _ => Err (cannot "keyword" "string") end
  else if decide (Type_ o = "bool") then
    match ToBool v with Ok b => Ok (VBool b) | Err _ => Err (cannot "bool" "boolean") end
  else if decide (Type_ o = "date" ∨ Type_ o = "time") then
    match ParseTime v (Format o) (TimeZone o) with
    | Ok _ => Ok v
    | Err e => Err (field_error key "value " v ("parse err: " +:+ err_text e))
    end
  else Ok VNil.

(** The elements of a slice from position [i], written one by one. *)
Fixpoint check_elements (p : Property) (key : string) (a : list nat) (i : nat) (vs : list value)
    (now : list value) (h : heap) : res () * heap :=
  match vs with
  | [] => (Ok (), h)
  | v :: vs =>
      match convert p key v with
      | Err e => (Err (InvalidDocumentError e), h)
      | Ok w => let now := <[i := w]> now in check_elements p key a (Datatypes.S i) vs now (<[a := now]> h)
      end
  end.

(** ** CheckDocument *)

(** The flat document and the slices. *)
#[local] Abbreviation Loop := (R * (vdoc * heap))%type.

(** One field of the flat document; whether the mappings need an update. *)
Definition check_entry (key : string) (v : value) : M Loop bool :=
  if is_nil v then mret false else
  update ← on_fst (checkProperty key v);
  prop ← on_fst (GetProperty key);
  match prop with
  | None => mret update
  | Some p =>
      if negb (Indexed (options p)) then mret update else
      match v with
      | VSlice a vs =>
          λ '(r, (flat, h)),
            let now := elements_of h a vs in
            let '(x, h) := check_elements p key a O now now h in
            (match x with Ok _ => Ok update | Err e => Err e end, (r, (flat, h)))
      | _ =>
          match convert p key v with
          | Err e => throw (InvalidDocumentError e)
          | Ok w => on_snd (modify (λ x, (set_doc key w x.1, x.2)));; mret update
          end
      end
  end.

Fixpoint check_loop (todo : vdoc) (update : bool) : M Loop bool :=
  match todo with
  | [] => mret update
  | (key, v) :: todo => u ← check_entry key v; check_loop todo (u || update)
  end.

Definition SetMappings_ : M R () :=
  modify (λ r, MkRoot (SetMappings (Some (live r)) (Some (live r))) (DocTimeMin r) (DocTimeMax r) (outside r)).

(** The document is part of the state: its [@timestamp] is taken out. *)
Definition take_timestamp (flat : vdoc) : M (R * vdoc) Z :=
  now ← on_fst (on_outside Now);
  match lookup_doc TimeFieldName flat with
  | None => mret now
  | Some v =>
      on_snd (modify (delete_doc TimeFieldName));;
      prop ← on_fst (GetProperty TimeFieldName);
      let o := options (default zero_Property prop) in
      match ParseTime v (Format o) (TimeZone o) with
      | Ok t => mret t
      | Err e => throw (InvalidDocumentError
                   (field_error TimeFieldName "value " v ("parse err: " +:+ err_text e)))
      end
  end.

(** The flat document prepared for the log. *)
Definition prepare (docID : string) (update : bool) (shard time : Z) (doc flatDoc : vdoc) : vdoc :=
  set_doc SourceFieldName (VMap doc)
    (set_doc TimeFieldName (VInt (i64 time))
      (set_doc ShardFieldName (VInt shard)
        (set_doc IDFieldName (VStr docID)
          (set_doc ActionFieldName (VStr (if update then ActionTypeUpdate else ActionTypeInsert)) flatDoc)))).

Definition CheckDocument_ (docID : string) (update : bool) (shard : Z) (flatDoc : vdoc) (h : heap) :
    M (R * vdoc) vdoc :=
  time ← take_timestamp flatDoc;
  s ← get_state;
  lift (Marshal (prepare docID update shard time (refresh_doc h s.2) (refresh_doc h flatDoc))).

(** Whatever the outcome, the document has its slices as they are then. *)
Definition CheckDocument (docID : string) (update : bool) (shard : Z) : M (R * vdoc) vdoc := λ '(r, doc),
  let flat := Flatten doc "" in
  let '(x, (r, (flat, h))) := check_loop flat false (r, (flat, ∅)) in
  let '(y, (r, doc)) :=
    match x with
    | Err e => (Err e, (r, doc))
    | Ok needs_update =>
        ((if needs_update : bool
          then on_fst (SetMappings_;; r ← get_state; on_outside (StoreIndex (live r)))
          else mret ());;
         CheckDocument_ docID update shard flat h) (r, doc)
    end in
  (y, (r, refresh_doc h doc)).

(** ** BuildBlugeDocumentFromJSON *)

(** The analyzer of a field; a name that is not known gives none. *)
Definition QueryAnalyzerForField (field : string) (m : Mappings) : option string :=
  if decide (field = "") then None
  else match m !! field with
       | Some p => if decide (Type_ (options p) = "text") then Analyzer_ (Analyzer (options p)) else None
       | None => Analyzer_ ""
       end.

Definition assertion {A} (typ : string) : res A := Err (Panic ("interface conversion: interface {} is not " +:+ typ)).
Definition as_string (v : value) : res string := match v with VStr s => Ok s | _ => assertion "string" end.
Definition as_float (v : value) : res float := match v with VNum f => Ok f | _ => assertion "float64" end.
Definition as_bool (v : value) : res bool := match v with VBool b => Ok b | _ => assertion "bool" end.

(** The field of a key without its sub-fields; [None] when there is none because the
    text is empty. *)
Definition build_one (m : Mappings) (key : string) (v : value) : res (option field_value) :=
  let o := options (default zero_Property (m !! key)) in
  if decide (Type_ o = "text") then
    s ← as_string v;
    Ok (if decide (s = "") then None else Some (FText s (QueryAnalyzerForField key m)))
  else if decide (Type_ o = "numeric") then f ← as_float v; Ok (Some (FNumeric f))
  else if decide (Type_ o = "keyword") then
    s ← as_string v; Ok (if decide (s = "") then None else Some (FKeyword s))
  else if decide (Type_ o = "bool") then b ← as_bool v; Ok (Some (FKeyword (FormatBool b)))
  else if decide (Type_ o = "date" ∨ Type_ o = "time") then
    match ParseTime v (Format o) (TimeZone o) with
    | Ok t => Ok (Some (FDate t))
    | Err e => Err (field_error key "value " v ("parse err: " +:+ err_text e))
    end
  else if Stored o || Highlightable o || Sortable o || Aggregatable o
  then Err (Panic "invalid memory address or nil pointer dereference")
  else Ok (Some FNil).

Definition field_of (m : Mappings) (key : string) (f : field_value) : field :=
  let o := options (default zero_Property (m !! key)) in
  MkField key f (Stored o || Highlightable o) (Highlightable o) (Sortable o) (Aggregatable o).

(** The sub-fields of a property, in some order. *)
Definition subfields (m : Mappings) (key : string) : list string :=
  (map_to_list (default ∅ (Fields (default zero_Property (m !! key))))).*1.

Section sub.
Context (buildField : string → res (list field)).
Fixpoint build_subfields (key : string) (subs : list string) : res (list field) :=
  match subs with
  | [] => Ok []
  | s :: subs =>
      fs ← buildField (key +:+ "." +:+ s);
      rest ← build_subfields key subs;
      Ok (fs ++ rest)
  end.
End sub.

(** Every sub-field makes the key longer, and no key is longer than the longest of the
    mappings. *)
Definition longest (m : Mappings) : nat := max_list ((λ kv, String.length kv.1) <$> map_to_list m).
Fixpoint buildField (fuel : nat) (m : Mappings) (v : value) (key : string) : res (list field) :=
  match fuel with
  | O => Err OutOfFuel
  | Datatypes.S fuel =>
      f ← build_one m key v;
      match f with
      | None => Ok []
      | Some f =>
          rest ← build_subfields (buildField fuel m v) key (subfields m key);
          Ok (field_of m key f :: rest)
      end
  end.
Definition build_field (m : Mappings) (key : string) (v : value) : res (list field) :=
  buildField (Datatypes.S (Datatypes.S (longest m))) m v key.

Fixpoint build_elements (m : Mappings) (key : string) (vs : list value) : res (list field) :=
  match vs with
  | [] => Ok []
  | v :: vs => fs ← build_field m key v; rest ← build_elements m key vs; Ok (fs ++ rest)
  end.

Definition build_entry (m : Mappings) (key : string) (v : value) : res (list field) :=
  if is_nil v || bool_decide (key = TimeFieldName) || bool_decide (key = SourceFieldName)
  then Ok []
  else match m !! key with
       | None => Ok []
       | Some p =>
           if negb (Indexed (options p)) then Ok []
           else match v with
                | VSlice _ vs => build_elements m key vs
                | _ => build_field m key v
                end
       end.

Fixpoint build_entries (m : Mappings) (doc : vdoc) : res (list field) :=
  match doc with
  | [] => Ok []
  | (key, v) :: doc => fs ← build_entry m key v; rest ← build_entries m doc; Ok (fs ++ rest)
  end.

Definition without_action (doc : vdoc) : vdoc :=
  delete_doc ShardFieldName (delete_doc IDFieldName (delete_doc ActionFieldName doc)).

(** [SetTimestamp]. *)
Definition SetTimestamp (t : Z) : M R () :=
  modify (λ r,
    if DocTimeMin r =? 0 then MkRoot (live r) t t (outside r)
    else if t <? DocTimeMin r then MkRoot (live r) t (DocTimeMax r) (outside r)
    else if DocTimeMax r <? t then MkRoot (live r) (DocTimeMin r) t (outside r)
    else r).

Definition source_of (doc : vdoc) : value :=
  match lookup_doc SourceFieldName doc with
  | Some VNil | None => VMap (delete_doc SourceFieldName doc)
  | Some v => v
  end.

Definition special (key : string) (f : field_value) (store sort agg : bool) : field :=
  MkField key f store false sort agg.

Definition BuildBlugeDocumentFromJSON (index docID : string) (doc : vdoc) : M R bdoc :=
  r ← get_state;
  let doc := without_action doc in
  fields ← lift (build_entries (live r) doc);
  now ← on_outside Now;
  time ← match lookup_doc TimeFieldName doc with
         | None => mret now
         | Some v => f ← lift (as_float v); mret (int64_of f)
         end;
  let doc := delete_doc TimeFieldName doc in
  SetTimestamp (i64 time);;
  mret (MkBdoc docID
    (fields ++ [special TimeFieldName (FDate time) true true true;
                special "_source" (FSource (source_of doc)) true false false;
                special "_index" (FIndex index) true false false;
                special "_all" FAll false false false]) (i64 time)).
End document.

(** ** Mappings that grow *)

Definition known_types : list string := ["text"; "numeric"; "keyword"; "bool"; "date"; "time"].
Definition known (p : Property) : Prop := Type_ (options p) ∈ known_types.
Definition stringy (p : Property) : Prop := Type_ (options p) ∈ ["text"; "keyword"].

Section proofs.
Context {S : Type} {lib : GoLib} {denv : DocEnv S}.
#[local] Abbreviation R := (root S).
(** The option that gives every text a keyword is off. *)
Context (no_keyword : TextKeyword = false).
#[local] Set Default Proof Using "no_keyword".

(** The properties of new fields have no sub-fields. *)
Definition new_property (p : Property) : Prop := known p ∧ Fields p = Some ∅.

(** Nothing but a property for one key that had none. *)
Definition grown (key : string) (r r' : R) : Prop :=
  r' = r ∨ live r !! key = None ∧ ∃ p, new_property p ∧
    r' = MkRoot (<[key := p]> (live r)) (DocTimeMin r) (DocTimeMax r) (outside r).

Lemma SetProperty_grown key p r x r' : live r !! key = None → new_property p →
  SetProperty key p r = (x, r') → x = Ok () ∧ grown key r r'.
Proof using Type. intros Hk Hp [= <- <-]. split; [done|right; eauto]. Qed.

Lemma guess_grown key v r x r' : live r !! key = None → guess key v r = (x, r') → x = Ok () ∧ grown key r r'.
Proof.
  intros Hk. assert (∀ s, map_string key s r = (x, r') → x = Ok () ∧ grown key r r') as Hs.
  { intros s. unfold map_string. rewrite no_keyword.
    destruct (isDateProperty s); apply SetProperty_grown; try done; (split; [apply list_elem_of_In; simpl; auto 10|done]). }
  unfold guess. destruct v as [| | | | |a [|[] ?]|]; try (by apply Hs);
    try (apply SetProperty_grown; [done|split; [apply list_elem_of_In; simpl; auto 10|done]]);
    intros [= <- <-]; split; try done; by left.
Qed.

Lemma checkProperty_grown key v r x r' : checkProperty key v r = (x, r') →
  is_ok x = true ∧ grown key r r'.
Proof.
  unfold checkProperty, GetProperty, gets, mbind, M_bind. rewrite no_keyword. simpl.
  destruct (live r !! key) as [p|] eqn:E; [intros [= <- <-]; split; [done|by left]|].
  destruct (guess key v r) as [y r1] eqn:Eg. apply guess_grown in Eg as [-> ?]; [|done].
  by intros [= <- <-].
Qed.

(** ** Conversion *)

(** The values that come out of a conversion. *)
Definition fits (p : Property) (w : value) : Prop := ∃ key v, plain v = true ∧ convert p key v = Ok w.

Lemma fits_inv p w : fits p w → known p →
  (stringy p ∧ ∃ s, w = VStr s) ∨
  (Type_ (options p) = "numeric" ∧ ∃ f, w = VNum f) ∨
  (Type_ (options p) = "bool" ∧ ∃ b, w = VBool b) ∨
  ((Type_ (options p) = "date" ∨ Type_ (options p) = "time") ∧ plain w = true ∧ is_container w = false ∧
     ∃ t, ParseTime w (Format (options p)) (TimeZone (options p)) = Ok t).
Proof using Type.
  intros (key & v & Hp & Hc) Hk. unfold convert in Hc. unfold stringy.
  destruct (decide (Type_ (options p) = "text")) as [->|H1].
  { left. destruct (ToString v); simplify_eq. split; [by left|eauto]. }
  destruct (decide (Type_ (options p) = "numeric")) as [->|H2].
  { right; left. destruct (ToFloat64 v); simplify_eq. eauto. }
  destruct (decide (Type_ (options p) = "keyword")) as [->|H3].
  { left. destruct (ToString v); simplify_eq. split; [by right; left|eauto]. }
  destruct (decide (Type_ (options p) = "bool")) as [->|H4].
  { right; right; left. destruct (ToBool v); simplify_eq. eauto. }
  destruct (decide (Type_ (options p) = "date" ∨ Type_ (options p) = "time")) as [H5|H5].
  - right; right; right. destruct (ParseTime v _ _) eqn:E; simplify_eq. split_and!; [done|done| |eauto].
    by destruct w.
  - exfalso. unfold known, known_types in Hk. rewrite !elem_of_cons in Hk. clear no_keyword.
    destruct Hk as [?|[?|[?|[?|[?|[?|Hk]]]]]]; [tauto..|]. by apply elem_of_nil in Hk.
Qed.

Lemma fits_scalar p w h : fits p w → known p → reload w = w ∧ refresh h w = w.
Proof using Type.
  intros Hf Hk. destruct (fits_inv p w Hf Hk) as [[_ [s ->]]|[[_ [f ->]]|[[_ [b ->]]|(_ & ? & ? & _)]]]; try done.
  split; [by apply reload_plain|by destruct w].
Qed.

(** The type, format and time zone are all that counts. *)
Definition same_type (p q : Property) : Prop :=
  Type_ (options p) = Type_ (options q) ∧ Format (options p) = Format (options q) ∧
  TimeZone (options p) = TimeZone (options q).

Lemma fits_same p q w : same_type p q → fits p w → fits q w.
Proof using Type.
  intros (H1 & H2 & H3) (k & v & Hv & Hc). exists k, v. split; [done|].
  unfold convert in *. by rewrite <- H1, <- H2, <- H3.
Qed.

(** ** One pass over a flat document *)

Lemma check_elements_spec p key a i pre vs h x h' : Datatypes.length pre = i →
  Forall (λ v, plain v = true) vs → check_elements p key a i vs (pre ++ vs) h = (x, h') →
  (∀ b, b ≠ a → h' !! b = h !! b) ∧
  (x = Ok () → ∀ d, elements_of h a d = pre ++ vs → Forall (fits p) pre → Forall (fits p) (elements_of h' a d)).
Proof.
  intros <-. revert pre h. induction vs as [|v vs IH]; intros pre h Hp H; simpl in H.
  { simplify_eq. split; [done|]. intros _ d -> Hf. by rewrite app_nil_r. }
  apply Forall_cons in Hp as [Hv Hp].
  destruct (convert p key v) as [w|e] eqn:Hc; [|by simplify_eq].
  replace (Datatypes.S (Datatypes.length pre)) with (Datatypes.length (pre ++ [w])) in H by (rewrite length_app; simpl; lia).
  assert (<[Datatypes.length pre := w]> (pre ++ v :: vs) = (pre ++ [w]) ++ vs) as E.
  { rewrite insert_app_r_alt, Nat.sub_diag by lia. by rewrite <- app_assoc. }
  rewrite E in H. destruct (IH _ _ Hp H) as [H1 H2]. split.
  - intros b Hb. rewrite H1 by done. by rewrite lookup_insert_ne.
  - intros Hx d _ Hf. apply (H2 Hx).
    + unfold elements_of. by rewrite lookup_insert_eq.
    + apply Forall_app. split; [done|]. apply Forall_singleton. by exists key, v.
Qed.

Definition indexed (m : Mappings) (key : string) (p : Property) : Prop :=
  m !! key = Some p ∧ Indexed (options p) = true.

(** What has become of the field [key] with value [v]. *)
Definition checked (m : Mappings) (key : string) (v : value) (flat : vdoc) (h : heap) : Prop :=
  (∃ p w, indexed m key p ∧ tag v = None ∧ fits p w ∧ lookup_doc key flat = Some w) ∨
  (lookup_doc key flat = Some v ∧
   (is_nil v = true ∨ (∀ p, ¬ indexed m key p) ∨
    ∃ p a vs, indexed m key p ∧ v = VSlice a vs ∧ Forall (fits p) (elements_of h a vs))).

(** What a pass over fields leaves alone: other keys and slices, times and the rest. *)
Record pass (keys : list string) (slices : list (list nat)) (r r' : R) (flat flat' : vdoc) (h h' : heap) : Prop := {
  pass_live : live r ⊆ live r';
  pass_new : ∀ k, k ∉ keys → live r' !! k = live r !! k;
  pass_known : ∀ k p, live r !! k = None → live r' !! k = Some p → new_property p;
  pass_times : DocTimeMin r' = DocTimeMin r ∧ DocTimeMax r' = DocTimeMax r ∧ outside r' = outside r;
  pass_flat : ∀ k, k ∉ keys → lookup_doc k flat' = lookup_doc k flat;
  pass_keys : NoDup flat.*1 → NoDup flat'.*1;
  pass_heap : ∀ a, a ∉ slices → h' !! a = h !! a;
}.

Lemma pass_refl keys sl r flat h : pass keys sl r r flat flat h h.
Proof. split; try done. intros k p H1 H2. congruence. Qed.

Lemma pass_trans k1 k2 s1 s2 r r1 r2 f f1 f2 h h1 h2 : pass k1 s1 r r1 f f1 h h1 →
  pass k2 s2 r1 r2 f1 f2 h1 h2 → pass (k1 ++ k2) (s1 ++ s2) r r2 f f2 h h2.
Proof.
  intros [A1 A2 A3 A4 A5 A6 A7] [B1 B2 B3 B4 B5 B6 B7]. split.
  - by etrans.
  - intros k Hk. rewrite not_elem_of_app in Hk. rewrite B2, A2 by apply Hk. done.
  - intros k p Hn Hp. destruct (live r1 !! k) as [q|] eqn:E; [|by eapply B3].
    assert (live r2 !! k = Some q) as E2 by (by eapply lookup_weaken). simplify_eq. by eapply A3.
  - destruct A4 as (<- & <- & <-). done.
  - intros k Hk. rewrite not_elem_of_app in Hk. rewrite B5, A5 by apply Hk. done.
  - auto.
  - intros a Ha. rewrite not_elem_of_app in Ha. rewrite B7, A7 by apply Ha. done.
Qed.

Lemma grown_pass key sl r r' flat h : grown key r r' → pass [key] sl r r' flat flat h h.
Proof.
  intros [->|(Hn & p & Hp & ->)]; [apply pass_refl|]. split; simpl; try done.
  - by apply insert_subseteq.
  - intros k Hk. rewrite lookup_insert_ne; [done|]. set_solver.
  - intros k q Hk. destruct (decide (k = key)) as [->|]; [rewrite lookup_insert_eq|rewrite lookup_insert_ne by done];
      congruence.
Qed.

Lemma check_entry_spec key v r flat h x r' flat' h' : plain v = true → lookup_doc key flat = Some v →
  (∀ a, tag v = Some a → h !! a = None) →
  check_entry key v (r, (flat, h)) = (x, (r', (flat', h'))) →
  pass [key] (option_list (tag v)) r r' flat flat' h h' ∧
  (is_ok x = true → checked (live r') key v flat' h').
Proof.
  intros Hp Hl Hh H. unfold check_entry in H. destruct (is_nil v) eqn:Hn.
  { unfold mret, M_ret in H. simplify_eq. split; [apply pass_refl|]. intros _. right. auto. }
  apply bind_inv in H as [(e & H & ->)|(u & [r1 s1] & H1 & H)].
  { apply on_fst_run in H as [[? _]%checkProperty_grown _]. done. }
  apply on_fst_run in H1 as [[_ Hg]%checkProperty_grown ->]. apply (grown_pass key (option_list (tag v)) r r1 flat h) in Hg.
  apply bind_inv in H as [(e & [=] & _)|(o & s & [= <- <-] & H)].
  destruct (live r1 !! key) as [p|] eqn:Hk.
  2: { unfold mret, M_ret in H. simplify_eq. split; [done|]. intros _. right. split; [done|].
       right; left. intros p [? _]. congruence. }
  destruct (Indexed (options p)) eqn:Hi; cbn [negb] in H.
  2: { unfold mret, M_ret in H. simplify_eq. split; [done|]. intros _. right. split; [done|].
       right; left. intros q [? ?]. congruence. }
  assert (tag v = None → (match convert p key v with
    | Err e => throw (InvalidDocumentError e)
    | Ok w => on_snd (modify (λ x : vdoc * heap, (set_doc key w x.1, x.2)));; mret u
    end) (r1, (flat, h)) = (x, (r', (flat', h'))) → pass [key] (option_list (tag v)) r r' flat flat' h h' ∧
    (is_ok x = true → checked (live r') key v flat' h')) as Hscalar.
  { clear H. intros Hc H. destruct (convert p key v) as [w|e] eqn:Hw; [|unfold throw in H; by simplify_eq].
    apply bind_inv in H as [(e & [=] & _)|([] & s & [= <-] & H)]. unfold mret, M_ret in H. simplify_eq/=. split.
    - destruct Hg as [A1 A2 A3 A4 A5 A6 A7]. split; try done.
      + intros k Hk'. rewrite lookup_set_ne; [done|]. set_solver.
      + apply set_doc_NoDup.
    - intros _. left. exists p, w. split_and!; [done|done| |apply lookup_set_eq]. by exists key, v. }
  destruct v as [| | | | |a vs|o]; try (by apply Hscalar). clear Hscalar. simpl in H.
  specialize (Hh a eq_refl). unfold elements_of in H at 1 2. rewrite Hh in H. simpl in H.
  destruct (check_elements p key a 0 vs vs h) as [y h1] eqn:E.
  apply (check_elements_spec p key a 0 [] vs) in E as [Hother Hok]; [|done|by apply forallb_Forall].
  injection H as <- <- <- <-. split.
  - destruct Hg as [A1 A2 A3 A4 A5 A6 A7]. split; try done. intros b Hb. apply Hother. set_solver.
  - intros Hx. destruct y as [[]|]; [|done]. right. split; [done|]. right; right. exists p, a, vs.
    split_and!; [done|done|]. apply Hok; [done| |done]. unfold elements_of. by rewrite Hh.
Qed.

Lemma check_loop_spec todo u r flat h x r' flat' h' : flat_ok todo →
  (∀ k v, (k, v) ∈ todo → lookup_doc k flat = Some v) → (∀ a, a ∈ tags todo → h !! a = None) →
  check_loop todo u (r, (flat, h)) = (x, (r', (flat', h'))) →
  pass todo.*1 (tags todo) r r' flat flat' h h' ∧
  (is_ok x = true → ∀ k v, (k, v) ∈ todo → checked (live r') k v flat' h').
Proof.
  revert u r flat h. induction todo as [|[k v] todo IH]; intros u r flat h Hf Hl Hh H; simpl in H.
  { unfold mret, M_ret in H. simplify_eq. split; [apply pass_refl|]. by intros _ ? ? ?%elem_of_nil. }
  destruct Hf as [Hk Ht Hp]. rewrite fmap_cons in Hk. apply NoDup_cons in Hk as [Hk Hks].
  apply Forall_cons in Hp as [Hv Hp]. cbn [fst snd] in Hv, Hk.
  assert (tags ((k, v) :: todo) = option_list (tag v) ++ tags todo) as Etags by (unfold tags; simpl; by destruct (tag v)).
  rewrite Etags in Ht, Hh |- *. apply NoDup_app in Ht as (_ & Hdis & Ht). rewrite fmap_cons.
  change (pass (((k, v).1) :: todo.*1)) with (pass ([k] ++ todo.*1)).
  assert (∀ a, tag v = Some a → h !! a = None) as Ha by (intros a E; apply Hh; rewrite E; set_solver).
  assert (lookup_doc k flat = Some v) as Hkv by (apply Hl; by left).
  apply bind_inv in H as [(e & H & ->)|(b & [r1 [f1 h1]] & H1 & H)].
  { apply check_entry_spec in H as [H _]; [|done..]. split; [|done].
    destruct H as [A1 A2 A3 A4 A5 A6 A7]. split; try done; intros; first [apply A2|apply A5|apply A7]; set_solver. }
  apply check_entry_spec in H1 as [Hp1 Hc1]; [|done..].
  apply IH in H as [Hp2 Hc2].
  2: { by split. }
  2: { intros k' v' Hin. rewrite (pass_flat _ _ _ _ _ _ _ _ Hp1); [apply Hl; by right|].
       intros ->%list_elem_of_singleton. apply Hk, list_elem_of_fmap. by exists (k, v'). }
  2: { intros a Hin. rewrite (pass_heap _ _ _ _ _ _ _ _ Hp1); [apply Hh; set_solver|]. set_solver. }
  split; [by eapply pass_trans|]. intros Hx k' v' [[= -> ->]|Hin]%elem_of_cons; [|by apply Hc2].
  destruct Hp2 as [A1 A2 A3 A4 A5 A6 A7]. unfold checked, indexed in *. rewrite A2, A5 by done.
  destruct (Hc1 eq_refl) as [?|[? [?|[?|(p & a & vs & Hi & -> & Hf)]]]]; [auto..|].
  right. split; [done|]. right; right. exists p, a, vs. split_and!; [apply Hi|apply Hi|done|].
  unfold elements_of in *. rewrite A7; [done|]. set_solver.
Qed.

(** ** Building *)

Lemma as_long_as (m : Mappings) key p : m !! key = Some p → (String.length key ≤ longest m)%nat.
Proof.
  intros Hk. apply max_list_elem_of_le, list_elem_of_fmap. exists (key, p). split; [done|].
  by apply elem_of_map_to_list.
Qed.

(** Sub-fields are texts of texts, and they are mapped. *)
Definition sub_ok (m : Mappings) : Prop := ∀ key p s, m !! key = Some p → s ∈ subfields m key →
  stringy p ∧ ∃ q, m !! (key +:+ "." +:+ s) = Some q ∧ stringy q.

Lemma build_subfields_ok (f : string → res (list field)) key subs :
  (∀ s, s ∈ subs → is_ok (f (key +:+ "." +:+ s)) = true) → is_ok (build_subfields f key subs) = true.
Proof.
  induction subs as [|s subs IH]; intros Hf; [done|]. cbn [build_subfields]. unfold mbind, res_bind.
  assert (is_ok (f (key +:+ "." +:+ s)) = true) as H1 by (apply Hf; by left).
  destruct (f (key +:+ "." +:+ s)); [|done].
  assert (is_ok (build_subfields f key subs) = true) as H2 by (apply IH; intros; apply Hf; by right).
  by destruct (build_subfields f key subs).
Qed.

Lemma build_one_string m key p s : m !! key = Some p → stringy p →
  ∃ f, build_one m key (VStr s) = Ok f.
Proof.
  intros Hk Hs. unfold build_one. rewrite Hk. simpl. unfold stringy in Hs.
  apply elem_of_cons in Hs as [->|[->|[]%elem_of_nil]%elem_of_cons]; simpl; eauto.
Qed.

Lemma buildField_string m : sub_ok m → ∀ fuel key p s, m !! key = Some p → stringy p →
  (longest m < fuel + String.length key)%nat → is_ok (buildField fuel m (VStr s) key) = true.
Proof.
  intros Hsub. induction fuel as [|fuel IH]; intros key p s Hk Hp Hfuel.
  { apply as_long_as in Hk. lia. }
  cbn [buildField]. destruct (build_one_string m key p s Hk Hp) as [f ->]. unfold mbind, res_bind.
  destruct f as [f|]; [|done].
  assert (is_ok (build_subfields (buildField fuel m (VStr s)) key (subfields m key)) = true) as Hs.
  { apply build_subfields_ok. intros sub Hin. destruct (Hsub _ _ _ Hk Hin) as (_ & q & Hq & Hq').
    eapply IH; [done|done|]. rewrite !length_append_s. simpl. lia. }
  by destruct (build_subfields _ _ _).
Qed.

Lemma build_one_fuel m key v : build_one m key v ≠ Err OutOfFuel.
Proof.
  unfold build_one, as_string, as_float, as_bool, assertion, field_error, mbind, res_bind.
  repeat case_match; simplify_eq; try done; by intros [=].
Qed.

(** The recursion over the sub-fields ends, whatever the mappings are. *)
Lemma buildField_fuel m v : ∀ fuel key, (0 < fuel)%nat → (longest m + 1 < fuel + String.length key)%nat →
  buildField fuel m v key ≠ Err OutOfFuel.
Proof.
  induction fuel as [|fuel IH]; intros key Hpos Hfuel; [lia|]. cbn [buildField]. unfold mbind, res_bind.
  pose proof (build_one_fuel m key v) as H1. destruct (build_one m key v) as [[f|]|e]; [|done|congruence].
  assert (build_subfields (buildField fuel m v) key (subfields m key) ≠ Err OutOfFuel) as Hs.
  { assert (∀ s, s ∈ subfields m key → buildField fuel m v (key +:+ "." +:+ s) ≠ Err OutOfFuel) as Hc.
    { intros s Hs. unfold subfields in Hs. destruct (m !! key) as [p|] eqn:Hk.
      - apply as_long_as in Hk. apply IH; [lia|]. rewrite !length_append_s. simpl. lia.
      - simpl in Hs. rewrite map_to_list_empty in Hs. by apply elem_of_nil in Hs. }
    induction (subfields m key) as [|s subs IHs]; [done|]. cbn [build_subfields]. unfold mbind, res_bind.
    pose proof (Hc s ltac:(by left)) as H2. destruct (buildField fuel m v (key +:+ "." +:+ s)); [|congruence].
    assert (build_subfields (buildField fuel m v) key subs ≠ Err OutOfFuel) as H3
      by (apply IHs; intros; apply Hc; by right).
    destruct (build_subfields _ key subs); [done|congruence]. }
  destruct (build_subfields _ _ _); [done|congruence].
Qed.

Lemma build_field_ok m key p w : sub_ok m → m !! key = Some p → known p → fits p w →
  is_ok (build_field m key w) = true.
Proof.
  intros Hsub Hk Hkn Hf. unfold build_field. destruct (fits_inv p w Hf Hkn) as [[Hs [s ->]]|Hrest].
  { eapply buildField_string; [done..|lia]. }
  assert (∃ f, build_one m key w = Ok (Some f)) as [f Hone].
  { unfold build_one. rewrite Hk. change (default zero_Property (Some p)) with p. cbv zeta.
    destruct Hrest as [[-> [f ->]]|[[-> [b ->]]|(Ht & _ & _ & t & Ht')]]; simpl; [eauto..|].
    rewrite !decide_False by (destruct Ht as [-> | ->]; done). rewrite decide_True by done.
    rewrite Ht'. eauto. }
  cbn [buildField]. rewrite Hone. unfold mbind, res_bind.
  assert (subfields m key = []) as ->; [|done].
  destruct (subfields m key) as [|sub subs] eqn:E; [done|]. exfalso.
  destruct (Hsub key p sub Hk) as [Hs _]; [rewrite E; by left|]. unfold stringy in Hs.
  apply elem_of_cons in Hs as [Hs|[Hs|[]%elem_of_nil]%elem_of_cons]; rewrite Hs in Hrest;
    destruct Hrest as [[? _]|[[? _]|([?|?] & _)]]; done.
Qed.

(** ** The mappings of an index *)

(** Types the code knows, sub-fields of texts only, and the identifier is a keyword. *)
Record mappings_ok (m : Mappings) : Prop := {
  mp_known : map_Forall (λ _ p, known p) m;
  mp_sub : sub_ok m;
  mp_id : ∃ p, indexed m "_id" p ∧ same_type p (NewProperty "keyword");
}.

(** No field that is indexed gets another type. *)
Definition keeps_types (m m' : Mappings) : Prop := ∀ k p', k ≠ TimeFieldName →
  indexed m' k p' → ∃ p, indexed m k p ∧ same_type p p'.

Lemma pass_mappings keys sl r r' f f' h h' : pass keys sl r r' f f' h h' →
  mappings_ok (live r) → mappings_ok (live r').
Proof.
  intros [A1 A2 A3 _ _ _ _] [B1 B2 B3].
  assert (∀ k p, live r' !! k = Some p → live r !! k = Some p ∨ new_property p) as Hnew.
  { intros k p Hk. destruct (live r !! k) as [q|] eqn:E; [|right; by eapply A3].
    left. rewrite <- Hk. symmetry. by eapply lookup_weaken. }
  split.
  - intros k p [Hk|[? _]]%Hnew; [by eapply B1|done].
  - intros k p s Hk Hs. unfold subfields in Hs. rewrite Hk in Hs. apply Hnew in Hk as [Hk|[_ Hf]].
    + destruct (B2 k p s Hk) as (? & q & Hq & ?); [unfold subfields; by rewrite Hk|].
      split; [done|]. exists q. split; [by eapply lookup_weaken|done].
    + simpl in Hs. rewrite Hf in Hs. simpl in Hs. rewrite map_to_list_empty in Hs. by apply elem_of_nil in Hs.
  - destruct B3 as (p & [Hp ?] & ?). exists p. split; [|done]. split; [by eapply lookup_weaken|done].
Qed.

Lemma completed_lookup m k : (complete_mappings m ∪ m) !! k =
  if decide (k = TimeFieldName) then Some (aggregated (default (NewProperty "date") (only_text <$> m !! TimeFieldName)))
  else if decide (k = "_id") then Some (NewProperty "keyword") else only_text <$> m !! k.
Proof.
  rewrite lookup_union. unfold complete_mappings.
  destruct (decide (k = TimeFieldName)) as [->|H1].
  { rewrite lookup_insert_eq, lookup_insert_ne, lookup_fmap by done.
    by destruct (m !! TimeFieldName). }
  rewrite lookup_insert_ne by done. destruct (decide (k = "_id")) as [->|H2].
  { rewrite lookup_insert_eq. by destruct (m !! "_id"). }
  rewrite lookup_insert_ne, lookup_fmap by done. by destruct (m !! k).
Qed.

Lemma only_text_same p : same_type p (only_text p) ∧ Fields (only_text p) = Fields p ∧
  Indexed (options (only_text p)) = Indexed (options p).
Proof. unfold only_text. case_decide; [done|]. by destruct p as [[]]. Qed.

Lemma complete_ok m : mappings_ok m → mappings_ok (complete_mappings m ∪ m) ∧
  keeps_types m (complete_mappings m ∪ m) ∧
  ∀ k p, m !! k = Some p → ∃ p', (complete_mappings m ∪ m) !! k = Some p' ∧ same_type p p'.
Proof.
  intros [B1 B2 (pid & [Hid Hidx] & Hids)].
  assert (∀ k p', (complete_mappings m ∪ m) !! k = Some p' →
    (∃ p, m !! k = Some p ∧ same_type p p' ∧ (Fields p' = Fields p ∨ Fields p' = Some ∅) ∧
      (k ≠ TimeFieldName → Indexed (options p') = Indexed (options p))) ∨
    k = TimeFieldName ∧ known p' ∧ Fields p' = Some ∅) as Hlk.
  { intros k p'. rewrite completed_lookup. destruct (decide (k = TimeFieldName)) as [->|H1].
    { destruct (m !! TimeFieldName) as [p|] eqn:E; simpl; intros [= <-].
      - left. exists p. destruct (only_text_same p) as (Hs & Hf & _). by split_and!; [|done|left|].
      - right. split_and!; [done|apply list_elem_of_In; simpl; auto 10|done]. }
    destruct (decide (k = "_id")) as [->|H2].
    { intros [= <-]. left. exists pid. split_and!; [done|done|by right|done]. }
    intros (p & Hp & ->)%fmap_Some. left. exists p. destruct (only_text_same p) as (Hs & Hf & Hi).
    split_and!; [done|done|by left|done]. }
  assert (∀ k p, m !! k = Some p → ∃ p', (complete_mappings m ∪ m) !! k = Some p' ∧ same_type p p') as Hback.
  { intros k p Hp. destruct ((complete_mappings m ∪ m) !! k) as [p'|] eqn:E.
    - exists p'. split; [done|]. destruct (Hlk k p' E) as [(q & ? & ? & _)|(-> & _)]; [by simplify_eq|].
      rewrite completed_lookup, decide_True, Hp in E by done. simplify_eq/=. by destruct (only_text_same p) as (? & _).
    - rewrite lookup_union_None in E. destruct E. congruence. }
  assert (∀ p p', same_type p p' → stringy p → stringy p') as Hstr by (unfold stringy; by intros p p' (-> & _)).
  split; [split|split; [|done]].
  - intros k p' Hk. destruct (Hlk k p' Hk) as [(p & Hp & (E & _) & _)|(_ & ? & _)]; [|done].
    specialize (B1 k p Hp). unfold known in *. simpl in B1. by rewrite <- E.
  - intros k p' s Hk Hs. unfold subfields in Hs. rewrite Hk in Hs. simpl in Hs.
    assert (Fields p' = Some ∅ → False) as Hne.
    { intros E. rewrite E in Hs. simpl in Hs. rewrite map_to_list_empty in Hs. by apply elem_of_nil in Hs. }
    destruct (Hlk k p' Hk) as [(p & Hp & Hsame & [Hf|Hf] & _)|(_ & _ & Hf)]; [|done..].
    destruct (B2 k p s Hp) as (Hps & q & Hq & Hqs); [unfold subfields; by rewrite Hp; simpl; rewrite <- Hf|].
    split; [by eapply Hstr|]. destruct (Hback _ _ Hq) as (q' & Hq' & ?). exists q'. split; [done|by eapply Hstr].
  - exists (NewProperty "keyword"). split; [|done]. split; [|done]. rewrite completed_lookup. done.
  - intros k p' Hne [Hk Hi]. destruct (Hlk k p' Hk) as [(p & Hp & Hs & _ & Hix)|(-> & _)]; [|done].
    exists p. split; [|done]. split; [done|]. by rewrite <- Hix.
Qed.

(** ** CheckDocument *)

Lemma CheckDocument_inv docID update shard r doc y r' doc' :
  CheckDocument docID update shard (r, doc) = (y, (r', doc')) →
  ∃ x r1 flat h, check_loop (Flatten doc "") false (r, (Flatten doc "", ∅)) = (x, (r1, (flat, h))) ∧
    DocTimeMin r' = DocTimeMin r1 ∧ DocTimeMax r' = DocTimeMax r1 ∧
    (live r' = live r1 ∨ live r' = complete_mappings (live r1) ∪ live r1) ∧
    (∀ e, y = Ok e → is_ok x = true ∧ ∃ time,
       Marshal (prepare docID update shard time doc' (refresh_doc h flat)) = Ok e).
Proof using Type.
  unfold CheckDocument. destruct (check_loop _ _ _) as [x [r1 [flat h]]] eqn:E.
  intros H. exists x, r1, flat, h. split; [done|]. clear E. destruct x as [up|e]; [|simplify_eq; split_and!; [done|done|by left|done]].
  match type of H with context [(?c ≫= ?f) (r1, doc)] => destruct ((c ≫= f) (r1, doc)) as [z [r2 d2]] eqn:E end.
  injection H as -> -> Hd. subst doc'.
  assert (∀ A (c : M S A) (s : R) x s', on_outside c s = (x, s') → live s' = live s ∧
    DocTimeMin s' = DocTimeMin s ∧ DocTimeMax s' = DocTimeMax s) as Hout.
  { intros A c s z s'. unfold on_outside, zoom. destruct (c (outside s)). by intros [= <- <-]. }
  assert (∀ z r1 d1 r2 d2, CheckDocument_ docID update shard flat h (r1, d1) = (z, (r2, d2)) →
    (live r2 = live r1 ∧ DocTimeMin r2 = DocTimeMin r1 ∧ DocTimeMax r2 = DocTimeMax r1) ∧
    ∀ e, z = Ok e → ∃ time,
      Marshal (prepare docID update shard time (refresh_doc h d2) (refresh_doc h flat)) = Ok e) as Hend.
  { clear - Hout. intros z r1 d1 r2 d2 H. unfold CheckDocument_ in H.
    assert (∀ z r1 d1 r2 d2, take_timestamp flat (r1, d1) = (z, (r2, d2)) →
      live r2 = live r1 ∧ DocTimeMin r2 = DocTimeMin r1 ∧ DocTimeMax r2 = DocTimeMax r1) as Htake.
    { clear - Hout. intros z r1 d1 r2 d2 H. unfold take_timestamp in H.
      apply bind_inv in H as [(e & [H _]%on_fst_run & _)|(now & [r0 d0] & [H0 ->]%on_fst_run & H)]; [by eapply Hout|].
      apply Hout in H0. destruct (lookup_doc TimeFieldName flat); [|unfold mret, M_ret in H; by simplify_eq].
      apply bind_inv in H as [(e & [=] & _)|([] & s & [= <-] & H)].
      apply bind_inv in H as [(e & [=] & _)|(o & s & [= <- <-] & H)]. cbv zeta in H. simpl in H.
      destruct (ParseTime _ _ _); unfold mret, M_ret, throw in H; by simplify_eq. }
    apply bind_inv in H as [(e & H & ->)|(time & [r0 d0] & H0 & H)].
    { split; [by eapply Htake|done]. }
    apply Htake in H0. apply bind_inv in H as [(e & [=] & _)|(s & s' & [= <- <-] & H)].
    unfold lift in H. injection H as <- <- <-. split; [done|]. intros e He. exists time. exact He. }
  apply bind_inv in E as [(e & H & ->)|([] & [r3 d3] & H3 & H)].
  - destruct up; [|done]. apply on_fst_run in H as [H ->].
    apply bind_inv in H as [(e' & [=] & _)|([] & s & [= <-] & H)].
    apply bind_inv in H as [(e' & [=] & _)|(s' & s0 & [= <- <-] & H)]. apply Hout in H as (-> & -> & ->).
    split_and!; [done|done|by right|done].
  - apply Hend in H as [(L1 & L2 & L3) He]. rewrite L1, L2, L3. destruct up.
    + apply on_fst_run in H3 as [H3 ->].
      apply bind_inv in H3 as [(e' & [=] & _)|([] & s & [= <-] & H3)].
      apply bind_inv in H3 as [(e' & [=] & _)|(s' & s0 & [= <- <-] & H3)]. apply Hout in H3 as (-> & -> & ->).
      split_and!; [done|done|by right|]. intros e' Hy. split; [done|]. by apply He.
    + unfold mret, M_ret in H3. simplify_eq. split_and!; [done|done|by left|]. intros e' Hy. split; [done|]. by apply He.
Qed.

(** *** The entry of the log *)

Lemma prepare_keys docID update shard time doc flat : NoDup flat.*1 →
  NoDup (prepare docID update shard time doc flat).*1.
Proof using Type. intros Hn. unfold prepare. by repeat apply set_doc_NoDup. Qed.

Lemma prepare_lookup docID update shard time doc flat k :
  lookup_doc k (prepare docID update shard time doc flat) =
    if decide (k = SourceFieldName) then Some (VMap doc)
    else if decide (k = TimeFieldName) then Some (VInt (i64 time))
    else if decide (k = ShardFieldName) then Some (VInt shard)
    else if decide (k = IDFieldName) then Some (VStr docID)
    else if decide (k = ActionFieldName) then Some (VStr (if update then ActionTypeUpdate else ActionTypeInsert))
    else lookup_doc k flat.
Proof using Type.
  unfold prepare. repeat (case_decide; [subst; rewrite ?lookup_set_ne by done; by rewrite lookup_set_eq|
    rewrite lookup_set_ne by done]). done.
Qed.

Lemma Marshal_lookup o e k : Marshal o = Ok e → lookup_doc k e = reload <$> lookup_doc k o.
Proof using Type. unfold Marshal. destruct (has_json _); [|done]. intros [= <-]. apply lookup_doc_fmap. Qed.

Lemma Marshal_keys o e : Marshal o = Ok e → e.*1 = o.*1.
Proof using Type. unfold Marshal. destruct (has_json _); [|done]. intros [= <-]. by rewrite <- list_fmap_compose. Qed.

Lemma entry_field docID update shard time doc flat h e k w : NoDup flat.*1 →
  Marshal (prepare docID update shard time doc (refresh_doc h flat)) = Ok e → (k, w) ∈ without_action e →
  k = TimeFieldName ∨ k = SourceFieldName ∨ ∃ v, lookup_doc k flat = Some v ∧ w = reload (refresh h v).
Proof.
  intros Hn He Hin. unfold without_action, delete_doc in Hin.
  apply list_elem_of_filter in Hin as [H1 [H2 [H3 Hin]%list_elem_of_filter]%list_elem_of_filter]. simpl in *.
  assert (NoDup e.*1) as Hne.
  { rewrite (Marshal_keys _ _ He). apply prepare_keys. unfold refresh_doc. by rewrite <- list_fmap_compose. }
  apply In_lookup_doc in Hin; [|done]. rewrite (Marshal_lookup _ _ _ He), prepare_lookup in Hin.
  destruct (decide (k = SourceFieldName)); [auto|]. destruct (decide (k = TimeFieldName)); [auto|].
  rewrite !decide_False in Hin by done. right; right. unfold refresh_doc in Hin. rewrite lookup_doc_fmap in Hin.
  destruct (lookup_doc k flat) as [v|]; [|done]. exists v. split; [done|]. by simplify_eq/=.
Qed.

(** *** Building it *)

Lemma build_elements_ok m key p vs : sub_ok m → m !! key = Some p → known p → Forall (fits p) vs →
  is_ok (build_elements m key vs) = true.
Proof.
  intros Hs Hk Hp. induction 1 as [|v vs Hv _ IH]; [done|]. cbn [build_elements]. unfold mbind, res_bind.
  pose proof (build_field_ok m key p v Hs Hk Hp Hv) as Hb.
  destruct (build_field m key v); [|done]. by destruct (build_elements m key vs).
Qed.

Lemma reload_elements p vs h : known p → Forall (fits p) vs →
  map reload vs = vs ∧ map (refresh h) vs = vs.
Proof.
  intros Hk. induction 1 as [|v vs Hv _ [IH1 IH2]]; [done|].
  destruct (fits_scalar p v h Hv Hk) as [E1 E2]. simpl. by rewrite E1, E2, IH1, IH2.
Qed.

Lemma build_entry_ok m m' k v flat h w : mappings_ok m' → keeps_types m m' → checked m k v flat h →
  lookup_doc k flat = Some w → is_ok (build_entry m' k (reload (refresh h w))) = true.
Proof.
  intros [Hkn Hsub _] Hkeep Hc Hl. unfold build_entry.
  destruct (is_nil _) eqn:Hnil; [done|]. destruct (bool_decide (k = TimeFieldName)) eqn:Ht; [done|].
  destruct (bool_decide (k = SourceFieldName)); [done|]. simpl. apply bool_decide_eq_false in Ht.
  destruct (m' !! k) as [p'|] eqn:Hk; [|done]. destruct (Indexed (options p')) eqn:Hi; [|done]. simpl.
  destruct (Hkeep k p' Ht (conj Hk Hi)) as (p & Hp & Hsame). assert (known p') as Hkp by (by eapply Hkn).
  destruct Hc as [(q & w' & Hq & Htag & Hf & Hw)|[Hv [Hn|[Hno|(q & a & vs & Hq & -> & Hf)]]]].
  - rewrite Hw in Hl. injection Hl as ->. assert (q = p) as -> by (destruct Hp, Hq; congruence).
    eapply fits_same in Hf as Hf'; [|done]. destruct (fits_scalar p' w h Hf' Hkp) as [E1 E2]. rewrite E2, E1.
    assert (is_ok (build_field m' k w) = true) as Hb by (by eapply build_field_ok).
    destruct (fits_inv p' w Hf' Hkp) as [[_ [s ->]]|[[_ [f ->]]|[[_ [b ->]]|(_ & _ & Hcon & _)]]]; try done.
    by destruct w.
  - rewrite Hv in Hl. injection Hl as <-. by destruct v.
  - by destruct (Hno p).
  - rewrite Hv in Hl. injection Hl as <-. assert (q = p) as -> by (destruct Hp, Hq; congruence).
    assert (Forall (fits p') (elements_of h a vs)) as Hf'.
    { eapply Forall_impl; [exact Hf|]. intros x. by apply fits_same. }
    unfold elements_of in Hf'. simpl. destruct (h !! a) as [ws|] eqn:Ha; simpl in *.
    + destruct (reload_elements p' ws h Hkp Hf') as [-> _]. by eapply build_elements_ok.
    + destruct (reload_elements p' vs h Hkp Hf') as [E1 E2]. rewrite E2, E1. by eapply build_elements_ok.
Qed.

Lemma build_entries_ok m doc : (∀ k w, (k, w) ∈ doc → is_ok (build_entry m k w) = true) →
  is_ok (build_entries m doc) = true.
Proof.
  induction doc as [|[k w] doc IH]; intros Hd; [done|]. cbn [build_entries]. unfold mbind, res_bind.
  assert (is_ok (build_entry m k w) = true) as H1 by (apply Hd; by left).
  destruct (build_entry m k w); [|done].
  assert (is_ok (build_entries m doc) = true) as H2 by (apply IH; intros; apply Hd; by right).
  by destruct (build_entries m doc).
Qed.

(** What a pass over a decoded document does, and the checks that follow. *)
Lemma CheckDocument_spec docID update shard r o y r' doc' : mappings_ok (live r) →
  CheckDocument docID update shard (r, of_obj o) = (y, (r', doc')) →
  mappings_ok (live r') ∧ (∀ k p, live r !! k = Some p → ∃ p', live r' !! k = Some p' ∧ same_type p p') ∧
  DocTimeMin r' = DocTimeMin r ∧ DocTimeMax r' = DocTimeMax r ∧
  ∀ e, y = Ok e → ∃ time flat h m, NoDup flat.*1 ∧ keeps_types m (live r') ∧
    Marshal (prepare docID update shard time doc' (refresh_doc h flat)) = Ok e ∧
    ∀ k w, lookup_doc k flat = Some w → ∃ v, checked m k v flat h.
Proof.
  intros Hm H. apply CheckDocument_inv in H as (x & r1 & flat & h & Hl & T1 & T2 & Hlive & He).
  pose proof (Flatten_ok o) as Hf. apply check_loop_spec in Hl as [Hp Hc]; [|done|..].
  2: { intros k v. apply In_lookup_doc, Hf. }
  2: { intros a _. apply lookup_empty. }
  pose proof (pass_mappings _ _ _ _ _ _ _ _ Hp Hm) as Hm1. destruct (complete_ok _ Hm1) as (Hm2 & Hk2 & Hb2).
  destruct Hp as [A1 A2 A3 (A4 & A5 & A6) A7 A8 A9].
  assert (mappings_ok (live r') ∧ keeps_types (live r1) (live r') ∧
    ∀ k p, live r1 !! k = Some p → ∃ p', live r' !! k = Some p' ∧ same_type p p') as (Hm' & Hk' & Hb').
  { destruct Hlive as [-> | ->]; [|done]. split_and!; [done| |].
    - intros k p' _ Hi. by exists p'.
    - intros k p Hp. by exists p. }
  split; [done|]. split; [intros k p Hk; apply Hb'; by eapply lookup_weaken|]. split; [congruence|]. split; [congruence|].
  intros e Hy. destruct (He e Hy) as [Hx [time Ht]]. exists time, flat, h, (live r1).
  split_and!; [apply A8, Hf|done|done|]. intros k w Hw.
  destruct (decide (k ∈ (Flatten (of_obj o) "").*1)) as [Hin|Hin].
  - apply list_elem_of_fmap in Hin as ([k' v] & -> & Hin). exists v. by apply (Hc Hx).
  - rewrite A7 in Hw by done. destruct Hin. apply list_elem_of_fmap. exists (k, w).
    split; [done|]. by apply lookup_doc_In.
Qed.

(** [CheckDocument_mappings]: checking a document, accepted or not, keeps the mappings
    well-formed (known types, sub-fields that are texts of texts, the identifier a
    keyword) and changes the type of no field. *)
Theorem CheckDocument_mappings docID update shard r o y r' doc' : mappings_ok (live r) →
  CheckDocument docID update shard (r, of_obj o) = (y, (r', doc')) →
  mappings_ok (live r') ∧ ∀ k p, live r !! k = Some p → ∃ p', live r' !! k = Some p' ∧ same_type p p'.
Proof. intros Hm H. by apply CheckDocument_spec in H as (? & ? & _). Qed.

(** C17: without the keyword mapping of texts, and for well-formed mappings (types the
    code knows, an identifier that is a keyword, and sub-fields only of texts and
    keywords, that are texts or keywords themselves): a document that [CheckDocument]
    accepts can be built from its entry, as long as the mappings are those it left: no
    assertion panics, nothing fails. The entry says what to do with it, and the source
    is the document as the check left it. *)
Theorem accepted_builds docID update shard r o e r' doc' index r1 : mappings_ok (live r) →
  (∀ s, is_ok (Now s).1 = true) →
  CheckDocument docID update shard (r, of_obj o) = (Ok e, (r', doc')) → live r1 = live r' →
  lookup_doc ActionFieldName e = Some (VStr (if update then ActionTypeUpdate else ActionTypeInsert)) ∧
  lookup_doc IDFieldName e = Some (VStr docID) ∧
  lookup_doc ShardFieldName e = Some (VNum (float_of_Z shard)) ∧
  ∃ b r2, BuildBlugeDocumentFromJSON index docID e r1 = (Ok b, r2) ∧ b_id b = docID ∧
    special "_source" (FSource (reload (VMap doc'))) true false false ∈ b_fields b.
Proof.
  intros Hm Hnow H Hlive. apply CheckDocument_spec in H as (Hm' & _ & _ & _ & He); [|done].
  destruct (He e eq_refl) as (time & flat & h & m & Hn & Hk & Hmar & Hc).
  assert (∀ k, lookup_doc k e = reload <$> lookup_doc k (prepare docID update shard time doc' (refresh_doc h flat)))
    as Hlk by (intros k; by apply Marshal_lookup).
  split_and!; [rewrite Hlk, prepare_lookup; by destruct update|by rewrite Hlk, prepare_lookup..|].
  unfold BuildBlugeDocumentFromJSON.
  assert (is_ok (build_entries (live r1) (without_action e)) = true) as Hb.
  { apply build_entries_ok. intros k w Hin. rewrite Hlive.
    destruct (entry_field _ _ _ _ _ _ _ _ _ _ Hn Hmar Hin) as [->|[->|(v & Hv & ->)]].
    - unfold build_entry. by rewrite orb_true_r.
    - unfold build_entry. by rewrite orb_true_r.
    - destruct (Hc k v Hv) as [v0 Hv0]. by eapply build_entry_ok. }
  assert (∀ k, k ≠ ActionFieldName → k ≠ IDFieldName → k ≠ ShardFieldName →
    lookup_doc k (without_action e) = lookup_doc k e) as Hwo.
  { intros k ???. unfold without_action. by rewrite !lookup_delete_ne by done. }
  unfold mbind, M_bind, get_state, lift. simpl.
  destruct (build_entries (live r1) (without_action e)) as [fields|]; [|done].
  unfold on_outside, zoom. specialize (Hnow (outside r1)). destruct (Now (outside r1)) as [[now|] s]; [|done].
  rewrite (Hwo TimeFieldName), Hlk, prepare_lookup by done. simpl.
  eexists _, _. split; [reflexivity|]. split; [done|]. simpl. unfold source_of.
  rewrite lookup_delete_ne, (Hwo SourceFieldName), Hlk, prepare_lookup by done. simpl.
  apply elem_of_app. right. by right; left.
Qed.
End proofs.

(** ** Examples *)

Module DocumentDemo.
(** Decimal numbers and NaN; no time zones, and every text with a layout is a date. *)
#[export] Instance demo_lib : GoLib := {|
  ParseFloat s := if decide (s = "NaN") then Ok S754_nan else Ok (float_of_text s);
  FormatFloat f := pretty (int64_of f);
  Sprint v := type_name v;
  Location := ();
  UTC := ();
  Local_ := ();
  LoadZone _ := Err (errors_New "unknown time zone");
  ParseInLocation _ _ _ := Ok 0;
|}.
(** The clock. *)
#[export] Instance demo_env : DocEnv Z := {|
  Now := λ t, (Ok t, t + 1); StoreIndex _ := mret (); Analyzer_ _ := None; TextKeyword := false |}.

Definition keyword_id : Mappings := {["_id" := NewProperty "keyword"]}.
Definition with_fields (fs : list (string * string)) : Mappings :=
  foldr (λ f m, <[f.1 := NewProperty f.2]> m) keyword_id fs.
Definition root_of (m : Mappings) : root Z := MkRoot m 0 0 1000.

Lemma with_fields_ok fs : Forall (λ f, f.1 ≠ "_id" ∧ f.2 ∈ known_types) fs → mappings_ok (with_fields fs).
Proof.
  intros Hf. assert (∀ k p, with_fields fs !! k = Some p → Fields p = Some ∅ ∧ known p) as Hp.
  { induction Hf as [|[f t] fs [_ Ht] _ IH]; simpl; intros k p.
    - unfold keyword_id. intros [<- <-]%lookup_singleton_Some. split; [done|]. apply list_elem_of_In; simpl; auto 10.
    - intros [[<- <-]|[_ ?]]%lookup_insert_Some; [done|by apply (IH k)]. }
  split.
  - intros k p Hk. by apply (Hp k).
  - intros k p s Hk Hs. unfold subfields in Hs. rewrite Hk in Hs. simpl in Hs.
    destruct (Hp k p Hk) as [E _]. rewrite E in Hs. simpl in Hs. rewrite map_to_list_empty in Hs.
    by apply elem_of_nil in Hs.
  - exists (NewProperty "keyword"). split; [|done]. split; [|done]. clear Hp.
    induction Hf as [|[f t] fs [Hne _] _ IH]; simpl; [done|]. by rewrite lookup_insert_ne.
Qed.

Definition typed : Mappings := with_fields [("title", "text"); ("count", "numeric")].
Definition article : obj :=
  [("title", JNum "12"); ("count", JArr [JStr "3"; JBool true]); ("tag", JObj [("name", JStr "x")])].

Lemma typed_ok : mappings_ok (live (root_of typed)).
Proof. apply with_fields_ok. repeat (constructor; [split; [done|apply list_elem_of_In; simpl; auto 10]|]); constructor. Qed.

Lemma demo_no_keyword : TextKeyword (DocEnv := demo_env) = false.
Proof. done. Qed.

Lemma CheckDocument_mappings_witness : ∃ y r' doc',
  CheckDocument "1" true (-2) (root_of typed, of_obj article) = (y, (r', doc')) ∧ mappings_ok (live r') ∧
  is_ok y = true ∧ is_Some (live r' !! "tag.name").
Proof.
  destruct (CheckDocument "1" true (-2) (root_of typed, of_obj article)) as [y [r' doc']] eqn:E.
  exists y, r', doc'. split; [done|].
  destruct (CheckDocument_mappings demo_no_keyword "1" true (-2) _ _ _ _ _ typed_ok E) as [H _]. split; [done|].
  split.
  - change y with (y, (r', doc')).1. rewrite <- E. by vm_compute.
  - change r' with (y, (r', doc')).2.1. rewrite <- E. vm_compute. eauto.
Defined.

Lemma accepted_builds_witness : ∃ e r' doc' b r2,
  CheckDocument "1" true (-2) (root_of typed, of_obj article) = (Ok e, (r', doc')) ∧
  BuildBlugeDocumentFromJSON "logs" "1" e r' = (Ok b, r2) ∧ b_id b = "1".
Proof.
  destruct (CheckDocument "1" true (-2) (root_of typed, of_obj article)) as [y [r' doc']] eqn:E.
  assert (is_ok y = true) as Hy by (change y with (y, (r', doc')).1; rewrite <- E; by vm_compute).
  destruct y as [e|]; [|done].
  destruct (accepted_builds demo_no_keyword "1" true (-2) _ _ _ _ _ "logs" r' typed_ok (λ s, eq_refl) E eq_refl)
    as (_ & _ & _ & b & r2 & Hb & Hid & _).
  exists e, r', doc', b, r2. by split_and!.
Defined.

(** [nan_not_invalid]: a number that is the text NaN passes the checks of a numeric
    field and then has no JSON; the error is not an [InvalidDocumentError], so a
    consumer tries the document for ever. *)
Theorem nan_not_invalid : ∃ e,
  (CheckDocument "1" true (-2) (root_of typed, of_obj [("count", JStr "NaN")])).1 = Err e ∧
  is_invalid e = false.
Proof. eexists. by vm_compute. Qed.

(** [later_mapping_panics]: a slice that begins with null gets no mapping and keeps
    its values; when another document maps the field before the entry is built, building it
    panics. *)
Theorem later_mapping_panics :
  let '(y, (r1, _)) := CheckDocument "1" true (-2) (root_of typed, of_obj [("a", JArr [JNull; JStr "x"])]) in
  let '(z, (r2, _)) := CheckDocument "2" true (-2) (r1, of_obj [("a", JStr "x")]) in
  match y with
  | Ok e => is_ok z = true ∧ (BuildBlugeDocumentFromJSON "logs" "1" e r2).1 = assertion "string"
  | Err _ => False
  end.
Proof. by vm_compute. Qed.

(** [subfield_panics]: a document with a field whose sub-field has another type than
    text or keyword is accepted, and building it panics. *)
Theorem subfield_panics :
  let m := <["t.n" := NewProperty "integer"]>
             (<["t" := AddField (NewProperty "text") "n" (NewProperty "integer")]> typed) in
  let '(y, (r1, _)) := CheckDocument "1" true (-2) (root_of m, of_obj [("t", JStr "x")]) in
  match y with
  | Ok e => match (BuildBlugeDocumentFromJSON "logs" "1" e r1).1 with Err e => is_panic e = true | Ok _ => False end
  | Err _ => False
  end.
Proof. by vm_compute. Qed.

(** The same with the option that gives every text a keyword. *)
Definition keyword_env : DocEnv Z := {|
  Now := λ t, (Ok t, t + 1); StoreIndex _ := mret (); Analyzer_ _ := None; TextKeyword := true |}.

(** [keyword_changes_type]: with that option a text field without a keyword becomes
    numeric when a document has a number in it. *)
Theorem keyword_changes_type :
  let '(y, (r1, _)) := CheckDocument (denv := keyword_env) "1" true (-2)
                         (root_of typed, of_obj [("title", JNum "12")]) in
  is_ok y = true ∧ (λ p, Type_ (options p)) <$> live r1 !! "title" = Some "numeric".
Proof. by vm_compute. Qed.
End DocumentDemo.
