(* ===== verification/Shard.v ===== *)
(** The write-ahead log of a shard (pkg/core/index_shards_wal.go, index_shards.go,
    [CreateDocument], [UpdateDocument] and [DeleteDocument] of index_document.go,
    pkg/wal/wal.go).

    Documents are entries of the log. [ConsumeWAL] reads the entries that are not
    committed yet, merges what they do to a document, and writes the result to the second-layer
    shards, between two records of the redo log: what is being written, and what was.
    [Rollback] undoes, when the shard is opened, what has the first record without the second.

    The redo log is used through the interface of Redo.v; the log of entries and the
    search engine are not part of the repository. *)
From S2P Require Import Prelude Strings State Wire Mappings Index Redo Values Document.
#[local] Open Scope Z_scope.

Definition MaxBatchSize : Z := 10240.
Definition RedoActionRead : Z := 1.
Definition RedoActionWrite : Z := 2.
Definition ShardIDNeedLatest : Z := -1.
Definition ShardIDNeedUpdate : Z := -2.

Definition is_not_found (e : error) : bool := bool_decide (err_text e = "not found").
Definition ErrorIDNotFound : error := sentinel "errors.ErrorIDNotFound" "id not found".

(** What a batch does to a document. *)
Inductive op :=
| BInsert (d : bdoc)
| BUpdate (d : bdoc)
| BDelete (id : string).

(** The log of entries: an entry that is not a JSON object is [None]. *)
Class WAL (WT : Type) := {
  wal_Open : M WT ();
  wal_Sync : M WT ();
  LastIndex : M WT Z;
  wal_Read : Z → M WT (option vdoc);
  wal_Write : vdoc → M WT ();
  TruncateFront : Z → M WT ();
}.

(** The search engine: the index of a second-layer shard is named by its number.
    [Count] and [DirectorySize] are those of a reader and of the directory. *)
Class Engine (ET : Type) := {
  OpenWriter : Z → M ET ();
  Batch_ : Z → list op → M ET ();
  DirectorySize : Z → M ET Z;
  Count : Z → M ET Z;
  HasDocument : Z → string → M ET bool;
}.

(** [config.Global], and the orders in which Go visits the maps of documents. *)
Record walDocument := MkWalDocument { docID : string; actions : list string; data : vdoc }.
Abbreviation walMergeDocs := (gmap Z (gmap string walDocument)).

Class ShardEnv := {
  BatchSize : Z;
  MaxSize : Z;
  range_shards : walMergeDocs → list (Z * gmap string walDocument);
  range_docs : gmap string walDocument → list (string * walDocument);
  range_shards_perm m : range_shards m ≡ₚ map_to_list m;
  range_docs_perm m : range_docs m ≡ₚ map_to_list m;
}.

(** ** Merging *)

(** The type assertions of [AddDocument]. *)
Definition AddDocument (docs : walMergeDocs) (d : vdoc) : res walMergeDocs :=
  action ← match lookup_doc ActionFieldName d with Some v => as_string v | None => assertion "string" end;
  id ← match lookup_doc IDFieldName d with Some v => as_string v | None => assertion "string" end;
  shardID ← match lookup_doc ShardFieldName d with Some v => as_float v | None => assertion "float64" end;
  let shardID := int64_of shardID in
  let shard := default ∅ (docs !! shardID) in
  let doc := default (MkWalDocument id [] []) (shard !! id) in
  Ok (<[shardID := <[id := MkWalDocument (docID doc) (actions doc ++ [action]) d]> shard]> docs).

Definition MaxShardLen (docs : walMergeDocs) : Z :=
  map_fold (λ _ m n, Z.max (Z.of_nat (size m)) n) 0 docs.

Definition Reset (docs : walMergeDocs) : walMergeDocs := (λ _, ∅) <$> docs.

(** What the actions of a document come to: what is done in its shard, and whether it is
    deleted from the others. *)
Definition merge_actions (acts : list string) (b : bdoc) : res (option op * bool) :=
  let last := List.last acts "" in
  match acts with
  | [] => Err (Panic "index out of range")
  | first :: rest =>
      if decide (first = ActionTypeInsert) then
        Ok (if decide (rest = []) then Some (BInsert b)
            else if decide (last = ActionTypeInsert ∨ last = ActionTypeUpdate) then Some (BInsert b) else None,
            false)
      else if decide (first = ActionTypeUpdate ∨ first = ActionTypeDelete) then
        if decide (last = ActionTypeDelete) then Ok (Some (BDelete (b_id b)), true)
        else if decide (last = ActionTypeInsert ∨ last = ActionTypeUpdate) then Ok (Some (BUpdate b), true)
        else Ok (None, false)
      else Err (errors_New ("walMergeDocs: invalid action type [" +:+ first +:+ "]"))
  end.

(** ** Redo records *)

Definition Sprintf_range (minID maxID : Z) : bytes :=
  String.list_ascii_of_string (FormatUint minID +:+ ":" +:+ FormatUint maxID).

Definition parseRedoLog (v : bytes) : res (Z * Z) :=
  match Split (String.string_of_list_ascii v) ":" with
  | [a; b] => minID ← ParseUint a; maxID ← ParseUint b; Ok (minID, maxID)
  | _ => Err (errors_New ("invalid redo log: [" +:+ String.string_of_list_ascii v +:+ "]"))
  end.

(** ** A shard *)

(** [meta.IndexSecondShardStat] and the counts of the first layer. *)
Record stats := MkStats { DocNum : Z; StorageSize : Z; TimeMin : Z; TimeMax : Z }.

(** [wal] tells whether [s.wal] is open, [listed] whether the shard is in the list of
    what is consumed; [writers] are the second-layer shards whose writer is open. The
    logs are there when they are closed, too. *)
Record IndexShard (RT WT ET ST : Type) := MkShard {
  open : bool; wal : bool; listed : bool;
  redolog : RT; entries : WT;
  writers : gset Z; seconds : list stats; totals : Z * Z;
  rt : root ST; engine : ET }.
Arguments MkShard {_ _ _ _}. Arguments open {_ _ _ _}. Arguments wal {_ _ _ _}. Arguments listed {_ _ _ _}.
Arguments redolog {_ _ _ _}. Arguments entries {_ _ _ _}. Arguments writers {_ _ _ _}.
Arguments seconds {_ _ _ _}. Arguments totals {_ _ _ _}. Arguments rt {_ _ _ _}. Arguments engine {_ _ _ _}.

Section shard.
Context {RT WT ET ST : Type} `{!RedoLog RT, !WAL WT, !Engine ET} {lib : GoLib} {denv : DocEnv ST} {senv : ShardEnv}.
(** The name of the index. *)
Context (index : string).
#[local] Abbreviation W := (IndexShard RT WT ET ST).

Definition on_redo {A} : M RT A → M W A := zoom redolog (λ x s,
  MkShard (open s) (wal s) (listed s) x (entries s) (writers s) (seconds s) (totals s) (rt s) (engine s)).
Definition on_wal {A} : M WT A → M W A := zoom entries (λ x s,
  MkShard (open s) (wal s) (listed s) (redolog s) x (writers s) (seconds s) (totals s) (rt s) (engine s)).
Definition on_root {A} : M (root ST) A → M W A := zoom rt (λ x s,
  MkShard (open s) (wal s) (listed s) (redolog s) (entries s) (writers s) (seconds s) (totals s) x (engine s)).
Definition on_engine {A} : M ET A → M W A := zoom engine (λ x s,
  MkShard (open s) (wal s) (listed s) (redolog s) (entries s) (writers s) (seconds s) (totals s) (rt s) x).
Definition set_open (o w l : bool) : M W () := modify (λ s,
  MkShard o w l (redolog s) (entries s) (writers s) (seconds s) (totals s) (rt s) (engine s)).
Definition add_writer (id : Z) : M W () := modify (λ s,
  MkShard (open s) (wal s) (listed s) (redolog s) (entries s) ({[id]} ∪ writers s) (seconds s) (totals s)
    (rt s) (engine s)).
Definition set_seconds (f : list stats → list stats) : M W () := modify (λ s,
  MkShard (open s) (wal s) (listed s) (redolog s) (entries s) (writers s) (f (seconds s)) (totals s)
    (rt s) (engine s)).
Definition set_totals (t : Z * Z) : M W () := modify (λ s,
  MkShard (open s) (wal s) (listed s) (redolog s) (entries s) (writers s) (seconds s) t (rt s) (engine s)).

Definition GetShardNum (s : W) : Z := Z.of_nat (length (seconds s)).
Definition GetLatestShardID (s : W) : Z := GetShardNum s - 1.

(** *** Redo records *)

Definition writeRedoLog (option minID maxID : Z) : M W () := on_redo (redo_Write option (Sprintf_range minID maxID)).
Definition readRedoLog (option : Z) : M W (Z * Z) :=
  s ← get_state;
  v ← lift (redo_Read (redolog s) option);
  lift (parseRedoLog v).

(** *** Writers *)

Definition ErrSecondShard : error := zerr "runtime_exception" "second shard not found".

Definition openWriter (id : Z) : M W () :=
  s ← get_state;
  if decide (id ∈ writers s) then mret () else on_engine (OpenWriter id);; add_writer id.

Section writer.
(** [OpenWAL], which uses writers itself, for a shard that is marked as open. *)
Context (openWAL : M W ()).

Definition GetWriter (id : Z) : M W Z :=
  s ← get_state;
  if (GetShardNum s <=? id) || (id <? 0) then throw ErrSecondShard
  else if decide (id ∈ writers s) then mret id
  else openWriter id;; openWAL;; mret id.

Fixpoint GetWriters_ (ids : list Z) : M W (list Z) :=
  match ids with
  | [] => mret []
  | i :: ids => w ← GetWriter i; ws ← GetWriters_ ids; mret (w :: ws)
  end.
Definition GetWriters : M W (list Z) := s ← get_state; GetWriters_ (seqZ 0 (GetShardNum s)).

(** *** Writing merged documents *)

(** What is done to the shard itself, and the documents to delete from the others. *)
Fixpoint plan (docs : list (string * walDocument)) (batch : list op) (other : list string) : M W (list op * list string) :=
  match docs with
  | [] => mret (batch, other)
  | (_, d) :: docs =>
      b ← on_root (BuildBlugeDocumentFromJSON index (docID d) (data d));
      x ← lift (merge_actions (actions d) b);
      let '(o, del) := (x : option op * bool) in
      plan docs (batch ++ option_list o) (other ++ if del then [b_id b] else [])
  end.

Fixpoint delete_from (ws : list Z) (other : list string) : M W () :=
  match ws with
  | [] => mret ()
  | w :: ws => on_engine (Batch_ w (BDelete <$> other));; delete_from ws other
  end.

Definition no_writer : error := Panic "index out of range [-1]".

Definition WriteToShard (docs : walMergeDocs) (shardID : Z) : M W () :=
  match docs !! shardID with
  | None => mret ()
  | Some ds =>
      s ← get_state;
      let shardID := if decide (shardID = ShardIDNeedLatest) then GetLatestShardID s else shardID in
      x ← if 0 <=? shardID then w ← GetWriter shardID; mret (w, [])
          else ws ← GetWriters;
               match last ws with
               | Some w => mret (w, removelast ws)
               | None => throw no_writer
               end;
      p ← plan (range_docs ds) [] [];
      on_engine (Batch_ x.1 p.1);;
      delete_from x.2 p.2
  end.

(** What a rollback deletes: the documents that were inserted. *)
Fixpoint plan_rollback (docs : list (string * walDocument)) (batch : list op) : M W (list op) :=
  match docs with
  | [] => mret batch
  | (_, d) :: docs =>
      b ← on_root (BuildBlugeDocumentFromJSON index (docID d) (data d));
      match actions d with
      | [] => throw (Panic "index out of range")
      | first :: _ =>
          plan_rollback docs
            (if decide (first = ActionTypeInsert) then batch ++ [BDelete (b_id b)] else batch)
      end
  end.

Definition WriteToShardRollback (docs : walMergeDocs) (shardID : Z) : M W () :=
  match docs !! shardID with
  | None => mret ()
  | Some ds =>
      if 0 <=? shardID then
        w ← GetWriter shardID;
        batch ← plan_rollback (range_docs ds) [];
        on_engine (Batch_ w batch)
      else mret ()
  end.

Fixpoint WriteTo_loop (ids : list Z) (docs : walMergeDocs) (rollback : bool) : M W () :=
  match ids with
  | [] => mret ()
  | id :: ids =>
      (if rollback then WriteToShardRollback docs id else WriteToShard docs id);;
      WriteTo_loop ids docs rollback
  end.

(** Afterwards the documents are [Reset]. *)
Definition WriteTo (docs : walMergeDocs) (rollback : bool) : M W walMergeDocs :=
  WriteTo_loop (range_shards docs).*1 docs rollback;; mret (Reset docs).
End writer.

(** *** Opening *)

(** The entries of a range, merged; an entry is decoded into a map. *)
Definition ErrEntry : error := errors_New "json: cannot unmarshal".
Definition read_document (id : Z) (docs : walMergeDocs) : M W walMergeDocs :=
  e ← on_wal (wal_Read id);
  d ← lift (of_option ErrEntry e);
  lift (AddDocument docs d).

Fixpoint read_range (n : nat) (minID : Z) (docs : walMergeDocs) : M W walMergeDocs :=
  match n with
  | O => mret docs
  | S n => docs ← read_document minID docs; read_range n (minID + 1) docs
  end.

Definition Rollback : M W () :=
  r ← try (readRedoLog RedoActionRead);
  match r with
  | Err e => if is_not_found e then mret () else throw e
  | Ok (readMin, readMax) =>
      w ← try (readRedoLog RedoActionWrite);
      match (match w with Err e => if is_not_found e then Ok (0, 0) else Err e | Ok x => Ok x end) with
      | Err e => throw e
      | Ok (writeMin, writeMax) =>
          if (readMin =? writeMin) && (readMax =? writeMax) then mret ()
          else
            docs ← read_range (Z.to_nat (readMax - readMin + 1)) readMin ∅;
            WriteTo (mret ()) docs true;;
            ignore (on_wal (TruncateFront (u64 (readMin - 1))))
      end
  end.

Definition cause (reason : string) (e : error) : error :=
  wrap ("type: runtime_exception, reason: " +:+ reason +:+ ", cause: ") e "".

(** A failure to open leaves [s.wal] nil; a failed rollback leaves the shard open. *)
Definition OpenWAL : M W () :=
  s ← get_state;
  if open s then mret ()
  else if wal s then mret ()
  else
    r ← try (on_wal wal_Open);
    match r with
    | Err e => throw (cause "open wal error" e)
    | Ok _ =>
        r ← try (on_redo redo_Open);
        match r with
        | Err e => throw (cause "open wal redo error" e)
        | Ok _ =>
            set_open true true (listed s);;
            Rollback;;
            set_open true true true
        end
    end.

(** *** Second-layer shards *)

Definition or_zero (r : res Z) : Z := match r with Ok n => n | Err _ => 0 end.
Definition with_stats (i : Z) (f : stats → stats) : M W () :=
  set_seconds (λ l, if i <? 0 then l else alter f (Z.to_nat i) l).

(** [Index.UpdateStatsBySecondShard]: only of an open writer, and no zero is stored. *)
Definition UpdateStatsBySecondShard (i : Z) : M W () :=
  s ← get_state;
  if decide (i ∈ writers s) then
    size ← try (on_engine (DirectorySize i));
    n ← try (on_engine (Count i));
    with_stats i (λ t, MkStats (if 0 <? or_zero n then or_zero n else DocNum t)
                               (if 0 <? or_zero size then or_zero size else StorageSize t) (TimeMin t) (TimeMax t))
  else mret ().

Fixpoint update_all (ids : list Z) : M W () :=
  match ids with [] => mret () | i :: ids => UpdateStatsBySecondShard i;; update_all ids end.

Definition sum_u64 (f : stats → Z) (l : list stats) : Z := foldl (λ n t, u64 (n + f t)) 0 l.

Definition times_to_latest : M W () :=
  s ← get_state;
  with_stats (GetLatestShardID s)
    (λ t, MkStats (DocNum t) (StorageSize t) (DocTimeMin (rt s)) (DocTimeMax (rt s))).

(** [Index.UpdateMetadataByShard]. *)
Definition UpdateMetadataByShard : M W () :=
  s ← get_state;
  update_all (seqZ 0 (GetShardNum s));;
  s ← get_state;
  let n := sum_u64 DocNum (seconds s) in
  let size := sum_u64 StorageSize (seconds s) in
  (if (0 <? n) && (0 <? size) then set_totals (n, size) else mret ());;
  times_to_latest.

Definition NewShard : M W () :=
  s ← get_state;
  UpdateStatsBySecondShard (GetLatestShardID s);;
  times_to_latest;;
  on_root (modify (λ r, MkRoot (live r) 0 0 (outside r)));;
  set_seconds (λ l, l ++ [MkStats 0 0 0 0]);;
  on_root (r ← get_state; on_outside (StoreIndex (live r)));;
  s ← get_state;
  openWriter (GetLatestShardID s).

Definition CheckShards : M W () :=
  s ← get_state;
  w ← GetWriter OpenWAL (GetLatestShardID s);
  size ← on_engine (DirectorySize w);
  if MaxSize <? size then NewShard else mret ().

(** *** ConsumeWAL *)

(** Errors are logged and end the round with [b]; a panic ends the process. *)
Definition or_return {A} (b : bool) (c : M W A) (k : A → M W bool) : M W bool :=
  r ← try c;
  match r with
  | Ok a => k a
  | Err e => if is_panic e then throw e else mret b
  end.

(** Merged documents are written between two records. *)
Definition flush (docs : walMergeDocs) (startID minID : Z) : M W walMergeDocs :=
  writeRedoLog RedoActionRead startID minID;;
  docs ← WriteTo OpenWAL docs false;
  writeRedoLog RedoActionWrite startID minID;;
  mret docs.

(** The loop over [n] entries: the next start and what is not written yet. *)
Fixpoint consume_loop (n : nat) (minID startID : Z) (docs : walMergeDocs) : M W (Z * walMergeDocs) :=
  match n with
  | O => mret (startID, docs)
  | S n =>
      docs ← read_document minID docs;
      if BatchSize <=? MaxShardLen docs then
        docs ← flush docs startID minID;
        consume_loop n (minID + 1) (minID + 1) docs
      else consume_loop n (minID + 1) startID docs
  end.

Definition nil_wal : error := Panic "invalid memory address or nil pointer dereference".

Definition ConsumeWAL : M W bool :=
  s ← get_state;
  if negb (wal s) then throw nil_wal else
  ignore (on_wal wal_Sync);;
  or_return false (on_wal LastIndex) (λ maxID,
  or_return false
    (r ← try (readRedoLog RedoActionWrite);
     match r with
     | Ok (_, minID) => mret minID
     | Err e => if is_not_found e then mret 0 else throw e
     end) (λ minID,
  if minID =? maxID then mret false else
  let maxID := if MaxBatchSize <? u64 (maxID - minID) then u64 (minID + MaxBatchSize) else maxID in
  or_return false
    (x ← consume_loop (Z.to_nat (maxID - minID)) (minID + 1) (minID + 1) ∅;
     let '(startID, docs) := (x : Z * walMergeDocs) in
     if 0 <? MaxShardLen docs then flush docs startID maxID;; mret () else mret ()) (λ _,
  or_return true (on_wal (TruncateFront maxID)) (λ _,
  or_return true CheckShards (λ _,
  UpdateMetadataByShard;; mret true))))).

(** *** Documents *)

(** The first of the shards, from the latest on, whose search finds the document. The
    code searches them at the same time; errors count as not found. *)
Fixpoint find_in (ws : list Z) (docID : string) : M W Z :=
  match ws with
  | [] => throw ErrorIDNotFound
  | w :: ws =>
      r ← try (on_engine (HasDocument w docID));
      match r with Ok true => mret w | _ => find_in ws docID end
  end.
Definition FindShardByDocID (docID : string) : M W Z :=
  ws ← GetWriters OpenWAL; find_in (rev ws) docID.

(** [CheckDocument] changes the document that it is given. *)
Definition check_and_write (docID : string) (update : bool) (shard : Z) : M (W * vdoc) () := λ '(s, doc),
  let '(r, (x, doc)) := CheckDocument docID update shard (rt s, doc) in
  let s := MkShard (open s) (wal s) (listed s) (redolog s) (entries s) (writers s) (seconds s) (totals s) x (engine s) in
  match r with
  | Err e => (Err e, (s, doc))
  | Ok entry => let '(r, s) := on_wal (wal_Write entry) s in (r, (s, doc))
  end.

Definition CreateDocument (docID : string) (update : bool) : M (W * vdoc) () :=
  on_fst OpenWAL;;
  check_and_write docID update (if update then ShardIDNeedUpdate else ShardIDNeedLatest).

Definition UpdateDocument (docID : string) (insert : bool) : M (W * vdoc) () :=
  on_fst OpenWAL;;
  r ← try (on_fst (FindShardByDocID docID));
  match r with
  | Ok shard => check_and_write docID true shard
  | Err e => if insert && bool_decide (e = ErrorIDNotFound) then check_and_write docID false (-1) else throw e
  end.

Definition DeleteDocument (docID : string) : M W () :=
  OpenWAL;;
  shard ← FindShardByDocID docID;
  d ← lift (Marshal [(IDFieldName, VStr docID); (ActionFieldName, VStr ActionTypeDelete); (ShardFieldName, VInt shard)]);
  on_wal (wal_Write d).

(** The process ends: what was in memory is gone, the files stay. Times and counts, the
    mappings and what else there is in memory are as they were stored last, which is [st]
    and [r]; [NewShard] stores the number of second-layer shards. *)
Definition crash (st : list stats) (r : root ST) (s : W) : W :=
  MkShard false false false (redolog s) (entries s) ∅ st (totals s) r (engine s).
End shard.

(** ** Redo records *)

Lemma pretty_go_length k : ∀ (x : N) s, (x < 10 ^ N.of_nat k)%N →
  (String.length (pretty_N_go x s) ≤ k + String.length s)%nat.
Proof.
  induction k as [|k IH]; intros x s Hx.
  - assert (x = 0%N) as -> by (simpl in Hx; lia). by rewrite pretty_N_go_0.
  - destruct (decide (x = 0%N)) as [->|Hne]; [rewrite pretty_N_go_0; lia|].
    rewrite pretty_N_go_step by lia. specialize (IH (x `div` 10)%N (String (pretty_N_char (x `mod` 10)) s)).
    rewrite Nat2N.inj_succ, N.pow_succ_r' in Hx. simpl in IH. etrans; [apply IH|lia].
    apply N.Div0.div_lt_upper_bound; lia.
Qed.

Lemma FormatUint_length n : is_u64 n → (String.length (FormatUint n) ≤ 20)%nat.
Proof.
  intros [H0 Hn]. unfold FormatUint, pretty, pretty_N. case_decide; [simpl; lia|].
  etrans; [apply (pretty_go_length 20)|simpl; lia].
  change (10 ^ N.of_nat 20)%N with 100000000000000000000%N. lia.
Qed.

(** [redo_record_fits]: the record of a range always fits into a value of the redo log,
    and reading it back gives the range. *)
Theorem redo_record_fits minID maxID : is_u64 minID → is_u64 maxID →
  (length (Sprintf_range minID maxID) ≤ ValueFixedLength)%nat ∧
  parseRedoLog (Sprintf_range minID maxID) = Ok (minID, maxID).
Proof.
  intros Hmin Hmax. unfold Sprintf_range, parseRedoLog. split.
  - pose proof (FormatUint_length _ Hmin). pose proof (FormatUint_length _ Hmax).
    assert (∀ s, length (String.list_ascii_of_string s) = String.length s) as Hl
      by (induction s as [|c s IH]; simpl; congruence).
    rewrite Hl, !length_append_s. simpl. unfold ValueFixedLength. lia.
  - rewrite String.string_of_list_ascii_of_string. change (":" +:+ FormatUint maxID) with (String ":" (FormatUint maxID)).
    rewrite Split_append by (by apply FormatUint_no_byte).
    rewrite Split_none by (by apply FormatUint_no_byte). unfold mbind, res_bind.
    by rewrite !ParseUint_FormatUint.
Qed.

Lemma redo_record_fits_witness : is_u64 1 ∧ is_u64 18446744073709551615 ∧
  length (Sprintf_range 1 18446744073709551615) = 22%nat ∧
  parseRedoLog (Sprintf_range 1 18446744073709551615) = Ok (1, 18446744073709551615).
Proof.
  assert (is_u64 1) as H1 by done. assert (is_u64 18446744073709551615) as H2 by done.
  split_and!; [done|done|by vm_compute|]. exact (proj2 (redo_record_fits _ _ H1 H2)).
Defined.
