(* ===== verification/Replay.v ===== *)
(** What the log of a shard (Shard.v) guarantees: documents that are written with
    [update], which is how the stream applier writes all of them, end up as their last
    entry says, once, through every failure and restart. *)
From S2P Require Import Prelude Strings State Wire Mappings Index Redo Values Document Shard.
#[local] Open Scope Z_scope.

(** ** What is relied on *)

(** [history]: all entries there ever were; [front]: the number of the first one that is
    still in the log. Only [TruncateFront] moves it, and not past the entry it is given;
    what is before it cannot be read. *)
Class WALLaws (WT : Type) `{!WAL WT} := {
  history : WT → list (option vdoc);
  front : WT → Z;
  same_log (s s' : WT) := history s' = history s ∧ front s' = front s;
  history_bound s : Z.of_nat (length (history s)) < 2 ^ 64 - MaxBatchSize;
  wal_Open_law s r s' : wal_Open s = (r, s') → same_log s s';
  wal_Sync_law s r s' : wal_Sync s = (r, s') → same_log s s';
  LastIndex_law s r s' : LastIndex s = (r, s') → same_log s s' ∧
    (∀ n, r = Ok n → n = Z.of_nat (length (history s)));
  wal_Read_law i s r s' : wal_Read i s = (r, s') → same_log s s' ∧
    (∀ e, r = Ok e → 1 ≤ i ∧ front s ≤ i ∧ history s !! Z.to_nat (i - 1) = Some e);
  wal_Write_law d s r s' : wal_Write d s = (r, s') → front s' = front s ∧
    (history s' = history s ++ [Some d] ∨ is_ok r = false ∧ history s' = history s);
  TruncateFront_law i s r s' : TruncateFront i s = (r, s') →
    history s' = history s ∧ front s ≤ front s' ≤ Z.max (front s) i;
}.

(** What a batch leaves of a document; it has one operation for each. *)
Definition op_id (o : op) : string := match o with BInsert d | BUpdate d => b_id d | BDelete id => id end.
Definition after_op (o : op) (ds : list bdoc) : list bdoc :=
  match o with BInsert d => ds ++ [d] | BUpdate d => [d] | BDelete _ => [] end.

(** [contents]: the documents with an identifier in a second-layer shard. A batch that
    fails may have taken place. *)
Class EngineLaws (ET : Type) `{!Engine ET} := {
  contents : ET → Z → string → list bdoc;
  OpenWriter_law k s r s' : OpenWriter k s = (r, s') → ∀ j id, contents s' j id = contents s j id;
  DirectorySize_law k s r s' : DirectorySize k s = (r, s') → ∀ j id, contents s' j id = contents s j id;
  Count_law k s r s' : Count k s = (r, s') → ∀ j id, contents s' j id = contents s j id;
  Batch_law k ops s r s' : NoDup (op_id <$> ops) → Batch_ k ops s = (r, s') →
    (is_ok r = false ∧ ∀ j id, contents s' j id = contents s j id) ∨
    (∀ j id, contents s' j id =
       match List.find (λ o, bool_decide (op_id o = id)) ops with
       | Some o => if decide (j = k) then after_op o (contents s j id) else contents s j id
       | None => contents s j id
       end);
}.

(** ** Merging actions *)

(** The document an action leaves: one, or none. *)
Definition act (a : string) (b : bdoc) : list bdoc := if decide (a = ActionTypeDelete) then [] else [b].
Definition action (a : string) : Prop := a ∈ [ActionTypeInsert; ActionTypeUpdate; ActionTypeDelete].

(** [merged_last]: what the merged actions of a document do to its shard is what the
    last of them leaves, if a document that is inserted first was not there. Nothing is
    left in the other shards, unless it was inserted. *)
Theorem merged_last acts b ds o del : acts ≠ [] → Forall action acts →
  (head acts = Some ActionTypeInsert → ds = []) → merge_actions acts b = Ok (o, del) →
  from_option (λ o, after_op o ds) ds o = act (List.last acts "") b ∧
  del = negb (bool_decide (head acts = Some ActionTypeInsert)) ∧
  (∀ x, o = Some x → op_id x = b_id b).
Proof.
  intros Hne Hacts Hins Hm. destruct acts as [|first rest]; [done|]. simpl in Hins.
  assert (action (List.last (first :: rest) "")) as Hlast.
  { eapply Forall_forall; [exact Hacts|].
    destruct (@exists_last _ (first :: rest) Hne) as (l & x & E). rewrite E.
    rewrite List.last_last. apply elem_of_app. right. by left. }
  apply Forall_cons in Hacts as [Hf _]. unfold merge_actions in Hm. unfold act.
  set (last := List.last (first :: rest) "") in *.
  assert (last = ActionTypeInsert ∨ last = ActionTypeUpdate ∨ last = ActionTypeDelete) as Hl.
  { unfold action in Hlast. rewrite !elem_of_cons, elem_of_nil in Hlast. tauto. }
  assert (rest = [] → last = first) as Hrest by (by intros ->).
  unfold action in Hf. apply elem_of_cons in Hf as [->|Hf].
  { rewrite (Hins eq_refl). clear Hins.
    destruct (decide (ActionTypeInsert = ActionTypeInsert)); [|done]. simplify_eq.
    destruct (decide (rest = [])) as [Hr|Hr].
    { rewrite (Hrest Hr). by split_and!; [| |intros x [= <-]]. }
    destruct Hl as [-> |[-> | ->]]; by split_and!; [| |intros x [= <-] || intros x [=]]. }
  assert (first ≠ ActionTypeInsert) as Hfi by (intros ->; by rewrite !elem_of_cons, elem_of_nil in Hf; naive_solver).
  rewrite decide_False in Hm by done.
  rewrite decide_True in Hm by (rewrite !elem_of_cons, elem_of_nil in Hf; tauto).
  assert (bool_decide (head (first :: rest) = Some ActionTypeInsert) = false) as ->
    by (apply bool_decide_eq_false; simpl; congruence).
  destruct Hl as [E|[E|E]]; rewrite E in *; simpl in Hm; simplify_eq; by split_and!; [| |intros x [= <-]].
Qed.

(** ** Updates *)

(** An entry that [CreateDocument] writes with [update], and its document. *)
Definition update_of (d : vdoc) (id : string) : Prop :=
  lookup_doc ActionFieldName d = Some (VStr ActionTypeUpdate) ∧ lookup_doc IDFieldName d = Some (VStr id) ∧
  ∃ f, lookup_doc ShardFieldName d = Some (VNum f) ∧ int64_of f = ShardIDNeedUpdate.
Definition all_updates (h : list (option vdoc)) : Prop := Forall (λ e, ∃ d id, e = Some d ∧ update_of d id) h.

Definition id_of (d : vdoc) : string :=
  match lookup_doc IDFieldName d with Some (VStr id) => id | _ => "" end.
Lemma update_id d id : update_of d id → id_of d = id.
Proof. intros (_ & H & _). unfold id_of. by rewrite H. Qed.

(** The entries of a document. *)
Definition of_id (id : string) (es : list vdoc) : list vdoc := filter (λ d, id_of d = id) es.

Definition merged_doc (id : string) (l : list vdoc) : option walDocument :=
  match l with
  | [] => None
  | _ => Some (MkWalDocument id (replicate (length l) ActionTypeUpdate) (List.last l []))
  end.
Lemma merged_doc_snoc id l d :
  merged_doc id (l ++ [d]) = Some (MkWalDocument id (replicate (length l) ActionTypeUpdate ++ [ActionTypeUpdate]) d).
Proof.
  assert (∀ l, l ≠ [] → merged_doc id l = Some (MkWalDocument id (replicate (length l) ActionTypeUpdate) (List.last l [])))
    as H by (by intros []).
  rewrite H by (by destruct l). by rewrite length_app, Nat.add_1_r, replicate_S_end, List.last_last.
Qed.

(** [docs] are the entries [es], merged. *)
Record merged (docs : walMergeDocs) (es : list vdoc) : Prop := {
  mg_shard : ∀ sh, sh ≠ ShardIDNeedUpdate → docs !! sh = None;
  mg_docs : ∀ id, default ∅ (docs !! ShardIDNeedUpdate) !! id = merged_doc id (of_id id es);
}.

Lemma merged_empty : merged ∅ [].
Proof. split; [intros; apply lookup_empty|]. intros id. by rewrite lookup_empty. Qed.

Lemma merged_Reset docs es : merged docs es → merged (Reset docs) [].
Proof.
  intros [H1 _]. unfold Reset. split; [intros sh Hsh; by rewrite lookup_fmap, H1|].
  intros id. rewrite lookup_fmap. by destruct (docs !! ShardIDNeedUpdate).
Qed.

Lemma merged_add docs es d id docs' : merged docs es → update_of d id → AddDocument docs d = Ok docs' →
  merged docs' (es ++ [d]).
Proof.
  intros [H1 H2] Hd H. pose proof (update_id _ _ Hd) as Hid. destruct Hd as (Ha & Hi & f & Hs & Hf).
  unfold AddDocument, mbind, res_bind in H. rewrite Ha, Hi, Hs in H. simpl in H. rewrite Hf in H. simplify_eq.
  split; [intros sh Hsh; rewrite lookup_insert_ne by done; by apply H1|].
  intros id'. rewrite lookup_insert_eq. simpl. unfold of_id. rewrite filter_app, filter_cons, filter_nil.
  destruct (decide (id' = id_of d)) as [->|Hne].
  - rewrite lookup_insert_eq, decide_True by done. rewrite H2. unfold of_id.
    by rewrite merged_doc_snoc; destruct (filter _ es).
  - rewrite lookup_insert_ne, decide_False, app_nil_r by done. apply H2.
Qed.

Lemma merged_len docs es : merged docs es → es ≠ [] → 0 < MaxShardLen docs.
Proof.
  intros [H1 H2] Hes. unfold MaxShardLen.
  assert (∃ ds, docs !! ShardIDNeedUpdate = Some ds ∧ ds ≠ ∅) as (ds & Hds & Hne).
  { destruct es as [|e es]; [done|]. specialize (H2 (id_of e)). unfold of_id in H2.
    rewrite filter_cons_True in H2 by done. destruct (docs !! ShardIDNeedUpdate) as [ds|]; [|by simpl in H2; rewrite lookup_empty in H2].
    exists ds. split; [done|]. intros ->. simpl in H2. by rewrite lookup_empty in H2. }
  clear H1 H2 Hes. revert ds Hds Hne. generalize ShardIDNeedUpdate.
  set (P := λ (n : Z) (m : walMergeDocs), 0 ≤ n ∧ ∀ k ds, m !! k = Some ds → ds ≠ ∅ → 0 < n).
  assert (P (map_fold (λ _ m n, Z.max (Z.of_nat (size m)) n) 0 docs) docs) as [_ HP].
  { apply (map_fold_weak_ind P); unfold P; clear.
    - split; [done|]. intros k x. by rewrite lookup_empty.
    - intros i m docs n _ [H0 H]. split; [lia|]. intros k ds [[<- <-]|[_ Hk]]%lookup_insert_Some Hne.
      + apply map_size_ne_0_iff in Hne || apply map_size_non_empty_iff in Hne. lia.
      + specialize (H k ds Hk Hne). lia. }
  intros k ds. apply HP.
Qed.

(** ** What writing does *)

Section replay.
Context {RT WT ET ST : Type} `{!RedoLog RT, !RedoLogLaws RT, !WAL WT, !WALLaws WT, !Engine ET, !EngineLaws ET}
  {lib : GoLib} {denv : DocEnv ST} {senv : ShardEnv}.
Context (index : string).
#[local] Set Default Proof Using "All".
#[local] Abbreviation W := (IndexShard RT WT ET ST).

(** A document of the engine made from an entry. *)
Definition carries (b : bdoc) (id : string) (d : vdoc) : Prop :=
  b_id b = id ∧
  special "_source" (FSource (source_of (delete_doc TimeFieldName (without_action d)))) true false false ∈ b_fields b.

Lemma Build_carries id d (r r' : root ST) b : BuildBlugeDocumentFromJSON index id d r = (Ok b, r') → carries b id d.
Proof.
  unfold BuildBlugeDocumentFromJSON. intros H.
  apply bind_ok in H as (r0 & s0 & [= <- <-] & H). apply bind_ok in H as (fs & s1 & _ & H).
  apply bind_ok in H as (now & s2 & _ & H). apply bind_ok in H as (t & s3 & _ & H).
  apply bind_ok in H as (u & s4 & _ & H). unfold mret, M_ret in H. simplify_eq. split; [done|].
  simpl. apply elem_of_app. right. by right; left.
Qed.

(** Nothing but the writers, the mappings and counts, and the number of second-layer
    shards, which grows. *)
Record quiet (s s' : W) : Prop := {
  q_redo : redolog s' = redolog s;
  q_log : history (entries s') = history (entries s);
  q_open : open s' = open s;
  q_wal : wal s' = wal s;
  q_num : GetShardNum s ≤ GetShardNum s';
  q_contents : ∀ j id, contents (engine s') j id = contents (engine s) j id;
  q_front : front (entries s') = front (entries s);
}.
Definition calm (s s' : W) : Prop := open s = true → quiet s s'.

#[export] Instance quiet_preorder : PreOrder quiet.
Proof using Type.
  split; [by split|]. intros s1 s2 s3 [A1 A2 A3 A4 A5 A6 A7] [B1 B2 B3 B4 B5 B6 B7].
  split; [congruence|congruence|congruence|congruence|lia| |congruence]. intros j id. by rewrite B6, A6.
Qed.
#[export] Instance calm_preorder : PreOrder calm.
Proof using Type.
  split; [by intros s _|]. intros s1 s2 s3 H1 H2 Ho. specialize (H1 Ho). etrans; [exact H1|].
  apply H2. by rewrite (q_open _ _ H1).
Qed.

Lemma calm_root {A} (c : M (root ST) A) : keeps calm (on_root c).
Proof. intros s r s' H _. unfold on_root, zoom in H. destruct (c (rt s)). by simplify_eq. Qed.
Lemma calm_OpenWriter k : keeps calm (on_engine (OpenWriter k)).
Proof.
  intros s r s' H _. unfold on_engine, zoom in H. destruct (OpenWriter k _) eqn:E. simplify_eq.
  split; try done. intros j id. by eapply OpenWriter_law.
Qed.
Lemma calm_DirectorySize k : keeps calm (on_engine (DirectorySize k)).
Proof.
  intros s r s' H _. unfold on_engine, zoom in H. destruct (DirectorySize k _) eqn:E. simplify_eq.
  split; try done. intros j id. by eapply DirectorySize_law.
Qed.
Lemma calm_Count k : keeps calm (on_engine (Count k)).
Proof.
  intros s r s' H _. unfold on_engine, zoom in H. destruct (Count k _) eqn:E. simplify_eq.
  split; try done. intros j id. by eapply Count_law.
Qed.
Lemma calm_add_writer k : keeps calm (add_writer k).
Proof. by intros s r s' [= <- <-] _. Qed.
Lemma calm_totals t : keeps calm (set_totals t).
Proof. by intros s r s' [= <- <-] _. Qed.
Lemma calm_seconds f : (∀ l, (length l ≤ length (f l))%nat) → keeps calm (set_seconds f).
Proof.
  intros Hf s r s' [= <- <-] _. split; try done. unfold GetShardNum. simpl. specialize (Hf (seconds s)). lia.
Qed.
Lemma OpenWAL_open (s : W) : open s = true → OpenWAL index s = (Ok (), s).
Proof. intros Ho. unfold OpenWAL, mbind, M_bind, get_state. by rewrite Ho. Qed.
Lemma calm_OpenWAL : keeps calm (OpenWAL index).
Proof. intros s r s' H Ho. rewrite OpenWAL_open in H by done. by simplify_eq. Qed.
#[local] Hint Resolve calm_root calm_OpenWriter calm_DirectorySize calm_Count calm_add_writer calm_totals
  calm_OpenWAL : keeps.

Lemma calm_openWriter k : keeps calm (openWriter k).
Proof. unfold openWriter. solve_keeps. Qed.
#[local] Hint Resolve calm_openWriter : keeps.
Lemma calm_GetWriter k : keeps calm (GetWriter (OpenWAL index) k).
Proof. unfold GetWriter. solve_keeps. Qed.
#[local] Hint Resolve calm_GetWriter : keeps.
Lemma calm_GetWriters : keeps calm (GetWriters (OpenWAL index)).
Proof.
  assert (∀ ids, keeps calm (GetWriters_ (OpenWAL index) ids)) as H.
  { induction ids as [|i ids IH]; simpl; solve_keeps. }
  unfold GetWriters. solve_keeps.
Qed.
Lemma calm_plan docs batch other : keeps calm (plan index docs batch other).
Proof.
  revert batch other. induction docs as [|[id d] docs IH]; intros batch other; simpl; solve_keeps; auto with keeps.
Qed.
Lemma calm_with_stats i f : keeps calm (with_stats i f).
Proof. apply calm_seconds. intros l. destruct (i <? 0); [done|]. by rewrite length_alter. Qed.
#[local] Hint Resolve calm_with_stats : keeps.
Lemma calm_UpdateStats i : keeps calm (UpdateStatsBySecondShard i).
Proof. unfold UpdateStatsBySecondShard. solve_keeps. Qed.
#[local] Hint Resolve calm_UpdateStats : keeps.
Lemma calm_update_all ids : keeps calm (update_all ids).
Proof. induction ids as [|i ids IH]; simpl; solve_keeps; auto with keeps. Qed.
#[local] Hint Resolve calm_update_all : keeps.
Lemma calm_metadata : keeps calm UpdateMetadataByShard.
Proof. unfold UpdateMetadataByShard, times_to_latest. solve_keeps. Qed.
Lemma calm_CheckShards : keeps calm (CheckShards index).
Proof.
  assert (keeps calm (set_seconds (λ l, l ++ [MkStats 0 0 0 0]))) as H
    by (apply calm_seconds; intros l; rewrite length_app; lia).
  unfold CheckShards, NewShard, times_to_latest. solve_keeps; auto with keeps.
Qed.

Lemma GetWriters_all (s s' : W) ws : open s = true → GetWriters (OpenWAL index) s = (Ok ws, s') →
  ws = seqZ 0 (GetShardNum s).
Proof.
  intros Ho H. unfold GetWriters in H. apply bind_ok in H as (s0 & s1 & [= <- <-] & H).
  revert H. generalize (seqZ 0 (GetShardNum s)). intros ids H. revert s s' ws Ho H.
  induction ids as [|i ids IH]; intros s s' ws Ho H; simpl in H; [by injection H as <- <-|].
  apply bind_ok in H as (w & s1 & H1 & H). apply bind_ok in H as (ws' & s2 & H2 & [= <- <-]).
  pose proof (calm_GetWriter _ _ _ _ H1 Ho) as Hq. f_equal.
  - unfold GetWriter in H1. apply bind_ok in H1 as (s0 & s3 & [= <- <-] & H1).
    destruct (_ || _); [done|]. destruct (decide _); [by injection H1|].
    apply bind_ok in H1 as (u1 & s4 & _ & H1). apply bind_ok in H1 as (u2 & s5 & _ & H1). by injection H1.
  - eapply IH; [|exact H2]. by rewrite (q_open _ _ Hq).
Qed.

(** The plan for documents that are only updated. *)
Definition updated (x : string * walDocument) : Prop :=
  docID x.2 = x.1 ∧ ∃ n, actions x.2 = replicate (Datatypes.S n) ActionTypeUpdate.

Lemma merge_updates n b : merge_actions (replicate (Datatypes.S n) ActionTypeUpdate) b = Ok (Some (BUpdate b), true).
Proof.
  assert (List.last (replicate (Datatypes.S n) ActionTypeUpdate) "" = ActionTypeUpdate) as E.
  { rewrite replicate_S_end. apply List.last_last. }
  unfold merge_actions. rewrite E. done.
Qed.

Lemma plan_spec docs : ∀ batch other (s s' : W) p, Forall updated docs → plan index docs batch other s = (Ok p, s') →
  ∃ bs, p = (batch ++ (BUpdate <$> bs), other ++ (b_id <$> bs)) ∧
    Forall2 (λ b x, carries b x.1 (data x.2)) bs docs.
Proof.
  induction docs as [|[id d] docs IH]; intros batch other s s' p Hu H; simpl in H.
  { injection H as <- <-. exists []. by rewrite !app_nil_r. }
  apply Forall_cons in Hu as [[Hid [n Ha]] Hu]. cbn [fst snd] in Hid, Ha.
  apply bind_ok in H as (b & s1 & Hb & H). apply bind_ok in H as ([o del] & s2 & Hm & H).
  rewrite Ha, (merge_updates n) in Hm. injection Hm as <- <- <-.
  apply IH in H as (bs & -> & Hbs); [|done]. exists (b :: bs). rewrite !fmap_cons. simpl.
  rewrite <- !app_assoc. split; [done|]. constructor; [|done]. simpl. rewrite <- Hid.
  unfold on_root, zoom in Hb. destruct (BuildBlugeDocumentFromJSON _ _ _ _) as [r x] eqn:E.
  injection Hb as -> <-. by eapply Build_carries.
Qed.

Lemma find_op {A} (mk : A → op) (name : A → string) l id : (∀ x, op_id (mk x) = name x) →
  NoDup (name <$> l) → List.find (λ o, bool_decide (op_id o = id)) (mk <$> l) =
    mk <$> List.find (λ x, bool_decide (name x = id)) l.
Proof using Type.
  intros Hmk _. induction l as [|x l IH]; [done|]. rewrite fmap_cons. simpl. rewrite Hmk.
  by case_bool_decide.
Qed.

Lemma find_name {A} (name : A → string) l x : NoDup (name <$> l) → x ∈ l →
  List.find (λ y, bool_decide (name y = name x)) l = Some x.
Proof using Type.
  intros Hn Hx. induction l as [|y l IH]; [by apply elem_of_nil in Hx|]. rewrite fmap_cons in Hn.
  apply NoDup_cons in Hn as [Hy Hn]. simpl. apply elem_of_cons in Hx as [->|Hx]; [by rewrite bool_decide_eq_true_2|].
  rewrite bool_decide_eq_false_2; [by apply IH|]. intros E. apply Hy. rewrite E. apply list_elem_of_fmap. eauto.
Qed.

Lemma find_none {A} (name : A → string) l id : id ∉ name <$> l → List.find (λ y, bool_decide (name y = id)) l = None.
Proof using Type.
  intros Hn. induction l as [|y l IH]; [done|]. rewrite fmap_cons in Hn. apply not_elem_of_cons in Hn as [Hy Hn].
  simpl. rewrite bool_decide_eq_false_2 by congruence. by apply IH.
Qed.

(** Only the contents change. *)
Record batched (s s' : W) : Prop := {
  bt_redo : redolog s' = redolog s;
  bt_log : history (entries s') = history (entries s);
  bt_open : open s' = open s;
  bt_wal : wal s' = wal s;
  bt_num : GetShardNum s ≤ GetShardNum s';
  bt_front : front (entries s') = front (entries s);
}.
#[export] Instance batched_preorder : PreOrder batched.
Proof using Type.
  split; [by split|]. intros s1 s2 s3 [A1 A2 A3 A4 A5 A6] [B1 B2 B3 B4 B5 B6].
  split; [congruence|congruence|congruence|congruence|lia|congruence].
Qed.
Lemma quiet_batched s s' : quiet s s' → batched s s'.
Proof. by intros []. Qed.

#[local] Abbreviation cont s := (contents (engine s)).

Lemma on_Batch k ops (s s' : W) r : NoDup (op_id <$> ops) → on_engine (Batch_ k ops) s = (r, s') →
  batched s s' ∧
  ((is_ok r = false ∧ ∀ j id, cont s' j id = cont s j id) ∨
   (∀ j id, cont s' j id =
      match List.find (λ o, bool_decide (op_id o = id)) ops with
      | Some o => if decide (j = k) then after_op o (cont s j id) else cont s j id
      | None => cont s j id
      end)).
Proof.
  intros Hn H. unfold on_engine, zoom in H. destruct (Batch_ k ops (engine s)) as [x e] eqn:E. injection H as <- <-.
  split; [by split|]. by eapply Batch_law.
Qed.

Lemma delete_from_spec ws other : NoDup other → ∀ (s s' : W) r, delete_from ws other s = (r, s') →
  batched s s' ∧
  (∀ j id, j ∉ ws ∨ id ∉ other → cont s' j id = cont s j id) ∧
  (∀ j id, cont s j id = [] → cont s' j id = []) ∧
  (is_ok r = true → ∀ j id, j ∈ ws → id ∈ other → cont s' j id = []).
Proof.
  intros Hn. induction ws as [|w ws IH]; intros s s' r H; simpl in H.
  { injection H as <- <-. split_and!; [done|done|done|]. by intros _ j id ?%elem_of_nil. }
  assert (NoDup (op_id <$> (BDelete <$> other))) as Hnd by (by rewrite <- list_fmap_compose, list_fmap_id).
  assert (∀ (s1 : W) (x : res ()), on_engine (Batch_ w (BDelete <$> other)) s = (x, s1) →
    batched s s1 ∧ (∀ j id, j ≠ w ∨ id ∉ other → cont s1 j id = cont s j id) ∧
    (∀ j id, cont s j id = [] → cont s1 j id = []) ∧
    (is_ok x = true → ∀ id, id ∈ other → cont s1 w id = [])) as Hone.
  { intros s1 x H1. apply on_Batch in H1 as [Hb Hc]; [|done]. split; [done|].
    assert (∀ id, List.find (λ o, bool_decide (op_id o = id)) (BDelete <$> other) =
      BDelete <$> List.find (λ x, bool_decide (x = id)) other) as Hf.
    { intros id. apply (find_op BDelete (λ x, x)); [done|by rewrite list_fmap_id]. }
    destruct Hc as [[Hx Hc]|Hc].
    - split_and!; [by intros; rewrite Hc|by intros j id; rewrite Hc|congruence].
    - setoid_rewrite Hf in Hc. split_and!.
      + intros j id [Hj|Hid]; rewrite Hc; [destruct (List.find _ other); simpl; by rewrite ?decide_False by done|].
        rewrite (find_none (λ x, x)); [done|]. by rewrite list_fmap_id.
      + intros j id E. rewrite Hc. destruct (List.find _ other); simpl; [|done]. by case_decide.
      + intros _ id Hid. rewrite Hc, (find_name (λ x, x) other id); [|by rewrite list_fmap_id|done].
        simpl. by rewrite decide_True. }
  apply bind_inv in H as [(e & H & ->)|([] & s1 & H1 & H)].
  - apply Hone in H as (Hb & Hc & Hz & _). split_and!; [done| |done|done].
    intros j id [Hj|Hid]; apply Hc; [left|by right]. intros ->. apply Hj. by left.
  - apply Hone in H1 as (Hb1 & Hc1 & Hz1 & Hd1). apply IH in H as (Hb2 & Hc2 & Hz2 & Hd2).
    split_and!; [by etrans| | |].
    + intros j id Hji. rewrite Hc2, Hc1; [done| |]; destruct Hji as [Hj|?]; auto; left; set_solver.
    + intros j id E. by apply Hz2, Hz1.
    + intros Hr j id Hj Hid. apply elem_of_cons in Hj as [->|Hj]; [|by apply Hd2].
      apply Hz2. by apply Hd1.
Qed.

(** A document is in one second-layer shard only, once, as the entry says, or in none. *)
Definition exactly (s : W) (id : string) (o : option vdoc) : Prop :=
  match o with
  | None => ∀ j, cont s j id = []
  | Some d => ∃ k b, 0 ≤ k < GetShardNum s ∧ carries b id d ∧ cont s k id = [b] ∧ ∀ j, j ≠ k → cont s j id = []
  end.
(** There is nothing outside the second-layer shards. *)
Definition fresh (s : W) : Prop := ∀ j id, ¬ 0 ≤ j < GetShardNum s → cont s j id = [].

(** Only documents of [ids] may change, and only in the shards there are. *)
Definition framed (ids : list string) (s s' : W) : Prop := open s = true → batched s s' ∧
  ∀ j id, id ∉ ids ∨ ¬ 0 ≤ j < GetShardNum s' → cont s' j id = cont s j id.
#[export] Instance framed_preorder ids : PreOrder (framed ids).
Proof using Type.
  split; [by intros s _|]. intros s1 s2 s3 H1 H2 Ho. destruct (H1 Ho) as [B1 C1].
  destruct H2 as [B2 C2]; [by rewrite (bt_open _ _ B1)|]. split; [by etrans|]. intros j id Hj.
  rewrite C2 by done. apply C1. pose proof (bt_num _ _ B2). destruct Hj; [by left|right; lia].
Qed.
Lemma calm_framed ids s s' : calm s s' → framed ids s s'.
Proof. intros H Ho. specialize (H Ho). split; [by apply quiet_batched|]. intros j id _. apply H. Qed.
Lemma framed_mono ids ids' s s' : ids ⊆ ids' → framed ids s s' → framed ids' s s'.
Proof. intros Hs H Ho. destruct (H Ho) as [B C]. split; [done|]. intros j id [?|?]; apply C; [left; set_solver|by right]. Qed.
Lemma framed_exactly ids s s' id o : framed ids s s' → open s = true → id ∉ ids → exactly s id o → exactly s' id o.
Proof.
  intros H Ho Hid. destruct (H Ho) as [B C]. pose proof (bt_num _ _ B). destruct o as [d|]; simpl.
  - intros (k & b & Hk & Hb & E & Hj). exists k, b. split_and!; [lia..|done| |]; intros; rewrite C by auto; auto.
  - intros E j. rewrite C by auto. apply E.
Qed.
Lemma framed_fresh ids s s' : framed ids s s' → open s = true → fresh s → fresh s'.
Proof.
  intros H Ho Hf j id Hj. destruct (H Ho) as [B C]. pose proof (bt_num _ _ B). rewrite C by auto. apply Hf. lia.
Qed.

Lemma seqZ_last n : 0 < n → last (seqZ 0 n) = Some (n - 1) ∧ removelast (seqZ 0 n) = seqZ 0 (n - 1).
Proof using Type.
  intros Hn. assert (seqZ 0 n = seqZ 0 (n - 1) ++ [n - 1]) as ->.
  { rewrite <- (Z.sub_add 1 n) at 1. rewrite seqZ_app by lia. do 2 f_equal. }
  split; [apply last_snoc|apply removelast_last].
Qed.

Lemma last_shard (ws : list Z) n w : ws = seqZ 0 n → last ws = Some w →
  w = n - 1 ∧ 0 < n ∧ removelast ws = seqZ 0 (n - 1).
Proof using Type.
  intros -> H. destruct (decide (0 < n)) as [Hn|]; [|by rewrite seqZ_nil in H by lia].
  destruct (seqZ_last n Hn) as [E1 E2]. rewrite E1 in H. injection H as <-. done.
Qed.

(** Documents that are updated: the others lose their copies when the last shard has it. *)
Lemma write_plan docs bs n (s s' : W) r : NoDup docs.*1 → 0 < n ≤ GetShardNum s → open s = true → fresh s →
  (∀ j id, ¬ 0 ≤ j < n → cont s j id = []) →
  Forall2 (λ b x, carries b x.1 (data x.2)) bs docs →
  (on_engine (Batch_ (n - 1) (BUpdate <$> bs));; delete_from (seqZ 0 (n - 1)) (b_id <$> bs)) s = (r, s') →
  framed docs.*1 s s' ∧ (is_ok r = true → ∀ id x, (id, x) ∈ docs → exactly s' id (Some (data x))).
Proof.
  intros Hn Hnum Ho Hf Hout Hbs H.
  assert (b_id <$> bs = docs.*1) as Hids.
  { clear -Hbs. induction Hbs as [|b x bs docs [Hb _] _ IH]; [done|]. rewrite !fmap_cons. by f_equal. }
  rewrite Hids in H. assert (NoDup (op_id <$> (BUpdate <$> bs))) as Hnd.
  { rewrite <- list_fmap_compose. change (op_id ∘ BUpdate) with b_id. by rewrite Hids. }
  assert (∀ (s1 : W) (x : res ()), on_engine (Batch_ (n - 1) (BUpdate <$> bs)) s = (x, s1) →
    batched s s1 ∧ framed docs.*1 s s1 ∧
    (is_ok x = true → ∀ b, b ∈ bs → cont s1 (n - 1) (b_id b) = [b] ∧
      ∀ j, j ≠ n - 1 → cont s1 j (b_id b) = cont s j (b_id b))) as Hone.
  { intros s1 x H1. apply on_Batch in H1 as [Hb Hc]; [|done].
    pose proof (bt_num _ _ Hb) as Hnum'.
    assert (∀ id, List.find (λ o, bool_decide (op_id o = id)) (BUpdate <$> bs) =
      BUpdate <$> List.find (λ x, bool_decide (b_id x = id)) bs) as Hfind
      by (intros id; apply (find_op BUpdate b_id); [done|by rewrite Hids]).
    destruct Hc as [[Hx Hc]|Hc]; [split_and!; [done| |congruence]; intros _; by split; [|intros; rewrite Hc]|].
    setoid_rewrite Hfind in Hc. split_and!; [done| |].
    - intros _. split; [done|]. intros j id Hj. rewrite Hc.
      destruct (List.find _ bs) as [b|] eqn:E; [|done]. simpl.
      destruct (decide (j = n - 1)) as [->|]; [|done]. destruct Hj as [Hid|]; [|lia].
      rewrite (find_none b_id) in E by (by rewrite Hids). done.
    - intros _ b Hb0. rewrite Hc, (find_name b_id) by (by rewrite ?Hids). simpl. rewrite decide_True by done.
      split; [done|]. intros j Hj. rewrite Hc, (find_name b_id) by (by rewrite ?Hids). simpl. by rewrite decide_False. }
  apply bind_inv in H as [(e & H & ->)|([] & s1 & H1 & H)].
  { apply Hone in H as (_ & Hfr & _). by split. }
  apply Hone in H1 as (Hb1 & Hfr & Hok1). apply delete_from_spec in H as (Hb2 & Hc2 & Hz2 & Hd2); [|done].
  pose proof (bt_num _ _ Hb1). pose proof (bt_num _ _ Hb2). split.
  - etrans; [exact Hfr|]. intros _. split; [done|]. intros j id [Hid|Hj]; apply Hc2; [by right|left].
    rewrite elem_of_seqZ. lia.
  - intros Hr id x Hx. specialize (Hok1 eq_refl).
    assert (∃ b, b ∈ bs ∧ carries b id (data x)) as (b & Hb & Hcar).
    { apply list_elem_of_lookup in Hx as [i Hi]. destruct (Forall2_lookup_r _ _ _ _ _ Hbs Hi) as (b & Hb & Hcar).
      exists b. split; [by eapply list_elem_of_lookup_2|done]. }
    destruct (Hok1 b Hb) as [E1 E2]. destruct (Hcar) as [Hbid _]. rewrite Hbid in E1, E2.
    exists (n - 1), b. split_and!; [lia..|done| |].
    + rewrite Hc2; [done|]. left. rewrite elem_of_seqZ. lia.
    + intros j Hj. destruct (decide (j ∈ seqZ 0 (n - 1))) as [Hin|Hin].
      * apply Hd2; [done|done|]. by eapply (list_elem_of_fmap_2 fst) in Hx.
      * apply Hz2. rewrite E2 by done. apply Hout. rewrite elem_of_seqZ in Hin. lia.
Qed.
Lemma WriteToShard_spec docs ds (s s' : W) r : docs !! ShardIDNeedUpdate = Some ds →
  Forall updated (range_docs ds) → open s = true → fresh s →
  WriteToShard index (OpenWAL index) docs ShardIDNeedUpdate s = (r, s') →
  framed (range_docs ds).*1 s s' ∧
  (is_ok r = true → ∀ id x, ds !! id = Some x → exactly s' id (Some (data x))).
Proof.
  intros Hds Hu Ho Hf H. unfold WriteToShard in H. rewrite Hds in H.
  apply bind_inv in H as [(e & [=] & _)|(s0 & s1 & [= <- <-] & H)]. simpl in H.
  assert (∀ (s2 : W) x, (ws ← GetWriters (OpenWAL index);
      match last ws with Some w => mret (w, removelast ws) | None => throw no_writer end) s = (x, s2) →
    calm s s2 ∧ (∀ y, x = Ok y → 0 < GetShardNum s ∧ y = (GetShardNum s - 1, seqZ 0 (GetShardNum s - 1)))) as Hw.
  { intros s2 x Hx. apply bind_inv in Hx as [(e & H1 & ->)|(ws & s3 & H1 & Hx)].
    { split; [by apply calm_GetWriters in H1|done]. }
    pose proof (calm_GetWriters _ _ _ H1) as Hq. apply GetWriters_all in H1; [|done].
    destruct (last ws) as [w|] eqn:E; injection Hx as <- <-; (split; [done|]); [|done].
    intros y [= <-]. apply (last_shard _ _ _ H1) in E as (-> & ? & ->). done. }
  apply bind_inv in H as [(e & H & ->)|([w rest] & s2 & H1 & H)].
  { apply Hw in H as [Hq _]. split; [by apply calm_framed|done]. }
  apply Hw in H1 as [Hq Hy]. destruct (Hy _ eq_refl) as [Hpos [= -> ->]].
  assert (NoDup (range_docs ds).*1) as Hnd.
  { rewrite range_docs_perm. apply NoDup_fst_map_to_list. }
  pose proof (calm_framed (range_docs ds).*1 _ _ Hq) as Hfr. specialize (Hq Ho).
  assert (open s2 = true) as Ho2 by (by rewrite (q_open _ _ Hq)).
  apply bind_inv in H as [(e & H & ->)|([batch other] & s3 & H1 & H)].
  { apply calm_plan in H. split; [|done]. etrans; [exact Hfr|by apply calm_framed]. }
  pose proof (calm_plan _ _ _ _ _ _ H1 Ho2) as Hq3. apply plan_spec in H1 as (bs & [= -> ->] & Hbs); [|done].
  simpl in H. assert (open s3 = true) as Ho3 by (by rewrite (q_open _ _ Hq3)).
  assert (quiet s s3) as Hq' by (by etrans).
  pose proof (q_num _ _ Hq') as Hnum.
  eapply (write_plan (range_docs ds) bs (GetShardNum s)) in H as [Hfr' Hok]; try done.
  - split; [etrans; [exact Hfr|]; etrans; [apply calm_framed; by intros _|exact Hfr']|].
    intros Hr id x Hx. apply Hok; [done|]. rewrite range_docs_perm. by apply elem_of_map_to_list.
  - eapply framed_fresh; [|exact Ho|exact Hf]. etrans; [exact Hfr|apply calm_framed; by intros _].
  - intros j id Hj. rewrite (q_contents _ _ Hq'). by apply Hf.
Qed.
Lemma of_id_keys id es d : last (of_id id es) = Some d → id ∈ id_of <$> es.
Proof using Type.
  intros H. apply list_elem_of_fmap. exists d. assert (d ∈ of_id id es) as Hd by (by apply last_Some_elem_of).
  unfold of_id in Hd. apply list_elem_of_filter in Hd as [<- ?]. done.
Qed.

Lemma merged_shard docs es ds : merged docs es → docs !! ShardIDNeedUpdate = Some ds →
  Forall updated (range_docs ds) ∧ (range_docs ds).*1 ⊆ id_of <$> es ∧
  ∀ id d, last (of_id id es) = Some d → ∃ x, ds !! id = Some x ∧ data x = d.
Proof.
  intros [_ Hm] Hds. rewrite Hds in Hm. simpl in Hm.
  assert (∀ id x, ds !! id = Some x → docID x = id ∧ of_id id es ≠ [] ∧
    actions x = replicate (length (of_id id es)) ActionTypeUpdate) as Hx.
  { intros id x E. rewrite Hm in E. destruct (of_id id es) eqn:El; [done|]. by simplify_eq/=. }
  split_and!.
  - apply Forall_forall. intros [id x] Hin. rewrite range_docs_perm in Hin. apply elem_of_map_to_list in Hin.
    destruct (Hx _ _ Hin) as (? & Hne & Ha). split; [done|]. destruct (of_id id es) as [|d l]; [done|].
    by exists (length l).
  - intros id ([id' x] & -> & Hin)%list_elem_of_fmap. rewrite range_docs_perm in Hin.
    apply elem_of_map_to_list in Hin. apply Hx in Hin as (_ & Hne & _). simpl.
    destruct (last (of_id id' es)) as [d|] eqn:E; [by eapply of_id_keys|]. by apply last_None in E.
  - intros id d Hl. apply last_Some in Hl as [l Hl]. exists (MkWalDocument id (replicate (length (l ++ [d])) ActionTypeUpdate) d).
    split; [|done]. rewrite Hm, Hl, merged_doc_snoc. by rewrite length_app, Nat.add_1_r, replicate_S_end.
Qed.

Lemma merged_keys docs es : merged docs es →
  docs = ∅ ∧ (range_shards docs).*1 = [] ∨ is_Some (docs !! ShardIDNeedUpdate) ∧ (range_shards docs).*1 = [ShardIDNeedUpdate].
Proof.
  intros [Hm _]. pose proof (NoDup_fst_map_to_list docs) as Hn. pose proof (range_shards_perm docs) as Hp.
  assert (∀ k, k ∈ (range_shards docs).*1 → k = ShardIDNeedUpdate ∧ is_Some (docs !! ShardIDNeedUpdate)) as Hk.
  { intros k. rewrite Hp. intros ([k' x] & -> & Hin%elem_of_map_to_list)%list_elem_of_fmap. simpl.
    destruct (decide (k' = ShardIDNeedUpdate)) as [->|Hne]; [split; [done|by eexists]|]. by rewrite Hm in Hin. }
  rewrite <- Hp in Hn. destruct (range_shards docs).*1 as [|k l] eqn:E.
  - left. split; [|done]. apply fmap_nil_inv in E. rewrite E in Hp. symmetry in Hp. apply Permutation_nil_r in Hp.
    by apply map_to_list_empty_iff.
  - right. destruct (Hk k) as [-> HS]; [by left|]. split; [done|]. destruct l as [|k' l]; [done|].
    apply NoDup_cons in Hn as [Hn _]. destruct (Hk k') as [-> _]; [by right; left|]. destruct Hn. by left.
Qed.

Lemma WriteTo_spec docs es (s s' : W) r : merged docs es → open s = true → fresh s →
  WriteTo index (OpenWAL index) docs false s = (r, s') →
  framed (id_of <$> es) s s' ∧
  (∀ docs', r = Ok docs' → merged docs' [] ∧ ∀ id d, last (of_id id es) = Some d → exactly s' id (Some d)).
Proof.
  intros Hm Ho Hf H. unfold WriteTo in H.
  destruct (merged_keys _ _ Hm) as [[-> E]|[[ds Hds] E]]; rewrite E in H; simpl in H.
  - injection H as <- <-. split; [done|]. intros docs' [= <-]. split; [by eapply merged_Reset|].
    destruct Hm as [_ Hm]. intros id d Hl. specialize (Hm id). rewrite lookup_empty in Hm. simpl in Hm. rewrite lookup_empty in Hm.
    by destruct (of_id id es).
  - destruct (merged_shard _ _ _ Hm Hds) as (Hu & Hsub & Hlast).
    assert (∀ (s2 : W) x, (WriteToShard index (OpenWAL index) docs ShardIDNeedUpdate;; mret ()) s = (x, s2) →
      framed (id_of <$> es) s s2 ∧ (is_ok x = true → ∀ id d, last (of_id id es) = Some d → exactly s2 id (Some d))) as Hw.
    { intros s2 x H1. assert (∃ y, WriteToShard index (OpenWAL index) docs ShardIDNeedUpdate s = (y, s2) ∧ is_ok y = is_ok x)
        as (y & Hy & Hxy).
      { apply bind_inv in H1 as [(e & H1 & ->)|([] & s3 & H1 & [= <- <-])]; eauto. }
      eapply WriteToShard_spec in Hy as [Hfr Hok]; try done. split; [by eapply framed_mono|].
      intros Hx id d Hl. rewrite <- Hxy in Hx. apply Hlast in Hl as (z & Hz & <-). by apply Hok. }
    apply bind_inv in H as [(e & H & ->)|([] & s1 & H & [= <- <-])].
    + apply Hw in H as [Hfr _]. by split.
    + apply Hw in H as [Hfr Hok]. split; [done|]. intros docs' [= <-]. split; [by eapply merged_Reset|]. by apply Hok.
Qed.
(** ** Commits *)

(** The entries after the first [c], and those of them up to [m]. *)
Definition after (s : W) (c : nat) : list vdoc := omap id (drop c (history (entries s))).
Definition pending (s : W) (c m : nat) : list vdoc := omap id (drop c (take m (history (entries s)))).
#[local] Abbreviation len s := (length (history (entries s))).

(** What the write record says: the entries up to [c] are in the engine. *)
Definition commit (m : Z → option bytes) (c : nat) : Prop :=
  match m RedoActionWrite with
  | None => c = 0%nat
  | Some v => ∃ a, parseRedoLog v = Ok (a, Z.of_nat c)
  end.

(** The batch that was begun last does not start past the next entry. *)
Definition begun (m : Z → option bytes) (c : nat) : Prop :=
  ∀ v a b, m RedoActionRead = Some v → parseRedoLog v = Ok (a, b) → 1 ≤ a ≤ Z.of_nat c + 1.
Lemma records_eq m m' c : (∀ k, m' k = m k) → commit m c → begun m c → commit m' c ∧ begun m' c.
Proof using Type. intros E Hc Hb. unfold commit, begun in *. rewrite (E RedoActionWrite), (E RedoActionRead). done. Qed.
(** What the records in the file commit, which is what counts after a restart: the
    entries that follow are still in the log. *)
Definition on_file (s : W) (c : nat) : Prop :=
  commit (saved (redolog s)) c ∧ begun (saved (redolog s)) c ∧ front (entries s) ≤ Z.of_nat c + 1.

(** A document that has no entry after the first [c] is as its last entry says. *)
Definition sound (s : W) (c : nat) : Prop :=
  ∀ id, of_id id (after s c) = [] → exactly s id (last (of_id id (after s 0))).

Record sane (s : W) : Prop := {
  sn_redo : redo_ok (redolog s);
  sn_updates : all_updates (history (entries s));
  sn_fresh : fresh s;
}.
Record running (s : W) (c : nat) : Prop := {
  rn_sane : sane s;
  rn_wal : wal s = true;
  rn_open : open s = true;
  rn_commit : commit (memory (redolog s)) c;
  rn_len : (c ≤ len s)%nat;
  rn_sound : sound s c;
  rn_begun : begun (memory (redolog s)) c;
  rn_saved : ∃ c', on_file s c' ∧ (c' ≤ c)%nat;
}.
Record durable (s : W) : Prop := {
  du_sane : sane s;
  du_saved : ∃ c, on_file s c ∧ (c ≤ len s)%nat ∧ sound s c;
}.

Lemma of_id_nil id es : of_id id es = [] ↔ id ∉ id_of <$> es.
Proof using Type.
  unfold of_id. rewrite list_elem_of_fmap. split.
  - intros H (d & -> & Hd). assert (d ∈ filter (λ x, id_of x = id_of d) es) as Hx by (by apply list_elem_of_filter).
    rewrite H in Hx. by apply elem_of_nil in Hx.
  - intros H. apply filter_none. apply Forall_forall. intros d Hd E. apply H. exists d. by rewrite E.
Qed.

Lemma of_id_app id es es' : of_id id (es ++ es') = of_id id es ++ of_id id es'.
Proof using Type. apply filter_app. Qed.

Lemma after_split s c m : (c ≤ m)%nat → after s c = pending s c m ++ after s m.
Proof.
  intros Hc. unfold after, pending. rewrite <- omap_app. f_equal.
  rewrite <- (take_drop m (history (entries s))) at 1. rewrite drop_app. f_equal.
  rewrite length_take. destruct (decide (m ≤ len s)%nat).
  - by replace (c - m `min` len s)%nat with 0%nat by lia.
  - by rewrite (drop_ge _ m), drop_nil by lia.
Qed.

Lemma sound_antitone s c c' : (c' ≤ c)%nat → sound s c → sound s c'.
Proof.
  intros Hc H id Hid. apply H. rewrite (after_split s c' c), of_id_app in Hid by done.
  by apply app_eq_nil in Hid as [_ ?].
Qed.

Lemma running_durable s c : running s c → durable s.
Proof.
  intros [Hsn Hwal Hop Hc Hl Hs Hb (c' & Hc' & Hle)]. split; [done|]. exists c'. split_and!; [done|lia|].
  by eapply sound_antitone.
Qed.

Lemma commit_fun m c c' : commit m c → commit m c' → c = c'.
Proof using Type.
  unfold commit. destruct (m RedoActionWrite); [|congruence]. intros (a & H) (a' & H'). rewrite H in H'. simplify_eq. lia.
Qed.

(** Documents after the first [c] entries may change. *)
Lemma running_framed s s' c ids : running s c → framed ids s s' → ids ⊆ id_of <$> after s c →
  running s' c ∧ history (entries s') = history (entries s).
Proof.
  intros [[Hr Hu Hf] Hwal Hop Hc Hl Hs Hb Hsv] Hfr Hids. destruct (Hfr Hop) as [[B1 B2 B3 B4 B5 B6] _].
  split; [|done]. split; [|congruence|congruence|congruence|by rewrite B2| |by rewrite B1|unfold on_file; by rewrite B1, B6].
  - split; [congruence|by rewrite B2|by eapply framed_fresh].
  - unfold sound, after. rewrite B2. intros id Hid. eapply framed_exactly; [done|done| |by apply Hs].
    apply of_id_nil in Hid. unfold after in Hids. set_solver.
Qed.

Lemma running_calm s s' c : running s c → calm s s' → running s' c ∧ history (entries s') = history (entries s).
Proof. intros Hr Hq. eapply (running_framed _ _ _ []); [done|by apply calm_framed|set_solver]. Qed.

Lemma on_file_quiet s s' c : quiet s s' → on_file s c → on_file s' c.
Proof using Type. intros Hq. unfold on_file. by rewrite (q_redo _ _ Hq), (q_front _ _ Hq). Qed.

Lemma sound_written s s' c m : sound s c → open s = true → (c ≤ m)%nat → framed (id_of <$> pending s c m) s s' →
  (∀ id d, last (of_id id (pending s c m)) = Some d → exactly s' id (Some d)) → sound s' m.
Proof.
  intros Hs Ho Hc Hfr Hd. destruct (Hfr Ho) as [B _]. unfold sound, after. rewrite (bt_log _ _ B).
  change (omap id (drop m (history (entries s)))) with (after s m).
  change (omap id (drop 0 (history (entries s)))) with (after s 0). intros id Hid.
  rewrite (after_split s 0 c), (after_split s c m), !of_id_app, Hid, app_nil_r, last_app by lia.
  destruct (last (of_id id (pending s c m))) as [d|] eqn:E; [by apply Hd|].
  apply last_None in E. assert (of_id id (after s c) = []) as Hn by (by rewrite (after_split s c m), of_id_app, E, Hid).
  eapply framed_exactly; [done|done|by apply of_id_nil|]. specialize (Hs id Hn).
  rewrite (after_split s 0 c), of_id_app, Hn, app_nil_r in Hs by lia. done.
Qed.
(** ** Consuming the log *)

Lemma history_u64 (s : W) : Z.of_nat (len s) < 2 ^ 64 - MaxBatchSize.
Proof. apply history_bound. Qed.

Lemma write_redo k c m start e (s s' : W) r : running s c →
  k = RedoActionRead ∧ m = c ∧ start = Z.of_nat c + 1 ∨
  k = RedoActionWrite ∧ e = Z.of_nat m ∧ (c ≤ m ≤ len s)%nat ∧ sound s m →
  is_u64 start → is_u64 e → writeRedoLog k start e s = (r, s') →
  running s' m ∧ history (entries s') = history (entries s) ∧ (is_ok r = true → on_file s' m).
Proof.
  intros [[Hr Hu Hf] Hwal Hop Hc Hl Hs Hb Hsv] Hk Hst He H.
  unfold writeRedoLog, on_redo, zoom in H.
  destruct (redo_Write k (Sprintf_range start e) (redolog s)) as [x l] eqn:E. injection H as <- <-.
  destruct (redo_record_fits start e Hst He) as [Hfit Hparse].
  assert (is_u64 k) as Hk64 by (destruct Hk as [[-> _]|[-> _]]; done).
  apply redo_Write_law in E as (Hr' & Hmem & Hsav); [|done..].
  assert (c ≤ m ≤ len s)%nat as Hm by (destruct Hk as [(_ & -> & _)|(_ & _ & ? & _)]; lia).
  assert (commit (put k (Sprintf_range start e) (memory (redolog s))) m ∧
          begun (put k (Sprintf_range start e) (memory (redolog s))) m) as [Hcm Hbm].
  { unfold commit, begun, put. destruct Hk as [(-> & -> & ->)|(-> & -> & _)].
    - split; [done|]. intros v a b. simpl. intros [= <-]. rewrite Hparse. intros [= <- <-]. lia.
    - split; [simpl; by exists start|]. intros v a b. simpl. intros Hv Hp. specialize (Hb v a b Hv Hp). lia. }
  assert (sound s m) as Hsm by (destruct Hk as [(_ & -> & _)|(_ & _ & _ & ?)]; done).
  destruct Hsv as (c' & (Hc' & Hb' & Hfr) & Hcc).
  assert ((∀ k', saved l k' = put k (Sprintf_range start e) (memory (redolog s)) k') →
    on_file (MkShard (open s) (wal s) (listed s) l (entries s) (writers s) (seconds s) (totals s) (rt s) (engine s)) m) as Hnew.
  { intros Hsav'. destruct (records_eq _ _ m Hsav' Hcm Hbm). unfold on_file. simpl. split_and!; [done|done|lia]. }
  destruct (records_eq _ _ m Hmem Hcm Hbm) as [Hcm' Hbm'].
  split_and!; [|done|by destruct Hsav as [[_ ->]|?]; [|intros _; apply Hnew]].
  split; simpl; try done; [lia|].
  destruct Hsav as [[Hsav _]|Hsav]; [|by exists m; split; [apply Hnew|]].
  destruct (records_eq _ _ c' Hsav Hc' Hb'). exists c'. by split; [|lia].
Qed.

Lemma flush_spec c m docs (s s' : W) r : running s c → merged docs (pending s c m) → (c ≤ m ≤ len s)%nat →
  flush index docs (Z.of_nat c + 1) (Z.of_nat m) s = (r, s') →
  history (entries s') = history (entries s) ∧
  ∃ c', running s' c' ∧ (c ≤ c' ≤ m)%nat ∧ (∀ docs', r = Ok docs' → c' = m ∧ on_file s' m ∧ merged docs' []).
Proof.
  intros Hrun Hm Hcm H. pose proof (history_u64 s) as Hb. unfold MaxBatchSize in Hb. unfold flush in H.
  assert (is_u64 (Z.of_nat c + 1) ∧ is_u64 (Z.of_nat m)) as [H1 H2] by (unfold is_u64; lia).
  assert (∀ (s1 : W) x, writeRedoLog RedoActionRead (Z.of_nat c + 1) (Z.of_nat m) s = (x, s1) →
    running s1 c ∧ history (entries s1) = history (entries s)) as Hread.
  { intros s1 x Hx. eapply write_redo in Hx as (? & ? & _); [done|exact Hrun|by left|done..]. }
  apply bind_inv in H as [(e & H & ->)|([] & s1 & Hw & H)].
  { apply Hread in H as [? ?]. split; [done|]. exists c. split_and!; [done|lia|lia|done]. }
  apply Hread in Hw as [Hrun1 Hh1]. clear Hread Hrun.
  assert (pending s c m = pending s1 c m) as Hp by (unfold pending; by rewrite Hh1). rewrite Hp in Hm.
  assert (id_of <$> pending s1 c m ⊆ id_of <$> after s1 c) as Hids.
  { rewrite (after_split s1 c m), fmap_app by lia. set_solver. }
  apply bind_inv in H as [(e & H & ->)|(docs1 & s2 & Hw & H)].
  { eapply WriteTo_spec in H as [Hfr _]; [|done|apply Hrun1..].
    eapply running_framed in Hfr as [? Hh]; [|done..]. split; [congruence|]. exists c. split_and!; [done|lia|lia|done]. }
  eapply WriteTo_spec in Hw as [Hfr Hok]; [|done|apply Hrun1..].
  destruct (Hok _ eq_refl) as [Hm' Hex].
  assert (sound s2 m) as Hsm by (eapply sound_written; [apply Hrun1|apply Hrun1|lia|exact Hfr|exact Hex]).
  eapply running_framed in Hfr as [Hrun2 Hh2]; [|done..].
  assert (∀ (s3 : W) x, writeRedoLog RedoActionWrite (Z.of_nat c + 1) (Z.of_nat m) s2 = (x, s3) →
    running s3 m ∧ history (entries s3) = history (entries s2) ∧ (is_ok x = true → on_file s3 m)) as Hwrite.
  { intros s3 x Hx. eapply write_redo in Hx; [exact Hx|exact Hrun2| |done..]. right. rewrite Hh2, Hh1. split_and!; [done|done|lia|lia|done]. }
  apply bind_inv in H as [(e & H & ->)|([] & s3 & Hw & [= <- <-])].
  - apply Hwrite in H as (? & ? & _). split; [congruence|]. exists m. split_and!; [done|lia|lia|done].
  - apply Hwrite in Hw as (? & ? & Hof). split; [congruence|]. exists m. split_and!; [done|lia|lia|].
    intros docs' [= <-]. split_and!; [done|by apply Hof|done].
Qed.

Lemma pending_next s c m d : (c ≤ m)%nat → history (entries s) !! m = Some (Some d) →
  pending s c (Datatypes.S m) = pending s c m ++ [d].
Proof.
  intros Hc H. unfold pending. rewrite (take_S_r _ _ _ H), drop_app_le, omap_app.
  - done.
  - rewrite length_take. apply lookup_lt_Some in H. lia.
Qed.

Lemma read_document_spec c i docs es (s s' : W) r : running s c → merged docs es →
  read_document i docs s = (r, s') →
  quiet s s' ∧
  (∀ docs', r = Ok docs' → ∃ d, history (entries s) !! Z.to_nat (i - 1) = Some (Some d) ∧ merged docs' (es ++ [d])).
Proof.
  intros Hrun Hm H. unfold read_document in H.
  assert (∀ (s1 : W) x, on_wal (wal_Read i) s = (x, s1) →
    quiet s s1 ∧ ∀ e, x = Ok e → history (entries s) !! Z.to_nat (i - 1) = Some e) as Hrd.
  { intros s1 x Hx. unfold on_wal, zoom in Hx. destruct (wal_Read _ (entries s)) as [y w] eqn:E. injection Hx as <- <-.
    apply wal_Read_law in E as [[Hh Hfr] He]. split; [by split|].
    intros e Hy. by destruct (He e Hy) as (_ & _ & ?). }
  apply bind_inv in H as [(e & H & ->)|(e & s1 & Hw & H)].
  { by apply Hrd in H as (? & _). }
  apply Hrd in Hw as (Hq1 & He). specialize (He e eq_refl).
  destruct (proj1 (Forall_lookup _ _) (sn_updates _ (rn_sane _ _ Hrun)) _ _ He) as (d & id & -> & Hd).
  apply bind_inv in H as [(e & [=] & _)|(d' & s2 & [= <- <-] & H)]. injection H as <- <-.
  split; [done|]. intros docs' Ha. exists d. split; [done|]. by eapply merged_add.
Qed.
Lemma running_quiet s s' c : running s c → quiet s s' → running s' c ∧ history (entries s') = history (entries s).
Proof. intros Hr Hq. by eapply running_calm; [|intros _]. Qed.

Lemma consume_loop_spec n : ∀ c m docs (s s' : W) r, running s c → merged docs (pending s c m) →
  (c ≤ m)%nat → (m + n ≤ len s)%nat →
  consume_loop index n (Z.of_nat m + 1) (Z.of_nat c + 1) docs s = (r, s') →
  history (entries s') = history (entries s) ∧
  ∃ c', running s' c' ∧ (c ≤ c' ≤ m + n)%nat ∧
    (∀ start docs', r = Ok (start, docs') → start = Z.of_nat c' + 1 ∧ merged docs' (pending s' c' (m + n)) ∧
      (c' = c ∧ (on_file s c → on_file s' c) ∨ on_file s' c')).
Proof.
  induction n as [|n IH]; intros c m docs s s' r Hrun Hm Hcm Hlen H; simpl in H.
  { injection H as <- <-. split; [done|]. exists c. split_and!; [done|lia|lia|]. intros start docs' [= <- <-].
    rewrite Nat.add_0_r. by split_and!; auto. }
  apply bind_inv in H as [(e & H & ->)|(docs1 & s1 & H1 & H)].
  { eapply read_document_spec in H as [Hq _]; [|done..]. destruct (running_quiet _ _ _ Hrun Hq). split; [done|].
    exists c. split_and!; [done|lia|lia|done]. }
  eapply read_document_spec in H1 as (Hq1 & Hr1); [|done..]. destruct (running_quiet _ _ _ Hrun Hq1) as [Hrun1 Hh1].
  destruct (Hr1 _ eq_refl) as (d & Hd & Hm1). replace (Z.to_nat (Z.of_nat m + 1 - 1)) with m in Hd by lia. rewrite <- (pending_next s c m d) in Hm1 by done.
  assert (pending s1 c (Datatypes.S m) = pending s c (Datatypes.S m)) as Hp by (unfold pending; by rewrite Hh1).
  rewrite <- Hp in Hm1. rewrite <- Nat.add_succ_comm in Hlen |- *.
  replace (Z.of_nat m + 1 + 1) with (Z.of_nat (Datatypes.S m) + 1) in H by lia.
  replace (Z.of_nat m + 1) with (Z.of_nat (Datatypes.S m)) in H by lia.
  destruct (BatchSize <=? MaxShardLen docs1).
  - apply bind_inv in H as [(e & H & ->)|(docs2 & s2 & H2 & H)].
    + eapply flush_spec in H as (? & c' & ? & ? & _); [|done|done|rewrite Hh1; lia]. split; [congruence|]. exists c'.
      split_and!; [done|lia|lia|done].
    + eapply flush_spec in H2 as (Hh2 & c' & Hrun2 & Hc' & Hok); [|done|done|rewrite Hh1; lia].
      destruct (Hok _ eq_refl) as (-> & Hof & Hm2).
      assert (pending s2 (Datatypes.S m) (Datatypes.S m) = []) as Hnil.
      { unfold pending. by rewrite drop_ge by (rewrite length_take; lia). }
      rewrite <- Hnil in Hm2. eapply IH in H as (Hh3 & c' & ? & ? & Hr3); [|done|done|lia|rewrite Hh2, Hh1; lia].
      split; [congruence|]. exists c'. split_and!; [done|lia|lia|].
      intros start docs' E. destruct (Hr3 _ _ E) as (? & ? & [[-> ?]|?]); split_and!; auto.
  - eapply IH in H as (Hh3 & c' & ? & ? & Hr3); [|done|done|lia|rewrite Hh1; lia].
    split; [congruence|]. exists c'. split_and!; [done|lia|lia|].
    intros start docs' E. destruct (Hr3 _ _ E) as (? & ? & [[-> Hof]|?]); split_and!; auto.
    left. split; [done|]. intros Hof0. apply Hof. by eapply on_file_quiet.
Qed.
Lemma or_return_inv {A} b (c : M W A) k (s s' : W) r : or_return b c k s = (r, s') →
  ∃ x s1, c s = (x, s1) ∧
    match x with Ok a => k a s1 = (r, s') | Err _ => s' = s1 ∧ (r = Ok b ∨ is_ok r = false) end.
Proof using Type.
  unfold or_return. intros H. apply try_inv in H as (x & s1 & Hc & H). exists x, s1. split; [done|].
  destruct x as [a|e]; [done|]. destruct (is_panic e); injection H as <- <-; auto.
Qed.

Lemma quiet_on_wal {A} (c : M WT A) (s s' : W) r :
  (∀ w x w', c w = (x, w') → same_log w w') → on_wal c s = (r, s') → quiet s s'.
Proof.
  intros Hc H. unfold on_wal, zoom in H. destruct (c (entries s)) as [x w] eqn:E. injection H as <- <-.
  by split; try done; eapply Hc.
Qed.
Lemma calm_on_wal {A} (c : M WT A) (s s' : W) r :
  (∀ w x w', c w = (x, w') → same_log w w') → on_wal c s = (r, s') → calm s s'.
Proof. intros Hc H _. by eapply quiet_on_wal. Qed.

Lemma last_commit c (s s' : W) r : running s c →
  (r ← try (readRedoLog RedoActionWrite);
   match r with
   | Ok (_, minID) => mret minID
   | Err e => if is_not_found e then mret 0 else throw e
   end) s = (r, s') → r = Ok (Z.of_nat c) ∧ s' = s.
Proof.
  intros Hrun H. apply try_inv in H as (x & s1 & Hx & H). unfold readRedoLog in Hx.
  unfold mbind, M_bind, get_state, lift in Hx. rewrite (redo_Read_law _ _ (sn_redo _ (rn_sane _ _ Hrun))) in Hx.
  pose proof (rn_commit _ _ Hrun) as Hc. unfold commit in Hc.
  destruct (memory (redolog s) RedoActionWrite) as [v|].
  - destruct Hc as (a & Hp). rewrite Hp in Hx. injection Hx as <- <-. by injection H as <- <-.
  - subst c. injection Hx as <- <-. simpl in H. by injection H as <- <-.
Qed.

(** The entries up to [m] are read and written. *)
Lemma consume_batch c m (s s' : W) r : running s c → (c < m ≤ len s)%nat →
  (x ← consume_loop index (Z.to_nat (Z.of_nat m - Z.of_nat c)) (Z.of_nat c + 1) (Z.of_nat c + 1) ∅;
   let '(startID, docs) := (x : Z * walMergeDocs) in
   if 0 <? MaxShardLen docs then flush index docs startID (Z.of_nat m);; mret () else mret ()) s = (r, s') →
  history (entries s') = history (entries s) ∧
  ∃ c', running s' c' ∧ (c ≤ c')%nat ∧ (is_ok r = true → c' = m ∧ on_file s' m).
Proof.
  intros Hrun Hm H. replace (Z.to_nat (Z.of_nat m - Z.of_nat c)) with (m - c)%nat in H by lia.
  assert (merged ∅ (pending s c c)) as Hm0.
  { unfold pending. rewrite drop_ge by (rewrite length_take; lia). apply merged_empty. }
  apply bind_inv in H as [(e & H & ->)|([start docs] & s1 & H1 & H)].
  { eapply consume_loop_spec in H as (? & c' & ? & ? & _); [|done|done|done|lia].
    split; [congruence|]. exists c'. split_and!; [done|lia|done]. }
  eapply consume_loop_spec in H1 as (Hh1 & c' & Hrun1 & Hc1 & Hok1); [|done|done|done|lia].
  destruct (Hok1 _ _ eq_refl) as (-> & Hm1 & Hof1). replace (c + (m - c))%nat with m in * by lia.
  destruct (0 <? MaxShardLen docs) eqn:E0.
  - assert (∀ s2 y, flush index docs (Z.of_nat c' + 1) (Z.of_nat m) s1 = (y, s2) →
      history (entries s2) = history (entries s) ∧
      ∃ c', running s2 c' ∧ (c ≤ c')%nat ∧ (is_ok y = true → c' = m ∧ on_file s2 m)) as Hfl.
    { intros s2 y Hy. eapply flush_spec in Hy as (Hh2 & c'' & ? & ? & Hok2); [|done|done|rewrite Hh1; lia].
      split; [congruence|]. exists c''. split_and!; [done|lia|]. destruct y as [docs'|]; [|done]. intros _.
      by destruct (Hok2 _ eq_refl) as (? & ? & _). }
    apply bind_inv in H as [(e & H & ->)|(docs' & s2 & H & [= <- <-])]; by apply Hfl in H.
  - injection H as <- <-. split; [congruence|]. exists c'. split_and!; [done|lia|]. intros _.
    apply Z.ltb_ge in E0. destruct (decide (c' = m)) as [->|Hne]; [split; [done|]; destruct Hof1 as [[-> _]|?]; [lia|done]|].
    assert (pending s1 c' m ≠ []) as Hpend; [|pose proof (merged_len _ _ Hm1 Hpend); lia].
    destruct (lookup_lt_is_Some_2 (take m (history (entries s1))) c') as [e He]; [rewrite length_take, Hh1; lia|].
    pose proof (proj1 (lookup_take_Some _ _ _ _) He) as [He' _].
    destruct (proj1 (Forall_lookup _ _) (sn_updates _ (rn_sane _ _ Hrun1)) _ _ He') as (d & id & -> & _).
    unfold pending. by rewrite (drop_S _ _ _ He).
Qed.

(** Truncating up to what the file commits. *)
Lemma truncated c i (s s' : W) r : running s c → on_file s c → i ≤ Z.of_nat c + 1 →
  on_wal (TruncateFront i) s = (r, s') → running s' c ∧ history (entries s') = history (entries s).
Proof.
  intros [[Hr Hu Hf] Hwal Hop Hc Hl Hs Hb _] (Hc' & Hb' & Hfr) Hi H. unfold on_wal, zoom in H.
  destruct (TruncateFront i (entries s)) as [x w] eqn:E. injection H as <- <-. apply TruncateFront_law in E as [Hh Hw].
  split; [|done]. split; simpl; try done; [split; simpl; try done|by rewrite Hh| |].
  - by rewrite Hh.
  - unfold sound, after in *. simpl. by rewrite Hh.
  - exists c. split; [|done]. unfold on_file. simpl. split_and!; [done|done|lia].
Qed.

(** What follows the batches; its failure is not that of the round. *)
Lemma consume_end c (s s' : W) r : running s c → on_file s c →
  or_return true (on_wal (TruncateFront (Z.of_nat c))) (λ _,
   or_return true (CheckShards index) (λ _, UpdateMetadataByShard;; mret true)) s = (r, s') →
  running s' c ∧ history (entries s') = history (entries s).
Proof.
  intros Hrun Hof H. apply or_return_inv in H as (x & s1 & H1 & H). apply (truncated c) in H1 as [Hrun1 Hh1]; [|done|done|lia].
  assert (calm s1 s') as Hc; [|by destruct (running_calm s1 s' c) as [? ?]; [| |split; [|congruence]]].
  clear -H RedoLogLaws0 WALLaws0 EngineLaws0. destruct x as [[]|e]; [|by destruct H as [-> _]].
  apply or_return_inv in H as (x & s2 & H2 & H). apply calm_CheckShards in H2. etrans; [exact H2|].
  destruct x as [[]|e]; [|by destruct H as [-> _]].
  assert (keeps calm (UpdateMetadataByShard;; mret true : M W bool)) as Hk
    by (apply keeps_bind; [apply _|apply calm_metadata|intros []; apply keeps_ret, _]).
  by eapply Hk.
Qed.

(** Where a round stops. *)
Definition round_end (s : W) (c : nat) : nat := Nat.min (len s) (c + Z.to_nat MaxBatchSize).
Lemma round_end_code (s : W) c : (c ≤ len s)%nat →
  (if MaxBatchSize <? u64 (Z.of_nat (len s) - Z.of_nat c) then u64 (Z.of_nat c + MaxBatchSize) else Z.of_nat (len s)) =
  Z.of_nat (round_end s c).
Proof.
  intros Hc. pose proof (history_u64 s) as Hb. unfold round_end, MaxBatchSize in *.
  rewrite u64_small by (unfold is_u64; lia). destruct (10240 <? _) eqn:E; [apply Z.ltb_lt in E|apply Z.ltb_ge in E; lia].
  rewrite u64_small by (unfold is_u64; lia). lia.
Qed.

Lemma ConsumeWAL_spec c (s s' : W) r : running s c → ConsumeWAL index s = (r, s') →
  history (entries s') = history (entries s) ∧
  ∃ c', running s' c' ∧ (c ≤ c')%nat ∧ (r = Ok true → (c < len s)%nat ∧ c' = round_end s c).
Proof.
  intros Hrun H. unfold ConsumeWAL in H. apply bind_inv in H as [(e & [=] & _)|(s0 & s1 & [= <- <-] & H)].
  rewrite (rn_wal _ _ Hrun) in H. cbn [negb] in H.
  assert (∀ (s1 : W), running s1 c → history (entries s1) = history (entries s) → r = Ok false ∨ is_ok r = false →
    history (entries s1) = history (entries s) ∧ ∃ c', running s1 c' ∧ (c ≤ c')%nat ∧
    (r = Ok true → (c < len s)%nat ∧ c' = round_end s c)) as Hend
    by (intros s1 ?? Hr; split; [done|]; exists c; split_and!; [done|done|intros ->; by destruct Hr]).
  apply ignore_inv in H as (x & s1 & H1 & H).
  destruct (running_calm s s1 c) as [Hrun1 Hh1]; [done|eapply calm_on_wal; [|exact H1]; intros; by eapply wal_Sync_law|].
  clear H1. apply or_return_inv in H as (x1 & s2 & H1 & H).
  assert (∀ n, x1 = Ok n → n = Z.of_nat (len s)) as Hlast.
  { intros n ->. unfold on_wal, zoom in H1. destruct (LastIndex (entries s1)) as [y w] eqn:E. injection H1 as -> <-.
    apply LastIndex_law in E as [_ E]. rewrite (E n eq_refl), Hh1. done. }
  destruct (running_calm s1 s2 c) as [Hrun2 Hh2]; [done|eapply calm_on_wal; [|exact H1]; intros; by eapply LastIndex_law|].
  assert (history (entries s2) = history (entries s)) as Hh by congruence.
  destruct x1 as [n|e]; [|destruct H as [-> H]; by apply Hend].
  rewrite (Hlast n eq_refl) in H. clear Hlast.
  apply or_return_inv in H as (x2 & s3 & H2 & H). apply (last_commit c) in H2 as [-> ->]; [|done].
  destruct (Z.of_nat c =? Z.of_nat (len s)) eqn:Ez; [injection H as <- <-; apply Hend; auto|].
  pose proof (rn_len _ _ Hrun) as Hcl. apply Z.eqb_neq in Ez. rewrite round_end_code in H by done.
  assert (c < round_end s c ≤ len s)%nat as Hm by (unfold round_end, MaxBatchSize; lia).
  apply or_return_inv in H as (x3 & s3 & H3 & H).
  eapply consume_batch in H3 as (Hh3 & c' & Hrun3 & Hc' & Hok3); [|done|by rewrite Hh].
  destruct x3 as [[]|e].
  - destruct (Hok3 eq_refl) as [-> Hof]. apply consume_end in H as [? ?]; [|done..]. split; [congruence|].
    exists (round_end s c). split_and!; [done|done|]. intros _. split; [lia|done].
  - destruct H as [-> H]. split; [congruence|]. exists c'. split_and!; [done|done|]. intros ->. by destruct H.
Qed.

(** ** Opening, and writing documents *)

Lemma readRedoLog_state k (s s' : W) r : readRedoLog k s = (r, s') → s' = s.
Proof using Type. unfold readRedoLog, mbind, M_bind, get_state, lift. destruct (redo_Read _ _); by intros [= _ <-]. Qed.
Lemma readRedoLog_value k (s s' : W) a b : redo_ok (redolog s) → readRedoLog k s = (Ok (a, b), s') →
  ∃ v, memory (redolog s) k = Some v ∧ parseRedoLog v = Ok (a, b).
Proof.
  intros Hr H. unfold readRedoLog, mbind, M_bind, get_state, lift in H. rewrite (redo_Read_law _ _ Hr) in H.
  destruct (memory (redolog s) k) as [v|]; [|done]. exists v. split; [done|]. by injection H.
Qed.

Lemma read_range_spec c n : ∀ i docs es (s s' : W) r, running s c → merged docs es → read_range n i docs s = (r, s') →
  quiet s s' ∧ (∀ docs', r = Ok docs' → ∃ es', merged docs' es').
Proof.
  induction n as [|n IH]; intros i docs es s s' r Hrun Hm H; simpl in H.
  { injection H as <- <-. split; [done|]. intros docs' [= <-]. eauto. }
  apply bind_inv in H as [(e & H & ->)|(docs1 & s1 & H1 & H)].
  { eapply read_document_spec in H as (? & _); by eauto. }
  eapply read_document_spec in H1 as (Hq1 & Hok1); [|done..].
  destruct (Hok1 _ eq_refl) as (d & _ & Hm1). destruct (running_quiet _ _ _ Hrun Hq1) as [Hrun1 _].
  eapply IH in H as (? & ?); [|done..]. split; [by etrans|done].
Qed.

(** Updates are not undone. *)
Lemma rollback_nothing docs es (s s' : W) r : merged docs es → WriteTo index (mret ()) docs true s = (r, s') → s' = s.
Proof.
  intros Hm H. unfold WriteTo in H. destruct (merged_keys _ _ Hm) as [[_ E]|[[ds Hds] E]]; rewrite E in H; simpl in H.
  - by injection H.
  - unfold WriteToShardRollback in H. rewrite Hds in H. by injection H.
Qed.

Lemma Rollback_spec c (s s' : W) r : running s c → on_file s c → Rollback index s = (r, s') →
  running s' c ∧ history (entries s') = history (entries s).
Proof.
  intros Hrun Hof H. unfold Rollback in H. apply try_inv in H as (x & s1 & H1 & H).
  pose proof (readRedoLog_state _ _ _ _ H1) as ->.
  destruct x as [[readMin readMax]|e]; [|destruct (is_not_found e); by injection H as <- <-].
  apply readRedoLog_value in H1 as (v & Hv & Hp); [|apply Hrun].
  pose proof (rn_begun _ _ Hrun _ _ _ Hv Hp) as Hmin. clear v Hv Hp.
  apply try_inv in H as (y & s1 & H1 & H). apply readRedoLog_state in H1 as ->.
  destruct (match y with Err e => _ | Ok x => _ end) as [[writeMin writeMax]|e]; [|by injection H as <- <-].
  destruct (_ && _); [by injection H as <- <-|].
  apply bind_inv in H as [(e & H & ->)|(docs & s1 & H1 & H)].
  { eapply read_range_spec in H as (Hq & _); [by eapply running_quiet|done|apply merged_empty]. }
  eapply read_range_spec in H1 as (Hq1 & Hok1); [|done|apply merged_empty].
  destruct (running_quiet _ _ _ Hrun Hq1) as [Hrun1 Hh1]. destruct (Hok1 _ eq_refl) as (es & Hm).
  apply bind_inv in H as [(e & H & ->)|(docs' & s2 & H2 & H)]; [eapply rollback_nothing in H as ->; done|].
  eapply rollback_nothing in H2 as ->; [|done]. apply ignore_run in H as (x & H).
  pose proof (history_u64 s) as Hb. pose proof (rn_len _ _ Hrun). unfold MaxBatchSize in Hb.
  rewrite u64_small in H by (unfold is_u64; lia).
  apply (truncated c) in H as [? ?]; [split; [done|congruence]|done|by eapply on_file_quiet|lia].
Qed.

(** What is kept from the start on: the shard is open or closed, and sound. *)
Record held (s : W) : Prop := {
  hd_open : open s = wal s;
  hd_closed : durable s;
  hd_running : wal s = true → ∃ c, running s c;
}.
Lemma running_held s c : running s c → held s.
Proof.
  intros H. split; [by rewrite (rn_open _ _ H), (rn_wal _ _ H)|by eapply running_durable|by exists c].
Qed.

Lemma durable_quiet s s' : durable s → quiet s s' → durable s'.
Proof.
  intros [[Hr Hu Hf] (c & Hc & Hl & Hs)] Hq. pose proof Hq as [Q1 Q2 Q3 Q4 Q5 Q6 Q7]. split.
  - split; [congruence|by rewrite Q2|]. intros j id Hj. rewrite Q6. apply Hf. lia.
  - exists c. split_and!; [by eapply on_file_quiet|by rewrite Q2|]. unfold sound, after. rewrite Q2. intros id Hid.
    specialize (Hs id Hid). unfold after in Hs. destruct (last _) as [d|]; simpl in *; [|intros j; by rewrite Q6].
    destruct Hs as (k & b & Hk & Hb & E & Hj). exists k, b. setoid_rewrite Q6. split_and!; [lia..|done|done|done].
Qed.

Lemma open_spec (s s' : W) r : held s → OpenWAL index s = (r, s') →
  held s' ∧ history (entries s') = history (entries s) ∧ (is_ok r = true → wal s' = true).
Proof.
  intros Hh H. pose proof Hh as [Ho Hd Hr]. unfold OpenWAL in H. apply bind_inv in H as [(e & [=] & _)|(s0 & s1 & [= <- <-] & H)].
  destruct (open s) eqn:Eo; [injection H as <- <-; by split_and!|]. rewrite <- Ho in H.
  apply try_inv in H as (x & s1 & H1 & H).
  assert (quiet s s1) as Hq by (eapply quiet_on_wal; [|exact H1]; intros; by eapply wal_Open_law). clear H1.
  pose proof (durable_quiet _ _ Hd Hq) as Hd1. pose proof (q_open _ _ Hq) as Eo1. pose proof (q_wal _ _ Hq) as Ew1.
  pose proof (q_log _ _ Hq) as Hh1.
  assert (∀ s2, open s2 = open s1 → wal s2 = wal s1 → durable s2 → held s2) as Hclosed.
  { intros s2 E1 E2 Hd2. split; [congruence|done|]. congruence. }
  destruct x as [[]|e]; [|injection H as <- <-; split_and!; [by apply Hclosed|done|done]].
  apply try_inv in H as (y & s2 & H2 & H). unfold on_redo, zoom in H2.
  destruct (redo_Open (redolog s1)) as [z l] eqn:E. injection H2 as <- <-.
  destruct Hd1 as [[Hro Hu Hf] (c & Hc & Hl & Hs)]. apply redo_Open_law in E as (Hro' & Hsv & Hmem); [|done].
  set (s2 := MkShard (open s1) (wal s1) (listed s1) l (entries s1) (writers s1) (seconds s1) (totals s1) (rt s1) (engine s1)) in *.
  destruct Hc as (Hc & Hb & Hfr). destruct (records_eq _ _ c Hsv Hc Hb) as [Hc2 Hb2].
  assert (on_file s2 c) as Hof by done.
  destruct z as [[]|e].
  2:{ injection H as <- <-. split_and!; [|done|done]. apply Hclosed; [done|done|]. split; [by split|]. by exists c. }
  apply bind_inv in H as [(e & [=] & _)|(u & s3 & [= _ <-] & H)].
  set (s3 := MkShard true true _ _ _ _ _ _ _ _) in H.
  assert (running s3 c) as Hrun.
  { destruct (records_eq _ _ c (Hmem eq_refl) Hc Hb). split; try done. by exists c. }
  apply bind_inv in H as [(e & H & ->)|([] & s4 & H4 & H)].
  - apply (Rollback_spec c) in H as [H3 Hh3]; [|done..]. split_and!; [by eapply running_held|by rewrite Hh3|done].
  - apply (Rollback_spec c) in H4 as [H3 Hh3]; [|done..]. injection H as <- <-.
    assert (held (MkShard true true true (redolog s4) (entries s4) (writers s4) (seconds s4) (totals s4) (rt s4) (engine s4)))
      by (eapply (running_held _ c); destruct H3 as [[? ? ?] ? ? ? ? ? ? ?]; by split).
    split_and!; [done|etrans; [exact Hh3|exact Hh1]|done].
Qed.
Lemma CheckDocument_update docID e (r r' : root ST) doc doc' :
  CheckDocument docID true ShardIDNeedUpdate (r, doc) = (Ok e, (r', doc')) → update_of e docID.
Proof.
  intros (x & r1 & flat & h & _ & _ & _ & _ & H)%CheckDocument_inv. destruct (H e eq_refl) as (_ & time & He).
  split_and!; [| |exists (float_of_Z ShardIDNeedUpdate); split; [|by vm_compute]];
    rewrite (Marshal_lookup _ _ _ He), prepare_lookup; done.
Qed.

(** An entry is appended to the log of a shard that is open. *)
Lemma running_entry s s' c d id : running s c → update_of d id → redolog s' = redolog s →
  history (entries s') = history (entries s) ++ [Some d] → front (entries s') = front (entries s) →
  open s' = open s → wal s' = wal s → seconds s' = seconds s → engine s' = engine s → running s' c.
Proof.
  intros [[Hr Hu Hf] Hwal Hop Hc Hl Hs Hb Hsv] Hd E1 E2 E7 E3 E4 E5 E6. split.
  - split; [congruence| |].
    + rewrite E2. apply Forall_app. split; [done|]. apply Forall_singleton. eauto.
    + intros j id'. unfold GetShardNum. rewrite E5, E6. apply Hf.
  - congruence.
  - congruence.
  - by rewrite E1.
  - rewrite E2, length_app. lia.
  - intros id' Hid. unfold after in Hid |- *. rewrite E2, drop_app_le, omap_app, of_id_app in Hid by done.
    apply app_eq_nil in Hid as [Hid1 Hid2]. rewrite E2, drop_app_le, omap_app, of_id_app, Hid2, app_nil_r by lia.
    specialize (Hs id' Hid1). unfold exactly, GetShardNum in *. by rewrite E5, E6.
  - by rewrite E1.
  - unfold on_file. by rewrite E1, E7.
Qed.

Lemma check_and_write_spec docID c (s s' : W) doc doc' r : running s c →
  check_and_write docID true ShardIDNeedUpdate (s, doc) = (r, (s', doc')) →
  running s' c ∧ (history (entries s') = history (entries s) ∧ is_ok r = false ∨
    ∃ d, update_of d docID ∧ history (entries s') = history (entries s) ++ [Some d]).
Proof.
  intros Hrun H. unfold check_and_write in H.
  destruct (CheckDocument _ _ _ _) as [y [x d1]] eqn:E.
  set (s1 := MkShard (open s) (wal s) (listed s) (redolog s) (entries s) (writers s) (seconds s) (totals s) x (engine s)) in *.
  assert (running s1 c) as Hrun1 by (eapply running_calm; [exact Hrun|by intros _]).
  destruct y as [e|e]; [|injection H as <- <- <-; auto].
  apply CheckDocument_update in E. unfold on_wal, zoom in H. destruct (wal_Write e (entries s1)) as [y w] eqn:Ew.
  injection H as <- <- <-. apply wal_Write_law in Ew as [Efr [Ew|[Hy Ew]]].
  - split; [|right; by exists e]. by eapply (running_entry s1).
  - split; [|by left]. eapply running_calm; [exact Hrun1|]. by intros _.
Qed.

Lemma create_update_spec docID (s s' : W) doc doc' r : held s →
  CreateDocument index docID true (s, doc) = (r, (s', doc')) →
  held s' ∧ (history (entries s') = history (entries s) ∧ is_ok r = false ∨
    ∃ d, update_of d docID ∧ history (entries s') = history (entries s) ++ [Some d]).
Proof.
  intros Hh H. unfold CreateDocument in H.
  apply bind_inv in H as [(e & [H _]%on_fst_run & ->)|([] & [s1 d1] & [H1 ->]%on_fst_run & H)].
  - apply open_spec in H as (? & ? & _); [|done]. auto.
  - apply open_spec in H1 as (Hh1 & E & Hw); [|done]. destruct (hd_running _ Hh1) as [c Hc]; [by apply Hw|].
    eapply check_and_write_spec in H as [Hrun Hlog]; [|done]. rewrite E in Hlog. split; [by eapply running_held|done].
Qed.

(** What happens to a shard. *)
Inductive step : W → W → Prop :=
| step_open s r s' : OpenWAL index s = (r, s') → step s s'
| step_create docID s doc r s' doc' : CreateDocument index docID true (s, doc) = (r, (s', doc')) → step s s'
| step_consume s r s' : ConsumeWAL index s = (r, s') → step s s'
| step_crash s st r : length st = length (seconds s) → step s (crash st r s).

(** A shard that was never written to. *)
Record initially (s : W) : Prop := {
  it_closed : open s = false ∧ wal s = false;
  it_redo : redo_ok (redolog s);
  it_saved : saved (redolog s) RedoActionWrite = None;
  it_begun : saved (redolog s) RedoActionRead = None;
  it_log : history (entries s) = [] ∧ front (entries s) ≤ 1;
  it_engine : ∀ j id, cont s j id = [];
}.

Lemma initially_held s : initially s → held s.
Proof.
  intros [[Ho Hw] Hr Hs Hb [Hl Hf] He]. split; [congruence| |congruence]. split.
  - split; [done|by rewrite Hl; constructor|]. by intros j id _.
  - exists 0%nat. split_and!; [split_and!; [unfold commit; by rewrite Hs|by intros v a b; rewrite Hb|done]|lia|]. intros id _. unfold after. rewrite Hl. intros j. apply He.
Qed.

Lemma held_step s s' : held s → step s s' → held s' ∧ ∃ l, history (entries s') = history (entries s) ++ l.
Proof.
  intros Hh Hs. destruct Hs as [s r s' H|docID s doc r s' doc' H|s r s' H|s st r Hlen].
  - apply open_spec in H as (? & -> & _); [|done]. split; [done|]. exists []. by rewrite app_nil_r.
  - apply create_update_spec in H as [? [[-> _]|(d & _ & ->)]]; [| |done]; (split; [done|]); [exists []; by rewrite app_nil_r|eauto].
  - destruct (wal s) eqn:E.
    + destruct (hd_running _ Hh E) as [c Hc]. eapply ConsumeWAL_spec in H as (-> & c' & Hc' & _); [|done].
      split; [by eapply running_held|]. exists []. by rewrite app_nil_r.
    + unfold ConsumeWAL, mbind, M_bind, get_state in H. rewrite E in H. injection H as _ <-. split; [done|].
      exists []. by rewrite app_nil_r.
  - split; [|exists []; by rewrite app_nil_r]. destruct (hd_closed _ Hh) as [[Hr Hu Hf] (c & Hc & Hl & Hs)].
    split; [done| |done]. split; [|exists c; split_and!; [done|done|]].
    + split; [done|done|]. intros j id. unfold GetShardNum. simpl. rewrite Hlen. apply Hf.
    + intros id Hid. specialize (Hs id Hid). unfold exactly, GetShardNum in *. simpl. by rewrite Hlen.
Qed.

Lemma held_steps s s' : held s → rtc step s s' → held s' ∧ ∃ l, history (entries s') = history (entries s) ++ l.
Proof.
  intros Hh H. revert Hh. induction H as [s|s1 s2 s3 H _ IH]; intros Hh; [split; [done|]; exists []; by rewrite app_nil_r|].
  apply held_step in H as [Hh2 (l & E)]; [|done]. destruct (IH Hh2) as [Hh3 (l' & E')]. split; [done|].
  exists (l ++ l'). by rewrite E', E, app_assoc.
Qed.


(** C27: for a shard whose documents are all written with [update]: an entry whose
    writing was reported as done stays in the log, at its place, until it is committed
    by what the redo log has on file: through failures, crashes and restarts, neither
    the rounds that consume the log nor the rollback of a start truncate it before. *)
Theorem entry_kept s0 s s' s'' docID doc doc' : initially s0 → rtc step s0 s →
  CreateDocument index docID true (s, doc) = (Ok (), (s', doc')) → rtc step s' s'' →
  ∃ d, update_of d docID ∧ history (entries s'') !! len s = Some (Some d) ∧
    ∀ c, commit (saved (redolog s'')) c → (c ≤ len s)%nat → front (entries s'') ≤ Z.of_nat (len s) + 1.
Proof.
  intros H0 Hs H Hs'. apply initially_held in H0. apply held_steps in Hs as [Hh _]; [|done].
  apply create_update_spec in H as [Hh' [[_ [=]]|(d & Hd & E)]]; [|done].
  apply held_steps in Hs' as [Hh'' (l & E')]; [|done]. exists d. split_and!; [done| |].
  - rewrite E', E, <- app_assoc. by apply list_lookup_middle.
  - intros c Hc Hle. destruct (hd_closed _ Hh'') as [_ (c' & (Hc' & _ & Hf) & _)].
    rewrite (commit_fun _ _ _ Hc Hc') in Hle. lia.
Qed.

(** Rounds that consume entries. *)
Definition round (s s' : W) : Prop := ConsumeWAL index s = (Ok true, s').

End replay.

(** ** Examples *)

Module ShardDemo.
Import DocumentDemo.

(** A file that is written at once; the flags say which of the next writes fail. *)
#[export] Instance once_file : RedoFile (bytes * list bool) := {|
  ReadAll := λ f, (Ok (f.1, 512%nat), f);
  WriteStart v := λ '(b, fails),
    match fails with
    | true :: fails => (Err (errors_New "input/output error"), (b, fails))
    | _ => (Ok (), (v ++ drop (length v) b, tail fails))
    end;
  FSync := mret ();
  room n := n |}.
#[export] Instance once_file_laws : RedoFileLaws (bytes * list bool).
Proof.
  refine {| content := fst |}; simpl.
  - by intros f r f' [= <- <-].
  - intros v [b [|[] fails]] r f' [= <- <-]; simpl.
    1, 3: by exists (length v); rewrite firstn_all.
    exists 0%nat. split_and!; [lia|by rewrite drop_0|done].
  - by intros f r f' [= <- <-].
Defined.
#[export] Instance once_file_atomic : AtomicFile (bytes * list bool).
Proof. split. intros v [b [|[] fails]] r f' [= <- <-]; simpl; auto. Qed.

(** A log in memory, of at most 1000 entries, and its first number; so many of the next
    reads fail. *)
Abbreviation log_state := (list (option vdoc) * nat * Z)%type.
#[export] Instance mem_wal : WAL log_state := {|
  wal_Open := mret ();
  wal_Sync := mret ();
  LastIndex := λ s, (Ok (Z.of_nat (length (take 1000 s.1.1))), s);
  wal_Read i := λ '(l, n, f),
    match n with
    | Datatypes.S n => (Err (errors_New "log corrupt"), (l, n, f))
    | O => (of_option (errors_New "not found")
              (if (1 <=? i) && (f <=? i) then take 1000 l !! Z.to_nat (i - 1) else None), (l, O, f))
    end;
  wal_Write d := λ '(l, n, f),
    if decide (length l < 1000)%nat then (Ok (), (l ++ [Some d], n, f)) else (Err (errors_New "full"), (l, n, f));
  TruncateFront i := λ '(l, n, f),
    if (f <=? i) && (i <=? Z.of_nat (length l)) then (Ok (), (l, n, i)) else (Err (errors_New "out of range"), (l, n, f)) |}.
#[export] Instance mem_wal_laws : WALLaws log_state.
Proof.
  refine {| history := λ s, take 1000 s.1.1; front := snd |}.
  - intros s. rewrite length_take. unfold MaxBatchSize. lia.
  - by intros s r s' [= <- <-].
  - by intros s r s' [= <- <-].
  - intros s r s' [= <- <-]. split; [done|]. by intros n [= <-].
  - intros i [[l [|n]] f] r s' H; simpl in H; [|by injection H as <- <-]. injection H as <- <-. split; [done|].
    intros e He. destruct ((1 <=? i) && (f <=? i)) eqn:E; [apply andb_true_iff in E as [?%Z.leb_le ?%Z.leb_le]|done].
    destruct (take 1000 l !! _) as [x|] eqn:Ex; simpl in *; [|done]. split_and!; [lia|lia|]. congruence.
  - intros d [[l n] f] r s' H. unfold wal_Write in H. simpl in H. case_decide; injection H as <- <-; (split; [done|]); [left|by right].
    cbn [fst]. rewrite take_app_ge, (take_ge l) by lia. f_equal. apply take_ge. simpl. lia.
  - intros i [[l n] f] r s' H. simpl in H. destruct (_ && _) eqn:E; injection H as _ <-; simpl; (split; [done|]); [|lia].
    apply andb_true_iff in E as [?%Z.leb_le _]. lia.
Defined.

(** An engine in memory. *)
Abbreviation engine_state := (gmap (Z * string) (list bdoc)).
Definition docs_at (e : engine_state) (k : Z) (id : string) : list bdoc := default [] (e !! (k, id)).
Definition run_op (k : Z) (e : engine_state) (o : op) : engine_state :=
  <[(k, op_id o) := after_op o (docs_at e k (op_id o))]> e.
#[export] Instance mem_engine : Engine engine_state := {|
  OpenWriter _ := mret ();
  Batch_ k ops := λ e, (Ok (), foldl (run_op k) e ops);
  DirectorySize _ := mret 0;
  Count _ := mret 0;
  HasDocument k id := λ e, (Ok (bool_decide (docs_at e k id ≠ [])), e) |}.

Lemma run_ops k ops : ∀ e j id, NoDup (op_id <$> ops) → docs_at (foldl (run_op k) e ops) j id =
  match List.find (λ o, bool_decide (op_id o = id)) ops with
  | Some o => if decide (j = k) then after_op o (docs_at e j id) else docs_at e j id
  | None => docs_at e j id
  end.
Proof.
  induction ops as [|o ops IH]; intros e j id Hn; [done|]. rewrite fmap_cons in Hn. apply NoDup_cons in Hn as [Ho Hn].
  simpl. rewrite IH by done. case_bool_decide as Hid.
  - subst id. rewrite find_none by done. unfold run_op, docs_at. destruct (decide (j = k)) as [->|].
    + by rewrite lookup_insert_eq.
    + rewrite lookup_insert_ne by congruence. done.
  - assert (docs_at (run_op k e o) j id = docs_at e j id) as ->; [|done].
    unfold docs_at, run_op. rewrite lookup_insert_ne by congruence. done.
Qed.

#[export] Instance mem_engine_laws : EngineLaws engine_state.
Proof.
  refine {| contents := docs_at |}.
  1-3: by intros k s r s' [= <- <-].
  intros k ops s r s' Hn [= <- <-]. right. intros j id. by apply run_ops.
Defined.

(** Maps are visited in the order of their keys, or the other way round. *)
Definition env (reverse : bool) : ShardEnv.
Proof.
  refine {| BatchSize := 2; MaxSize := 100;
    range_shards := λ m, if reverse then rev (map_to_list m) else map_to_list m; range_docs := map_to_list |}.
  - intros m. destruct reverse; [symmetry; apply Permutation_rev|done].
  - done.
Defined.

#[local] Abbreviation W := (IndexShard (Log (bytes * list bool)) log_state engine_state Z).
Definition shard0 (fails : list bool) : W :=
  MkShard false false false (MkLog ∅ (zeros 256) 0 false true ([], fails)) ([], O, 1) ∅ [MkStats 0 0 0 0] (0, 0)
    (root_of typed) ∅.

Lemma shard0_initially fails : initially (shard0 fails).
Proof.
  split; [done| |by vm_compute|by vm_compute|done|done].
  exists [], []. split_and!; [|constructor|constructor|done|done]. split; [constructor|constructor|done|by eexists|].
  intros k o. simpl. rewrite lookup_empty. split; [done|]. by intros (i & r & [=] & _).
Qed.

Inductive event := ECreate (docID title : string) | EOpen | EConsume | ECrash.
Definition react (s : W) (e : event) : W :=
  match e with
  | ECreate docID title => (CreateDocument (senv := env false) "logs" docID true (s, of_obj [("title", JStr title)])).2.1
  | EOpen => (OpenWAL (senv := env false) "logs" s).2
  | EConsume => (ConsumeWAL (senv := env false) "logs" s).2
  | ECrash => crash (seconds s) (rt s) s
  end.
Lemma react_steps es : ∀ s, rtc (step (senv := env false) "logs") s (foldl react s es).
Proof.
  induction es as [|e es IH]; intros s; simpl; [constructor|]. eapply rtc_l; [|apply IH]. destruct e; simpl.
  - destruct (CreateDocument _ _ _ _) as [r [s' d]] eqn:E. by econstructor.
  - destruct (OpenWAL _ _) as [r s'] eqn:E. by econstructor.
  - destruct (ConsumeWAL _ _) as [r s'] eqn:E. by econstructor.
  - by constructor.
Qed.

(** The record that ends the first batch is not written; the process ends and starts
    again. *)
Definition events : list event :=
  [ECreate "1" "a"; ECreate "2" "b"; ECreate "1" "c"; EConsume; ECrash; EOpen; EConsume; EConsume].
Definition final : W := foldl react (shard0 [false; true]) events.



Lemma entry_kept_witness : ∃ s' s'' d,
  (CreateDocument (senv := env false) "logs" "2" true (foldl react (shard0 []) [ECreate "1" "a"; EConsume],
    of_obj [("title", JStr "b")])).2.1 = s' ∧ foldl react s' [ECrash; EOpen] = s'' ∧
  commit (saved (redolog s'')) 1 ∧ front (entries s'') ≤ 2 ∧ update_of d "2" ∧
  history (entries s'') !! 1%nat = Some (Some d).
Proof.
  set (s := foldl react (shard0 []) [ECreate "1" "a"; EConsume]).
  destruct (CreateDocument (senv := env false) "logs" "2" true (s, of_obj [("title", JStr "b")])) as [r [s' doc']] eqn:E.
  assert (r = Ok ()) as -> by (change r with (r, (s', doc')).1; rewrite <- E; by vm_compute).
  assert (rtc (step (senv := env false) "logs") (shard0 []) s) as Hs by apply react_steps.
  destruct (entry_kept "logs" _ _ _ _ "2" _ _ (shard0_initially []) Hs E (react_steps [ECrash; EOpen] s'))
    as (d & Hd & Hk & Hf).
  assert (length (history (entries s)) = 1%nat) as Hlen by (by vm_compute). rewrite Hlen in Hk, Hf.
  assert (commit (saved (redolog (foldl react s' [ECrash; EOpen]))) 1) as Hc.
  { change s' with (Ok (A := ()) (), (s', doc')).2.1. rewrite <- E. vm_compute. eauto. }
  exists s', (foldl react s' [ECrash; EOpen]), d. split_and!; [done|done|exact Hc| |done|done].
  exact (Hf 1%nat Hc (le_n 1)).
Defined.

Lemma merged_last_witness : ∃ o del b, b_id b = "1" ∧
  merge_actions [ActionTypeInsert; ActionTypeDelete; ActionTypeUpdate] b = Ok (o, del) ∧
  from_option (λ o, after_op o []) [] o = act ActionTypeUpdate b.
Proof.
  exists (Some (BInsert (MkBdoc "1" [] 0))), false, (MkBdoc "1" [] 0). split_and!; [done|done|].
  apply (merged_last [ActionTypeInsert; ActionTypeDelete; ActionTypeUpdate] (MkBdoc "1" [] 0) [] _ false); [done| |done|done].
  repeat constructor; apply list_elem_of_In; simpl; auto.
Defined.

(** [batch_order_matters]: a document that is deleted, which its shard's actions say, and
    then written with update, which the actions for all shards say, in one batch: whether it
    is there afterwards depends on the order in which the map of shards is visited. *)
Theorem batch_order_matters :
  let s := foldl react (shard0 []) [ECreate "1" "a"; EConsume] in
  let '(r, s) := DeleteDocument (senv := env false) "logs" "1" s in
  let s := react s (ECreate "1" "b") in
  let there reverse := let '(x, s) := ConsumeWAL (senv := env reverse) "logs" s in (x, length (docs_at (engine s) 0 "1")) in
  r = Ok () ∧ there true = (Ok true, 1%nat) ∧ there false = (Ok true, 0%nat).
Proof. by vm_compute. Qed.

(** [insert_twice]: a document that is inserted is in the engine twice when the record
    that ends its batch is not written and the process starts again: [Rollback] undoes only
    what was done to a shard by number, and an insertion is not for such a one. *)
Theorem insert_twice :
  let '(r, (s, _)) := CreateDocument (senv := env false) "logs" "1" false (shard0 [false; true], of_obj [("title", JStr "a")]) in
  let s := foldl react s [EConsume; ECrash; EOpen; EConsume] in
  r = Ok () ∧ length (docs_at (engine s) 0 "1") = 2%nat.
Proof. by vm_compute. Qed.

(** [rollback_failure_unlisted]: when [Rollback] fails, opening reports it once; from then
    on the shard counts as open and takes documents, and is not in the list of those that
    are consumed. *)
Theorem rollback_failure_unlisted :
  let s := foldl react (shard0 [false; true]) [ECreate "1" "a"; EConsume; ECrash] in
  let s := MkShard (open s) (wal s) (listed s) (redolog s) ((entries s).1.1, 1%nat, (entries s).2) (writers s) (seconds s) (totals s)
             (rt s) (engine s) in
  let '(r, s) := OpenWAL (senv := env false) "logs" s in
  let '(x, (s, _)) := CreateDocument (senv := env false) "logs" "2" true (s, of_obj [("title", JStr "b")]) in
  is_ok r = false ∧ x = Ok () ∧ listed s = false.
Proof. by vm_compute. Qed.
End ShardDemo.
