(* ===== verification/Drain.v ===== *)
(** Waiting until the logs of a node are drained (pkg/streaming/service.go, [WALPending]
    of pkg/core/stream.go), over the shards of Shard.v.

    A backup copies the files of a node. Before, the consumer is paused and everything
    that was accepted is brought into the engine: [PauseAndDrain] polls the number of
    entries that are not committed until it is zero. *)
From S2P Require Import Prelude Strings State Wire Mappings Index Redo Values Document Shard Replay.
#[local] Open Scope Z_scope.

Section drain.
Context {RT WT ET ST : Type} `{!RedoLog RT, !WAL WT, !Engine ET} {lib : GoLib} {denv : DocEnv ST} {senv : ShardEnv}.
#[local] Abbreviation W := (IndexShard RT WT ET ST).

(** The last entry of a shard and the last one that is committed; both are read anew. *)
Definition positions (index : string) : M W (Z * Z) :=
  OpenWAL index;;
  last ← on_wal LastIndex;
  r ← try (readRedoLog RedoActionWrite);
  match r with
  | Ok (_, committed) => mret (last, committed)
  | Err e => if errors_Is e ErrRedoNotFound then mret (last, 0) else throw e
  end.

Fixpoint WALPending (index : string) (pending : Z) (shards : list W) : res Z * list W :=
  match shards with
  | [] => (Ok pending, [])
  | s :: shards =>
      let '(r, s) := positions index s in
      match r with
      | Err e => (Err e, s :: shards)
      | Ok (last, committed) =>
          let pending := if committed <? last then u64 (pending + (last - committed)) else pending in
          let '(r, shards) := WALPending index pending shards in (r, s :: shards)
      end
  end.

(** The indexes of the node, with their shards. *)
#[local] Abbreviation indexes := (list (string * list W)).

Fixpoint walPending (total : Z) (idxs : indexes) : res Z * indexes :=
  match idxs with
  | [] => (Ok total, [])
  | (name, shards) :: idxs =>
      let '(r, shards) := WALPending name 0 shards in
      match r with
      | Err e => (Err (wrap ("index " +:+ name +:+ ": ") e ""), (name, shards) :: idxs)
      | Ok n => let '(r, idxs) := walPending (u64 (total + n)) idxs in (r, (name, shards) :: idxs)
      end
  end.

(** [DocCount] of an index. *)
Fixpoint count_seconds (index : string) (ids : list Z) (total : Z) : M W Z :=
  match ids with
  | [] => mret total
  | i :: ids => w ← GetWriter (OpenWAL index) i; n ← on_engine (Count w); count_seconds index ids (u64 (total + n))
  end.
Fixpoint DocCount (index : string) (total : Z) (shards : list W) : res Z * list W :=
  match shards with
  | [] => (Ok total, [])
  | s :: shards =>
      let '(r, s) := count_seconds index (seqZ 0 (GetShardNum s)) total s in
      match r with
      | Err e => (Err e, s :: shards)
      | Ok n => let '(r, shards) := DocCount index n shards in (r, s :: shards)
      end
  end.

(** The loop of [PauseAndDrain]. [between] is what happens to the shards from one poll to
    the next; after the last of them the context is done. *)
Definition not_drained (r : res Z) (ctx : error) : error :=
  match r with
  | Err e => wrap "waiting for the WAL to drain: " (default ctx (errors_Join [ctx; e])) ""
  | Ok n => wrap ("waiting for the WAL to drain, " +:+ FormatUint n +:+ " entries left: ") ctx ""
  end.
Fixpoint drain_loop (ctx : error) (between : list (indexes → indexes)) : M indexes () :=
  r ← try (walPending 0);
  if bool_decide (r = Ok 0) then mret ()
  else match between with
       | [] => throw (not_drained r ctx)
       | f :: between => modify f;; drain_loop ctx between
       end.

(** [paused]: the outcome of [Consumer.Pause]. *)
Definition PauseAndDrain (paused : res ()) (ctx : error) (between : list (indexes → indexes)) : M indexes () :=
  lift paused;; drain_loop ctx between.
End drain.

(** ** When it returns *)

Section proofs.
Context {RT WT ET ST : Type} `{!RedoLog RT, !RedoLogLaws RT, !WAL WT, !WALLaws WT, !Engine ET, !EngineLaws ET}
  {lib : GoLib} {denv : DocEnv ST} {senv : ShardEnv}.
#[local] Set Default Proof Using "All".
#[local] Abbreviation W := (IndexShard RT WT ET ST).
#[local] Abbreviation indexes := (list (string * list W)).
#[local] Abbreviation len s := (length (history (entries s))).

(** The shards of a node, each with what is true of it. *)
Definition all_shards (P : string → W → Prop) (idxs : indexes) : Prop :=
  Forall (λ i, Forall (P i.1) i.2) idxs.

Lemma all_shards_mono (P Q : string → W → Prop) idxs : (∀ n s, P n s → Q n s) → all_shards P idxs → all_shards Q idxs.
Proof using Type. intros H HP. eapply Forall_impl; [exact HP|]. intros [n ss] Hs. eapply Forall_impl; [exact Hs|]. apply H. Qed.

Definition drained (s : W) : Prop := running s (len s).

(** Reading the positions changes nothing but what opening does. *)
Lemma positions_spec index (s s' : W) r : held s → positions index s = (r, s') →
  held s' ∧ len s' = len s ∧ (∀ last committed, r = Ok (last, committed) →
    last = Z.of_nat (len s) ∧ ∃ c, committed = Z.of_nat c ∧ running s' c).
Proof.
  intros Hh H. unfold positions in H. apply bind_inv in H as [(e & H & ->)|([] & s1 & H1 & H)].
  { apply open_spec in H as (? & -> & _); [|done]. done. }
  apply open_spec in H1 as (Hh1 & E1 & Hw); [|done]. destruct (hd_running _ Hh1) as [c Hc]; [by apply Hw|].
  assert (∀ (s2 : W) x, on_wal LastIndex s1 = (x, s2) → running s2 c ∧ history (entries s2) = history (entries s1) ∧
    ∀ n, x = Ok n → n = Z.of_nat (len s1)) as Hlast.
  { intros s2 x Hx. assert (calm s1 s2) as Hq by (eapply (calm_on_wal index); [|exact Hx]; intros; by eapply LastIndex_law).
    destruct (running_calm index _ _ _ Hc Hq) as [? ?]. split_and!; [done|done|]. intros n ->. unfold on_wal, zoom in Hx.
    destruct (LastIndex (entries s1)) as [y w] eqn:E. injection Hx as -> <-. by apply (proj2 (LastIndex_law _ _ _ E)). }
  apply bind_inv in H as [(e & H & ->)|(last & s2 & H2 & H)].
  { destruct (Hlast _ _ H) as (? & E2 & _). split_and!; [by eapply running_held|congruence|done]. }
  destruct (Hlast _ _ H2) as (Hrun & E2 & Hn). apply try_inv in H as (x & s3 & Hx & H).
  pose proof (readRedoLog_state _ _ _ _ Hx) as ->.
  assert (s' = s2 ∧ ∀ l k, r = Ok (l, k) → l = last ∧ k = Z.of_nat c) as [-> Hr].
  { unfold readRedoLog, mbind, M_bind, get_state, lift in Hx.
    rewrite (redo_Read_law _ _ (sn_redo _ (rn_sane _ _ Hrun))) in Hx. pose proof (rn_commit _ _ Hrun) as Hk. unfold commit in Hk.
    destruct (memory (redolog s2) RedoActionWrite) as [v|].
    - destruct Hk as (a & Hp). rewrite Hp in Hx. injection Hx as <-. injection H as <- <-. split; [done|]. by intros l k [= <- <-].
    - subst c. injection Hx as <-. injection H as <- <-. split; [done|]. by intros l k [= <- <-]. }
  split_and!; [by eapply running_held|congruence|]. intros l k E. destruct (Hr l k E) as [-> ->].
  split; [rewrite (Hn last eq_refl); congruence|eauto].
Qed.

(** The entries of some shards. *)
Definition entries_of (shards : list W) : Z := foldr (λ s n, Z.of_nat (len s) + n) 0 shards.
Definition all_entries (idxs : indexes) : Z := foldr (λ i n, entries_of i.2 + n) 0 idxs.
Lemma entries_of_nonneg shards : 0 ≤ entries_of shards.
Proof using Type. induction shards; simpl; lia. Qed.

Lemma WALPending_spec index : ∀ shards pending r shards', Forall held shards → 0 ≤ pending →
  pending + entries_of shards < 2 ^ 64 → WALPending index pending shards = (r, shards') →
  Forall held shards' ∧ entries_of shards' = entries_of shards ∧
  (∀ n, r = Ok n → pending ≤ n ≤ pending + entries_of shards ∧ (n = pending → Forall drained shards')).
Proof.
  induction shards as [|s shards IH]; intros pending r shards' Hh Hp Hb H; simpl in H, Hb.
  { injection H as <- <-. split_and!; [done|done|]. intros n [= <-]. split; [simpl; lia|by constructor]. }
  apply Forall_cons in Hh as [Hs Hh]. destruct (positions index s) as [x s1] eqn:E.
  apply positions_spec in E as (Hs1 & El & Hpos); [|done]. pose proof (entries_of_nonneg shards) as Hnn.
  destruct x as [[last committed]|e]; [|injection H as <- <-; split_and!; [by constructor|simpl; lia|done]].
  destruct (Hpos _ _ eq_refl) as (-> & c & -> & Hc). pose proof (rn_len _ _ Hc) as Hcl. rewrite El in Hcl.
  destruct (WALPending index _ shards) as [y shards1] eqn:E2. injection H as <- <-.
  destruct (Z.of_nat c <? Z.of_nat (len s)) eqn:Ec.
  - apply Z.ltb_lt in Ec. rewrite u64_small in E2 by (unfold is_u64; lia).
    apply IH in E2 as (? & He & Hn); [|done|lia|lia]. split_and!; [by constructor|simpl; lia|].
    intros n Hy. destruct (Hn n Hy) as [? _]. simpl. split; [lia|intros; lia].
  - apply Z.ltb_ge in Ec. apply IH in E2 as (? & He & Hn); [|done|lia|lia]. split_and!; [by constructor|simpl; lia|].
    intros n Hy. destruct (Hn n Hy) as [? Hd]. simpl. split; [lia|]. intros ->. constructor; [|by apply Hd].
    unfold drained. rewrite El. replace (len s) with c by lia. done.
Qed.

Lemma walPending_spec : ∀ idxs total r idxs', all_shards (λ _, held) idxs → 0 ≤ total →
  total + all_entries idxs < 2 ^ 64 → walPending total idxs = (r, idxs') →
  all_shards (λ _, held) idxs' ∧ all_entries idxs' = all_entries idxs ∧
  (∀ n, r = Ok n → total ≤ n ∧ (n = total → all_shards (λ _, drained) idxs')).
Proof.
  induction idxs as [|[name shards] idxs IH]; intros total r idxs' Hh Ht Hb H; simpl in H, Hb.
  { injection H as <- <-. split_and!; [done|done|]. intros n [= <-]. split; [lia|by constructor]. }
  apply Forall_cons in Hh as [Hs Hh]. simpl in Hs.
  assert (0 ≤ all_entries idxs) as Hnn.
  { clear. induction idxs as [|i idxs IH]; simpl; [lia|]. pose proof (entries_of_nonneg i.2). lia. }
  pose proof (entries_of_nonneg shards) as Hn0. destruct (WALPending name 0 shards) as [x shards1] eqn:E.
  apply WALPending_spec in E as (Hs1 & Es & Hn); [|done|lia|lia].
  destruct x as [k|e]; [|injection H as <- <-; split_and!; [by constructor|simpl; lia|done]].
  destruct (Hn k eq_refl) as [Hk Hd]. rewrite u64_small in H by (unfold is_u64; lia).
  destruct (walPending (total + k) idxs) as [y idxs1] eqn:E2. injection H as <- <-.
  apply IH in E2 as (Hh1 & Ei & Hn1); [|done|lia|lia]. split_and!; [by constructor|simpl; lia|].
  intros n Hy. destruct (Hn1 n Hy) as [? Hd1]. split; [lia|]. intros ->. constructor; [apply Hd; lia|apply Hd1; lia].
Qed.

(** What the others do between two polls: steps of each shard. *)
Definition moves (f : indexes → indexes) : Prop := ∀ idxs,
  Forall2 (λ i i', i'.1 = i.1 ∧ Forall2 (rtc (step i.1)) i.2 i'.2) idxs (f idxs).
Definition bounded (idxs : indexes) : Prop := all_entries idxs < 2 ^ 64.

(** They do not write 2^64 entries. *)
Definition allowed (f : indexes → indexes) : Prop :=
  moves f ∧ ∀ idxs, all_shards (λ _, held) idxs → bounded idxs → bounded (f idxs).

Lemma moves_held f idxs : moves f → all_shards (λ _, held) idxs → all_shards (λ _, held) (f idxs).
Proof.
  intros Hf Hh. specialize (Hf idxs). induction Hf as [|[n ss] [n' ss'] idxs idxs' [Hn Hs] _ IH]; [done|].
  apply Forall_cons in Hh as [Hh1 Hh2]. simpl in *. subst n'. constructor; [|by apply IH]. simpl. clear -Hs Hh1.
  induction Hs as [|s s' ss ss' Hs _ IH]; [done|]. apply Forall_cons in Hh1 as [Hh1 Hh2].
  constructor; [by eapply (held_steps n)|by apply IH].
Qed.

Lemma drain_loop_spec ctx between : Forall allowed between → ∀ idxs r idxs',
  all_shards (λ _, held) idxs → bounded idxs → drain_loop ctx between idxs = (r, idxs') →
  all_shards (λ _, held) idxs' ∧ (r = Ok () → all_shards (λ _, drained) idxs').
Proof.
  intros Hbt. induction Hbt as [|f between [Hf Hfb] _ IH]; intros idxs r idxs' Hh Hb H; cbn [drain_loop] in H.
  all: apply try_inv in H as (x & idxs1 & Hx & H); apply walPending_spec in Hx as (Hh1 & Ha & Hn); [|done|lia|done].
  all: case_bool_decide as Hx; [injection H as <- <-; split; [done|]; intros _; by apply (Hn 0 Hx)|].
  - by injection H as <- <-.
  - apply bind_inv in H as [(e & [=] & _)|(u & s & [= _ <-] & H)].
    eapply IH; [| |exact H]; [by apply moves_held|apply Hfb; [done|]]. unfold bounded in *. lia.
Qed.

Lemma consume_entries index (s s' : W) r : held s → ConsumeWAL index s = (r, s') → len s' = len s.
Proof.
  intros Hh H. destruct (wal s) eqn:E.
  - destruct (hd_running _ Hh E) as [c Hc]. eapply ConsumeWAL_spec in H as [-> _]; [done|exact Hc].
  - unfold ConsumeWAL, mbind, M_bind, get_state in H. rewrite E in H. by injection H as _ <-.
Qed.

(** Without new documents. *)
Inductive background (index : string) : W → W → Prop :=
| bg_open s r s' : OpenWAL index s = (r, s') → background index s s'
| bg_consume s r s' : ConsumeWAL index s = (r, s') → background index s s'.

Lemma drained_round index (s s' : W) r : drained s → ConsumeWAL index s = (r, s') → quiet s s' ∧ r ≠ Ok true.
Proof.
  intros Hd H. split.
  2:{ eapply ConsumeWAL_spec in H as (_ & c1 & _ & _ & Hr); [|exact Hd]. intros E. destruct (Hr E). lia. }
  unfold ConsumeWAL in H. apply bind_inv in H as [(e & [=] & _)|(s0 & s1 & [= <- <-] & H)].
  rewrite (rn_wal _ _ Hd) in H. cbn [negb] in H. apply ignore_inv in H as (x & s1 & H1 & H).
  assert (quiet s s1) as Hq1 by (eapply (quiet_on_wal index); [|exact H1]; intros; by eapply wal_Sync_law).
  apply or_return_inv in H as (x1 & s2 & H2 & H).
  assert (quiet s1 s2) as Hq2 by (eapply (quiet_on_wal index); [|exact H2]; intros; by eapply LastIndex_law).
  assert (running s2 (len s)) as Hrun by (eapply (running_calm index); [|intros _; etrans; [exact Hq1|exact Hq2]]; done).
  destruct x1 as [n|e]; [|destruct H as [-> _]; by etrans].
  assert (n = Z.of_nat (len s)) as ->.
  { unfold on_wal, zoom in H2. destruct (LastIndex (entries s1)) as [y w] eqn:E. injection H2 as -> _.
    rewrite (proj2 (LastIndex_law _ _ _ E) n eq_refl). by rewrite (q_log _ _ Hq1). }
  apply or_return_inv in H as (x2 & s3 & H3 & H). apply (last_commit index (len s)) in H3 as [-> ->]; [|done].
  rewrite Z.eqb_refl in H. injection H as _ <-. by etrans.
Qed.

Lemma drained_background index (s s' : W) : drained s → rtc (background index) s s' → quiet s s'.
Proof.
  intros Hd H. revert Hd. induction H as [s|s1 s2 s3 H _ IH]; intros Hd; [done|].
  assert (quiet s1 s2) as Hq.
  { destruct H as [s r s' H|s r s' H]; [|by eapply drained_round].
    rewrite (OpenWAL_open index) in H by apply Hd. by injection H as _ <-. }
  etrans; [exact Hq|]. apply IH. unfold drained. rewrite (q_log _ _ Hq). by eapply (running_calm index); [exact Hd|intros _].
Qed.

(** A shard as it comes about: opened, consumed, stopped and started again, and written
    to with [update], as the stream applier does. *)
Definition used (index : string) (s : W) : Prop := ∃ s0, initially s0 ∧ rtc (step index) s0 s.

End proofs.

(** ** Example *)

Module DrainDemo.
Import DocumentDemo ShardDemo.

(** Three documents are written, and a round runs between two polls. *)
Definition written : IndexShard (Log (bytes * list bool)) log_state engine_state Z :=
  foldl react (shard0 []) [ECreate "1" "a"; ECreate "2" "b"; ECreate "1" "c"].
#[local] Abbreviation W := (IndexShard (Log (bytes * list bool)) log_state engine_state Z).
Definition consume (n : string) (s : W) : W := (ConsumeWAL (senv := env false) n s).2.
Definition turn (idxs : list (string * list W)) : list (string * list W) :=
  map (λ i, (i.1, map (consume i.1) i.2)) idxs.

Lemma turn_allowed : allowed (senv := env false) turn.
Proof.
  assert (∀ n s, ∃ r, ConsumeWAL (senv := env false) n s = (r, consume n s)) as Hc.
  { intros n s. unfold consume. destruct (ConsumeWAL n s) as [r s']. by exists r. }
  split.
  - intros idxs. induction idxs as [|[n ss] idxs IH]; constructor; [|done].
    split; [done|]. simpl. induction ss as [|s ss IHs]; constructor; [|done].
    apply rtc_once. destruct (Hc n s) as [r E]. by econstructor.
  - intros idxs Hh Hb. assert (all_entries (turn idxs) = all_entries idxs) as E; [|unfold bounded; by rewrite E].
    clear Hb. induction Hh as [|[n ss] idxs Hs _ IH]; [done|]. simpl in *. rewrite IH. f_equal. clear IH.
    induction Hs as [|s ss Hs _ IHs]; [done|]. simpl. rewrite IHs. f_equal. f_equal.
    destruct (Hc n s) as [r E]. exact (consume_entries n s _ r Hs E).
Qed.

End DrainDemo.
