(* ===== verification/MinShould.v ===== *)
(** [minimum_should_match] of queries (pkg/zutils/min_should.go): how many of the
    optional clauses of a query have to match. *)
From Stdlib Require Import SpecFloat.
From S2P Require Import Prelude Strings State Wire Mappings Values.
#[local] Open Scope Z_scope.

(** [int(math.Floor(f))] of amd64. *)
Definition floor_int (f : float) : Z :=
  match f with
  | S754_zero _ => 0
  | S754_finite neg m e =>
      let z := Z.shiftl (if neg then Zneg m else Zpos m) e in
      if (i64_min <=? z) && (z <=? i64_max) then z else i64_min
  | _ => i64_min
  end.

(** [int(float64(n) * float64(p) / 100)]. *)
Definition percent (n p : Z) : Z :=
  int64_of (SFdiv 53 1024 (SFmul 53 1024 (float_of_Z n) (float_of_Z p)) (float_of_Z 100)).

Definition getPartValue (termCount : Z) (part : string) : res Z :=
  if Contains part "%" then
    match ParseInt (String.substring 0 (String.length part - 1) part) with
    | Err e => Err (wrap "cannot parse a percent value: " e "")
    | Ok p => Ok (if p <? 0 then i64 (termCount - percent termCount (i64 (- p))) else percent termCount p)
    end
  else
    match ParseInt part with
    | Err e => Err (wrap "cannot parse a int value: " e "")
    | Ok n => Ok (if n <? 0 then i64 (termCount + n) else n)
    end.

(** The regular expression [(\d+)<([-+]?\d+%?)]: the first match and its two groups. *)
Fixpoint take_digits (s : string) : string * string :=
  match s with
  | String c s' => if is_digit c then let '(d, r) := take_digits s' in (String c d, r) else ("", s)
  | "" => ("", "")
  end.
Definition take_count (s : string) : option string :=
  let '(sign, s) := match s with
                    | String "-" s => ("-", s)
                    | String "+" s => ("+", s)
                    | _ => ("", s)
                    end in
  let '(d, s) := take_digits s in
  if decide (d = "") then None
  else Some (sign +:+ d +:+ match s with String "%" _ => "%" | _ => "" end).
Definition match_here (s : string) : option (string * string) :=
  let '(d, s) := take_digits s in
  if decide (d = "") then None
  else match s with
       | String "<" s => (λ n, (d, n)) <$> take_count s
       | _ => None
       end.
Fixpoint FindStringSubmatch (s : string) : option (string * string) :=
  match match_here s with
  | Some x => Some x
  | None => match s with String _ s => FindStringSubmatch s | "" => None end
  end.

(** A condition and the count that holds above it. *)
Definition parse_condition (subCount : Z) (m : string * string) : res (Z * Z) :=
  match ParseInt m.1 with
  | Err e => Err (wrap "cannot parse the condition value: " e "")
  | Ok condition =>
      match getPartValue subCount m.2 with
      | Err e => Err (wrap "cannot parse the clauses count: " e "")
      | Ok count => Ok (condition, count)
      end
  end.

Definition invalid_value (x : string) : error := errors_New ("invalid MinimumShould value: " +:+ x).

(** [sort.Slice] by condition, which leaves the order of equal ones open. *)
Class SortSlice := {
  sort_conditions : list (Z * Z) → list (Z * Z);
  sort_perm l : sort_conditions l ≡ₚ l;
  sort_sorted l : Sorted (λ x y, x.1 ≤ y.1) (sort_conditions l);
}.

Section min_should.
Context {ss : SortSlice}.

Fixpoint parse_conditions (subCount : Z) (all : string) (l : list string) : res (list (Z * Z)) :=
  match l with
  | [] => Ok []
  | str :: l =>
      match FindStringSubmatch str with
      | None => Err (invalid_value all)
      | Some m => c ← parse_condition subCount m; cs ← parse_conditions subCount all l; Ok (c :: cs)
      end
  end.

Fixpoint pick_condition (subCount : Z) (all : string) (l : list (Z * Z)) : res Z :=
  match l with
  | [] => Err (invalid_value all)
  | c :: l =>
      if subCount <=? c.1 then Ok subCount
      else match l with
           | [] => Ok c.2
           | d :: _ => if subCount <=? d.1 then Ok c.2 else pick_condition subCount all l
           end
  end.

(** The deferred function. *)
Definition clamp (subCount r : Z) : Z := if r <=? 1 then 1 else if subCount <=? r then subCount else r.

Definition calculate (subCount : Z) (v : value) : res Z :=
  let from m := if m <? 0 then i64 (subCount + m) else m in
  match v with
  | VInt m => Ok (from m)
  | VNum f => Ok (from (floor_int f))
  | VStr x =>
      match Split x " " with
      | (_ :: _ :: _) as combinations =>
          let all := "[" +:+ x +:+ "]" in
          cs ← parse_conditions subCount all combinations;
          r ← pick_condition subCount all (sort_conditions cs);
          Ok (clamp subCount r)
      | _ =>
          match getPartValue subCount x with
          | Ok r => Ok r
          | Err _ =>
              match FindStringSubmatch x with
              | None => Err (invalid_value x)
              | Some m => c ← parse_condition subCount m; Ok (if subCount <=? c.1 then subCount else c.2)
              end
          end
      end
  | _ => Err (errors_New "invalid MinimumShouldMatch value")
  end.

Definition CalculateMin (subCount : Z) (v : value) : res Z :=
  if subCount =? 0 then Ok 1 else r ← calculate subCount v; Ok (clamp subCount r).

Lemma CalculateMin_range n v r : 0 ≤ n → CalculateMin n v = Ok r → 1 ≤ r ∧ (0 < n → r ≤ n).
Proof.
  intros Hn. unfold CalculateMin. destruct (n =? 0) eqn:E; [intros [= <-]; lia|].
  unfold mbind, res_bind. destruct (calculate n v) as [x|]; [|done]. intros [= <-].
  unfold clamp. apply Z.eqb_neq in E. destruct (x <=? 1) eqn:E1; [lia|]. apply Z.leb_gt in E1.
  destruct (n <=? x) eqn:E2; [|apply Z.leb_gt in E2]; lia.
Qed.

(** C35: whatever is asked for, at least one clause has to match, and
    not more than there are. *)
Theorem CalculateMin_bounds n v r : 0 ≤ n → CalculateMin n v = Ok r → 1 ≤ r ∧ (0 < n → r ≤ n).
Proof. apply CalculateMin_range. Qed.

(** A sum of all conditions is met: with conditions [a < b < ...] the count is that of
    the largest condition below the number of clauses, or all clauses. *)
Lemma pick_condition_spec n all l r : Sorted (λ x y : Z * Z, x.1 ≤ y.1) l → pick_condition n all l = Ok r →
  (r = n ∧ Forall (λ c, n ≤ c.1) l) ∨
  ∃ c, c ∈ l ∧ r = c.2 ∧ c.1 < n ∧ Forall (λ d, d.1 < n → d.1 ≤ c.1) l.
Proof.
  intros Hs%Sorted_StronglySorted; [|by intros x y z ??; etrans]. revert r.
  induction Hs as [|c l Hs IH Hc]; intros r H; [done|]. simpl in H.
  destruct (n <=? c.1) eqn:E; [apply Z.leb_le in E|apply Z.leb_gt in E].
  { injection H as <-. left. split; [done|]. constructor; [done|]. eapply Forall_impl; [exact Hc|]. simpl. lia. }
  right. destruct l as [|d l].
  { injection H as <-. exists c. split_and!; [by left|done|done|]. constructor; [lia|done]. }
  destruct (n <=? d.1) eqn:Ed; [apply Z.leb_le in Ed|apply Z.leb_gt in Ed].
  - injection H as <-. exists c. split_and!; [by left|done|done|]. constructor; [lia|].
    apply StronglySorted_inv in Hs as [_ Hd]. constructor; [lia|]. eapply Forall_impl; [exact Hd|]. simpl. lia.
  - destruct (IH r H) as [[_ Hf]|(x & Hx & Hr & Hlt & Hf)].
    { apply Forall_cons in Hf as [? _]. lia. }
    exists x. split_and!; [by right|done|done|]. constructor; [|done]. intros _.
    eapply Forall_forall in Hc; [exact Hc|done].
Qed.
End min_should.

(** [CalculateMin_conditions]: of several conditions [n<count], the count of the largest
    one below the number of clauses holds, and all clauses if there is none. *)
Theorem CalculateMin_conditions {ss : SortSlice} n x a b l cs r : 0 < n → Split x " " = a :: b :: l →
  parse_conditions n ("[" +:+ x +:+ "]") (a :: b :: l) = Ok cs → CalculateMin n (VStr x) = Ok r →
  (r = clamp n n ∧ Forall (λ c, n ≤ c.1) cs) ∨
  ∃ c, c ∈ cs ∧ r = clamp n c.2 ∧ c.1 < n ∧ Forall (λ d, d.1 < n → d.1 ≤ c.1) cs.
Proof.
  intros Hn Hx Hcs. unfold CalculateMin, calculate. rewrite Hx, (proj2 (Z.eqb_neq n 0)) by lia. cbv zeta. rewrite Hcs.
  unfold mbind, res_bind. destruct (pick_condition n _ (sort_conditions cs)) as [y|] eqn:Hp; [|done].
  intros [= <-]. apply pick_condition_spec in Hp; [|apply sort_sorted].
  assert (clamp n (clamp n y) = clamp n y) as ->.
  { unfold clamp. destruct (Z.leb_spec y 1); [done|]. destruct (Z.leb_spec n y).
    - destruct (Z.leb_spec n 1); [lia|]. by rewrite Z.leb_refl.
    - rewrite (proj2 (Z.leb_gt y 1)), (proj2 (Z.leb_gt n y)) by lia. done. }
  setoid_rewrite sort_perm in Hp. destruct Hp as [[-> H]|(c & Hc & -> & H)]; [by left|]. right. by exists c.
Qed.

Module MinShouldDemo.
#[export] Instance stable : SortSlice.
Proof.
  assert (∀ x y : Z * Z, Decision (x.1 ≤ y.1)) as Hd by (intros x y; apply Z.le_dec).
  assert (Total (λ x y : Z * Z, x.1 ≤ y.1)) as Ht by (intros x y; lia).
  exact {| sort_conditions := merge_sort (λ x y : Z * Z, x.1 ≤ y.1);
           sort_perm := merge_sort_Permutation _; sort_sorted := Sorted_merge_sort _ |}.
Defined.

Example numbers : map (CalculateMin 5) [VInt 2; VInt (-2); VInt 9; VNum (float_of_text "2.9"); VStr "75%"; VStr "-25%"; VStr "3<90%"] =
  [Ok 2; Ok 3; Ok 5; Ok 2; Ok 3; Ok 4; Ok 4].
Proof. by vm_compute. Qed.

Lemma CalculateMin_bounds_witness : ∃ r, CalculateMin 5 (VStr "2<-25% 9<-3") = Ok r ∧ 1 ≤ r ∧ (0 < 5 → r ≤ 5).
Proof.
  exists 4. split; [by vm_compute|]. apply (CalculateMin_bounds 5 (VStr "2<-25% 9<-3") 4); [done|by vm_compute].
Defined.

Lemma CalculateMin_conditions_witness : ∃ cs, parse_conditions 5 "[9<-3 2<-25%]" ["9<-3"; "2<-25%"] = Ok cs ∧
  ((4 = clamp 5 5 ∧ Forall (λ c, 5 ≤ c.1) cs) ∨
   ∃ c, c ∈ cs ∧ 4 = clamp 5 c.2 ∧ c.1 < 5 ∧ Forall (λ d, d.1 < 5 → d.1 ≤ c.1) cs).
Proof.
  exists [(9, 2); (2, 4)]. split; [by vm_compute|].
  apply (CalculateMin_conditions 5 "9<-3 2<-25%" "9<-3" "2<-25%" []); [done|by vm_compute..].
Defined.
End MinShouldDemo.
