(* ===== verification/Query.v ===== *)
(** The translation of queries (pkg/uquery/query) and the range of times of a query
    (pkg/uquery/timerange).

    A query of the DSL is a JSON object; [Query] makes from it a query of the search
    engine. The queries of the engine are data here: what a constructor and the setters of
    the library were called with. A pointer that is nil is [None]: [Query] answers it
    without an error for an empty object, and [BoolQuery] hands it on. *)
From Stdlib Require Import SpecFloat.
From S2P Require Import Prelude Strings State Wire Mappings Values MinShould.
#[local] Open Scope Z_scope.

(** ** Queries of the engine *)

Inductive operator := OpOr | OpAnd.

(** What is not set is [None]. Times are nanoseconds since 1970. *)
Inductive query (An : Type) :=
| MatchAll
| MatchNone
| Term (term field : string) (boost : option float)
| Prefix (prefix field : string) (boost : option float)
| Wildcard (wildcard field : string) (boost : option float)
| Regexp (regexp field : string) (boost : option float)
| Fuzzy (term field : string) (fuzziness prefix : option Z) (boost : option float)
| Match (text field : string) (analyzer : option An) (op : option operator) (fuzziness prefix : option Z)
    (boost : option float)
| Phrase (text field : string) (analyzer : option An) (boost : option float)
| NumericRange (min max : float) (minInclusive maxInclusive : bool) (field : string) (boost : option float)
| DateRange (min max : Z) (minInclusive maxInclusive : bool) (field : string) (boost : option float)
| QueryString (text : string) (analyzer : An) (fields : list (string * An))
| Boolean (must should mustNot : list (option (query An))) (minShould : option Z) (boost : option float).
Arguments MatchAll {_}. Arguments MatchNone {_}. Arguments Term {_}. Arguments Prefix {_}.
Arguments Wildcard {_}. Arguments Regexp {_}. Arguments Fuzzy {_}. Arguments Match {_}.
Arguments Phrase {_}. Arguments NumericRange {_}. Arguments DateRange {_}. Arguments QueryString {_}.
Arguments Boolean {_}.

(** Analyzers by their built-in names, with what a text is cut into; the parser of query
    strings, which only fails or not; fixed time zones; [ParseInLocation] of a nil
    location; the clock. *)
Class QueryLib `{lib : GoLib, ss : SortSlice} := {
  analyzer : Type;
  NewAnalyzer : string → res analyzer;
  NewStandardAnalyzer : analyzer;
  NewKeywordAnalyzer : analyzer;
  Analyze : analyzer → string → list string;
  ParseQueryString : string → analyzer → list (string * analyzer) → option error;
  FixedZone : string → Z → Location;
  ParseInNil : string → string → res Z;
  time_Now : Z;
}.

Definition zero_time : Z := -62135596800 * 10 ^ 9.

(** The error of package errors with a cause; a panic is not an error. *)
Definition zcause (typ reason : string) (e : error) : error :=
  if is_panic e then e
  else errors_New ("type: " +:+ typ +:+ ", reason: " +:+ reason +:+ ", cause: " +:+ err_text e).
Definition on_error {A} (f : error → error) (r : res A) : res A :=
  match r with Ok a => Ok a | Err e => Err (if is_panic e then e else f e) end.

Definition xcontent : string := "x_content_parse_exception".
Definition parsing_exception : string := "parsing_exception".

Definition to_upper_byte (c : ascii) : ascii := if in_range "a" "z" c then ascii_of_N (N_of_ascii c - 32) else c.
Fixpoint to_upper (s : string) : string :=
  match s with "" => "" | String c s => String (to_upper_byte c) (to_upper s) end.

(** [v.(string)], [v.(float64)] and [v.(bool)]. *)
Definition as_ (typ : string) {A} (o : option A) : res A :=
  of_option (Panic ("interface conversion: interface {} is not " +:+ typ)) o.
Definition str_of (v : value) : option string := match v with VStr s => Some s | _ => None end.
Definition num_of (v : value) : option float := match v with VNum f => Some f | _ => None end.
Definition bool_of (v : value) : option bool := match v with VBool b => Some b | _ => None end.

Definition zero : float := S754_zero false.
Definition no_boost : float := float_of_Z (-1).
(** [if boost >= 0 { SetBoost(boost) }]. *)
Definition boost_of (f : float) : option float := if SFleb zero f then Some f else None.
(** [if prefixLength > 0 { SetPrefix(int(prefixLength)) }]. *)
Definition prefix_of (f : float) : option Z := if SFltb zero f then Some (int64_of f) else None.

(** The options of a query: names are compared in lower case, unknown ones ignored. *)
Fixpoint options_loop {A} (f : string → value → A → res A) (o : vdoc) (a : A) : res A :=
  match o with
  | [] => Ok a
  | (k, v) :: o => a ← f (to_lower k) v a; options_loop f o a
  end.

Section query.
Context `{lib : GoLib} {ss : SortSlice} {qlib : QueryLib}.
#[local] Abbreviation An := analyzer.
#[local] Abbreviation Q := (query analyzer).
(** The mappings of the index and its analyzers. *)
Context (mappings : Mappings) (analyzers : gmap string An).

Definition ToInt (v : value) : res Z :=
  match v with
  | VInt z => Ok z
  | VNum f => Ok (int64_of f)
  | VStr s => ParseInt s
  | VBool b => Ok (if b then 1 else 0)
  | _ => Err (errors_New ("ToInt: unknown supported type " +:+ type_name v))
  end.
Definition or_ {A} (a : A) (r : res A) : A := match r with Ok x => x | Err _ => a end.

(** *** Analyzers (pkg/uquery/analysis/analyzer.go) *)

Definition builtin_names : list string :=
  ["standard"; "simple"; "keyword"; "web"; "regexp"; "pattern"; "stop"; "whitespace"; "gse_standard"; "gse_search";
   "ar"; "arabic"; "cjk"; "ckb"; "sorani"; "da"; "danish"; "de"; "german"; "en"; "english"; "es"; "spanish"; "fa"; "persian";
   "fi"; "finnish"; "fr"; "french"; "hi"; "hindi"; "hu"; "hungarian"; "it"; "italian"; "nl"; "dutch"; "no"; "norwegian";
   "pt"; "portuguese"; "ro"; "romanian"; "ru"; "russian"; "sv"; "swedish"; "tr"; "turkish"].

Definition QueryAnalyzer (name : string) : res An :=
  let name := if decide (name = "") then "default" else name in
  match analyzers !! name with
  | Some a => Ok a
  | None => if bool_decide (name ∈ builtin_names) then NewAnalyzer name
            else Err (zerr parsing_exception ("[analyzer] unknown analyzer [" +:+ name +:+ "]"))
  end.

Definition found (r : res An) : option An := match r with Ok a => Some a | Err _ => None end.

(** The analyzer of a field and its search analyzer. *)
Definition QueryAnalyzerForField (field : string) : option An * option An :=
  if decide (field = "") then (None, None)
  else match mappings !! field with
       | Some p => if decide (Type_ (options p) = "text")
                   then (found (QueryAnalyzer (Analyzer (options p))), found (QueryAnalyzer (SearchAnalyzer (options p))))
                   else (None, None)
       | None => (found (QueryAnalyzer ""), found (QueryAnalyzer ""))
       end.
Definition field_analyzer (field : string) : option An :=
  let '(index, search) := QueryAnalyzerForField field in
  match search with Some a => Some a | None => index end.
(** The analyzer that is asked for, or that of the field. *)
Definition choose_analyzer (name field : string) : res (option An) :=
  if decide (name = "") then Ok (field_analyzer field) else Some <$> QueryAnalyzer name.

(** *** One field *)

(** Queries of one field: [f] is done with it; an empty object gives [empty]. *)
Definition single {A} (name : string) (q : vdoc) (empty : A) (f : string → value → res A) : res A :=
  match q with
  | [] => Ok empty
  | [(k, v)] => f k v
  | _ => Err (zerr parsing_exception ("[" +:+ name +:+ "] query doesn't support multiple fields"))
  end.
Definition bad_value {A} (name k : string) (v : value) : res A :=
  Err (zerr xcontent ("[" +:+ name +:+ "] " +:+ k +:+ " doesn't support values of type: " +:+ type_name v)).

(** [value.Value], [value.Boost]. *)
Definition value_option (k : string) (v : value) (x : string * float) : res (string * float) :=
  if decide (k = "value") then s ← as_ "string" (str_of v); Ok (s, x.2)
  else if decide (k = "boost") then b ← as_ "float64" (num_of v); Ok (x.1, b)
  else Ok x.
Definition value_query (name : string) (option : string → value → string * float → res (string * float))
    (q : vdoc) : res (string * (string * float)) :=
  single name q ("", ("", no_boost)) (λ field v,
    x ← match v with
        | VStr s => Ok (s, no_boost)
        | VMap o => options_loop option o ("", no_boost)
        | _ => bad_value name field v
        end;
    Ok (field, x)).

Definition PrefixQuery (q : vdoc) : res Q :=
  x ← value_query "prefix" value_option q;
  let '(field, (v, boost)) := (x : string * (string * float)) in
  Ok (Prefix v field (boost_of boost)).
Definition WildcardQuery (q : vdoc) : res Q :=
  x ← value_query "wildcard" value_option q;
  let '(field, (v, boost)) := (x : string * (string * float)) in
  Ok (Wildcard v field (boost_of boost)).

Definition flags_option (k : string) (v : value) (x : string * float) : res (string * float) :=
  if decide (k = "flags") then _ ← as_ "string" (str_of v); Ok x else value_option k v x.
Definition RegexpQuery (q : vdoc) : res Q :=
  x ← value_query "regexp" flags_option q;
  let '(field, (v, boost)) := (x : string * (string * float)) in
  Ok (Regexp v field (boost_of boost)).

(** *** Terms *)

Definition TermQueryNumeric (field : string) (v : value) (boost : float) : res Q :=
  f ← on_error (λ e, zerr xcontent ("[term] convert value to numeric error: " +:+ err_text e)) (ToFloat64 v);
  Ok (NumericRange f f true true field (boost_of boost)).
Definition TermQueryBool (field : string) (v : value) (boost : float) : res Q :=
  b ← on_error (λ e, zerr xcontent ("[term] convert value to boolean error: " +:+ err_text e)) (ToBool v);
  Ok (Term (FormatBool b) field (boost_of boost)).
Definition TermQueryText (field : string) (v : value) (boost : float) : res Q :=
  s ← on_error (λ e, zerr xcontent ("[term] convert value to string error: " +:+ err_text e)) (ToString v);
  Ok (Term s field (boost_of boost)).

Definition term_option (k : string) (v : value) (x : value * float) : res (value * float) :=
  if decide (k = "value") then Ok (v, x.2)
  else if decide (k = "case_insensitive") then _ ← as_ "bool" (bool_of v); Ok x
  else if decide (k = "boost") then b ← as_ "float64" (num_of v); Ok (x.1, b)
  else Ok x.
Definition type_of (field : string) : string := default "" ((λ p, Type_ (options p)) <$> mappings !! field).
Definition TermQuery (q : vdoc) : res Q :=
  x ← single "term" q ("", (VNil, no_boost)) (λ field v,
        x ← match v with
            | VStr _ | VNum _ | VBool _ => Ok (v, no_boost)
            | VMap o => options_loop term_option o (VNil, no_boost)
            | _ => Err (zerr xcontent ("[term] doesn't support values of type: " +:+ type_name v))
            end;
        Ok (field, x));
  let '(field, (v, boost)) := (x : string * (value * float)) in
  if decide (type_of field = "numeric") then TermQueryNumeric field v boost
  else if decide (type_of field = "bool") then TermQueryBool field v boost
  else TermQueryText field v boost.

(** The values of a slice by their types. *)
Record terms := MkTerms { t_strs : list value; t_nums : list value; t_ints : list value; t_bools : list value }.
Fixpoint sort_terms (vs : list value) (t : terms) : res terms :=
  match vs with
  | [] => Ok t
  | v :: vs =>
      t ← match v with
          | VStr _ => Ok (MkTerms (t_strs t ++ [v]) (t_nums t) (t_ints t) (t_bools t))
          | VNum _ => Ok (MkTerms (t_strs t) (t_nums t ++ [v]) (t_ints t) (t_bools t))
          | VInt _ => Ok (MkTerms (t_strs t) (t_nums t) (t_ints t ++ [v]) (t_bools t))
          | VBool _ => Ok (MkTerms (t_strs t) (t_nums t) (t_ints t) (t_bools t ++ [v]))
          | _ => Err (zerr xcontent ("[term] doesn't support values of type: " +:+ type_name v))
          end;
      sort_terms vs t
  end.
Fixpoint each_term (f : value → res Q) (vs : list value) : res (list (option Q)) :=
  match vs with
  | [] => Ok []
  | v :: vs => q ← f v; qs ← each_term f vs; Ok (Some q :: qs)
  end.
Fixpoint terms_loop (q : vdoc) (field : string) (t : terms) (boost : float) : res (string * terms * float) :=
  match q with
  | [] => Ok (field, t, boost)
  | (k, v) :: q =>
      if decide (to_lower k = "boost") then b ← as_ "float64" (num_of v); terms_loop q field t b
      else match v with
           | VSlice _ vs => t ← sort_terms vs t; terms_loop q k t boost
           | _ => Err (zerr xcontent ("[terms] doesn't support values of type: " +:+ type_name v))
           end
  end.
(** The boost of a term is the zero of its struct. *)
Definition TermsQuery (q : vdoc) : res Q :=
  if (2 <? length q)%nat then Err (zerr parsing_exception "[terms] query doesn't support multiple fields")
  else
    x ← terms_loop q "" (MkTerms [] [] [] []) no_boost;
    let '(field, t, boost) := (x : string * terms * float) in
    a ← each_term (λ v, TermQueryText field v zero) (t_strs t);
    b ← each_term (λ v, TermQueryNumeric field v zero) (t_nums t);
    c ← each_term (λ v, TermQueryNumeric field v zero) (t_ints t);
    d ← each_term (λ v, TermQueryBool field v zero) (t_bools t);
    Ok (Boolean [] (a ++ b ++ c ++ d) [] None (boost_of boost)).

Fixpoint strings_of (vs : list value) : res (list value) :=
  match vs with
  | [] => Ok []
  | v :: vs => s ← as_ "string" (str_of v); ss ← strings_of vs; Ok (VStr s :: ss)
  end.
Definition ids_option (k : string) (v : value) (x : list value) : res (list value) :=
  if decide (k = "value") then
    match v with VSlice _ vs => strings_of vs | _ => bad_value "ids" k v end
  else Ok x.
Definition IdsQuery (q : vdoc) : res Q :=
  vs ← single "ids" q [] (λ k v,
         match v with
         | VSlice _ vs => strings_of vs
         | VMap o => options_loop ids_option o []
         | _ => bad_value "ids" k v
         end);
  TermsQuery [("_id", VSlice [] vs)].

(** *** Matching texts *)

Definition longest_term (tokens : list string) : Z := foldl (λ n t, Z.max n (len t)) 0 tokens.

Definition ParseFuzziness (fuzziness : value) (text : string) (zer : option An) : Z :=
  let val := to_upper (or_ "" (ToString fuzziness)) in
  if negb (HasPrefix val "AUTO") then or_ 0 (ToInt (VStr val))
  else
    let n := longest_term (Analyze (default NewStandardAnalyzer zer) text) in
    let pick n1 n2 := if n2 <=? n then 2 else if n1 <=? n then 1 else 0 in
    if Contains val ":" && Contains val "," then
      match Split (TrimPrefix val "AUTO:") "," with
      | [a; b] =>
          let n1 := or_ 0 (ToInt (VStr a)) in
          let n2 := or_ 0 (ToInt (VStr b)) in
          if (n1 <? 2) || (n2 <=? n1) then 0 else pick n1 n2
      | _ => pick 3 6
      end
    else pick 3 6.
Definition fuzziness_of (fuzziness : option value) (text : string) (zer : option An) : option Z :=
  match fuzziness with
  | None | Some VNil => None
  | Some f => let v := ParseFuzziness f text zer in if 0 <? v then Some v else None
  end.

Record match_options := MkMatch {
  m_query : string; m_analyzer : string; m_operator : string; m_fuzziness : option value; m_prefix : float;
  m_boost : float; m_min : option value }.
Definition match_option (k : string) (v : value) (x : match_options) : res match_options :=
  let '(MkMatch q a o f p b m) := x in
  Ok (if decide (k = "query") then MkMatch (or_ "" (ToString v)) a o f p b m
      else if decide (k = "analyzer") then MkMatch q (or_ "" (ToString v)) o f p b m
      else if decide (k = "operator") then MkMatch q a (or_ "" (ToString v)) f p b m
      else if decide (k = "fuzziness") then MkMatch q a o (Some v) p b m
      else if decide (k = "prefix_length") then MkMatch q a o f (or_ zero (ToFloat64 v)) b m
      else if decide (k = "boost") then MkMatch q a o f p (or_ zero (ToFloat64 v)) m
      else if decide (k = "minimum_should_match") then MkMatch q a o f p b (Some v)
      else x).
Definition no_match : match_options := MkMatch "" "" "" None zero no_boost None.
Definition not_nil (v : option value) : option value := match v with Some VNil => None | _ => v end.

Definition genQueryWithMinimumShouldMatch (ana : option An) (field : string) (x : match_options) (min : value) : res Q :=
  ana ← match ana with
        | Some a => Ok a
        | None => match NewAnalyzer "standard" with
                  | Ok a => Ok a
                  | Err _ => Err (Panic "invalid memory address or nil pointer dereference")
                  end
        end;
  let fuzziness := fuzziness_of (m_fuzziness x) (m_query x) (Some ana) in
  let boost := if SFleb zero (m_boost x) then m_boost x else float_of_Z 1 in
  match Analyze ana (m_query x) with
  | [] => Ok MatchNone
  | tokens =>
      let one t := match fuzziness with
                   | Some f => Fuzzy t field (Some f) (Some (int64_of (m_prefix x))) (Some boost)
                   | None => Term t field (Some boost)
                   end in
      n ← CalculateMin (Z.of_nat (length tokens)) min;
      Ok (Boolean [] (map (λ t, Some (one t)) tokens) [] (Some n) (Some boost))
  end.

Definition parse_operator (name o : string) : res (option operator) :=
  if decide (o = "") then Ok None
  else if decide (to_upper o = "OR") then Ok (Some OpOr)
  else if decide (to_upper o = "AND") then Ok (Some OpAnd)
  else Err (zerr "illegal_argument_exception" ("[" +:+ name +:+ "] unknown operator " +:+ to_upper o)).

Definition MatchQuery (q : vdoc) : res Q :=
  y ← single "match" q ("", no_match) (λ field v,
        x ← match v with
            | VStr s => Ok (MkMatch s "" "" None zero no_boost None)
            | VMap o => options_loop match_option o no_match
            | _ => bad_value "match" field v
            end;
        Ok (field, x));
  let '(field, x) := (y : string * match_options) in
  zer ← choose_analyzer (m_analyzer x) field;
  match not_nil (m_min x), bool_decide (m_operator x = "" ∨ to_upper (m_operator x) = "OR") with
  | Some min, true => genQueryWithMinimumShouldMatch zer field x min
  | _, _ =>
      op ← parse_operator "match" (m_operator x);
      Ok (Match (m_query x) field zer op (fuzziness_of (m_fuzziness x) (m_query x) zer) (prefix_of (m_prefix x))
            (boost_of (m_boost x)))
  end.

(** Queries with [query], [analyzer] and [boost]: the text, the analyzer's name, the boost. *)
Definition text_option (k : string) (v : value) (x : string * string * float) : res (string * string * float) :=
  let '(q, a, b) := x in
  if decide (k = "query") then s ← as_ "string" (str_of v); Ok (s, a, b)
  else if decide (k = "analyzer") then s ← as_ "string" (str_of v); Ok (q, s, b)
  else if decide (k = "boost") then f ← as_ "float64" (num_of v); Ok (q, a, f)
  else Ok x.
Definition text_query (name : string) (q : vdoc) : res (string * (string * string * float)) :=
  single name q ("", ("", "", no_boost)) (λ field v,
    x ← match v with
        | VStr s => Ok (s, "", no_boost)
        | VMap o => options_loop text_option o ("", "", no_boost)
        | _ => bad_value name field v
        end;
    Ok (field, x)).

Definition MatchPhraseQuery (q : vdoc) : res Q :=
  y ← text_query "match_phrase" q;
  let '(field, (text, a, boost)) := (y : string * (string * string * float)) in
  zer ← choose_analyzer a field;
  Ok (Phrase text field zer (boost_of boost)).

Definition MatchPhrasePrefixQuery (q : vdoc) : res Q :=
  y ← text_query "match_phrase_prefix" q;
  let '(field, (text, a, boost)) := (y : string * (string * string * float)) in
  zer ← choose_analyzer a field;
  let zer := default NewStandardAnalyzer zer in
  let tokens := Analyze zer text in
  let first := removelast tokens in
  Ok (Boolean
        (option_list (match last tokens with Some t => Some (Some (Prefix t field None)) | None => None end) ++
         match first with [] => [] | _ => [Some (Phrase (TrimSpace (String.concat " " first)) field (Some zer) None)] end)
        [] [] None (boost_of boost)).

Definition MatchBoolPrefixQuery (q : vdoc) : res Q :=
  y ← text_query "match_bool_prefix" q;
  let '(field, (text, a, boost)) := (y : string * (string * string * float)) in
  zer ← choose_analyzer a field;
  let tokens := Analyze (default NewStandardAnalyzer zer) text in
  Ok (Boolean []
        (map (λ t, Some (Term t field None)) (removelast tokens) ++
         option_list (match last tokens with Some t => Some (Some (Prefix t field None)) | None => None end))
        [] None (boost_of boost)).

Record multi_options := MkMulti {
  mm_query : string; mm_analyzer : string; mm_fields : list string; mm_boost : float; mm_operator : string;
  mm_min : option value }.
Fixpoint append_strings (l : list string) (vs : list value) : res (list string) :=
  match vs with [] => Ok l | v :: vs => s ← as_ "string" (str_of v); append_strings (l ++ [s]) vs end.
Definition multi_option (k : string) (v : value) (x : multi_options) : res multi_options :=
  let '(MkMulti q a fs b o m) := x in
  if decide (k = "query") then s ← as_ "string" (str_of v); Ok (MkMulti s a fs b o m)
  else if decide (k = "analyzer") then s ← as_ "string" (str_of v); Ok (MkMulti q s fs b o m)
  else if decide (k = "fields") then
    match v with VSlice _ vs => fs ← append_strings fs vs; Ok (MkMulti q a fs b o m) | _ => Ok x end
  else if decide (k = "boost") then f ← as_ "float64" (num_of v); Ok (MkMulti q a fs f o m)
  else if decide (k = "type") then _ ← as_ "string" (str_of v); Ok x
  else if decide (k = "operator") then s ← as_ "string" (str_of v); Ok (MkMulti q a fs b s m)
  else if decide (k = "minimum_should_match") then Ok (MkMulti q a fs b o (Some v))
  else Ok x.
(** The analyzer that is found for a field is kept for those that follow. *)
Fixpoint multi_fields (text : string) (op : operator) (zer : option An) (fields : list string) : list (option Q) :=
  match fields with
  | [] => []
  | f :: fields =>
      let zer := match zer with Some a => Some a | None => field_analyzer f end in
      Some (Match text f zer (Some op) None None None) :: multi_fields text op zer fields
  end.
Definition MultiMatchQuery (q : vdoc) : res Q :=
  x ← options_loop multi_option q (MkMulti "" "" [] no_boost "" None);
  let zer := if decide (mm_analyzer x = "") then None else found (QueryAnalyzer (mm_analyzer x)) in
  op ← parse_operator "multi_match" (mm_operator x);
  min ← match not_nil (mm_min x) with
        | None => Ok None
        | Some m => on_error (λ e, zerr xcontent ("[multi_match] unsupported MinimumShouldMatch value: " +:+ err_text e))
                      (Some <$> CalculateMin (Z.of_nat (length (mm_fields x))) m)
        end;
  Ok (Boolean [] (multi_fields (mm_query x) (default OpOr op) zer (mm_fields x)) [] min (boost_of (mm_boost x))).

Definition FuzzyQuery (q : vdoc) : res Q :=
  y ← single "fuzzy" q ("", no_match) (λ field v,
        x ← match v with
            | VStr s => Ok (MkMatch s "" "" None zero no_boost None)
            | VMap o => options_loop (λ k v x,
                if bool_decide (k ∈ ["fuzziness"; "prefix_length"; "boost"]) then match_option k v x
                else if decide (k = "value") then match_option "query" v x
                else Ok x) o no_match
            | _ => bad_value "fuzzy" field v
            end;
        Ok (field, x));
  let '(field, x) := (y : string * match_options) in
  Ok (Fuzzy (m_query x) field (fuzziness_of (m_fuzziness x) (m_query x) (field_analyzer field))
        (prefix_of (m_prefix x)) (boost_of (m_boost x))).

(** *** Query strings *)

Definition qs_option (k : string) (v : value) (x : string * string * list string) : res (string * string * list string) :=
  let '(q, a, fs) := x in
  if decide (k = "query") then s ← as_ "string" (str_of v); Ok (s, a, fs)
  else if decide (k = "analyzer") then s ← as_ "string" (str_of v); Ok (q, s, fs)
  else if decide (k = "fields") then
    match v with VSlice _ vs => fs ← append_strings fs vs; Ok (q, a, fs) | _ => Ok x end
  else if bool_decide (k ∈ ["default_field"; "default_operator"]) then _ ← as_ "string" (str_of v); Ok x
  else if decide (k = "boost") then _ ← as_ "float64" (num_of v); Ok x
  else if decide (k = "analyze_wildcard") then Ok x
  else Err (zerr parsing_exception ("[query_string] unsupported children " +:+ k)).

(** The fields that are searched when none are given, in the order of the map. *)
Definition text_fields : list string :=
  fst <$> filter (λ kp, Type_ (options kp.2) ∈ ["text"; "keyword"]) (map_to_list mappings).
Definition string_field (f : string) : option (string * An) :=
  (λ a, (f, a)) <$> (if decide (type_of f = "keyword") then Some NewKeywordAnalyzer else field_analyzer f).

Definition QueryStringQuery (q : vdoc) : res Q :=
  x ← options_loop qs_option q ("", "", []);
  let '(text, a, fs) := (x : string * string * list string) in
  let zer := default NewStandardAnalyzer (found (QueryAnalyzer a)) in
  let fields := omap string_field (match fs with [] => text_fields | _ => fs end) in
  match ParseQueryString text zer fields with
  | Some e => Err e
  | None => Ok (QueryString text zer fields)
  end.

(** *** Ranges *)

Record range_options := MkRange {
  r_gt : option value; r_gte : option value; r_lt : option value; r_lte : option value;
  r_format : string; r_zone : string; r_boost : float }.
Definition no_range : range_options := MkRange None None None None "" "" no_boost.

Definition bound_option (k : string) (v : value) (x : range_options) : option range_options :=
  let '(MkRange gt gte lt lte f z b) := x in
  if decide (k = "gt") then Some (MkRange (Some v) gte lt lte f z b)
  else if decide (k = "gte") then Some (MkRange gt (Some v) lt lte f z b)
  else if decide (k = "lt") then Some (MkRange gt gte (Some v) lte f z b)
  else if decide (k = "lte") then Some (MkRange gt gte lt (Some v) f z b)
  else None.
Definition set_range_boost (b : float) (x : range_options) : range_options :=
  MkRange (r_gt x) (r_gte x) (r_lt x) (r_lte x) (r_format x) (r_zone x) b.

(** Values are converted at once; what cannot be is zero. *)
Definition numeric_option (k : string) (v : value) (x : range_options) : res range_options :=
  let f := or_ zero (ToFloat64 v) in
  Ok (match bound_option k (VNum f) x with
      | Some x => x
      | None => if decide (k = "boost") then set_range_boost f x else x
      end).
(** [value.GT != nil && value.GT.(float64) > 0]. *)
Definition positive_bound (o : option value) : option float :=
  match o with Some (VNum f) => if SFltb zero f then Some f else None | _ => None end.
Definition RangeQueryNumeric (field : string) (o : vdoc) : res Q :=
  x ← options_loop numeric_option o no_range;
  let '(min, minInclusive) := match positive_bound (r_gte x) with
                              | Some f => (f, true)
                              | None => (default zero (positive_bound (r_gt x)), false)
                              end in
  let '(max, maxInclusive) := match positive_bound (r_lte x) with
                              | Some f => (f, true)
                              | None => (default zero (positive_bound (r_lt x)), false)
                              end in
  let max := if SFeqb max zero then float_of_Z i64_max else max in
  Ok (NumericRange min max minInclusive maxInclusive field (boost_of (r_boost x))).

Definition time_option (k : string) (v : value) (x : range_options) : res range_options :=
  Ok (match bound_option k v x with
      | Some x => x
      | None =>
          let '(MkRange gt gte lt lte f z b) := x in
          if decide (k = "format") then MkRange gt gte lt lte (or_ "" (ToString v)) z b
          else if decide (k = "time_zone") then MkRange gt gte lt lte f (or_ "" (ToString v)) b
          else if decide (k = "boost") then set_range_boost (or_ zero (ToFloat64 v)) x
          else x
      end).

(** [zutils.ParseTimeZone] and [StringToInt]; the nil location is [None]. *)
Definition StringToInt (s : string) : Z := or_ 0 (ParseInt (TrimSpace s)).
Definition ParseTimeZone (name : string) : res Location :=
  match name with
  | String c _ =>
      if bool_decide (c ∈ ["+"; "-"]%char) then
        let sub a n := StringToInt (String.substring a n name)%nat in
        let hours := if 3 <=? len name then 3600 * sub 1%nat 2%nat else 0 in
        let minutes := if len name =? 5 then 60 * sub 3%nat 2%nat
                       else if (len name =? 6) && bool_decide (String.get 3 name = Some ":"%char) then 60 * sub 4%nat 2%nat
                       else 0 in
        let offset := hours + minutes in
        Ok (FixedZone name (if bool_decide (c = "-"%char) then - offset else offset))
      else if decide (to_upper name = "UTC") then Ok UTC
      else if decide (to_upper name = "LOCAL") then Ok Local_
      else LoadZone name
  | "" => Ok UTC
  end.

(** One bound: [old] when it is not given. *)
Definition epoch_millis (format : string) : bool := bool_decide (format = "epoch_millis").
Definition time_bound (field name format : string) (zone : option Location) (o : option value) (old : Z) : res Z :=
  match not_nil o with
  | None => Ok old
  | Some v =>
      on_error (λ e, zerr xcontent ("[range] " +:+ field +:+ " range." +:+ name +:+ " format err " +:+ err_text e))
        (if epoch_millis format then ms ← ToFloat64 v; Ok (int64_of ms * 10 ^ 6)
         else let text := or_ "" (ToString v) in
              match zone with Some l => ParseInLocation format text l | None => ParseInNil format text end)
  end.
Definition given (o : option value) : bool := match not_nil o with Some _ => true | None => false end.

Definition RangeQueryTime (field : string) (o : vdoc) : res Q :=
  x ← options_loop time_option o no_range;
  let prop := options <$> mappings !! field in
  let format := match Format <$> prop with Some (String _ _ as f) => f | _ => RFC3339 end in
  let zone := match TimeZone <$> prop with
              | Some (String _ _ as z) => match ParseTimeZone z with Ok l => Some l | Err _ => None end
              | _ => Some UTC
              end in
  let format := if decide (r_format x = "") then format else r_format x in
  zone ← (if decide (r_zone x = "") then Ok zone
          else on_error (λ e, zerr xcontent ("[range] " +:+ field +:+ " time_zone parse err " +:+ err_text e))
                 (Some <$> ParseTimeZone (r_zone x)));
  min ← time_bound field "gt" format zone (r_gt x) zero_time;
  min ← time_bound field "gte" format zone (r_gte x) min;
  max ← time_bound field "lt" format zone (r_lt x) zero_time;
  max ← time_bound field "lte" format zone (r_lte x) max;
  let max := if max =? zero_time then time_Now else max in
  Ok (DateRange min max (given (r_gte x)) (given (r_lte x)) field (boost_of (r_boost x))).

(** An empty object gives the nil query. *)
Definition RangeQuery (q : vdoc) : res (option Q) :=
  single "range" q None (λ field v,
    match v with
    | VMap o =>
        if decide (type_of field = "numeric") then Some <$> RangeQueryNumeric field o
        else if bool_decide (type_of field ∈ ["date"; "time"]) then Some <$> RangeQueryTime field o
        else Err (zerr xcontent ("[range] " +:+ field +:+ " only support values of [numeric, time], got " +:+ type_of field))
    | _ => Err (zerr parsing_exception ("[range] query doesn't support values of type: " +:+ type_name v))
    end).

(** *** Bool, and all queries *)

Definition not_implemented (name : string) : error := zerr "not_implemented" ("[" +:+ name +:+ "] query doesn't support").
Definition unimplemented : list string :=
  ["boosting"; "combined_fields"; "exists"; "terms_set"; "geo_bounding_box"; "geo_distance"; "geo_polygon"; "geo_shape"].

Record clauses := MkClauses {
  c_must : list (option Q); c_should : list (option Q); c_not : list (option Q); c_min : option value }.
Definition no_clauses : clauses := MkClauses [] [] [] None.

Section bool.
Context (sub : value → res (option Q)).

(** The values of a clause: [vv.(map[string]interface{})] for each of a slice. *)
Fixpoint sub_queries (name typ : string) (vs : list value) : res (list (option Q)) :=
  match vs with
  | [] => Ok []
  | v :: vs =>
      q ← match v with
          | VMap _ => on_error (zcause typ ("[" +:+ name +:+ "] failed to parse field")) (sub v)
          | _ => Err (Panic "interface conversion: interface {} is not map[string]interface {}")
          end;
      qs ← sub_queries name typ vs;
      Ok (q :: qs)
  end.
Definition clause (name typ : string) (v : value) : res (list (option Q)) :=
  match v with
  | VMap _ => q ← on_error (zcause typ ("[" +:+ name +:+ "] failed to parse field")) (sub v); Ok [q]
  | VSlice _ vs => sub_queries name typ vs
  | _ => Err (zerr xcontent ("[bool] " +:+ name +:+ " doesn't support values of type: " +:+ type_name v))
  end.

Fixpoint bool_loop (o : vdoc) (x : clauses) : res clauses :=
  match o with
  | [] => Ok x
  | (k, v) :: o =>
      let '(MkClauses must should not min) := x in
      let k := to_lower k in
      x ← if decide (k = "should") then qs ← clause k xcontent v; Ok (MkClauses must (should ++ qs) not min)
          else if decide (k = "must") then qs ← clause k xcontent v; Ok (MkClauses (must ++ qs) should not min)
          else if decide (k = "must_not") then qs ← clause k xcontent v; Ok (MkClauses must should (not ++ qs) min)
          else if decide (k = "filter") then
            qs ← clause k parsing_exception v;
            Ok (MkClauses (must ++ [Some (Boolean qs [] [] None (Some zero))]) should not min)
          else if decide (k = "minimum_should_match") then Ok (MkClauses must should not (Some v))
          else Err (zerr xcontent ("[bool] unknown field [" +:+ k +:+ "]"));
      bool_loop o x
  end.

Definition BoolQuery (o : vdoc) : res Q :=
  x ← bool_loop o no_clauses;
  min ← match not_nil (c_min x) with
        | None => Ok None
        | Some m => on_error (λ e, zerr xcontent ("[bool] unsupported MinimumShouldMatch value: " +:+ err_text e))
                      (Some <$> CalculateMin (Z.of_nat (length (c_should x))) m)
        end;
  Ok (Boolean (c_must x) (c_should x) (c_not x) min None).

(** The query of one name. *)
Definition query_of (k : string) (v : vdoc) : res (option Q) :=
  let some r := Some <$> (r : res Q) in
  let typ r := on_error (zcause xcontent ("[" +:+ k +:+ "] failed to parse field")) (r : res (option Q)) in
  if decide (k = "bool") then typ (some (BoolQuery v))
  else if decide (k = "match") then typ (some (MatchQuery v))
  else if decide (k = "match_bool_prefix") then typ (some (MatchBoolPrefixQuery v))
  else if decide (k = "match_phrase") then typ (some (MatchPhraseQuery v))
  else if decide (k = "match_phrase_prefix") then typ (some (MatchPhrasePrefixQuery v))
  else if decide (k = "multi_match") then typ (some (MultiMatchQuery v))
  else if decide (k = "match_all") then Ok (Some MatchAll)
  else if decide (k = "match_none") then Ok (Some MatchNone)
  else if bool_decide (k ∈ ["query_string"; "simple_query_string"]) then typ (some (QueryStringQuery v))
  else if decide (k = "ids") then typ (some (IdsQuery v))
  else if decide (k = "range") then typ (RangeQuery v)
  else if decide (k = "regexp") then typ (some (RegexpQuery v))
  else if decide (k = "prefix") then typ (some (PrefixQuery v))
  else if decide (k = "fuzzy") then typ (some (FuzzyQuery v))
  else if decide (k = "wildcard") then typ (some (WildcardQuery v))
  else if decide (k = "term") then typ (some (TermQuery v))
  else if decide (k = "terms") then typ (some (TermsQuery v))
  else if bool_decide (k ∈ unimplemented) then typ (Err (not_implemented k))
  else Err (zerr parsing_exception ("[" +:+ k +:+ "] query doesn't support")).

Fixpoint query_loop (o : vdoc) (cmd : string) (subq : option Q) : res (option Q) :=
  match o with
  | [] => Ok subq
  | (k, t) :: o =>
      match subq, decide (cmd = "") with
      | Some _, right _ =>
          Err (zerr parsing_exception ("[" +:+ cmd +:+ "] malformed query, excepted [END_OBJECT] but found [FIELD_NAME] " +:+ k))
      | _, _ =>
          let k := to_lower k in
          match t with
          | VMap v => q ← query_of k v; query_loop o k q
          | _ => Err (zerr parsing_exception ("[" +:+ k +:+ "] query doesn't support value type " +:+ type_name t))
          end
      end
  end.
End bool.

(** The recursion through [BoolQuery] is bounded by the depth of the value. *)
Fixpoint depth (v : value) : nat :=
  match v with
  | VSlice _ vs => Datatypes.S (foldr (λ v n, Nat.max (depth v) n) O vs)
  | VMap o => Datatypes.S (foldr (λ kv n, Nat.max (depth kv.2) n) O o)
  | _ => O
  end.
Definition OutOfFuel : error := errors_New "out of fuel".
Fixpoint Query_ (fuel : nat) (v : value) : res (option Q) :=
  match fuel with
  | O => Err OutOfFuel
  | Datatypes.S fuel =>
      match v with
      | VNil => Ok (Some MatchAll)
      | VMap o => query_loop (Query_ fuel) o "" None
      | _ => Err (zerr "invalid_argument" "query must be a map[string]interface{}")
      end
  end.
Definition Query (v : value) : res (option Q) := Query_ (Datatypes.S (depth v)) v.
End query.
