(* ===== verification/QueryFacts.v ===== *)
(** What the translation of queries (Query.v) guarantees: it follows the recursion of the
    source to its end, what one object may hold, what every query it makes satisfies, and
    that the order in which a map is visited does not matter to a bool query. *)
From Stdlib Require Import SpecFloat.
From S2P Require Import Prelude Strings State Wire Mappings Values Document MinShould Query.
#[local] Open Scope Z_scope.

Create HintDb query.

(** ** Results *)

(** [P] holds of what is returned. *)
Definition returns {A} (P : A → Prop) (r : res A) : Prop := match r with Ok a => P a | Err _ => True end.

Lemma returns_bind {A B} (P : B → Prop) (f : A → res B) r :
  (∀ a, r = Ok a → returns P (f a)) → returns P (a ← r; f a).
Proof. destruct r; simpl; auto. Qed.
Lemma returns_on_error {A} (P : A → Prop) f r : returns P r → returns P (on_error f r).
Proof. by destruct r. Qed.
Lemma returns_fmap {A B} (P : B → Prop) (f : A → B) r : returns (λ a, P (f a)) r → returns P (f <$> r).
Proof. by destruct r. Qed.
Lemma returns_ok {A} (P : A → Prop) r a : returns P r → r = Ok a → P a.
Proof. by intros H ->. Qed.
Lemma returns_trivial {A} (P : A → Prop) r : (∀ a, P a) → returns P r.
Proof. destruct r; simpl; auto. Qed.

Section facts.
Context `{lib : GoLib} {ss : SortSlice} {qlib : QueryLib}.
#[local] Abbreviation Q := (query analyzer).
Context (mappings : Mappings) (analyzers : gmap string analyzer).
#[local] Abbreviation Query := (Query mappings analyzers).
#[local] Abbreviation Query_ := (Query_ mappings analyzers).
#[local] Set Default Proof Using "Type".

(** ** The recursion *)

Definition depths (o : vdoc) : nat := foldr (λ kv n, Nat.max (depth kv.2) n) O o.
Definition depths_slice (vs : list value) : nat := foldr (λ v n, Nat.max (depth v) n) O vs.

(** Two functions agree on the values less deep than [n]. *)
Definition agree {B} (n : nat) (f g : value → B) : Prop := ∀ v, (depth v < n)%nat → f v = g v.

Lemma sub_queries_agree n f g name typ vs : agree n f g → (depths_slice vs < n)%nat →
  sub_queries f name typ vs = sub_queries g name typ vs.
Proof.
  intros Ha. induction vs as [|v vs IH]; [done|]. intros Hd. change (Nat.max (depth v) (depths_slice vs) < n)%nat in Hd.
  simpl. rewrite IH by lia. destruct v; try done. rewrite Ha by lia. done.
Qed.
Lemma clause_agree n f g name typ v : agree n f g → (depth v < n)%nat → clause f name typ v = clause g name typ v.
Proof.
  intros Ha Hd. destruct v as [| | | | |a vs|o]; try done; unfold clause.
  - apply sub_queries_agree with n; [done|]. change (Datatypes.S (depths_slice vs) < n)%nat in Hd. lia.
  - by rewrite Ha.
Qed.
Lemma bool_loop_agree n f g o : agree n f g → (depths o < n)%nat → ∀ x, bool_loop f o x = bool_loop g o x.
Proof.
  intros Ha. induction o as [|[k v] o IH]; [done|]. intros Hd [must should not min].
  change (Nat.max (depth v) (depths o) < n)%nat in Hd. simpl.
  rewrite !(clause_agree n f g) by (done || lia). unfold mbind, res_bind. repeat case_decide; try done;
    try (destruct (clause _ _ _ _); [apply IH; lia|done]). apply IH; lia.
Qed.
Lemma query_of_agree n f g k o : agree n f g → (depths o < n)%nat →
  query_of mappings analyzers f k o = query_of mappings analyzers g k o.
Proof. intros Ha Hd. unfold query_of, BoolQuery. by rewrite (bool_loop_agree n f g). Qed.
Lemma query_loop_agree n f g o : agree n f g → (depths o < Datatypes.S n)%nat → ∀ cmd q,
  query_loop mappings analyzers f o cmd q = query_loop mappings analyzers g o cmd q.
Proof.
  intros Ha. induction o as [|[k v] o IH]; [done|]. intros Hd cmd q.
  change (Nat.max (depth v) (depths o) < Datatypes.S n)%nat in Hd. simpl.
  destruct v as [| | | | |a vs|o']; try done. change (depth (VMap o')) with (Datatypes.S (depths o')) in Hd.
  rewrite (query_of_agree n f g) by (done || lia). unfold mbind, res_bind.
  destruct (query_of _ _ g _ _); [|done]. rewrite IH by lia. done.
Qed.

Lemma Query_fuel n : ∀ m v, (depth v < n)%nat → (depth v < m)%nat → Query_ n v = Query_ m v.
Proof.
  induction n as [|n IH]; intros m v Hn Hm; [lia|]. destruct m as [|m]; [lia|].
  destruct v as [| | | | |a vs|o]; [reflexivity..|].
  change (depth (VMap o)) with (Datatypes.S (depths o)) in Hn, Hm. simpl.
  apply query_loop_agree with (depths o); [|lia]. intros v Hv. apply IH; lia.
Qed.

Lemma Query_unfold o : Query (VMap o) = query_loop mappings analyzers Query o "" None.
Proof.
  apply query_loop_agree with (depths o); [|lia]. intros v Hv. apply Query_fuel; [|lia].
  change (depth (VMap o)) with (Datatypes.S (depths o)). lia.
Qed.

(** C37: the recursion through bool queries ends, whatever the query; with
    enough fuel the result does not depend on it, and [Query] satisfies the equation of
    the source. *)
Theorem Query_terminates v fuel : (depth v < fuel)%nat →
  Query_ fuel v = Query v ∧
  Query v = match v with
            | VNil => Ok (Some MatchAll)
            | VMap o => query_loop mappings analyzers Query o "" None
            | _ => Err (zerr "invalid_argument" "query must be a map[string]interface{}")
            end.
Proof. intros Hf. split; [apply Query_fuel; [done|lia]|]. destruct v as [| | | | |a vs|o]; [reflexivity..|].
  apply Query_unfold. Qed.

(** ** One object *)

Lemma RangeQuery_nil o : RangeQuery mappings o = Ok None ↔ o = [].
Proof.
  split; [|by intros ->]. unfold RangeQuery, single. destruct o as [|[k v] [|]]; try done.
  destruct v as [| | | | |a vs|o]; try done. case_decide; [by destruct (RangeQueryNumeric k o)|].
  case_bool_decide; [by destruct (RangeQueryTime _ k o)|done].
Qed.

(** What an object of one name is, the object of a range apart. *)
Definition made (sub : value → res (option Q)) (o : vdoc) : list (res Q) :=
  [BoolQuery sub o; MatchQuery mappings analyzers o; MatchBoolPrefixQuery mappings analyzers o;
   MatchPhraseQuery mappings analyzers o; MatchPhrasePrefixQuery mappings analyzers o;
   MultiMatchQuery mappings analyzers o; QueryStringQuery mappings analyzers o; IdsQuery o; RegexpQuery o;
   PrefixQuery o; FuzzyQuery mappings analyzers o; WildcardQuery o; TermQuery mappings o; TermsQuery o;
   Ok MatchAll; Ok MatchNone].

#[local] Ltac solve_in := lazymatch goal with
  | |- ?x ∈ made _ _ => unfold made; solve_in
  | |- ?x ∈ ?y :: _ => first [constr_eq x y; apply list_elem_of_here | apply list_elem_of_further; solve_in]
  end.
Lemma query_of_made sub k o : k ≠ "range" → ∃ r f, query_of mappings analyzers sub k o = on_error f (Some <$> r) ∧
  (r ∈ made sub o ∨ ∃ e, r = Err e).
Proof.
  assert (∀ r f, r ∈ made sub o → ∃ r' f', on_error f (Some <$> r) = on_error f' (Some <$> r') ∧
           (r' ∈ made sub o ∨ ∃ e, r' = Err e)) as Hm by (intros r f Hr; exists r, f; auto).
  assert (∀ (r : res Q) f, (∃ e, r = Err e) → ∃ r' f', on_error f (Some <$> r) = on_error f' (Some <$> r') ∧
           (r' ∈ made sub o ∨ ∃ e, r' = Err e)) as He by (intros r f Hr; exists r, f; auto).
  intros Hk. unfold query_of.
  repeat (case_decide; [first [done | simple apply Hm; solve_in
                              | exists (Ok MatchAll), id; split; [done|left; solve_in]
                              | exists (Ok MatchNone), id; split; [done|left; solve_in] ]|]).
  case_bool_decide; [simple apply Hm; solve_in|].
  repeat (case_decide; [first [done | simple apply Hm; solve_in]|]).
  case_bool_decide; [eexists (Err _), _; split; [done|eauto]|].
  eexists (Err _), (λ e, e). split; [unfold on_error; simpl|eauto]. by destruct is_panic.
Qed.

(** An object that gives no query: an empty range. *)
Definition empty_range (kv : string * value) : Prop := to_lower kv.1 = "range" ∧ kv.2 = VMap [].

Lemma query_of_nil sub k o : query_of mappings analyzers sub k o = Ok None ↔ k = "range" ∧ o = [].
Proof.
  split; [|by intros [-> ->]]. destruct (decide (k = "range")) as [->|Hk].
  - intros H. split; [done|]. apply RangeQuery_nil. change (query_of mappings analyzers sub "range" o) with
      (on_error (zcause xcontent ("[" +:+ "range" +:+ "] failed to parse field")) (RangeQuery mappings o)) in H.
    by destruct (RangeQuery mappings o).
  - destruct (query_of_made sub k o Hk) as (r & f & -> & _). by destruct r.
Qed.

(** What [query_loop] accepts after [subq]. *)
Lemma query_loop_one sub o cmd q : query_loop mappings analyzers sub o cmd None = Ok q →
  ∃ ranges rest, o = ranges ++ rest ∧ Forall empty_range ranges ∧
    match q with
    | None => rest = []
    | Some q => ∃ k v, rest = [(k, VMap v)] ∧ query_of mappings analyzers sub (to_lower k) v = Ok (Some q)
    end.
Proof.
  revert cmd. induction o as [|[k t] o IH]; intros cmd; simpl.
  { intros [= <-]. by exists [], []. }
  destruct t as [| | | | |a vs|v]; try done. unfold mbind, res_bind.
  destruct (query_of mappings analyzers sub (to_lower k) v) as [[q'|]|] eqn:Eq; [|intros H|done].
  - destruct o as [|[k' v'] o]; simpl.
    + intros [= <-]. exists [], [(k, VMap v)]. split_and!; [done|constructor|]. eauto.
    + destruct (decide (to_lower k = "")) as [E|]; [|done]. intros _. rewrite E in Eq. done.
  - destruct (IH _ H) as (ranges & rest & -> & Hr & Hq). exists ((k, VMap v) :: ranges), rest.
    apply query_of_nil in Eq as [? ->]. split_and!; [done|by constructor|done].
Qed.

(** [Query_one_object]: an object is one query. What [Query] accepts is an object with one
    name, after any number of empty ranges, which stand for no query at all; the answer is
    that of the name, and no query without one. *)
Theorem Query_one_object o q : Query (VMap o) = Ok q →
  ∃ ranges rest, o = ranges ++ rest ∧ Forall empty_range ranges ∧
    match q with
    | None => rest = []
    | Some q => ∃ k v, rest = [(k, VMap v)] ∧ query_of mappings analyzers Query (to_lower k) v = Ok (Some q)
    end.
Proof. rewrite Query_unfold. apply query_loop_one. Qed.

(** ** What is made *)

Definition boost_ok (b : option float) : Prop := match b with Some f => SFleb zero f = true | None => True end.
Definition above_zero (n : option Z) : Prop := match n with Some n => 0 < n | None => True end.
Definition min_ok (n : nat) (min : option Z) : Prop :=
  match min with Some m => 1 ≤ m ∧ (n ≠ O → m ≤ Z.of_nat n) | None => True end.

(** No boost is negative; a fuzziness is positive; of the clauses that should match, at
    least one and at most all have to; so for all queries inside. *)
Fixpoint well_made (q : Q) : Prop :=
  let fix all (l : list (option Q)) : Prop :=
    match l with [] => True | None :: l => all l | Some q :: l => well_made q ∧ all l end in
  match q with
  | MatchAll | MatchNone | QueryString _ _ _ => True
  | Term _ _ b | Prefix _ _ b | Wildcard _ _ b | Regexp _ _ b | Phrase _ _ _ b
  | NumericRange _ _ _ _ _ b | DateRange _ _ _ _ _ b => boost_ok b
  | Fuzzy _ _ f _ b | Match _ _ _ _ f _ b => above_zero f ∧ boost_ok b
  | Boolean must should mustNot min b =>
      all must ∧ all should ∧ all mustNot ∧ min_ok (length should) min ∧ boost_ok b
  end.
Definition well_made_all : list (option Q) → Prop :=
  fix all l := match l with [] => True | None :: l => all l | Some q :: l => well_made q ∧ all l end.
Definition well (q : option Q) : Prop := match q with Some q => well_made q | None => True end.

Lemma well_made_all_Forall l : well_made_all l ↔ Forall well l.
Proof.
  induction l as [|[q|] l IH]; simpl; [done| |]; rewrite Forall_cons; unfold well at 1; rewrite IH; tauto.
Qed.
Lemma well_made_Boolean must should mustNot min b : well_made (Boolean must should mustNot min b) ↔
  Forall well must ∧ Forall well should ∧ Forall well mustNot ∧ min_ok (length should) min ∧ boost_ok b.
Proof. rewrite <- !well_made_all_Forall. done. Qed.

Lemma boost_of_ok f : boost_ok (boost_of f).
Proof. unfold boost_of. by destruct (SFleb zero f) eqn:E. Qed.
Lemma fuzziness_ok f text zer : above_zero (fuzziness_of f text zer).
Proof.
  unfold fuzziness_of. destruct f as [v|]; [|done].
  assert (∀ n, above_zero (if 0 <? n then Some n else None)) as H by (intros n; by destruct (Z.ltb_spec 0 n)).
  destruct v; try done; apply H.
Qed.
Lemma CalculateMin_ok n v r : CalculateMin (Z.of_nat n) v = Ok r → min_ok n (Some r).
Proof. intros H. apply CalculateMin_range in H as [? ?]; [|lia]. split; [done|]. intros. lia. Qed.
#[local] Hint Resolve boost_of_ok fuzziness_ok : query.

#[local] Ltac made := repeat first
  [ progress cbv zeta
  | match goal with |- returns _ (mbind _ _) => apply returns_bind; intros ? ? end
  | match goal with |- returns _ (let '(_, _) := ?x in _) => destruct x end
  | match goal with |- returns _ (match ?x with _ => _ end) => destruct x eqn:? end
  | match goal with |- returns _ (if ?x then _ else _) => destruct x end
  | progress simpl ]; auto with query.

Lemma each_term_well f vs : (∀ v, returns well_made (f v)) → returns (Forall well) (each_term f vs).
Proof.
  intros Hf. induction vs as [|v vs IH]; simpl; [constructor|]. apply returns_bind. intros q Hq. apply returns_bind.
  intros qs Hqs. constructor; [|by eapply returns_ok]. change (well_made q). by eapply returns_ok.
Qed.
Lemma TermQueryNumeric_well field v b : returns well_made (TermQueryNumeric field v b).
Proof. unfold TermQueryNumeric. made. Qed.
Lemma TermQueryBool_well field v b : returns well_made (TermQueryBool field v b).
Proof. unfold TermQueryBool. made. Qed.
Lemma TermQueryText_well field v b : returns well_made (TermQueryText field v b).
Proof. unfold TermQueryText. made. Qed.
#[local] Hint Resolve TermQueryNumeric_well TermQueryBool_well TermQueryText_well each_term_well : query.

Lemma TermsQuery_well o : returns well_made (TermsQuery o).
Proof.
  unfold TermsQuery. destruct (_ <? _)%nat; [done|]. apply returns_bind. intros [[field t] b] _.
  do 4 (apply returns_bind; intros ? ?%(returns_ok (Forall well)); [|auto with query]).
  apply well_made_Boolean. rewrite !Forall_app. split_and!; auto with query. done.
Qed.
Lemma MultiMatch_fields_well text op zer fields :
  Forall well (multi_fields mappings analyzers text op zer fields).
Proof. revert zer. induction fields; intros zer; constructor; [done|auto]. Qed.
Lemma genQuery_well zer field x min : returns well_made (genQueryWithMinimumShouldMatch zer field x min).
Proof.
  unfold genQueryWithMinimumShouldMatch. apply returns_bind. intros a _. cbv zeta.
  assert (boost_ok (Some (if SFleb zero (m_boost x) then m_boost x else float_of_Z 1))) as Hb
    by (destruct (SFleb zero (m_boost x)) eqn:E; [done|by vm_compute]).
  destruct (Analyze a (m_query x)) as [|t ts] eqn:E; [done|]. apply returns_bind. intros n Hn%CalculateMin_ok.
  apply well_made_Boolean. split_and!; try done; [|by rewrite length_map].
  apply Forall_fmap, Forall_true. intros t'. simpl. pose proof (fuzziness_ok (m_fuzziness x) (m_query x) (Some a)) as Hf.
  by destruct (fuzziness_of _ _ _).
Qed.

#[local] Hint Resolve genQuery_well TermsQuery_well : query.

Lemma MatchQuery_well o : returns well_made (MatchQuery mappings analyzers o).
Proof. unfold MatchQuery. made. Qed.
Lemma MatchBoolPrefixQuery_well o : returns well_made (MatchBoolPrefixQuery mappings analyzers o).
Proof.
  unfold MatchBoolPrefixQuery. apply returns_bind. intros [field [[text a] b]] _. apply returns_bind. intros zer _.
  apply well_made_Boolean. split_and!; try done; [|auto with query]. apply Forall_app. split.
  - by apply Forall_fmap, Forall_true.
  - destruct (last _); repeat constructor.
Qed.
Lemma MatchPhraseQuery_well o : returns well_made (MatchPhraseQuery mappings analyzers o).
Proof. unfold MatchPhraseQuery. made. Qed.
Lemma MatchPhrasePrefixQuery_well o : returns well_made (MatchPhrasePrefixQuery mappings analyzers o).
Proof.
  unfold MatchPhrasePrefixQuery. apply returns_bind. intros [field [[text a] b]] _. apply returns_bind. intros zer _.
  apply well_made_Boolean. split_and!; try done; [|auto with query]. apply Forall_app. split.
  - destruct (last _); repeat constructor.
  - destruct (removelast _); repeat constructor.
Qed.
Lemma min_returns {A} n (f : error → error) (min : option value) (g : option Z → res A) P :
  (∀ m, min_ok n m → returns P (g m)) →
  returns P (m ← match not_nil min with
                 | None => Ok None
                 | Some m => on_error f (Some <$> CalculateMin (Z.of_nat n) m)
                 end; g m).
Proof.
  intros H. apply returns_bind. intros m Hm. apply H. destruct (not_nil min) as [v|]; [|by injection Hm as <-].
  destruct (CalculateMin (Z.of_nat n) v) as [r|] eqn:E; [|done]. injection Hm as <-. by eapply CalculateMin_ok.
Qed.
Lemma length_multi_fields text op zer fields :
  length (multi_fields mappings analyzers text op zer fields) = length fields.
Proof. revert zer. induction fields as [|f l IH]; intros zer; [done|]. cbn [multi_fields]. cbv zeta. cbn [length]. f_equal. apply IH. Qed.
Lemma MultiMatchQuery_well o : returns well_made (MultiMatchQuery mappings analyzers o).
Proof.
  unfold MultiMatchQuery. apply returns_bind. intros x _. cbv zeta. apply returns_bind. intros op _.
  apply min_returns. intros m Hm. apply well_made_Boolean. split_and!; try done; [apply MultiMatch_fields_well| |auto with query].
  by rewrite length_multi_fields.
Qed.
Lemma FuzzyQuery_well o : returns well_made (FuzzyQuery mappings analyzers o).
Proof. unfold FuzzyQuery. made. Qed.
Lemma QueryStringQuery_well o : returns well_made (QueryStringQuery mappings analyzers o).
Proof. unfold QueryStringQuery. made. Qed.
Lemma TermQuery_well o : returns well_made (TermQuery mappings o).
Proof. unfold TermQuery. made. Qed.
Lemma IdsQuery_well o : returns well_made (IdsQuery o).
Proof. unfold IdsQuery. apply returns_bind. auto with query. Qed.
Lemma affix_well o : returns well_made (PrefixQuery o) ∧ returns well_made (WildcardQuery o) ∧ returns well_made (RegexpQuery o).
Proof. unfold PrefixQuery, WildcardQuery, RegexpQuery. split_and!; made. Qed.
Lemma RangeQuery_well o : returns well (RangeQuery mappings o).
Proof.
  unfold RangeQuery, single. destruct o as [|[k v] [|]]; try done. destruct v as [| | | | |a vs|o]; try done.
  case_decide; [|case_bool_decide; [|done]]; apply returns_fmap; change (λ a, well (Some a)) with well_made.
  - unfold RangeQueryNumeric. made.
  - unfold RangeQueryTime. made.
Qed.

#[local] Hint Resolve MatchQuery_well MatchBoolPrefixQuery_well MatchPhraseQuery_well MatchPhrasePrefixQuery_well
  MultiMatchQuery_well FuzzyQuery_well QueryStringQuery_well TermQuery_well IdsQuery_well : query.

Section bool.
Context (sub : value → res (option Q)) (Hsub : ∀ v, returns well (sub v)).
#[local] Set Default Proof Using "Type Hsub".

Lemma sub_queries_well name typ vs : returns (Forall well) (sub_queries sub name typ vs).
Proof.
  induction vs as [|v vs IH]; [constructor|]. simpl. apply returns_bind. intros q Hq. apply returns_bind. intros qs Hqs.
  constructor; [|by eapply returns_ok]. destruct v; try done. by eapply returns_ok; [apply returns_on_error, Hsub|].
Qed.
Lemma clause_well name typ v : returns (Forall well) (clause sub name typ v).
Proof.
  destruct v; try done; [apply sub_queries_well|]. simpl. apply returns_bind. intros q Hq. repeat constructor.
  by eapply returns_ok; [apply returns_on_error, Hsub|].
Qed.
Definition clauses_well (x : clauses) : Prop :=
  Forall well (c_must x) ∧ Forall well (c_should x) ∧ Forall well (c_not x).
Lemma bool_loop_well o : ∀ x, clauses_well x → returns clauses_well (bool_loop sub o x).
Proof.
  induction o as [|[k v] o IH]; intros [must should not min] Hx; [done|]. destruct Hx as (Hm & Hs & Hn). simpl in *.
  apply returns_bind. intros x Hx. apply IH. revert Hx.
  assert (∀ (P : clauses → Prop) name typ g, (∀ qs, Forall well qs → P (g qs)) →
            (qs ← clause sub name typ v; Ok (g qs)) = Ok x → P x) as Hc.
  { intros P name typ g Hg. pose proof (clause_well name typ v) as H. destruct (clause sub name typ v); [|done].
    intros [= <-]. by apply Hg. }
  repeat case_decide; try (apply Hc; intros qs Hqs; split_and!; simpl; try done; apply Forall_app; split; try done).
  - apply Forall_singleton, well_made_Boolean. by split_and!.
  - by intros [= <-].
  - done.
Qed.
Lemma BoolQuery_well o : returns well_made (BoolQuery sub o).
Proof.
  unfold BoolQuery. apply returns_bind. intros x Hx.
  assert (clauses_well x) as (Hm & Hs & Hn) by (eapply returns_ok; [apply (bool_loop_well o no_clauses); split_and!; apply Forall_nil_2|done]).
  apply min_returns. intros m Hmin. by apply well_made_Boolean.
Qed.
#[local] Hint Resolve BoolQuery_well : query.
Lemma query_of_well k o : returns well (query_of mappings analyzers sub k o).
Proof.
  destruct (decide (k = "range")) as [->|Hk]; [apply returns_on_error, RangeQuery_well|].
  destruct (query_of_made sub k o Hk) as (r & f & -> & Hr). apply returns_on_error, returns_fmap. simpl.
  change (λ a, well_made a) with well_made. pose proof (affix_well o) as (? & ? & ?).
  destruct Hr as [Hr|[e ->]]; [|done]. unfold made in Hr. repeat (apply elem_of_cons in Hr as [->|Hr]; [first [done | by auto with query]|]).
  by apply elem_of_nil in Hr.
Qed.
Lemma query_loop_well o : ∀ cmd q, well q → returns well (query_loop mappings analyzers sub o cmd q).
Proof.
  induction o as [|[k t] o IH]; intros cmd q Hq; [done|]. simpl.
  assert (returns well match t with
    | VMap v => q ← query_of mappings analyzers sub (to_lower k) v; query_loop mappings analyzers sub o (to_lower k) q
    | _ => Err (zerr parsing_exception ("[" +:+ to_lower k +:+ "] query doesn't support value type " +:+ type_name t))
    end) by (destruct t; try done; apply returns_bind; intros q' Hq'; apply IH; by eapply returns_ok; [apply query_of_well|]).
  destruct q; [destruct (decide (cmd = ""))|]; done.
Qed.
End bool.

(** C28: whatever the client asks for, the query that is made has no negative boost, its
    fuzziness, where there is one, is above zero, and wherever a minimum of optional
    clauses is set in a bool query inside, it is at least one and, when there are
    optional clauses, not more than they are. By default no minimum is set. *)
Theorem Query_well_made v q : Query v = Ok (Some q) → well_made q.
Proof.
  assert (∀ fuel v, returns well (Query_ fuel v)) as H.
  { induction fuel as [|fuel IH]; intros w; [done|]. destruct w; try done. by apply query_loop_well. }
  intros Hq. eapply (returns_ok well _ (Some q)); [apply H|exact Hq].
Qed.

(** ** Ranges of numbers *)

(** The numbers a range finds, and what one bound of a request asks for. *)
Definition num_matches (q : Q) (x : float) : bool :=
  match q with
  | NumericRange min max minInclusive maxInclusive _ _ =>
      (if minInclusive then SFleb min x else SFltb min x) && (if maxInclusive then SFleb x max else SFltb x max)
  | _ => false
  end.
Definition asked (k : string) (a x : float) : bool :=
  if decide (k = "gt") then SFltb a x
  else if decide (k = "gte") then SFleb a x
  else if decide (k = "lt") then SFltb x a
  else SFleb x a.

Lemma positive_not_zero f : SFltb zero f = true → SFeqb f zero = false.
Proof. destruct f as [s|s| |[|] m e]; try done; by destruct s. Qed.

(** [range_positive_exact]: between two positive bounds, a range of numbers finds what is
    asked for. *)
Theorem range_positive_exact field lo hi a b : lo ∈ ["gt"; "gte"] → hi ∈ ["lt"; "lte"] →
  SFltb zero a = true → SFltb zero b = true →
  ∃ q, RangeQueryNumeric field [(lo, VNum a); (hi, VNum b)] = Ok q ∧ ∀ x, num_matches q x = asked lo a x && asked hi b x.
Proof.
  intros Hlo Hhi Ha Hb. pose proof (positive_not_zero b Hb) as Hz.
  repeat (apply elem_of_cons in Hlo as [->|Hlo]; [|try by apply elem_of_nil in Hlo]);
  repeat (apply elem_of_cons in Hhi as [->|Hhi]; [|try by apply elem_of_nil in Hhi]).
  all: unfold RangeQueryNumeric; simpl; rewrite ?Ha, ?Hb; simpl; rewrite ?Hz; eexists; split; [reflexivity|done].
Qed.

(** [range_not_positive]: a bound that is not positive is as if it were not there; the
    range finds positive numbers only, and under an upper bound none of those that are
    asked for. *)
Theorem range_not_positive field k a : k ∈ ["gt"; "gte"; "lt"; "lte"] → SFltb zero a = false →
  ∃ q, RangeQueryNumeric field [(k, VNum a)] = Ok q ∧
       ∀ x, num_matches q x = true → SFltb zero x = true ∧ (k ∈ ["lt"; "lte"] → asked k a x = false).
Proof.
  intros Hk Ha. exists (NumericRange zero (float_of_Z i64_max) false false field None). split.
  - repeat (apply elem_of_cons in Hk as [->|Hk]; [unfold RangeQueryNumeric; simpl; by rewrite Ha|]). by apply elem_of_nil in Hk.
  - intros x [Hx _]%andb_true_iff. split; [done|]. intros Hu.
    assert (SFltb x a = false ∧ SFleb x a = false) as [H1 H2].
    { clear -Hx Ha. destruct x as [[|]|[|]| |[|] m e]; try done; destruct a as [[|]|[|]| |[|] m' e']; done. }
    unfold asked. repeat case_decide; try done; subst; exfalso; clear -Hu; by apply (bool_decide_eq_true_2 _) in Hu.
Qed.

(** ** The order of a map *)

(** The same clauses, in any order. *)
Definition same_clauses (x y : clauses) : Prop :=
  c_must x ≡ₚ c_must y ∧ c_should x ≡ₚ c_should y ∧ c_not x ≡ₚ c_not y ∧ c_min x = c_min y.
#[local] Instance same_clauses_equiv : Equivalence same_clauses.
Proof.
  split.
  - by intros x.
  - intros x y (? & ? & ? & ?). split_and!; by symmetry.
  - intros x y z (? & ? & ? & ?) (? & ? & ? & ?). split_and!; by etrans.
Qed.
Definition same_result {A} (R : A → A → Prop) (r s : res A) : Prop := ∀ a, r = Ok a → ∃ b, s = Ok b ∧ R a b.

(** What one name adds. *)
Definition merge (x d : clauses) : clauses :=
  MkClauses (c_must x ++ c_must d) (c_should x ++ c_should d) (c_not x ++ c_not d)
    (match c_min d with Some m => Some m | None => c_min x end).
Definition part (sub : value → res (option Q)) (kv : string * value) : res clauses := bool_loop sub [kv] no_clauses.

Section order.
Context (sub : value → res (option Q)).
#[local] Set Default Proof Using "Type sub".

Lemma bool_loop_part kv o x : bool_loop sub (kv :: o) x = (d ← part sub kv; bool_loop sub o (merge x d)).
Proof.
  destruct kv as [k v], x as [must should not min]. unfold part. simpl. unfold mbind, res_bind.
  repeat case_decide; try done.
  1-4: destruct (clause _ _ _ _); [|done]; unfold merge; simpl; by rewrite ?app_nil_r.
  unfold merge. simpl. by rewrite !app_nil_r.
Qed.
Lemma part_min kv d : part sub kv = Ok d → is_Some (c_min d) → to_lower kv.1 = "minimum_should_match".
Proof.
  destruct kv as [k v]. unfold part. simpl. unfold mbind, res_bind. repeat case_decide; try done.
  all: destruct (clause _ _ _ _); [|done]; intros [= <-]; by intros [? ?].
Qed.
Lemma merge_same x y d : same_clauses x y → same_clauses (merge x d) (merge y d).
Proof. intros (? & ? & ? & ?). split_and!; simpl; [by f_equiv..|]. destruct (c_min d); done. Qed.
Lemma merge_swap x d e : c_min d = None ∨ c_min e = None → same_clauses (merge (merge x d) e) (merge (merge x e) d).
Proof.
  intros H. split_and!; simpl; rewrite <-?app_assoc; try (f_equiv; apply Permutation_app_comm).
  destruct (c_min d), (c_min e); naive_solver.
Qed.

Lemma bool_loop_same o : ∀ x y, same_clauses x y → same_result same_clauses (bool_loop sub o x) (bool_loop sub o y).
Proof.
  induction o as [|kv o IH]; intros x y Hxy a.
  - intros [= <-]. by exists y.
  - rewrite !bool_loop_part. unfold mbind, res_bind. destruct (part sub kv) as [d|]; [|done]. by apply IH, merge_same.
Qed.
Lemma bool_loop_perm o o' : o ≡ₚ o' → NoDup (to_lower <$> o.*1) → ∀ x y, same_clauses x y →
  same_result same_clauses (bool_loop sub o x) (bool_loop sub o' y).
Proof.
  induction 1 as [|kv o o' _ IH|p q o|o1 o2 o3 H12 IH1 H23 IH2]; intros Hd x y Hxy.
  - by apply bool_loop_same.
  - apply NoDup_cons in Hd as [_ Hd]. intros a. rewrite !bool_loop_part. unfold mbind, res_bind.
    destruct (part sub kv) as [d|]; [|done]. by apply IH, merge_same.
  - intros a. rewrite !bool_loop_part. unfold mbind, res_bind.
    destruct (part sub q) as [e|] eqn:Ee; [|done]. rewrite !bool_loop_part. unfold mbind, res_bind.
    destruct (part sub p) as [d|] eqn:Ed; [|done]. rewrite bool_loop_part, Ee. simpl. apply bool_loop_same.
    etrans; [|by apply merge_same, merge_same]. apply merge_swap.
    destruct (c_min d) eqn:Md; [|by right]. destruct (c_min e) eqn:Me; [|by left]. exfalso.
    apply part_min in Ed; [|by rewrite Md]. apply part_min in Ee; [|by rewrite Me].
    simpl in Hd. rewrite Ed, Ee in Hd. apply NoDup_cons in Hd as [Hd _]. apply Hd. by left.
  - intros a Ha. destruct (IH1 Hd x y Hxy a Ha) as (b & Hb & Hab).
    destruct (IH2 (proj1 (NoDup_Permutation_proper _ _ (fmap_Permutation _ _ _ (fmap_Permutation _ _ _ H12))) Hd) y y
      (reflexivity y) b Hb) as (c & Hc & Hbc). exists c. split; [done|by etrans].
Qed.
End order.

(** [bool_query_order]: the source visits the clauses of a bool query in the order in
    which Go visits a map, which is any; the query that is made has the same clauses in
    any order, and asks for the same number of optional ones. *)
Theorem bool_query_order sub o o' q : o ≡ₚ o' → NoDup (to_lower <$> o.*1) → BoolQuery sub o = Ok q →
  ∃ must should mustNot must' should' mustNot' min,
    q = Boolean must should mustNot min None ∧ BoolQuery sub o' = Ok (Boolean must' should' mustNot' min None) ∧
    must ≡ₚ must' ∧ should ≡ₚ should' ∧ mustNot ≡ₚ mustNot'.
Proof.
  intros Ho Hd. unfold BoolQuery. unfold mbind at 1, res_bind at 1.
  destruct (bool_loop sub o no_clauses) as [x|] eqn:Hx; [|done].
  destruct (bool_loop_perm sub o o' Ho Hd no_clauses no_clauses (reflexivity _) x Hx) as (y & -> & Hm & Hs & Hn & Hmin).
  simpl. rewrite <-Hmin, <-(Permutation_length Hs). unfold mbind at 1, res_bind at 1.
  destruct (match not_nil (c_min x) with Some m => _ | None => _ end) as [min|]; [|done]. intros [= <-].
  exists (c_must x), (c_should x), (c_not x), (c_must y), (c_should y), (c_not y), min. done.
Qed.
End facts.

(** ** Concrete queries *)

Module QueryDemo.
Import DocumentDemo MinShouldDemo.

(** An analyzer is its name; all cut texts at spaces. *)
#[export] Instance demo_query : QueryLib := {|
  analyzer := string;
  NewAnalyzer n := Ok n;
  NewStandardAnalyzer := "standard";
  NewKeywordAnalyzer := "keyword";
  Analyze _ s := Split s " ";
  ParseQueryString _ _ _ := None;
  FixedZone _ _ := UTC;
  ParseInNil _ _ := Ok 0;
  time_Now := 0;
|}.

Definition num (s : string) : value := VNum (float_of_text s).
Definition Query_demo (v : value) : res (option (query string)) := Query typed ∅ v.

(** [{"bool": {"must": {"match": {"title": "go rust"}}, "filter": [{"range": {"count": {"gte": 2}}}],
    "should": [{"term": {"tag.name": "x"}}, {"prefix": {"title": "a"}}], "minimum_should_match": 5}}]. *)
Definition search : value :=
  VMap [("bool", VMap [("must", VMap [("match", VMap [("title", VStr "go rust")])]);
    ("filter", VSlice [] [VMap [("range", VMap [("count", VMap [("gte", num "2")])])]]);
    ("should", VSlice [] [VMap [("term", VMap [("tag.name", VStr "x")])]; VMap [("prefix", VMap [("title", VStr "a")])]]);
    ("minimum_should_match", num "5")])].
Definition searched : query string :=
  Boolean [Some (Match "go rust" "title" None None None None None);
           Some (Boolean [Some (NumericRange (float_of_text "2") (float_of_Z i64_max) true false "count" None)] [] []
                   None (Some zero))]
    [Some (Term "x" "tag.name" None); Some (Prefix "a" "title" None)] [] (Some 2) None.

Example search_made : Query_demo search = Ok (Some searched).
Proof. by vm_compute. Qed.

Lemma Query_terminates_witness : Query_ typed ∅ 100 search = Query typed ∅ search.
Proof.
  assert (depth search < 100)%nat as H by (vm_compute; lia). exact (proj1 (Query_terminates typed ∅ search 100 H)).
Defined.

Lemma Query_one_object_witness : ∃ ranges rest,
  [("Range", VMap []); ("Match_All", VMap [])] = ranges ++ rest ∧ Forall empty_range ranges ∧
  ∃ k v, rest = [(k, VMap v)] ∧ query_of typed ∅ (Query typed ∅) (to_lower k) v = Ok (Some MatchAll).
Proof.
  apply (Query_one_object typed ∅ [("Range", VMap []); ("Match_All", VMap [])] (Some MatchAll)). by vm_compute.
Defined.

Lemma Query_well_made_witness : well_made searched.
Proof. apply (Query_well_made typed ∅ search). by vm_compute. Defined.

Lemma range_positive_exact_witness : ∃ q,
  RangeQueryNumeric "count" [("gte", num "2"); ("lt", num "7.5")] = Ok q ∧
  ∀ x, num_matches q x = asked "gte" (float_of_text "2") x && asked "lt" (float_of_text "7.5") x.
Proof.
  apply (range_positive_exact "count" "gte" "lt"); [by apply (bool_decide_unpack _); vm_compute..|by vm_compute|by vm_compute].
Defined.

Lemma range_not_positive_witness : ∃ q, RangeQueryNumeric "count" [("lt", num "-5")] = Ok q ∧
  ∀ x, num_matches q x = true → SFltb zero x = true ∧ ("lt" ∈ ["lt"; "lte"] → asked "lt" (float_of_text "-5") x = false).
Proof. apply (range_not_positive "count" "lt"); [by apply (bool_decide_unpack _); vm_compute|by vm_compute]. Defined.

Lemma bool_query_order_witness : ∃ must should mustNot must' should' mustNot' min,
  Boolean [] [Some MatchAll] [Some MatchNone] (Some 1) None = Boolean must should mustNot min None ∧
  BoolQuery (Query typed ∅) [("minimum_should_match", num "1"); ("must_not", VMap [("match_none", VMap [])]);
    ("should", VMap [("match_all", VMap [])])] = Ok (Boolean must' should' mustNot' min None) ∧
  must ≡ₚ must' ∧ should ≡ₚ should' ∧ mustNot ≡ₚ mustNot'.
Proof.
  apply (bool_query_order (Query typed ∅) [("must_not", VMap [("match_none", VMap [])]); ("should", VMap [("match_all", VMap [])]);
    ("minimum_should_match", num "1")]); [|apply (bool_decide_unpack _); by vm_compute|by vm_compute].
  etrans; [apply (Permutation_app_comm [_; _] [_])|done].
Defined.

(** An empty object is no query, and a bool query is made with it as a clause, on which
    the engine calls methods; a search for it alone is refused. *)
Example empty_clause : Query_demo (VMap [("bool", VMap [("must", VMap [])])]) = Ok (Some (Boolean [None] [] [] None None)).
Proof. by vm_compute. Qed.

(** The analyzer of the first field that has one is used for the fields after it. *)
Definition with_keyword : Mappings :=
  <["a" := MkProperty (MkOptions "text" "keyword" "" "" "" true true true true true) None]> typed.
Example first_analyzer :
  multi_fields with_keyword ∅ "x" OpOr None ["a"; "title"] =
    [Some (Match "x" "a" (Some "keyword") (Some OpOr) None None None);
     Some (Match "x" "title" (Some "keyword") (Some OpOr) None None None)] ∧
  multi_fields with_keyword ∅ "x" OpOr None ["title"] =
    [Some (Match "x" "title" None (Some OpOr) None None None)].
Proof. by vm_compute. Qed.
End QueryDemo.
