(* ===== verification/TimeRange.v ===== *)
(** The range of times of a query (pkg/uquery/timerange): a search opens only the shards
    whose documents can be in it. Times are nanoseconds since 1970 in 64 bits, and zero or
    less is no bound.

    [Query] takes the range from the first name that is a range or a bool query, and a bool
    query from its first clause that has one. *)
From Stdlib Require Import SpecFloat.
From S2P Require Import Prelude Strings State Wire Mappings Index Values Document MinShould Query QueryFacts.
#[local] Open Scope Z_scope.

Section timerange.
Context `{lib : GoLib} {ss : SortSlice} {qlib : QueryLib}.

Definition no_times : Z * Z := (0, 0).
(** [t.UTC().UnixNano()]. *)
Definition UnixNano (t : Z) : Z := i64 t.

(** An unknown name ends it without a range. *)
Fixpoint range_loop (o : vdoc) (x : range_options) : res (option range_options) :=
  match o with
  | [] => Ok (Some x)
  | (k, v) :: o =>
      let k := to_lower k in
      match bound_option k v x with
      | Some x => range_loop o x
      | None =>
          let '(MkRange gt gte lt lte f z b) := x in
          if decide (k = "format") then f ← as_ "string" (str_of v); range_loop o (MkRange gt gte lt lte f z b)
          else if decide (k = "time_zone") then z ← as_ "string" (str_of v); range_loop o (MkRange gt gte lt lte f z b)
          else if decide (k = "boost") then b ← as_ "float64" (num_of v); range_loop o (MkRange gt gte lt lte f z b)
          else Ok None
      end
  end.

(** One bound: [old] when it is not given, nothing when it cannot be read. *)
Definition read_bound (format : string) (zone : Location) (o : option value) (old : Z) : res (option Z) :=
  match not_nil o with
  | None => Ok (Some old)
  | Some v =>
      if epoch_millis format then
        Ok (match ToInt v with Ok n => Some (n * 10 ^ 6) | Err _ => None end)
      else
        text ← as_ "string" (str_of v);
        Ok (match ParseInLocation format text zone with Ok t => Some t | Err _ => None end)
  end.
Definition or_none {A B} (x : option A) (none : B) (k : A → res B) : res B :=
  match x with Some a => k a | None => Ok none end.

Definition TimesOfRange (o : vdoc) : res (Z * Z) :=
  x ← range_loop o (MkRange None None None None "" "" zero);
  or_none x no_times (λ x,
  let format := if decide (r_format x = "") then RFC3339 else r_format x in
  match (if decide (r_zone x = "") then Ok UTC else ParseTimeZone (r_zone x)) with
  | Err _ => Ok no_times
  | Ok zone =>
      min ← read_bound format zone (r_gt x) zero_time;
      or_none min no_times (λ min,
      min ← read_bound format zone (r_gte x) min;
      or_none min no_times (λ min,
      max ← read_bound format zone (r_lt x) zero_time;
      or_none max no_times (λ max,
      max ← read_bound format zone (r_lte x) max;
      or_none max no_times (λ max, Ok (UnixNano min, UnixNano max)))))
  end).

Fixpoint TimesOfRanges (o : vdoc) : res (Z * Z) :=
  match o with
  | [] => Ok no_times
  | (field, v) :: o =>
      if decide (field = TimeFieldName) then
        match v with VMap o => TimesOfRange o | _ => Ok no_times end
      else TimesOfRanges o
  end.

Section bool.
Context (sub : value → res (Z * Z)).

(** The first of a slice that has a range. *)
Fixpoint first_times (vs : list value) : res (option (Z * Z)) :=
  match vs with
  | [] => Ok None
  | v :: vs =>
      r ← match v with
          | VMap _ => sub v
          | _ => Err (Panic "interface conversion: interface {} is not map[string]interface {}")
          end;
      let '(min, max) := (r : Z * Z) in
      if (0 <? min) || (0 <? max) then Ok (Some (min, max)) else first_times vs
  end.
Fixpoint TimesOfBool (o : vdoc) : res (Z * Z) :=
  match o with
  | [] => Ok no_times
  | (k, v) :: o =>
      if bool_decide (to_lower k ∈ ["should"; "must"; "filter"]) then
        match v with
        | VMap _ => sub v
        | VSlice _ vs =>
            r ← first_times vs;
            match r with Some t => Ok t | None => TimesOfBool o end
        | _ => TimesOfBool o
        end
      else TimesOfBool o
  end.
Fixpoint times_loop (o : vdoc) : res (Z * Z) :=
  match o with
  | [] => Ok no_times
  | (k, t) :: o =>
      match t with
      | VMap v =>
          if decide (to_lower k = "bool") then TimesOfBool v
          else if decide (to_lower k = "range") then TimesOfRanges v
          else times_loop o
      | _ => Ok no_times
      end
  end.
End bool.

(** The recursion through bool queries is bounded by the depth of the value. *)
Fixpoint Times_ (fuel : nat) (v : value) : res (Z * Z) :=
  match fuel with
  | O => Err OutOfFuel
  | Datatypes.S fuel => match v with VMap o => times_loop (Times_ fuel) o | _ => Ok no_times end
  end.
Definition Times (v : value) : res (Z * Z) := Times_ (Datatypes.S (depth v)) v.

(** ** The recursion *)

#[local] Set Default Proof Using "Type".
Lemma first_times_agree n f g vs : agree n f g → (depths_slice vs < n)%nat → first_times f vs = first_times g vs.
Proof.
  intros Ha. induction vs as [|v vs IH]; [done|]. intros Hd. change (Nat.max (depth v) (depths_slice vs) < n)%nat in Hd.
  simpl. rewrite IH by lia. destruct v; try done. by rewrite Ha by lia.
Qed.
Lemma TimesOfBool_agree n f g o : agree n f g → (depths o < n)%nat → TimesOfBool f o = TimesOfBool g o.
Proof.
  intros Ha. induction o as [|[k v] o IH]; [done|]. intros Hd. change (Nat.max (depth v) (depths o) < n)%nat in Hd.
  simpl. rewrite IH by lia. destruct v as [| | | | |a vs|o']; try done.
  - change (Nat.max (Datatypes.S (depths_slice vs)) (depths o) < n)%nat in Hd. by rewrite (first_times_agree n f g) by (done || lia).
  - by rewrite Ha by lia.
Qed.
Lemma times_loop_agree n f g o : agree n f g → (depths o < Datatypes.S n)%nat → times_loop f o = times_loop g o.
Proof.
  intros Ha. induction o as [|[k v] o IH]; [done|]. intros Hd.
  change (Nat.max (depth v) (depths o) < Datatypes.S n)%nat in Hd. simpl. destruct v as [| | | | |a vs|o']; try done.
  change (depth (VMap o')) with (Datatypes.S (depths o')) in Hd. rewrite IH by lia.
  by rewrite (TimesOfBool_agree n f g) by (done || lia).
Qed.
Lemma Times_fuel n : ∀ m v, (depth v < n)%nat → (depth v < m)%nat → Times_ n v = Times_ m v.
Proof.
  induction n as [|n IH]; intros m v Hn Hm; [lia|]. destruct m as [|m]; [lia|].
  destruct v as [| | | | |a vs|o]; [reflexivity..|]. change (depth (VMap o)) with (Datatypes.S (depths o)) in Hn, Hm. simpl.
  apply times_loop_agree with (depths o); [|lia]. intros v Hv. apply IH; lia.
Qed.

(** The recursion ends: [Times] satisfies the equation of the source. *)
Lemma Times_unfold o : Times (VMap o) = times_loop Times o.
Proof.
  apply times_loop_agree with (depths o); [|lia]. intros v Hv. apply Times_fuel; [|lia].
  change (depth (VMap o)) with (Datatypes.S (depths o)). lia.
Qed.

(** ** Queries that are read alike

    What the range of times of a query assumes: no clause is optional, the bounds of a
    range are read as the query reads them, and times fit in 64 bits. *)

Definition zone_of (x : range_options) : option Location :=
  match (if decide (r_zone x = "") then Ok UTC else ParseTimeZone (r_zone x)) with Ok l => Some l | Err _ => None end.
Definition format_of (x : range_options) : string := if decide (r_format x = "") then RFC3339 else r_format x.

Definition fair_bound (x : range_options) (o : option value) : bool :=
  match not_nil o, zone_of x with
  | Some v, Some zone =>
      (if epoch_millis (format_of x) then match v with VNum _ => true | _ => false end else true) &&
      match read_bound (format_of x) zone (Some v) 0 with Ok (Some t) => bool_decide (is_i64 t) | _ => true end
  | _, _ => true
  end.
Definition fair_range (o : vdoc) : bool :=
  match range_loop o (MkRange None None None None "" "" zero) with
  | Ok (Some x) => forallb (fair_bound x) [r_gt x; r_gte x; r_lt x; r_lte x]
  | _ => true
  end.
Definition fair_field (fv : string * value) : bool :=
  if decide (fv.1 = TimeFieldName) then match fv.2 with VMap o => fair_range o | _ => true end else true.
Fixpoint fair (v : value) : bool :=
  match v with
  | VSlice _ vs => forallb fair vs
  | VMap o =>
      forallb (λ kt, match kt.2 with
        | VMap v =>
            if decide (to_lower kt.1 = "bool") then
              forallb (λ cv, negb (bool_decide (to_lower cv.1 = "should")) && fair cv.2) v
            else if decide (to_lower kt.1 = "range") then forallb fair_field v
            else true
        | _ => true
        end) o
  | _ => true
  end.

(** ** A range of times, read twice *)

Definition same_options (x y : range_options) : Prop :=
  r_gt x = r_gt y ∧ r_gte x = r_gte y ∧ r_lt x = r_lt y ∧ r_lte x = r_lte y ∧ r_format x = r_format y ∧
  r_zone x = r_zone y.

Lemma bound_option_same k v x y : same_options x y →
  match bound_option k v x, bound_option k v y with
  | Some x, Some y => same_options x y
  | None, None => True
  | _, _ => False
  end.
Proof.
  destruct x, y. intros (? & ? & ? & ? & ? & ?). simpl in *. subst. unfold bound_option.
  repeat case_decide; done.
Qed.

Lemma range_loop_same o : ∀ x y x' y', same_options x y → range_loop o x = Ok (Some x') →
  options_loop time_option o y = Ok y' → same_options x' y'.
Proof.
  induction o as [|[k v] o IH]; intros x y x' y' Hxy; simpl.
  { by intros [= <-] [= <-]. }
  unfold mbind at 1, res_bind at 1, time_option at 1. pose proof (bound_option_same (to_lower k) v x y Hxy) as Hb.
  destruct (bound_option (to_lower k) v x) as [x1|], (bound_option (to_lower k) v y) as [y1|]; try done; [by apply IH|].
  clear Hb. destruct x as [gt gte lt lte f z b], y as [gt' gte' lt' lte' f' z' b'].
  destruct Hxy as (? & ? & ? & ? & ? & ?). simpl in *. subst. unfold mbind, res_bind.
  repeat case_decide; try done.
  - destruct v; try done. by apply IH.
  - destruct v; try done. by apply IH.
  - destruct v; try done. by apply IH.
Qed.

(** One bound of both, whatever was there before. *)
Lemma bound_alike x o field name t t' old : fair_bound x o = true → zone_of x = Some t' →
  ∀ a b, read_bound (format_of x) t' o old = Ok (Some a) →
  time_bound field name (format_of x) (Some t') o t = Ok b →
  (not_nil o = None ∧ a = old ∧ b = t) ∨ (a = b ∧ is_i64 a).
Proof.
  intros Hf Hz a b. unfold fair_bound in Hf. rewrite Hz in Hf. unfold read_bound, time_bound in *.
  assert (not_nil o = None ∨ ∃ v, not_nil o = Some v ∧ v ≠ VNil) as [E|(v & E & Hv)].
  { destruct o as [[]|]; eauto. all: right; eauto. }
  { rewrite E. intros [= <-] [= <-]. by left. }
  rewrite E in *. simpl in Hf.
  intros Ha Hb. right. destruct (epoch_millis (format_of x)).
  - destruct v as [| |f| | | |]; try done. simpl in *. injection Ha as <-. injection Hb as <-.
    split; [done|]. by apply (bool_decide_eq_true_1 _) in Hf.
  - destruct v as [| | | |s| |]; try done. simpl in *. destruct (ParseInLocation (format_of x) s t') as [u|]; [|done].
    simpl in *. injection Ha as <-. injection Hb as <-. split; [done|]. by apply (bool_decide_eq_true_1 _) in Hf.
Qed.

Lemma res_bind_ok {A B} (r : res A) (f : A → res B) b : (a ← r; f a) = Ok b → ∃ a, r = Ok a ∧ f a = Ok b.
Proof. destruct r as [a|]; [|done]. by exists a. Qed.

Context (mappings : Mappings).

(** The field is one of times, read with the default format and in UTC unless a query
    says something else. *)
Definition plain_time (field : string) : Prop :=
  match mappings !! field with
  | Some p => Type_ (options p) ≠ "numeric" ∧ (Format (options p) = "" ∨ Format (options p) = RFC3339) ∧
              TimeZone (options p) = ""
  | None => True
  end.

Lemma RangeQueryTime_plain field o q : plain_time field → RangeQueryTime mappings field o = Ok q →
  ∃ x, options_loop time_option o no_range = Ok x ∧ ∀ y, same_options y x →
    ∃ zone min0 min max0 max,
      zone_of y = Some zone ∧
      time_bound field "gt" (format_of y) (Some zone) (r_gt y) zero_time = Ok min0 ∧
      time_bound field "gte" (format_of y) (Some zone) (r_gte y) min0 = Ok min ∧
      time_bound field "lt" (format_of y) (Some zone) (r_lt y) zero_time = Ok max0 ∧
      time_bound field "lte" (format_of y) (Some zone) (r_lte y) max0 = Ok max ∧
      q = DateRange min (if max =? zero_time then time_Now else max) (given (r_gte y)) (given (r_lte y)) field
            (boost_of (r_boost x)).
Proof.
  intros Hp H. unfold RangeQueryTime in H. apply res_bind_ok in H as (x & Hx & H). exists x. split; [done|].
  intros [gt gte lt lte f z b] (? & ? & ? & ? & ? & ?). destruct x as [gt' gte' lt' lte' f' z' b']. simpl in *. subst.
  clear Hx. unfold zone_of, format_of. simpl in *.
  assert (match Format <$> (options <$> mappings !! field) with Some (String _ _ as f) => f | _ => RFC3339 end = RFC3339 ∧
          match TimeZone <$> (options <$> mappings !! field) with
          | Some (String _ _ as z) => match ParseTimeZone z with Ok l => Some l | Err _ => None end
          | _ => Some UTC
          end = Some UTC) as [Ef Ez].
  { unfold plain_time in Hp. destruct (mappings !! field) as [p|]; [|done]. destruct Hp as [_ [[E|E] E2]];
    simpl; by rewrite E, E2. }
  rewrite Ef, Ez in H. clear Ef Ez. apply res_bind_ok in H as (zone & Hz & H).
  assert (∃ l, zone = Some l ∧ (if decide (z' = "") then Ok UTC else ParseTimeZone z') = Ok l) as (l & -> & El).
  { destruct (decide (z' = "")); [injection Hz as <-; eauto|]. destruct (ParseTimeZone z') as [l|]; [|done]. injection Hz as <-. eauto. }
  rewrite El. apply res_bind_ok in H as (min0 & H1 & H). apply res_bind_ok in H as (min & H2 & H).
  apply res_bind_ok in H as (max0 & H3 & H). apply res_bind_ok in H as (max & H4 & [= <-]).
  exists l, min0, min, max0, max. done.
Qed.

(** The range of a query of times, and that of the shards: none, or the same bounds. *)
Lemma range_alike field o q lo hi : plain_time field → fair_range o = true →
  RangeQueryTime mappings field o = Ok q → TimesOfRange o = Ok (lo, hi) →
  (lo ≤ 0 ∧ hi ≤ 0) ∨ ∃ min max li hi' b, q = DateRange min max li hi' field b ∧ (0 < lo → min = lo) ∧ (0 < hi → max = hi).
Proof.
  intros Hp Hf Hq Ht. apply (RangeQueryTime_plain field o q Hp) in Hq as (x & Hx & Hq). unfold TimesOfRange in Ht.
  unfold fair_range in Hf. apply res_bind_ok in Ht as ([y|] & Hy & Ht); [|injection Ht as <- <-; left; lia].
  rewrite Hy in Hf. assert (same_options y x) as Hs by (by eapply range_loop_same; [|exact Hy|exact Hx]).
  destruct (Hq y Hs) as (zone & min0 & min & max0 & max & Hz & H1 & H2 & H3 & H4 & ->). clear Hq Hx Hy Hs.
  simpl in Ht. change (if decide (r_format y = "") then RFC3339 else r_format y) with (format_of y) in Ht.
  assert ((if decide (r_zone y = "") then Ok UTC else ParseTimeZone (r_zone y)) = Ok zone) as El.
  { unfold zone_of in Hz. destruct (if decide (r_zone y = "") then _ else _); [|done]. by injection Hz as ->. }
  rewrite El in Ht. clear El. simpl in Hf. rewrite !andb_true_iff in Hf. destruct Hf as (F1 & F2 & F3 & F4 & _).
  apply res_bind_ok in Ht as ([a0|] & A1 & Ht); [|injection Ht as <- <-; left; lia].
  apply res_bind_ok in Ht as ([a|] & A2 & Ht); [|injection Ht as <- <-; left; lia].
  apply res_bind_ok in Ht as ([c0|] & A3 & Ht); [|injection Ht as <- <-; left; lia].
  apply res_bind_ok in Ht as ([c|] & A4 & Ht); [|injection Ht as <- <-; left; lia]. injection Ht as <- <-.
  right. eexists min, _, _, _, _. split; [reflexivity|].
  assert (∀ o1 o2 n1 n2 t1 t2 u1 u2, fair_bound y o1 = true → fair_bound y o2 = true →
    read_bound (format_of y) zone o1 zero_time = Ok (Some t1) → read_bound (format_of y) zone o2 t1 = Ok (Some t2) →
    time_bound field n1 (format_of y) (Some zone) o1 zero_time = Ok u1 →
    time_bound field n2 (format_of y) (Some zone) o2 u1 = Ok u2 → 0 < UnixNano t2 → u2 = UnixNano t2) as Hall.
  { intros o1 o2 n1 n2 t1 t2 u1 u2 Fa Fb R1 R2 T1 T2 Hpos.
    pose proof (bound_alike y o1 field n1 zero_time zone zero_time Fa Hz t1 u1 R1 T1) as B1.
    pose proof (bound_alike y o2 field n2 u1 zone t1 Fb Hz t2 u2 R2 T2) as B2. unfold UnixNano in *.
    destruct B2 as [(_ & -> & ->)|[-> Hi]]; [|by rewrite i64_small].
    destruct B1 as [(_ & -> & ->)|[-> Hi]]; [by vm_compute in Hpos|by rewrite i64_small]. }
  split; [exact (Hall _ _ _ _ _ _ _ _ F1 F2 A1 A2 H1 H2)|]. intros Hpos.
  assert (max = UnixNano c) as -> by exact (Hall _ _ _ _ _ _ _ _ F3 F4 A3 A4 H3 H4 Hpos).
  destruct (Z.eqb_spec (UnixNano c) zero_time) as [E|]; [|done]. rewrite E in Hpos. by vm_compute in Hpos.
Qed.

(** ** What a query finds lies in its range *)

Context (analyzers : gmap string analyzer).
#[local] Abbreviation Query := (Query mappings analyzers).
#[local] Abbreviation Q := (query analyzer).

(** [found q t]: the query finds a document whose time is [t]. The engine documents what
    the clauses of a bool query and a range of dates mean; the year 1 is no bound. *)
Context (found : Q → Z → Prop).
Definition finds_must : Prop := ∀ must should mustNot min b q t,
  found (Boolean must should mustNot min b) t → Some q ∈ must → found q t.
Definition finds_dates : Prop := ∀ min max li hi b t,
  found (DateRange min max li hi TimeFieldName b) t → (min ≠ zero_time → min ≤ t) ∧ (max ≠ zero_time → t ≤ max).

Definition within (times : Z * Z) (t : Z) : Prop := (0 < times.1 → times.1 ≤ t) ∧ (0 < times.2 → t ≤ times.2).
(** A nil query finds anything. *)
Definition found_by (q : option Q) (t : Z) : Prop := match q with Some q => found q t | None => True end.

Lemma within_none t : within no_times t.
Proof. split; simpl; lia. Qed.

Lemma ranges_within o q times t : finds_dates → plain_time TimeFieldName → forallb fair_field o = true →
  RangeQuery mappings o = Ok q → TimesOfRanges o = Ok times → found_by q t → within times t.
Proof.
  intros Hd Hp Hf Hq Ht Hfound. unfold RangeQuery, single in Hq. destruct o as [|[field v] [|]]; try done.
  { injection Ht as <-. apply within_none. }
  simpl in Ht. destruct v as [| | | | |a vs|o]; try done. destruct (decide (field = TimeFieldName)) as [->|];
    [|injection Ht as <-; apply within_none].
  destruct (decide (type_of mappings TimeFieldName = "numeric")) as [En|].
  - exfalso. unfold type_of in En. unfold plain_time in Hp. destruct (mappings !! TimeFieldName) as [p|]; [|done].
    by destruct Hp.
  - case_bool_decide; [|done]. destruct (RangeQueryTime mappings TimeFieldName o) as [q'|] eqn:Er; [|done]. injection Hq as <-.
    simpl in Hf. rewrite andb_true_r in Hf. unfold fair_field in Hf. simpl in Hf. destruct times as [lo hi].
    destruct (range_alike _ _ _ _ _ Hp Hf Er Ht) as [[? ?]|(min & max & li & hi' & b & -> & Hmin & Hmax)];
      [split; simpl; lia|]. destruct (Hd _ _ _ _ _ _ Hfound) as [H1 H2].
    assert (zero_time < 0) as Hz by done. split; simpl; intros Hpos.
    + rewrite (Hmin Hpos) in H1. apply H1. lia.
    + rewrite (Hmax Hpos) in H2. apply H2. lia.
Qed.

Lemma bool_loop_keeps sub o : ∀ x y, bool_loop sub o x = Ok y → ∀ q : option Q, q ∈ c_must x → q ∈ c_must y.
Proof.
  induction o as [|kv o IH]; intros x y H q Hq; [by injection H as <-|]. rewrite bool_loop_part in H.
  apply res_bind_ok in H as (d & _ & H). eapply IH; [exact H|]. apply elem_of_app. by left.
Qed.

(** A clause that has to match is one of the query's, or of one that is. *)
Lemma bool_loop_clause sub o x y k v : bool_loop sub o x = Ok y → (k, v) ∈ o →
  (to_lower k = "must" → ∃ typ qs, clause sub (to_lower k) typ v = Ok qs ∧ ∀ q : option Q, q ∈ qs → q ∈ c_must y) ∧
  (to_lower k = "filter" → ∃ typ qs, clause sub (to_lower k) typ v = Ok qs ∧
     Some (Boolean (qs : list (option Q)) [] [] None (Some zero)) ∈ c_must y).
Proof.
  revert x. induction o as [|kv o IH]; intros x H Hin; [by apply elem_of_nil in Hin|].
  rewrite bool_loop_part in H. apply res_bind_ok in H as (d & Hd & H).
  apply elem_of_cons in Hin as [<-|Hin]; [|by eapply IH]. pose proof (bool_loop_keeps _ _ _ _ H) as Hk.
  unfold part in Hd. simpl in Hd. split; intros E; rewrite E in *; simpl in Hd.
  - destruct (clause sub "must" xcontent v) as [qs|] eqn:Eq; [|done]. exists xcontent, qs. split; [done|].
    intros q Hq. apply Hk. injection Hd as <-. apply elem_of_app. by right.
  - destruct (clause sub "filter" parsing_exception v) as [qs|] eqn:Eq; [|done]. exists parsing_exception, qs.
    split; [done|]. apply Hk. injection Hd as <-. apply elem_of_app. right. by left.
Qed.

Lemma clause_query sub name typ v (qs : list (option Q)) : clause sub name typ v = Ok qs →
  match v with
  | VMap _ => ∃ q, sub v = Ok q ∧ q ∈ qs
  | VSlice _ vs => ∀ w, w ∈ vs → ∃ q, sub w = Ok q ∧ q ∈ qs
  | _ => True
  end.
Proof.
  destruct v as [| | | | |a vs|o]; try done; simpl.
  - revert qs. induction vs as [|v vs IH]; intros qs; [by intros _ w Hw%elem_of_nil|]. simpl. intros H w Hw.
    apply res_bind_ok in H as (q & Hq & H). apply res_bind_ok in H as (qs' & Hqs & [= <-]).
    apply elem_of_cons in Hw as [->|Hw].
    + exists q. split; [|by left]. destruct v; try done. by destruct (sub _).
    + destruct (IH _ Hqs w Hw) as (q' & ? & ?). exists q'. split; [done|by right].
  - intros H. apply res_bind_ok in H as (q & Hq & [= <-]). exists q. split; [|by left]. by destruct (sub _).
Qed.

Lemma first_times_in tsub vs times : first_times tsub vs = Ok (Some times) → ∃ w, w ∈ vs ∧ tsub w = Ok times.
Proof.
  induction vs as [|v vs IH]; [done|]. simpl. intros H. apply res_bind_ok in H as ([min max] & Hv & H).
  destruct ((0 <? min) || (0 <? max)).
  - injection H as <-. exists v. split; [by left|]. by destruct v.
  - destruct (IH H) as (w & ? & ?). exists w. split; [by right|done].
Qed.

Section step.
Context (t : Z) (sub : value → res (option Q)) (tsub : value → res (Z * Z)).
Context (Hmust : finds_must) (Hdates : finds_dates) (Hplain : plain_time TimeFieldName).
Context (Hsub : ∀ w q times, fair w = true → sub w = Ok q → tsub w = Ok times → found_by q t → within times t).
#[local] Set Default Proof Using "Type*".

Lemma bool_within o q times : forallb (λ cv, negb (bool_decide (to_lower cv.1 = "should")) && fair cv.2) o = true →
  BoolQuery sub o = Ok q → TimesOfBool tsub o = Ok times → found q t → within times t.
Proof.
  intros Hf Hq Ht Hfound. unfold BoolQuery in Hq. apply res_bind_ok in Hq as (y & Hy & Hq).
  apply res_bind_ok in Hq as (min & _ & [= <-]).
  assert (∀ qs name typ v w times, clause sub name typ v = Ok qs → (∀ q, q ∈ qs → found_by q t) → fair v = true →
    (v = w ∧ (∃ o, v = VMap o) ∨ (∃ a vs, v = VSlice a vs ∧ w ∈ vs)) → tsub w = Ok times → within times t) as Hclause.
  { intros qs name typ v w times' Hc Hqs Hv Hw Hw'. pose proof (clause_query _ _ _ _ _ Hc) as Hcq.
    destruct Hw as [[<- [o' ->]]|(a & vs & -> & Hin)].
    - destruct Hcq as (q & Hs & Hin). by eapply Hsub; [| |exact Hw'|by apply Hqs].
    - destruct (Hcq w Hin) as (q & Hs & Hin'). eapply Hsub; [|exact Hs|exact Hw'|by apply Hqs].
      simpl in Hv. rewrite forallb_forall in Hv. apply Hv. by apply list_elem_of_In. }
  assert (∀ k v w times, (k, v) ∈ o → to_lower k ∈ ["should"; "must"; "filter"] → fair v = true → to_lower k ≠ "should" →
    (v = w ∧ (∃ o, v = VMap o) ∨ (∃ a vs, v = VSlice a vs ∧ w ∈ vs)) → tsub w = Ok times → within times t) as Hkey.
  { intros k v w times' Hin Hk Hv Hns. destruct (bool_loop_clause _ _ _ _ _ _ Hy Hin) as [Hm Hfl].
    apply elem_of_cons in Hk as [?|Hk]; [done|]. apply elem_of_cons in Hk as [E|Hk].
    - destruct (Hm E) as (typ & qs & Hc & Hqs). apply (Hclause _ _ _ _ _ _ Hc); [|done]. intros [q|] Hq; [|done].
      by eapply Hmust, Hqs.
    - apply elem_of_cons in Hk as [E|Hk]; [|by apply elem_of_nil in Hk]. destruct (Hfl E) as (typ & qs & Hc & Hqs).
      apply (Hclause _ _ _ _ _ _ Hc); [|done]. intros [q|] Hq; [|done]. eapply Hmust; [|exact Hq].
      by eapply Hmust. }
  clear Hclause Hy. assert (∀ kv, kv ∈ o → (kv.1, kv.2) ∈ o) as Hall by (by intros []). revert Hf Ht Hall.
  generalize o at 1 2 3 as o'. induction o' as [|[k v] o' IH]; simpl; intros Hf Ht Hall.
  { injection Ht as <-. apply within_none. }
  apply andb_true_iff in Hf as [[Hns%negb_true_iff Hv]%andb_true_iff Hf]. apply bool_decide_eq_false_1 in Hns.
  assert (TimesOfBool tsub o' = Ok times → within times t) as IH'.
  { intros H. apply IH; [done|done|]. intros kv Hkv. apply Hall. by right. }
  pose proof (Hall (k, v) ltac:(by left)) as Hin. simpl in Hin.
  case_bool_decide as Hk; [|by apply IH']. destruct v as [| | | | |a vs|o'']; try by apply IH'.
  - apply res_bind_ok in Ht as ([t'|] & Hr & Ht); [|by apply IH']. injection Ht as <-.
    apply first_times_in in Hr as (w & Hw & Hr). eapply Hkey; [exact Hin|done|done|done| |exact Hr]. right. eauto.
  - eapply Hkey; [exact Hin|done|done|done| |exact Ht]. left. eauto.
Qed.

Lemma loop_within o q times : forallb (λ kt, match kt.2 with
    | VMap v =>
        if decide (to_lower kt.1 = "bool") then
          forallb (λ cv, negb (bool_decide (to_lower cv.1 = "should")) && fair cv.2) v
        else if decide (to_lower kt.1 = "range") then forallb fair_field v
        else true
    | _ => true
    end) o = true →
  query_loop mappings analyzers sub o "" None = Ok q → times_loop tsub o = Ok times → found_by q t → within times t.
Proof.
  intros Hf Hq Ht Hfound. apply query_loop_one in Hq as (ranges & rest & -> & Hr & Hq).
  destruct ranges as [|[k v] ranges]; simpl in *.
  - destruct q as [q|]; [|subst rest; injection Ht as <-; apply within_none]. destruct Hq as (k & v & -> & Hq). simpl in *.
    apply andb_true_iff in Hf as [Hf _]. destruct (decide (to_lower k = "bool")) as [E|].
    + rewrite E in Hq. change (query_of mappings analyzers sub "bool" v) with
        (on_error (zcause xcontent ("[" +:+ "bool" +:+ "] failed to parse field")) (Some <$> BoolQuery sub v)) in Hq.
      destruct (BoolQuery sub v) as [q'|] eqn:Eq; [|done]. injection Hq as <-. by eapply bool_within.
    + destruct (decide (to_lower k = "range")) as [E|]; [|injection Ht as <-; apply within_none].
      rewrite E in Hq. change (query_of mappings analyzers sub "range" v) with
        (on_error (zcause xcontent ("[" +:+ "range" +:+ "] failed to parse field")) (RangeQuery mappings v)) in Hq.
      destruct (RangeQuery mappings v) as [q'|] eqn:Eq; [|done]. injection Hq as ->. by eapply ranges_within.
  - apply Forall_cons in Hr as [[E Ev] _]. simpl in E, Ev. subst v. rewrite E in Ht. simpl in Ht. injection Ht as <-. apply within_none.
Qed.
End step.

Lemma found_within' v q times t : finds_must → finds_dates → plain_time TimeFieldName → fair v = true →
  Query v = Ok (Some q) → Times v = Ok times → found q t → within times t.
Proof.
  intros Hm Hd Hp Hf Hq Ht Hfound. revert v times q Hf Ht Hq Hfound.
  assert (∀ fuel v q times, fair v = true → Query v = Ok q → Times_ fuel v = Ok times → found_by q t → within times t) as H.
  { induction fuel as [|fuel IH]; intros v q times Hf Hq Ht Hfound; [done|].
    destruct v as [| | | | |a vs|o]; try (injection Ht as <-; apply within_none).
    rewrite Query_unfold in Hq. by eapply (loop_within t Query (Times_ fuel)). }
  intros v times q Hf Ht Hq Hfound. by eapply (H _ v (Some q)).
Qed.

(** C19: for a query without optional clauses, read alike by both readers (the time
    field of the mapping has no format or zone of its own; each bound is a time of 64
    bits of nanoseconds, and a number where it is in epoch_millis): what the engine
    finds lies in the range of times by which the shards are chosen. *)
Theorem found_within v q times t : finds_must → finds_dates → plain_time TimeFieldName → fair v = true →
  Query v = Ok (Some q) → Times v = Ok times → found q t → within times t.
Proof. apply found_within'. Qed.
End timerange.

Module TimeRangeDemo.
(** A date is a decimal number of seconds, [zone] of them less in every zone but UTC. *)
#[export] Instance seconds_lib : GoLib := {|
  ParseFloat s := Ok (float_of_text s);
  FormatFloat f := pretty (int64_of f);
  Sprint v := type_name v;
  Location := Z;
  UTC := 0;
  Local_ := 0;
  LoadZone _ := Ok 3600;
  ParseInLocation _ s zone := n ← ParseInt s; Ok ((n - zone) * 10 ^ 9);
|}.
#[export] Existing Instance MinShouldDemo.stable.
#[export] Instance seconds_query : QueryLib := {|
  analyzer := string;
  NewAnalyzer n := Ok n;
  NewStandardAnalyzer := "standard";
  NewKeywordAnalyzer := "keyword";
  Analyze _ s := Split s " ";
  ParseQueryString _ _ _ := None;
  FixedZone _ z := z;
  ParseInNil _ _ := Err (errors_New "time: missing Location in call to Date");
  time_Now := 2000 * 10 ^ 9;
|}.

(** An engine that knows ranges of times, and finds nothing else. *)
Fixpoint finds (q : query analyzer) (t : Z) : Prop :=
  let fix all (l : list (option (query analyzer))) : Prop :=
    match l with [] => True | None :: l => all l | Some q :: l => finds q t ∧ all l end in
  match q with
  | MatchAll => True
  | DateRange min max _ _ _ _ => (min ≠ zero_time → min ≤ t) ∧ (max ≠ zero_time → t ≤ max)
  | Boolean must _ _ _ _ => all must
  | _ => False
  end.
Lemma finds_must_ok : finds_must finds.
Proof.
  intros must should mustNot min b q t. induction must as [|[x|] must IH]; intros H Hq; [by apply elem_of_nil in Hq| |].
  - destruct H as [Hx H]. apply elem_of_cons in Hq as [[= ->]|Hq]; [done|by apply IH].
  - apply elem_of_cons in Hq as [?|Hq]; [done|by apply IH].
Qed.
Lemma finds_dates_ok : finds_dates finds.
Proof. by intros min max li hi b t H. Qed.

Definition dated (zone : string) : Mappings :=
  {[TimeFieldName := MkProperty (MkOptions "date" "" "" "" zone true true true true false) None]}.
Definition since (bounds : vdoc) : value := VMap [("range", VMap [(TimeFieldName, VMap bounds)])].
Definition every : value := VMap [("match_all", VMap [])].
Definition both : value :=
  VMap [("bool", VMap [("must", VSlice [] [every]); ("filter", VSlice [] [every; since [("gte", VStr "1000"); ("lt", VStr "1500")]])])].

Lemma found_within_witness : within (1000 * 10 ^ 9, 1500 * 10 ^ 9) (1200 * 10 ^ 9).
Proof.
  eapply (found_within (dated "") ∅ finds both);
    [exact finds_must_ok|exact finds_dates_ok|split; [done|split; [by left|done]]|vm_compute; reflexivity..|].
  vm_compute. repeat split; intros; discriminate.
Defined.

(** [should_restricts]: a query finds any document when one of two optional clauses does,
    and the shards are chosen by the range of the first of them. *)
Theorem should_restricts :
  let v := VMap [("bool", VMap [("should", VSlice [] [since [("gte", VStr "1000")]; every])])] in
  Query (dated "") ∅ v =
    Ok (Some (Boolean [] [Some (DateRange (1000 * 10 ^ 9) (2000 * 10 ^ 9) true false TimeFieldName None); Some MatchAll]
                [] None None)) ∧
  Times v = Ok (1000 * 10 ^ 9, i64 zero_time).
Proof. by vm_compute. Qed.

(** [zone_ignored]: with a time zone in the mapping of the field, the query starts an hour
    before the range of the shards. *)
Theorem zone_ignored :
  let v := since [("format", VStr "seconds"); ("gte", VStr "5000"); ("lte", VStr "6000")] in
  Query (dated "Europe/Paris") ∅ v =
    Ok (Some (DateRange (1400 * 10 ^ 9) (2400 * 10 ^ 9) true true TimeFieldName None)) ∧
  Times v = Ok (5000 * 10 ^ 9, 6000 * 10 ^ 9).
Proof. by vm_compute. Qed.

(** [number_panics]: a bound that is a number is a query, and a panic of the range. *)
Theorem number_panics :
  let v := since [("gte", VNum (float_of_text "1000"))] in
  is_ok (Query (dated "") ∅ v) = true ∧ ∃ e, Times v = Err e ∧ is_panic e = true.
Proof. split; [by vm_compute|]. eexists. split; by vm_compute. Qed.
End TimeRangeDemo.
