(* ===== verification/Search.v ===== *)
(** The shards a search reads (GetReaders of pkg/core/index_shards.go and index.go, the
    first part of search.go and multi_search.go).

    A search takes the range of times of its query, and opens of every shard the
    second-layer shards that may have documents in it, from the latest on. It stops at the
    first whose documents begin before the range: those before it are older. What the
    engine finds in a reader is not modelled; [search_misses_nothing] shows that every
    document of the query is in a shard that is read. *)
From S2P Require Import Prelude Strings State Wire Mappings Index Redo Values Document Shard Replay MinShould Query QueryFacts TimeRange.
#[local] Open Scope Z_scope.

(** A reader of a second-layer shard; the engine may fail to open it. *)
Class Readers (ET : Type) := Reader : Z → M ET ().

Section search.
Context {RT WT ET ST : Type} `{!RedoLog RT, !WAL WT, !Engine ET, !Readers ET} {lib : GoLib} {denv : DocEnv ST} {senv : ShardEnv}.
#[local] Abbreviation W := (IndexShard RT WT ET ST).

(** ** Readers *)

(** Some documents of the shard may be in the range, and none before the shard can. *)
Definition outside_range (timeMin timeMax : Z) (t : stats) : bool :=
  ((0 <? timeMin) && (0 <? TimeMax t) && (TimeMax t <? timeMin)) ||
  ((0 <? timeMax) && (0 <? TimeMin t) && (timeMax <? TimeMin t)).
Definition begins_before (timeMin : Z) (t : stats) : bool := (0 <? TimeMin t) && (TimeMin t <? timeMin).

Definition second_stats (i : nat) (s : W) : stats := default (MkStats 0 0 0 0) (seconds s !! i).

(** Shards [n-1] down to 0. The code opens the readers at the same time as it goes on, and
    looks at their failures at the end: one of them is the result. *)
Fixpoint readers_loop (index : string) (timeMin timeMax : Z) (n : nat) : M W (res (list nat)) :=
  match n with
  | O => mret (Ok [])
  | Datatypes.S i =>
      s ← get_state;
      let t := second_stats i s in
      if outside_range timeMin timeMax t then readers_loop index timeMin timeMax i
      else
        r ← try (w ← GetWriter (OpenWAL index) (Z.of_nat i); on_engine (Reader w));
        rs ← (if begins_before timeMin t then mret (Ok []) else readers_loop index timeMin timeMax i);
        mret (_ ← r; rs ← rs; Ok (i :: rs))
  end.
Definition GetReaders (index : string) (timeMin timeMax : Z) : M W (list nat) :=
  s ← get_state;
  r ← readers_loop index timeMin timeMax (Z.to_nat (GetLatestShardID s + 1));
  lift r.

(** The readers of an index: the number of the shard, and of the second-layer shard in it.
    A failure ends the search. *)
Fixpoint index_loop (index : string) (timeMin timeMax : Z) (k : nat) (shards : list W) : res (list (nat * nat)) * list W :=
  match shards with
  | [] => (Ok [], [])
  | s :: shards =>
      match GetReaders index timeMin timeMax s with
      | (Err e, s) => (Err e, s :: shards)
      | (Ok rs, s) =>
          let '(r, shards) := index_loop index timeMin timeMax (Datatypes.S k) shards in
          (l ← r; Ok ((pair k <$> rs) ++ l), s :: shards)
      end
  end.
Definition Index_GetReaders (index : string) (timeMin timeMax : Z) (shards : list W) : res (list (nat * nat)) * list W :=
  index_loop index timeMin timeMax 0 shards.

(** ** A search in one index *)

Section query.
Context {ss : SortSlice} {qlib : QueryLib}.

Record Index := MkIndex { ix_name : string; ix_maps : Mappings; ix_analyzers : gmap string analyzer; ix_shards : list W }.
Definition with_shards (l : list W) (ix : Index) : Index := MkIndex (ix_name ix) (ix_maps ix) (ix_analyzers ix) l.

(** The query of [ParseQueryDSL]. *)
Definition ParseQuery (mappings : Mappings) (analyzers : gmap string analyzer) (v : value) : res (query analyzer) :=
  q ← Query mappings analyzers v;
  of_option (zerr "not_implemented" "query doesn't support") q.

(** The query and the readers of [Index.Search]. *)
Definition Search (v : value) (ix : Index) : res (query analyzer * list (nat * nat)) * Index :=
  match ParseQuery (ix_maps ix) (ix_analyzers ix) v with
  | Err e => (Err e, ix)
  | Ok q =>
      match Times v with
      | Err e => (Err e, ix)
      | Ok (timeMin, timeMax) =>
          let '(r, l) := Index_GetReaders (ix_name ix) timeMin timeMax (ix_shards ix) in
          (rs ← r; Ok (q, rs), with_shards l ix)
      end
  end.

(** ** A search in several *)

Definition isMatchIndex (zincIndexName indexName : string) : bool :=
  if decide (indexName = "") then true
  else if HasPrefix indexName "*" then HasSuffix zincIndexName (String.substring 1 (String.length indexName - 1) indexName)
  else if HasSuffix indexName "*" then HasPrefix zincIndexName (String.substring 0 (String.length indexName - 1) indexName)
  else bool_decide (zincIndexName = indexName).

Definition selected (names : list string) (ix : Index) : bool :=
  match names with [] => true | _ => existsb (isMatchIndex (ix_name ix)) names end.

(** The readers of the indexes that match, by the index's number. *)
Fixpoint multi_loop (names : list string) (timeMin timeMax : Z) (k : nat) (l : list Index) :
    res (list (nat * (nat * nat))) * list Index :=
  match l with
  | [] => (Ok [], [])
  | ix :: l =>
      if selected names ix then
        match Index_GetReaders (ix_name ix) timeMin timeMax (ix_shards ix) with
        | (Err e, sh) => (Err e, with_shards sh ix :: l)
        | (Ok rs, sh) =>
            let '(r, l) := multi_loop names timeMin timeMax (Datatypes.S k) l in
            (m ← r; Ok ((pair k <$> rs) ++ m), with_shards sh ix :: l)
        end
      else let '(r, l) := multi_loop names timeMin timeMax (Datatypes.S k) l in (r, ix :: l)
  end.

Definition ErrNoIndex : error := errors_New "core.MultiSearchV2: error accessing reader: no index found".

(** The query is translated with the mappings of the first index that matches. No readers
    are no error when a name matched an index. *)
Definition MultiSearch (names : list string) (v : value) (l : list Index) :
    res (option (query analyzer) * list (nat * (nat * nat))) * list Index :=
  match Times v with
  | Err e => (Err e, l)
  | Ok (timeMin, timeMax) =>
      let '(r, l') := multi_loop names timeMin timeMax 0 l in
      (rs ← r;
       match rs with
       | [] => if bool_decide (names ≠ []) && existsb (selected names) l then Ok (None, []) else Err ErrNoIndex
       | _ =>
           match List.find (selected names) l with
           | Some ix => q ← ParseQuery (ix_maps ix) (ix_analyzers ix) v; Ok (Some q, rs)
           | None => Err ErrNoIndex
           end
       end, l')
  end.
End query.

(** ** What readers keep *)

#[local] Set Default Proof Using "Type".
(** The times of the shards are as before. *)
Definition same_times (s s' : W) : Prop := seconds s' = seconds s.
#[local] Instance same_times_preorder : PreOrder same_times.
Proof. split; [done|]. intros s1 s2 s3. unfold same_times. congruence. Qed.

Lemma times_zoom {T A} (get : W → T) set (c : M T A) : (∀ x s, seconds (set x s) = seconds s) →
  keeps same_times (zoom get set c).
Proof. intros Hs s r s' H. unfold zoom in H. destruct (c (get s)). injection H as <- <-. apply Hs. Qed.
Lemma times_modify (f : W → W) : (∀ s, seconds (f s) = seconds s) → keeps same_times (modify f).
Proof. intros Hs s r s' [= <- <-]. apply Hs. Qed.
Lemma times_on {A} (c : M ET A) : keeps same_times (on_engine c).
Proof. by apply times_zoom. Qed.
Lemma times_on_wal {A} (c : M WT A) : keeps same_times (on_wal c).
Proof. by apply times_zoom. Qed.
Lemma times_on_redo {A} (c : M RT A) : keeps same_times (on_redo c).
Proof. by apply times_zoom. Qed.
Lemma times_on_root {A} (c : M (root ST) A) : keeps same_times (on_root c).
Proof. by apply times_zoom. Qed.
Lemma times_add k : keeps same_times (add_writer k).
Proof. by apply times_modify. Qed.
Lemma times_open o w l : keeps same_times (set_open o w l).
Proof. by apply times_modify. Qed.
#[local] Hint Resolve times_on times_on_wal times_on_redo times_on_root times_add times_open : keeps.

Lemma times_openWriter k : keeps same_times (openWriter k).
Proof. unfold openWriter. solve_keeps. Qed.
#[local] Hint Resolve times_openWriter : keeps.
Section writer.
Context (openWAL : M W ()) (Hopen : keeps same_times openWAL) (index : string).
#[local] Set Default Proof Using "Type Hopen index".
#[local] Hint Resolve Hopen : keeps.
Lemma times_GetWriter k : keeps same_times (GetWriter openWAL k).
Proof. unfold GetWriter. solve_keeps. Qed.
#[local] Hint Resolve times_GetWriter : keeps.
Lemma times_GetWriters : keeps same_times (GetWriters openWAL).
Proof.
  assert (∀ ids, keeps same_times (GetWriters_ openWAL ids)) as H by (induction ids; simpl; solve_keeps).
  unfold GetWriters. solve_keeps.
Qed.
#[local] Hint Resolve times_GetWriters : keeps.
Lemma times_plan docs : ∀ batch other, keeps same_times (plan index docs batch other).
Proof. induction docs as [|[id d] docs IH]; intros batch other; simpl; solve_keeps. Qed.
Lemma times_plan_rollback docs : ∀ batch, keeps same_times (plan_rollback index docs batch).
Proof. induction docs as [|[id d] docs IH]; intros batch; simpl; solve_keeps. Qed.
Lemma times_delete_from ws other : keeps same_times (delete_from ws other).
Proof. induction ws; simpl; solve_keeps. Qed.
#[local] Hint Resolve times_plan times_plan_rollback times_delete_from : keeps.
Lemma times_WriteTo docs rollback : keeps same_times (WriteTo index openWAL docs rollback).
Proof.
  assert (∀ ids, keeps same_times (WriteTo_loop index openWAL ids docs rollback)) as H.
  { induction ids as [|id ids IH]; simpl; [solve_keeps|]. apply keeps_bind; [apply _| |solve_keeps].
    destruct rollback; unfold WriteToShard, WriteToShardRollback; solve_keeps. }
  unfold WriteTo. solve_keeps.
Qed.
End writer.
Lemma times_Rollback index : keeps same_times (Rollback index).
Proof.
  assert (∀ n i docs, keeps same_times (read_range n i docs)) as H
    by (induction n; intros; simpl; unfold read_document; solve_keeps).
  pose proof (λ d b, times_WriteTo (mret ()) (keeps_ret _ _) index d b) as Hw. unfold Rollback, readRedoLog. solve_keeps.
Qed.
Lemma times_OpenWAL index : keeps same_times (OpenWAL index).
Proof. pose proof (times_Rollback index). unfold OpenWAL. solve_keeps. Qed.

(** ** No document is missed *)

(** The documents of the second-layer shards, by their times: the times of a shard are
    those of its documents, zero when it has none yet; those of the shards before it are
    not later than the first of its own. *)
Definition covers (l : list stats) (holds : nat → Z → Prop) : Prop := ∀ i st t,
  l !! i = Some st → holds i t → (0 < TimeMax st → t ≤ TimeMax st) ∧ (0 < TimeMin st → TimeMin st ≤ t).
Definition older (l : list stats) (holds : nat → Z → Prop) : Prop := ∀ i j st t,
  (i < j)%nat → l !! j = Some st → holds i t → 0 < TimeMin st → t ≤ TimeMin st.

Lemma outside_range_spec timeMin timeMax st t : outside_range timeMin timeMax st = true →
  (0 < TimeMax st → t ≤ TimeMax st) → (0 < TimeMin st → TimeMin st ≤ t) → ¬ within (timeMin, timeMax) t.
Proof.
  unfold outside_range. intros Ho H1 H2 [W1 W2]. simpl in *.
  apply orb_true_iff in Ho as [[[?%Z.ltb_lt ?%Z.ltb_lt]%andb_true_iff ?%Z.ltb_lt]%andb_true_iff|
                               [[?%Z.ltb_lt ?%Z.ltb_lt]%andb_true_iff ?%Z.ltb_lt]%andb_true_iff]; lia.
Qed.

Lemma readers_loop_complete index timeMin timeMax holds n : ∀ s s' rs,
  readers_loop index timeMin timeMax n s = (Ok (Ok rs), s') → covers (seconds s) holds → older (seconds s) holds →
  (n ≤ length (seconds s))%nat → ∀ i t, (i < n)%nat → holds i t → within (timeMin, timeMax) t → i ∈ rs.
Proof.
  induction n as [|n IH]; intros s s' rs H Hc Ho Hn i t Hi Ht Hw; [lia|]. simpl in H.
  apply bind_ok in H as (s0 & s1 & [= <- <-] & H).
  destruct (lookup_lt_is_Some_2 (seconds s) n) as [st Hst]; [lia|].
  assert (second_stats n s = st) as Es by (unfold second_stats; by rewrite Hst). rewrite Es in H. clear Es.
  destruct (outside_range timeMin timeMax st) eqn:Eo.
  - destruct (decide (i = n)) as [->|]; [|by eapply IH; [exact H|..]; try done; lia].
    destruct (Hc n st t Hst Ht). by destruct (outside_range_spec _ _ _ t Eo).
  - apply bind_ok in H as (r & s1 & H1 & H). apply bind_ok in H as (rs0 & s2 & H2 & H). injection H as H <-.
    destruct r as [u|]; [|done]. destruct rs0 as [rs'|]; [|done]. injection H as <-.
    destruct (decide (i = n)) as [->|]; [by left|]. right.
    assert (same_times s s1) as Hs.
    { refine (keeps_try _ _ _ _ _ _ H1). apply keeps_bind; [apply _|apply (times_GetWriter _ (times_OpenWAL index) index)|].
      intros w. apply times_on. }
    destruct (begins_before timeMin st) eqn:Eb.
    + exfalso. unfold begins_before in Eb. apply andb_true_iff in Eb as [?%Z.ltb_lt ?%Z.ltb_lt].
      pose proof (Ho i n st t ltac:(lia) Hst Ht). destruct Hw as [Hw _]. simpl in Hw. lia.
    + unfold same_times in Hs. eapply IH; [exact H2| | | | |exact Ht|done]; rewrite ?Hs; try done; lia.
Qed.

Lemma index_loop_complete index timeMin timeMax shards : ∀ k l shards' j s,
  index_loop index timeMin timeMax k shards = (Ok l, shards') → shards !! j = Some s →
  ∃ rs s', GetReaders index timeMin timeMax s = (Ok rs, s') ∧ ∀ i, i ∈ rs → (k + j, i)%nat ∈ l.
Proof.
  induction shards as [|x shards IH]; intros k l shards' j s H Hj; [done|]. simpl in H.
  destruct (GetReaders index timeMin timeMax x) as [[rs|] x'] eqn:Er; [|done].
  destruct (index_loop index timeMin timeMax (Datatypes.S k) shards) as [[l'|] sh] eqn:El; [|done]. injection H as <- <-.
  destruct j as [|j]; simpl in Hj.
  - injection Hj as <-. exists rs, x'. split; [done|]. intros i Hi. apply elem_of_app. left. rewrite Nat.add_0_r.
    by apply list_elem_of_fmap_2.
  - destruct (IH _ _ _ _ _ El Hj) as (rs' & s' & ? & Hin). exists rs', s'. split; [done|]. intros i Hi.
    apply elem_of_app. right. replace (k + Datatypes.S j)%nat with (Datatypes.S k + j)%nat by lia. by apply Hin.
Qed.

Section query.
Context {ss : SortSlice} {qlib : QueryLib}.

(** C3: for a query without optional clauses, read alike by both readers (the time field
    of the mapping has no format or zone of its own; each bound is a time of 64 bits of
    nanoseconds, and a number where it is in epoch_millis), and an index whose shards
    cover the times of their documents and were filled in the order of these times: when
    a search succeeds, every document that the query finds is in a shard that is read.
    *)
Theorem search_misses_nothing (ix ix' : Index) v q rs found holds :
  Search v ix = (Ok (q, rs), ix') →
  finds_must found → finds_dates found → plain_time (ix_maps ix) TimeFieldName → fair v = true →
  ∀ k s i t, ix_shards ix !! k = Some s → covers (seconds s) (holds k) → older (seconds s) (holds k) →
    (i < length (seconds s))%nat → holds k i t → found q t → (k, i) ∈ rs.
Proof.
  intros H Hm Hd Hp Hf k s i t Hk Hc Ho Hi Ht Hfound. unfold Search in H.
  destruct (ParseQuery (ix_maps ix) (ix_analyzers ix) v) as [q'|] eqn:Eq; [|done].
  destruct (Times v) as [[timeMin timeMax]|] eqn:Et; [|done].
  destruct (Index_GetReaders (ix_name ix) timeMin timeMax (ix_shards ix)) as [[l|] sh] eqn:Er; [|done].
  injection H as <- <- <-. unfold ParseQuery in Eq. apply res_bind_ok in Eq as ([q|] & Hq & Eq); [|done].
  injection Eq as <-. pose proof (found_within' _ _ _ _ _ _ _ Hm Hd Hp Hf Hq Et Hfound) as Hw.
  destruct (index_loop_complete _ _ _ _ _ _ _ _ _ Er Hk) as (rs & s' & Hs & Hin). apply Hin. clear Hin Er.
  unfold GetReaders in Hs. apply bind_ok in Hs as (s0 & s1 & [= <- <-] & Hs). apply bind_ok in Hs as (r & s2 & Hs & [= -> <-]).
  eapply readers_loop_complete; [exact Hs|exact Hc|exact Ho| | |exact Ht|done];
    unfold GetLatestShardID, GetShardNum; lia.
Qed.
End query.
End search.

Module SearchDemo.
Import TimeRangeDemo.
#[local] Existing Instance ShardDemo.once_file.
#[local] Existing Instance ShardDemo.mem_wal.
#[local] Existing Instance ShardDemo.mem_engine.
#[local] Existing Instance DocumentDemo.demo_env.
#[export] Instance demo_shard_env : ShardEnv := ShardDemo.env false.
#[export] Instance demo_readers : Readers ShardDemo.engine_state := λ _, mret ().

#[local] Abbreviation W := (IndexShard (Log (bytes * list bool)) ShardDemo.log_state ShardDemo.engine_state Z).
(** An open shard with second-layer shards of these times, in seconds. *)
Definition shard_of (times : list (Z * Z)) : W :=
  MkShard true true true (MkLog ∅ (zeros 256) 0 false true ([], [])) ([], O, 1) ∅
    (map (λ t, MkStats 1 1 (t.1 * 10 ^ 9) (t.2 * 10 ^ 9)) times) (0, 0) (MkRoot (dated "") 0 0 0) ∅.
Definition logs (shards : list (list (Z * Z))) : Search.Index := MkIndex "logs" (dated "") ∅ (map shard_of shards).

(** The first second-layer shard is too old, and that before it is not looked at. *)
Definition two : Search.Index := logs [[(100, 200); (200, 900); (900, 1100); (1200, 1900)]; [(0, 0)]].
Definition times_of (k i : nat) (t : Z) : Prop :=
  (k, i, t) ∈ [(0%nat, 1%nat, 900 * 10 ^ 9); (0%nat, 2%nat, 1000 * 10 ^ 9); (0%nat, 3%nat, 1500 * 10 ^ 9); (1%nat, 0%nat, 1400 * 10 ^ 9)].

(** What a search reads. *)
Definition readers_of (v : value) (ix : Search.Index) : option (list (nat * nat)) :=
  match (Search v ix).1 with Ok (_, rs) => Some rs | Err _ => None end.

Example two_read : readers_of both two = Some [(0, 3); (0, 2); (1, 0)]%nat.
Proof. by vm_compute. Qed.

Lemma two_times k s : ix_shards two !! k = Some s → covers (seconds s) (times_of k) ∧ older (seconds s) (times_of k).
Proof.
  intros Hk. destruct k as [|[|k]]; [| |done]; injection Hk as <-; (split; [intros i st t Hi Ht|intros i j st t Hij Hi Ht]);
    unfold times_of in Ht; repeat (apply elem_of_cons in Ht as [[= -> ->]|Ht]); try (by apply elem_of_nil in Ht);
    try (injection Hi as <-; simpl; lia).
  all: repeat (destruct j as [|j]; [try lia; injection Hi as <-; simpl; lia|]); done.
Qed.

Lemma search_misses_nothing_witness :
  ∃ q ix', Search both two = (Ok (q, [(0, 3); (0, 2); (1, 0)]%nat), ix') ∧ (0, 2)%nat ∈ [(0, 3); (0, 2); (1, 0)]%nat.
Proof.
  destruct (Search both two) as [r ix'] eqn:E. assert (r = (Search both two).1) as Er by (by rewrite E).
  vm_compute in Er. subst r. eexists _, ix'. split; [reflexivity|].
  destruct (two_times 0 (shard_of [(100, 200); (200, 900); (900, 1100); (1200, 1900)]) eq_refl) as [Hc Ho].
  refine (search_misses_nothing two ix' both _ _ finds times_of E finds_must_ok finds_dates_ok _ _
            0%nat _ 2%nat (1000 * 10 ^ 9) eq_refl Hc Ho _ _ _).
  - split; [done|split; [by left|done]].
  - by vm_compute.
  - simpl. lia.
  - right. left.
  - vm_compute. repeat split; intros; discriminate.
Defined.

(** [late_document_missed]: a document of an earlier time than those of the shards before
    makes a search stop at its shard: the shard before it is not read, with documents of
    half an hour in the range. *)
Theorem late_document_missed :
  let ix := logs [[(1000, 3000); (500, 4000)]] in
  readers_of (since [("gte", VStr "1200")]) ix = Some [(0, 1)]%nat ∧
  outside_range (1200 * 10 ^ 9) (i64 zero_time) (second_stats 0 (shard_of [(1000, 3000); (500, 4000)])) = false.
Proof. by vm_compute. Qed.
End SearchDemo.
