(* ===== verification/Blob.v ===== *)
(** The object store over a directory (pkg/coordinator/blob/blob.go and fs.go), for the
    interface of Backups.v.

    The directory is a map from paths below its root to contents and times, and a set of
    directories. Every call of the file system may fail: the state has what the next
    calls answer. A process that ends in the middle is one whose remaining calls fail. *)
From S2P Require Import Prelude Strings State Cluster Backups.
#[local] Open Scope Z_scope.

Definition ErrInvalidName : error := sentinel "blob.ErrInvalidName" "blob: invalid name".

Definition name_byte (c : ascii) : bool := is_alnum c || bool_decide (c ∈ ["."; "_"; "="; "/"; "-"]%char).
Definition ValidName (name : string) : bool :=
  match name with
  | String c s => is_alnum c && all_bytes name_byte s && (len s <=? 511) &&
                  forallb (λ part, negb (bool_decide (part ∈ [""; "."; ".."]))) (Split name "/")
  | "" => false
  end.

(** ** Paths *)

Fixpoint base_from (acc s : string) : string :=
  match s with
  | "" => acc
  | String c s => if decide (c = "/"%char) then base_from "" s else base_from (acc +:+ String c "") s
  end.
Definition base (path : string) : string := base_from "" path.
(** The directories above a path, the root apart. *)
Fixpoint parents_from (acc s : string) : list string :=
  match s with
  | "" => []
  | String c s => let rest := parents_from (acc +:+ String c "") s in if decide (c = "/"%char) then acc :: rest else rest
  end.
Definition parents (path : string) : list string := parents_from "" path.
Definition Join (dir name : string) : string := if decide (dir = "") then name else dir +:+ "/" +:+ name.

(** ** The file system *)

Definition ENOTDIR : error := errors_New "not a directory".
Definition EISDIR : error := errors_New "is a directory".
Definition ENOTEMPTY : error := errors_New "directory not empty".
Definition ErrNotExist : error := sentinel "fs.ErrNotExist" "file does not exist".

(** The answers of the next calls, and how many bytes are written by one that fails; the
    numbers that names of temporary files are made of. *)
Record FS := MkFS {
  files : gmap string (string * Z); dirs : gset string;
  answers : list (option (error * nat)); random : list Z; ticks : Z }.

Definition set_files (m : gmap string (string * Z)) (f : FS) : FS :=
  MkFS m (dirs f) (answers f) (random f) (ticks f + 1).
Definition set_dirs (d : gset string) (f : FS) : FS := MkFS (files f) d (answers f) (random f) (ticks f).

(** One call: how many bytes it did before it failed. *)
Definition call : M FS (option (error * nat)) := λ f,
  match answers f with
  | [] => (Ok None, f)
  | a :: l => (Ok a, MkFS (files f) (dirs f) l (random f) (ticks f))
  end.
Definition sys : M FS () := a ← call; match a with Some (e, _) => throw e | None => mret () end.

Definition MkdirAll (ps : list string) : M FS () :=
  sys;;
  f ← get_state;
  if existsb (λ p, bool_decide (is_Some (files f !! p))) ps then throw ENOTDIR
  else modify (λ f, set_dirs (list_to_set ps ∪ dirs f) f).

Definition temp_name (dir : string) (n : Z) : string := Join dir (".put-" +:+ FormatUint n).
(** The first number whose file is not there. *)
Fixpoint create_loop (dir : string) (ns : list Z) : M FS string :=
  match ns with
  | [] => throw (errors_New "file exists")
  | n :: ns =>
      let p := temp_name dir n in
      f ← get_state;
      if bool_decide (is_Some (files f !! p)) || bool_decide (p ∈ dirs f) then create_loop dir ns
      else modify (λ f, set_files (<[p := ("", ticks f)]> (files f)) (MkFS (files f) (dirs f) (answers f) ns (ticks f)));; mret p
  end.
Definition CreateTemp_ (dir : string) : M FS string := sys;; f ← get_state; create_loop dir (random f).

Definition write (p data : string) : M FS () := modify (λ f, set_files (<[p := (data, ticks f)]> (files f)) f).
Definition Copy (p data : string) : M FS () :=
  a ← call;
  match a with
  | Some (e, n) => write p (String.substring 0 n data);; throw e
  | None => write p data
  end.
Definition Rename (p q : string) : M FS () :=
  sys;;
  f ← get_state;
  match files f !! p with
  | None => throw ErrNotExist
  | Some x => if bool_decide (q ∈ dirs f) then throw EISDIR
              else modify (λ f, set_files (<[q := x]> (delete p (files f))) f)
  end.
(** A path through a file. *)
Definition through_file (p : string) (f : FS) : bool := existsb (λ q, bool_decide (is_Some (files f !! q))) (parents p).
(** [os.Remove], which removes an empty directory, too. *)
Definition Remove_ (p : string) : M FS () :=
  sys;;
  f ← get_state;
  match files f !! p with
  | Some _ => modify (λ f, set_files (delete p (files f)) f)
  | None =>
      if bool_decide (p ∈ dirs f) then
        if existsb (λ q, bool_decide (p ∈ parents q)) ((map_to_list (files f)).*1 ++ elements (dirs f)) then throw ENOTEMPTY
        else modify (λ f, set_dirs (dirs f ∖ {[p]}) f)
      else if through_file p f then throw ENOTDIR
      else throw ErrNotExist
  end.

(** ** The store *)

Definition FS_Put (name data : string) (size : Z) : M FS () :=
  if negb (ValidName name) then throw ErrInvalidName
  else
    MkdirAll (parents name);;
    tmp ← CreateTemp_ (default "" (last (parents name)));
    defer (λ _, ignore (Remove_ tmp))
      (r1 ← try (Copy tmp data);
       r2 ← try sys;
       r3 ← try sys;
       lift r1;; lift r2;; lift r3;;
       Rename tmp name).

(** [Get] and reading to the end: a directory opens, too. *)
Definition FS_Get (name : string) : M FS (string * option error) :=
  if negb (ValidName name) then throw ErrInvalidName
  else
    sys;;
    f ← get_state;
    match files f !! name with
    | Some (data, _) =>
        a ← call;
        mret match a with Some (e, n) => (String.substring 0 n data, Some e) | None => (data, None) end
    | None => if bool_decide (name ∈ dirs f) then mret ("", Some EISDIR)
              else if through_file name f then throw ENOTDIR
              else throw BlobErrNotFound
    end.

Definition by_name (x y : Info) : Prop := String.le (in_Name x) (in_Name y).
#[export] Instance by_name_dec x y : Decision (by_name x y).
Proof. unfold by_name. apply _. Defined.

Definition hidden (path : string) : bool := HasPrefix (base path) ".put-".
Definition info_of (kv : string * (string * Z)) : Info := MkInfo kv.1 (len kv.2.1) kv.2.2.
Definition FS_List (pre : string) : M FS (list Info) :=
  sys;;
  f ← get_state;
  mret (merge_sort by_name
          (info_of <$> filter (λ kv, hidden kv.1 = false ∧ HasPrefix kv.1 pre = true) (map_to_list (files f)))).

Definition FS_Delete (name : string) : M FS () :=
  if negb (ValidName name) then throw ErrInvalidName
  else
    r ← try (Remove_ name);
    match r with
    | Err e => if errors_Is e ErrNotExist then mret () else throw e
    | Ok _ => mret ()
    end.

#[export] Instance FS_store : BlobStore FS := {|
  Put := FS_Put; GetBlob := FS_Get; ListBlobs := FS_List; DeleteBlob := FS_Delete |}.

(** ** Temporary files are hidden *)

Definition no_slash (s : string) : bool := all_bytes (λ c, negb (bool_decide (c = "/"%char))) s.

Lemma base_from_app acc a b : base_from acc (a +:+ String "/" b) = base_from "" b.
Proof. revert acc. induction a as [|c a IH]; intros acc; simpl; [done|]. case_decide; apply IH. Qed.
Lemma base_from_flat acc s : no_slash s = true → base_from acc s = acc +:+ s.
Proof.
  revert acc. induction s as [|c s IH]; intros acc; simpl; [intros _; by rewrite append_nil_s|].
  intros [Hc Hs]%andb_true_iff. apply negb_true_iff, bool_decide_eq_false_1 in Hc. rewrite decide_False by done.
  rewrite IH by done. by rewrite <- append_assoc_s.
Qed.
Lemma hidden_temp dir n : hidden (temp_name dir n) = true.
Proof.
  unfold temp_name.
  assert (no_slash (".put-" +:+ FormatUint n) = true) as Hs.
  { unfold no_slash. rewrite all_bytes_append. apply andb_true_iff. split; [done|].
    eapply all_bytes_impl; [|apply FormatUint_digits]. intros c Hc. apply negb_true_iff, bool_decide_eq_false_2.
    by intros ->. }
  assert (base (Join dir (".put-" +:+ FormatUint n)) = ".put-" +:+ FormatUint n) as Hb.
  { unfold base, Join. case_decide; [by rewrite base_from_flat|].
    change (dir +:+ "/" +:+ (".put-" +:+ FormatUint n)) with (dir +:+ String "/" (".put-" +:+ FormatUint n)).
    by rewrite base_from_app, base_from_flat. }
  unfold hidden. rewrite Hb. apply HasPrefix_append.
Qed.

(** The objects: what is not hidden. *)
Definition visible (f : FS) : gmap string (string * Z) := filter (λ kv, hidden kv.1 = false) (files f).
Definition unseen (f f' : FS) : Prop := visible f' = visible f.
#[export] Instance unseen_preorder : PreOrder unseen.
Proof. split; [done|]. intros a b c. unfold unseen. congruence. Qed.

Lemma call_files f a f' : call f = (a, f') → files f' = files f.
Proof. unfold call. destruct (answers f); by intros [= _ <-]. Qed.
Lemma unseen_files f f' : files f' = files f → unseen f f'.
Proof. unfold unseen, visible. by intros ->. Qed.
Lemma unseen_call : keeps unseen call.
Proof. intros f r f' H. by eapply unseen_files, call_files. Qed.
Lemma unseen_sys : keeps unseen sys.
Proof. pose proof unseen_call. unfold sys. solve_keeps. Qed.
Lemma sys_files f r f' : sys f = (r, f') → files f' = files f.
Proof.
  unfold sys. intros [(e & H & _)|([[]|] & f1 & H & H')]%bind_inv; apply call_files in H; [done|..]; by injection H' as _ <-.
Qed.
Lemma visible_insert p x f : hidden p = true → visible (set_files (<[p := x]> (files f)) f) = visible f.
Proof. intros Hp. unfold visible. simpl. apply map_filter_insert_not. intros y. simpl. by rewrite Hp. Qed.
Lemma visible_delete p f : hidden p = true → visible (set_files (delete p (files f)) f) = visible f.
Proof. intros Hp. unfold visible. simpl. apply map_filter_delete_not. intros y _. simpl. by rewrite Hp. Qed.

Lemma unseen_MkdirAll ps : keeps unseen (MkdirAll ps).
Proof.
  pose proof unseen_sys. assert (∀ d, keeps unseen (modify (set_dirs d))) by by intros d f r f' [= _ <-].
  unfold MkdirAll. solve_keeps. by intros f r f' [= _ <-].
Qed.

Lemma create_loop_spec dir ns : ∀ f r f', create_loop dir ns f = (r, f') →
  unseen f f' ∧ ∀ p, r = Ok p → hidden p = true.
Proof.
  induction ns as [|n ns IH]; intros f r f' H; simpl in H; [by injection H as <- <-|].
  apply bind_inv in H as [(e & [=] & _)|(f0 & f1 & [= <- <-] & H)].
  destruct (bool_decide _ || _); [by apply IH|]. injection H as <- <-. pose proof (hidden_temp dir n) as Hh.
  split.
  - unfold unseen, visible. simpl. apply map_filter_insert_not. intros y. simpl. by rewrite Hh.
  - by intros q [= <-].
Qed.
Lemma CreateTemp_spec dir f r f' : CreateTemp_ dir f = (r, f') → unseen f f' ∧ ∀ p, r = Ok p → hidden p = true.
Proof.
  unfold CreateTemp_. intros [(e & H & ->)|(u & f1 & H & H')]%bind_inv; [split; [by eapply unseen_sys|done]|].
  apply bind_inv in H' as [(e & [=] & _)|(f0 & f2 & [= <- <-] & H')]. apply create_loop_spec in H' as [Hu Hp].
  split; [|done]. etrans; [by eapply unseen_sys|done].
Qed.
Lemma unseen_write p data : hidden p = true → keeps unseen (write p data).
Proof. intros Hp f r f' [= _ <-]. by apply visible_insert. Qed.
Lemma unseen_Copy p data : hidden p = true → keeps unseen (Copy p data).
Proof. intros Hp. pose proof unseen_call. pose proof (λ d, unseen_write p d Hp). unfold Copy. solve_keeps. Qed.
Lemma Copy_ok p data f f' : Copy p data f = (Ok (), f') → ∃ t, files f' !! p = Some (data, t).
Proof.
  unfold Copy. intros ([[e n]|] & f1 & H & H')%bind_ok.
  - by apply bind_ok in H' as (u & f2 & _ & H').
  - injection H' as <-. eexists. simpl. apply lookup_insert_eq.
Qed.
Lemma unseen_Remove p : hidden p = true → keeps unseen (Remove_ p).
Proof.
  intros Hp. pose proof unseen_sys. assert (keeps unseen (modify (λ f, set_files (delete p (files f)) f))).
  { intros f r f' [= _ <-]. by apply visible_delete. }
  assert (keeps unseen (modify (λ f, set_dirs (dirs f ∖ {[p]}) f))) by by intros f r f' [= _ <-].
  unfold Remove_. solve_keeps.
Qed.

(** A rename makes the object what was written, or changes nothing. *)
Lemma Rename_spec p q f r f' : hidden p = true → hidden q = false → Rename p q f = (r, f') →
  match r with
  | Ok _ => ∃ x, files f !! p = Some x ∧ visible f' = <[q := x]> (visible f)
  | Err _ => unseen f f'
  end.
Proof.
  intros Hp Hq. unfold Rename. intros [(e & H & ->)|(u & f1 & H & H')]%bind_inv; [by eapply unseen_sys|].
  pose proof (unseen_sys _ _ _ H) as Hu. apply sys_files in H.
  apply bind_inv in H' as [(e & [=] & _)|(f0 & f2 & [= <- <-] & H')]. rewrite <- H.
  destruct (files f1 !! p) as [x|] eqn:E; [|by injection H' as <- <-].
  destruct (bool_decide (q ∈ dirs f1)); [by injection H' as <- <-|]. injection H' as <- <-.
  exists x. split; [done|]. rewrite <- Hu. unfold visible. simpl. rewrite map_filter_insert_True by done.
  f_equal. apply map_filter_delete_not. intros y _. simpl. by rewrite Hp.
Qed.

(** Whatever fails, the object that is put is there completely, or all is as before. *)
Lemma FS_Put_spec name data size f r f' : hidden name = false → FS_Put name data size f = (r, f') →
  (∃ t, visible f' = <[name := (data, t)]> (visible f)) ∨ (is_ok r = false ∧ visible f' = visible f).
Proof.
  intros Hn H. unfold FS_Put in H. destruct (negb (ValidName name)); [right; by injection H as <- <-|].
  apply bind_inv in H as [(e & H & ->)|(u & f1 & H & H')]; apply unseen_MkdirAll in H as Hu1; [by right|].
  apply bind_inv in H' as [(e & H1 & ->)|(tmp & f2 & H1 & H')]; apply CreateTemp_spec in H1 as [Hu2 Ht];
    [right; split; [done|by etrans]|]. specialize (Ht tmp eq_refl). rewrite <- Hu1, <- Hu2. clear Hu1 Hu2 H f f1.
  apply defer_inv in H' as (f3 & u' & H & Hfin). apply ignore_run in Hfin as [x Hfin].
  apply (unseen_Remove tmp Ht) in Hfin. rewrite Hfin. clear Hfin.
  apply try_inv in H as (r1 & f4 & H1 & H). apply try_inv in H as (r2 & f5 & H2 & H). apply try_inv in H as (r3 & f6 & H3 & H).
  pose proof (unseen_Copy tmp data Ht _ _ _ H1) as Hu. pose proof (sys_files _ _ _ H2) as E2. pose proof (sys_files _ _ _ H3) as E3.
  assert (unseen f2 f6) as Hu6. { etrans; [exact Hu|]. apply unseen_files. by rewrite E3, E2. }
  destruct r1 as [[]|e]; [|right; injection H as <- <-; by split].
  destruct r2 as [[]|e]; [|right; injection H as <- <-; by split].
  destruct r3 as [[]|e]; [|right; injection H as <- <-; by split].
  apply (Rename_spec tmp name) in H; [|done|done]. destruct r as [[]|e]; [|right; split; [done|by etrans]].
  destruct H as (y & Hy & ->). left. apply Copy_ok in H1 as [t Hc]. rewrite E3, E2, Hc in Hy. injection Hy as <-.
  exists t. by rewrite Hu6.
Qed.

(** ** The interface *)

Lemma visible_lookup name f : hidden name = false → visible f !! name = files f !! name.
Proof.
  intros Hn. unfold visible. destruct (files f !! name) as [x|] eqn:E.
  - apply map_lookup_filter_Some. by split.
  - apply map_lookup_filter_None. by left.
Qed.

(** What the file system answers is neither an error of the store nor that a file is not
    there that is. *)
Definition foreign_answers (f : FS) : Prop := Forall (λ a, match a with
  | Some (e, _) => errors_Is e BlobErrNotFound = false ∧ errors_Is e ErrNotExist = false
  | None => True
  end) (answers f).

Lemma sys_foreign f e f' : foreign_answers f → sys f = (Err e, f') →
  errors_Is e BlobErrNotFound = false ∧ errors_Is e ErrNotExist = false.
Proof.
  intros Hf. unfold sys, mbind, M_bind, call. unfold foreign_answers in Hf. destruct (answers f) as [|[[e' n]|] l]; [done| |done].
  intros [= <- <-]. by apply Forall_cons in Hf as [? _].
Qed.

Lemma FS_Get_spec name f r f' : hidden name = false → foreign_answers f → FS_Get name f = (r, f') → visible f' = visible f ∧
  match r with
  | Ok (data, None) => ∃ t, visible f !! name = Some (data, t)
  | Ok (_, Some _) => True
  | Err e => errors_Is e BlobErrNotFound = true → visible f !! name = None
  end.
Proof.
  intros Hn Hf H. unfold FS_Get in H. destruct (negb (ValidName name)); [by injection H as <- <-|].
  apply bind_inv in H as [(e & H & ->)|(u & f1 & H & H')].
  { split; [by eapply unseen_sys|]. destruct (sys_foreign _ _ _ Hf H) as [-> _]. done. }
  apply unseen_sys in H as Hu. rewrite <- Hu. clear Hu Hf H f.
  apply bind_inv in H' as [(e & [=] & _)|(f0 & f2 & [= <- <-] & H')]. rewrite !visible_lookup by done.
  destruct (files f1 !! name) as [[data t]|].
  - apply bind_inv in H' as [(e & H & _)|(a & f2 & H & H')].
    + unfold call in H. by destruct (answers f1).
    + apply unseen_call in H. injection H' as <- <-. split; [done|]. destruct a as [[e n]|]; [done|by exists t].
  - destruct (bool_decide _); [by injection H' as <- <-|]. destruct (through_file name f1); by injection H' as <- <-.
Qed.

Lemma FS_List_spec pre f r f' : FS_List pre f = (r, f') → visible f' = visible f ∧ ∀ l, r = Ok l →
  StronglySorted by_name l ∧ NoDup (in_Name <$> l) ∧
  ∀ i, i ∈ l ↔ ∃ data, visible f !! in_Name i = Some (data, ModTime i) ∧ in_Size i = len data ∧ HasPrefix (in_Name i) pre = true.
Proof.
  unfold FS_List. intros [(e & H & ->)|(u & f1 & H & H')]%bind_inv; [split; [by eapply unseen_sys|done]|].
  apply unseen_sys in H as Hu. rewrite <- Hu. clear Hu H f.
  apply bind_inv in H' as [(e & [=] & _)|(f0 & f2 & [= <- <-] & [= <- <-])]. split; [done|]. intros l [= <-].
  assert (Total by_name) by (intros x y; apply String.le_total).
  assert (Transitive by_name) by (intros x y z; unfold by_name; apply transitivity).
  split; [by apply StronglySorted_merge_sort|]. setoid_rewrite merge_sort_Permutation. split.
  - rewrite <- list_fmap_compose. eapply sublist_NoDup; [apply (NoDup_fst_map_to_list (files f1))|].
    apply fmap_sublist, sublist_filter.
  - intros i. rewrite list_elem_of_fmap. split.
    + intros ([k [data t]] & -> & Hin). apply list_elem_of_filter in Hin as [[Hh Hp] Hin]. simpl in *.
      apply elem_of_map_to_list in Hin. exists data. by rewrite visible_lookup.
    + intros (data & Hi & Hs & Hp). apply map_lookup_filter_Some in Hi as [Hi Hh].
      exists (in_Name i, (data, ModTime i)). split; [destruct i; simpl in *; by rewrite Hs|].
      apply list_elem_of_filter. split; [done|]. by apply elem_of_map_to_list.
Qed.

Lemma FS_Delete_spec name f r f' : hidden name = false → foreign_answers f → FS_Delete name f = (r, f') →
  visible f' = delete name (visible f) ∨ is_ok r = false ∧ visible f' = visible f.
Proof.
  intros Hn Hf H. unfold FS_Delete in H. destruct (negb (ValidName name)); [right; by injection H as <- <-|].
  apply try_inv in H as (x & f1 & H & H'). unfold Remove_ in H.
  apply bind_inv in H as [(e & H & ->)|(u & f2 & H & H1)].
  { apply unseen_sys in H as Hu. destruct (sys_foreign _ _ _ Hf H) as [_ E]. rewrite E in H'.
    injection H' as <- <-. by right. }
  apply unseen_sys in H as Hu. rewrite <- Hu. clear Hu H Hf f.
  apply bind_inv in H1 as [(e & [=] & _)|(f0 & f3 & [= <- <-] & H)].
  destruct (files f2 !! name) as [y|] eqn:E.
  - injection H as <- <-. injection H' as <- <-. left. unfold visible. simpl. by rewrite map_filter_delete.
  - assert (visible f2 = delete name (visible f2)) as Ed.
    { symmetry. apply delete_id. by rewrite visible_lookup. }
    destruct (bool_decide (name ∈ dirs f2)).
    + destruct (existsb _ _); injection H as <- <-; [|by left; injection H' as <- <-].
      right. unfold throw, mret in H'. simpl in H'. by injection H' as <- <-.
    + destruct (through_file name f2); injection H as <- <-; simpl in H'; injection H' as <- <-; [by right|by left].
Qed.

(** C6: for a name whose last part does not begin with .put-, and a file system whose
    failures are not taken for a missing file: the store in a directory is a map from
    names to contents, which a put extends with all of its content or leaves as it is,
    whatever fails and wherever the process ends; what is read is what was put; the list
    has exactly the objects with the prefix whose names are of that kind, in order; a
    deletion removes the object or changes nothing and says so. *)
Theorem blob_refines name f : hidden name = false → foreign_answers f →
  (∀ data size r f', Put name data size f = (r, f') →
     (∃ t, visible f' = <[name := (data, t)]> (visible f)) ∨ is_ok r = false ∧ visible f' = visible f) ∧
  (∀ r f', GetBlob name f = (r, f') → visible f' = visible f ∧
     match r with
     | Ok (data, None) => ∃ t, visible f !! name = Some (data, t)
     | Ok (_, Some _) => True
     | Err e => errors_Is e BlobErrNotFound = true → visible f !! name = None
     end) ∧
  (∀ pre r f', ListBlobs pre f = (r, f') → visible f' = visible f ∧ ∀ l, r = Ok l →
     StronglySorted by_name l ∧ NoDup (in_Name <$> l) ∧
     ∀ i, i ∈ l ↔ ∃ data, visible f !! in_Name i = Some (data, ModTime i) ∧ in_Size i = len data ∧
                          HasPrefix (in_Name i) pre = true) ∧
  (∀ r f', DeleteBlob name f = (r, f') →
     visible f' = delete name (visible f) ∨ is_ok r = false ∧ visible f' = visible f).
Proof.
  intros Hn Hf. split; [|split; [|split]].
  - intros data size r f'. by apply FS_Put_spec.
  - intros r f'. by apply FS_Get_spec.
  - intros pre r f'. apply FS_List_spec.
  - intros r f'. by apply FS_Delete_spec.
Qed.

Module BlobDemo.
Definition empty_fs (answers : list (option (error * nat))) : FS := MkFS ∅ ∅ answers [7; 8; 9] 0.
Definition after {A} (c : M FS A) (f : FS) : FS := (c f).2.

(** The copy fails after two bytes, and then the removal of the temporary file. *)
Definition torn : FS :=
  after (Put "backups/a.tgz" "data" 4) (empty_fs [None; None; Some (errors_New "no space left on device", 2%nat); None; None;
                                                    Some (errors_New "input/output error", 0%nat)]).
Example torn_files : map_to_list (files torn) = [("backups/.put-7", ("da", 1))] ∧ visible torn = ∅.
Proof. by vm_compute. Qed.

Lemma blob_refines_witness :
  let '(r, f') := Put "backups/a.tgz" "data" 4 torn in
  (∃ t, visible f' = <["backups/a.tgz" := ("data", t)]> (visible torn)) ∨ is_ok r = false ∧ visible f' = visible torn.
Proof.
  destruct (Put "backups/a.tgz" "data" 4 torn) as [r f'] eqn:E.
  assert (hidden "backups/a.tgz" = false) as Hn by (by vm_compute).
  assert (foreign_answers torn) as Hf by (vm_compute; constructor).
  exact (proj1 (blob_refines "backups/a.tgz" torn Hn Hf) "data" 4 r f' E).
Defined.

(** [hidden_object]: a name whose last part begins as those of temporary files is stored
    and read, and not listed. *)
Theorem hidden_object :
  let f := after (Put "a/.put-x" "data" 4) (empty_fs []) in
  (Put "a/.put-x" "data" 4 (empty_fs [])).1 = Ok () ∧ (GetBlob "a/.put-x" f).1 = Ok ("data", None) ∧ (ListBlobs "a/" f).1 = Ok [].
Proof. by vm_compute. Qed.

(** [directory_not_missing]: where a name is a directory of others, deleting the object,
    which is not there, fails; so does putting it. *)
Theorem directory_not_missing :
  let f := after (Put "a/b" "data" 4) (empty_fs []) in
  (DeleteBlob "a" f).1 = Err ENOTEMPTY ∧ (Put "a" "data" 4 f).1 = Err EISDIR ∧ visible f !! "a" = None.
Proof. by vm_compute. Qed.
End BlobDemo.
