(* ===== verification/Archive.v ===== *)
(** The archive of a node (pkg/backup/archive.go): a tar of the data files, the metadata and
    a manifest with the size and checksum of each of them.

    Bytes are strings. What gzip and tar find in the bytes of a file is a [stream]; SHA-256
    and the encoding of manifests are functions of the library. Extracting writes into
    an empty directory, a map from paths to contents. *)
From S2P Require Import Prelude Strings State Cluster Backups Blob.
#[local] Open Scope Z_scope.

Definition FormatVersion : Z := 1.
Definition manifestName : string := "manifest.json".
Definition metadataName : string := "metadata.json".
Definition dataPrefix : string := "data/".
Definition maxManifestSize : Z := Z.shiftl 64 20.

Definition ErrNotQuiescent : error := sentinel "backup.ErrNotQuiescent"
  "backup: the node is not quiescent, pause the stream consumer and let the WAL drain first".
Definition ErrCorrupt : error := sentinel "backup.ErrCorrupt" "backup: the archive is corrupt".
Definition ErrNotEmpty : error := sentinel "backup.ErrNotEmpty" "backup: restore needs a node without indexes".
Definition corrupt (msg : string) : error := wrap "" ErrCorrupt (": " +:+ msg).

Record File := MkFile { Size : Z; SHA256 : string }.
#[export] Instance File_eq_dec : EqDecision File.
Proof. solve_decision. Defined.

Record Manifest := MkManifest {
  Version : Z; CreatedAt : Z; LastApplied : Z; Indexes : list string; Docs : gmap string Z;
  Files : gmap string File }.

(** ** Names *)

Definition clean_step (rooted : bool) (st : list string) (part : string) : list string :=
  if bool_decide (part ∈ [""; "."]) then st
  else if decide (part = "..") then
    match st with
    | [] => if rooted then [] else [".."]
    | x :: st' => if decide (x = "..") then ".." :: st else st'
    end
  else part :: st.
(** [path.Clean]. *)
Definition Clean (p : string) : string :=
  let rooted := HasPrefix p "/" in
  let out := String.concat "/" (rev (foldl (clean_step rooted) [] (Split p "/"))) in
  if rooted then "/" +:+ out else if decide (out = "") then "." else out.

Definition safeName (name : string) : res string :=
  let clean := Clean name in
  if negb (bool_decide (clean = name)) || HasPrefix clean "/" || bool_decide (clean ∈ ["."; ".."]) ||
     HasPrefix clean "../" || Contains clean "\" then Err (corrupt "unsafe entry name")
  else if negb (bool_decide (clean ∈ [manifestName; metadataName])) && negb (HasPrefix clean dataPrefix) then
    Err (corrupt "unexpected entry")
  else Ok clean.

(** ** Reading *)

Inductive typeflag := TypeReg | TypeDir | TypeOther.
(** An entry with what can be read of it, and the error that ends it, if any. *)
Record tar_entry := MkEntry { Typeflag : typeflag; e_Name : string; e_data : string; e_error : option error }.
(** A file as gzip and tar see it: a bad header, the entries, what ends them, and what is
    wrong after that. *)
Record stream := MkStream { gz_header : option error; tar : list tar_entry; tar_end : option error; gz_end : option error }.

Class ArchiveLib := {
  unpack : string → stream;
  pack : list tar_entry → string;
  sha256_hex : string → string;
  encode_manifest : Manifest → string;
  decode_manifest : string → res Manifest;
  encode_metadata : gmap string string → string;
  decode_metadata : string → res (gmap string string);
}.

Abbreviation tree := (gmap string string).

(** The calls of the file system that fail, by the path. *)
Class Disk := { open_error : string → option error; write_error : string → option error }.

Section read.
Context {alib : ArchiveLib} {disk : Disk}.
(** Of the context: the error at the turns of the loop. *)
Context (ctx_Err : nat → option error).

Definition or_throw {S} (e : option error) : M S () := match e with Some e => throw e | None => mret () end.

(** A file needs directories above it and nothing in its place. *)
Definition blocked (p : string) (t : tree) : option error :=
  if existsb (λ q, bool_decide (is_Some (t !! q))) (parents p) then Some ENOTDIR
  else if existsb (λ q, bool_decide (q = p) || bool_decide (p ∈ parents q)) (map_to_list t).*1
  then Some (errors_New "file exists")
  else None.

Definition readEntry (dest : bool) (e : tar_entry) (name : string) : M tree File :=
  (if dest then
     or_throw (open_error name);;
     t ← get_state;
     or_throw (blocked name t);;
     modify (<[name := e_data e]>)
   else mret ());;
  match (if dest then match write_error name with Some x => Some x | None => e_error e end else e_error e) with
  | Some _ => throw (corrupt "read entry")
  | None => mret (MkFile (len (e_data e)) (sha256_hex (e_data e)))
  end.

(** At most [maxManifestSize] bytes. *)
Definition readManifest (e : tar_entry) : res Manifest :=
  let long := maxManifestSize <? len (e_data e) in
  let data := if long then String.substring 0 (Z.to_nat maxManifestSize) (e_data e) else e_data e in
  match (if long then None else e_error e) with
  | Some _ => Err (corrupt "read manifest")
  | None => match decode_manifest data with Ok m => Ok m | Err _ => Err (corrupt "manifest") end
  end.

Fixpoint read_loop (dest : bool) (i : nat) (l : list tar_entry) (m : option Manifest) (got : gmap string File) :
    M tree (option Manifest * gmap string File) :=
  or_throw (ctx_Err i);;
  match l with
  | [] => mret (m, got)
  | e :: l =>
      match Typeflag e with
      | TypeDir => read_loop dest (S i) l m got
      | TypeOther => throw (corrupt "not a regular file")
      | TypeReg =>
          name ← lift (safeName (e_Name e));
          if bool_decide (is_Some (got !! name)) || (bool_decide (name = manifestName) && bool_decide (is_Some m))
          then throw (corrupt "duplicate entry")
          else if decide (name = manifestName) then
            m ← lift (readManifest e); read_loop dest (S i) l (Some m) got
          else
            f ← readEntry dest e name; read_loop dest (S i) l m (<[name := f]> got)
      end
  end.

(** The files that are listed are read, with their sizes and checksums, and no others. *)
Fixpoint listed (names : list string) (m : Manifest) (got : gmap string File) : res () :=
  match names with
  | [] => Ok ()
  | name :: names =>
      match got !! name with
      | None => Err (corrupt "listed in the manifest but missing")
      | Some read => if decide (Some read = Files m !! name) then listed names m got
                     else Err (corrupt "differs from the manifest")
      end
  end.
Definition matchManifest (m : Manifest) (got : gmap string File) : res () :=
  _ ← listed (merge_sort String.le (map_to_list (Files m)).*1) m got;
  if forallb (λ kv, bool_decide (is_Some (Files m !! kv.1))) (map_to_list got) then Ok ()
  else Err (corrupt "in the archive but not in the manifest").

(** [archive]: the bytes of the file, or the error of opening it. *)
Definition readArchive (archive : res string) (dest : bool) : M tree (Manifest * gmap string File) :=
  bytes ← lift archive;
  let s := unpack bytes in
  or_throw ((λ _, corrupt "not a gzip stream") <$> gz_header s);;
  x ← (match tar_end s with
       | None => read_loop dest 0 (tar s) None ∅
       | Some _ => read_loop dest 0 (tar s) None ∅;; throw (corrupt "read tar")
       end);
  or_throw ((λ _, corrupt "gzip") <$> gz_end s);;
  match x with
  | (None, _) => throw (corrupt "no manifest.json")
  | (Some m, got) =>
      if negb (Version m =? FormatVersion) then throw (corrupt "unsupported format version")
      else lift (matchManifest m got);; mret (m, got)
  end.

Definition Verify (archive : res string) : res Manifest := fst <$> (readArchive archive false ∅).1.
End read.

(** ** Names stay inside *)

Definition plain (part : string) : Prop := no_slash part = true ∧ part ∉ [""; "."; ".."].

Lemma Split_no_slash s : Forall (λ p, no_slash p = true) (Split s "/").
Proof.
  induction s as [|c s IH]; simpl; [by repeat constructor|]. case_bool_decide as Hc; [by constructor|].
  pose proof (Split_nonempty s "/"). destruct (Split s "/") as [|p ps]; [done|]. apply Forall_cons in IH as [Hp Hps].
  constructor; [|done]. unfold no_slash. simpl. apply andb_true_iff. split; [|done]. by apply negb_true_iff, bool_decide_eq_false_2.
Qed.
Lemma Split_concat l : l ≠ [] → Forall (λ p, no_slash p = true) l → Split (String.concat "/" l) "/" = l.
Proof.
  intros Hne Hl. assert (∀ p, no_slash p = true → Contains p "/" = false) as Hc.
  { intros p Hp. eapply all_bytes_not_Contains; [|exact Hp]. done. }
  induction Hl as [|p l Hp Hl IH]; [done|]. destruct l as [|q l]; [by apply Split_none, Hc|].
  change (String.concat "/" (p :: q :: l)) with (p +:+ String "/" (String.concat "/" (q :: l))).
  rewrite Split_append by auto. by rewrite IH.
Qed.

(** What is on the stack: parts that stay inside, above those that leave. *)
Definition clean_stack (st : list string) : Prop := ∃ inside k, st = inside ++ replicate k ".." ∧ Forall plain inside.
Lemma clean_step_ok rooted st part : no_slash part = true → clean_stack st → clean_stack (clean_step rooted st part).
Proof.
  intros Hp (inside & k & -> & Hi). unfold clean_step. case_bool_decide as Hd; [by exists inside, k|].
  case_decide as Hdd.
  - destruct inside as [|x inside]; simpl.
    + destruct k as [|k]; simpl; [destruct rooted; [by exists [], O|by exists [], 1%nat]|]. by exists [], (S (S k)).
    + apply Forall_cons in Hi as [[_ Hx] Hi]. rewrite decide_False; [by exists inside, k|]. intros ->. apply Hx. set_solver.
  - exists (part :: inside), k. split; [done|]. constructor; [|done]. split; [done|]. set_solver.
Qed.
Lemma clean_foldl rooted parts st : Forall (λ p, no_slash p = true) parts → clean_stack st →
  clean_stack (foldl (clean_step rooted) st parts).
Proof. intros H. revert st. induction H; intros st Hs; [done|]. by apply IHForall, clean_step_ok. Qed.

Lemma safeName_plain name c : safeName name = Ok c → c = name ∧ Forall plain (Split name "/") ∧
  (name = manifestName ∨ name = metadataName ∨ HasPrefix name dataPrefix = true).
Proof.
  unfold safeName. intros H. destruct (negb (bool_decide (Clean name = name)) || _ || _ || _ || _) eqn:E; [done|].
  repeat apply orb_false_iff in E as [E ?]. apply negb_false_iff, bool_decide_eq_true_1 in E. rewrite E in *.
  destruct (negb (bool_decide (name ∈ _)) && _) eqn:Ek; [done|]. injection H as <-. split; [done|]. split.
  - unfold Clean in E. rewrite H3 in E. pose proof (clean_foldl false (Split name "/") [] (Split_no_slash name)) as Hs.
    destruct Hs as (inside & k & Hst & Hi); [by exists [], O|]. rewrite Hst in E. clear Hst.
    rewrite rev_app_distr in E. destruct k as [|k].
    + simpl in E. destruct (decide (String.concat "/" (rev inside) = "")) as [|Hne].
      { rewrite <- E in H2. by vm_compute in H2. }
      rewrite <- E at 1. rewrite Split_concat; [by apply Forall_rev| |].
      * intros Hnil. apply Hne. by rewrite Hnil.
      * apply Forall_rev. eapply Forall_impl; [exact Hi|]. by intros x [? _].
    + exfalso. rewrite replicate_S_end, rev_app_distr in E. simpl in E.
      destruct (rev (replicate k "..") ++ rev inside) as [|x l] eqn:El; simpl in E.
      * rewrite <- E in H2. by vm_compute in H2.
      * rewrite <- E in H1. done.
  - apply andb_false_iff in Ek as [Ek|Ek]; apply negb_false_iff in Ek; [|by right; right].
    apply bool_decide_eq_true_1 in Ek. set_solver.
Qed.

(** ** What is read *)

Section read_spec.
Context {alib : ArchiveLib} {disk : Disk} (ctx_Err : nat → option error).
#[local] Set Default Proof Using "Type".
#[local] Abbreviation read_loop := (read_loop ctx_Err).
#[local] Abbreviation readArchive := (readArchive ctx_Err).

Definition sum_of (data : string) : File := MkFile (len data) (sha256_hex data).
Definition sums (l : list (string * string)) : list (string * File) := (λ nd, (nd.1, sum_of nd.2)) <$> l.
(** The manifests and the files of a tar. *)
Definition is_regular (e : tar_entry) : bool := match Typeflag e with TypeReg => true | _ => false end.
Definition manifests (l : list tar_entry) : list tar_entry :=
  filter (λ e, is_regular e = true ∧ e_Name e = manifestName) l.
Definition payload (l : list tar_entry) : list (string * string) :=
  (λ e, (e_Name e, e_data e)) <$> filter (λ e, is_regular e = true ∧ e_Name e ≠ manifestName) l.
Lemma payload_cons e l : payload (e :: l) =
  if is_regular e && negb (bool_decide (e_Name e = manifestName)) then (e_Name e, e_data e) :: payload l else payload l.
Proof.
  unfold payload. rewrite filter_cons.
  case_decide as H; [destruct H as [-> H2]; by rewrite (bool_decide_eq_false_2 _ H2)|].
  destruct (is_regular e); [|done]. simpl. case_bool_decide; [done|]. by destruct H.
Qed.
Lemma manifests_cons e l : manifests (e :: l) =
  if is_regular e && bool_decide (e_Name e = manifestName) then e :: manifests l else manifests l.
Proof.
  unfold manifests. rewrite filter_cons. case_decide as H; [destruct H as [-> H2]; by rewrite (bool_decide_eq_true_2 _ H2)|].
  destruct (is_regular e); [|done]. simpl. case_bool_decide; [|done]. by destruct H.
Qed.
Definition safe (name : string) : Prop := safeName name = Ok name.

Lemma safeName_id name c : safeName name = Ok c → c = name ∧ safe name.
Proof. intros H. pose proof (safeName_plain _ _ H) as [-> _]. done. Qed.

Lemma readEntry_ok dest e name t f t' : readEntry dest e name t = (Ok f, t') →
  f = sum_of (e_data e) ∧ t' = if dest then <[name := e_data e]> t else t.
Proof.
  unfold readEntry. intros (u & t1 & H & H')%bind_ok.
  assert (t1 = if dest then <[name := e_data e]> t else t) as ->.
  { destruct dest; [|by injection H]. destruct (open_error name); simpl in H; [done|].
    apply bind_ok in H as (u1 & t2 & [= _ <-] & H). apply bind_ok in H as (t0 & t2 & [= <- <-] & H).
    destruct (blocked name t); simpl in H; [done|]. apply bind_ok in H as (u2 & t2 & [= _ <-] & H). by injection H. }
  destruct (if dest then _ else _); [done|]. by injection H' as <- <-.
Qed.

Lemma read_loop_ok dest l : ∀ i m got t m' got' t', read_loop dest i l m got t = (Ok (m', got'), t') →
  NoDup (payload l).*1 ∧ (∀ n, n ∈ (payload l).*1 → got !! n = None ∧ safe n) ∧
  got' = list_to_map (sums (payload l)) ∪ got ∧
  t' = (if dest then list_to_map (payload l) ∪ t else t) ∧
  (manifests l = [] ∧ m' = m ∨ m = None ∧ ∃ e x, manifests l = [e] ∧ readManifest e = Ok x ∧ m' = Some x).
Proof.
  induction l as [|e l IH]; intros i m got t m' got' t' H; simpl in H;
    apply bind_ok in H as (u & t0 & H0 & H); destruct (ctx_Err i); try done; injection H0 as _ <-.
  { injection H as <- <- <-. unfold payload, sums. simpl. rewrite !(left_id_L ∅ (∪)). split_and!; [constructor|set_solver|done..| |by left].
    by destruct dest. }
  rewrite payload_cons, manifests_cons. assert (is_regular e = match Typeflag e with TypeReg => true | _ => false end) as Er by done.
  destruct (Typeflag e); rewrite Er; clear Er; simpl; [|by eapply IH|done].
  apply bind_ok in H as (name & t0 & Hn & H). injection Hn as Hn <-. apply safeName_id in Hn as [-> Hs].
  destruct (bool_decide (is_Some (got !! e_Name e)) || _) eqn:Ed; [done|].
  apply orb_false_iff in Ed as [Eg Em]. apply bool_decide_eq_false_1, eq_None_not_Some in Eg.
  destruct (decide (e_Name e = manifestName)) as [En|En].
  - apply bind_ok in H as (x & t0 & Hx & H). injection Hx as Hx <-. rewrite (bool_decide_eq_true_2 _ En) in *. simpl.
    apply IH in H as (H1 & H2 & H3 & H4 & H5). split_and!; try done. right.
    apply bool_decide_eq_false_1, eq_None_not_Some in Em. split; [done|].
    destruct H5 as [[-> ->]|(? & _)]; [|done]. by exists e, x.
  - apply bind_ok in H as (f & t1 & Hf & H). apply readEntry_ok in Hf as [-> ->].
    rewrite (bool_decide_eq_false_2 _ En). simpl. apply IH in H as (H1 & H2 & H3 & H4 & H5).
    assert (e_Name e ∉ (payload l).*1) as Hni. { intros Hin. destruct (H2 _ Hin) as [Hl _]. by rewrite lookup_insert_eq in Hl. }
    split_and!; [by constructor| | | |done].
    + intros n [->|Hin]%elem_of_cons; [done|]. destruct (H2 _ Hin) as [Hl Hsn]. split; [|done].
      rewrite lookup_insert_ne in Hl; [done|]. intros <-. done.
    + rewrite H3. rewrite <- insert_union_l. rewrite insert_union_r; [done|].
      apply not_elem_of_list_to_map_1. unfold sums. rewrite <- list_fmap_compose. done.
    + rewrite H4. destruct dest; [|done]. rewrite <- insert_union_l. rewrite insert_union_r; [done|].
      by apply not_elem_of_list_to_map_1.
Qed.

Lemma listed_ok names m got : listed names m got = Ok () ↔ Forall (λ n, is_Some (got !! n) ∧ got !! n = Files m !! n) names.
Proof.
  induction names as [|n names IH]; simpl; [split; [constructor|done]|]. rewrite Forall_cons. rewrite <- IH.
  destruct (got !! n) as [f|]; [|by split; [done|intros [[[? ?] _] _]]].
  destruct (decide (Some f = Files m !! n)) as [E|E]; naive_solver.
Qed.
Lemma matchManifest_ok m got : matchManifest m got = Ok () ↔ got = Files m.
Proof.
  unfold matchManifest. split.
  - intros H. destruct (listed _ m got) as [[]|] eqn:El; [|done]. simpl in H. destruct (forallb _ _) eqn:Ef; [|done].
    apply listed_ok in El. rewrite Forall_forall in El. apply map_eq. intros n. destruct (Files m !! n) as [f|] eqn:En.
    + assert (n ∈ merge_sort String.le (map_to_list (Files m)).*1) as Hin.
      { rewrite merge_sort_Permutation. apply list_elem_of_fmap. exists (n, f). by rewrite elem_of_map_to_list. }
      destruct (El n Hin) as [_ E]. by rewrite <- En.
    + destruct (got !! n) as [g|] eqn:Eg; [|done]. exfalso. rewrite forallb_forall in Ef.
      specialize (Ef (n, g)). simpl in Ef. rewrite En in Ef. assert (In (n, g) (map_to_list got)) as Hin.
      { by apply list_elem_of_In, elem_of_map_to_list. }
      apply Ef, bool_decide_eq_true_1 in Hin. by destruct Hin.
  - intros ->. assert (listed (merge_sort String.le (map_to_list (Files m)).*1) m (Files m) = Ok ()) as ->.
    { apply listed_ok, Forall_forall. intros n Hn. rewrite merge_sort_Permutation in Hn.
      apply list_elem_of_fmap in Hn as ([n' f] & -> & Hn). apply elem_of_map_to_list in Hn. simpl. by rewrite Hn. }
    simpl. assert (forallb (λ kv, bool_decide (is_Some (Files m !! kv.1))) (map_to_list (Files m)) = true) as ->; [|done].
    apply forallb_forall. intros [n f] Hin%list_elem_of_In%elem_of_map_to_list. simpl. apply bool_decide_eq_true_2. by rewrite Hin.
Qed.

(** What it means that an archive was read. *)
Record intact_archive (bytes : string) (m : Manifest) : Prop := {
  ia_header : gz_header (unpack bytes) = None;
  ia_tar : tar_end (unpack bytes) = None;
  ia_end : gz_end (unpack bytes) = None;
  ia_names : NoDup (payload (tar (unpack bytes))).*1;
  ia_safe n : n ∈ (payload (tar (unpack bytes))).*1 → safe n;
  ia_files : Files m = list_to_map (sums (payload (tar (unpack bytes))));
  ia_manifest : ∃ e, manifests (tar (unpack bytes)) = [e] ∧ readManifest e = Ok m;
  ia_version : Version m = FormatVersion;
}.

Lemma readArchive_ok archive dest m got t : readArchive archive dest ∅ = (Ok (m, got), t) →
  ∃ bytes, archive = Ok bytes ∧ intact_archive bytes m ∧ got = Files m ∧
    t = if dest then list_to_map (payload (tar (unpack bytes))) else ∅.
Proof.
  unfold readArchive, Archive.readArchive. intros (bytes & t0 & [= -> <-] & H)%bind_ok. exists bytes. split; [done|].
  apply bind_ok in H as (u & t0 & H0 & H). destruct (gz_header (unpack bytes)) eqn:Eh; simpl in H0; [done|].
  injection H0 as _ <-. apply bind_ok in H as ([m' got'] & t1 & Hl & H).
  destruct (tar_end (unpack bytes)) eqn:Et; [by apply bind_ok in Hl as (? & ? & _ & [=])|].
  apply read_loop_ok in Hl as (H1 & H2 & H3 & H4 & H5). apply bind_ok in H as (u' & t0 & H0 & H).
  destruct (gz_end (unpack bytes)) eqn:Eg; simpl in H0; [done|]. injection H0 as _ <-.
  destruct m' as [m'|]; [|done]. destruct (Version m' =? FormatVersion) eqn:Ev; simpl in H; [|done].
  apply bind_ok in H as (u2 & t0 & H0 & H). injection H as <- <- <-. injection H0 as H0 <-. destruct u2.
  apply matchManifest_ok in H0 as ->. rewrite (right_id_L ∅ (∪)) in H3. split_and!; [|done|].
  - split; try done.
    + intros n Hn. by destruct (H2 n Hn).
    + destruct H5 as [[_ [=]]|(_ & e & x & ? & ? & [= ->])]. eauto.
    + by apply Z.eqb_eq.
  - rewrite H4. destruct dest; [by rewrite (right_id_L ∅ (∪))|done].
Qed.

(** [Verify_exact]: an archive that is accepted has exactly the files of its manifest, each
    once, with the sizes and checksums that are listed; every name stays inside of the
    directory it is extracted to, and is one of data or of the metadata. *)
Theorem Verify_exact archive m : Verify ctx_Err archive = Ok m →
  ∃ bytes e, archive = Ok bytes ∧ manifests (tar (unpack bytes)) = [e] ∧ readManifest e = Ok m ∧
    let files := payload (tar (unpack bytes)) in
    NoDup files.*1 ∧ Files m = list_to_map (sums files) ∧
    ∀ name, name ∈ files.*1 → Forall plain (Split name "/") ∧ (name = metadataName ∨ HasPrefix name dataPrefix = true).
Proof.
  unfold Verify. intros H. destruct (Archive.readArchive ctx_Err archive false ∅) as [[[m' got]|] t] eqn:E; [|done].
  injection H as ->. apply readArchive_ok in E as (bytes & -> & Hi & _). destruct (ia_manifest _ _ Hi) as (e & He & Hm).
  exists bytes, e. split_and!; [done|done|done|apply (ia_names _ _ Hi)|apply (ia_files _ _ Hi)|].
  intros name Hn. pose proof (ia_safe _ _ Hi name Hn) as Hs. apply safeName_plain in Hs as (_ & Hp & Hk).
  split; [done|]. destruct Hk as [->|]; [|done]. exfalso. unfold payload in Hn.
  rewrite <- list_fmap_compose in Hn. apply list_elem_of_fmap in Hn as (e' & E' & Hin).
  apply list_elem_of_filter in Hin as [[_ Hne] _]. by apply Hne.
Qed.

(** ** Reading what was written *)

(** What encoders and decoders promise each other. *)
Definition file_entry (nd : string * string) : tar_entry := MkEntry TypeReg nd.1 nd.2 None.
Class ArchiveLaws := {
  unpack_pack l : unpack (pack (file_entry <$> l)) = MkStream None (file_entry <$> l) None None;
  decode_encode_manifest m : decode_manifest (encode_manifest m) = Ok m;
  decode_encode_metadata kv : decode_metadata (encode_metadata kv) = Ok kv;
}.

(** Names that can be files of one directory: none is above another. *)
Definition no_nesting (names : list string) : Prop := ∀ p q, p ∈ names → q ∈ names → p ∉ parents q.

Lemma blocked_none p (t : tree) : (t !! p) = None → (∀ q, is_Some (t !! q) → (q ∉ parents p) ∧ (p ∉ parents q)) →
  blocked p t = None.
Proof.
  intros Hp Hq. unfold blocked. destruct (existsb _ (parents p)) eqn:E1.
  { apply existsb_exists in E1 as (q & Hin & E1). apply bool_decide_eq_true_1 in E1. destruct (Hq q E1) as [[] _].
    by apply list_elem_of_In. }
  destruct (existsb _ (map_to_list t).*1) eqn:E2; [|done]. apply existsb_exists in E2 as (q & Hin & E2).
  apply list_elem_of_In, list_elem_of_fmap in Hin as ([q' d] & -> & Hin%elem_of_map_to_list). simpl in E2.
  apply orb_true_iff in E2 as [E2|E2]; apply bool_decide_eq_true_1 in E2; [by subst; rewrite Hp in Hin|].
  by destruct (Hq q') as [_ []]; [rewrite Hin|].
Qed.

Lemma lookup_sums_none n l : n ∉ l.*1 → (list_to_map (sums l) : gmap string File) !! n = None.
Proof. intros Hn. apply not_elem_of_list_to_map_1. unfold sums. by rewrite <- list_fmap_compose. Qed.
Lemma sums_snoc n d l : n ∉ l.*1 → (list_to_map (M:=gmap string File) (sums (l ++ [(n, d)]))) = <[n := sum_of d]> (list_to_map (sums l)).
Proof.
  intros Hn. unfold sums. rewrite fmap_app. simpl. apply list_to_map_snoc. by rewrite <- list_fmap_compose.
Qed.

Lemma read_loop_files dest files rest m : (∀ i, ctx_Err i = None) → ∀ prev i,
  NoDup (prev ++ files).*1 → no_nesting (prev ++ files).*1 →
  (∀ n, n ∈ files.*1 → safe n ∧ n ≠ manifestName ∧ open_error n = None ∧ write_error n = None) →
  ∃ j, read_loop dest i ((file_entry <$> files) ++ rest) m (list_to_map (sums prev))
         (if dest then list_to_map prev else ∅) =
       read_loop dest j rest m (list_to_map (sums (prev ++ files))) (if dest then list_to_map (prev ++ files) else ∅).
Proof.
  intros Hctx. induction files as [|[n d] files IH]; intros prev i Hd Hnest Hn; [exists i; by rewrite app_nil_r|].
  destruct (Hn n) as (Hs & Hm & Ho & Hw); [by left|].
  assert (n ∉ prev.*1) as Hni.
  { rewrite fmap_app in Hd. apply NoDup_app in Hd as (_ & Hd & _). intros Hin. apply (Hd n Hin). by left. }
  simpl. rewrite Hctx. unfold or_throw at 1. unfold mbind at 1, M_bind at 1, mret at 1, M_ret at 1.
  unfold mbind at 1, M_bind at 1, lift at 1. simpl. rewrite Hs. rewrite lookup_sums_none by done.
  rewrite (bool_decide_eq_false_2 (n = manifestName)) by done. simpl. rewrite decide_False by done.
  assert (readEntry dest (file_entry (n, d)) n (if dest then list_to_map prev else ∅) =
            (Ok (sum_of d), if dest then list_to_map (prev ++ [(n, d)]) else ∅)) as Hr.
  { unfold readEntry. simpl. destruct dest; simpl; [|done]. rewrite Ho, Hw. simpl. unfold mbind, M_bind, get_state. simpl.
    rewrite blocked_none; [|by apply not_elem_of_list_to_map_1|].
    - simpl. unfold modify. by rewrite list_to_map_snoc.
    - intros q [x Hq]. apply elem_of_list_to_map_2 in Hq.
      assert (q ∈ (prev ++ (n, d) :: files).*1) as Hq'.
      { rewrite fmap_app. apply elem_of_app. left. apply list_elem_of_fmap. by exists (q, x). }
      assert (n ∈ (prev ++ (n, d) :: files).*1) as Hn'.
      { rewrite fmap_app. apply elem_of_app. right. by left. }
      split; by apply Hnest. }
  unfold mbind at 1, M_bind at 1. rewrite Hr. rewrite <- sums_snoc by done.
  destruct (IH (prev ++ [(n, d)]) (S i)) as [j Hj].
  - by rewrite <- (assoc_L (++)).
  - by rewrite <- (assoc_L (++)).
  - intros n' Hn'. apply Hn. by right.
  - exists j. rewrite <- (assoc_L (++)) in Hj. exact Hj.
Qed.

Lemma read_loop_manifest (Hctx : ∀ i, ctx_Err i = None) dest j e m got t : Typeflag e = TypeReg → e_Name e = manifestName →
  got !! manifestName = None → readManifest e = Ok m → read_loop dest j [e] None got t = (Ok (Some m, got), t).
Proof.
  intros Hk Hn Hg Hm. assert (safeName manifestName = Ok manifestName) as Es by by vm_compute.
  cbn [Archive.read_loop]. rewrite !Hctx, Hk, Hn. cbv [or_throw mret M_ret mbind M_bind lift]. rewrite Es, Hg.
  rewrite (bool_decide_eq_false_2 (is_Some None)) by (by intros [? ?]). rewrite andb_false_r. simpl orb. cbv iota.
  rewrite decide_True by done. by rewrite Hm.
Qed.

(** What is packed with a manifest that fits is read as it was. *)
Lemma readArchive_packed `{!ArchiveLaws} dest files m : (∀ i, ctx_Err i = None) → NoDup files.*1 → no_nesting files.*1 →
  (∀ n, n ∈ files.*1 → safe n ∧ n ≠ manifestName ∧ open_error n = None ∧ write_error n = None) →
  Files m = list_to_map (sums files) → Version m = FormatVersion → len (encode_manifest m) ≤ maxManifestSize →
  readArchive (Ok (pack ((file_entry <$> files) ++ [file_entry (manifestName, encode_manifest m)]))) dest ∅ =
    (Ok (m, Files m), if dest then list_to_map files else ∅).
Proof.
  intros Hctx Hd Hnest Hn Hf Hv Hl. unfold Archive.readArchive. unfold mbind at 1, M_bind at 1, lift at 1.
  change [file_entry (manifestName, encode_manifest m)] with (file_entry <$> [(manifestName, encode_manifest m)]).
  rewrite <- fmap_app, unpack_pack, fmap_app. simpl. unfold mbind at 1, M_bind at 1, mret at 1, M_ret at 1.
  destruct (read_loop_files dest files [file_entry (manifestName, encode_manifest m)] None Hctx [] 0) as [j Hj];
    [done|done|done|]. change (list_to_map (sums [])) with (∅ : gmap string File) in Hj.
  assert ((if dest then list_to_map [] else ∅) = (∅ : tree)) as Ee by by destruct dest. rewrite Ee in Hj. clear Ee.
  unfold mbind at 1, M_bind at 1. rewrite Hj. clear Hj.
  rewrite (read_loop_manifest Hctx dest j _ m); [|done|done| |].
  - cbv [or_throw mret M_ret mbind M_bind lift]. simpl. rewrite Hv. simpl.
    by rewrite (proj2 (matchManifest_ok m (list_to_map (sums files)))), Hf by done.
  - apply lookup_sums_none. intros Hin. by destruct (Hn _ Hin) as (_ & ? & _).
  - unfold readManifest. simpl. rewrite (proj2 (Z.ltb_ge _ _)) by done. simpl. by rewrite decode_encode_manifest.
Qed.
End read_spec.
