(* ===== verification/NodeBackup.v ===== *)
(** Backups of a node (pkg/backup/create.go, store.go and restore.go): taking one of a node
    that does not change, the directory they are kept in, and restoring one into a node
    without indexes.

    The node is an interface ([Node]); the backup directory and the node that is restored
    into are maps. Which calls of the file system fail is a function of what they are
    for. *)
From S2P Require Import Prelude Strings State Cluster Backups Blob Archive.
#[local] Open Scope Z_scope.

Record NodeInfo := MkNodeInfo {
  ni_Name : string; ni_Size : Z; ni_SHA256 : string; ni_CreatedAt : Z; ni_LastApplied : Z; ni_Indexes : list string }.

(** What a backup reads of the node: entries that are not applied yet, the offset, the
    indexes, a snapshot of the files of each below its directory, and its documents; the
    metadata; the time in seconds. *)
Class Node (W : Type) := {
  WALPending_ : M W Z;
  LoadOffset : M W Z;
  IndexNames : M W (list string);
  BackupShards : string → M W tree;
  CountDocs : string → M W Z;
  Dump : M W (gmap string string);
  NowSeconds : M W Z;
}.

(** The calls that fail, by what they do; the order in which a directory is walked; a time
    as a text. *)
Class Host := {
  fails : string → option error;
  walk : tree → list (string * string);
  walk_perm t : walk t ≡ₚ map_to_list t;
  FormatStamp : Z → string;
}.

(** Archives and descriptions by name; a description that cannot be read is [None]. *)
Record Dir := MkDir { archives : gmap string string; sidecars : gmap string (option NodeInfo) }.

Definition ErrBackupNotFound : error := sentinel "backup.ErrNotFound" "backup: not found".

(** ** Names *)

Fixpoint strip (pre s : string) : option string :=
  match pre, s with
  | "", _ => Some s
  | String a pre, String b s => if decide (a = b) then strip pre s else None
  | _, "" => None
  end.
Fixpoint digits_exactly (n : nat) (s : string) : option string :=
  match n, s with
  | O, _ => Some s
  | S n, String c s => if is_digit c then digits_exactly n s else None
  | S _, "" => None
  end.
Fixpoint digits_rest (s : string) : string :=
  match s with String c s' => if is_digit c then digits_rest s' else s | "" => "" end.
Definition digits_some (s : string) : option string :=
  match s with String c s => if is_digit c then Some (digits_rest s) else None | "" => None end.
(** [^zincsearch-[0-9]{8}T[0-9]{6}Z-[0-9]+(-[0-9]+)?\.tgz$]. *)
Definition ValidBackupName (name : string) : bool :=
  bool_decide (
    (s ← strip "zincsearch-" name; s ← digits_exactly 8 s; s ← strip "T" s; s ← digits_exactly 6 s;
     s ← strip "Z-" s; s ← digits_some s;
     match strip "-" s with Some s => digits_some s | None => Some s end) = Some ".tgz").

Section create.
Context {W : Type} {node : Node W} {alib : ArchiveLib} {host : Host}.
(** Errors of the context at the files that are packed. *)
Context (ctx_Err : nat → option error).

(** ** Taking a backup *)

Definition currentState : M W (Z * Z) := pending ← WALPending_; offset ← LoadOffset; mret (pending, offset).

Definition data_path (idx f : string) : string := dataPrefix +:+ idx +:+ "/" +:+ f.
Definition staged (idx : string) (t : tree) : list (string * string) := (λ kv, (data_path idx kv.1, kv.2)) <$> map_to_list t.

Fixpoint copy_indexes (names : list string) (docs : gmap string Z) (staging : tree) : M W (gmap string Z * tree) :=
  match names with
  | [] => mret (docs, staging)
  | idx :: names =>
      t ← BackupShards idx;
      n ← annotate ("count documents of index " +:+ idx +:+ ": ") (CountDocs idx);
      copy_indexes names (<[idx := n]> docs) (list_to_map (staged idx t) ∪ staging)
  end.

Definition archiveName (m : Manifest) (suffix : string) : string :=
  "zincsearch-" +:+ FormatStamp (CreatedAt m) +:+ "-" +:+ FormatUint (LastApplied m) +:+ suffix +:+ ".tgz".
(** A name that is not there: with the number [i] and so on, when the first is taken. *)
Fixpoint fresh_loop (n : nat) (i : Z) (m : Manifest) (d : Dir) : string :=
  let name := archiveName m ("-" +:+ FormatUint i) in
  match n with
  | O => name
  | S n => if bool_decide (is_Some (archives d !! name)) then fresh_loop n (i + 1) m d else name
  end.
Definition fresh_name (m : Manifest) (d : Dir) : string :=
  if bool_decide (is_Some (archives d !! archiveName m "")) then fresh_loop (size (archives d)) 2 m d
  else archiveName m "".

(** Files are packed one by one, hashed as they are. *)
Fixpoint pack_files (i : nat) (l : list (string * string)) (acc : list tar_entry) (files : gmap string File) :
    res (list tar_entry * gmap string File) :=
  match l with
  | [] => Ok (acc, files)
  | (name, content) :: l =>
      match ctx_Err i, fails ("pack " +:+ name) with
      | Some e, _ | None, Some e => Err e
      | None, None => pack_files (S i) l (acc ++ [file_entry (name, content)]) (<[name := sum_of content]> files)
      end
  end.

Definition writeArchive (staging : tree) (m : Manifest) : M Dir NodeInfo :=
  or_throw (fails "create the archive");;
  x ← lift (pack_files 0 (walk staging) [] ∅);
  let m := MkManifest (Version m) (CreatedAt m) (LastApplied m) (Indexes m) (Docs m) x.2 in
  let data := pack (x.1 ++ [file_entry (manifestName, encode_manifest m)]) in
  or_throw (fails "close the archive");;
  d ← get_state;
  let name := fresh_name m d in
  or_throw (fails "rename the archive");;
  modify (λ d, MkDir (<[name := data]> (archives d)) (sidecars d));;
  let info := MkNodeInfo name (len data) (sha256_hex data) (CreatedAt m) (LastApplied m) (Indexes m) in
  match fails "write the description" with
  | Some e => modify (λ d, MkDir (delete name (archives d)) (<[name := None]> (sidecars d)));; throw e
  | None => modify (λ d, MkDir (archives d) (<[name := Some info]> (sidecars d)));; mret info
  end.

Definition not_quiescent (msg : string) : error := wrap "" ErrNotQuiescent (": " +:+ msg).

(** [running]: another backup holds the lock. *)
Definition Create (running : bool) : M (W * Dir) NodeInfo :=
  if running then throw (errors_New "backup: another backup is running")
  else
    or_throw (fails "prepare the directory");;
    before ← on_fst currentState;
    if negb (before.1 =? 0) then throw (not_quiescent "accepted documents are not applied yet")
    else
      or_throw (fails "create the staging directory");;
      names ← on_fst IndexNames;
      let names := merge_sort String.le names in
      x ← on_fst (copy_indexes names ∅ ∅);
      entries ← on_fst Dump;
      or_throw (fails "write the metadata");;
      after ← on_fst currentState;
      if negb (bool_decide (after = before)) then throw (not_quiescent "it moved")
      else
        now ← on_fst NowSeconds;
        on_snd (writeArchive (<[metadataName := encode_metadata entries]> x.2)
                  (MkManifest FormatVersion now before.2 names x.1 ∅)).
End create.

(** ** The directory *)

Section store.
Context {host : Host}.

Definition readInfo (name : string) (d : Dir) : option NodeInfo :=
  match sidecars d !! name with
  | Some (Some info) => if decide (ni_Name info = name) then Some info else None
  | _ => None
  end.
Definition older_info (x y : NodeInfo) : Prop :=
  ni_CreatedAt x < ni_CreatedAt y ∨ ni_CreatedAt x = ni_CreatedAt y ∧ String.le (ni_Name x) (ni_Name y).
#[export] Instance older_info_dec x y : Decision (older_info x y).
Proof. unfold older_info. apply _. Defined.

Definition ListBackups (d : Dir) : list NodeInfo :=
  merge_sort older_info
    (omap (λ name, readInfo name d) (filter (λ name, ValidBackupName name = true) (map_to_list (sidecars d)).*1)).

Definition OpenBackup (name : string) (d : Dir) : res (string * NodeInfo) :=
  if negb (ValidBackupName name) then Err ErrBackupNotFound
  else match readInfo name d, archives d !! name with
       | Some info, Some data => Ok (data, info)
       | _, _ => Err ErrBackupNotFound
       end.

(** The description goes first. *)
Definition DeleteBackup (name : string) : M Dir () :=
  d ← get_state;
  if negb (ValidBackupName name) then throw ErrBackupNotFound
  else match readInfo name d with
       | None => throw ErrBackupNotFound
       | Some _ =>
           or_throw (fails "remove the description");;
           modify (λ d, MkDir (archives d) (delete name (sidecars d)));;
           match archives d !! name with
           | None => mret ()
           | Some _ => or_throw (fails "remove the archive");;
                       modify (λ d, MkDir (delete name (archives d)) (sidecars d))
           end
       end.
End store.

(** ** Restoring *)

(** The indexes that are loaded, what is in the data directory by its first name, and the
    metadata. *)
Record Target := MkTarget { loaded : Z; data : gmap string tree; kv : gmap string string }.

Section restore.
Context {alib : ArchiveLib} {disk : Disk} {host : Host} (ctx_Err : nat → option error).

(** Names that belong to the node itself. *)
Definition own_name (name : string) : bool := HasPrefix name "_" || HasPrefix name ".".
Definition checkEmpty (t : Target) : res () :=
  if 0 <? loaded t then Err (wrap "" ErrNotEmpty ": indexes are loaded")
  else match fails "read the data directory" with
       | Some e => Err e
       | None => if forallb own_name (map_to_list (data t)).*1 then Ok () else Err (wrap "" ErrNotEmpty ": already exists")
       end.

Definition readMetadata (t : tree) : res (gmap string string) :=
  match t !! metadataName with
  | None => Err (corrupt "read metadata.json")
  | Some raw => match decode_metadata raw with Ok kv => Ok kv | Err _ => Err (corrupt "metadata.json") end
  end.

(** What was extracted below data: the first name, and the path below it. *)
Definition index_file (kv : string * string) : option (string * (string * string)) :=
  match strip dataPrefix kv.1 with
  | Some rest => let '(top, rel, _) := Cut rest "/" in Some (top, (rel, kv.2))
  | None => None
  end.
Definition index_files (t : tree) : list (string * (string * string)) := omap index_file (map_to_list t).
Definition extracted (t : tree) : gmap string tree :=
  foldr (λ x m, <[x.1 := <[x.2.1 := x.2.2]> (default ∅ (m !! x.1))]> m) ∅ (index_files t).

(** The error that stopped it, and what was moved before that. *)
Fixpoint move_loop (l : list (string * tree)) (moved : list string) : M Target (option error * list string) :=
  match l with
  | [] => mret (None, moved)
  | (name, t) :: l =>
      s ← get_state;
      if bool_decide (is_Some (data s !! name)) then mret (Some (wrap "" ErrNotEmpty ": already exists"), moved)
      else match fails ("move " +:+ name) with
           | Some e => mret (Some e, moved)
           | None =>
               modify (λ s, MkTarget (loaded s) (<[name := t]> (data s)) (kv s));;
               move_loop l (moved ++ [name])
           end
  end.
Definition by_first (x y : string * tree) : Prop := String.le x.1 y.1.
#[export] Instance by_first_dec x y : Decision (by_first x y).
Proof. unfold by_first. apply _. Defined.
(** In the order of the names. *)
Definition to_move (t : tree) : list (string * tree) := merge_sort by_first (map_to_list (extracted t)).
Definition moveIndexes (t : tree) : M Target (option error * list string) :=
  match to_move t, fails "read the extracted data" with
  | [], _ => mret (None, [])
  | _, Some e => mret (Some e, [])
  | l, None => move_loop l []
  end.

(** [metadata.Load]: keys that are not in the entries go, the others are written. *)
Fixpoint Load_delete (keys : list string) (entries : gmap string string) : M Target () :=
  match keys with
  | [] => mret ()
  | k :: keys =>
      match entries !! k with
      | Some _ => Load_delete keys entries
      | None => or_throw (fails ("delete " +:+ k));;
                modify (λ s, MkTarget (loaded s) (data s) (delete k (kv s)));;
                Load_delete keys entries
      end
  end.
Fixpoint Load_set (l : list (string * string)) : M Target () :=
  match l with
  | [] => mret ()
  | (k, v) :: l =>
      or_throw (fails ("set " +:+ k));;
      modify (λ s, MkTarget (loaded s) (data s) (<[k := v]> (kv s)));;
      Load_set l
  end.
Definition Load (entries : gmap string string) : M Target () :=
  or_throw (fails "dump");;
  s ← get_state;
  Load_delete (map_to_list (kv s)).*1 entries;;
  Load_set (map_to_list entries).

Fixpoint remove_moved (names : list string) : M Target () :=
  match names with
  | [] => mret ()
  | n :: names =>
      match fails ("remove " +:+ n) with
      | Some _ => mret ()
      | None => modify (λ s, MkTarget (loaded s) (delete n (data s)) (kv s))
      end;;
      remove_moved names
  end.

Definition Restore (archive : res string) : M Target Manifest :=
  s ← get_state;
  lift (checkEmpty s);;
  or_throw (fails "create a temporary directory");;
  let '(r, t) := readArchive ctx_Err archive true ∅ in
  x ← lift r;
  entries ← lift (readMetadata t);
  y ← moveIndexes t;
  let '(e, moved) := (y : option error * list string) in
  r ← (match e with Some e => mret (Err e) | None => try (Load entries) end);
  match r with
  | Err e => remove_moved moved;; throw e
  | Ok _ => mret x.1
  end.

(** [VerifyDeep]: [load] is what loading the indexes of a node gives, by name the number of
    documents or the error of counting them. *)
Fixpoint check_counts (names : list string) (m : Manifest) (counts : gmap string (res Z)) : res Manifest :=
  match names with
  | [] => Ok m
  | n :: names =>
      match counts !! n with
      | None => Err (corrupt "restored but is not loaded")
      | Some (Err _) => Err (corrupt "count the documents")
      | Some (Ok got) => if got =? default 0 (Docs m !! n) then check_counts names m counts
                         else Err (corrupt "holds another number of documents")
      end
  end.
Definition VerifyDeep (load : Target → res (gmap string (res Z))) (archive : res string) : M Target Manifest :=
  m ← Restore archive;
  s ← get_state;
  counts ← lift (match load s with Ok c => Ok c | Err _ => Err (corrupt "load the restored indexes") end);
  lift (check_counts (Indexes m) m counts).
End restore.

(** ** Restoring is all or nothing *)

Section restore_spec.
Context {alib : ArchiveLib} {disk : Disk} {host : Host} (ctx_Err : nat → option error).
#[local] Set Default Proof Using "Type".

Lemma move_loop_spec l : NoDup l.*1 → ∀ moved s e moved' s', move_loop l moved s = (Ok (e, moved'), s') →
  ∃ added, added `prefix_of` l ∧ moved' = moved ++ added.*1 ∧ (∀ n, n ∈ added.*1 → data s !! n = None) ∧
    data s' = list_to_map added ∪ data s ∧ kv s' = kv s ∧ loaded s' = loaded s ∧ (e = None → added = l).
Proof.
  induction l as [|[name t] l IH]; intros Hd moved s e moved' s' H; simpl in H.
  { injection H as <- <- <-. exists []. rewrite app_nil_r. simpl. rewrite (left_id_L ∅ (∪)). split_and!; try done. set_solver. }
  rewrite fmap_cons in Hd. apply NoDup_cons in Hd as [Hn Hd]. apply bind_ok in H as (s0 & s1 & [= <- <-] & H).
  assert (∀ x, (mret (Some x, moved) : M Target _) s = (Ok (e, moved'), s') → ∃ added, added `prefix_of` (name, t) :: l ∧
    moved' = moved ++ added.*1 ∧ (∀ n, n ∈ added.*1 → data s !! n = None) ∧ data s' = list_to_map added ∪ data s ∧
    kv s' = kv s ∧ loaded s' = loaded s ∧ (e = None → added = (name, t) :: l)) as Hstop.
  { intros x [= <- <- <-]. exists []. rewrite app_nil_r. simpl. rewrite (left_id_L ∅ (∪)).
    split_and!; try done; [apply prefix_nil|set_solver]. }
  destruct (bool_decide (is_Some (data s !! name))) eqn:Ed; [by eapply Hstop|].
  destruct (fails _); [by eapply Hstop|]. clear Hstop. apply bool_decide_eq_false_1, eq_None_not_Some in Ed.
  apply bind_ok in H as (u & s1 & [= _ <-] & H). apply (IH Hd) in H as (added & Hp & Hm & Ha & Hdata & Hkv & Hl & He).
  assert (∀ n, n ∈ added.*1 → name ≠ n) as Hne.
  { intros n Hin ->. apply Hn. destruct Hp as [k ->]. rewrite fmap_app. apply elem_of_app. by left. }
  simpl in *.
  exists ((name, t) :: added). split_and!; try done.
  - by apply prefix_cons.
  - rewrite Hm. by rewrite <- (assoc_L (++)).
  - intros n [->|Hin]%elem_of_cons; [done|]. specialize (Ha n Hin). rewrite lookup_insert_ne in Ha; [done|by apply Hne].
  - rewrite Hdata. simpl. rewrite <- insert_union_l. rewrite insert_union_r; [done|].
    apply not_elem_of_list_to_map_1. intros Hin. specialize (Ha _ Hin). by rewrite lookup_insert_eq in Ha.
  - intros E. by rewrite (He E).
Qed.
Lemma moveIndexes_inv t s r s' : moveIndexes t s = (r, s') →
  move_loop (to_move t) [] s = (r, s') ∨ ∃ e, Ok (Some e, []) = r ∧ s = s'.
Proof.
  unfold moveIndexes. destruct (to_move t) as [|x l]; [by left|]. destruct (fails _) as [e|]; [|by left].
  intros [= <- <-]. right. by exists e.
Qed.
Lemma moveIndexes_ok t s r s' : moveIndexes t s = (r, s') → is_ok r = true.
Proof.
  intros [H|(e & <- & <-)]%moveIndexes_inv; [|done]. revert H. generalize (to_move t) ([] : list string). intros l. revert s.
  induction l as [|[name x] l IH]; intros s moved H; simpl in H; [by injection H as <- _|].
  apply bind_inv in H as [(e & [=] & _)|(s0 & s1 & [= <- <-] & H)].
  destruct (bool_decide _); [by injection H as <- _|]. destruct (fails _); [by injection H as <- _|].
  apply bind_inv in H as [(e & [=] & _)|(u & s1 & [= _ <-] & H)]. by eapply IH.
Qed.

Lemma to_move_names t : NoDup (to_move t).*1.
Proof. unfold to_move. rewrite merge_sort_Permutation. apply NoDup_fst_map_to_list. Qed.
Lemma to_move_map t : list_to_map (to_move t) = extracted t.
Proof.
  rewrite <- (list_to_map_to_list (extracted t)). apply list_to_map_proper; [apply to_move_names|apply merge_sort_Permutation].
Qed.
Lemma elem_of_to_move n t : n ∈ (to_move t).*1 ↔ is_Some (extracted t !! n).
Proof.
  unfold to_move. rewrite merge_sort_Permutation, list_elem_of_fmap. split.
  - intros ([n' x] & -> & H%elem_of_map_to_list). by exists x.
  - intros [x H]. exists (n, x). by rewrite elem_of_map_to_list.
Qed.

Definition same_data (s s' : Target) : Prop := data s' = data s ∧ loaded s' = loaded s.
#[local] Instance same_data_preorder : PreOrder same_data.
Proof. split; [done|]. intros a b c [? ?] [? ?]. split; congruence. Qed.
Lemma same_data_or_throw e : keeps same_data (or_throw e).
Proof. by destruct e; intros s r s' [= _ <-]. Qed.
Lemma same_data_kv f : keeps same_data (modify (λ s, MkTarget (loaded s) (data s) (f (kv s)))).
Proof. by intros s r s' [= _ <-]. Qed.
#[local] Hint Resolve same_data_or_throw same_data_kv : keeps.
Lemma same_data_Load entries : keeps same_data (Load entries).
Proof.
  assert (∀ keys, keeps same_data (Load_delete keys entries)) as Hd.
  { induction keys; simpl; [solve_keeps|]. pose proof (λ k, same_data_kv (delete k)). solve_keeps. }
  assert (∀ l, keeps same_data (Load_set l)) as Hs.
  { induction l as [|[k v] l IH]; simpl; [solve_keeps|]. pose proof (same_data_kv <[k := v]>). solve_keeps. }
  unfold Load. solve_keeps.
Qed.

Lemma or_throw_ok {S} (e : option error) (s s' : S) u : or_throw e s = (Ok u, s') → e = None ∧ s' = s.
Proof. destruct e; [done|]. by intros [= _ <-]. Qed.
Lemma Load_delete_ok keys entries s u s' : Load_delete keys entries s = (Ok u, s') →
  ∀ k, kv s' !! k = if bool_decide (k ∈ keys) && bool_decide (entries !! k = None) then None else kv s !! k.
Proof.
  revert s. induction keys as [|x keys IH]; intros s H k; simpl in H; [by injection H as _ <-|].
  destruct (entries !! x) as [v|] eqn:E.
  - rewrite (IH _ H). destruct (decide (k = x)) as [->|Hne].
    + rewrite !(bool_decide_eq_false_2 (entries !! x = None)) by congruence. by rewrite !andb_false_r.
    + rewrite (bool_decide_ext (k ∈ x :: keys) (k ∈ keys)) by set_solver. done.
  - apply bind_ok in H as (u1 & s1 & [_ ->]%or_throw_ok & H). apply bind_ok in H as (u2 & s2 & [= _ <-] & H).
    rewrite (IH _ H). simpl. destruct (decide (k = x)) as [->|Hne].
    + rewrite lookup_delete_eq, (bool_decide_eq_true_2 (x ∈ x :: keys)), (bool_decide_eq_true_2 (entries !! x = None)) by (done || by left).
      by destruct (_ && _).
    + rewrite lookup_delete_ne by done. rewrite (bool_decide_ext (k ∈ x :: keys) (k ∈ keys)) by set_solver. done.
Qed.
Lemma Load_set_ok l s u s' : NoDup l.*1 → Load_set l s = (Ok u, s') → kv s' = list_to_map l ∪ kv s.
Proof.
  revert s. induction l as [|[k v] l IH]; intros s Hd H; simpl in H.
  { injection H as _ <-. simpl. by rewrite (left_id_L ∅ (∪)). }
  rewrite fmap_cons in Hd. apply NoDup_cons in Hd as [Hn Hd]. apply bind_ok in H as (u1 & s1 & [_ ->]%or_throw_ok & H).
  apply bind_ok in H as (u2 & s2 & [= _ <-] & H). rewrite (IH _ Hd H). simpl.
  rewrite <- insert_union_l, insert_union_r; [done|]. by apply not_elem_of_list_to_map_1.
Qed.
Lemma Load_ok entries s u s' : Load entries s = (Ok u, s') → kv s' = entries.
Proof.
  unfold Load. intros (u1 & s1 & [_ ->]%or_throw_ok & H)%bind_ok. apply bind_ok in H as (s0 & s1 & [= <- <-] & H).
  apply bind_ok in H as (u2 & s2 & Hd & H). apply Load_set_ok in H; [|apply NoDup_fst_map_to_list].
  rewrite H, list_to_map_to_list. apply map_eq. intros k. rewrite lookup_union.
  rewrite (Load_delete_ok _ _ _ _ _ Hd k). destruct (entries !! k) as [v|] eqn:E; [by destruct (_ && _), (kv s !! k)|].
  rewrite (bool_decide_eq_true_2 (None = None)) by done. rewrite andb_true_r. case_bool_decide as Hk; [done|].
  destruct (kv s !! k) as [v|] eqn:Ek; [|done]. exfalso. apply Hk, list_elem_of_fmap. exists (k, v).
  by rewrite elem_of_map_to_list.
Qed.
(** What is there to be removed goes, unless its removal fails. *)
Lemma remove_moved_spec names s r s' : remove_moved names s = (r, s') →
  kv s' = kv s ∧ loaded s' = loaded s ∧
  ∀ k, data s' !! k = if decide (k ∈ names ∧ fails ("remove " +:+ k) = None) then None else data s !! k.
Proof.
  revert s. induction names as [|n names IH]; intros s H; cbn [remove_moved] in H.
  { injection H as _ <-. split_and!; [done..|]. intros k. rewrite decide_False by set_solver. done. }
  apply bind_inv in H as [(e & H & _)|(u & s1 & H1 & H)]; [by destruct (fails _)|].
  destruct (IH _ H) as (Ek & El & Ed).
  assert (kv s1 = kv s ∧ loaded s1 = loaded s ∧
    ∀ k, data s1 !! k = if decide (k = n ∧ fails ("remove " +:+ k) = None) then None else data s !! k) as (E1 & E2 & E3).
  { destruct (fails ("remove " +:+ n)) eqn:Ef; injection H1 as _ <-; split_and!; try done; intros k.
    - rewrite decide_False; [done|]. intros [-> ?]. congruence.
    - simpl. case_decide as Hk; [destruct Hk as [-> _]; by rewrite lookup_delete_eq|].
      apply lookup_delete_ne. intros ->. by apply Hk. }
  split_and!; [congruence..|]. intros k. rewrite Ed, E3. repeat case_decide; try done; set_solver.
Qed.

(** What is left of the indexes that were moved when their removal fails. *)
Definition not_removed (added : list (string * tree)) : gmap string tree :=
  filter (λ kv, fails ("remove " +:+ kv.1) ≠ None) (list_to_map added).
Lemma not_removed_spec added (m m' : gmap string tree) : (∀ n, n ∈ added.*1 → m !! n = None) →
  (∀ k, m' !! k = if decide (k ∈ added.*1 ∧ fails ("remove " +:+ k) = None) then None else (list_to_map added ∪ m) !! k) →
  not_removed added ##ₘ m ∧ m' = not_removed added ∪ m.
Proof.
  intros Ha Hm'. assert (not_removed added ##ₘ m) as Hdis.
  { apply map_disjoint_spec. intros n x y [Hx _]%map_lookup_filter_Some Hy. rewrite Ha in Hy; [done|].
    apply dec_stable. intros Hn. by rewrite not_elem_of_list_to_map_1 in Hx. }
  split; [done|]. apply map_eq. intros k. rewrite Hm'. unfold not_removed. rewrite !lookup_union, map_lookup_filter.
  destruct (decide (k ∈ added.*1)) as [Hk|Hk].
  - rewrite (Ha k Hk). destruct (decide (fails ("remove " +:+ k) = None)) as [Hf|Hf].
    + rewrite decide_True by done. destruct (list_to_map added !! k); simpl; [|done]. by case_guard.
    + rewrite decide_False by (by intros []).
      destruct (list_to_map added !! k); simpl; [|done]. by case_guard.
  - rewrite decide_False by (by intros []). by rewrite not_elem_of_list_to_map_1.
Qed.
Lemma not_removed_of added l : NoDup l.*1 → added `prefix_of` l → not_removed added ⊆ list_to_map l.
Proof.
  intros Hd [k ->]. etrans; [apply map_filter_subseteq|]. rewrite list_to_map_app. apply map_union_subseteq_l.
Qed.

(** What an archive holds. *)
Definition contents_of (bytes : string) : tree := list_to_map (payload (tar (unpack bytes))).

End restore_spec.

(** ** What a backup is *)

Section create_spec.
Context {W : Type} {node : Node W} {alib : ArchiveLib} {host : Host} (ctx_Err : nat → option error).
#[local] Set Default Proof Using "Type".

Lemma pack_files_ok i l acc files es files' : pack_files ctx_Err i l acc files = Ok (es, files') →
  es = acc ++ (file_entry <$> l) ∧ (NoDup l.*1 → (∀ n, n ∈ l.*1 → files !! n = None) → files' = list_to_map (sums l) ∪ files).
Proof.
  revert i acc files. induction l as [|[n c] l IH]; intros i acc files H; cbn [pack_files] in H.
  { injection H as <- <-. rewrite app_nil_r. split; [done|]. intros _ _. unfold sums. simpl. by rewrite (left_id_L ∅ (∪)). }
  destruct (ctx_Err i); [done|]. destruct (fails _); [done|]. apply IH in H as [-> Hf]. split; [by rewrite <- (assoc_L (++))|].
  rewrite fmap_cons. intros [Hn Hd]%NoDup_cons Hfresh. rewrite Hf; [|done|].
  - unfold sums. rewrite fmap_cons. simpl. rewrite <- insert_union_l, insert_union_r; [done|].
    by apply lookup_sums_none.
  - intros n' Hn'. rewrite lookup_insert_ne by (by intros <-). apply Hfresh. by right.
Qed.

Lemma on_fst_ok {S T A} (c : M S A) (s s' : S * T) a : on_fst c s = (Ok a, s') → c s.1 = (Ok a, s'.1) ∧ s'.2 = s.2.
Proof. destruct s as [x y], s' as [x' y']. intros [? ->]%on_fst_run. done. Qed.

Lemma on_snd_ok {S T A} (c : M T A) (s s' : S * T) a : on_snd c s = (Ok a, s') → c s.2 = (Ok a, s'.2) ∧ s'.1 = s.1.
Proof. destruct s as [x y]. unfold on_snd. simpl. destruct (c y). by intros [= -> <-]. Qed.

(** The archive that is written. *)
Lemma writeArchive_ok staging m (d d' : Dir) info : writeArchive ctx_Err staging m d = (Ok info, d') →
  let m' := MkManifest (Version m) (CreatedAt m) (LastApplied m) (Indexes m) (Docs m) (list_to_map (sums (walk staging))) in
  let data := pack ((file_entry <$> walk staging) ++ [file_entry (manifestName, encode_manifest m')]) in
  let name := fresh_name m' d in
  info = MkNodeInfo name (len data) (sha256_hex data) (CreatedAt m) (LastApplied m) (Indexes m) ∧
  d' = MkDir (<[name := data]> (archives d)) (<[name := Some info]> (sidecars d)).
Proof.
  unfold writeArchive. intros (u1 & d1 & [_ ->]%or_throw_ok & H)%bind_ok.
  apply bind_ok in H as ([es files] & d1 & [= Hp <-] & H). apply pack_files_ok in Hp as [-> Hf].
  rewrite (right_id_L ∅ (∪)) in Hf. simpl in H.
  assert (NoDup (walk staging).*1) as Hd. { rewrite walk_perm. apply NoDup_fst_map_to_list. }
  rewrite (Hf Hd) in H by done. clear Hf.
  apply bind_ok in H as (u2 & d2 & [_ ->]%or_throw_ok & H). apply bind_ok in H as (d0 & d2 & [= <- <-] & H).
  apply bind_ok in H as (u3 & d2 & [_ ->]%or_throw_ok & H). apply bind_ok in H as (u4 & d2 & [= _ <-] & H). simpl in H.
  destruct (fails "write the description").
  - apply bind_ok in H as (u5 & d2 & _ & [=]).
  - apply bind_ok in H as (u5 & d2 & [= _ <-] & [= <- <-]). done.
Qed.

(** The snapshots of the indexes. *)
Definition taken (idx : string) (t : tree) : Prop := ∃ w w' : W, BackupShards idx w = (Ok t, w').
Lemma copy_indexes_ok names docs staging (w w' : W) x : copy_indexes names docs staging w = (Ok x, w') →
  ∃ shots : list (string * tree), shots.*1 = names ∧ Forall (λ s, taken s.1 s.2) shots ∧
    x.2 = foldl (λ st s, list_to_map (staged s.1 s.2) ∪ st) staging shots ∧
    dom x.1 = dom docs ∪ list_to_set names.
Proof.
  revert docs staging w. induction names as [|idx names IH]; intros docs staging w H; simpl in H.
  { injection H as <- <-. exists []. split_and!; [done|constructor|done|set_solver]. }
  apply bind_ok in H as (t & w1 & Ht & H). apply bind_ok in H as (n & w2 & _ & H). apply IH in H as (shots & <- & Hs & Hx & Hd).
  exists ((idx, t) :: shots). split_and!; [done|constructor; [by exists w, w1|done]|done|]. rewrite Hd. set_solver.
Qed.
End create_spec.
