(* ===== verification/RoundTrip.v ===== *)
(** A backup that is taken and restored (pkg/backup): what a node must be like for the
    archive that [Create] writes to be one that [Restore] accepts, and that the node that
    it is restored into gets the snapshots, the metadata and the offset.

    [taken], [copy_indexes_ok], [writeArchive_ok] (NodeBackup) say what is packed,
    [readArchive_packed] (Archive) that it is read; this file joins the two. *)
From S2P Require Import Prelude Strings State Cluster Backups Blob Archive NodeBackup.
#[local] Open Scope Z_scope.

(** ** Paths *)

Lemma parents_from_spec acc s q : q ∈ parents_from acc s ↔ ∃ a b, s = a +:+ String "/" b ∧ q = acc +:+ a.
Proof.
  revert acc. induction s as [|c s IH]; intros acc; simpl.
  { split; [by intros ?%elem_of_nil|]. intros (a & b & E & _). by destruct a. }
  assert (q ∈ parents_from (acc +:+ String c "") s ↔ ∃ a b, s = a +:+ String "/" b ∧ q = acc +:+ String c a) as Hr.
  { rewrite IH. by setoid_rewrite <- append_assoc_s. }
  case_decide as Hc; [subst c; rewrite elem_of_cons|]; rewrite Hr; split.
  - intros [->|(a & b & -> & ->)]; [exists "", s; by rewrite append_nil_s|by exists (String "/" a), b].
  - intros ([|c' a] & b & E & ->); simpl in E; [left; by rewrite append_nil_s|]. injection E as -> ->. right; by exists a, b.
  - intros (a & b & -> & ->). by exists (String c a), b.
  - intros ([|c' a] & b & E & ->); simpl in E; [by injection E as -> _|]. injection E as -> ->. by exists a, b.
Qed.
Lemma parents_spec p q : q ∈ parents p ↔ ∃ r, p = q +:+ String "/" r.
Proof.
  unfold parents. rewrite parents_from_spec. split; [intros (a & b & -> & ->); by exists b|].
  intros [r ->]. by exists q, r.
Qed.

Lemma concat_Split s : String.concat "/" (Split s "/") = s.
Proof.
  induction s as [|c s IH]; [done|]. cbn [Split]. pose proof (Split_nonempty s "/") as Hne.
  destruct (Split s "/") as [|p ps]; [done|]. case_bool_decide as Hc.
  - subst c. change (String "/" (String.concat "/" (p :: ps)) = String "/" s). by rewrite IH.
  - rewrite <- IH. by destruct ps.
Qed.
Lemma clean_foldl_plain rooted parts st : Forall plain parts → foldl (clean_step rooted) st parts = rev parts ++ st.
Proof.
  intros H. revert st. induction H as [|p parts [_ Hp] H IH]; intros st; [done|]. simpl. rewrite IH.
  assert (clean_step rooted st p = p :: st) as ->.
  { unfold clean_step. rewrite bool_decide_eq_false_2, decide_False by set_solver. done. }
  by rewrite <- (assoc_L (++)).
Qed.
Lemma Clean_plain p : HasPrefix p "/" = false → Forall plain (Split p "/") → p ≠ "" → Clean p = p.
Proof.
  intros Hr Hp Hne. unfold Clean. rewrite Hr, clean_foldl_plain, app_nil_r, rev_involutive, concat_Split by done.
  by rewrite decide_False.
Qed.

(** Paths of data. *)
Definition no_backslash (s : string) : bool := all_bytes (λ c, negb (bool_decide (c = "\"%char))) s.
Definition index_name (idx : string) : Prop := plain idx ∧ no_backslash idx = true.
Definition file_path (f : string) : Prop := Forall plain (Split f "/") ∧ no_backslash f = true.

Lemma no_slash_Contains s : no_slash s = true → Contains s "/" = false.
Proof. intros H. eapply all_bytes_not_Contains; [|exact H]. done. Qed.
Lemma data_path_eq idx f : data_path idx f = "data" +:+ String "/" (idx +:+ String "/" f).
Proof. done. Qed.
Lemma data_path_safe idx f : index_name idx → file_path f → safe (data_path idx f).
Proof.
  intros [Hi Hbi] [Hf Hbf]. assert (Forall plain (Split (data_path idx f) "/")) as Hp.
  { rewrite data_path_eq, !Split_append by (done || apply no_slash_Contains, Hi).
    constructor; [|by constructor]. split; [done|]. set_solver. }
  unfold safe, safeName. rewrite Clean_plain by done. rewrite bool_decide_eq_true_2 by done.
  assert (Contains (data_path idx f) "\" = false) as ->.
  { apply (all_bytes_not_Contains (λ c, negb (bool_decide (c = "\"%char)))); [done|]. rewrite data_path_eq.
    rewrite all_bytes_append. simpl. rewrite all_bytes_append. simpl. unfold no_backslash in *. by rewrite Hbi, Hbf. }
  assert (∀ s, s ∈ ["."; ".."; manifestName; metadataName] → data_path idx f ≠ s) as Hne.
  { intros s Hs E. rewrite data_path_eq in E. subst s. set_solver. }
  rewrite !bool_decide_eq_false_2; [done|..]; rewrite !not_elem_of_cons; split_and!; try apply Hne; try set_solver.
Qed.
Lemma data_path_inj i j f g : no_slash i = true → no_slash j = true → data_path i f = data_path j g → i = j ∧ f = g.
Proof.
  intros Hi%no_slash_Contains Hj%no_slash_Contains E. rewrite !data_path_eq in E. injection E as E.
  pose proof (Cut_append i "/" f Hi) as C. rewrite E, Cut_append in C by done. by injection C as -> ->.
Qed.
Lemma data_path_nested i j f g : no_slash i = true → no_slash j = true → data_path i f ∈ parents (data_path j g) →
  i = j ∧ f ∈ parents g.
Proof.
  intros Hi Hj (r & E)%parents_spec.
  assert (data_path i f +:+ String "/" r = data_path i (f +:+ String "/" r)) as E'.
  { rewrite !data_path_eq. rewrite <- !append_assoc_s. simpl. by rewrite <- append_assoc_s. }
  rewrite E' in E. apply data_path_inj in E as [-> ->]; try done. split; [done|]. apply parents_spec. by exists r.
Qed.

(** ** What is staged *)

Lemma fst_functional {A B} (l : list (A * B)) x y z : NoDup l.*1 → (x, y) ∈ l → (x, z) ∈ l → y = z.
Proof.
  induction l as [|[a b] l IH]; [by intros _ ?%elem_of_nil|]. rewrite fmap_cons. intros [Ha Hd]%NoDup_cons.
  assert (∀ b', (a, b') ∉ l) as Hn. { intros b' Hin. apply Ha, list_elem_of_fmap. by exists (a, b'). }
  intros [[= -> ->]|Hy]%elem_of_cons [[= ?]|Hz]%elem_of_cons; subst; naive_solver.
Qed.

Definition all_staged (shots : list (string * tree)) : tree :=
  foldl (λ st s, list_to_map (staged s.1 s.2) ∪ st) ∅ shots.
(** Indexes with different names, each with files that can be in one directory. *)
Definition file_tree (t : tree) : Prop :=
  (∀ f, is_Some (t !! f) → file_path f) ∧ no_nesting (map_to_list t).*1.
Record good_shots (shots : list (string * tree)) : Prop := {
  gs_names : NoDup shots.*1;
  gs_plain : Forall index_name shots.*1;
  gs_files : Forall (λ s, file_tree s.2) shots;
}.

Lemma elem_of_staged idx t k c : (k, c) ∈ staged idx t ↔ ∃ f, t !! f = Some c ∧ k = data_path idx f.
Proof.
  unfold staged. rewrite list_elem_of_fmap. split.
  - intros ([f c'] & [= -> ->] & H%elem_of_map_to_list). by exists f.
  - intros (f & H & ->). exists (f, c). by rewrite elem_of_map_to_list.
Qed.
Lemma lookup_staged idx t k c : no_slash idx = true →
  (list_to_map (staged idx t) : tree) !! k = Some c ↔ ∃ f, t !! f = Some c ∧ k = data_path idx f.
Proof.
  intros Hi. rewrite <- elem_of_staged. symmetry. apply elem_of_list_to_map. unfold staged.
  rewrite <- list_fmap_compose. assert (∀ l : list (string * string), NoDup l.*1 → NoDup ((fst ∘ λ kv, (data_path idx kv.1, kv.2)) <$> l)) as Hn.
  { induction l as [|[f d] l IH]; [constructor|]. rewrite !fmap_cons. intros [Hf Hl]%NoDup_cons. constructor; [|by apply IH].
    intros ([g e] & E & Hin)%list_elem_of_fmap. apply Hf. simpl in E. apply data_path_inj in E as [_ ->]; try done.
    apply list_elem_of_fmap. by exists (g, e). }
  apply Hn, NoDup_fst_map_to_list.
Qed.
Lemma lookup_foldl_staged shots (st : tree) k c : NoDup shots.*1 → Forall index_name shots.*1 →
  (∀ i f, i ∈ shots.*1 → st !! data_path i f = None) →
  foldl (λ st s, list_to_map (staged s.1 s.2) ∪ st) st shots !! k = Some c ↔
  st !! k = Some c ∨ ∃ i t f, (i, t) ∈ shots ∧ t !! f = Some c ∧ k = data_path i f.
Proof.
  revert st. induction shots as [|[i t] shots IH]; intros st Hd Hp Hst.
  { simpl. split; [by left|]. intros [?|(? & ? & ? & []%not_elem_of_nil & _)]. done. }
  rewrite fmap_cons in Hd, Hp, Hst. apply NoDup_cons in Hd as [Hi Hd]. apply Forall_cons in Hp as [[[Hs _] _] Hp]. simpl in *.
  rewrite IH; [|done|done|].
  - rewrite lookup_union_Some; [|by apply map_disjoint_spec; intros k' x y (f & _ & ->)%lookup_staged Hy; [rewrite Hst in Hy by (by left)|]].
    rewrite lookup_staged by done. setoid_rewrite elem_of_cons. naive_solver.
  - intros j f Hj. rewrite lookup_union, Hst by (by right).
    destruct (list_to_map (staged i t) !! data_path j f) as [x|] eqn:E; [|done]. exfalso.
    apply lookup_staged in E as (g & _ & E); [|done]. rewrite Forall_forall in Hp. destruct (Hp j Hj) as [[Hj' _] _].
    apply data_path_inj in E as [-> _]; done.
Qed.
Lemma lookup_all_staged shots k c : good_shots shots →
  all_staged shots !! k = Some c ↔ ∃ i t f, (i, t) ∈ shots ∧ t !! f = Some c ∧ k = data_path i f.
Proof.
  intros [Hd Hp _]. unfold all_staged. rewrite lookup_foldl_staged; [|done|done|done]. rewrite lookup_empty. naive_solver.
Qed.

(** With the metadata. *)
Definition staging_of (shots : list (string * tree)) (meta : string) : tree := <[metadataName := meta]> (all_staged shots).
Lemma data_not_metadata i f : data_path i f ≠ metadataName.
Proof. rewrite data_path_eq. done. Qed.
Lemma lookup_staging shots meta k c : good_shots shots → staging_of shots meta !! k = Some c ↔
  k = metadataName ∧ c = meta ∨ ∃ i t f, (i, t) ∈ shots ∧ t !! f = Some c ∧ k = data_path i f.
Proof.
  intros Hg. unfold staging_of. destruct (decide (k = metadataName)) as [->|Hk].
  - rewrite lookup_insert_eq. split; [intros [= ->]; by left|]. intros [[_ ->]|(i & t & f & _ & _ & E)]; [done|].
    by destruct (data_not_metadata i f).
  - rewrite lookup_insert_ne, lookup_all_staged by done. naive_solver.
Qed.

Lemma metadata_parents : parents metadataName = [].
Proof. by vm_compute. Qed.
Lemma metadata_above i f : metadataName ∉ parents (data_path i f).
Proof. intros (r & E)%parents_spec. rewrite data_path_eq in E. done. Qed.
Lemma staging_names shots meta k : good_shots shots → is_Some (staging_of shots meta !! k) →
  safe k ∧ k ≠ manifestName.
Proof.
  intros Hg [c [[-> _]|(i & t & f & Hin & Hf & ->)]%lookup_staging]; [by split; [vm_compute|]| |done].
  pose proof (gs_files _ Hg) as Hft. pose proof (gs_plain _ Hg) as Hp. rewrite Forall_forall in Hft. rewrite Forall_forall in Hp.
  destruct (Hft _ Hin) as [Hfp _]. split; [|by rewrite data_path_eq].
  apply data_path_safe; [|by apply Hfp; simpl; rewrite Hf]. apply Hp, list_elem_of_fmap. by exists (i, t).
Qed.
Lemma staging_nesting shots meta l : good_shots shots → l ≡ₚ map_to_list (staging_of shots meta) → no_nesting l.*1.
Proof.
  intros Hg Hl p q Hp Hq Hpq.
  assert (∀ k, k ∈ l.*1 → ∃ c, staging_of shots meta !! k = Some c) as Hk.
  { intros k Hin. rewrite Hl in Hin. apply list_elem_of_fmap in Hin as ([k' c] & -> & Hin%elem_of_map_to_list). by exists c. }
  apply Hk in Hp as [c Hp], Hq as [d Hq]. clear Hk Hl.
  apply lookup_staging in Hp as [[-> _]|(i & t & f & Hi & Hf & ->)], Hq as [[-> _]|(j & u & g & Hj & Hu & ->)]; try done.
  - by rewrite metadata_parents in Hpq; apply elem_of_nil in Hpq.
  - by apply metadata_above in Hpq.
  - by rewrite metadata_parents in Hpq; apply elem_of_nil in Hpq.
  - destruct Hg as [Hd Hp Hft]. rewrite Forall_forall in Hft. rewrite Forall_forall in Hp.
    assert (∀ s, s ∈ shots → no_slash s.1 = true) as Hs. { intros s Hin. destruct (Hp s.1) as [[? _] _]; [|done]. by apply list_elem_of_fmap_2. }
    apply data_path_nested in Hpq as [-> Hfg]; [|by apply (Hs (i, t))|by apply (Hs (j, u))].
    assert (t = u) as -> by by eapply fst_functional. destruct (Hft _ Hj) as [_ Hn]. simpl in Hn. eapply Hn; [| |exact Hfg].
    + apply list_elem_of_fmap. exists (f, c). by rewrite elem_of_map_to_list.
    + apply list_elem_of_fmap. exists (g, d). by rewrite elem_of_map_to_list.
Qed.

(** ** What is extracted *)

Lemma strip_append pre s : strip pre (pre +:+ s) = Some s.
Proof. induction pre as [|c pre IH]; [done|]. cbn. by rewrite decide_True. Qed.
Lemma index_file_data i f c : no_slash i = true → index_file (data_path i f, c) = Some (i, (f, c)).
Proof.
  intros Hi%no_slash_Contains. unfold index_file, data_path. cbn [fst snd]. rewrite strip_append.
  change (i +:+ "/" +:+ f) with (i +:+ String "/" f). by rewrite Cut_append.
Qed.

Definition first_names (l : list (string * (string * string))) : gmap string tree :=
  foldr (λ x m, <[x.1 := <[x.2.1 := x.2.2]> (default ∅ (m !! x.1))]> m) ∅ l.
Lemma lookup_first_names l i f c : (∀ i f c c', (i, (f, c)) ∈ l → (i, (f, c')) ∈ l → c = c') →
  default ∅ (first_names l !! i) !! f = Some c ↔ (i, (f, c)) ∈ l.
Proof.
  induction l as [|[j [g d]] l IH]; intros Hf; simpl; [by rewrite lookup_empty, elem_of_nil|].
  assert (∀ i f c c', (i, (f, c)) ∈ l → (i, (f, c')) ∈ l → c = c') as Hf'.
  { intros i' f' c1 c2 H1 H2. by eapply (Hf i' f'); right. }
  rewrite elem_of_cons, <- (IH Hf'). destruct (decide (i = j)) as [->|Hij].
  - rewrite lookup_insert_eq. simpl. destruct (decide (f = g)) as [->|Hfg].
    + rewrite lookup_insert_eq. split; [intros [= ->]; by left|]. intros [[= ->]|Hin]; [done|].
      f_equal. eapply (Hf j g); [by left|]. right. by apply IH.
    + rewrite lookup_insert_ne by done. naive_solver.
  - rewrite lookup_insert_ne by done. naive_solver.
Qed.
Lemma is_Some_first_names l i : is_Some (first_names l !! i) ↔ ∃ x, (i, x) ∈ l.
Proof.
  induction l as [|[j y] l IH]; simpl.
  { rewrite lookup_empty. split; [by intros []|]. by intros [x ?%elem_of_nil]. }
  destruct (decide (i = j)) as [->|Hij].
  - rewrite lookup_insert_eq. split; [intros _; exists y; by left|done].
  - rewrite lookup_insert_ne, IH by done. setoid_rewrite elem_of_cons. naive_solver.
Qed.

Lemma elem_of_index_files shots meta i f c : good_shots shots →
  (i, (f, c)) ∈ index_files (staging_of shots meta) ↔ ∃ t, (i, t) ∈ shots ∧ t !! f = Some c.
Proof.
  intros Hg. unfold index_files. rewrite list_elem_of_omap.
  assert (∀ j t, (j, t) ∈ shots → no_slash j = true) as Hs.
  { intros j t Hin. pose proof (gs_plain _ Hg) as Hp. rewrite Forall_forall in Hp.
    destruct (Hp j) as [[? _] _]; [|done]. apply list_elem_of_fmap. by exists (j, t). }
  split.
  - intros ([k d] & Hin%elem_of_map_to_list & E). apply lookup_staging in Hin as [[-> ->]|(j & t & g & Hj & Ht & ->)].
    + by vm_compute in E.
    + rewrite index_file_data in E by by eapply Hs. injection E as -> -> ->. by exists t.
    + done.
  - intros (t & Hi & Ht). exists (data_path i f, c). split; [|by eapply index_file_data, Hs].
    apply elem_of_map_to_list, lookup_staging; [done|]. right. by exists i, t, f.
Qed.
(** Each index gets the files of its snapshot, and there is nothing else. *)
Lemma extracted_staging shots meta : good_shots shots →
  (∀ i t, (i, t) ∈ shots → default ∅ (extracted (staging_of shots meta) !! i) = t) ∧
  ∀ i, is_Some (extracted (staging_of shots meta) !! i) → i ∈ shots.*1.
Proof.
  intros Hg. change (extracted (staging_of shots meta)) with (first_names (index_files (staging_of shots meta))).
  assert (∀ i t, (i, t) ∈ shots → ∀ u, (i, u) ∈ shots → u = t) as Hu.
  { intros i t Ht u Hin. eapply fst_functional; [apply (gs_names _ Hg)|done|done]. }
  split.
  - intros i t Hi. apply map_eq. intros f. apply option_eq. intros c. rewrite lookup_first_names.
    + rewrite elem_of_index_files by done. split; [intros (u & Hin & Hf)|by exists t]. by rewrite <- (Hu i t Hi u Hin).
    + intros j g c1 c2 (u & Hin & Hf)%elem_of_index_files (u' & Hin' & Hf')%elem_of_index_files; try done.
      rewrite (Hu j u Hin u' Hin') in Hf'. congruence.
  - intros i [[f c] Hin]%is_Some_first_names. apply elem_of_index_files in Hin as (t & Hin & _); [|done].
    apply list_elem_of_fmap. by exists (i, t).
Qed.

(** ** Names of archives *)

Lemma archiveName_inj `{Host} m s s' : archiveName m s = archiveName m s' → s = s'.
Proof. unfold archiveName. rewrite !append_assoc_s. by intros E%append_cancel_r%append_cancel_l. Qed.

Definition nth_suffix (i : Z) : string := "-" +:+ FormatUint i.
Lemma suffix_inj i j : 0 ≤ i → 0 ≤ j → nth_suffix i = nth_suffix j → i = j.
Proof. unfold nth_suffix, FormatUint. intros Hi Hj E%append_cancel_l. apply (inj pretty) in E. lia. Qed.
Lemma fresh_loop_taken `{Host} n i m d : is_Some (archives d !! fresh_loop n i m d) →
  Forall (λ k, is_Some (archives d !! archiveName m (nth_suffix (i + Z.of_nat k)))) (seq 0 (S n)).
Proof.
  revert i. induction n as [|n IH]; intros i Ht; cbn [fresh_loop] in Ht; [by constructor; [rewrite Z.add_0_r|]|].
  case_bool_decide as Hi; [|done]. apply IH in Ht. change (seq 0 (S (S n))) with (0%nat :: seq 1 (S n)).
  constructor; [by rewrite Z.add_0_r|]. rewrite <- fmap_S_seq. apply Forall_fmap. eapply Forall_impl; [exact Ht|].
  intros k Hk. unfold compose. by replace (i + Z.of_nat (S k)) with (i + 1 + Z.of_nat k) by lia.
Qed.
(** There are more numbers than archives. *)
Lemma fresh_name_free `{Host} m d : archives d !! fresh_name m d = None.
Proof.
  unfold fresh_name. case_bool_decide as Hb; [|by apply eq_None_not_Some].
  destruct (archives d !! fresh_loop _ _ _ _) eqn:E; [|done]. exfalso.
  assert (is_Some (archives d !! fresh_loop (size (archives d)) 2 m d)) as Ht by by rewrite E.
  apply fresh_loop_taken in Ht. set (names := (λ k, archiveName m (nth_suffix (2 + Z.of_nat k))) <$> seq 0 (S (size (archives d)))).
  assert (NoDup names) as Hd.
  { apply NoDup_fmap_2; [|apply NoDup_seq]. intros a b Eab%archiveName_inj. apply suffix_inj in Eab; lia. }
  assert (list_to_set names ⊆ dom (archives d)) as Hs.
  { intros x Hx%elem_of_list_to_set. apply list_elem_of_fmap in Hx as (k & -> & Hk). apply elem_of_dom.
    rewrite Forall_forall in Ht. by apply Ht. }
  apply subseteq_size in Hs. rewrite size_list_to_set in Hs by done. unfold names in Hs.
  rewrite length_fmap, length_seq, size_dom in Hs. lia.
Qed.

(** ** Restoring without failures *)

Section restore_forward.
Context {alib : ArchiveLib} {disk : Disk} {host : Host} (ctx_Err : nat → option error).
Context (no_fails : ∀ what, fails what = None).
#[local] Set Default Proof Using "Type no_fails".

Lemma move_loop_forward l moved s : NoDup l.*1 → (∀ n, n ∈ l.*1 → data s !! n = None) →
  ∃ s', move_loop l moved s = (Ok (None, moved ++ l.*1), s').
Proof.
  revert moved s. induction l as [|[n t] l IH]; intros moved s Hd Hn; [exists s; by rewrite app_nil_r|].
  rewrite fmap_cons in Hd, Hn. apply NoDup_cons in Hd as [Hni Hd].
  destruct (IH (moved ++ [n]) (MkTarget (loaded s) (<[n := t]> (data s)) (kv s)) Hd) as [s' Hs'].
  { intros k Hk. simpl. rewrite lookup_insert_ne by (by intros ->). apply Hn. by right. }
  exists s'. rewrite <- (assoc_L (++)) in Hs'. cbn [move_loop]. unfold mbind, M_bind, get_state.
  rewrite (Hn n) by (by left). rewrite bool_decide_eq_false_2 by (by intros [? ?]). by rewrite no_fails.
Qed.

Lemma Load_set_forward l s : ∃ s', Load_set l s = (Ok (), s').
Proof.
  revert s. induction l as [|[k v] l IH]; intros s; [by exists s|]. cbn [Load_set]. rewrite no_fails. apply IH.
Qed.
Lemma Load_delete_forward keys entries s : ∃ s', Load_delete keys entries s = (Ok (), s').
Proof.
  revert s. induction keys as [|k keys IH]; intros s; [by exists s|]. cbn [Load_delete].
  destruct (entries !! k); [apply IH|]. rewrite no_fails. apply IH.
Qed.
Lemma Load_forward entries s : ∃ s', Load entries s = (Ok (), s').
Proof.
  unfold Load. rewrite no_fails. unfold mbind, M_bind, get_state, or_throw, mret, M_ret.
  destruct (Load_delete_forward (map_to_list (kv s)).*1 entries s) as [s1 ->]. apply Load_set_forward.
Qed.

Lemma Restore_forward archive m got t entries s :
  readArchive ctx_Err archive true ∅ = (Ok (m, got), t) → readMetadata t = Ok entries →
  loaded s = 0 → forallb own_name (map_to_list (data s)).*1 = true → extracted t ##ₘ data s →
  ∃ s', Restore ctx_Err archive s = (Ok m, s') ∧ kv s' = entries ∧ data s' = extracted t ∪ data s ∧ loaded s' = 0.
Proof.
  intros Hr Hm Hl Hown Hdisj. unfold Restore, mbind, M_bind, get_state, lift. unfold checkEmpty. rewrite Hl. simpl (0 <? 0).
  rewrite !no_fails. rewrite Hown. cbv iota beta. unfold or_throw, mret, M_ret. rewrite Hr. cbv iota beta. rewrite Hm.
  assert (∀ n, n ∈ (to_move t).*1 → data s !! n = None) as Hfree.
  { intros n [x Hx]%elem_of_to_move. by eapply map_disjoint_Some_l. }
  destruct (move_loop_forward (to_move t) [] s (to_move_names t) Hfree) as [s1 Hs1].
  assert (moveIndexes t s = (Ok (None, [] ++ (to_move t).*1), s1)) as ->.
  { rewrite <- Hs1. unfold moveIndexes. rewrite no_fails. by destruct (to_move t). }
  apply move_loop_spec in Hs1 as (added & _ & _ & _ & Hd & _ & Hl1 & Hall); [|apply to_move_names]. rewrite (Hall eq_refl), to_move_map in Hd.
  unfold try. destruct (Load_forward entries s1) as [s2 HL]. rewrite HL. exists s2. split; [done|].
  apply same_data_Load in HL as Hsd. destruct Hsd as [Hd2 Hl2]. split; [by eapply Load_ok|]. rewrite Hd2, Hl2. split; [done|]. by rewrite Hl1.
Qed.
End restore_forward.

(** ** Taking one *)

Section round_trip.
Context {W : Type} {node : Node W} {alib : ArchiveLib} {laws : ArchiveLaws}.
#[local] Set Default Proof Using "Type laws".

(** What a node promises: indexes have different names that are those of directories, and a
    snapshot is a tree of files. *)
Class NodeLaws := {
  IndexNames_good w names w' : IndexNames w = (Ok names, w') → NoDup names ∧ Forall index_name names;
  BackupShards_good idx w t w' : BackupShards idx w = (Ok t, w') → file_tree t;
}.
Context {nlaws : NodeLaws}.
#[local] Set Default Proof Using "Type laws nlaws".

(** What was done when a backup is taken. *)
Record created `{Host} (ctx_Err : nat → option error) (w w' : W) (d d' : Dir) (info : NodeInfo) (m : Manifest)
    (shots : list (string * tree)) (entries : gmap string string) : Prop := {
  cr_before : ∃ w1, currentState w = (Ok (0, LastApplied m), w1);
  cr_after : ∃ w1 w2 w3, Dump w1 = (Ok entries, w2) ∧ currentState w2 = (Ok (0, LastApplied m), w3);
  cr_names : shots.*1 = Indexes m;
  cr_shots : Forall (λ s, taken s.1 s.2) shots;
  cr_good : good_shots shots;
  cr_docs : dom (Docs m) = list_to_set (Indexes m);
  cr_version : Version m = FormatVersion;
  cr_files : Files m = list_to_map (sums (walk (staging_of shots (encode_metadata entries))));
  cr_archive : d' =
    let bytes := pack ((file_entry <$> walk (staging_of shots (encode_metadata entries))) ++
                       [file_entry (manifestName, encode_manifest m)]) in
    MkDir (<[ni_Name info := bytes]> (archives d)) (<[ni_Name info := Some info]> (sidecars d));
  cr_name : archives d !! ni_Name info = None;
  cr_info : ni_LastApplied info = LastApplied m ∧ ni_Indexes info = Indexes m;
}.

Lemma Create_ok `{Host} ctx_Err running w w' d d' info : Create ctx_Err running (w, d) = (Ok info, (w', d')) →
  ∃ m shots entries, created ctx_Err w w' d d' info m shots entries.
Proof.
  unfold Create. destruct running; [done|]. intros (u & s & [_ ->]%or_throw_ok & HC)%bind_ok.
  apply bind_ok in HC as ([p off] & [w1 d1] & [Hb E]%on_fst_ok & HC). simpl in E, Hb. subst d1. simpl in HC.
  destruct (p =? 0) eqn:Ep; [|done]. apply Z.eqb_eq in Ep as ->. simpl in HC.
  apply bind_ok in HC as (u1 & s & [_ ->]%or_throw_ok & HC).
  apply bind_ok in HC as (names & [w2 d2] & [Hn E]%on_fst_ok & HC). simpl in E, Hn. subst d2.
  apply bind_ok in HC as (x & [w3 d3] & [Hc E]%on_fst_ok & HC). simpl in E, Hc. subst d3.
  apply bind_ok in HC as (entries & [w4 d4] & [Hd E]%on_fst_ok & HC). simpl in E, Hd. subst d4.
  apply bind_ok in HC as (u2 & s & [_ ->]%or_throw_ok & HC).
  apply bind_ok in HC as (after & [w5 d5] & [Ha E]%on_fst_ok & HC). simpl in E, Ha. subst d5.
  destruct (bool_decide (after = (0, off))) eqn:Ed; [|done]. apply bool_decide_eq_true_1 in Ed as ->. simpl in HC.
  apply bind_ok in HC as (now & [w6 d6] & [_ E]%on_fst_ok & HC). simpl in E. subst d6.
  apply copy_indexes_ok in Hc as (shots & Hs & Ht & Hx & Hdom). apply IndexNames_good in Hn as [Hnd Hpl].
  apply on_snd_ok in HC as [HW _]. simpl in HW. apply writeArchive_ok in HW as [-> ->]. cbn [ni_Name].
  assert (good_shots shots) as Hg.
  { assert (shots.*1 ≡ₚ names) as Hp by by rewrite Hs, merge_sort_Permutation.
    split; [by rewrite Hp|by rewrite Hp|]. eapply Forall_impl; [exact Ht|]. intros [i t] (w7 & w8 & Hb7). by eapply BackupShards_good. }
  rewrite Hx. fold (all_staged shots). fold (staging_of shots (encode_metadata entries)).
  eexists (MkManifest FormatVersion now off (merge_sort String.le names) x.1 _), shots, entries.
  constructor; cbn [Version LastApplied Indexes Docs Files]; try done.
  - by exists w1.
  - by exists w3, w4, w5.
  - rewrite Hdom. set_solver.
  - apply fresh_name_free.
Qed.

End round_trip.

(** ** Inputs *)

Module BackupDemo.
(** Encoders and decoders that keep their promises. *)
Fixpoint bits (p : positive) : string :=
  match p with xH => "" | xO p => String "0" (bits p) | xI p => String "1" (bits p) end.
Fixpoint unbits (s : string) : positive :=
  match s with "" => xH | String c s => if decide (c = "0"%char) then xO (unbits s) else xI (unbits s) end.
Definition to_text `{Countable A} (x : A) : string := bits (encode x).
Definition of_text `{Countable A} (s : string) : option A := decode (unbits s).
Lemma of_to_text `{Countable A} (x : A) : of_text (to_text x) = Some x.
Proof.
  unfold of_text, to_text. assert (∀ p, unbits (bits p) = p) as ->; [|apply decode_encode].
  induction p as [p IH|p IH|]; simpl; [by rewrite IH|by rewrite IH|done].
Qed.

Definition manifest_tuple (m : Manifest) : Z * Z * Z * list string * gmap string Z * gmap string (Z * string) :=
  (Version m, CreatedAt m, LastApplied m, Indexes m, Docs m, (λ f, (Size f, SHA256 f)) <$> Files m).
Definition of_tuple (x : Z * Z * Z * list string * gmap string Z * gmap string (Z * string)) : Manifest :=
  let '(v, c, l, ixs, ds, fs) := x in MkManifest v c l ixs ds ((λ p, MkFile p.1 p.2) <$> fs).
Lemma of_manifest_tuple m : of_tuple (manifest_tuple m) = m.
Proof.
  destruct m as [v c l ixs ds fs]. unfold of_tuple, manifest_tuple. simpl. f_equal. rewrite <- map_fmap_compose.
  rewrite <- (map_fmap_id fs) at 2. apply map_fmap_ext. by intros n [? ?] _.
Qed.
Definition or_error {A} (x : option A) : res A := match x with Some a => Ok a | None => Err (errors_New "invalid") end.
#[export] Instance text_lib : ArchiveLib := {|
  unpack s := MkStream None (file_entry <$> default [] (of_text s)) None None;
  pack l := to_text ((λ e, (e_Name e, e_data e)) <$> l);
  sha256_hex s := s;
  encode_manifest m := to_text (manifest_tuple m);
  decode_manifest s := of_tuple <$> or_error (of_text s);
  encode_metadata kv := to_text kv;
  decode_metadata s := or_error (of_text s);
|}.
#[export] Instance text_laws : ArchiveLaws.
Proof.
  split; intros x; cbn.
  - rewrite of_to_text. simpl. do 2 f_equal. induction x as [|[n d] x IH]; [done|]. cbn. by rewrite IH.
  - change (of_tuple <$> or_error (of_text (to_text (manifest_tuple x))) = Ok x). rewrite of_to_text.
    exact (f_equal Ok (of_manifest_tuple x)).
  - by rewrite of_to_text.
Qed.

(** Two indexes, of which one has nothing on disk. *)
#[export] Instance quiet_node : Node nat := {|
  WALPending_ := mret 0; LoadOffset := mret 41; IndexNames := mret ["logs"; "books"];
  BackupShards idx := modify S;; mret (if decide (idx = "logs") then {["00/000000/1.seg" := "segment"]} else ∅);
  CountDocs idx := mret (if decide (idx = "logs") then 3 else 0);
  Dump := mret {["/kv/offset" := "41"]}; NowSeconds := mret 1700000000;
|}.
#[export] Instance quiet_laws : NodeLaws.
Proof.
  split.
  - intros w names w' [= <- <-]. split; [by apply (bool_decide_unpack _); vm_compute|].
    repeat constructor; vm_compute; try done; intros H; by repeat apply elem_of_cons in H as [H|H]; try apply elem_of_nil in H.
  - intros idx w t w' [= <- <-]. destruct (decide _).
    + split.
      * intros f [c [<- _]%lookup_singleton_Some]. split; [|by vm_compute].
        repeat constructor; vm_compute; try done; intros H; by repeat apply elem_of_cons in H as [H|H]; try apply elem_of_nil in H.
      * rewrite map_to_list_singleton. intros p q ->%list_elem_of_singleton ->%list_elem_of_singleton H.
        vm_compute in H. by repeat apply elem_of_cons in H as [H|H]; try apply elem_of_nil in H.
    + split; [by intros f [c ?%lookup_empty_Some]|]. rewrite map_to_list_empty. by intros p q ?%elem_of_nil.
Qed.
(** A host where only what is named fails. *)
Definition failing (what : string) : Host := {|
  fails s := if decide (s = what) then Some (errors_New "input/output error") else None;
  walk t := map_to_list t; walk_perm t := Permutation_refl _; FormatStamp _ := "20231114T221320Z" |}.
Definition healthy : Host := {|
  fails _ := None; walk t := map_to_list t; walk_perm t := Permutation_refl _; FormatStamp _ := "20231114T221320Z" |}.

#[local] Abbreviation no_error := (λ _ : nat, None : option error).
Definition sound_disk : Disk := {| open_error _ := None; write_error _ := None |}.
Definition old_target : Target := MkTarget 0 {["_metadata" := ∅]} {["a" := "1"]}.
(** The size of the last file of an archive. *)
Definition manifest_size (bytes : string) : Z :=
  match last (tar (unpack bytes)) with Some e => len (e_data e) | None => 0 end.
Definition backup : res NodeInfo * (nat * Dir) := Create (host := healthy) no_error false (0%nat, MkDir ∅ ∅).

(** A library with one archive. *)
Definition files0 : list (string * string) := [("metadata.json", "{}"); ("data/logs/0/1.seg", "segment")].
Definition manifest0 : Manifest := MkManifest 1 0 41 ["logs"] {["logs" := 3]}
  {["metadata.json" := MkFile 2 "{}"; "data/logs/0/1.seg" := MkFile 7 "segment"]}.
Definition one_lib : ArchiveLib := {|
  unpack s := MkStream None ((file_entry <$> files0) ++ [file_entry ("manifest.json", "m")]) None None;
  pack l := ""; sha256_hex s := s; encode_manifest m := "m"; decode_manifest s := Ok manifest0;
  encode_metadata kv := "{}"; decode_metadata s := Ok {["b" := "2"]};
|}.

Lemma Verify_exact_witness : Verify (alib := one_lib) (disk := sound_disk) no_error (Ok "") = Ok manifest0 ∧
  Files manifest0 = list_to_map (sums (alib := one_lib) files0).
Proof.
  assert (Verify (alib := one_lib) (disk := sound_disk) no_error (Ok "") = Ok manifest0) as H by (vm_compute; reflexivity).
  split; [exact H|]. destruct (Verify_exact (alib := one_lib) (disk := sound_disk) no_error (Ok "") manifest0 H)
    as (bytes & e & _ & _ & _ & _ & Hf & _). exact Hf.
Defined.

(** The metadata cannot be written after the indexes were moved. *)
Definition torn_restore : res Manifest * Target :=
  Restore (alib := one_lib) (disk := sound_disk) (host := failing "set b") no_error (Ok "") old_target.
End BackupDemo.
