(* ===== verification/Bulk.v ===== *)
(** Documents in bulk (pkg/handlers/document: bulk.go, multi_create.go, bulkv2_create.go):
    what the lines of a body do to the indexes of a node, and what is answered.

    The indexes are an interface ([DocIndexes]); the text of JSON is encoding/json
    ([parse_json]). The line-by-line reader of a body keeps two things between lines:
    whether the next line is a document, and what the last line of metadata said. *)
From S2P Require Import Prelude Strings Wire Publisher Ingest Mappings.
#[local] Open Scope Z_scope.

(** ** Lines *)

(** The lines of [bufio.Scanner], and the error after them. *)
Fixpoint ScanLines (max : Z) (ls : list string) (err : option error) : list string * option error :=
  match ls with
  | [] => ([], err)
  | l :: ls' =>
      if max <=? len l then ([], Some ErrTooLong)
      else if bool_decide (l = "") && bool_decide (ls' = []) then ([], err)
      else let '(rest, e) := ScanLines max ls' err in
           ((if HasSuffix l "013" then String.substring 0 (String.length l - 1) l else l) :: rest, e)
  end.
Definition Scan (max : Z) (body : reader) : list string * option error :=
  ScanLines max (Split (r_data body) "010") (r_err body).

(** ** Answers *)

Record BulkResponseItem := MkItem { it_Index : string; it_ID : string; it_Result : string; it_SeqNo : Z; it_Error : string }.
(** An item is filed under the name of its operation. *)
Record BulkResponse := MkBulkResponse { b_Error : string; b_Items : list (string * BulkResponseItem); b_Count : Z }.

(** The indexes of a node: [core.GetOrCreateIndex], [CreateDocument], [DeleteDocument] and
    [ider.Generate]. *)
Class DocIndexes (S IX : Type) := {
  GetOrCreate : string → M S IX;
  Create_ : IX → string → option obj → bool → M S ();
  Delete_ : IX → string → M S ();
  NextDocID : M S string;
}.

(** A call whose error is looked at; a panic goes through. *)
Definition caught {S A} (c : M S A) : M S (res A) := λ s,
  match c s with
  | (Ok a, s') => (Ok (Ok a), s')
  | (Err e, s') => (if is_panic e then Err e else Ok (Err e), s')
  end.
Definition nil_panic : error := Panic "invalid memory address or nil pointer dereference".
Definition is_empty_string (v : json) : bool := match v with JStr "" => true | _ => false end.
(** A key that is missing gives nil, which is the null of JSON. *)
Definition member (k : string) (o : obj) : json := default JNull (obj_get k o).

Section bulk.
Context {S IX : Type} `{!DocIndexes S IX}.
Context (parse_json : string → option json) (range : obj → list (string * json)).

(** The metadata of the line before; [globalSeqNo] is beside the indexes. *)
Record lastMeta := MkLast { l_index : json; l_operation : json; l_id : json }.
#[local] Abbreviation W := (S * Z)%type.
#[local] Abbreviation Result := (option BulkResponse * option error)%type.

Definition NewBulkResponseItem (seqNo : Z) (index id result : string) (err : option error) : M W BulkResponseItem :=
  w ← get_state;
  mret (MkItem index id result (i64 ((w : W).2 + seqNo)) (from_option err_text "" err)).

Definition count_up (res : BulkResponse) : BulkResponse := MkBulkResponse (b_Error res) (b_Items res) (i64 (b_Count res + 1)).
Definition add_item (res : BulkResponse) (op : string) (it : BulkResponseItem) : BulkResponse :=
  MkBulkResponse (b_Error res) (b_Items res ++ [(op, it)]) (b_Count res).

(** What the operation is called in the answer. *)
Definition answer_item (operation : string) : option (string * string) :=
  if bool_decide (operation = "index") || bool_decide (operation = "create") then Some ("index", "created")
  else if bool_decide (operation = "update") then Some ("index", "updated")
  else None.

(** What stands for nil, where the address names an index. *)
Definition supplied (target : string) (v : json) (otherwise : string) : json :=
  match v with JNull => if 0 <? len target then JStr otherwise else JNull | v => v end.

(** A line of data. The answer grows also when the document is refused. *)
Definition data_line (target : string) (last : lastMeta) (doc : option obj) (res : BulkResponse) : M W (BulkResponse * option error) :=
  let res := count_up res in
  docID ← (match l_id last with JNull => mret "" | v => lift (assert_str v) end);
  let update := negb (bool_decide (docID = "")) in
  docID ← (if update then mret docID else on_fst NextDocID);
  indexName ← lift (assert_str (supplied target (l_index last) target));
  operation ← lift (assert_str (supplied target (l_operation last) "create"));
  res ← (match answer_item operation with
         | Some (op, result) => it ← NewBulkResponseItem (b_Count res) indexName docID result None; mret (add_item res op it)
         | None => mret res
         end);
  r ← caught (on_fst (GetOrCreate indexName));
  match r with
  | Err e => mret (res, Some e)
  | Ok ix =>
      r ← caught (on_fst (Create_ ix docID doc update));
      mret (res, match r with Ok _ => None | Err e => Some e end)
  end.

(** What a line of metadata leads to: the end of the request, or the next line. *)
Definition format_error : Result := (None, Some (errors_New "bulk index data format error")).
Inductive after_line := Stop (r : Result) | Go (nextLineIsData : bool) (last : lastMeta) (res : BulkResponse).

Definition no_last : lastMeta := MkLast JNull JNull JNull.

(** One member of the metadata. *)
Definition meta_key (target : string) (k : string) (v : json) (data : bool) (last : lastMeta) (res : BulkResponse) : M W after_line :=
  match v with
  | JObj vm =>
      if bool_decide (k = "index") || bool_decide (k = "create") || bool_decide (k = "update") then
        let ix := if is_empty_string (member "_index" vm) then JStr target else member "_index" vm in
        mret (if is_empty_string ix then Stop format_error else Go true (MkLast ix (JStr k) (member "_id" vm)) res)
      else if bool_decide (k = "delete") then
        docID ← lift (assert_str (member "_id" vm));
        indexName ← (if is_empty_string (member "_index" vm) then mret target else lift (assert_str (member "_index" vm)));
        if bool_decide (indexName = "") then mret (Stop format_error)
        else
          r ← caught (on_fst (GetOrCreate indexName));
          match r with
          | Err e => mret (Stop (Some res, Some e))
          | Ok ix =>
              r ← caught (on_fst (Delete_ ix docID));
              let res := count_up res in
              it ← NewBulkResponseItem (b_Count res) indexName docID "deleted" (match r with Ok _ => None | Err e => Some e end);
              mret (Go false no_last (add_item res "delete" it))
          end
      else mret (Go data (MkLast (JStr target) (JStr "index") JNull) res)
  | _ => mret (Stop format_error)
  end.
Fixpoint meta_keys (target : string) (kvs : list (string * json)) (data : bool) (last : lastMeta) (res : BulkResponse) : M W after_line :=
  match kvs with
  | [] => mret (Go data last res)
  | (k, v) :: kvs =>
      a ← meta_key target k v data last res;
      match a with Stop r => mret (Stop r) | Go data last res => meta_keys target kvs data last res end
  end.

(** The loop over the lines; a line that is no object is logged and skipped. *)
Fixpoint bulk_lines (target : string) (lines : list string) (err : option error) (data : bool) (last : lastMeta)
    (res : BulkResponse) : M W Result :=
  match lines with
  | [] => mret (Some res, err)
  | l :: lines =>
      match unmarshal_object parse_json l with
      | Err _ => bulk_lines target lines err data last res
      | Ok doc =>
          if data then
            x ← data_line target last doc res;
            match x with
            | (res, Some e) => mret (Some res, Some e)
            | (res, None) => bulk_lines target lines err false last res
            end
          else
            a ← meta_keys target (range (default [] doc)) data last res;
            match a with Stop r => mret r | Go data last res => bulk_lines target lines err data last res end
      end
  end.
Definition empty_response : BulkResponse := MkBulkResponse "" [] 0.
Definition BulkWorker (max : Z) (target : string) (body : reader) : M W Result :=
  let '(lines, err) := Scan max body in bulk_lines target lines err false no_last empty_response.

Inductive bulk_answer := BulkFailed (code : Z) (text : string) | BulkInserted (count : Z) | ESAnswer (res : BulkResponse).
Definition Bulk (max : Z) (target : string) (body : reader) : M W bulk_answer :=
  x ← BulkWorker max target body;
  match x with
  | (_, Some e) => mret (BulkFailed 500 (err_text e))
  | (Some res, None) => mret (BulkInserted (b_Count res))
  | (None, None) => throw nil_panic
  end.
Definition ESBulk (max : Z) (target : string) (body : reader) : M W bulk_answer :=
  x ← BulkWorker max target body;
  match x.1 with
  | None => throw nil_panic
  | Some res =>
      let res := match x.2 with Some e => MkBulkResponse (err_text e) (b_Items res) (b_Count res) | None => res end in
      modify (λ w, (w.1, i64 (w.2 + b_Count res)));;
      mret (ESAnswer res)
  end.
End bulk.

(** ** Documents one per line, and in one object *)

Section multi.
Context {S IX : Type} `{!DocIndexes S IX} (parse_json : string → option json).

(** A document with the identifier it names, or a new one. *)
Definition create_named (ix : IX) (doc : option obj) : M S () :=
  docID ← (match member "_id" (default [] doc) with JNull => mret "" | v => lift (assert_str v) end);
  let update := negb (bool_decide (docID = "")) in
  docID ← (if update then mret docID else NextDocID);
  Create_ ix docID doc update.

(** [count, err]: a computation that fails has created [count] documents. *)
Fixpoint multi_lines (ix : IX) (lines : list string) (err : option error) (count : Z) : M S (Z * option error) :=
  match lines with
  | [] => mret (count, err)
  | l :: lines =>
      match unmarshal_object parse_json l with
      | Err _ => multi_lines ix lines err count
      | Ok doc =>
          r ← caught (create_named ix doc);
          match r with
          | Err e => mret (count, Some e)
          | Ok _ => multi_lines ix lines err (i64 (count + 1))
          end
      end
  end.
Definition MultiWorker (max : Z) (indexName : string) (body : reader) : M S (Z * option error) :=
  r ← caught (GetOrCreate indexName);
  match r with
  | Err e => mret (0, Some e)
  | Ok ix => let '(lines, err) := Scan max body in multi_lines ix lines err 0
  end.

Fixpoint record_loop (ix : IX) (docs : list (option obj)) (count : Z) : M S (Z * option error) :=
  match docs with
  | [] => mret (count, None)
  | doc :: docs =>
      r ← caught (create_named ix doc);
      match r with
      | Err e => mret (count, Some e)
      | Ok _ => record_loop ix docs (i64 (count + 1))
      end
  end.
Definition Bulkv2Worker (indexName : string) (records : list (option obj)) : M S (Z * option error) :=
  r ← caught (GetOrCreate indexName);
  match r with Err e => mret (0, Some e) | Ok ix => record_loop ix records 0 end.
End multi.

(** ** What a body means *)

Section meaning.
Context {S IX : Type} `{!DocIndexes S IX} (parse_json : string → option json) (range : obj → list (string * json)).
Context (range_perm : ∀ o, range o ≡ₚ o).
#[local] Set Default Proof Using "Type".
#[local] Abbreviation W := (S * Z)%type.
#[local] Abbreviation bulk_lines := (bulk_lines (S := S) parse_json range).

(** A request as Elasticsearch describes it: what to do, one after the other. A deletion
    that leaves the index out panics, whatever the address names. *)
Inductive action :=
| Write (operation index id : string) (doc : option obj)
| Remove_ (index id : string)
| Remove_nowhere.

Definition do_write (operation index id : string) (doc : option obj) (res : BulkResponse) : M W (BulkResponse * option error) :=
  let res := count_up res in
  let update := negb (bool_decide (id = "")) in
  docID ← (if update then mret id else on_fst NextDocID);
  it ← NewBulkResponseItem (b_Count res) index docID (if bool_decide (operation = "update") then "updated" else "created") None;
  let res := add_item res "index" it in
  r ← caught (on_fst (GetOrCreate index));
  match r with
  | Err e => mret (res, Some e)
  | Ok ix => r ← caught (on_fst (Create_ ix docID doc update)); mret (res, match r with Ok _ => None | Err e => Some e end)
  end.
Definition do_remove (index id : string) (res : BulkResponse) : M W (BulkResponse * option error) :=
  r ← caught (on_fst (GetOrCreate index));
  match r with
  | Err e => mret (res, Some e)
  | Ok ix =>
      r ← caught (on_fst (Delete_ ix id));
      let res := count_up res in
      it ← NewBulkResponseItem (b_Count res) index id "deleted" (match r with Ok _ => None | Err e => Some e end);
      mret (add_item res "delete" it, None)
  end.
Definition do_action (a : action) (res : BulkResponse) : M W (BulkResponse * option error) :=
  match a with
  | Write op index id doc => do_write op index id doc res
  | Remove_ index id => do_remove index id res
  | Remove_nowhere => index ← lift (assert_str JNull); do_remove index "" res
  end.
Fixpoint run_actions (acts : list action) (err : option error) (res : BulkResponse) : M W (option BulkResponse * option error) :=
  match acts with
  | [] => mret (Some res, err)
  | a :: acts =>
      x ← do_action a res;
      match x with
      | (res, Some e) => mret (Some res, Some e)
      | (res, None) => run_actions acts err res
      end
  end.

(** The index a line of metadata names: its own, or that of the address. *)
Definition names_index (target : string) (vm : obj) (index : string) : Prop :=
  index ≠ "" ∧ (member "_index" vm = JStr index ∨ index = target ∧ member "_index" vm = JStr "").
(** A document may also leave the index out. *)
Definition data_index (target : string) (vm : obj) (index : string) : Prop :=
  names_index target vm index ∨ index = target ∧ target ≠ "" ∧ member "_index" vm = JNull.
Definition names_id (vm : obj) (id : string) : Prop := member "_id" vm = JStr id ∨ id = "" ∧ member "_id" vm = JNull.

(** The lines that mean a list of actions; between actions there may be lines that are no
    JSON object, such as empty ones. *)
Inductive means (target : string) : list string → list action → Prop :=
| M_end : means target [] []
| M_skip l e ls acts : unmarshal_object parse_json l = Err e → means target ls acts → means target (l :: ls) acts
| M_write l d op vm index id doc ls acts :
    op ∈ ["index"; "create"; "update"] → unmarshal_object parse_json l = Ok (Some [(op, JObj vm)]) →
    data_index target vm index → names_id vm id → unmarshal_object parse_json d = Ok doc →
    means target ls acts → means target (l :: d :: ls) (Write op index id doc :: acts)
| M_remove l vm index id ls acts :
    unmarshal_object parse_json l = Ok (Some [("delete", JObj vm)]) →
    names_index target vm index → member "_id" vm = JStr id →
    means target ls acts → means target (l :: ls) (Remove_ index id :: acts)
| M_nowhere l vm id ls acts :
    unmarshal_object parse_json l = Ok (Some [("delete", JObj vm)]) →
    member "_index" vm = JNull → member "_id" vm = JStr id →
    means target ls acts → means target (l :: ls) (Remove_nowhere :: acts).

Lemma range_one k v : range [(k, v)] = [(k, v)].
Proof using range_perm. apply Permutation_singleton_r, range_perm. Qed.

Lemma supplied_index target vm index : data_index target vm index →
  let v := if is_empty_string (member "_index" vm) then JStr target else member "_index" vm in
  is_empty_string v = false ∧
  supplied target v target = JStr index.
Proof.
  intros [[Hne [->|[-> ->]]]|(-> & Hne & ->)]; cbn [is_empty_string supplied].
  - by destruct index.
  - by destruct target.
  - split; [done|]. by destruct target.
Qed.
Lemma answer_item_op op : op ∈ ["index"; "create"; "update"] →
  answer_item op = Some ("index", if bool_decide (op = "update") then "updated" else "created").
Proof. rewrite !elem_of_cons. intros [->|[->|[->|H]]]; [done..|]. by apply not_elem_of_nil in H. Qed.
Lemma data_line_write target op vm index id doc res (w : W) : op ∈ ["index"; "create"; "update"] →
  data_index target vm index → names_id vm id →
  data_line target (MkLast (if is_empty_string (member "_index" vm) then JStr target else member "_index" vm) (JStr op) (member "_id" vm))
    doc res w = do_write op index id doc res w.
Proof.
  intros Hop Hix Hid. unfold data_line, do_write. cbn [l_id l_index l_operation].
  assert ((match member "_id" vm with JNull => mret "" | v => lift (assert_str v) end : M W string) w = (Ok id, w)) as E1
    by (destruct Hid as [->|[-> ->]]; done).
  unfold mbind, M_bind. rewrite E1. destruct ((if negb (bool_decide (id = "")) then mret id else on_fst NextDocID) w) as [[docID|e] w1]; [|done].
  destruct (supplied_index _ _ _ Hix) as [_ ->]. cbn [assert_str supplied lift]. unfold lift. by rewrite answer_item_op.
Qed.

Lemma bind_at {A B} (c : M W A) (f : A → M W B) w a w' : c w = (Ok a, w') → (c ≫= f) w = f a w'.
Proof. intros H. unfold mbind, M_bind. by rewrite H. Qed.
Lemma line_write target l op vm index ls err last res (w : W) :
  op ∈ ["index"; "create"; "update"] → unmarshal_object parse_json l = Ok (Some [(op, JObj vm)]) → data_index target vm index →
  bulk_lines target (l :: ls) err false last res w =
  bulk_lines target ls err true
    (MkLast (if is_empty_string (member "_index" vm) then JStr target else member "_index" vm) (JStr op) (member "_id" vm)) res w.
Proof using range_perm.
  intros Hop El Hix. cbn [Bulk.bulk_lines]. rewrite El, (range_one op (JObj vm) : range (default [] (Some [(op, JObj vm)])) = _). cbn [meta_keys meta_key].
  replace (bool_decide (op = "index") || bool_decide (op = "create") || bool_decide (op = "update")) with true
    by (revert Hop; rewrite !elem_of_cons; intros [->|[->|[->|H]]]; [done..|by apply not_elem_of_nil in H]).
  by destruct (supplied_index _ _ _ Hix) as [-> _].
Qed.
Lemma line_remove target l vm index id ls err last res (w : W) :
  unmarshal_object parse_json l = Ok (Some [("delete", JObj vm)]) → names_index target vm index → member "_id" vm = JStr id →
  bulk_lines target (l :: ls) err false last res w =
  (x ← do_remove index id res;
   match x with
   | (res, Some e) => mret (Some res, Some e)
   | (res, None) => bulk_lines target ls err false no_last res
   end) w.
Proof using range_perm.
  intros El [Hne Hix] Hid. cbn [Bulk.bulk_lines]. rewrite El, (range_one "delete" (JObj vm) : range (default [] (Some [("delete", JObj vm)])) = _). cbn [meta_keys meta_key].
  rewrite Hid. cbn [assert_str lift bool_decide]. rewrite bool_decide_eq_false_2 by done.
  assert ((if is_empty_string (member "_index" vm) then mret target else lift (assert_str (member "_index" vm)) : M W string) w =
    (Ok index, w)) as E by (destruct Hix as [->|[-> ->]]; [by destruct index|done]).
  unfold do_remove, mbind, M_bind, lift in *. simpl. rewrite E, bool_decide_eq_false_2 by done.
  destruct (caught (on_fst (GetOrCreate index)) w) as [[[ix|e]|e] w1]; [|done..]. simpl.
  by destruct (caught (on_fst (Delete_ ix id)) w1) as [[x|e] w2].
Qed.

Lemma line_nowhere target l vm id ls err last res (w : W) :
  unmarshal_object parse_json l = Ok (Some [("delete", JObj vm)]) → member "_index" vm = JNull → member "_id" vm = JStr id →
  bulk_lines target (l :: ls) err false last res w = (do_action Remove_nowhere res;; mret (None, None)) w.
Proof using range_perm.
  intros El Hix Hid. cbn [Bulk.bulk_lines]. rewrite El, (range_one "delete" (JObj vm) : range (default [] (Some [("delete", JObj vm)])) = _).
  cbn [meta_keys meta_key]. by rewrite Hid, Hix.
Qed.

(** The item that answers an action. *)
Definition answers (a : action) (x : string * BulkResponseItem) : Prop :=
  match a with
  | Write op index id _ => x.1 = "index" ∧ it_Index x.2 = index ∧ (id ≠ "" → it_ID x.2 = id) ∧
      it_Result x.2 = if bool_decide (op = "update") then "updated" else "created"
  | Remove_ index id => x.1 = "delete" ∧ it_Index x.2 = index ∧ it_ID x.2 = id ∧ it_Result x.2 = "deleted"
  | Remove_nowhere => False
  end.
Definition is_write (a : action) : bool := match a with Write _ _ _ _ => true | _ => false end.
Definition is_removal (a : action) : bool := match a with Remove_ _ _ => true | _ => false end.

(** The answer gets an item for each of some actions, and counts it. *)
Definition grows (acts : list action) (res res' : BulkResponse) : Prop :=
  (∃ items, b_Items res' = b_Items res ++ items ∧ Forall2 answers acts items) ∧
  (is_i64 (b_Count res + Z.of_nat (length acts)) → 0 ≤ b_Count res → b_Count res' = b_Count res + Z.of_nat (length acts)).
Lemma grows_nil res : grows [] res res.
Proof. split; [exists []; by rewrite app_nil_r|]. simpl. lia. Qed.
Lemma grows_app acts acts' res res1 res2 : grows acts res res1 → grows acts' res1 res2 → grows (acts ++ acts') res res2.
Proof.
  intros [(i1 & E1 & F1) C1] [(i2 & E2 & F2) C2]. split.
  - exists (i1 ++ i2). rewrite E2, E1, (assoc_L (++)). split; [done|by apply Forall2_app].
  - rewrite length_app. intros Hi H0. unfold is_i64 in *. rewrite C2, C1 by (rewrite ?C1 by lia; lia). lia.
Qed.
Lemma count_add a res op it : answers a (op, it) → grows [a] res (add_item (count_up res) op it).
Proof.
  intros Ha. split; [exists [(op, it)]; by repeat constructor|]. intros H _. simpl in *. by apply i64_small.
Qed.
Lemma item_spec n index id result err (w w' : W) it : NewBulkResponseItem n index id result err w = (Ok it, w') →
  it_Index it = index ∧ it_ID it = id ∧ it_Result it = result.
Proof. by intros [= <- _]. Qed.
Lemma do_write_grows op index id doc res (w w' : W) r e : do_write op index id doc res w = (Ok (r, e), w') →
  grows [Write op index id doc] res r.
Proof.
  intros (docID & w1 & Hd & H)%bind_ok. apply bind_ok in H as (it & w2 & (E1 & E2 & E3)%item_spec & H).
  assert (answers (Write op index id doc) ("index", it)) as Ha.
  { split_and!; [done|done| |done]. intros Hid. rewrite bool_decide_eq_false_2 in Hd by done. cbn [negb] in Hd.
    injection Hd as <- _. done. }
  apply bind_ok in H as ([ix|e'] & w3 & _ & H).
  - apply bind_ok in H as (x & w4 & _ & [= <- _ _]). by apply count_add.
  - injection H as <- _ _. by apply count_add.
Qed.
Lemma do_remove_grows index id res (w w' : W) r e : do_remove index id res w = (Ok (r, e), w') →
  (e ≠ None ∧ r = res) ∨ (e = None ∧ grows [Remove_ index id] res r).
Proof.
  intros ([ix|e'] & w1 & _ & H)%bind_ok; [|injection H as <- <- _; by left].
  apply bind_ok in H as (x & w2 & _ & H). apply bind_ok in H as (it & w3 & (? & ? & ?)%item_spec & [= <- <- _]).
  right. split; [done|by apply count_add].
Qed.
Lemma do_action_grows a res (w w' : W) r e : do_action a res w = (Ok (r, e), w') →
  grows [a] res r ∧ (e ≠ None → is_write a = true) ∨ e ≠ None ∧ is_removal a = true ∧ r = res.
Proof.
  destruct a as [op index id doc|index id|]; cbn [do_action]; intros H.
  - left. split; [by eapply do_write_grows|done].
  - apply do_remove_grows in H as [[? ->]|[-> ?]]; [by right|by left].
  - apply bind_ok in H as (x & w1 & [=] & _).
Qed.

(** What is answered of a list of actions: all of them; or those up to a write that failed,
    with it; or those before a deletion whose index could not be opened. *)
Definition answered (acts : list action) (err e : option error) (n : nat) : Prop :=
  n = length acts ∧ e = err ∨
  e ≠ None ∧ (∃ m a, n = Datatypes.S m ∧ acts !! m = Some a ∧ is_write a = true) ∨
  e ≠ None ∧ (∃ a, acts !! n = Some a ∧ is_removal a = true).
Lemma run_actions_grows acts err res (w w' : W) r e : run_actions acts err res w = (Ok (r, e), w') →
  ∃ res' n, r = Some res' ∧ grows (take n acts) res res' ∧ (n ≤ length acts)%nat ∧ answered acts err e n.
Proof.
  revert res w. induction acts as [|a acts IH]; intros res w H; cbn [run_actions] in H.
  { injection H as <- <- _. exists res, 0%nat. split_and!; [done|apply grows_nil|done|by left]. }
  apply bind_ok in H as ([res1 e1] & w1 & H1 & H). apply do_action_grows in H1 as [[Hg Hw]|(He & Hrm & ->)].
  - destruct e1 as [e1|].
    + injection H as <- <- _. exists res1, 1%nat. simpl. rewrite take_0. split_and!; [done|done|lia|].
      right; left. split; [done|]. exists 0%nat, a. by split_and!; [| |apply Hw].
    + apply IH in H as (res' & n & -> & Hg' & Hn & Ha). exists res', (Datatypes.S n). simpl.
      split_and!; [done|by apply (grows_app [a] _ _ res1)|lia|].
      destruct Ha as [[-> ->]|[(? & m & b & -> & ? & ?)|(? & b & ? & ?)]]; [by left|right; left|right; right]; (split; [done|]).
      * by exists (Datatypes.S m), b.
      * by exists b.
  - destruct e1 as [e1|]; [|done]. injection H as <- <- _. exists res, 0%nat.
    split_and!; [done|apply grows_nil|lia|]. right; right. split; [done|]. by exists a.
Qed.

(** C16: a body whose lines mean a list of actions (a line of metadata with one
    operation, whose identifiers are texts; a deletion always has an identifier; fewer
    than 2^63 of them) does these actions in order, up to the first write that fails or
    deletion whose index cannot be opened, as the reference that runs the actions; a
    deletion that leaves the index out ends it in a panic. An answer counts its items,
    which answer the actions one by one: all of them when there is no error, else those
    up to a write that failed, with it, or those before the deletion whose index could
    not be opened, without it. *)
Theorem bulk_exact max target body lines err acts (w w' : W) r : Z.of_nat (length acts) < 2 ^ 63 →
  Scan max body = (lines, err) → means target lines acts →
  BulkWorker parse_json range max target body w = (r, w') →
  run_actions acts err empty_response w = (r, w') ∧
  ∀ x e, r = Ok (x, e) → ∃ res n, x = Some res ∧ answered acts err e n ∧
    Forall2 answers (take n acts) (b_Items res) ∧ b_Count res = Z.of_nat (length (b_Items res)).
Proof using range_perm.
  intros Hlen Hs Hm H.
  assert (run_actions acts err empty_response w = (r, w')) as Hr.
  2: { split; [done|]. intros x e ->. apply run_actions_grows in Hr as (res & n & -> & [(items & Hi & Hf) Hc] & Hn & He).
       exists res, n. simpl in *. rewrite Hi. split_and!; [done..|]. rewrite <- (Forall2_length _ _ _ Hf). apply Hc; [|lia].
       rewrite length_take. unfold is_i64. lia. }
  rewrite <- H. symmetry. clear H r w' Hlen. unfold BulkWorker. rewrite Hs. clear Hs. generalize no_last, empty_response, w.
  induction Hm as [|l e ls acts El Hm IH|l d op vm index id doc ls acts Hop El Hix Hid Ed Hm IH|l vm index id ls acts El Hix Hid Hm IH|
    l vm id ls acts El Hix Hid Hm IH];
    intros last res w0; [done|cbn [Bulk.bulk_lines]; by rewrite El| | |].
  - erewrite line_write by done. cbn [Bulk.bulk_lines run_actions do_action]. rewrite Ed. unfold mbind, M_bind.
    erewrite data_line_write by done. destruct (do_write _ _ _ _ _ _) as [[[res' [e|]]|e] w1]; [done|by apply IH|done].
  - erewrite line_remove by done. cbn [run_actions do_action]. unfold mbind, M_bind.
    destruct (do_remove _ _ _ _) as [[[res' [e|]]|e] w1]; [done|by apply IH|done].
  - by erewrite line_nowhere.
Qed.
End meaning.

(** [multi_bulkv2]: documents one per line are the same request as these documents in one
    object: lines that are no JSON object are left out. *)
Theorem multi_bulkv2 {S IX} `{!DocIndexes S IX} parse_json max name body lines (w : S) : Scan max body = (lines, None) →
  MultiWorker parse_json max name body w =
  Bulkv2Worker name (omap (λ l, match unmarshal_object parse_json l with Ok doc => Some doc | Err _ => None end) lines) w.
Proof.
  intros Hs. unfold MultiWorker, Bulkv2Worker. rewrite Hs. clear Hs. unfold mbind at 1 2, M_bind at 1 2.
  destruct (caught (GetOrCreate name) w) as [[[ix|e]|e] w1]; [|done..]. generalize 0. revert w1.
  induction lines as [|l lines IH]; intros w1 count; [done|]. cbn [multi_lines omap list_omap].
  destruct (unmarshal_object parse_json l) as [doc|e]; [|apply IH]. cbn [record_loop]. unfold mbind at 1, M_bind at 1.
  unfold mbind at 1, M_bind at 1. destruct (caught (create_named ix doc) w1) as [[[x|e]|e] w2]; [apply IH|done..].
Qed.

(** ** Inputs *)

Module BulkDemo.

(** The documents that were written, the last first, and the next identifier. *)
Record node := MkNode { written : list (string * string * option obj * bool); next_id : Z }.
#[export] Instance mem_indexes : DocIndexes node string := {
  GetOrCreate name := mret name;
  Create_ ix id doc update := λ n, (Ok (), MkNode ((ix, id, doc, update) :: written n) (next_id n));
  Delete_ ix id := λ n, (Ok (), MkNode ((ix, id, None, true) :: written n) (next_id n));
  NextDocID := λ n, (Ok ("new" +:+ pretty (next_id n)), MkNode (written n) (next_id n + 1));
}.
Definition texts : list (string * json) := [
  ("write-1", JObj [("index", JObj [("_index", JStr "logs"); ("_id", JStr "1")])]);
  ("write-2", JObj [("create", JObj [("_index", JStr "logs"); ("_id", JStr "2")])]);
  ("write", JObj [("index", JObj [])]);
  ("delete-1", JObj [("delete", JObj [("_index", JStr "logs"); ("_id", JStr "1")])]);
  ("delete-here", JObj [("delete", JObj [("_id", JStr "1")])]);
  ("doc-a", JObj [("name", JStr "a")]); ("doc-b", JObj [("name", JStr "b")])].
Definition parse (l : string) : option json := obj_get l texts.
Definition body (ls : list string) : reader := MkReader (String.concat (String "010" "") ls) None.
Definition idle : node * Z := (MkNode [] 7, 100).
Definition worker (target : string) (ls : list string) := BulkWorker parse id 1000 target (body ls) idle.

Definition sample : list string := ["write-1"; "doc-a"; ""; "delete-1"; "write"; "doc-b"].
Definition sample_actions : list action :=
  [Write "index" "logs" "1" (Some [("name", JStr "a")]); Remove_ "logs" "1"; Write "index" "here" "" (Some [("name", JStr "b")])].
Lemma sample_means : means parse "here" sample sample_actions.
Proof.
  eapply M_write; [by left|reflexivity|left; split; [discriminate|by left]|by left|reflexivity|].
  eapply M_skip; [reflexivity|].
  eapply M_remove; [reflexivity|split; [discriminate|by left]|reflexivity|].
  eapply M_write; [by left|reflexivity|right; split; [reflexivity|split; [discriminate|reflexivity]]|right; split; reflexivity|reflexivity|].
  apply M_end.
Qed.
Lemma bulk_exact_witness :
  (worker "here" sample).1 = (run_actions sample_actions None empty_response idle).1 ∧
  b_Count <$> (match (worker "here" sample).1 with Ok (r, _) => r | Err _ => None end) = Some 3.
Proof.
  assert (∀ o : obj, id o ≡ₚ o) as Hid by reflexivity.
  assert (Z.of_nat (length sample_actions) < 2 ^ 63) as Hlen by (simpl; lia).
  assert (Scan 1000 (body sample) = (sample, None)) as Hs by (by vm_compute).
  destruct (worker "here" sample) as [r w'] eqn:E.
  destruct (bulk_exact parse id Hid 1000 "here" (body sample) sample None sample_actions idle w' r Hlen Hs sample_means E) as [H _].
  split; [by rewrite H|]. revert E. vm_compute. by intros [= <- _].
Defined.

Lemma multi_bulkv2_witness :
  (MultiWorker parse 1000 "logs" (body ["doc-a"; "oops"; "doc-b"]) (idle.1)).1 = Ok (2, None) ∧
  MultiWorker parse 1000 "logs" (body ["doc-a"; "oops"; "doc-b"]) (idle.1) =
  Bulkv2Worker "logs" [Some [("name", JStr "a")]; Some [("name", JStr "b")]] (idle.1).
Proof.
  split; [by vm_compute|].
  assert (Scan 1000 (body ["doc-a"; "oops"; "doc-b"]) = (["doc-a"; "oops"; "doc-b"], None)) as Hs by (by vm_compute).
  exact (multi_bulkv2 parse 1000 "logs" (body ["doc-a"; "oops"; "doc-b"]) _ (idle.1) Hs).
Defined.

(** [delete_here_panics]: a deletion that leaves the index out panics, although the address
    names one; a document that does so goes there. *)
Theorem delete_here_panics :
  (∃ e, (worker "logs" ["delete-here"]).1 = Err e ∧ is_panic e = true) ∧
  written (worker "logs" ["write"; "doc-a"]).2.1 = [("logs", "new7", Some [("name", JStr "a")], false)].
Proof. split; [eexists|]; by vm_compute. Qed.

(** [bad_document_shifts]: after a document that cannot be read, the next line of metadata
    is stored as that document, and the document after it is taken for metadata. *)
Theorem bad_document_shifts :
  let '(r, w) := worker "" ["write-1"; "oops"; "write-2"; "doc-b"] in
  written w.1 = [("logs", "1", Some [("create", JObj [("_index", JStr "logs"); ("_id", JStr "2")])], true)] ∧
  r = Ok (None, Some (errors_New "bulk index data format error")).
Proof. by vm_compute. Qed.

(** [format_error_panics]: where the worker answers that the format is wrong, it has no
    answer beside the error, and the handler for Elasticsearch writes the error into it. *)
Theorem format_error_panics :
  (ESBulk parse id 1000 "logs" (body ["doc-a"]) idle).1 = Err nil_panic ∧
  (Bulk parse id 1000 "logs" (body ["doc-a"]) idle).1 = Ok (BulkFailed 500 "bulk index data format error").
Proof. by vm_compute. Qed.
End BulkDemo.
