(* ===== verification/Auth.v ===== *)
(** Users, roles and permissions (pkg/auth, pkg/handlers/auth, pkg/routes): who may send
    which request.

    Users and roles are stored in the metadata ([UserDB]); requests are checked against
    copies in memory. Argon2 with its encoding is a function; what it gave is remembered
    in a cache, which is part of the state. Lower case is that of ASCII. The operations run
    in one piece here; Changes.v takes them apart into the accesses between which other
    requests come. *)
From S2P Require Import Prelude Strings Wire Base62.
#[local] Open Scope Z_scope.

(** ** Users and roles *)

Record User := MkUser { u_ID : string; u_Name : string; u_Role : string; Salt : string; Password : string; u_CreatedAt : Z; u_UpdatedAt : Z }.
Record Role := MkRole { r_ID : string; r_Name : string; Permission : list string; r_CreatedAt : Z; r_UpdatedAt : Z }.

Definition ErrKeyNotFound : error := sentinel "errors.ErrKeyNotFound" "key not found".
Definition ErrInvalidCredentials : error := sentinel "auth.ErrInvalidCredentials" "type: invalid_argument, reason: invalid credentials".
Definition invalid_argument (reason : string) : error := errors_New ("type: invalid_argument, reason: " +:+ reason).

(** The metadata of users and roles, with the clock and the generator of identifiers. *)
Class UserDB (S : Type) := {
  User_Get : string → M S User;
  User_Set : string → User → M S ();
  User_Delete : string → M S ();
  User_List : M S (list User);
  Role_Get : string → M S Role;
  Role_Set : string → Role → M S ();
  Role_Delete : string → M S ();
  Role_List : M S (list Role);
  TimeNow : M S Z;
  NextID : M S Z;
}.

Record world (S : Type) := MkWorld {
  db : S;
  users : gmap string User;  (** ZINC_CACHED_USERS *)
  perms : gmap string (gset string);  (** ZINC_CACHED_PERMISSIONS *)
  hashes : gmap string string;  (** _cacheGeneratePassword *)
}.
Arguments MkWorld {_}. Arguments db {_}. Arguments users {_}. Arguments perms {_}. Arguments hashes {_}.

Section auth.
Context {S : Type} `{!UserDB S} (Argon : string → string → string).
#[local] Abbreviation W := (world S).

Definition on_db {A} : M S A → M W A := zoom db (λ s w, MkWorld s (users w) (perms w) (hashes w)).
Definition set_users (f : gmap string User → gmap string User) : M W () :=
  modify (λ w, MkWorld (db w) (f (users w)) (perms w) (hashes w)).
Definition set_perms (f : gmap string (gset string) → gmap string (gset string)) : M W () :=
  modify (λ w, MkWorld (db w) (users w) (f (perms w)) (hashes w)).

(** *** Credentials *)

Definition GeneratePassword (password salt : string) : M W string :=
  let key := password +:+ ":" +:+ salt in
  w ← get_state;
  match hashes w !! key with
  | Some v => mret v
  | None =>
      let val := Argon password salt in
      modify (λ w, MkWorld (db w) (users w) (perms w) (<[key := val]> (hashes w)));;
      mret val
  end.
Definition GenerateSalt : M W string := n ← on_db NextID; mret (Encode62 n).

Definition VerifyCredentials (userID password : string) : M W (option User) :=
  w ← get_state;
  match users w !! to_lower userID with
  | None => mret None
  | Some user =>
      incoming ← GeneratePassword password (Salt user);
      mret (if decide (incoming = Password user) then Some user else None)
  end.

Definition VerifyRoleHasPermission (roleId permission : string) (w : W) : bool :=
  let roleId := to_lower roleId in
  bool_decide (roleId = "admin") ||
  match perms w !! roleId with Some pm => bool_decide (permission ∈ pm) | None => false end.

(** *** Users *)

(** [user, ok, err] of [GetUser]: no user where there is none. *)
Definition GetUser (id : string) : M W (option User) :=
  if decide (id = "") then throw (invalid_argument "user id is required")
  else
    r ← try (on_db (User_Get id));
    match r with
    | Ok u => mret (Some u)
    | Err e => if errors_Is e ErrKeyNotFound then mret None else throw e
    end.

Definition with_password (u : User) (plaintext : string) : M W User :=
  salt ← GenerateSalt;
  hash ← GeneratePassword plaintext salt;
  mret (MkUser (u_ID u) (u_Name u) (u_Role u) salt hash (u_CreatedAt u) (u_UpdatedAt u)).

(** The user [CreateUser] makes, before it is stored. *)
Definition new_user (id name plaintext role : string) : M W User :=
  existing ← GetUser id;
  match existing with
  | Some u =>
      u ← (if decide (plaintext = "") then mret u else with_password u plaintext);
      t ← on_db TimeNow;
      mret (MkUser (u_ID u) name role (Salt u) (Password u) (u_CreatedAt u) t)
  | None =>
      t1 ← on_db TimeNow;
      t2 ← on_db TimeNow;
      with_password (MkUser id name role "" "" t1 t2) plaintext
  end.
(** The two writes at the end of [CreateUser] and of [UpdateAccount]. *)
Definition save_user (u : User) : M W User :=
  on_db (User_Set (u_ID u) u);;
  set_users <[u_ID u := u]>;;
  mret u.
Definition CreateUser (id name plaintext role : string) : M W User :=
  newUser ← new_user (to_lower id) name plaintext role;
  save_user newUser.

Definition DeleteUser (id : string) : M W () :=
  let id := to_lower id in
  set_users (delete id);;
  on_db (User_Delete id).

(** The user [UpdateAccount] makes of the one whose password was given. *)
Definition changed_account (id password name newPassword : string) : M W User :=
  if bool_decide (name = "") && bool_decide (newPassword = "") then
    throw (invalid_argument "name or new password is required")
  else
    v ← VerifyCredentials id password;
    match v with
    | None => throw ErrInvalidCredentials
    | Some user =>
        let u := if decide (name = "") then user
                 else MkUser (u_ID user) name (u_Role user) (Salt user) (Password user) (u_CreatedAt user) (u_UpdatedAt user) in
        u ← (if decide (newPassword = "") then mret u else with_password u newPassword);
        t ← on_db TimeNow;
        mret (MkUser (u_ID u) (u_Name u) (u_Role u) (Salt u) (Password u) (u_CreatedAt u) t)
    end.
Definition UpdateAccount (id password name newPassword : string) : M W User :=
  updated ← changed_account id password name newPassword;
  save_user updated.

(** *** Roles *)

Definition strArrayToMap (ss : list string) : gset string := list_to_set ss.

Definition GetRole (id : string) : M W (option Role) :=
  if decide (id = "") then throw (invalid_argument "role id is required")
  else
    r ← try (on_db (Role_Get id));
    match r with
    | Ok u => mret (Some u)
    | Err e => if errors_Is e ErrKeyNotFound then mret None else throw e
    end.

(** The role [CreateRole] makes, before it is stored. *)
Definition new_role (id name : string) (permissions : list string) : M W Role :=
  if decide (id = "admin") then throw (invalid_argument "role id admin not allowed")
  else
    existing ← GetRole id;
    match existing with
    | Some r => t ← on_db TimeNow; mret (MkRole (r_ID r) name permissions (r_CreatedAt r) t)
    | None => t1 ← on_db TimeNow; t2 ← on_db TimeNow; mret (MkRole id name permissions t1 t2)
    end.
(** The two writes at its end; [permissions] is [newRole.Permission] by then. *)
Definition save_role (ro : Role) : M W Role :=
  on_db (Role_Set (r_ID ro) ro);;
  set_perms <[r_ID ro := strArrayToMap (Permission ro)]>;;
  mret ro.
Definition CreateRole (id name : string) (permissions : list string) : M W Role :=
  newRole ← new_role (to_lower id) name permissions;
  save_role newRole.

Definition DeleteRole (id : string) : M W () :=
  let id := to_lower id in
  set_perms (delete id);;
  on_db (Role_Delete id).

(** *** The start of the process *)

Fixpoint cache_users (us : list User) : M W () :=
  match us with [] => mret () | u :: us => set_users <[u_ID u := u]>;; cache_users us end.
Fixpoint cache_roles (rs : list Role) : M W () :=
  match rs with [] => mret () | r :: rs => set_perms <[r_ID r := strArrayToMap (Permission r)]>;; cache_roles rs end.

(** The error of [isFirstStart] is only logged, and it comes with [true]. *)
Definition isFirstStart : M W bool :=
  r ← try (on_db User_List);
  match r with
  | Err _ | Ok [] => mret true
  | Ok us => cache_users us;; mret false
  end.
Definition initPermissionCache : M W () := rs ← on_db Role_List; cache_roles rs.
Definition initFirstUser (adminUser adminPassword : string) : M W () :=
  if bool_decide (adminUser = "") || bool_decide (adminPassword = "") then
    throw (errors_New "set ZINC_FIRST_ADMIN_USER and ZINC_FIRST_ADMIN_PASSWORD")
  else CreateUser adminUser adminUser adminPassword "admin";; mret ().
(** An error ends the process. *)
Definition auth_init (adminUser adminPassword : string) : M W () :=
  first ← isFirstStart;
  (if first : bool then initFirstUser adminUser adminPassword else mret ());;
  ignore initPermissionCache.

(** ** Requests *)

Inductive reply_to :=
| Next  (** the handler is called *)
| Json (code : Z) (text : string).

(** [creds]: what [BasicAuth] finds in the header. *)
Definition AuthMiddleware (permission : string) (creds : option (string * string)) : M W reply_to :=
  match creds with
  | None => mret (Json 401 "Missing credentials")
  | Some (user, password) =>
      v ← VerifyCredentials user password;
      match v with
      | None => mret (Json 401 "Invalid credentials")
      | Some u =>
          w ← get_state;
          mret (if VerifyRoleHasPermission (u_Role u) permission w then Next else Json 403 ("No permission:" +:+ permission))
      end
  end.
End auth.

(** ** Laws *)

(** What the metadata promises whichever store it is: a write that fails may have been done
    all the same, as a [Put] of etcd that times out. *)
Class UserPromises (S : Type) `{!UserDB S} := {
  urows : S → gmap string User;
  rrows : S → gmap string Role;
  same_rows (s s' : S) := urows s' = urows s ∧ rrows s' = rrows s;
  User_Get_law k s r s' : User_Get k s = (r, s') → same_rows s s' ∧
    match r with Ok u => urows s !! k = Some u | Err e => errors_Is e ErrKeyNotFound = true → urows s !! k = None end;
  User_Set_law k u s r s' : User_Set k u s = (r, s') → rrows s' = rrows s ∧
    (urows s' = <[k := u]> (urows s) ∨ is_ok r = false ∧ urows s' = urows s);
  User_Delete_law k s r s' : User_Delete k s = (r, s') → rrows s' = rrows s ∧
    (urows s' = delete k (urows s) ∨ is_ok r = false ∧ urows s' = urows s);
  User_List_law s r s' : User_List s = (r, s') → same_rows s s' ∧
    ∀ l, r = Ok l → ∀ u, u ∈ l ↔ ∃ k, urows s !! k = Some u;
  Role_Get_law k s r s' : Role_Get k s = (r, s') → same_rows s s' ∧
    match r with Ok u => rrows s !! k = Some u | Err e => errors_Is e ErrKeyNotFound = true → rrows s !! k = None end;
  Role_Set_law k u s r s' : Role_Set k u s = (r, s') → urows s' = urows s ∧
    (rrows s' = <[k := u]> (rrows s) ∨ is_ok r = false ∧ rrows s' = rrows s);
  Role_Delete_law k s r s' : Role_Delete k s = (r, s') → urows s' = urows s ∧
    (rrows s' = delete k (rrows s) ∨ is_ok r = false ∧ rrows s' = rrows s);
  Role_List_law s r s' : Role_List s = (r, s') → same_rows s s' ∧
    ∀ l, r = Ok l → ∀ u, u ∈ l ↔ ∃ k, rrows s !! k = Some u;
  TimeNow_law s r s' : TimeNow s = (r, s') → same_rows s s';
  NextID_law s r s' : NextID s = (r, s') → same_rows s s' ∧ ∀ n, r = Ok n → 0 < n < 2 ^ 63;
}.

(** What the stores with transactions (bolt, badger) promise besides: a write that fails has
    changed nothing. *)
Class UserLaws (S : Type) `{!UserDB S} := {
  UserLaws_promises :: UserPromises S;
  User_Set_failed k u s e s' : User_Set k u s = (Err e, s') → urows s' = urows s;
  User_Delete_failed k s e s' : User_Delete k s = (Err e, s') → urows s' = urows s;
  Role_Set_failed k u s e s' : Role_Set k u s = (Err e, s') → rrows s' = rrows s;
  Role_Delete_failed k s e s' : Role_Delete k s = (Err e, s') → rrows s' = rrows s;
}.

(** ** Identifiers have no colon *)

Definition no_colon (s : string) : Prop := Contains s ":" = false.
Lemma Encode62_no_colon num : no_colon (Encode62 num).
Proof. eapply all_bytes_not_Contains; [|apply Encode62_alnum]. done. Qed.
Lemma no_colon_split p s p' s' : no_colon s → no_colon s' → p +:+ ":" +:+ s = p' +:+ ":" +:+ s' → p = p' ∧ s = s'.
Proof.
  intros Hs Hs'. unfold no_colon in *. revert p'. induction p as [|c p IH]; intros [|c' p'] E; simpl in E.
  - by injection E as ->.
  - injection E as _ E. rewrite E in Hs. change (p' +:+ String ":" s') with (p' +:+ (":" +:+ s')) in Hs. by rewrite Contains_append in Hs.
  - injection E as _ E. rewrite <- E in Hs'. change (p +:+ String ":" s) with (p +:+ (":" +:+ s)) in Hs'. by rewrite Contains_append in Hs'.
  - injection E as -> E. destruct (IH p' E) as [-> ->]. done.
Qed.

(** ** The copies in memory *)

(** A deletion that fails has removed the row, or not. *)
Lemma delete_or_not {V} (m m' : gmap string V) k (b : bool) : (m' = delete k m ∨ b = false ∧ m' = m) → m' ⊆ m ∧ ∀ j, j ≠ k → m' !! j = m !! j.
Proof.
  intros [->|[_ ->]]; [|done]. split; [apply delete_subseteq|]. intros j Hj. by rewrite lookup_delete_ne.
Qed.

Section looking.
Context {S : Type} `{!UserDB S, !UserPromises S} (Argon : string → string → string).
#[local] Set Default Proof Using "All".
#[local] Abbreviation W := (world S).

Record rows_ok (s : S) : Prop := {
  ro_users k u : urows s !! k = Some u → u_ID u = k ∧ no_colon (Salt u);
  ro_roles k r : rrows s !! k = Some r → r_ID r = k;
}.
(** What is remembered is what the function gives. *)
Definition hashes_ok (hs : gmap string string) : Prop :=
  ∀ k v, hs !! k = Some v → ∃ p s, k = p +:+ ":" +:+ s ∧ no_colon s ∧ v = Argon p s.
(** The users in memory have their own identifiers. *)
Definition cache_ok (w : W) : Prop :=
  hashes_ok (hashes w) ∧ ∀ k u, users w !! k = Some u → u_ID u = k ∧ no_colon (Salt u).
(** What is in memory is stored. *)
Record inv (w : W) : Prop := {
  inv_rows : rows_ok (db w);
  inv_users k u : users w !! k = Some u → urows (db w) !! k = Some u;
  inv_perms k ps : perms w !! k = Some ps → ∃ r, rrows (db w) !! k = Some r ∧ ps = strArrayToMap (Permission r);
  inv_hashes : hashes_ok (hashes w);
}.
Lemma inv_cache w : inv w → cache_ok w.
Proof. intros Hw. split; [apply Hw|]. intros k u Hu. by apply (ro_users _ (inv_rows _ Hw)), (inv_users _ Hw). Qed.
(** Steps that look at accounts only: all that may change is what is remembered of the
    function. *)
Definition peeks (w w' : W) : Prop :=
  same_rows (db w) (db w') ∧ users w' = users w ∧ perms w' = perms w ∧ (hashes_ok (hashes w) → hashes_ok (hashes w')).
#[local] Instance peeks_preorder : PreOrder peeks.
Proof.
  unfold peeks, same_rows. split; [by intros w|].
  intros a b c ([? ?] & ? & ? & ?) ([? ?] & ? & ? & ?). split_and!; try congruence. auto.
Qed.
Definition looks (w w' : W) : Prop :=
  inv w → inv w' ∧ same_rows (db w) (db w') ∧ users w' = users w ∧ perms w' = perms w.
#[local] Instance looks_preorder : PreOrder looks.
Proof.
  split; [by intros w Hw|]. intros a b c Hab Hbc Ha. destruct (Hab Ha) as (Hb & [? ?] & ? & ?).
  destruct (Hbc Hb) as (Hc & [? ?] & ? & ?). unfold same_rows. split_and!; congruence.
Qed.
Lemma peeks_looks (w w' : W) : peeks w w' → looks w w'.
Proof.
  intros ([Eu Er] & Eus & Eps & Hh) [[R1 R2] U P Hr]. split_and!; try done.
  split; rewrite ?Eus, ?Eps, ?Eu, ?Er; [|done|done|by apply Hh]. split; rewrite ?Eu, ?Er; done.
Qed.
Lemma peeks_cache (w w' : W) : peeks w w' → cache_ok w → cache_ok w'.
Proof. intros (_ & Eus & _ & Hh) [Hc Hu]. split; [by apply Hh|]. by rewrite Eus. Qed.
Lemma peeks_rows (w w' : W) : peeks w w' → rows_ok (db w) → rows_ok (db w').
Proof. intros ([Eu Er] & _) [R1 R2]. split; rewrite ?Eu, ?Er; done. Qed.

Lemma on_db_peeks {A} (c : M S A) : (∀ s r s', c s = (r, s') → same_rows s s') → keeps peeks (on_db c).
Proof.
  intros Hc w r w' H. unfold on_db, zoom in H. destruct (c (db w)) as [x s'] eqn:E. injection H as _ <-.
  specialize (Hc _ _ _ E). by split_and!.
Qed.
Lemma on_db_looks {A} (c : M S A) : (∀ s r s', c s = (r, s') → same_rows s s') → keeps looks (on_db c).
Proof. intros Hc w r w' H. by eapply peeks_looks, on_db_peeks. Qed.
Lemma TimeNow_peeks : keeps peeks (on_db TimeNow : M W Z).
Proof. apply on_db_peeks. intros s r s'. apply TimeNow_law. Qed.
Lemma NextID_peeks : keeps peeks (on_db NextID : M W Z).
Proof. apply on_db_peeks. intros s r s' H. by apply NextID_law in H as [? _]. Qed.
Lemma User_Get_peeks k : keeps peeks (on_db (User_Get k) : M W User).
Proof. apply on_db_peeks. intros s r s' H. by apply User_Get_law in H as [? _]. Qed.
Lemma Role_Get_peeks k : keeps peeks (on_db (Role_Get k) : M W Role).
Proof. apply on_db_peeks. intros s r s' H. by apply Role_Get_law in H as [? _]. Qed.
Lemma GeneratePassword_peeks p salt : no_colon salt → keeps peeks (GeneratePassword Argon p salt : M W string).
Proof.
  intros Hs w r w' H. unfold GeneratePassword in H. apply bind_inv in H as [(e & [=] & _)|(w0 & w1 & [= <- <-] & H)].
  destruct (hashes w !! _); injection H as _ <-; [done|]. split_and!; try done. intros Hh k v. simpl.
  intros [(<- & <-)|[_ Hk]]%lookup_insert_Some; [by exists p, salt|by apply Hh].
Qed.
#[local] Hint Resolve TimeNow_peeks NextID_peeks User_Get_peeks Role_Get_peeks GeneratePassword_peeks : keeps.
Lemma with_password_peeks u p : keeps peeks (with_password Argon u p : M W User).
Proof.
  intros w r w' H. unfold with_password, GenerateSalt in H.
  assert (∀ n, no_colon (Encode62 n)) as Hn by apply Encode62_no_colon.
  apply bind_inv in H as [(e & H & ->)|(salt & w1 & H & H')].
  - apply bind_inv in H as [(e' & H & _)|(n & w2 & H & [=])]. by apply NextID_peeks in H.
  - apply bind_inv in H as [(e & _ & [=])|(n & w2 & H & [= <- <-])]. apply NextID_peeks in H. etrans; [exact H|].
    apply bind_inv in H' as [(e & H' & _)|(h & w3 & H' & [= _ <-])]; by apply GeneratePassword_peeks in H'.
Qed.
#[local] Hint Resolve with_password_peeks : keeps.
Lemma GetUser_peeks id : keeps peeks (GetUser id : M W (option User)).
Proof. unfold GetUser. solve_keeps. Qed.
Lemma GetRole_peeks id : keeps peeks (GetRole id : M W (option Role)).
Proof. unfold GetRole. solve_keeps. Qed.
#[local] Hint Resolve GetUser_peeks GetRole_peeks : keeps.
Lemma new_user_peeks id name p role : keeps peeks (new_user Argon id name p role : M W User).
Proof. unfold new_user. solve_keeps. Qed.
Lemma new_role_peeks id name ps : keeps peeks (new_role id name ps : M W Role).
Proof. unfold new_role. solve_keeps. Qed.

Lemma GeneratePassword_spec p salt (w w' : W) r : hashes_ok (hashes w) → no_colon salt →
  GeneratePassword Argon p salt w = (r, w') → r = Ok (Argon p salt).
Proof.
  intros Hw Hs H. unfold GeneratePassword in H. apply bind_inv in H as [(e & [=] & _)|(w0 & w1 & [= <- <-] & H)].
  destruct (hashes w !! _) as [v|] eqn:E; [|by injection H as <- _].
  injection H as <- _. destruct (Hw _ _ E) as (p' & s' & Ek & Hs' & ->). by apply no_colon_split in Ek as [-> ->].
Qed.

Lemma VerifyCredentials_spec id p (w w' : W) r : cache_ok w → VerifyCredentials Argon id p w = (r, w') →
  peeks w w' ∧ ∃ v, r = Ok v ∧ ∀ u, v = Some u ↔ users w !! to_lower id = Some u ∧ Argon p (Salt u) = Password u.
Proof.
  intros [Hh Hu] H. unfold VerifyCredentials in H. apply bind_inv in H as [(e & [=] & _)|(w0 & w1 & [= <- <-] & H)].
  destruct (users w !! to_lower id) as [user|] eqn:E.
  - destruct (Hu _ _ E) as [_ Hs].
    apply bind_inv in H as [(e & H & _)|(h & w1 & H & H')]; pose proof (GeneratePassword_spec _ _ _ _ _ Hh Hs H) as Er; [done|].
    apply GeneratePassword_peeks in H; [|done]. injection Er as ->. injection H' as <- <-. split; [done|]. eexists. split; [done|].
    intros u. case_decide as Hd; [|naive_solver congruence]. split; [intros [= <-]; done|intros [[= ->] _]; done].
  - injection H as <- <-. split; [done|]. eexists. split; [done|]. intros u. naive_solver.
Qed.

(** *** Who passes *)

Lemma AuthMiddleware_spec perm creds (w w' : W) r : cache_ok w → AuthMiddleware Argon perm creds w = (r, w') →
  peeks w w' ∧ ∃ a, r = Ok a ∧
  (a = Next ↔ ∃ id p u, creds = Some (id, p) ∧ users w !! to_lower id = Some u ∧ Password u = Argon p (Salt u) ∧
     (to_lower (u_Role u) = "admin" ∨ ∃ ps, perms w !! to_lower (u_Role u) = Some ps ∧ perm ∈ ps)) ∧
  (a ≠ Next → ∃ text, a = Json 401 text ∨ a = Json 403 text).
Proof.
  intros Hw H. unfold AuthMiddleware in H. destruct creds as [[id p]|].
  2: { injection H as <- <-. split; [done|]. eexists. split; [done|]. split; [split; [done|naive_solver]|eauto]. }
  apply bind_inv in H as [(e & H & _)|(v & w1 & H & H')].
  { by apply VerifyCredentials_spec in H as (_ & ? & [=] & _). }
  apply VerifyCredentials_spec in H as (Hl & ? & [= <-] & Hv); [|done]. destruct v as [u|].
  - destruct (Hv u) as [Hu _]. destruct (Hu eq_refl) as [Hk Hp].
    apply bind_inv in H' as [(e & [=] & _)|(w2 & w3 & [= <- <-] & H')]. injection H' as <- <-. split; [done|].
    pose proof Hl as (_ & _ & Hperms & _). eexists. split; [done|].
    assert (VerifyRoleHasPermission (u_Role u) perm w1 = true ↔
      (to_lower (u_Role u) = "admin" ∨ ∃ ps, perms w !! to_lower (u_Role u) = Some ps ∧ perm ∈ ps)) as Hr.
    { unfold VerifyRoleHasPermission. rewrite Hperms, orb_true_iff, bool_decide_eq_true.
      destruct (perms w !! _) as [pm|]; [rewrite bool_decide_eq_true|]; naive_solver. }
    destruct (VerifyRoleHasPermission _ _ _).
    + split; [|done]. split; [|done]. intros _. exists id, p, u. split_and!; try done. by apply Hr.
    + split; [|eauto]. split; [done|]. intros (id' & p' & u' & [= <- <-] & Hk' & _ & Hor). rewrite Hk in Hk'. injection Hk' as <-.
      by apply Hr in Hor.
  - injection H' as <- <-. split; [done|]. eexists. split; [done|]. split; [|eauto]. split; [done|].
    intros (id' & p' & u' & [= <- <-] & Hk & Hp & _). discriminate (proj2 (Hv u') (conj Hk (eq_sym Hp))).
Qed.

(** [access_exact]: a request passes exactly when its user is known, the password is theirs,
    and their role is admin or has the permission; in every case the accounts stay. *)
Theorem access_exact perm creds (w w' : W) r : inv w → AuthMiddleware Argon perm creds w = (r, w') →
  looks w w' ∧ ∃ a, r = Ok a ∧
  (a = Next ↔ ∃ id p u, creds = Some (id, p) ∧ users w !! to_lower id = Some u ∧ Password u = Argon p (Salt u) ∧
     (to_lower (u_Role u) = "admin" ∨ ∃ ps, perms w !! to_lower (u_Role u) = Some ps ∧ perm ∈ ps)) ∧
  (a ≠ Next → ∃ text, a = Json 401 text ∨ a = Json 403 text).
Proof.
  intros Hw H. apply AuthMiddleware_spec in H as (Hl & Ha); [|by apply inv_cache]. split; [by apply peeks_looks|done].
Qed.

(** *** Every operation keeps them *)

Lemma looks_inv (w w' : W) : inv w → looks w w' → inv w'.
Proof. intros Hw H. by apply H. Qed.
Lemma looks_rows (w w' : W) : inv w → looks w w' → urows (db w') = urows (db w) ∧ rrows (db w') = rrows (db w).
Proof. intros Hw H. by apply H. Qed.

Lemma with_password_ok u p u' (w w' : W) : hashes_ok (hashes w) → with_password Argon u p w = (Ok u', w') →
  u_ID u' = u_ID u ∧ u_Role u' = u_Role u ∧ no_colon (Salt u') ∧ Password u' = Argon p (Salt u').
Proof.
  intros Hw H. unfold with_password, GenerateSalt in H. apply bind_ok in H as (salt & w1 & H & H').
  apply bind_ok in H as (n & w2 & H & [= <- <-]). apply NextID_peeks in H as (_ & _ & _ & Hh).
  apply bind_ok in H' as (h & w3 & H' & [= <- _]). pose proof (Encode62_no_colon n) as Hc.
  apply GeneratePassword_spec in H' as [= ->]; [|by apply Hh|done]. by split_and!.
Qed.

Lemma GetUser_spec id (w w' : W) u : GetUser id w = (Ok (Some u), w') → urows (db w) !! id = Some u.
Proof using UserPromises0.
  unfold GetUser. case_decide as Hid; [by intros [=]|]. intros H. unfold on_db, zoom in H. run_unfold.
  destruct (User_Get id (db w)) as [x s'] eqn:E. apply User_Get_law in E as [Hs Hx].
  destruct x as [u'|e]; [|destruct (errors_Is e ErrKeyNotFound)]; by simplify_eq/=.
Qed.
Lemma GetRole_spec id (w w' : W) u : GetRole id w = (Ok (Some u), w') → rrows (db w) !! id = Some u.
Proof using UserPromises0.
  unfold GetRole. case_decide as Hid; [by intros [=]|]. intros H. unfold on_db, zoom in H. run_unfold.
  destruct (Role_Get id (db w)) as [x s'] eqn:E. apply Role_Get_law in E as [Hs Hx].
  destruct x as [u'|e]; [|destruct (errors_Is e ErrKeyNotFound)]; by simplify_eq/=.
Qed.

Lemma new_user_ok id name p role u (w w' : W) : rows_ok (db w) → hashes_ok (hashes w) →
  new_user Argon id name p role w = (Ok u, w') →
  no_colon (Salt u) ∧ u_ID u = id ∧ u_Role u = role ∧ (p ≠ "" → Password u = Argon p (Salt u)).
Proof.
  intros Hw Hh H. unfold new_user in H. apply bind_ok in H as (ex & w1 & H & Hu).
  pose proof (GetUser_peeks _ _ _ _ H) as (_ & _ & _ & Hh1). specialize (Hh1 Hh). destruct ex as [old|].
  - apply GetUser_spec, (ro_users _ Hw) in H as [Hid Hc].
    apply bind_ok in Hu as (u1 & w3 & H1 & Hu). apply bind_ok in Hu as (t & w4 & _ & [= <- _]). simpl.
    case_decide; [by injection H1 as <- _|]. apply with_password_ok in H1 as (? & ? & ? & ?); [|done]. split_and!; congruence.
  - apply bind_ok in Hu as (t1 & w3 & H1 & Hu). apply bind_ok in Hu as (t2 & w4 & H2 & Hu).
    apply TimeNow_peeks in H1 as (_ & _ & _ & H1), H2 as (_ & _ & _ & H2).
    apply with_password_ok in Hu as (? & ? & ? & ?); [by split_and!|auto].
Qed.
Lemma new_role_ok id name ps ro (w w' : W) : new_role id name ps w = (Ok ro, w') → Permission ro = ps.
Proof using Type.
  unfold new_role. case_decide as Hd; [by intros [=]|]. intros (ex & w1 & _ & H)%bind_ok. destruct ex.
  - by apply bind_ok in H as (? & ? & _ & [= <- _]).
  - apply bind_ok in H as (? & ? & _ & H). by apply bind_ok in H as (? & ? & _ & [= <- _]).
Qed.
Lemma changed_account_spec id p name np (w w' : W) r : cache_ok w → changed_account Argon id p name np w = (r, w') →
  peeks w w' ∧ ∀ u, r = Ok u → no_colon (Salt u) ∧ u_ID u = to_lower id ∧ (np ≠ "" → Password u = Argon np (Salt u)) ∧
    ∃ old, users w !! to_lower id = Some old ∧ Argon p (Salt old) = Password old ∧ u_Role u = u_Role old.
Proof.
  intros Hw H. unfold changed_account in H. destruct (_ && _); [by injection H as <- <-|].
  apply bind_inv in H as [(e & H & ->)|(v & w1 & H & H')]; apply VerifyCredentials_spec in H as (Hl1 & ? & Ev & Hv); try done.
  injection Ev as <-. destruct v as [user|]; [|by injection H' as <- <-].
  destruct (proj1 (Hv user) eq_refl) as [Hu Hp]. pose proof Hw as [Hh Hus]. apply Hus in Hu as Hrow. destruct Hrow as [Hid Hc].
  set (u0 := if decide (name = "") then user else _) in H'.
  assert (u_ID u0 = u_ID user ∧ Salt u0 = Salt user ∧ u_Role u0 = u_Role user) as (Hid0 & Hs0 & Hr0)
    by (clear H'; unfold u0; destruct (decide (name = "")); done).
  clearbody u0. split.
  { etrans; [exact Hl1|]. match type of H' with ?c _ = _ => assert (keeps peeks c) as Hk by solve_keeps end. by eapply Hk. }
  intros u ->. apply bind_ok in H' as (u1 & w3 & H1 & Hu1). apply bind_ok in Hu1 as (t & w4 & _ & [= <- _]). simpl.
  case_decide; [injection H1 as <- _; split; [congruence|]; split_and!; try done; [congruence|exists user; split_and!; congruence]|].
  apply with_password_ok in H1 as (? & ? & ? & ?); [|by apply (peeks_cache w w1) in Hw as [? _]].
  split_and!; [done|congruence|done|]. exists user. split_and!; congruence.
Qed.
(** *** The start *)

Lemma inv_same w s : inv w → same_rows (db w) s → inv (MkWorld s (users w) (perms w) (hashes w)).
Proof. intros Hw Hs. by apply (peeks_looks w (MkWorld s (users w) (perms w) (hashes w))). Qed.
Lemma cache_users_inv us (w w' : W) r : inv w → (∀ u, u ∈ us → ∃ k, urows (db w) !! k = Some u) → cache_users us w = (r, w') → inv w'.
Proof.
  revert w. induction us as [|u us IH]; intros w Hw Hus H; cbn [cache_users] in H; [by injection H as _ <-|].
  apply bind_inv in H as [(e & [=] & _)|(v & w1 & [= _ <-] & H)]. eapply IH in H; [done| |].
  - destruct Hw as [R U P Hh]. split; simpl; try done. intros k v' [(<- & <-)|[_ Hk]]%lookup_insert_Some; [|by apply U].
    destruct (Hus u) as [k Hk]; [by left|]. by destruct (ro_users _ R _ _ Hk) as [-> _].
  - intros u' Hu'. simpl. apply Hus. by right.
Qed.
Lemma cache_roles_inv us (w w' : W) r : inv w → (∀ u, u ∈ us → ∃ k, rrows (db w) !! k = Some u) → cache_roles us w = (r, w') → inv w'.
Proof.
  revert w. induction us as [|u us IH]; intros w Hw Hus H; cbn [cache_roles] in H; [by injection H as _ <-|].
  apply bind_inv in H as [(e & [=] & _)|(v & w1 & [= _ <-] & H)]. eapply IH in H; [done| |].
  - destruct Hw as [R U P Hh]. split; simpl; try done. intros k v' [(<- & <-)|[_ Hk]]%lookup_insert_Some; [|by apply P].
    destruct (Hus u) as [k Hk]; [by left|]. exists u. by destruct (ro_roles _ R _ _ Hk).
  - intros u' Hu'. simpl. apply Hus. by right.
Qed.
Lemma save_user_ok u u' (w w' : W) : inv w → no_colon (Salt u) → save_user u w = (Ok u', w') → inv w'.
Proof.
  intros [[R1 R2] U P Hh] Hs H. unfold save_user, on_db, zoom in H. run_unfold.
  destruct (User_Set (u_ID u) u (db w)) as [x s'] eqn:E. apply User_Set_law in E as [Er Eu].
  destruct x as [[]|e]; [|done]. unfold set_users, modify in H. destruct Eu as [Eu|[? _]]; [|done]. simplify_eq/=.
  split; simpl; rewrite ?Er, ?Eu; try done.
  - split; rewrite ?Er, ?Eu; [|done]. intros k v [(<- & <-)|[_ Hk]]%lookup_insert_Some; [done|by apply R1].
  - intros k v [(<- & <-)|[Hne Hk]]%lookup_insert_Some; [by rewrite lookup_insert_eq|].
    rewrite lookup_insert_ne by done. by apply U.
Qed.
Lemma CreateUser_ok id name p role u (w w' : W) : inv w → CreateUser Argon id name p role w = (Ok u, w') → inv w'.
Proof.
  intros Hw H. unfold CreateUser in H. apply bind_ok in H as (u1 & w1 & H & H'). pose proof H as Hl.
  apply new_user_ok in H as (Hs & _); [|apply Hw..]. eapply save_user_ok; [|exact Hs|exact H'].
  apply new_user_peeks in Hl. by apply (peeks_looks _ _ Hl).
Qed.
Lemma isFirstStart_inv (w w' : W) r : inv w → isFirstStart w = (r, w') → inv w'.
Proof.
  intros Hw H. unfold isFirstStart, on_db, zoom in H. run_unfold.
  destruct (User_List (db w)) as [l s'] eqn:E. apply User_List_law in E as [Hs Hin]. pose proof (inv_same _ _ Hw Hs) as Hw'.
  destruct l as [[|u us]|e]; [by injection H as _ <-| |by injection H as _ <-].
  match type of H with context [cache_users ?l ?w0] => destruct (cache_users l w0) as [y w3] eqn:Ec end.
  eapply cache_users_inv in Ec; [|exact Hw'|]; [destruct y; by injection H as _ <-|].
  intros v Hv. simpl. destruct Hs as [-> _]. by apply (Hin _ eq_refl).
Qed.
Lemma initPermissionCache_inv (w w' : W) r : inv w → ignore initPermissionCache w = (r, w') → inv w'.
Proof.
  intros Hw [y Hx]%ignore_run. unfold initPermissionCache, on_db, zoom in Hx. run_unfold.
  destruct (Role_List (db w)) as [l s'] eqn:E. apply Role_List_law in E as [Hs Hin]. pose proof (inv_same _ _ Hw Hs) as Hw'.
  destruct l as [us|e]; [|by injection Hx as _ <-]. eapply cache_roles_inv in Hx; [done|exact Hw'|].
  intros v Hv. simpl. destruct Hs as [_ ->]. by apply (Hin _ eq_refl).
Qed.
(** Whatever was stored when the process started. *)
Lemma auth_init_inv adminUser adminPassword (s : S) (w : W) : rows_ok s →
  auth_init Argon adminUser adminPassword (MkWorld s ∅ ∅ ∅) = (Ok (), w) → inv w.
Proof.
  intros Hs H. unfold auth_init in H. apply bind_ok in H as (first & w1 & H & H').
  apply isFirstStart_inv in H. 2: { split; simpl; [done|..]; intros k v Hk; by rewrite lookup_empty in Hk. }
  apply bind_ok in H' as (u & w2 & H' & Hr). eapply initPermissionCache_inv; [|exact Hr].
  destruct first; [|by injection H' as _ <-]. unfold initFirstUser in H'. destruct (_ || _); [done|].
  apply bind_ok in H' as (v & w3 & H' & [= _ <-]). by eapply CreateUser_ok, H'.
Qed.
End looking.

Section invariant.
Context {S : Type} `{!UserDB S, !UserLaws S} (Argon : string → string → string).
#[local] Set Default Proof Using "All".
#[local] Abbreviation W := (world S).
#[local] Abbreviation inv := (inv Argon).
#[local] Abbreviation looks := (looks Argon).
#[local] Existing Instance looks_preorder.

(** What is written goes to both places, or to none. *)
Definition saved (u : User) (w w' : W) (r : res User) : Prop :=
  inv w' ∧ rrows (db w') = rrows (db w) ∧ perms w' = perms w ∧
  match r with
  | Ok u' => u' = u ∧ users w' = <[u_ID u := u]> (users w) ∧ urows (db w') = <[u_ID u := u]> (urows (db w))
  | Err _ => users w' = users w ∧ urows (db w') = urows (db w)
  end.
Lemma save_user_spec u (w w' : W) r : inv w → no_colon (Salt u) → save_user u w = (r, w') → saved u w w' r.
Proof.
  intros Hw Hs H. destruct r as [u'|e]; [pose proof (save_user_ok _ _ _ _ _ Hw Hs H) as Hw'|];
    unfold save_user, on_db, zoom in H; run_unfold; destruct (User_Set (u_ID u) u (db w)) as [[[]|e'] s'] eqn:E; simplify_eq/=.
  - apply User_Set_law in E as [Er [Eu|[? _]]]; [|done]. split; [done|by split_and!].
  - pose proof (User_Set_failed _ _ _ _ _ E) as Eu. apply User_Set_law in E as [Er _].
    split; [by apply inv_same|by split_and!].
Qed.
Lemma looks_saved u (w w1 w2 : W) r : inv w → looks w w1 → saved u w1 w2 r → saved u w w2 r.
Proof.
  intros Hw Hl (Hw2 & Er & Ep & Hr). destruct (Hl Hw) as (_ & [Eu Er'] & Eus & Eps).
  split; [done|]. split; [congruence|]. split; [congruence|]. by rewrite <- Eus, <- Eu.
Qed.

(** A change of accounts leaves them all, or saves one that has the property. *)
Definition saves (P : User → Prop) (w w' : W) (r : res User) : Prop :=
  (looks w w' ∧ ∃ e, r = Err e) ∨ ∃ u, P u ∧ saved u w w' r.
Lemma saves_inv P (w w' : W) r : inv w → saves P w w' r → inv w'.
Proof. intros Hw [[Hl _]|(u & _ & Hs & _)]; [by eapply looks_inv|done]. Qed.
Lemma looks_saves P (w w1 w2 : W) r : inv w → looks w w1 → saves P w1 w2 r → saves P w w2 r.
Proof.
  intros Hw Hl [[Hl' He]|(u & Hu & Hs)]; [left; split; [by etrans|done]|right]. exists u. split; [done|]. by eapply looks_saved.
Qed.
Lemma build_save (P : User → Prop) (c : M W User) (w w' : W) r : inv w → keeps looks c →
  (∀ u w1, c w = (Ok u, w1) → no_colon (Salt u) ∧ P u) → (c ≫= save_user) w = (r, w') → saves P w w' r.
Proof.
  intros Hw Hc HP [(e & H & ->)|(u & w1 & H & H')]%bind_inv; pose proof (Hc _ _ _ H) as Hl.
  - left. eauto.
  - right. apply HP in H as [Hs Hu]. exists u. split; [done|]. apply save_user_spec in H'; [|by eapply looks_inv|done].
    by eapply looks_saved.
Qed.
Lemma CreateUser_spec id name p role (w w' : W) r : inv w → CreateUser Argon id name p role w = (r, w') →
  saves (λ u, u_ID u = to_lower id ∧ u_Role u = role ∧ (p ≠ "" → Password u = Argon p (Salt u))) w w' r.
Proof.
  intros Hw H. eapply build_save; [done| | |exact H].
  - intros v r' v' Hv. by eapply peeks_looks, new_user_peeks.
  - intros u w1 Hu. by apply new_user_ok in Hu; [|apply Hw..].
Qed.
Lemma UpdateAccount_spec id p name np (w w' : W) r : inv w → UpdateAccount Argon id p name np w = (r, w') →
  saves (λ u, u_ID u = to_lower id ∧ (np ≠ "" → Password u = Argon np (Salt u)) ∧
    ∃ old, users w !! to_lower id = Some old ∧ Argon p (Salt old) = Password old ∧ u_Role u = u_Role old) w w' r.
Proof.
  intros Hw H. eapply build_save; [done| | |exact H].
  - intros v r' v' Hv Hv1. apply changed_account_spec in Hv as [Hl _]; [by apply peeks_looks in Hl; apply Hl|by apply inv_cache].
  - intros u w1 Hu. apply changed_account_spec in Hu as [_ Hu]; [by apply Hu|by apply inv_cache].
Qed.

Lemma DeleteUser_spec id (w w' : W) r : inv w → DeleteUser id w = (r, w') →
  inv w' ∧ users w' = delete (to_lower id) (users w) ∧ perms w' = perms w.
Proof.
  intros [[R1 R2] U P Hh] H. unfold DeleteUser, on_db, zoom, set_users, modify in H. run_unfold.
  destruct (User_Delete _ _) as [x s'] eqn:E. apply User_Delete_law in E as [Er [Hsub Hne]%delete_or_not]. injection H as <- <-.
  split; [|done]. split; simpl; try done.
  - split; rewrite ?Er; [|done]. intros k u Hk. eapply R1, lookup_weaken, Hsub. exact Hk.
  - intros k u [Hk Hu]%lookup_delete_Some. rewrite Hne by done. by apply U.
  - intros k ps Hk. rewrite Er. by apply P.
Qed.
Lemma save_role_inv ro (w w' : W) r : inv w → save_role ro w = (r, w') → inv w'.
Proof.
  intros Hw H. pose proof Hw as [[R1 R2] U P Hh]. unfold save_role, on_db, zoom in H. run_unfold.
  destruct (Role_Set (r_ID ro) ro (db w)) as [[[]|e] s'] eqn:E.
  - apply Role_Set_law in E as [Eu [Er|[? _]]]; [|done]. unfold set_perms, modify in H. simplify_eq/=.
    split; simpl; rewrite ?Er, ?Eu; try done.
    + split; rewrite ?Er, ?Eu; [done|]. intros k v [(<- & <-)|[_ Hk]]%lookup_insert_Some; [done|by apply R2].
    + intros k v [(<- & <-)|[Hne Hk]]%lookup_insert_Some; [exists ro; by rewrite lookup_insert_eq|].
      rewrite lookup_insert_ne by done. by apply P.
  - simplify_eq/=. apply inv_same; [done|]. split; [by apply Role_Set_law in E as [? _]|by eapply Role_Set_failed].
Qed.
Lemma CreateRole_inv id name ps (w w' : W) r : inv w → CreateRole id name ps w = (r, w') → inv w'.
Proof.
  intros Hw H. unfold CreateRole in H. apply bind_inv in H as [(e & H & ->)|(ro & w1 & H & H')];
    pose proof (peeks_looks _ _ _ (new_role_peeks Argon _ _ _ _ _ _ H)) as Hl; [by eapply looks_inv|].
  eapply save_role_inv, H'. by eapply looks_inv.
Qed.
Lemma DeleteRole_inv id (w w' : W) r : inv w → DeleteRole id w = (r, w') → inv w'.
Proof.
  intros [[R1 R2] U P Hh] H. unfold DeleteRole, on_db, zoom, set_perms, modify in H. run_unfold.
  destruct (Role_Delete _ _) as [x s'] eqn:E. apply Role_Delete_law in E as [Eu [Hsub Hne]%delete_or_not]. injection H as <- <-.
  split; simpl; try done.
  - split; rewrite ?Eu; [done|]. intros k u Hk. eapply R2, lookup_weaken, Hsub. exact Hk.
  - intros k u Hk. rewrite Eu. by apply U.
  - intros k ps [Hk Hp]%lookup_delete_Some. rewrite Hne by done. by apply P.
Qed.

(** *** Requests over time *)

Inductive account_op :=
| OCreateUser (id name plaintext role : string) | ODeleteUser (id : string)
| OUpdateAccount (id password name newPassword : string)
| OCreateRole (id name : string) (permissions : list string) | ODeleteRole (id : string)
| OLogin (id password : string).
Definition run_op (o : account_op) : M W () :=
  match o with
  | OCreateUser id name p role => ignore (CreateUser Argon id name p role)
  | ODeleteUser id => ignore (DeleteUser id)
  | OUpdateAccount id p name np => ignore (UpdateAccount Argon id p name np)
  | OCreateRole id name ps => ignore (CreateRole id name ps)
  | ODeleteRole id => ignore (DeleteRole id)
  | OLogin id p => ignore (VerifyCredentials Argon id p)
  end.
Fixpoint run_ops (os : list account_op) : M W () :=
  match os with [] => mret () | o :: os => run_op o;; run_ops os end.
Lemma run_op_inv o (w w' : W) r : inv w → run_op o w = (r, w') → inv w'.
Proof.
  intros Hw H. destruct o; apply ignore_run in H as [x H].
  - by eapply saves_inv, CreateUser_spec, H.
  - by apply DeleteUser_spec in H as [? _].
  - by eapply saves_inv, UpdateAccount_spec, H.
  - by eapply CreateRole_inv.
  - by eapply DeleteRole_inv.
  - apply VerifyCredentials_spec in H as [Hl%(peeks_looks Argon) _]; [by eapply looks_inv|by apply inv_cache].
Qed.
Lemma run_ops_inv os (w w' : W) r : inv w → run_ops os w = (r, w') → inv w'.
Proof.
  revert w. induction os as [|o os IH]; intros w Hw H; cbn [run_ops] in H; [by injection H as _ <-|].
  apply bind_inv in H as [(e & H & _)|(u & w1 & H & H')]; [by eapply run_op_inv|]. eapply IH; [|exact H']. by eapply run_op_inv.
Qed.

(** C7: when users and roles are changed one request at a time, and a write of the
    metadata that fails has changed nothing (bolt and badger; overlapping requests and
    other stores: [admitted_was_stored]): from the start of the process on, whatever was
    done to users and roles and whichever calls of the metadata failed, a request passes
    only for a user that is stored, with the stored password, and a role that is admin
    or stored with the permission. *)
Theorem admitted_stored adminUser adminPassword os (s : S) (w w1 w2 : W) r perm user password :
  rows_ok s → auth_init Argon adminUser adminPassword (MkWorld s ∅ ∅ ∅) = (Ok (), w) → run_ops os w = (r, w1) →
  AuthMiddleware Argon perm (Some (user, password)) w1 = (Ok Next, w2) →
  ∃ u, urows (db w1) !! to_lower user = Some u ∧ Password u = Argon password (Salt u) ∧
    (to_lower (u_Role u) = "admin" ∨ ∃ ro, rrows (db w1) !! to_lower (u_Role u) = Some ro ∧ perm ∈ Permission ro).
Proof.
  intros Hs Hi Ho Ha. assert (inv w1) as Hw by by eapply run_ops_inv, Ho; eapply auth_init_inv, Hi.
  apply access_exact in Ha as (_ & ? & [= <-] & [Ha _] & _); [|done].
  destruct (Ha eq_refl) as (? & ? & u & [= <- <-] & Hu & Hp & Hr). exists u. split; [by apply (inv_users _ _ Hw)|]. split; [done|].
  destruct Hr as [Hr|(ps & Hps & Hin)]; [by left|right]. apply (inv_perms _ _ Hw) in Hps as (ro & Hro & ->).
  exists ro. split; [done|]. by apply elem_of_list_to_set in Hin.
Qed.

(** [revocation]: a user that was deleted is refused at once, even when the metadata failed,
    and so is an old password, unless it gives the hash of the new one. *)
Theorem revocation perm user password (w w1 w2 : W) : inv w →
  (∀ r id, DeleteUser id w = (r, w1) → to_lower user = to_lower id →
     AuthMiddleware Argon perm (Some (user, password)) w1 ≠ (Ok Next, w2)) ∧
  (∀ u id old name new, new ≠ "" → UpdateAccount Argon id old name new w = (Ok u, w1) → to_lower user = to_lower id →
     AuthMiddleware Argon perm (Some (user, password)) w1 = (Ok Next, w2) → Argon password (Salt u) = Argon new (Salt u)).
Proof.
  intros Hw. assert (∀ w1 w2, inv w1 → AuthMiddleware Argon perm (Some (user, password)) w1 = (Ok Next, w2) →
    ∃ u, users w1 !! to_lower user = Some u ∧ Argon password (Salt u) = Password u) as Hpass.
  { intros w3 w4 Hw3 Ha. apply AuthMiddleware_spec in Ha as (_ & ? & [= <-] & [Ha _] & _); [|by apply inv_cache].
    destruct (Ha eq_refl) as (? & ? & u & [= <- <-] & Hu & Hp & _). eauto. }
  split.
  - intros r id [Hw1 [Eu _]]%DeleteUser_spec Eid Ha; [|done]. apply Hpass in Ha as (u & Hu & _); [|done].
    by rewrite Eu, Eid, lookup_delete_eq in Hu.
  - intros u id old name new Hnew Hu Eid Ha. apply UpdateAccount_spec in Hu as [[_ [? [=]]]|(? & (Hid & Hp & _) & Hw1 & _ & _ & <- & Eu & _)]; [|done].
    rewrite Hid in Eu. specialize (Hp Hnew).
    apply Hpass in Ha as (u' & Hu & Hp'); [|done]. rewrite Eu, Eid, lookup_insert_eq in Hu. injection Hu as <-.
    by rewrite Hp', Hp.
Qed.
End invariant.
