(* ===== verification/Accounts.v ===== *)
(** The routes of a node and the requests on accounts (pkg/routes, pkg/handlers/auth): which
    permission every route asks for, and what a request may do to users and roles.

    The table of routes is that of [SetRoutes], less the pages of the user interface,
    /version, /healthz and /swagger. The handlers of users and roles are here, over the
    operations of Auth; a body is given as the result of decoding it. *)
From S2P Require Import Prelude Strings Wire Auth.
#[local] Open Scope Z_scope.

(** ** Routes *)

Inductive method := GET | POST | PUT | DELETE | HEAD.
#[export] Instance method_eq_dec : EqDecision method.
Proof. solve_decision. Defined.
(** [guard]: the permission given to [AuthMiddleware], where the route has it. *)
Record route := MkRoute { r_method : method; r_path : string; guard : option string; handler : string }.

Definition SetRoutes : list route := [
  MkRoute POST "/api/login" None "auth.Login";
  MkRoute PUT "/api/account" None "auth.UpdateAccount";
  MkRoute POST "/api/user" (Some "auth.CreateUpdateUser") "auth.CreateUpdateUser";
  MkRoute PUT "/api/user" (Some "auth.CreateUpdateUser") "auth.CreateUpdateUser";
  MkRoute DELETE "/api/user/:id" (Some "auth.DeleteUser") "auth.DeleteUser";
  MkRoute GET "/api/user" (Some "auth.ListUser") "auth.ListUser";
  MkRoute GET "/api/permissions" (Some "auth.ListPermissions") "auth.ListPermissions";
  MkRoute GET "/api/role" (Some "auth.ListRole") "auth.ListRole";
  MkRoute POST "/api/role" (Some "auth.CreateUpdateRole") "auth.CreateUpdateRole";
  MkRoute PUT "/api/role" (Some "auth.CreateUpdateRole") "auth.CreateUpdateRole";
  MkRoute DELETE "/api/role/:id" (Some "auth.DeleteRole") "auth.DeleteRole";
  MkRoute GET "/api/index" (Some "index.List") "index.List";
  MkRoute GET "/api/index_name" (Some "index.IndexNameList") "index.IndexNameList";
  MkRoute POST "/api/index" (Some "index.Create") "index.Create";
  MkRoute PUT "/api/index" (Some "index.Create") "index.Create";
  MkRoute PUT "/api/index/:target" (Some "index.Create") "index.Create";
  MkRoute DELETE "/api/index/:target" (Some "index.Delete") "index.Delete";
  MkRoute GET "/api/index/:target" (Some "index.Get") "index.Get";
  MkRoute HEAD "/api/index/:target" (Some "index.Exists") "index.Exists";
  MkRoute POST "/api/index/:target/refresh" (Some "index.Refresh") "index.Refresh";
  MkRoute GET "/api/:target/_mapping" (Some "index.GetMapping") "index.GetMapping";
  MkRoute PUT "/api/:target/_mapping" (Some "index.SetMapping") "index.SetMapping";
  MkRoute GET "/api/:target/_settings" (Some "index.GetSettings") "index.GetSettings";
  MkRoute PUT "/api/:target/_settings" (Some "index.SetSettings") "index.SetSettings";
  MkRoute POST "/api/_analyze" (Some "index.Analyze") "index.Analyze";
  MkRoute POST "/api/:target/_analyze" (Some "index.Analyze") "index.Analyze";
  MkRoute GET "/api/stream/status" (Some "stream.Status") "stream.Status";
  MkRoute POST "/api/stream/pause" (Some "stream.Pause") "stream.Pause";
  MkRoute POST "/api/stream/resume" (Some "stream.Resume") "stream.Resume";
  MkRoute GET "/api/backup" (Some "backup.List") "backup.List";
  MkRoute POST "/api/backup" (Some "backup.Create") "backup.Create";
  MkRoute GET "/api/backup/:name" (Some "backup.Get") "backup.Get";
  MkRoute DELETE "/api/backup/:name" (Some "backup.Delete") "backup.Delete";
  MkRoute POST "/api/:target/_search" (Some "search.SearchV1") "search.SearchV1";
  MkRoute POST "/api/_bulk" (Some "document.Bulk") "document.Bulk";
  MkRoute POST "/api/:target/_bulk" (Some "document.Bulk") "document.Bulk";
  MkRoute POST "/api/:target/_multi" (Some "document.Multi") "document.Multi";
  MkRoute POST "/api/_bulkv2" (Some "document.Bulk") "document.Bulkv2";
  MkRoute POST "/api/:target/_bulkv2" (Some "document.Bulk") "document.Bulkv2";
  MkRoute POST "/api/:target/_doc" (Some "document.Create") "document.CreateUpdate";
  MkRoute PUT "/api/:target/_doc" (Some "document.Create") "document.CreateUpdate";
  MkRoute PUT "/api/:target/_doc/:id" (Some "document.Create") "document.CreateUpdate";
  MkRoute HEAD "/api/:target/_doc/:id" (Some "document.Get") "document.Get";
  MkRoute GET "/api/:target/_doc/:id" (Some "document.Get") "document.Get";
  MkRoute POST "/api/:target/_update/:id" (Some "document.Update") "document.Update";
  MkRoute DELETE "/api/:target/_doc/:id" (Some "document.Delete") "document.Delete";
  MkRoute GET "/es/" None "elastic.NewESInfo";
  MkRoute HEAD "/es/" None "elastic.NewESInfo";
  MkRoute GET "/es/_license" None "elastic.NewESLicense";
  MkRoute GET "/es/_xpack" None "elastic.NewESXPack";
  MkRoute POST "/es/_search" (Some "search.SearchDSL") "search.SearchDSL";
  MkRoute POST "/es/_msearch" (Some "search.MultipleSearch") "search.MultipleSearch";
  MkRoute POST "/es/:target/_search" (Some "search.SearchDSL") "search.SearchDSL";
  MkRoute POST "/es/:target/_msearch" (Some "search.MultipleSearch") "search.MultipleSearch";
  MkRoute POST "/es/:target/_delete_by_query" (Some "search.DeleteByQuery") "search.DeleteByQuery";
  MkRoute GET "/es/_index_template" (Some "index.ListTemplate") "index.ListTemplate";
  MkRoute POST "/es/_index_template" (Some "index.CreateTemplate") "index.CreateTemplate";
  MkRoute PUT "/es/_index_template/:target" (Some "index.CreateTemplate") "index.CreateTemplate";
  MkRoute GET "/es/_index_template/:target" (Some "index.GetTemplate") "index.GetTemplate";
  MkRoute HEAD "/es/_index_template/:target" (Some "index.GetTemplate") "index.GetTemplate";
  MkRoute DELETE "/es/_index_template/:target" (Some "index.DeleteTemplate") "index.DeleteTemplate";
  MkRoute PUT "/es/_data_stream/:target" (Some "elastic.PutDataStream") "elastic.PutDataStream";
  MkRoute GET "/es/_data_stream/:target" (Some "elastic.GetDataStream") "elastic.GetDataStream";
  MkRoute HEAD "/es/_data_stream/:target" (Some "elastic.GetDataStream") "elastic.GetDataStream";
  MkRoute PUT "/es/:target" (Some "index.CreateES") "index.CreateES";
  MkRoute HEAD "/es/:target" (Some "index.Exists") "index.Exists";
  MkRoute GET "/es/:target/_mapping" (Some "index.GetESMapping") "index.GetESMapping";
  MkRoute PUT "/es/:target/_mapping" (Some "index.SetMapping") "index.SetMapping";
  MkRoute GET "/es/:target/_settings" (Some "index.GetSettings") "index.GetSettings";
  MkRoute PUT "/es/:target/_settings" (Some "index.SetSettings") "index.SetSettings";
  MkRoute POST "/es/_analyze" (Some "index.Analyze") "index.Analyze";
  MkRoute POST "/es/:target/_analyze" (Some "index.Analyze") "index.Analyze";
  MkRoute POST "/es/_aliases" (Some "index.AddOrRemoveESAlias") "index.AddOrRemoveESAlias";
  MkRoute GET "/es/_alias" (Some "index.GetESAliases") "index.GetESAliases";
  MkRoute GET "/es/:target/_alias" (Some "index.GetESAliases") "index.GetESAliases";
  MkRoute GET "/es/_alias/:target_alias" (Some "index.GetESAliases") "index.GetESAliases";
  MkRoute POST "/es/_bulk" (Some "document.ESBulk") "document.ESBulk";
  MkRoute POST "/es/:target/_bulk" (Some "document.ESBulk") "document.ESBulk";
  MkRoute PUT "/es/:target/_bulk" (Some "document.ESBulk") "document.ESBulk";
  MkRoute POST "/es/:target/_refresh" (Some "index.Refresh") "index.Refresh";
  MkRoute POST "/es/:target/_doc" (Some "document.CreateUpdate") "document.CreateUpdate";
  MkRoute PUT "/es/:target/_doc/:id" (Some "document.CreateUpdate") "document.CreateUpdate";
  MkRoute PUT "/es/:target/_create/:id" (Some "document.CreateUpdate") "document.CreateUpdate";
  MkRoute POST "/es/:target/_create/:id" (Some "document.CreateUpdate") "document.CreateUpdate";
  MkRoute POST "/es/:target/_update/:id" (Some "document.Update") "document.Update";
  MkRoute DELETE "/es/:target/_doc/:id" (Some "document.Delete") "document.Delete";
  MkRoute GET "/es/:target/_doc/:id" (Some "document.Get") "document.Get"
].

(** [Permission.Add], which [AuthMiddleware] calls when the routes are set up. *)
Definition Permission_Add (ps : list string) (v : string) : list string := if decide (v ∈ ps) then ps else ps ++ [v].
Definition GetPermissions : list string := foldl Permission_Add [] (omap guard SetRoutes).

Definition routed (m : method) (path : string) (r : route) : bool := bool_decide (r_method r = m) && bool_decide (r_path r = path).
Definition lookup_route (m : method) (path : string) : option route := List.find (routed m path) SetRoutes.

(** ** Requests on accounts *)

Record LoginUser := MkLoginUser { lu_ID : string; lu_Name : string; lu_Role : string }.
Record LoginRequest := MkLoginRequest { lr_ID : string; lr_Password : string }.
Record UpdateAccountRequest := MkUpdateAccountRequest { ua_ID : string; ua_Password : string; ua_Name : string; ua_NewPassword : string }.

Inductive endpoint :=
| PostLogin (body : res LoginRequest)
| PutAccount (body : res UpdateAccountRequest)
| PostUser (body : res User) | PutUser (body : res User) | DeleteUserID (id : string) | GetUsers
| ListPermissions
| GetRoles | PostRole (body : res Role) | PutRole (body : res Role) | DeleteRoleID (id : string).
Definition route_of (e : endpoint) : method * string :=
  match e with
  | PostLogin _ => (POST, "/api/login")
  | PutAccount _ => (PUT, "/api/account")
  | PostUser _ => (POST, "/api/user")
  | PutUser _ => (PUT, "/api/user")
  | DeleteUserID _ => (DELETE, "/api/user/:id")
  | GetUsers => (GET, "/api/user")
  | ListPermissions => (GET, "/api/permissions")
  | GetRoles => (GET, "/api/role")
  | PostRole _ => (POST, "/api/role")
  | PutRole _ => (PUT, "/api/role")
  | DeleteRoleID _ => (DELETE, "/api/role/:id")
  end.

Inductive answer :=
| AError (code : Z) (text : string)
| AID (message id : string)
| ALogin (validated : bool) (user : LoginUser)
| AAccount (user : LoginUser)
| AUsers (us : list User) | ARoles (rs : list Role) | APermissions (ps : list string).
Definition answer_code (a : answer) : Z := match a with AError code _ => code | _ => 200 end.

Section handlers.
Context {S : Type} `{!UserDB S} (Argon : string → string → string).
#[local] Abbreviation W := (world S).

(** What a failure is answered with. *)
Definition or_500 {A} (c : M W A) (f : A → answer) : M W answer :=
  r ← try c;
  match r with Err e => mret (AError 500 (err_text e)) | Ok a => mret (f a) end.
Definition with_body {A} (body : res A) (h : A → M W answer) : M W answer :=
  match body with Err e => mret (AError 400 (err_text e)) | Ok b => h b end.

Definition Login (body : res LoginRequest) : M W answer :=
  with_body body (λ b,
    v ← VerifyCredentials Argon (lr_ID b) (lr_Password b);
    mret (match v with
          | Some u => ALogin true (MkLoginUser (u_ID u) (u_Name u) (u_Role u))
          | None => ALogin false (MkLoginUser "" "" "")
          end)).
Definition do_account (body : res UpdateAccountRequest) : M W answer :=
  with_body body (λ b,
    if bool_decide (ua_ID b = "") || bool_decide (ua_Password b = "") then
      mret (AError 400 "_id and password should be not empty")
    else if bool_decide (ua_Name b = "") && bool_decide (ua_NewPassword b = "") then
      mret (AError 400 "name or new_password should be not empty")
    else
      r ← try (UpdateAccount Argon (ua_ID b) (ua_Password b) (ua_Name b) (ua_NewPassword b));
      mret (match r with
            | Err e => AError (if errors_Is e ErrInvalidCredentials then 401 else 500) (err_text e)
            | Ok u => AAccount (MkLoginUser (u_ID u) (u_Name u) (u_Role u))
            end)).
Definition CreateUpdateUser (body : res User) : M W answer :=
  with_body body (λ u,
    if decide (u_ID u = "") then mret (AError 400 "user.id should be not empty")
    else or_500 (CreateUser Argon (u_ID u) (u_Name u) (Password u) (u_Role u)) (λ u, AID "ok" (u_ID u))).
Definition ListUser : M W answer :=
  or_500 (on_db User_List) (λ us,
    AUsers ((λ u, MkUser (u_ID u) (u_Name u) (u_Role u) "" "" (u_CreatedAt u) (u_UpdatedAt u)) <$> us)).
Definition do_delete_user (id : string) : M W answer := or_500 (DeleteUser id) (λ _, AID "deleted" id).
Definition CreateUpdateRole (body : res Role) : M W answer :=
  with_body body (λ r,
    if decide (r_ID r = "") then mret (AError 400 "role.id should be not empty")
    else or_500 (CreateRole (r_ID r) (r_Name r) (Permission r)) (λ r, AID "ok" (r_ID r))).
Definition ListRole : M W answer := or_500 (on_db Role_List) ARoles.
Definition do_delete_role (id : string) : M W answer := or_500 (DeleteRole id) (λ _, AID "deleted" id).

Definition handle_account (e : endpoint) : M W answer :=
  match e with
  | PostLogin b => Login b
  | PutAccount b => do_account b
  | PostUser b | PutUser b => CreateUpdateUser b
  | DeleteUserID id => do_delete_user id
  | GetUsers => ListUser
  | ListPermissions => mret (APermissions GetPermissions)
  | GetRoles => ListRole
  | PostRole b | PutRole b => CreateUpdateRole b
  | DeleteRoleID id => do_delete_role id
  end.
(** The handlers of the route, one after the other. *)
Definition serve (creds : option (string * string)) (e : endpoint) : M W answer :=
  match lookup_route (route_of e).1 (route_of e).2 with
  | None => mret (AError 404 "")
  | Some r =>
      match guard r with
      | None => handle_account e
      | Some perm =>
          a ← AuthMiddleware Argon perm creds;
          match a with Next => handle_account e | Json code text => mret (AError code text) end
      end
  end.
End handlers.

(** ** Every route but a few asks for a permission *)

Definition open_routes : list (method * string) :=
  [(POST, "/api/login"); (PUT, "/api/account"); (GET, "/es/"); (HEAD, "/es/"); (GET, "/es/_license"); (GET, "/es/_xpack")].

Lemma Permission_Add_mono ps v p : p ∈ ps → p ∈ Permission_Add ps v.
Proof. unfold Permission_Add. case_decide; [done|]. intros. apply elem_of_app. by left. Qed.
Lemma Permission_Add_has ps v : v ∈ Permission_Add ps v.
Proof. unfold Permission_Add. case_decide; [done|]. apply elem_of_app. right. by left. Qed.
Lemma Permission_Add_NoDup ps v : NoDup ps → NoDup (Permission_Add ps v).
Proof.
  unfold Permission_Add. intros Hn. case_decide as Hv; [done|]. apply NoDup_app. split_and!; [done| |apply NoDup_singleton].
  by intros x Hx ->%list_elem_of_singleton.
Qed.
Lemma foldl_Permission_Add vs ps p : NoDup ps → NoDup (foldl Permission_Add ps vs) ∧ (p ∈ foldl Permission_Add ps vs ↔ p ∈ ps ∨ p ∈ vs).
Proof.
  revert ps. induction vs as [|v vs IH]; intros ps Hn; simpl; [set_solver|].
  destruct (IH (Permission_Add ps v)) as [H1 H2]; [by apply Permission_Add_NoDup|]. split; [done|]. rewrite H2.
  assert (p ∈ Permission_Add ps v ↔ p ∈ ps ∨ p = v); [|set_solver]. unfold Permission_Add. case_decide; set_solver.
Qed.

(** [routes_guarded]: a route asks for a permission, unless it is the login, the change of
    one's own account, or a page on what the server is; every permission asked for is listed,
    once; and no two routes have the same method and path. *)
Theorem routes_guarded :
  (∀ r, r ∈ SetRoutes → guard r = None ↔ (r_method r, r_path r) ∈ open_routes) ∧
  (∀ p, p ∈ GetPermissions ↔ ∃ r, r ∈ SetRoutes ∧ guard r = Some p) ∧ NoDup GetPermissions ∧
  NoDup ((λ r, (r_method r, r_path r)) <$> SetRoutes).
Proof.
  split_and!.
  - assert (forallb (λ r, eqb (bool_decide (guard r = None)) (bool_decide ((r_method r, r_path r) ∈ open_routes))) SetRoutes = true) as H
      by by vm_compute.
    rewrite forallb_forall in H. intros r Hr%list_elem_of_In%H. apply eqb_prop in Hr.
    rewrite <- (bool_decide_eq_true (guard r = None)), Hr. by rewrite bool_decide_eq_true.
  - intros p. unfold GetPermissions. destruct (foldl_Permission_Add (omap guard SetRoutes) [] p) as [_ H]; [constructor|].
    rewrite H, list_elem_of_omap. split; [intros [Hx|Hx]; [by inversion Hx|done]|by right].
  - unfold GetPermissions. destruct (foldl_Permission_Add (omap guard SetRoutes) [] "") as [H _]; [constructor|done].
  - apply (bool_decide_eq_true_1 (NoDup _)). by vm_compute.
Qed.

(** ** What a request may change *)

Section guards.
Context {S : Type} `{!UserDB S, !UserLaws S} (Argon : string → string → string).
#[local] Set Default Proof Using "Type".
#[local] Abbreviation W := (world S).

Lemma or_500_inv {A} (c : M W A) f (w w' : W) r : or_500 c f w = (r, w') →
  ∃ x, c w = (x, w') ∧ r = Ok (match x with Ok a => f a | Err e => AError 500 (err_text e) end).
Proof. unfold or_500. run_unfold. destruct (c w) as [[a|e] w1]; intros [= <- <-]; eauto. Qed.

(** The change of one's own account. *)
Definition own_change (w : W) (id password : string) (w' : W) : Prop :=
  ∃ old u, users w !! to_lower id = Some old ∧ Password old = Argon password (Salt old) ∧ u_Role u = u_Role old ∧
    urows (db w') = <[to_lower id := u]> (urows (db w)) ∧ users w' = <[to_lower id := u]> (users w).
Definition account_spec (body : res UpdateAccountRequest) (w w' : W) : Prop :=
  inv Argon w' ∧ rrows (db w') = rrows (db w) ∧ perms w' = perms w ∧
  ((urows (db w') = urows (db w) ∧ users w' = users w) ∨ ∃ b, body = Ok b ∧ own_change w (ua_ID b) (ua_Password b) w').
Lemma looks_account body (w w' : W) : inv Argon w → looks Argon w w' → account_spec body w w'.
Proof. intros Hw Hl. destruct (Hl Hw) as (Hw' & [Eu Er] & Eus & Eps). split_and!; try done. by left. Qed.
Lemma looks_refl (w : W) : looks Argon w w.
Proof. by intros Hw. Qed.
Lemma do_account_spec body (w w' : W) r : inv Argon w → do_account Argon body w = (r, w') → account_spec body w w'.
Proof.
  intros Hw H. unfold do_account, with_body in H.
  destruct body as [b|e]; [|injection H as _ <-; by apply looks_account, looks_refl].
  destruct (_ || _); [injection H as _ <-; by apply looks_account, looks_refl|].
  destruct (_ && _); [injection H as _ <-; by apply looks_account, looks_refl|].
  apply try_inv in H as (x & w1 & H & [= _ <-]).
  apply UpdateAccount_spec in H as [[Hl _]|(u & (Hid & _ & old & Hu & Hp & Hr) & Hw1 & Er & Ep & Hx)]; [by apply looks_account| |exact Hw].
  split; [done|]. split; [done|]. split; [done|]. destruct x as [u'|e]; [right|by left; destruct Hx].
  destruct Hx as (_ & Eus & Eu). exists b. split; [done|]. exists old, u. rewrite <- Hid. split; [by rewrite Hid|]. by split_and!.
Qed.
Lemma Login_looks body : keeps (looks Argon) (Login Argon body).
Proof.
  intros w r w' H Hw. revert w r w' H Hw. unfold Login, with_body. intros w r w' H. destruct body as [b|e]; [|injection H as _ <-; apply looks_refl].
  intros Hw. apply bind_inv in H as [(e & H & _)|(v & w1 & H & [= _ <-])]; apply VerifyCredentials_spec in H as [Hl%peeks_looks _]; [by apply Hl|by apply inv_cache|by apply Hl|by apply inv_cache].
Qed.
Lemma user_inv body (w w' : W) r : inv Argon w → CreateUpdateUser Argon body w = (r, w') → inv Argon w'.
Proof.
  intros Hw H. unfold CreateUpdateUser, with_body in H. destruct body as [u|e]; [|by injection H as _ <-].
  case_decide; [by injection H as _ <-|]. apply or_500_inv in H as (x & H & _). by eapply saves_inv, CreateUser_spec, H.
Qed.
Lemma role_inv body (w w' : W) r : inv Argon w → CreateUpdateRole body w = (r, w') → inv Argon w'.
Proof.
  intros Hw H. unfold CreateUpdateRole, with_body in H. destruct body as [u|e]; [|by injection H as _ <-].
  case_decide; [by injection H as _ <-|]. apply or_500_inv in H as (x & H & _). by eapply CreateRole_inv.
Qed.
Lemma handle_inv e (w w' : W) r : inv Argon w → handle_account Argon e w = (r, w') → inv Argon w'.
Proof.
  intros Hw H. destruct e as [b|b|b|b|id| | | |b|b|id]; cbn [handle_account] in H.
  - apply Login_looks in H. by eapply looks_inv.
  - by apply do_account_spec in H as [? _].
  - by eapply user_inv.
  - by eapply user_inv.
  - apply or_500_inv in H as (x & H & _). by apply (DeleteUser_spec Argon) in H as [? _].
  - apply or_500_inv in H as (x & H & _). eapply looks_inv; [exact Hw|]. eapply on_db_looks; [|exact H].
    intros s y s' Hl. by apply User_List_law in Hl as [? _].
  - by injection H as _ <-.
  - apply or_500_inv in H as (x & H & _). eapply looks_inv; [exact Hw|]. eapply on_db_looks; [|exact H].
    intros s y s' Hl. by apply Role_List_law in Hl as [? _].
  - by eapply role_inv.
  - by eapply role_inv.
  - apply or_500_inv in H as (x & H & _). by eapply DeleteRole_inv.
Qed.
Lemma handle_users e (w w' : W) us u r : handle_account Argon e w = (r, w') → r = Ok (AUsers us) → u ∈ us → Password u = "" ∧ Salt u = "".
Proof.
  intros H -> Hu.
  assert (e = GetUsers) as ->.
  { destruct e; try done; exfalso; revert H; cbn [handle_account];
      unfold Login, do_account, CreateUpdateUser, CreateUpdateRole, ListRole, do_delete_user, do_delete_role, with_body; intros H;
      repeat match type of H with
      | context [match ?b with Ok _ => _ | Err _ => _ end] => is_var b; destruct b
      | context [if ?b then _ else _] => destruct b
      end; try done; first
      [ apply or_500_inv in H as ([?|?] & _ & [=])
      | apply try_inv in H as ([?|?] & ? & _ & [=])
      | apply bind_ok in H as ([?|] & ? & _ & [=]) ]. }
  cbn [handle_account] in H. apply or_500_inv in H as ([l|e] & _ & [= ->]). apply list_elem_of_fmap in Hu as (v & -> & _). done.
Qed.

(** C8: without the permission of its route a request changes nothing and is
    refused; where the route has none, roles and permissions stay, and so does every user,
    except that somebody who gives a user's password can change that user, whose role stays;
    and no list of users has a password or a salt. *)
Theorem accounts_guarded creds e (w w' : W) r : inv Argon w → serve Argon creds e w = (r, w') →
  inv Argon w' ∧
  (∀ rt perm, lookup_route (route_of e).1 (route_of e).2 = Some rt → guard rt = Some perm →
     (AuthMiddleware Argon perm creds w).1 ≠ Ok Next →
     looks Argon w w' ∧ ∃ code text, r = Ok (AError code text) ∧ (code = 401 ∨ code = 403)) ∧
  (∀ rt, lookup_route (route_of e).1 (route_of e).2 = Some rt → guard rt = None →
     rrows (db w') = rrows (db w) ∧ perms w' = perms w ∧
     ((urows (db w') = urows (db w) ∧ users w' = users w) ∨
      ∃ b, e = PutAccount (Ok b) ∧ own_change w (ua_ID b) (ua_Password b) w')) ∧
  (∀ us u, r = Ok (AUsers us) → u ∈ us → Password u = "" ∧ Salt u = "").
Proof.
  intros Hw H. unfold serve in H. destruct (lookup_route _ _) as [rt|] eqn:Er.
  2: { injection H as <- <-. split; [done|]. split; [done|]. split; [done|]. intros us u [=]. }
  destruct (guard rt) as [perm|] eqn:Eg.
  - destruct (AuthMiddleware Argon perm creds w) as [x w1] eqn:Ea. unfold mbind, M_bind in H. rewrite Ea in H.
    pose proof (access_exact _ _ _ _ _ _ Hw Ea) as (Hl & a & -> & _ & Hcode). pose proof (looks_inv _ _ _ Hw Hl) as Hw1.
    split; [destruct a; [by eapply handle_inv|by injection H as _ <-]|]. split.
    + intros rt' perm' [= <-] Eg' Hn. rewrite Eg in Eg'. injection Eg' as <-. rewrite Ea in Hn. simpl in Hn.
      destruct a as [|code text]; [done|]. injection H as <- <-. split; [done|].
      destruct Hcode as (t & [[= -> ->]|[= -> ->]]); [done|eauto..].
    + split; [intros rt' [= <-]; congruence|]. intros us u ->. destruct a; [by eapply handle_users|done].
  - split; [by eapply handle_inv|]. split; [intros rt' perm' [= <-]; congruence|]. split; [|intros us u ->; by eapply handle_users].
    intros rt' [= <-] _. destruct e; try (vm_compute in Er; injection Er as <-; discriminate Eg); cbn [handle_account] in H.
    + apply Login_looks in H. destruct (H Hw) as (_ & [Eu Err] & Eus & Eps). split_and!; try done. by left.
    + apply do_account_spec in H as (_ & Err & Eps & [Hs|(b & -> & Hb)]); [by split_and!; try done; left| |done].
      split_and!; try done. right. eauto.
Qed.
End guards.

(** ** Inputs *)

Module AccountsDemo.

(** A metadata in memory; each of the calls listed fails, the others succeed. *)
Record mem := MkMem { m_users : gmap string User; m_roles : gmap string Role; m_clock : Z; m_fail : list bool }.
Definition unavailable : error := errors_New "the store is not available".
Definition call {A} (f : mem → res A * mem) : M mem A := λ m,
  let m' := MkMem (m_users m) (m_roles m) (m_clock m) (tail (m_fail m)) in
  if default false (head (m_fail m)) then (Err unavailable, m') else f m'.
#[export] Instance mem_db : UserDB mem := {
  User_Get k := call (λ m, (match m_users m !! k with Some u => Ok u | None => Err ErrKeyNotFound end, m));
  User_Set k u := call (λ m, (Ok (), MkMem (<[k := u]> (m_users m)) (m_roles m) (m_clock m) (m_fail m)));
  User_Delete k := call (λ m, (Ok (), MkMem (delete k (m_users m)) (m_roles m) (m_clock m) (m_fail m)));
  User_List := call (λ m, (Ok (snd <$> map_to_list (m_users m)), m));
  Role_Get k := call (λ m, (match m_roles m !! k with Some u => Ok u | None => Err ErrKeyNotFound end, m));
  Role_Set k u := call (λ m, (Ok (), MkMem (m_users m) (<[k := u]> (m_roles m)) (m_clock m) (m_fail m)));
  Role_Delete k := call (λ m, (Ok (), MkMem (m_users m) (delete k (m_roles m)) (m_clock m) (m_fail m)));
  Role_List := call (λ m, (Ok (snd <$> map_to_list (m_roles m)), m));
  TimeNow := λ m, (Ok (m_clock m), MkMem (m_users m) (m_roles m) (m_clock m + 1) (m_fail m));
  NextID := λ m, (Ok (1 + m_clock m `mod` 1000), MkMem (m_users m) (m_roles m) (m_clock m + 1) (m_fail m));
}.
Lemma list_values {V} (g : gmap string V) u : u ∈ snd <$> map_to_list g ↔ ∃ k, g !! k = Some u.
Proof.
  rewrite list_elem_of_fmap. split.
  - intros ([k v] & -> & Hk). exists k. by apply elem_of_map_to_list in Hk.
  - intros [k Hk]. exists (k, u). split; [done|]. by apply elem_of_map_to_list.
Qed.
Ltac mem_op :=
  intros *; simpl; unfold call;
  match goal with |- context [if ?b then _ else _] => destruct b end; intros [= <- <-]; simpl; try done.
#[local] Program Instance mem_promises : UserPromises mem := { urows := m_users; rrows := m_roles }.
Next Obligation. mem_op. split; [done|]. by destruct (_ !! _). Qed.
Next Obligation. mem_op; eauto. Qed.
Next Obligation. mem_op; eauto. Qed.
Next Obligation. mem_op. split; [done|]. intros l [= <-] u. apply list_values. Qed.
Next Obligation. mem_op. split; [done|]. by destruct (_ !! _). Qed.
Next Obligation. mem_op; eauto. Qed.
Next Obligation. mem_op; eauto. Qed.
Next Obligation. mem_op. split; [done|]. intros l [= <-] u. apply list_values. Qed.
Next Obligation. by intros s r s' [= <- <-]. Qed.
Next Obligation. intros s r s' [= <- <-]. split; [done|]. intros n [= <-]. pose proof (Z.mod_pos_bound (m_clock s) 1000). lia. Qed.
#[export] Instance mem_laws : UserLaws mem.
Proof. refine {| UserLaws_promises := mem_promises |}; mem_op. Defined.
#[local] Remove Hints mem_promises : typeclass_instances.

Definition hash (p s : string) : string := "h(" +:+ p +:+ "," +:+ s +:+ ")".
#[local] Abbreviation W := (world mem).
Definition fresh : mem := MkMem ∅ ∅ 0 [].
Definition started : W := (auth_init hash "admin" "secret" (MkWorld fresh ∅ ∅ ∅)).2.
Definition setup : list account_op :=
  [OCreateRole "Reader" "Readers" ["document.Get"; "auth.ListUser"]; OCreateUser "Ann" "Ann" "pw" "reader"].
Definition running : W := (run_ops hash setup started).2.
Lemma rows_fresh : rows_ok fresh.
Proof. split; simpl; intros k u Hu; by rewrite lookup_empty in Hu. Qed.
Lemma started_run : auth_init hash "admin" "secret" (MkWorld fresh ∅ ∅ ∅) = (Ok (), started).
Proof. by vm_compute. Qed.
Lemma running_run : run_ops hash setup started = (Ok (), running).
Proof. by vm_compute. Qed.
Lemma running_inv : inv hash running.
Proof.
  eapply run_ops_inv, running_run. eapply auth_init_inv, started_run. apply rows_fresh.
Qed.
Definition guarded (perm user password : string) (w : W) : res reply_to := (AuthMiddleware hash perm (Some (user, password)) w).1.

Lemma access_exact_witness : guarded "document.Get" "ann" "pw" running = Ok Next ∧
  guarded "document.Delete" "ann" "pw" running ≠ Ok Next.
Proof.
  split; [by vm_compute|]. unfold guarded. destruct (AuthMiddleware _ _ _ _) as [x w'] eqn:E.
  destruct (access_exact hash _ _ _ _ _ running_inv E) as (_ & a & -> & [H _] & _). intros [= ->].
  destruct (H eq_refl) as (id & p & u & [= <- <-] & Hu & _ & Hr). vm_compute in Hu. injection Hu as <-.
  destruct Hr as [Hr|(ps & Hps & Hin)]; [by vm_compute in Hr|]. vm_compute in Hps. injection Hps as <-.
  by apply (bool_decide_eq_true_2 (_ ∈ _)) in Hin.
Defined.

Lemma admitted_stored_witness : guarded "document.Get" "ANN" "pw" running = Ok Next ∧
  ∃ u, urows (db running) !! "ann" = Some u ∧ Password u = hash "pw" (Salt u).
Proof.
  assert (guarded "document.Get" "ANN" "pw" running = Ok Next) as H by by vm_compute. split; [done|].
  unfold guarded in H. destruct (AuthMiddleware _ _ _ _) as [x w'] eqn:E. simpl in H. subst x.
  destruct (admitted_stored hash _ _ _ _ _ _ _ _ _ _ _ rows_fresh started_run running_run E) as (u & Hu & Hp & _). eauto.
Defined.

Lemma revocation_witness : guarded "document.Get" "ann" "pw" running = Ok Next ∧
  guarded "document.Get" "ann" "pw" (DeleteUser "ann" running).2 ≠ Ok Next.
Proof.
  split; [by vm_compute|]. unfold guarded. destruct (DeleteUser "ann" running) as [r w1] eqn:Ed.
  destruct (AuthMiddleware _ _ _ _) as [x w'] eqn:E. simpl in *. intros ->.
  exact (proj1 (revocation hash "document.Get" "ann" "pw" running w1 w' running_inv) r "ann" Ed eq_refl E).
Defined.

Lemma accounts_guarded_witness :
  looks hash running (serve hash (Some ("ann", "pw")) (DeleteUserID "admin") running).2 ∧
  rrows (db (serve hash None (PutAccount (Ok (MkUpdateAccountRequest "ann" "pw" "Anna" "new"))) running).2) = rrows (db running).
Proof.
  split; destruct (serve _ _ _ _) as [x w'] eqn:E; simpl.
  - destruct (accounts_guarded hash _ _ _ _ _ running_inv E) as (_ & H & _).
    apply (H (MkRoute DELETE "/api/user/:id" (Some "auth.DeleteUser") "auth.DeleteUser") "auth.DeleteUser"); [by vm_compute|done|].
    by vm_compute.
  - destruct (accounts_guarded hash _ _ _ _ _ running_inv E) as (_ & _ & H & _).
    apply (H (MkRoute PUT "/api/account" None "auth.UpdateAccount")); by vm_compute.
Defined.

(** The administrator has changed the password that was configured for the first start. *)
Definition changed : W := (run_ops hash [OUpdateAccount "admin" "secret" "" "changed"] running).2.
Definition restarted (fail : list bool) : W :=
  (auth_init hash "admin" "secret" (MkWorld (MkMem (m_users (db changed)) (m_roles (db changed)) 7 fail) ∅ ∅ ∅)).2.

(** [failed_list_resets_admin]: a restart keeps the passwords; but when the list of users
    cannot be read at the start, which is only logged, the start counts as the first, and
    the administrator's password is the configured one again. *)
Theorem failed_list_resets_admin :
  guarded "" "admin" "changed" (restarted []) = Ok Next ∧ guarded "" "admin" "secret" (restarted []) ≠ Ok Next ∧
  guarded "" "admin" "changed" (restarted [true]) ≠ Ok Next ∧ guarded "" "admin" "secret" (restarted [true]) = Ok Next.
Proof. by vm_compute. Qed.

(** [empty_password_user]: a user created without a password is admitted with the empty one. *)
Theorem empty_password_user :
  guarded "document.Get" "bob" ""
    (serve hash (Some ("admin", "secret")) (PostUser (Ok (MkUser "bob" "Bob" "reader" "" "" 0 0))) running).2 = Ok Next.
Proof. by vm_compute. Qed.
End AccountsDemo.
