(* ===== verification/Changes.v ===== *)
(** Changes of accounts that overlap (pkg/auth): [CreateUser], [UpdateAccount], [DeleteUser],
    [CreateRole] and [DeleteRole] take no lock across their writes to the metadata and to
    the copies in memory, so the requests of several clients interleave between them.

    A request in progress is a [task]; [advance] runs it up to and with its next access that
    others can notice. What is computed before a record is stored ([new_user],
    [changed_account], [new_role]) reads the shared state once, so that it is one access.
    The metadata is only assumed to keep [UserPromises]: a write that fails may have been
    done, and others may change the rows at any time (a [Put] of etcd that took effect after
    its timeout, another process). *)
From S2P Require Import Prelude Strings Wire Base62 Auth Accounts.
#[local] Open Scope Z_scope.

Inductive task :=
| Begin (o : account_op)
| Store_user (u : User) | Cache_user (u : User) | Remove_user (id : string)
| Store_role (ro : Role) | Cache_role (ro : Role) | Remove_role (id : string).

Section changes.
Context {S : Type} `{!UserDB S} (Argon : string → string → string).
#[local] Abbreviation W := (world S).

(** One access of a request, and what it has left to do. *)
Definition advance (t : task) : M W (option task) :=
  match t with
  | Begin (OCreateUser id name plaintext role) =>
      u ← new_user Argon (to_lower id) name plaintext role; mret (Some (Store_user u))
  | Begin (OUpdateAccount id password name newPassword) =>
      u ← changed_account Argon id password name newPassword; mret (Some (Store_user u))
  | Begin (ODeleteUser id) => set_users (delete (to_lower id));; mret (Some (Remove_user (to_lower id)))
  | Begin (OCreateRole id name permissions) =>
      ro ← new_role (to_lower id) name permissions; mret (Some (Store_role ro))
  | Begin (ODeleteRole id) => set_perms (delete (to_lower id));; mret (Some (Remove_role (to_lower id)))
  | Begin (OLogin id password) => VerifyCredentials Argon id password;; mret None
  | Store_user u => on_db (User_Set (u_ID u) u);; mret (Some (Cache_user u))
  | Cache_user u => set_users <[u_ID u := u]>;; mret None
  | Remove_user id => on_db (User_Delete id);; mret None
  | Store_role ro => on_db (Role_Set (r_ID ro) ro);; mret (Some (Cache_role ro))
  | Cache_role ro => set_perms <[r_ID ro := strArrayToMap (Permission ro)]>;; mret None
  | Remove_role id => on_db (Role_Delete id);; mret None
  end.

(** A request ends where an access fails. *)
Definition rest (r : res (option task)) : list task :=
  match r with Ok (Some t) => [t] | _ => [] end.

(** A request that no other one interrupts. *)
Fixpoint alone (n : nat) (t : task) (w : W) : W :=
  match n with
  | O => w
  | Datatypes.S n =>
      let '(r, w1) := advance t w in
      match rest r with t' :: _ => alone n t' w1 | [] => w1 end
  end.

(** It does what the function does. *)
Lemma alone_run_op o w : alone 3 (Begin o) w = (run_op Argon o w).2.
Proof.
  destruct o; cbn [alone advance run_op];
    unfold ignore, CreateUser, UpdateAccount, DeleteUser, CreateRole, DeleteRole, save_user, save_role; run_unfold.
  - destruct (new_user _ _ _ _ _ w) as [[u|e] w1]; do 2 run_unfold; [|done]. by destruct (on_db _ w1) as [[[]|e] w2].
  - unfold set_users, modify. do 2 run_unfold. by destruct (on_db _ _) as [[[]|e] w2].
  - destruct (changed_account _ _ _ _ _ w) as [[u|e] w1]; do 2 run_unfold; [|done]. by destruct (on_db _ w1) as [[[]|e] w2].
  - destruct (new_role _ _ _ w) as [[u|e] w1]; do 2 run_unfold; [|done]. by destruct (on_db _ w1) as [[[]|e] w2].
  - unfold set_perms, modify. do 2 run_unfold. by destruct (on_db _ _) as [[[]|e] w2].
  - by destruct (VerifyCredentials _ _ _ w) as [[u|e] w1].
Qed.
End changes.

Section overlap.
Context {S : Type} `{!UserDB S, !UserPromises S} (Argon : string → string → string).
#[local] Set Default Proof Using "All".
#[local] Abbreviation W := (world S).
#[local] Abbreviation config := (W * list task)%type.

(** A new request comes, one of the requests in progress goes on, or the rows are changed
    from outside. *)
Inductive step : config → config → Prop :=
| step_begin o w ts : step (w, ts) (w, Begin o :: ts)
| step_task t w w' r ts1 ts2 : advance Argon t w = (r, w') →
    step (w, ts1 ++ t :: ts2) (w', ts1 ++ rest r ++ ts2)
| step_outside s w ts : rows_ok s → step (w, ts) (MkWorld s (users w) (perms w) (hashes w), ts).

(** At some time between the two the rows were so. *)
Definition held (c0 c : config) (P : S → Prop) : Prop := ∃ c', rtc step c0 c' ∧ rtc step c' c ∧ P (db c'.1).
Lemma held_now c0 c (P : S → Prop) : rtc step c0 c → P (db c.1) → held c0 c P.
Proof. intros H HP. by exists c. Qed.
Lemma held_later c0 c c' P : held c0 c P → step c c' → held c0 c' P.
Proof. intros (c1 & H1 & H2 & HP) Hs. exists c1. split_and!; [done| |done]. by eapply rtc_r. Qed.

Definition stored_user (k : string) (u : User) (s : S) : Prop := urows s !! k = Some u.
Definition stored_role (k : string) (ps : gset string) (s : S) : Prop :=
  ∃ ro, rrows s !! k = Some ro ∧ ps = strArrayToMap (Permission ro).

(** What is to be stored is sound; what is to be remembered has been stored. *)
Definition task_ok (t : task) (was : (S → Prop) → Prop) : Prop :=
  match t with
  | Store_user u => no_colon (Salt u)
  | Cache_user u => no_colon (Salt u) ∧ was (stored_user (u_ID u) u)
  | Cache_role ro => was (stored_role (r_ID ro) (strArrayToMap (Permission ro)))
  | _ => True
  end.
Lemma task_ok_mono t (was was' : (S → Prop) → Prop) : (∀ P, was P → was' P) → task_ok t was → task_ok t was'.
Proof. intros Hw. destruct t; simpl; naive_solver. Qed.

(** The effect of one access. *)
Record accessed (t : task) (w w' : W) (r : res (option task)) : Prop := {
  ac_rows : rows_ok (db w');
  ac_cache : cache_ok Argon w';
  ac_users k u : users w' !! k = Some u → users w !! k = Some u ∨ t = Cache_user u ∧ k = u_ID u;
  ac_perms k ps : perms w' !! k = Some ps → perms w !! k = Some ps ∨
    ∃ ro, t = Cache_role ro ∧ k = r_ID ro ∧ ps = strArrayToMap (Permission ro);
  ac_rest : Forall (λ t', task_ok t' (λ P, P (db w'))) (rest r);
}.
Lemma accessed_peeks t (w w' : W) r : rows_ok (db w) → cache_ok Argon w → peeks Argon w w' →
  Forall (λ t', task_ok t' (λ P, P (db w'))) (rest r) → accessed t w w' r.
Proof.
  intros Hr Hc Hp Ht. pose proof Hp as (_ & Eu & Ep & _). split; [by eapply peeks_rows|by eapply peeks_cache| | |done].
  - intros k u. rewrite Eu. by left.
  - intros k ps. rewrite Ep. by left.
Qed.
Lemma accessed_db t (w : W) s r : rows_ok s → cache_ok Argon w → Forall (λ t', task_ok t' (λ P, P s)) (rest r) →
  accessed t w (MkWorld s (users w) (perms w) (hashes w)) r.
Proof. intros Hr Hc Ht. split; simpl; eauto. Qed.
Lemma rows_ok_insert (s s' : S) u : rows_ok s → no_colon (Salt u) → rrows s' = rrows s →
  urows s' = <[u_ID u := u]> (urows s) → rows_ok s'.
Proof.
  intros [R1 R2] Hs Er Eu. split; rewrite ?Er, ?Eu; [|done].
  intros k v [(<- & <-)|[_ Hk]]%lookup_insert_Some; [done|by apply R1].
Qed.
Lemma rows_ok_sub (s s' : S) : rows_ok s → urows s' ⊆ urows s → rrows s' ⊆ rrows s → rows_ok s'.
Proof.
  intros [R1 R2] Hu Hr. split; intros k v Hk.
  - eapply R1, lookup_weaken, Hu. exact Hk.
  - eapply R2, lookup_weaken, Hr. exact Hk.
Qed.
Lemma rows_ok_insert_role (s s' : S) ro : rows_ok s → urows s' = urows s →
  rrows s' = <[r_ID ro := ro]> (rrows s) → rows_ok s'.
Proof.
  intros [R1 R2] Eu Er. split; rewrite ?Er, ?Eu; [done|].
  intros k v [(<- & <-)|[_ Hk]]%lookup_insert_Some; [done|by apply R2].
Qed.

(** Those that begin a request look at accounts, or drop the copy. *)
Lemma begin_spec o (w w' : W) r : rows_ok (db w) → cache_ok Argon w → advance Argon (Begin o) w = (r, w') →
  accessed (Begin o) w w' r.
Proof.
  intros Hr Hc H. destruct o; cbn [advance] in H.
  - apply bind_inv in H as [(e & H & ->)|(u & w1 & H & [= <- <-])].
    + apply new_user_peeks in H. by apply accessed_peeks.
    + pose proof H as Hp. apply new_user_peeks in Hp. apply new_user_ok in H as (Hs & _); [|done|apply Hc].
      apply accessed_peeks; [done..|]. by repeat constructor.
  - unfold set_users, modify in H. run_unfold. injection H as <- <-. split; simpl; [done| |eauto..|by repeat constructor].
    + destruct Hc as [Hh Hu]. split; [done|]. intros k u. simpl. intros [_ Hk]%lookup_delete_Some. by apply Hu.
    + intros k u [_ Hk]%lookup_delete_Some. by left.
  - apply bind_inv in H as [(e & H & ->)|(u & w1 & H & [= <- <-])]; apply changed_account_spec in H as [Hp Hu]; [|done|..|done].
    + by apply accessed_peeks.
    + destruct (Hu _ eq_refl) as [Hs _]. apply accessed_peeks; [done..|]. by repeat constructor.
  - apply bind_inv in H as [(e & H & ->)|(u & w1 & H & [= <- <-])]; apply (new_role_peeks Argon) in H;
      (apply accessed_peeks; [done..|]; by repeat constructor).
  - unfold set_perms, modify in H. run_unfold. injection H as <- <-. split; simpl; [done|done|eauto|..|by repeat constructor].
    intros k ps [_ Hk]%lookup_delete_Some. by left.
  - apply bind_inv in H as [(e & H & ->)|(u & w1 & H & [= <- <-])]; apply VerifyCredentials_spec in H as [Hp _]; [|done|..|done];
      by apply accessed_peeks.
Qed.
Lemma on_db_inv {A} (c : M S A) (w w' : W) r : on_db c w = (r, w') →
  ∃ s, c (db w) = (r, s) ∧ w' = MkWorld s (users w) (perms w) (hashes w).
Proof using Type. unfold on_db, zoom. destruct (c (db w)) as [x s] eqn:E. intros [= <- <-]. eauto. Qed.

(** Those that follow store, remember or delete. *)
Lemma advance_spec t was (w w' : W) r : rows_ok (db w) → cache_ok Argon w → task_ok t was → advance Argon t w = (r, w') →
  accessed t w w' r.
Proof.
  intros Hr Hc Ht H. destruct t as [o|u|u|id|ro|ro|id]; cbn [advance] in H; [by apply begin_spec|..].
  - apply bind_inv in H as [(e & H & ->)|([] & w1 & H & [= <- <-])]; apply on_db_inv in H as (s & [Er Eu]%User_Set_law & ->);
      apply accessed_db; try done.
    + destruct Eu as [Eu|[_ Eu]]; [by eapply rows_ok_insert|]. eapply rows_ok_sub; [done|by rewrite Eu|by rewrite Er].
    + destruct Eu as [Eu|[? _]]; [by eapply rows_ok_insert|done].
    + destruct Eu as [Eu|[? _]]; [|done]. repeat constructor; [done|]. unfold stored_user. by rewrite Eu, lookup_insert_eq.
  - unfold set_users, modify in H. run_unfold. injection H as <- <-. destruct Ht as [Hs _], Hc as [Hh Hu].
    split; simpl; [done| |..|by repeat constructor].
    + split; [done|]. intros k v. simpl. intros [(<- & <-)|[_ Hk]]%lookup_insert_Some; [done|by apply Hu].
    + intros k v [(<- & <-)|[_ Hk]]%lookup_insert_Some; [by right|by left].
    + eauto.
  - apply bind_inv in H as [(e & H & ->)|([] & w1 & H & [= <- <-])]; apply on_db_inv in H as (s & [Er [Hs _]%delete_or_not]%User_Delete_law & ->);
      (apply accessed_db; [eapply rows_ok_sub; [done|done|by rewrite Er]|done|by constructor]).
  - apply bind_inv in H as [(e & H & ->)|([] & w1 & H & [= <- <-])]; apply on_db_inv in H as (s & [Eu Er]%Role_Set_law & ->);
      apply accessed_db; try done.
    + destruct Er as [Er|[_ Er]]; [by eapply rows_ok_insert_role|]. eapply rows_ok_sub; [done|by rewrite Eu|by rewrite Er].
    + destruct Er as [Er|[? _]]; [by eapply rows_ok_insert_role|done].
    + destruct Er as [Er|[? _]]; [|done]. repeat constructor. exists ro. by rewrite Er, lookup_insert_eq.
  - unfold set_perms, modify in H. run_unfold. injection H as <- <-. split; simpl; [done|done|eauto| |by repeat constructor].
    intros k v [(<- & <-)|[_ Hk]]%lookup_insert_Some; [right|by left]. eauto.
  - apply bind_inv in H as [(e & H & ->)|([] & w1 & H & [= <- <-])]; apply on_db_inv in H as (s & [Eu [Hs _]%delete_or_not]%Role_Delete_law & ->);
      (apply accessed_db; [eapply rows_ok_sub; [done|by rewrite Eu|done]|done|by constructor]).
Qed.

(** In memory is only what was stored since. *)
Record kept (c0 c : config) : Prop := {
  kp_reached : rtc step c0 c;
  kp_rows : rows_ok (db c.1);
  kp_cache : cache_ok Argon c.1;
  kp_users k u : users c.1 !! k = Some u → held c0 c (stored_user k u);
  kp_perms k ps : perms c.1 !! k = Some ps → held c0 c (stored_role k ps);
  kp_tasks : Forall (λ t, task_ok t (held c0 c)) c.2;
}.
Lemma tasks_later c0 c c' ts : Forall (λ t, task_ok t (held c0 c)) ts → step c c' → Forall (λ t, task_ok t (held c0 c')) ts.
Proof.
  intros Ht Hs. eapply Forall_impl; [exact Ht|]. intros t. apply task_ok_mono. intros P HP. by eapply held_later.
Qed.
Lemma kept_step c0 c c' : kept c0 c → step c c' → kept c0 c'.
Proof.
  intros [Hc Hr Hca Hu Hp Ht] Hs. assert (rtc step c0 c') as Hc' by by eapply rtc_r.
  pose proof (λ k u H, held_later _ _ _ _ (Hu k u H) Hs) as Hu'. pose proof (λ k u H, held_later _ _ _ _ (Hp k u H) Hs) as Hp'.
  pose proof (tasks_later _ _ _ _ Ht Hs) as Ht'. destruct Hs as [o w ts|t w w' r ts1 ts2 Ha|s w ts Hrs]; simpl in *.
  - split; try done. by constructor.
  - pose proof Ht' as [Ht1 [Htt Ht2]%Forall_cons]%Forall_app.
    pose proof (advance_spec _ _ _ _ _ Hr Hca Htt Ha) as [Ar Ac Au Ap At]. split; try done; simpl.
    + intros k u [Hk|[-> ->]]%Au; [by apply Hu'|by apply Htt].
    + intros k ps [Hk|(ro & -> & -> & ->)]%Ap; [by apply Hp'|by apply Htt].
    + rewrite !Forall_app. split_and!; [done| |done]. eapply Forall_impl; [exact At|]. intros t'. apply task_ok_mono.
      intros P HP. by apply held_now.
  - by split.
Qed.
(** A run made of the requests that come and of the places of those that go on. *)
Fixpoint schedule (ms : list (account_op + nat)) (c : config) : config :=
  match ms with
  | [] => c
  | inl o :: ms => schedule ms (c.1, Begin o :: c.2)
  | inr i :: ms =>
      match c.2 !! i with
      | Some t => let '(r, w') := advance Argon t c.1 in
                  schedule ms (w', take i c.2 ++ rest r ++ drop (Datatypes.S i) c.2)
      | None => schedule ms c
      end
  end.
Lemma schedule_steps ms c : rtc step c (schedule ms c).
Proof.
  revert c. induction ms as [|[o|i] ms IH]; intros [w ts]; cbn [schedule fst snd]; [done| |].
  - eapply rtc_l; [apply step_begin|apply IH].
  - destruct (ts !! i) as [t|] eqn:Et; [|apply IH]. destruct (advance Argon t w) as [r w'] eqn:Ea.
    eapply rtc_l; [|apply IH]. rewrite <- (take_drop_middle ts i t Et) at 1. by apply step_task.
Qed.

End overlap.

(** ** Inputs *)

Module ChangesDemo.
Import AccountsDemo.
#[local] Abbreviation W := (world mem).

(** Bob is created, and deleted before the new record is in memory. *)
Definition race : list (account_op + nat) :=
  [inl (OCreateUser "bob" "Bob" "pw2" "reader"); inr 0%nat; inr 0%nat;
   inl (ODeleteUser "bob"); inr 0%nat; inr 0%nat; inr 0%nat].
Definition raced : W * list task := schedule hash race (running, []).

(** He is not stored and no request is in progress, but he passes. *)
Theorem deleted_user_passes : raced.2 = [] ∧ urows (db raced.1) !! "bob" = None ∧
  guarded "document.Get" "bob" "pw2" raced.1 = Ok Next.
Proof. by vm_compute. Qed.

(** The requests that brought the roles and users of the other inputs, then those two. *)
Definition since : list (account_op + nat) :=
  [inl (OCreateRole "Reader" "Readers" ["document.Get"; "auth.ListUser"]); inr 0%nat; inr 0%nat; inr 0%nat] ++ race.
End ChangesDemo.
